(* ===== verification/_CoqProject ===== *)
-Q . S2P
Prelude.v
Prog.v
Packet.v
Addr.v
Kcp.v
Errors.v
Config.v
World.v
Session.v
Transport.v
Examples.v
Blind.v
Incoming.v
Update.v
Invariant.v
Toy.v
Tasks.v
Isolation.v
Plain.v
Network.v
SynOnce.v
Effects.v
SessionSpec.v
IncomingSpec.v
Lifecycle.v
Table.v
Links.v
Wire.v
TransportSpec.v
Shutdown.v
Wakeup.v
UpdateSpec.v
Handshake.v
Endpoint.v
Stream.v
Delivery.v
Fifo.v
Ends.v
Lossy.v
Goodbye.v
ExamplesSpec.v
Backoff.v
Races.v
