(* ===== verification/Prelude.v ===== *)
(** * kcp-peer: a verification development

    kcp-peer (src/src/*.rs) is a peer-to-peer transport: one UDP socket, one
    KCP session per remote address, a SYN / SYN_ACK handshake with a tie-break
    for simultaneous opens, retransmission of SYNs with exponential backoff,
    RESETs, idle timeouts and crash recovery.  Two background tasks (receive and
    update) and any number of API calls share the session map, the sessions,
    the event channel and the socket.  This library models all of it above the
    KCP protocol itself and proves what it does.

    ** How the program is modelled

    A piece of code is a [prog] (Prog.v): a sequence of atomic actions on the
    shared [World] (World.v).  One action is one load or store of an atomic, one
    lock-protected critical section ([atomic]), one socket call or one clock
    reading; an [await] is a point between two actions.  A [prog] has two
    meanings: [run], to its end with nothing in between, used for functional
    specifications; and [pool_step], one action of one task of a pool, with tasks
    spawned and dropped (a cancelled future) at any time, used for everything
    about concurrency.  The two background tasks do not end by themselves: they
    are [loop]s of iterations, with their own steps ([loop_step]).

    The [World] is the mutable part of [KcpPeer]: the sessions ever allocated
    ([heap]; an [Arc<Session>] is an index), the session map, the logs of events
    and datagrams sent, the pending messages, the notification permit and the
    shutdown token.

    What is outside the repository is a parameter: the kcp package is the class
    [KcpLib] with the documented behaviour of its receive queue in [KcpLaws]
    (Kcp.v) and, for the theorems about messages that arrive, its service on a
    network without loss in [KcpLink] (Delivery.v) and on any network in
    [KcpStream] (Stream.v); the operating system (clock
    readings, results of socket calls, random numbers, iteration order of the
    hash map) is the class [Os] with [OsLaws] (World.v).  Toy.v instantiates both for the witnesses.

    ** Files and the code they model

    - Prelude.v: results, machine integers, little-endian bytes, durations,
      shared lemmas and tactics.  Prog.v: programs, their runs, a rely-guarantee
      logic ([safe]), pools and schedules.
    - Packet.v: packet.rs.  Addr.v: [canonicalize], [CanonicalAddr] of
      transport.rs and the order of [SocketAddr] the tie-break uses.
      Errors.v: error.rs.  Config.v: config.rs.
    - Kcp.v, World.v: the interfaces and the shared state (the structs of
      session.rs and transport.rs).
    - Session.v: session.rs; [Module DirectOutput] is the output adapter,
      [Module Session] has one definition per method.
    - Transport.v: [impl KcpPeer] of transport.rs ([bind_with], [send],
      [initiate_session], [recv], [peers], [stats], [disconnect], [shutdown],
      [events], [Drop]).
    - Examples.v: the three programs of src/examples (echo, duplex,
      p2p_gossip), as clients of the API: a Module each, one definition per task
      or function, and [main] as the nodes it binds with their tasks.
    - Incoming.v: [handle_incoming], one definition per arm, and
      [spawn_receive_task].  In the SYN arm, [syn_check] is the block that holds
      the locks, and the SYN_ACK send and [insert_inbound] come after it.
    - Update.v: [spawn_update_task]: the scan of one session, the scan, the
      removal of one address, the tick, the loop.
    - Invariant.v, Tasks.v: the invariant and the evolution relation, shown for
      every program, and then for every pool a node can reach.  Part of the
      invariant is stated against an interface, [Provenance]: which conversation
      ids a node may use with a peer, and which peers it has heard of.
    - Isolation.v: what is done for one peer leaves the others alone.  Plain.v:
      the operations that neither queue messages nor fire [Connected].
      Wakeup.v: the permit that [recv] waits for.  Lifecycle.v: how often
      [Connected] is fired.
    - Table.v, Links.v: the abstract description of a node, a table of links
      (address, state, conversation id) with the connections announced, and
      that every task of a node follows it.
    - Network.v: any number of nodes over a network that loses, delays,
      reorders and duplicates; its provenance is what the nodes have drawn and
      sent.  Wire.v: senders and receivers agree on the packet format.
      Shutdown.v: infinite runs of a node with its two background
      loops, and how they and [recv] end.
    - SynOnce.v: at most one SYN for concurrent sends to one peer.
    - Effects.v, SessionSpec.v, IncomingSpec.v, TransportSpec.v, UpdateSpec.v:
      functional specifications of the operations. Effects.v has the reference
      semantics of a KCP computation ([kio_trace]: its result and the datagrams
      it puts on the wire), which the output adapter is shown to implement and
      in which the other files state what KCP does to a session.
    - Handshake.v: two nodes exchanging packets.  Endpoint.v: what each step of
      [send], the handshake and the receive path makes of one end of a
      connection (Blind.v: what [send] does not touch).  Fifo.v: the
      specification of a connection, two queues, and how nodes without loss get
      there and implement it, with the service of KCP of Delivery.v.  Ends.v and
      Lossy.v: the same specification, implemented by nodes that have other
      peers over a network that loses, repeats and reorders, with the service
      of KCP of Stream.v, which a go-back-N protocol there provides.
      Goodbye.v: the end of such a connection.
      ExamplesSpec.v: what the example programs do.  Backoff.v: the retransmission schedule.
      Races.v: interleavings that lose a session.
    - Toy.v: a concrete KCP and operating system.

    ** What the theorems show

    - Every interleaving: [interleaving_invariant] (well-formed sessions and
      map), [interleaving_evolution] (monotone state machine of a session, logs
      that only grow, final shutdown), [concurrent_sends_one_syn],
      [node_refines_links] (a node is a table of links: what is dialled,
      accepted, completed, removed and announced), [shutdown_wait_ends]
      (in every infinite run the wait of [shutdown] ends when the token is
      cancelled, and not before), [subscriber_sees],
      [connected_once] (a credit argument), [receiver_never_sleeps] (no lost wakeup with one receiver; with
      two, [two_receivers_one_sleeps]), [peers_isolated].
    - Every network: [net_ids_drawn], [single_initiator_agreement] (one id drawn
      between two nodes: both sides always agree), [no_spurious_connection];
      [wire_typed] (no node sends what another rejects as malformed).
    - Delivery on any network: [lossy_connection_refines_fifo] (two nodes are a
      pair of queues from the first message on, during the handshake too, for as
      long as both keep their session),
      [messages_survive_loss] and [crossing_messages_survive_loss] (by the
      ordinary and by the simultaneous handshake: in order, exactly once, and
      all of it once nothing waits to be acknowledged),
      [handshake_survives_loss] (from every state of it, two datagrams complete
      it);
      [disconnect_ends_connection] (after a disconnect the other side has a
      prefix, and both can begin again);
      the limit: [replay_delivers_again].  Without loss, and with every message
      delivered once the wire is empty: [connection_refines_fifo],
      [messages_delivered], [duplex_messages_delivered].
    - Examples: [echo_round_trip] (both incarnations of the client),
      [echo_server_equiv], [duplex_connects], [gossip_opens_sessions],
      [accept_loop_prints].
    - Handshake: [handshake_connects], [simultaneous_handshake_agrees],
      [queued_data_flushed]; and its limits: [wildcard_bind_swaps_ids],
      [duplicate_syn_breaks_agreement], [same_id_never_connects],
      [inbound_race_orphans_session], [stale_prune_kills_new_session],
      [stale_reset_orphans_session].
    - Handlers: [syn_spec] (with its four cases [syn_creates_session],
      [syn_duplicate], [syn_restarts_session], [syn_tie_break]), [syn_ack_spec],
      [reset_spec], [kcp_data_delivers], [kcp_data_unknown_session],
      [malformed_rejected]: result and final world for every packet type and
      every state it meets.
    - Sessions: [send_data_spec], [update_spec], [try_recv_all_complete] (the
      drain loop ends and delivers everything), [maybe_retry_syn_spec],
      [syn_retry_schedule], [syn_retry_exhausts], [write_spec].
    - API: [send_auto_initiates], [send_errors], [recv_conserves],
      [recv_shutting_down], [peers_spec], [stats_spec], [disconnect_spec],
      [shutdown_spec].
    - Update task: [update_tick_refines], a refinement of an abstract
      description of a tick.
    - Data: [split_packet_spec], [control_roundtrip], [canonicalize_spec],
      [addr_gt_strict_total], [builder_last_wins].

    ** Integers, bounds and fuel

    Integers are [Z] with their width written out: [as_u32] and [as_u64] for the
    casts, [saturating_sub], [wrapping_add_u32] for [fetch_add], and [shl_u64],
    which takes the count modulo 64 and drops the bits shifted out, as a build
    without overflow checks does (with them, a count of 64 or more panics);
    Backoff.v assumes [syn_max_retries < 64] and that the longest wait fits in
    64 bits.  [recv_loop] has as fuel the number of messages ready in KCP, and
    [try_recv_all_complete] shows that this is enough; [recv] has as fuel the
    number of times it is polled, and the theorems on it hold for every number;
    [receive_task] and [update_task] recur on the packets received and the
    ticks elapsed and say whether the loop was left: they are what a background
    task does in a pool, where all its finite prefixes are needed; that the
    loops themselves end only by the token, and then do, is a matter of infinite
    runs ([loop_step], [node_run]).

    The example programs recur on the messages they handle ([rounds]) and poll
    [recv] a given number of times ([polls]); a time limit is a [recv] that is
    still pending after its polls.

    ** Not modelled

    The KCP protocol; the capacity of tokio's broadcast channel (a receiver that
    lags behind it); the timer of the update task; logging; the [Debug]
    instances; poisoned locks; the panics of tokio on an event
    channel of capacity 0 or a tick interval of 0.  The
    wait of [shutdown] for its two handles changes nothing and is a predicate on
    their loops ([shutdown_returns]).  In the [select!] of [recv], which is not
    biased, the permit is tried first; as [recv] looks at the token next, the
    order makes no difference to what it returns.  The notification of [recv] is a single permit, as it is while one task at
    most waits.  The read lock that the scan
    holds is not modelled as excluding writers: the pools contain the
    interleavings it rules out, so that what is proved of all pools holds of the
    code; the theorems of Races.v interleave only at points where the code holds
    no lock.  In Network.v the handlers of several datagrams of one node may run
    at once, where the receive task runs them one by one.

    ** Limits of the model

    A bound on the retransmissions of KCP, or on the time a message takes, would
    need the timing of the kcp package, whose code is not here; [KcpStream]
    promises only what arrives.  What tokio does when a subscriber lags or a
    runtime shuts down is its own.  Everything else that the crate does is a
    definition of this library. *)

From stdpp Require Export base tactics option list gmap.
From Stdlib Require Export ZArith.
From Stdlib Require Import Lia.

#[global] Open Scope Z_scope.

(** ** Rust's [Result] *)

Inductive Result (A E : Type) : Type :=
  | Ok (a : A)
  | Err (e : E).
Arguments Ok {A E} a.
Arguments Err {A E} e.

Definition map_err {A E F} (f : E → F) (r : Result A E) : Result A F :=
  match r with Ok a => Ok a | Err e => Err (f e) end.

Definition is_ok {A E} (r : Result A E) : bool :=
  match r with Ok _ => true | Err _ => false end.

(** [Result::ok]: forget the error. *)
Definition ok {A E} (r : Result A E) : option A :=
  match r with Ok a => Some a | Err _ => None end.

(** ** Machine integers

    A [w]-bit unsigned integer is a [Z] in [0, 2^w); the operations write out
    what Rust does at the width. *)

Definition u8_ok (z : Z) : Prop := 0 ≤ z < 2 ^ 8.
Definition u16_ok (z : Z) : Prop := 0 ≤ z < 2 ^ 16.
Definition u32_ok (z : Z) : Prop := 0 ≤ z < 2 ^ 32.
Definition u64_ok (z : Z) : Prop := 0 ≤ z < 2 ^ 64.

Definition u32_MAX : Z := 2 ^ 32 - 1.

(** [x as u32], [x as u64]: truncation. *)
Definition as_u32 (z : Z) : Z := z mod 2 ^ 32.
Definition as_u64 (z : Z) : Z := z mod 2 ^ 64.

(** [a.saturating_sub(b)] on unsigned integers. *)
Definition saturating_sub (a b : Z) : Z := Z.max 0 (a - b).

(** [x << n] on [u64] with a [u32] count. In a build without overflow checks
    the count is taken modulo 64 and the bits shifted out are lost. *)
Definition shl_u64 (x n : Z) : Z := as_u64 (Z.shiftl x (n mod 64)).

(** [AtomicU32::fetch_add] wraps. *)
Definition wrapping_add_u32 (a b : Z) : Z := as_u32 (a + b).

Definition bytes : Type := list Z.
Definition bytes_ok (b : bytes) : Prop := Forall u8_ok b.

(** [u32::to_le_bytes] and [u32::from_le_bytes]. *)
Definition to_le_bytes (x : Z) : bytes :=
  [ Z.land x 255;
    Z.land (Z.shiftr x 8) 255;
    Z.land (Z.shiftr x 16) 255;
    Z.land (Z.shiftr x 24) 255 ].

Fixpoint from_le_bytes (b : bytes) : Z :=
  match b with
  | [] => 0
  | x :: b' => Z.lor x (Z.shiftl (from_le_bytes b') 8)
  end.

(** ** Durations: a [std::time::Duration] is its number of nanoseconds. *)

Definition Duration : Type := Z.
Definition from_millis (ms : Z) : Duration := ms * 1000000.
Definition from_secs (s : Z) : Duration := s * 1000000000.
Definition as_millis (d : Duration) : Z := d / 1000000.

(** ** Automation *)

Create HintDb kcp discriminated.

(** Unfold the width predicates and finish with [lia]. *)
Ltac width_lia :=
  unfold u8_ok, u16_ok, u32_ok, u64_ok, u32_MAX, as_u32, as_u64,
    saturating_sub, wrapping_add_u32 in *; lia.

(** Split every conjunction of the goal and try the closing tactics. *)
Ltac split_all := repeat match goal with |- _ ∧ _ => split end.

(** ** Lemmas on machine integers *)

Lemma as_u32_ok z : u32_ok (as_u32 z).
Proof. unfold u32_ok, as_u32. apply Z.mod_pos_bound. lia. Qed.

Lemma as_u64_ok z : u64_ok (as_u64 z).
Proof. unfold u64_ok, as_u64. apply Z.mod_pos_bound. lia. Qed.

Lemma as_u32_id z : u32_ok z → as_u32 z = z.
Proof. intros. unfold as_u32. apply Z.mod_small. done. Qed.

Lemma as_u64_id z : u64_ok z → as_u64 z = z.
Proof. intros. unfold as_u64. apply Z.mod_small. done. Qed.

Lemma saturating_sub_ok a b : u64_ok a → 0 ≤ b → u64_ok (saturating_sub a b).
Proof. width_lia. Qed.

#[export] Hint Resolve as_u32_ok as_u64_ok saturating_sub_ok : kcp.

(** While nothing is shifted out, [shl_u64] multiplies by the power of two. *)
Lemma shl_u64_small x n :
  0 ≤ x → 0 ≤ n < 64 → x * 2 ^ n < 2 ^ 64 → shl_u64 x n = x * 2 ^ n.
Proof.
  intros Hx Hn Hlt. unfold shl_u64.
  rewrite (Z.mod_small n 64), Z.shiftl_mul_pow2 by lia.
  apply as_u64_id. unfold u64_ok. split; [|lia].
  apply Z.mul_nonneg_nonneg; [lia|]. apply Z.pow_nonneg. lia.
Qed.

Lemma land_255 x : Z.land x 255 = x mod 2 ^ 8.
Proof. change 255 with (Z.ones 8). apply Z.land_ones. lia. Qed.

Lemma lor_shiftl_add x y : u8_ok x → Z.lor x (Z.shiftl y 8) = x + 2 ^ 8 * y.
Proof.
  intros [H0 H1]. rewrite Z.shiftl_mul_pow2 by lia.
  rewrite (Z.mul_comm y), <- Z.add_lor_land.
  assert (Z.land x (2 ^ 8 * y) = 0) as ->; [|lia].
  apply Z.bits_inj'. intros n Hn. rewrite Z.land_spec, Z.bits_0.
  destruct (decide (n < 8)) as [Hlt|Hge].
  - rewrite (Z.mul_comm _ y), Z.mul_pow2_bits_low by lia. apply andb_false_r.
  - assert (x = x mod 2 ^ 8) as -> by (symmetry; apply Z.mod_small; lia).
    rewrite Z.mod_pow2_bits_high by lia. done.
Qed.

Lemma from_le_bytes_cons x b :
  u8_ok x → from_le_bytes (x :: b) = x + 256 * from_le_bytes b.
Proof. intros. cbn [from_le_bytes]. rewrite lor_shiftl_add by done. lia. Qed.

Lemma from_le_bytes_bound b :
  bytes_ok b → 0 ≤ from_le_bytes b < 256 ^ Z.of_nat (length b).
Proof.
  induction 1 as [|x b Hx Hb IH]; [cbn; lia|].
  rewrite from_le_bytes_cons by done. cbn [length].
  rewrite Nat2Z.inj_succ, Z.pow_succ_r by lia. unfold u8_ok in Hx. lia.
Qed.

Lemma from_le_bytes_u32 b : bytes_ok b → length b = 4%nat → u32_ok (from_le_bytes b).
Proof.
  intros Hb Hl. pose proof (from_le_bytes_bound b Hb) as H.
  rewrite Hl in H. unfold u32_ok. change (256 ^ Z.of_nat 4) with (2 ^ 32) in H. lia.
Qed.

Lemma to_le_bytes_ok x : bytes_ok (to_le_bytes x).
Proof.
  unfold to_le_bytes, bytes_ok. rewrite !land_255.
  repeat constructor; try (apply Z.mod_pos_bound; lia);
    match goal with |- _ < _ => apply Z.mod_pos_bound; lia end.
Qed.

Lemma length_to_le_bytes x : length (to_le_bytes x) = 4%nat.
Proof. done. Qed.

Lemma from_to_le_bytes x : u32_ok x → from_le_bytes (to_le_bytes x) = x.
Proof.
  intros [H0 H1]. unfold to_le_bytes. rewrite !land_255, !Z.shiftr_div_pow2 by lia.
  rewrite !from_le_bytes_cons by (apply Z.mod_pos_bound; lia).
  cbn [from_le_bytes]. change (2 ^ 8) with 256. change (2 ^ 16) with (256 * 256).
  change (2 ^ 24) with (256 * 256 * 256).
  rewrite <- !Z.div_div by lia.
  change (2 ^ 32) with 4294967296 in H1.
  pose proof (Z.div_mod x 256). pose proof (Z.div_mod (x / 256) 256).
  pose proof (Z.div_mod (x / 256 / 256) 256).
  assert (x / 256 / 256 / 256 < 256) by (rewrite !Z.div_div by lia; apply Z.div_lt_upper_bound; lia).
  assert (0 ≤ x / 256 / 256 / 256) by (repeat apply Z.div_pos; lia).
  rewrite (Z.mod_small (x / 256 / 256 / 256)) by lia. lia.
Qed.

#[export] Hint Resolve from_le_bytes_u32 to_le_bytes_ok : kcp.

(** ** Lemmas on lists *)

Lemma bytes_ok_take n b : bytes_ok b → bytes_ok (take n b).
Proof. apply Forall_take. Qed.

#[export] Hint Resolve bytes_ok_take : kcp.

Lemma prefix_snoc {A} (l : list A) x : l `prefix_of` l ++ [x].
Proof. by exists [x]. Qed.

#[export] Hint Resolve prefix_snoc : kcp.

(** ** Lemmas on maps *)

Lemma alter_Some {A} (f : A → A) (m : gmap nat A) i x :
  m !! i = Some x → alter f i m = <[i := f x]> m.
Proof.
  intros Hx. apply map_eq. intros j. rewrite lookup_alter, lookup_insert.
  case_decide; subst; [by rewrite Hx|done].
Qed.

(** ** Lemmas on list functions that agree on the members *)

Lemma bind_ext_elem {A B} (f g : A → list B) (l : list A) :
  (∀ x, x ∈ l → f x = g x) → l ≫= f = l ≫= g.
Proof.
  induction l as [|x l IH]; intros H; [done|]. cbn [mbind list_bind].
  rewrite (H x) by left. f_equal. apply IH. intros y Hy. apply H. by right.
Qed.

Lemma fmap_ext_elem {A B} (f g : A → B) (l : list A) :
  (∀ x, x ∈ l → f x = g x) → f <$> l = g <$> l.
Proof.
  intros H. apply list_fmap_ext. intros i x Hx%list_elem_of_lookup_2. by apply H.
Qed.

Lemma sublist_fmap_of {A B} (f : A → B) (l k : list A) :
  l `sublist_of` k → f <$> l `sublist_of` f <$> k.
Proof. induction 1; cbn; by constructor. Qed.
