(* ===== verification/Prog.v ===== *)
(** * Programs as sequences of atomic actions

    The code of the crate is asynchronous and runs on several tasks that share
    the session map, the sessions, the event channel and the socket.  A [prog]
    is a sequence of atomic actions on the shared world: an action is one load
    or store of an atomic, one lock-protected critical section, one socket call
    or one reading of the clock.  The same program is given two meanings:
    - [run]: to completion with nothing in between (a task alone);
    - [pool_step]: one action of one task of a pool, so that the reachable
      pools are all interleavings.

    [safe] is a rely-guarantee logic for [prog]: it is defined by recursion on
    the program, quantifies over the interference allowed by a guarantee
    relation [G] before every action, and has a bind rule and a pool rule. *)

From S2P Require Import Prelude.
From Stdlib Require Import Relations.Relation_Operators.

Inductive prog (W A : Type) : Type :=
  | Ret (a : A)
  | Act {B : Type} (f : W → B * W) (k : B → prog W A).
Arguments Ret {W A} a.
Arguments Act {W A B} f k.

Declare Scope prog_scope.
Delimit Scope prog_scope with prog.
Bind Scope prog_scope with prog.

Section Prog.
Context {W : Type}.

Fixpoint bind {A B} (p : prog W A) (k : A → prog W B) : prog W B :=
  match p with
  | Ret a => k a
  | Act f c => Act f (λ b, bind (c b) k)
  end.

(** Rust's [?]: continue on [Ok], return the error on [Err]. *)
Definition bind_result {A B E} (p : prog W (Result A E))
    (k : A → prog W (Result B E)) : prog W (Result B E) :=
  bind p (λ r, match r with Ok a => k a | Err e => Ret (Err e) end).

Definition act {B} (f : W → B * W) : prog W B := Act f Ret.
Definition get {B} (f : W → B) : prog W B := act (λ w, (f w, w)).
Definition modify (f : W → W) : prog W unit := act (λ w, (tt, f w)).

(** Run alone, to the end. *)
Fixpoint run {A} (p : prog W A) (w : W) : A * W :=
  match p with
  | Ret a => (a, w)
  | Act f k => run (k (f w).1) (f w).2
  end.

(** A critical section: the whole program in one action. *)
Definition atomic {A} (p : prog W A) : prog W A := act (run p).

(** [for x in l { f(x) }] *)
Fixpoint for_each {A} (l : list A) (f : A → prog W unit) : prog W unit :=
  match l with
  | [] => Ret tt
  | x :: l' => bind (f x) (λ _, for_each l' f)
  end.

(** [for _ in 0..n { p }] *)
Fixpoint repeat_prog (n : nat) (p : prog W unit) : prog W unit :=
  match n with
  | O => Ret tt
  | S n' => bind p (λ _, repeat_prog n' p)
  end.

(** ** Programs up to their sequential meaning *)

Definition prog_eq {A} (p q : prog W A) : Prop := ∀ w, run p w = run q w.

#[global] Instance prog_eq_equiv A : Equivalence (@prog_eq A).
Proof.
  split; unfold prog_eq; [done|by intros ? ? ? ?|].
  intros x y z H1 H2 w. by rewrite H1.
Qed.

Lemma run_ret {A} (a : A) w : run (Ret a) w = (a, w).
Proof. done. Qed.

Lemma run_act {B} (f : W → B * W) w : run (act f) w = f w.
Proof. cbn. by destruct (f w). Qed.

Lemma run_get {B} (f : W → B) w : run (get f) w = (f w, w).
Proof. done. Qed.

Lemma run_modify (f : W → W) w : run (modify f) w = (tt, f w).
Proof. done. Qed.

Lemma run_bind {A B} (p : prog W A) (k : A → prog W B) w :
  run (bind p k) w = run (k (run p w).1) (run p w).2.
Proof. revert w. induction p as [a|B' f c IH]; intros w; cbn; [done|]. apply IH. Qed.

Lemma run_bind_eq {A B} (p : prog W A) (k : A → prog W B) w a w' :
  run p w = (a, w') → run (bind p k) w = run (k a) w'.
Proof. intros H. by rewrite run_bind, H. Qed.

Lemma run_atomic {A} (p : prog W A) w : run (atomic p) w = run p w.
Proof. apply run_act. Qed.

#[global] Instance run_proper A : Proper (prog_eq ==> eq ==> eq) (@run A).
Proof. intros p q H w ? <-. apply H. Qed.

#[global] Instance bind_proper A B :
  Proper (prog_eq ==> pointwise_relation A prog_eq ==> prog_eq) (@bind A B).
Proof.
  intros p q Hpq k1 k2 Hk w. rewrite !run_bind, (Hpq w). apply Hk.
Qed.

Lemma bind_ret_l {A B} (a : A) (k : A → prog W B) : bind (Ret a) k = k a.
Proof. done. Qed.

Lemma bind_ret_r {A} (p : prog W A) : prog_eq (bind p Ret) p.
Proof. intros w. rewrite run_bind. cbn. by destruct (run p w). Qed.

Lemma bind_assoc {A B C} (p : prog W A) (k : A → prog W B) (h : B → prog W C) :
  prog_eq (bind (bind p k) h) (bind p (λ a, bind (k a) h)).
Proof. intros w. by rewrite !run_bind. Qed.

Lemma atomic_eq {A} (p : prog W A) : prog_eq (atomic p) p.
Proof. intros w. apply run_atomic. Qed.

Lemma run_for_each_cons {A} x (l : list A) f w :
  run (for_each (x :: l) f) w = run (for_each l f) (run (f x) w).2.
Proof. cbn [for_each]. by rewrite run_bind. Qed.

Lemma run_for_each_app {A} (l1 l2 : list A) f w :
  run (for_each (l1 ++ l2) f) w = run (for_each l2 f) (run (for_each l1 f) w).2.
Proof.
  revert w. induction l1 as [|x l1 IH]; intros w; [done|].
  cbn [app]. by rewrite !run_for_each_cons, IH.
Qed.
End Prog.

Create Rewrite HintDb run.
#[export] Hint Rewrite @run_ret @run_act @run_get @run_modify @run_bind @run_atomic : run.

Notation "x <- p ;; q" := (bind p (λ x, q%prog))
  (at level 100, p at next level, q at level 200, right associativity) : prog_scope.
Notation "p ;; q" := (bind p (λ _, q%prog))
  (at level 100, q at level 200, right associativity) : prog_scope.
Notation "x <-? p ;; q" := (bind_result p (λ x, q%prog))
  (at level 100, p at next level, q at level 200, right associativity) : prog_scope.
Notation "p ?;; q" := (bind_result p (λ _, q%prog))
  (at level 100, q at level 200, right associativity) : prog_scope.

(** What is left of a program after some of its actions, whatever the world
    was when they were taken. *)
Inductive residual {W A} (p : prog W A) : prog W A → Prop :=
  | residual_refl : residual p p
  | residual_act B (f : W → B * W) k w :
      residual p (Act f k) → residual p (k (f w).1).

(** The next action of a program: what is left after it. *)
Definition next_action {W A} (p : prog W A) (w : W) : option (prog W A) :=
  match p with
  | Ret _ => None
  | Act f k => Some (k (f w).1)
  end.

Lemma residual_next {W A} (p q q' : prog W A) w :
  residual p q → next_action q w = Some q' → residual p q'.
Proof. destruct q as [|B f k]; [done|]. intros Hr [= <-]. by apply residual_act. Qed.

Lemma next_action_bind {W A B} (p : prog W A) (k : A → prog W B) w :
  next_action (bind p k) w =
    match p with
    | Ret a => next_action (k a) w
    | Act _ _ => (λ q, bind q k) <$> next_action p w
    end.
Proof. by destruct p. Qed.

(** ** Background tasks

    A task of the form [loop { .. }] does not return by itself: it is between
    two iterations, waiting for what starts the next, or inside one, which says
    whether it left the loop by [break]; only then is the task finished. *)
Inductive loop (W : Type) : Type :=
  | Waiting
  | Inside (p : prog W bool)
  | Finished.
Arguments Waiting {W}.
Arguments Inside {W} p.
Arguments Finished {W}.

(** One step of a task whose iterations are among [iterations]. *)
Inductive loop_step {W} (iterations : prog W bool → Prop) : loop W * W → loop W * W → Prop :=
  | loop_enter p w : iterations p → loop_step iterations (Waiting, w) (Inside p, w)
  | loop_act B (f : W → B * W) k w :
      loop_step iterations (Inside (Act f k), w) (Inside (k (f w).1), (f w).2)
  | loop_again w : loop_step iterations (Inside (Ret false), w) (Waiting, w)
  | loop_break w : loop_step iterations (Inside (Ret true), w) (Finished, w).

(** Inside an iteration the step is determined. *)
Definition loop_next {W} (l : loop W) (w : W) : option (loop W * W) :=
  match l with
  | Inside (Act f k) => Some (Inside (k (f w).1), (f w).2)
  | Inside (Ret b) => Some (if b : bool then Finished else Waiting, w)
  | _ => None
  end.

Lemma loop_step_next {W} (iterations : prog W bool → Prop) l w c :
  loop_step iterations (l, w) c →
  (l = Waiting ∧ ∃ p, iterations p ∧ c = (Inside p, w)) ∨ loop_next l w = Some c.
Proof. inversion 1; subst; [left; eauto|by right..]. Qed.

(** ** Rely-guarantee *)

Section RelyGuarantee.
Context {W : Type} (I : W → Prop) (G : relation W) `{!PreOrder G}.

(** [safe p Q w]: started in a world that [w] can evolve into, every action
    of [p] keeps [I] and is a [G] step, whatever [G] steps the other tasks
    take in between, and [p] ends in a world where [Q] holds. *)
Fixpoint safe {A} (p : prog W A) (Q : A → W → Prop) (w : W) : Prop :=
  match p with
  | Ret a => Q a w
  | Act f k => ∀ w1, G w w1 → I w1 →
      I (f w1).2 ∧ G w1 (f w1).2 ∧ safe (k (f w1).1) Q (f w1).2
  end.

(** A postcondition that the other tasks cannot destroy. *)
Definition stable {A} (Q : A → W → Prop) : Prop :=
  ∀ a w w', Q a w → G w w' → Q a w'.

Lemma safe_evolve {A} (p : prog W A) Q w w' :
  stable Q → safe p Q w → G w w' → safe p Q w'.
Proof.
  intros HQ. destruct p as [a|B f k]; cbn; intros Hs HG.
  - by eapply HQ.
  - intros w1 HG1. apply Hs. by etransitivity.
Qed.

Lemma safe_bind {A B} (p : prog W A) (k : A → prog W B) Q R w :
  safe p Q w → (∀ a w', G w w' → Q a w' → safe (k a) R w') → safe (bind p k) R w.
Proof.
  revert w. induction p as [a|B' f c IH]; cbn; intros w Hp Hk.
  - by apply Hk.
  - intros w1 HG HI. destruct (Hp w1 HG HI) as (? & ? & ?).
    split_and!; [done|done|]. apply IH; [done|].
    intros a w' HG' Ha. apply Hk; [|done]. by do 2 (etransitivity; [done|]).
Qed.

Lemma safe_bind_result {A B E} (p : prog W (Result A E))
    (k : A → prog W (Result B E)) Q R w :
  safe p Q w →
  (∀ a w', G w w' → Q (Ok a) w' → safe (k a) R w') →
  (∀ e w', G w w' → Q (Err e) w' → R (Err e) w') →
  safe (bind_result p k) R w.
Proof.
  intros Hp Hk He. eapply safe_bind; [exact Hp|]. intros [a|e] w' HG HQ; cbn; auto.
Qed.

Lemma safe_mono {A} (p : prog W A) Q R w :
  safe p Q w → (∀ a w', G w w' → Q a w' → R a w') → safe p R w.
Proof.
  revert w. induction p as [a|B f k IH]; cbn; intros w Hp HQR; [by apply HQR|].
  intros w1 HG HI. destruct (Hp w1 HG HI) as (? & ? & ?).
  split_and!; [done|done|]. eapply IH; [done|].
  intros a w' HG' Ha. apply HQR; [|done]. by do 2 (etransitivity; [done|]).
Qed.

Lemma safe_act {B} (f : W → B * W) Q w :
  (∀ w1, G w w1 → I w1 → I (f w1).2 ∧ G w1 (f w1).2 ∧ Q (f w1).1 (f w1).2) →
  safe (act f) Q w.
Proof. done. Qed.

Lemma safe_get {B} (f : W → B) (Q : B → W → Prop) w :
  (∀ w1, G w w1 → I w1 → Q (f w1) w1) → safe (get f) Q w.
Proof. intros H w1 HG HI. cbn. split_and!; [done|reflexivity|by apply H]. Qed.

(** A run is one of the interleavings. *)
Lemma safe_run {A} (p : prog W A) Q w :
  I w → safe p Q w → I (run p w).2 ∧ G w (run p w).2 ∧ Q (run p w).1 (run p w).2.
Proof.
  revert w. induction p as [a|B f k IH]; cbn; intros w HI Hp.
  - split_and!; [done|reflexivity|done].
  - destruct (Hp w ltac:(reflexivity) HI) as (HI' & HG & Hk).
    destruct (IH _ _ HI' Hk) as (? & ? & ?).
    split_and!; [done| |done]. by etransitivity.
Qed.

Lemma safe_atomic {A} (p : prog W A) Q w :
  (∀ w1, G w w1 → I w1 → safe p Q w1) → safe (atomic p) Q w.
Proof. intros H w1 HG HI. cbn. apply safe_run; [done|]. by apply H. Qed.

(** ** Inside a critical section

    Nothing interferes between the actions of an [atomic]: only its first
    and last worlds count, and the program may be replaced by any other with
    the same runs. *)
Definition hoare {A} (p : prog W A) (Q : A → W → Prop) (w : W) : Prop :=
  I (run p w).2 ∧ G w (run p w).2 ∧ Q (run p w).1 (run p w).2.

#[global] Instance hoare_proper A : Proper (prog_eq ==> eq ==> eq ==> iff) (@hoare A).
Proof. intros p q H Q ? <- w ? <-. unfold hoare. by rewrite (H w). Qed.

Lemma hoare_safe {A} (p : prog W A) Q w : I w → safe p Q w → hoare p Q w.
Proof. apply safe_run. Qed.

Lemma hoare_bind {A B} (p : prog W A) (k : A → prog W B) Q R w :
  hoare p Q w →
  (∀ a w', I w' → G w w' → Q a w' → hoare (k a) R w') → hoare (bind p k) R w.
Proof.
  intros (HI & HG & HQ) Hk. destruct (Hk _ _ HI HG HQ) as (? & ? & ?).
  unfold hoare. rewrite run_bind. split_and!; [done| |done]. by etransitivity.
Qed.

Lemma safe_atomic_hoare {A} (p : prog W A) Q w :
  (∀ w1, G w w1 → I w1 → hoare p Q w1) → safe (atomic p) Q w.
Proof. intros H w1 HG HI. by apply H. Qed.

Lemma safe_for_each {A} (l : list A) (f : A → prog W unit) w :
  (∀ x w', G w w' → x ∈ l → safe (f x) (λ _ _, True) w') →
  safe (for_each l f) (λ _ _, True) w.
Proof.
  revert w. induction l as [|x l IH]; intros w Hf; cbn [for_each]; [done|].
  eapply safe_bind; [apply Hf; [reflexivity|left]|]. intros _ w1 HG _.
  apply IH. intros y w2 HG' Hy. apply Hf; [by etransitivity|by right].
Qed.

Lemma safe_repeat n (p : prog W unit) w :
  (∀ w', G w w' → safe p (λ _ _, True) w') → safe (repeat_prog n p) (λ _ _, True) w.
Proof.
  revert w. induction n as [|n IH]; intros w Hp; cbn [repeat_prog]; [done|].
  eapply safe_bind; [apply Hp; reflexivity|]. intros _ w1 HG _.
  apply IH. intros w2 HG2. apply Hp. by etransitivity.
Qed.
End RelyGuarantee.

(** ** Pools of tasks *)

Section Pool.
Context {W : Type} (spawnable : prog W unit → Prop).

Definition pool : Type := list (prog W unit) * W.

(** One action of the task at [i]; a new task is spawned; or the future at
    [i] is dropped before its next action (cancellation). *)
Inductive pool_step : relation pool :=
  | pool_act i B (f : W → B * W) k ts w :
      ts !! i = Some (Act f k) →
      pool_step (ts, w) (<[i := k (f w).1]> ts, (f w).2)
  | pool_spawn p ts w :
      spawnable p → pool_step (ts, w) (ts ++ [p], w)
  | pool_drop i ts w :
      pool_step (ts, w) (<[i := Ret tt]> ts, w).

Definition pool_reach : relation pool := rtc pool_step.

Context (I : W → Prop) (G : relation W) `{!PreOrder G}.
Hypothesis spawn_safe : ∀ p w, spawnable p → safe I G p (λ _ _, True) w.

Definition pool_ok (c : pool) : Prop :=
  I c.2 ∧ Forall (λ p, safe I G p (λ _ _, True) c.2) c.1.

Lemma pool_step_ok c c' : pool_step c c' → pool_ok c → pool_ok c' ∧ G c.2 c'.2.
Proof.
  intros [i B f k ts w Hi|p ts w Hp|i ts w] [HI Hts]; cbn in *.
  - pose proof (Forall_lookup_1 _ _ _ _ Hts Hi) as Hsafe.
    destruct (Hsafe w ltac:(reflexivity) HI) as (HI' & HG & Hk).
    split; [|done]. split; [done|]. cbn.
    apply Forall_insert; [|done].
    eapply Forall_impl; [exact Hts|]. cbn. intros p Hp.
    eapply safe_evolve; [done|done|exact Hp|done].
  - split; [|cbn; reflexivity]. split; [done|]. cbn.
    apply Forall_app; split; [done|]. constructor; [|done]. by apply spawn_safe.
  - split; [|reflexivity]. split; [done|]. cbn. by apply Forall_insert.
Qed.

(** Whatever the interleaving, the invariant holds and the world evolves
    by the guarantee. *)
Lemma pool_reach_ok c c' : pool_reach c c' → pool_ok c → pool_ok c' ∧ G c.2 c'.2.
Proof.
  induction 1 as [c|c1 c2 c3 Hstep _ IH]; intros Hok; [split; [done|reflexivity]|].
  destruct (pool_step_ok _ _ Hstep Hok) as [Hok2 HG].
  destruct (IH Hok2) as [Hok3 HG']. split; [done|by etransitivity].
Qed.

(** Two consecutive halves of one task are two pool steps: any run of a task
    is a reachable pool. *)
Lemma pool_run i p ts w :
  ts !! i = Some p →
  pool_reach (ts, w) (<[i := Ret tt]> ts, (run p w).2).
Proof.
  revert ts w. induction p as [[]|B f k IH]; intros ts w Hi; cbn [run].
  - cbn. rewrite list_insert_id by done. constructor.
  - eapply rtc_l; [by apply pool_act|].
    assert (Hlt : (i < length ts)%nat) by (by eapply lookup_lt_Some).
    etransitivity; [apply IH, list_lookup_insert_eq; done|].
    rewrite list_insert_insert_eq. constructor.
Qed.

(** The first part of a sequence runs, and the task is left at the second. *)
Lemma pool_run_bind {A} i (p : prog W A) k ts w :
  ts !! i = Some (bind p k) →
  pool_reach (ts, w) (<[i := k (run p w).1]> ts, (run p w).2).
Proof.
  revert ts w. induction p as [a|B f c IH]; intros ts w Hi; cbn [run bind fst snd] in *.
  - rewrite list_insert_id by done. constructor.
  - eapply rtc_l; [by apply pool_act|].
    assert (Hlt : (i < length ts)%nat) by (by eapply lookup_lt_Some).
    etransitivity; [apply IH, list_lookup_insert_eq; done|].
    rewrite list_insert_insert_eq. constructor.
Qed.

(** What a step does to the task at [i]: nothing, one of its actions, or the
    future is dropped. *)
Lemma pool_step_at i q ts w ts' w' :
  pool_step (ts, w) (ts', w') → ts !! i = Some q →
  ts' !! i = Some q ∨ ts' !! i = next_action q w ∨ ts' !! i = Some (Ret tt).
Proof.
  intros Hstep Hq. assert (Hlt : (i < length ts)%nat) by (by eapply lookup_lt_Some).
  inversion Hstep as [j B f k ts0 w0 Hj|p ts0 w0 Hp|j ts0 w0]; simplify_eq.
  - destruct (decide (i = j)) as [<-|Hne]; [|left; by rewrite list_lookup_insert_ne].
    right; left. rewrite list_lookup_insert_eq by done.
    assert (q = Act f k) as -> by congruence. done.
  - left. by rewrite lookup_app_l.
  - destruct (decide (i = j)) as [<-|Hne]; [|left; by rewrite list_lookup_insert_ne].
    right; right. by rewrite list_lookup_insert_eq.
Qed.

Lemma pool_spawn_all ps ts w : Forall spawnable ps → pool_reach (ts, w) (ts ++ ps, w).
Proof.
  intros Hps. revert ts. induction Hps as [|p ps Hp Hps IH]; intros ts.
  - rewrite app_nil_r. constructor.
  - eapply rtc_l; [by apply pool_spawn|]. specialize (IH (ts ++ [p])). by rewrite <- app_assoc in IH.
Qed.

(** A schedule: the indices of the tasks that act, one action each. *)
Definition step_task (c : pool) (i : nat) : pool :=
  match c.1 !! i with
  | Some (Act f k) => (<[i := k (f c.2).1]> c.1, (f c.2).2)
  | _ => c
  end.

Definition schedule (l : list nat) (c : pool) : pool := foldl step_task c l.

Lemma schedule_reach l c : pool_reach c (schedule l c).
Proof.
  revert c. induction l as [|i l IH]; intros [ts w]; cbn [schedule foldl]; [constructor|].
  etransitivity; [|apply IH]. unfold step_task. cbn [fst snd].
  destruct (ts !! i) as [[]|] eqn:E; [constructor| |constructor].
  by apply rtc_once, pool_act.
Qed.
End Pool.
