(* ===== verification/Packet.v ===== *)
(** * Wire packets (src/src/packet.rs)

    The type byte, the control packets (SYN, SYN_ACK, RESET) and the framing
    of KCP segments. *)

From S2P Require Import Prelude.

(** [PacketType], [#[repr(u8)]]. *)
Inductive PacketType : Type := KcpData | Syn | SynAck | Reset.

#[export] Instance PacketType_eq_dec : EqDecision PacketType.
Proof. solve_decision. Defined.

(** [typ as u8] *)
Definition PacketType_as_u8 (t : PacketType) : Z :=
  match t with KcpData => 0 | Syn => 1 | SynAck => 2 | Reset => 3 end.

Definition from_byte (b : Z) : option PacketType :=
  if b =? 0 then Some KcpData
  else if b =? 1 then Some Syn
  else if b =? 2 then Some SynAck
  else if b =? 3 then Some Reset
  else None.

Definition encode_control (typ : PacketType) (conv_id : Z) : bytes :=
  [PacketType_as_u8 typ] ++ to_le_bytes conv_id.

Definition encode_kcp_data (kcp_packet : bytes) : bytes :=
  [PacketType_as_u8 KcpData] ++ kcp_packet.

Definition split_packet (buf : bytes) : option (PacketType * bytes) :=
  match buf with
  | [] => None
  | first :: rest =>
      match from_byte first with
      | None => None
      | Some typ => Some (typ, rest)
      end
  end.

(** [conv_bytes.copy_from_slice(&payload[..4]); u32::from_le_bytes(conv_bytes)] *)
Definition payload_conv (payload : bytes) : Z := from_le_bytes (take 4 payload).

(** ** Lemmas *)

Lemma from_byte_as_u8 t : from_byte (PacketType_as_u8 t) = Some t.
Proof. by destruct t. Qed.

Lemma from_byte_Some b t : from_byte b = Some t ↔ b = PacketType_as_u8 t.
Proof.
  split; [|intros ->; apply from_byte_as_u8]. unfold from_byte.
  repeat (case_match; [intros [= <-]; cbn; lia|]). done.
Qed.

Lemma split_cons_type t rest : split_packet (PacketType_as_u8 t :: rest) = Some (t, rest).
Proof. cbn. by rewrite from_byte_as_u8. Qed.

Lemma encode_control_ok t c : bytes_ok (encode_control t c).
Proof.
  constructor; [destruct t; cbn; width_lia|apply to_le_bytes_ok].
Qed.

Lemma split_control t c : split_packet (encode_control t c) = Some (t, to_le_bytes c).
Proof. apply split_cons_type. Qed.

Lemma payload_conv_le c rest : u32_ok c → payload_conv (to_le_bytes c ++ rest) = c.
Proof. intros. unfold payload_conv. cbn [take to_le_bytes app]. by apply from_to_le_bytes. Qed.

Lemma payload_conv_control c : u32_ok c → payload_conv (to_le_bytes c) = c.
Proof. intros. rewrite <- (app_nil_r (to_le_bytes c)). by apply payload_conv_le. Qed.

Lemma payload_conv_u32 p : bytes_ok p → (4 ≤ length p)%nat → u32_ok (payload_conv p).
Proof.
  intros Hp Hl. apply from_le_bytes_u32; [auto with kcp|].
  rewrite length_take. lia.
Qed.

#[export] Hint Resolve payload_conv_u32 encode_control_ok : kcp.

(** ** Properties *)

(** A control packet of any type and any 32-bit conversation id is five bytes
    and is read back by [split_packet] and the handlers' conversation decoding
    as the same type and id; trailing bytes do not matter. *)
Theorem control_roundtrip t c rest :
  u32_ok c →
  length (encode_control t c) = 5%nat ∧
  ∃ payload, split_packet (encode_control t c ++ rest) = Some (t, payload) ∧
    (4 ≤ length payload)%nat ∧ payload_conv payload = c.
Proof.
  intros Hc. split; [done|]. exists (to_le_bytes c ++ rest). split_and!.
  - change (encode_control t c ++ rest) with (PacketType_as_u8 t :: (to_le_bytes c ++ rest)).
    apply split_cons_type.
  - rewrite length_app. cbn. lia.
  - by apply payload_conv_le.
Qed.

Lemma control_roundtrip_witness :
  u32_ok 305419896 ∧
  encode_control SynAck 305419896 = [2; 120; 86; 52; 18] ∧
  ∃ payload, split_packet (encode_control SynAck 305419896 ++ [7]) = Some (SynAck, payload) ∧
    (4 ≤ length payload)%nat ∧ payload_conv payload = 305419896.
Proof.
  assert (u32_ok 305419896) as H by width_lia.
  split; [exact H|]. split; [reflexivity|].
  exact (proj2 (control_roundtrip SynAck 305419896 [7] H)).
Defined.

(** [split_packet] accepts exactly the non-empty buffers whose first byte is
    0 to 3, and on those it is inverse to prefixing the type byte: it never
    loses or reorders payload. *)
Theorem split_packet_spec buf :
  match split_packet buf with
  | Some (typ, rest) => buf = PacketType_as_u8 typ :: rest
  | None => buf = [] ∨ ∃ b rest, buf = b :: rest ∧ (b < 0 ∨ 3 < b)
  end.
Proof.
  destruct buf as [|b rest]; cbn; [by left|].
  destruct (from_byte b) as [t|] eqn:E; [apply from_byte_Some in E; by subst|].
  right. exists b, rest. split; [done|].
  unfold from_byte in E. repeat (case_match; [done|]). lia.
Qed.
