(* ===== verification/Addr.v ===== *)
(** * Socket addresses (src/src/transport.rs, canonicalization)

    [SocketAddr] with its derived order, which decides the tie-break of a
    simultaneous handshake, and the canonical address that keys the session
    map. *)

From S2P Require Import Prelude.

(** [std::net::SocketAddr]; an IPv4 address is a 32-bit number, an IPv6
    address a 128-bit number (network order). *)
Inductive SocketAddr : Type :=
  | V4 (ip port : Z)
  | V6 (ip port flowinfo scope_id : Z).

#[export] Instance SocketAddr_eq_dec : EqDecision SocketAddr.
Proof. solve_decision. Defined.

#[export] Instance SocketAddr_countable : Countable SocketAddr.
Proof.
  refine (inj_countable'
    (λ a, match a with
          | V4 i p => inl (i, p)
          | V6 i p f s => inr (i, p, f, s)
          end)
    (λ x, match x with
          | inl (i, p) => V4 i p
          | inr (i, p, f, s) => V6 i p f s
          end) _).
  by intros [].
Defined.

Definition SocketAddr_ok (a : SocketAddr) : Prop :=
  match a with
  | V4 i p => u32_ok i ∧ u16_ok p
  | V6 i p f s => 0 ≤ i < 2 ^ 128 ∧ u16_ok p ∧ u32_ok f ∧ u32_ok s
  end.

Definition port (a : SocketAddr) : Z :=
  match a with V4 _ p => p | V6 _ p _ _ => p end.

(** [Ordering::then] *)
Definition cmp_then (c1 c2 : comparison) : comparison :=
  match c1 with Eq => c2 | _ => c1 end.

(** The derived [Ord]: variants in order, then the fields in order. *)
Definition SocketAddr_cmp (a b : SocketAddr) : comparison :=
  match a, b with
  | V4 _ _, V6 _ _ _ _ => Lt
  | V6 _ _ _ _, V4 _ _ => Gt
  | V4 i p, V4 i' p' => cmp_then (i ?= i') (p ?= p')
  | V6 i p f s, V6 i' p' f' s' =>
      cmp_then (i ?= i') (cmp_then (p ?= p') (cmp_then (f ?= f') (s ?= s')))
  end.

(** [a > b] *)
Definition addr_gt (a b : SocketAddr) : bool :=
  match SocketAddr_cmp a b with Gt => true | _ => false end.

(** [Ipv6Addr::to_ipv4_mapped]: [::ffff:a.b.c.d]. *)
Definition to_ipv4_mapped (ip : Z) : option Z :=
  if Z.shiftr ip 32 =? 65535 then Some (Z.land ip (Z.ones 32)) else None.

(** [CanonicalAddr(SocketAddr)] *)
Record CanonicalAddr : Type := MkCanonicalAddr { canonical_addr : SocketAddr }.

#[export] Instance CanonicalAddr_eq_dec : EqDecision CanonicalAddr.
Proof. solve_decision. Defined.

#[export] Instance CanonicalAddr_countable : Countable CanonicalAddr.
Proof. refine (inj_countable' canonical_addr MkCanonicalAddr _). by intros []. Defined.

Definition canonicalize (addr : SocketAddr) : CanonicalAddr :=
  let addr :=
    match addr with
    | V6 ip p f s =>
        match to_ipv4_mapped ip with
        | Some v4 => V4 v4 p
        | None => V6 ip p f s
        end
    | other => other
    end in
  MkCanonicalAddr addr.

(** [Deref for CanonicalAddr] *)
Definition deref (c : CanonicalAddr) : SocketAddr := c.(canonical_addr).

(** ** Lemmas *)

Lemma cmp_then_Eq c1 c2 : cmp_then c1 c2 = Eq ↔ c1 = Eq ∧ c2 = Eq.
Proof. destruct c1; cbn; intuition congruence. Qed.

Lemma cmp_then_opp c1 c2 : CompOpp (cmp_then c1 c2) = cmp_then (CompOpp c1) (CompOpp c2).
Proof. by destruct c1. Qed.

Lemma SocketAddr_cmp_Eq a b : SocketAddr_cmp a b = Eq ↔ a = b.
Proof.
  destruct a, b; cbn; rewrite ?cmp_then_Eq, ?Z.compare_eq_iff;
    intuition congruence.
Qed.

Lemma SocketAddr_cmp_antisym a b : SocketAddr_cmp a b = CompOpp (SocketAddr_cmp b a).
Proof.
  destruct a, b; cbn; rewrite ?cmp_then_opp; try done;
    repeat match goal with |- context [CompOpp (?x ?= ?y)] =>
      rewrite <- (Z.compare_antisym x y) end; done.
Qed.

Lemma cmp_then_Gt c1 c2 : cmp_then c1 c2 = Gt ↔ c1 = Gt ∨ c1 = Eq ∧ c2 = Gt.
Proof. destruct c1; cbn; intuition congruence. Qed.

Lemma addr_gt_true a b : addr_gt a b = true ↔ SocketAddr_cmp a b = Gt.
Proof. unfold addr_gt. by destruct (SocketAddr_cmp a b). Qed.

Lemma addr_gt_trans a b c : addr_gt a b = true → addr_gt b c = true → addr_gt a c = true.
Proof.
  rewrite !addr_gt_true. destruct a, b, c; cbn; try done;
    rewrite ?cmp_then_Gt, ?Z.compare_gt_iff, ?Z.compare_eq_iff; lia.
Qed.

(** Of two different addresses exactly one is greater. *)
Lemma addr_gt_flip a b : a ≠ b → addr_gt b a = negb (addr_gt a b).
Proof.
  intros Hne. unfold addr_gt. rewrite (SocketAddr_cmp_antisym b a).
  destruct (SocketAddr_cmp a b) eqn:E; [|done..].
  by apply SocketAddr_cmp_Eq in E.
Qed.

Lemma to_ipv4_mapped_Some ip v4 :
  0 ≤ ip → to_ipv4_mapped ip = Some v4 ↔ u32_ok v4 ∧ ip = 65535 * 2 ^ 32 + v4.
Proof.
  intros Hip. unfold to_ipv4_mapped. rewrite Z.land_ones, Z.shiftr_div_pow2 by lia.
  pose proof (Z.div_mod ip (2 ^ 32)). pose proof (Z.mod_pos_bound ip (2 ^ 32)).
  case_match eqn:E.
  - apply Z.eqb_eq in E. rewrite E in *. split.
    + intros [= <-]. unfold u32_ok. lia.
    + unfold u32_ok. intros [? ?]. f_equal. lia.
  - apply Z.eqb_neq in E. split; [done|]. intros [Hv ->]. destruct E. unfold u32_ok in Hv.
    rewrite Z.add_comm, Z.div_add, Z.div_small by lia. lia.
Qed.

Lemma canonicalize_V4 i p : canonicalize (V4 i p) = MkCanonicalAddr (V4 i p).
Proof. done. Qed.

Lemma canonicalize_V6 i p f s :
  canonicalize (V6 i p f s) =
  MkCanonicalAddr (match to_ipv4_mapped i with Some v4 => V4 v4 p | None => V6 i p f s end).
Proof. unfold canonicalize. by destruct (to_ipv4_mapped i). Qed.

Lemma canonicalize_idem a : canonicalize (canonical_addr (canonicalize a)) = canonicalize a.
Proof.
  destruct a as [|i p f s]; [reflexivity|]. rewrite canonicalize_V6.
  destruct (to_ipv4_mapped i) eqn:E; [reflexivity|]. cbn [canonical_addr].
  by rewrite canonicalize_V6, E.
Qed.

Lemma canonicalize_port a : port (canonical_addr (canonicalize a)) = port a.
Proof.
  destruct a as [|i p f s]; [reflexivity|]. rewrite canonicalize_V6.
  by destruct (to_ipv4_mapped i).
Qed.

Lemma canonicalize_eq_V4 x v4 p :
  SocketAddr_ok x → canonicalize x = MkCanonicalAddr (V4 v4 p) →
  u32_ok v4 ∧ (x = V4 v4 p ∨ ∃ f s, x = V6 (65535 * 2 ^ 32 + v4) p f s).
Proof.
  destruct x as [i q|i q f s]; [rewrite canonicalize_V4|rewrite canonicalize_V6].
  - intros [? ?] [= -> ->]. auto.
  - intros [? ?]. destruct (to_ipv4_mapped i) eqn:E; [|congruence]. intros [= -> ->].
    apply to_ipv4_mapped_Some in E as [? ->]; [|lia]. eauto.
Qed.

Lemma canonicalize_eq_V6 x i p f s :
  canonicalize x = MkCanonicalAddr (V6 i p f s) → x = V6 i p f s.
Proof.
  destruct x as [|j q g t]; [rewrite canonicalize_V4; congruence|].
  rewrite canonicalize_V6. destruct (to_ipv4_mapped j); congruence.
Qed.

Lemma canonicalize_mapped v4 p f s :
  u32_ok v4 → canonicalize (V6 (65535 * 2 ^ 32 + v4) p f s) = MkCanonicalAddr (V4 v4 p).
Proof.
  intros Hv. rewrite canonicalize_V6.
  assert (to_ipv4_mapped (65535 * 2 ^ 32 + v4) = Some v4) as ->; [|done].
  apply to_ipv4_mapped_Some; [unfold u32_ok in Hv; lia|]. done.
Qed.

(** ** Properties *)

(** The order of the tie-break is a strict total order: no address is greater
    than itself, the order is transitive, and of two different addresses
    exactly one is greater, so that of two peers that see each other under
    their own local addresses exactly one loses. *)
Theorem addr_gt_strict_total :
  (∀ a, addr_gt a a = false) ∧
  (∀ a b c, addr_gt a b = true → addr_gt b c = true → addr_gt a c = true) ∧
  (∀ a b, a ≠ b → addr_gt b a = negb (addr_gt a b)).
Proof.
  split_and!; [|apply addr_gt_trans|apply addr_gt_flip].
  intros a. apply not_true_iff_false. rewrite addr_gt_true.
  pose proof (proj2 (SocketAddr_cmp_Eq a a) eq_refl). congruence.
Qed.

(** On two ports of the loopback address. *)
Lemma addr_gt_strict_total_witness :
  addr_gt (V4 2130706433 9002) (V4 2130706433 9000) = true ∧
  addr_gt (V4 2130706433 9000) (V4 2130706433 9002) = false.
Proof.
  split.
  - apply (proj1 (proj2 addr_gt_strict_total) _ (V4 2130706433 9001)); reflexivity.
  - refine (eq_trans (proj2 (proj2 addr_gt_strict_total) (V4 2130706433 9002) _ _) _);
      [discriminate|reflexivity].
Defined.

(** C39. Canonicalization keeps the port, is idempotent, and identifies exactly an
    IPv4 address with its IPv4-mapped IPv6 forms (whatever their flow label
    and scope); other IPv6 addresses are kept apart in full. *)
Theorem canonicalize_spec a b :
  SocketAddr_ok a → SocketAddr_ok b →
  port (canonical_addr (canonicalize a)) = port a ∧
  canonicalize (canonical_addr (canonicalize a)) = canonicalize a ∧
  (canonicalize a = canonicalize b ↔
    a = b ∨
    ∃ v4 p, u32_ok v4 ∧ canonicalize a = MkCanonicalAddr (V4 v4 p) ∧
      (a = V4 v4 p ∨ ∃ f s, a = V6 (65535 * 2 ^ 32 + v4) p f s) ∧
      (b = V4 v4 p ∨ ∃ f s, b = V6 (65535 * 2 ^ 32 + v4) p f s)).
Proof.
  intros Ha Hb. split_and!; [apply canonicalize_port|apply canonicalize_idem|]. split.
  - intros E. destruct (canonicalize a) as [[v4 p|i p f s]] eqn:Ea.
    + right. exists v4, p. destruct (canonicalize_eq_V4 a v4 p Ha Ea).
      by destruct (canonicalize_eq_V4 b v4 p Hb (eq_sym E)).
    + left. by rewrite (canonicalize_eq_V6 a i p f s Ea), (canonicalize_eq_V6 b i p f s).
  - intros [->|(v4 & p & Hv & -> & _ & [->|(f & s & ->)])]; [done|done|].
    symmetry. by apply canonicalize_mapped.
Qed.

Lemma canonicalize_spec_witness :
  SocketAddr_ok (V4 2130706433 8080) ∧
  SocketAddr_ok (V6 (65535 * 2 ^ 32 + 2130706433) 8080 0 0) ∧
  canonicalize (V4 2130706433 8080) =
    canonicalize (V6 (65535 * 2 ^ 32 + 2130706433) 8080 0 0).
Proof.
  assert (H1 : SocketAddr_ok (V4 2130706433 8080)) by (cbn; width_lia).
  assert (H2 : SocketAddr_ok (V6 (65535 * 2 ^ 32 + 2130706433) 8080 0 0))
    by (cbn; width_lia).
  split; [exact H1|]. split; [exact H2|].
  apply (canonicalize_spec _ _ H1 H2). right.
  exists 2130706433, 8080. split; [width_lia|]. split; [reflexivity|].
  split; [by left|right; by exists 0, 0].
Defined.
