(* ===== verification/Kcp.v ===== *)
(** * The KCP library, as an interface

    The crate calls the [kcp] package (Cargo.toml: [path = "../kcp"]), whose
    code is not part of the repository.  [KcpLib] lists the operations the
    source calls; [KcpLaws] the documented behaviour the theorems that need it
    rely on.  An operation that may produce output is a [kio] computation: the
    only thing it can do besides changing its own state is call
    [Write::write] on the output adapter it was created with and look at the
    result. *)

From S2P Require Import Prelude.
From Stdlib Require String.

(** [std::io::Error]: its kind as far as the source distinguishes it. *)
Inductive ErrorKind : Type := WouldBlock | InvalidData | OtherKind (code : Z).

#[export] Instance ErrorKind_eq_dec : EqDecision ErrorKind.
Proof. solve_decision. Defined.

Record IoError : Type := MkIoError { kind : ErrorKind; message : String.string }.

(** A computation that writes frames to the output adapter. *)
Inductive kio (A : Type) : Type :=
  | KRet (a : A)
  | KWrite (frame : bytes) (k : Result Z IoError → kio A).
Arguments KRet {A} a.
Arguments KWrite {A} frame k.

Class KcpLib : Type := {
  kcp_t : Type;
  kcp_error : Type;
  kcp_new : Z → kcp_t;
  kcp_set_nodelay : Z → Z → Z → bool → kcp_t → kcp_t;
  kcp_set_wndsize : Z → Z → kcp_t → kcp_t;
  kcp_set_rx_minrto : Z → kcp_t → kcp_t;
  kcp_set_fast_resend : Z → kcp_t → kcp_t;
  kcp_set_maximum_resend_times : Z → kcp_t → kcp_t;
  kcp_set_interval : Z → kcp_t → kcp_t;
  kcp_set_mtu : Z → kcp_t → kcp_t * Result unit kcp_error;
  kcp_set_conv : Z → kcp_t → kcp_t;
  kcp_send : bytes → kcp_t → kio (kcp_t * Result Z kcp_error);
  kcp_update : Z → kcp_t → kio (kcp_t * Result unit kcp_error);
  kcp_flush : kcp_t → kio (kcp_t * Result unit kcp_error);
  kcp_input : bytes → kcp_t → kio (kcp_t * Result Z kcp_error);
  kcp_peeksize : kcp_t → Result Z kcp_error;
  (** [recv(&mut buf)]: the argument is the buffer, the result carries the
      buffer as it was filled. *)
  kcp_recv : bytes → kcp_t → kio (kcp_t * bytes * Result Z kcp_error);
  kcp_is_dead_link : kcp_t → bool;
  kcp_wait_snd : kcp_t → Z;
  kcp_snd_wnd : kcp_t → Z;
  kcp_rcv_wnd : kcp_t → Z;
  kcp_rmt_wnd : kcp_t → Z;
  (** The number of messages ready to be received: it is used only as the
      variant of the drain loop of [Session::try_recv_all]. *)
  kcp_nready : kcp_t → nat;
}.

(** Documented behaviour of KCP's receive side: it is a queue of complete
    messages; [peeksize] is the size of the first one and fails when there is
    none; [recv] with a buffer of that size copies the message out and removes
    it. [send] only queues: output is produced by [update] and [flush]. A new
    instance is empty and alive. *)
Class KcpLaws {K : KcpLib} : Type := {
  kcp_ready : kcp_t → list bytes;
  kcp_nready_spec k : kcp_nready k = length (kcp_ready k);
  kcp_peeksize_nil k : kcp_ready k = [] → ∃ e, kcp_peeksize k = Err e;
  kcp_peeksize_cons k m q :
    kcp_ready k = m :: q → kcp_peeksize k = Ok (Z.of_nat (length m));
  kcp_recv_cons k m q buf :
    kcp_ready k = m :: q → length buf = length m →
    ∃ k', kcp_recv buf k = KRet (k', m, Ok (Z.of_nat (length m))) ∧
      kcp_ready k' = q ∧ kcp_is_dead_link k' = kcp_is_dead_link k;
  kcp_send_quiet data k : ∃ k' r, kcp_send data k = KRet (k', r);
  kcp_new_ready c : kcp_ready (kcp_new c) = [];
  kcp_new_alive c : kcp_is_dead_link (kcp_new c) = false;
}.

(** [kcp_t] is inhabited, so that lookups can be total. *)
#[export] Instance kcp_t_inhabited {K : KcpLib} : Inhabited kcp_t := populate (kcp_new 0).
