(* ===== verification/Errors.v ===== *)
(** * Errors (src/src/error.rs)

    The error type and its messages, which are what an application shows. How
    the values inside an error print is a parameter. *)

From stdpp Require Import strings pretty.
From S2P Require Import Prelude Kcp Addr.

Section Errors.
Context {K : KcpLib}.

(** [Error]; [Io] and [Kcp] are also its [From] conversions. *)
Inductive Error : Type :=
  | Io (e : IoError)
  | Kcp (e : kcp_error)
  | SessionNotFound (a : SocketAddr)
  | DeadLink
  | ShuttingDown
  | EventChannelLagged (n : Z)
  | SessionClosed.

Context (fmt_io : IoError → string) (fmt_kcp : kcp_error → string) (fmt_addr : SocketAddr → string).

Open Scope string_scope.

(** [Display for Error], as the [#[error]] attributes give it. *)
Definition fmt (e : Error) : string :=
  match e with
  | Io e => "IO error: " +:+ fmt_io e
  | Kcp e => "KCP error: " +:+ fmt_kcp e
  | SessionNotFound a => "session with " +:+ fmt_addr a +:+ " not found"
  | DeadLink => "KCP connection is dead — no ACK from peer"
  | ShuttingDown => "transport is shutting down"
  | EventChannelLagged n => "event channel lagged, dropped " +:+ pretty n +:+ " events"
  | SessionClosed => "session is closed"
  end.

Definition error_kind (e : Error) : nat :=
  match e with
  | Io _ => 0 | Kcp _ => 1 | SessionNotFound _ => 2 | DeadLink => 3 | ShuttingDown => 4
  | EventChannelLagged _ => 5 | SessionClosed => 6
  end%nat.

(** A message tells which error it is, whatever the values inside print as. *)
Lemma fmt_tells_kind e e' : fmt e = fmt e' → error_kind e = error_kind e'.
Proof. destruct e, e'; intros [=]; done. Qed.
End Errors.
