(* ===== verification/Config.v ===== *)
(** * Configuration (src/src/config.rs)

    [KcpConfig], its defaults, its builder, and its application to a new KCP
    instance. *)

From S2P Require Import Prelude Kcp.

Record KcpConfig : Type := MkKcpConfig {
  kcp_interval_ms : Z;
  kcp_nodelay : Z * Z * Z * bool;
  snd_wnd : Z;
  rcv_wnd : Z;
  rx_minrto : Z;
  fast_resend : Z;
  maximum_resend_times : Z;
  tick_interval : Duration;
  session_timeout : Duration;
  event_channel_capacity : Z;
  syn_retry_interval : Duration;
  syn_max_retries : Z;
  mtu : Z;
}.

Definition default : KcpConfig := {|
  kcp_interval_ms := 100;
  kcp_nodelay := (1, 20, 2, true);
  snd_wnd := 128;
  rcv_wnd := 128;
  rx_minrto := 10;
  fast_resend := 1;
  maximum_resend_times := 20;
  tick_interval := from_millis 100;
  session_timeout := from_secs 60;
  event_channel_capacity := 1024;
  syn_retry_interval := from_millis 150;
  syn_max_retries := 5;
  mtu := 1400;
|}.

(** Every field is in the range of its Rust type. *)
Definition KcpConfig_ok (c : KcpConfig) : Prop :=
  u32_ok c.(kcp_interval_ms) ∧ u16_ok c.(snd_wnd) ∧ u16_ok c.(rcv_wnd) ∧
  u32_ok c.(rx_minrto) ∧ u32_ok c.(fast_resend) ∧ u32_ok c.(maximum_resend_times) ∧
  0 ≤ c.(tick_interval) ∧ 0 ≤ c.(session_timeout) ∧ u64_ok c.(event_channel_capacity) ∧
  0 ≤ c.(syn_retry_interval) ∧ u32_ok c.(syn_max_retries) ∧ u16_ok c.(mtu).

(** [KcpConfigBuilder(KcpConfig)]: each setter replaces one field. *)
Module KcpConfigBuilder.
Record t : Type := Wrap { inner : KcpConfig }.

Definition builder : t := Wrap default.

Section Setters.
Context (b : t).
Let c := b.(inner).

Definition kcp_interval_ms (v : Z) : t := Wrap
  {| Config.kcp_interval_ms := v; Config.kcp_nodelay := c.(Config.kcp_nodelay);
     Config.snd_wnd := c.(Config.snd_wnd); Config.rcv_wnd := c.(Config.rcv_wnd);
     Config.rx_minrto := c.(Config.rx_minrto);
     Config.fast_resend := c.(Config.fast_resend);
     Config.maximum_resend_times := c.(Config.maximum_resend_times);
     Config.tick_interval := c.(Config.tick_interval);
     Config.session_timeout := c.(Config.session_timeout);
     Config.event_channel_capacity := c.(Config.event_channel_capacity);
     Config.syn_retry_interval := c.(Config.syn_retry_interval);
     Config.syn_max_retries := c.(Config.syn_max_retries);
     Config.mtu := c.(Config.mtu) |}.

Definition kcp_nodelay (nodelay interval resend : Z) (nc : bool) : t := Wrap
  {| Config.kcp_interval_ms := c.(Config.kcp_interval_ms);
     Config.kcp_nodelay := (nodelay, interval, resend, nc);
     Config.snd_wnd := c.(Config.snd_wnd); Config.rcv_wnd := c.(Config.rcv_wnd);
     Config.rx_minrto := c.(Config.rx_minrto);
     Config.fast_resend := c.(Config.fast_resend);
     Config.maximum_resend_times := c.(Config.maximum_resend_times);
     Config.tick_interval := c.(Config.tick_interval);
     Config.session_timeout := c.(Config.session_timeout);
     Config.event_channel_capacity := c.(Config.event_channel_capacity);
     Config.syn_retry_interval := c.(Config.syn_retry_interval);
     Config.syn_max_retries := c.(Config.syn_max_retries);
     Config.mtu := c.(Config.mtu) |}.

Definition snd_wnd (v : Z) : t := Wrap
  {| Config.kcp_interval_ms := c.(Config.kcp_interval_ms);
     Config.kcp_nodelay := c.(Config.kcp_nodelay); Config.snd_wnd := v;
     Config.rcv_wnd := c.(Config.rcv_wnd); Config.rx_minrto := c.(Config.rx_minrto);
     Config.fast_resend := c.(Config.fast_resend);
     Config.maximum_resend_times := c.(Config.maximum_resend_times);
     Config.tick_interval := c.(Config.tick_interval);
     Config.session_timeout := c.(Config.session_timeout);
     Config.event_channel_capacity := c.(Config.event_channel_capacity);
     Config.syn_retry_interval := c.(Config.syn_retry_interval);
     Config.syn_max_retries := c.(Config.syn_max_retries);
     Config.mtu := c.(Config.mtu) |}.

Definition rcv_wnd (v : Z) : t := Wrap
  {| Config.kcp_interval_ms := c.(Config.kcp_interval_ms);
     Config.kcp_nodelay := c.(Config.kcp_nodelay);
     Config.snd_wnd := c.(Config.snd_wnd); Config.rcv_wnd := v;
     Config.rx_minrto := c.(Config.rx_minrto);
     Config.fast_resend := c.(Config.fast_resend);
     Config.maximum_resend_times := c.(Config.maximum_resend_times);
     Config.tick_interval := c.(Config.tick_interval);
     Config.session_timeout := c.(Config.session_timeout);
     Config.event_channel_capacity := c.(Config.event_channel_capacity);
     Config.syn_retry_interval := c.(Config.syn_retry_interval);
     Config.syn_max_retries := c.(Config.syn_max_retries);
     Config.mtu := c.(Config.mtu) |}.

Definition rx_minrto (v : Z) : t := Wrap
  {| Config.kcp_interval_ms := c.(Config.kcp_interval_ms);
     Config.kcp_nodelay := c.(Config.kcp_nodelay);
     Config.snd_wnd := c.(Config.snd_wnd); Config.rcv_wnd := c.(Config.rcv_wnd);
     Config.rx_minrto := v; Config.fast_resend := c.(Config.fast_resend);
     Config.maximum_resend_times := c.(Config.maximum_resend_times);
     Config.tick_interval := c.(Config.tick_interval);
     Config.session_timeout := c.(Config.session_timeout);
     Config.event_channel_capacity := c.(Config.event_channel_capacity);
     Config.syn_retry_interval := c.(Config.syn_retry_interval);
     Config.syn_max_retries := c.(Config.syn_max_retries);
     Config.mtu := c.(Config.mtu) |}.

Definition fast_resend (v : Z) : t := Wrap
  {| Config.kcp_interval_ms := c.(Config.kcp_interval_ms);
     Config.kcp_nodelay := c.(Config.kcp_nodelay);
     Config.snd_wnd := c.(Config.snd_wnd); Config.rcv_wnd := c.(Config.rcv_wnd);
     Config.rx_minrto := c.(Config.rx_minrto); Config.fast_resend := v;
     Config.maximum_resend_times := c.(Config.maximum_resend_times);
     Config.tick_interval := c.(Config.tick_interval);
     Config.session_timeout := c.(Config.session_timeout);
     Config.event_channel_capacity := c.(Config.event_channel_capacity);
     Config.syn_retry_interval := c.(Config.syn_retry_interval);
     Config.syn_max_retries := c.(Config.syn_max_retries);
     Config.mtu := c.(Config.mtu) |}.

Definition maximum_resend_times (v : Z) : t := Wrap
  {| Config.kcp_interval_ms := c.(Config.kcp_interval_ms);
     Config.kcp_nodelay := c.(Config.kcp_nodelay);
     Config.snd_wnd := c.(Config.snd_wnd); Config.rcv_wnd := c.(Config.rcv_wnd);
     Config.rx_minrto := c.(Config.rx_minrto);
     Config.fast_resend := c.(Config.fast_resend); Config.maximum_resend_times := v;
     Config.tick_interval := c.(Config.tick_interval);
     Config.session_timeout := c.(Config.session_timeout);
     Config.event_channel_capacity := c.(Config.event_channel_capacity);
     Config.syn_retry_interval := c.(Config.syn_retry_interval);
     Config.syn_max_retries := c.(Config.syn_max_retries);
     Config.mtu := c.(Config.mtu) |}.

Definition tick_interval (v : Duration) : t := Wrap
  {| Config.kcp_interval_ms := c.(Config.kcp_interval_ms);
     Config.kcp_nodelay := c.(Config.kcp_nodelay);
     Config.snd_wnd := c.(Config.snd_wnd); Config.rcv_wnd := c.(Config.rcv_wnd);
     Config.rx_minrto := c.(Config.rx_minrto);
     Config.fast_resend := c.(Config.fast_resend);
     Config.maximum_resend_times := c.(Config.maximum_resend_times);
     Config.tick_interval := v;
     Config.session_timeout := c.(Config.session_timeout);
     Config.event_channel_capacity := c.(Config.event_channel_capacity);
     Config.syn_retry_interval := c.(Config.syn_retry_interval);
     Config.syn_max_retries := c.(Config.syn_max_retries);
     Config.mtu := c.(Config.mtu) |}.

Definition session_timeout (v : Duration) : t := Wrap
  {| Config.kcp_interval_ms := c.(Config.kcp_interval_ms);
     Config.kcp_nodelay := c.(Config.kcp_nodelay);
     Config.snd_wnd := c.(Config.snd_wnd); Config.rcv_wnd := c.(Config.rcv_wnd);
     Config.rx_minrto := c.(Config.rx_minrto);
     Config.fast_resend := c.(Config.fast_resend);
     Config.maximum_resend_times := c.(Config.maximum_resend_times);
     Config.tick_interval := c.(Config.tick_interval); Config.session_timeout := v;
     Config.event_channel_capacity := c.(Config.event_channel_capacity);
     Config.syn_retry_interval := c.(Config.syn_retry_interval);
     Config.syn_max_retries := c.(Config.syn_max_retries);
     Config.mtu := c.(Config.mtu) |}.

Definition event_channel_capacity (v : Z) : t := Wrap
  {| Config.kcp_interval_ms := c.(Config.kcp_interval_ms);
     Config.kcp_nodelay := c.(Config.kcp_nodelay);
     Config.snd_wnd := c.(Config.snd_wnd); Config.rcv_wnd := c.(Config.rcv_wnd);
     Config.rx_minrto := c.(Config.rx_minrto);
     Config.fast_resend := c.(Config.fast_resend);
     Config.maximum_resend_times := c.(Config.maximum_resend_times);
     Config.tick_interval := c.(Config.tick_interval);
     Config.session_timeout := c.(Config.session_timeout);
     Config.event_channel_capacity := v;
     Config.syn_retry_interval := c.(Config.syn_retry_interval);
     Config.syn_max_retries := c.(Config.syn_max_retries);
     Config.mtu := c.(Config.mtu) |}.

Definition syn_retry_interval (v : Duration) : t := Wrap
  {| Config.kcp_interval_ms := c.(Config.kcp_interval_ms);
     Config.kcp_nodelay := c.(Config.kcp_nodelay);
     Config.snd_wnd := c.(Config.snd_wnd); Config.rcv_wnd := c.(Config.rcv_wnd);
     Config.rx_minrto := c.(Config.rx_minrto);
     Config.fast_resend := c.(Config.fast_resend);
     Config.maximum_resend_times := c.(Config.maximum_resend_times);
     Config.tick_interval := c.(Config.tick_interval);
     Config.session_timeout := c.(Config.session_timeout);
     Config.event_channel_capacity := c.(Config.event_channel_capacity);
     Config.syn_retry_interval := v;
     Config.syn_max_retries := c.(Config.syn_max_retries);
     Config.mtu := c.(Config.mtu) |}.

Definition syn_max_retries (v : Z) : t := Wrap
  {| Config.kcp_interval_ms := c.(Config.kcp_interval_ms);
     Config.kcp_nodelay := c.(Config.kcp_nodelay);
     Config.snd_wnd := c.(Config.snd_wnd); Config.rcv_wnd := c.(Config.rcv_wnd);
     Config.rx_minrto := c.(Config.rx_minrto);
     Config.fast_resend := c.(Config.fast_resend);
     Config.maximum_resend_times := c.(Config.maximum_resend_times);
     Config.tick_interval := c.(Config.tick_interval);
     Config.session_timeout := c.(Config.session_timeout);
     Config.event_channel_capacity := c.(Config.event_channel_capacity);
     Config.syn_retry_interval := c.(Config.syn_retry_interval);
     Config.syn_max_retries := v; Config.mtu := c.(Config.mtu) |}.

Definition mtu (v : Z) : t := Wrap
  {| Config.kcp_interval_ms := c.(Config.kcp_interval_ms);
     Config.kcp_nodelay := c.(Config.kcp_nodelay);
     Config.snd_wnd := c.(Config.snd_wnd); Config.rcv_wnd := c.(Config.rcv_wnd);
     Config.rx_minrto := c.(Config.rx_minrto);
     Config.fast_resend := c.(Config.fast_resend);
     Config.maximum_resend_times := c.(Config.maximum_resend_times);
     Config.tick_interval := c.(Config.tick_interval);
     Config.session_timeout := c.(Config.session_timeout);
     Config.event_channel_capacity := c.(Config.event_channel_capacity);
     Config.syn_retry_interval := c.(Config.syn_retry_interval);
     Config.syn_max_retries := c.(Config.syn_max_retries); Config.mtu := v |}.

Definition build : KcpConfig :=
  {| Config.kcp_interval_ms := c.(Config.kcp_interval_ms);
     Config.kcp_nodelay := c.(Config.kcp_nodelay);
     Config.snd_wnd := c.(Config.snd_wnd); Config.rcv_wnd := c.(Config.rcv_wnd);
     Config.rx_minrto := c.(Config.rx_minrto);
     Config.fast_resend := c.(Config.fast_resend);
     Config.maximum_resend_times := c.(Config.maximum_resend_times);
     Config.tick_interval := c.(Config.tick_interval);
     Config.session_timeout := c.(Config.session_timeout);
     Config.event_channel_capacity := c.(Config.event_channel_capacity);
     Config.syn_retry_interval := c.(Config.syn_retry_interval);
     Config.syn_max_retries := c.(Config.syn_max_retries);
     Config.mtu := Z.max c.(Config.mtu) 50 |}.
End Setters.
End KcpConfigBuilder.

(** [KcpConfig::apply_to]: the calls on the fresh instance, in order; the
    result of [set_mtu] is dropped. *)
Section Apply.
Context {K : KcpLib}.

Definition apply_to (c : KcpConfig) (k : kcp_t) : kcp_t :=
  let '(nodelay, interval, resend, nc) := c.(kcp_nodelay) in
  let k := kcp_set_nodelay nodelay interval resend nc k in
  let k := kcp_set_wndsize c.(snd_wnd) c.(rcv_wnd) k in
  let k := kcp_set_rx_minrto c.(rx_minrto) k in
  let k := kcp_set_fast_resend c.(fast_resend) k in
  let k := kcp_set_maximum_resend_times c.(maximum_resend_times) k in
  let k := kcp_set_interval c.(kcp_interval_ms) k in
  let mtu := Z.max c.(mtu) 50 in
  (kcp_set_mtu mtu k).1.
End Apply.

(** ** Chains of setters

    A call of a builder method with its arguments, and what a chain of such
    calls ends in. *)
Inductive Setter : Type :=
  | SetKcpIntervalMs (v : Z)
  | SetKcpNodelay (nodelay interval resend : Z) (nc : bool)
  | SetSndWnd (v : Z)
  | SetRcvWnd (v : Z)
  | SetRxMinrto (v : Z)
  | SetFastResend (v : Z)
  | SetMaximumResendTimes (v : Z)
  | SetTickInterval (v : Duration)
  | SetSessionTimeout (v : Duration)
  | SetEventChannelCapacity (v : Z)
  | SetSynRetryInterval (v : Duration)
  | SetSynMaxRetries (v : Z)
  | SetMtu (v : Z).

Definition call_setter (b : KcpConfigBuilder.t) (x : Setter) : KcpConfigBuilder.t :=
  match x with
  | SetKcpIntervalMs v => KcpConfigBuilder.kcp_interval_ms b v
  | SetKcpNodelay n i r nc => KcpConfigBuilder.kcp_nodelay b n i r nc
  | SetSndWnd v => KcpConfigBuilder.snd_wnd b v
  | SetRcvWnd v => KcpConfigBuilder.rcv_wnd b v
  | SetRxMinrto v => KcpConfigBuilder.rx_minrto b v
  | SetFastResend v => KcpConfigBuilder.fast_resend b v
  | SetMaximumResendTimes v => KcpConfigBuilder.maximum_resend_times b v
  | SetTickInterval v => KcpConfigBuilder.tick_interval b v
  | SetSessionTimeout v => KcpConfigBuilder.session_timeout b v
  | SetEventChannelCapacity v => KcpConfigBuilder.event_channel_capacity b v
  | SetSynRetryInterval v => KcpConfigBuilder.syn_retry_interval b v
  | SetSynMaxRetries v => KcpConfigBuilder.syn_max_retries b v
  | SetMtu v => KcpConfigBuilder.mtu b v
  end.

(** The argument of the last call in [xs] that [f] recognises, else [d]. *)
Definition last_set {A} (f : Setter → option A) (xs : list Setter) (d : A) : A :=
  from_option id d (last (omap f xs)).

Lemma last_set_snoc {A} (f : Setter → option A) xs x d :
  last_set f (xs ++ [x]) d = match f x with Some v => v | None => last_set f xs d end.
Proof.
  unfold last_set. rewrite omap_app. cbn [omap list_omap].
  destruct (f x); [by rewrite last_snoc|by rewrite app_nil_r].
Qed.

(** The configuration a chain should give: field by field, the last value set,
    or the default. *)
Definition chained (xs : list Setter) : KcpConfig := {|
  kcp_interval_ms := last_set (λ x, if x is SetKcpIntervalMs v then Some v else None) xs 100;
  kcp_nodelay := last_set (λ x, if x is SetKcpNodelay n i r nc then Some (n, i, r, nc) else None)
    xs (1, 20, 2, true);
  snd_wnd := last_set (λ x, if x is SetSndWnd v then Some v else None) xs 128;
  rcv_wnd := last_set (λ x, if x is SetRcvWnd v then Some v else None) xs 128;
  rx_minrto := last_set (λ x, if x is SetRxMinrto v then Some v else None) xs 10;
  fast_resend := last_set (λ x, if x is SetFastResend v then Some v else None) xs 1;
  maximum_resend_times :=
    last_set (λ x, if x is SetMaximumResendTimes v then Some v else None) xs 20;
  tick_interval :=
    last_set (λ x, if x is SetTickInterval v then Some v else None) xs (from_millis 100);
  session_timeout :=
    last_set (λ x, if x is SetSessionTimeout v then Some v else None) xs (from_secs 60);
  event_channel_capacity :=
    last_set (λ x, if x is SetEventChannelCapacity v then Some v else None) xs 1024;
  syn_retry_interval :=
    last_set (λ x, if x is SetSynRetryInterval v then Some v else None) xs (from_millis 150);
  syn_max_retries := last_set (λ x, if x is SetSynMaxRetries v then Some v else None) xs 5;
  mtu := last_set (λ x, if x is SetMtu v then Some v else None) xs 1400;
|}.

Lemma chained_snoc xs x :
  chained (xs ++ [x]) = (call_setter (KcpConfigBuilder.Wrap (chained xs)) x).(KcpConfigBuilder.inner).
Proof. unfold chained. rewrite !last_set_snoc. by destruct x. Qed.

Lemma foldl_call_setter xs :
  (foldl call_setter KcpConfigBuilder.builder xs).(KcpConfigBuilder.inner) = chained xs.
Proof.
  induction xs as [|x xs IH] using rev_ind; [done|].
  rewrite foldl_app, chained_snoc, <- IH. cbn. by destruct (foldl _ _ _).
Qed.

(** C40. Whatever setters are chained, in whatever order and however often, the
    built configuration has in every field the last value set for it, or the
    default, with the MTU raised to KCP's minimum of 50; configuring a KCP
    instance with it is the same as with the unclamped values. *)
Theorem builder_last_wins {K : KcpLib} xs :
  let b := foldl call_setter KcpConfigBuilder.builder xs in
  let c := KcpConfigBuilder.build b in
  let v := chained xs in
  c = {| kcp_interval_ms := v.(kcp_interval_ms); kcp_nodelay := v.(kcp_nodelay);
         snd_wnd := v.(snd_wnd); rcv_wnd := v.(rcv_wnd); rx_minrto := v.(rx_minrto);
         fast_resend := v.(fast_resend); maximum_resend_times := v.(maximum_resend_times);
         tick_interval := v.(tick_interval); session_timeout := v.(session_timeout);
         event_channel_capacity := v.(event_channel_capacity);
         syn_retry_interval := v.(syn_retry_interval); syn_max_retries := v.(syn_max_retries);
         mtu := Z.max v.(mtu) 50 |} ∧
  ∀ k : kcp_t, apply_to c k = apply_to v k.
Proof.
  cbn zeta. unfold KcpConfigBuilder.build. rewrite foldl_call_setter. split; [done|].
  intros k. unfold apply_to. cbn. by rewrite <- Z.max_assoc, Z.max_id.
Qed.

(** Every argument is in the range of its Rust type. *)
Definition Setter_ok (x : Setter) : Prop :=
  match x with
  | SetKcpIntervalMs v | SetRxMinrto v | SetFastResend v | SetMaximumResendTimes v
  | SetSynMaxRetries v => u32_ok v
  | SetSndWnd v | SetRcvWnd v | SetMtu v => u16_ok v
  | SetTickInterval v | SetSessionTimeout v | SetSynRetryInterval v => 0 ≤ v
  | SetEventChannelCapacity v => u64_ok v
  | SetKcpNodelay _ _ _ _ => True
  end.

(** Every configuration a builder can produce is well-formed: each field is
    in the range of its type and the MTU is at least 50. *)
Lemma builder_in_range xs :
  Forall Setter_ok xs →
  let c := KcpConfigBuilder.build (foldl call_setter KcpConfigBuilder.builder xs) in
  KcpConfig_ok c ∧ 50 ≤ c.(mtu).
Proof.
  intros Hxs. assert (KcpConfig_ok (chained xs)) as Hok.
  { induction xs as [|x xs IH] using rev_ind; [by vm_compute|].
    apply Forall_app in Hxs as [Hxs Hx]. rewrite Forall_singleton in Hx.
    specialize (IH Hxs). rewrite chained_snoc. generalize dependent (chained xs). intros c IH.
    unfold KcpConfig_ok in *. destruct x; cbn in *; destruct_and!; split_and!; assumption. }
  cbn zeta. unfold KcpConfigBuilder.build. rewrite foldl_call_setter.
  unfold KcpConfig_ok, u16_ok in *. cbn -[chained]. split; [|lia]. intuition lia.
Qed.

Example builder_in_range_example :
  50 ≤ (KcpConfigBuilder.build
          (foldl call_setter KcpConfigBuilder.builder [SetMtu 1200; SetMtu 7; SetSndWnd 64])).(mtu).
Proof.
  apply (builder_in_range [SetMtu 1200; SetMtu 7; SetSndWnd 64]).
  repeat constructor; vm_compute; congruence.
Defined.
