(* ===== verification/World.v ===== *)
(** * The shared world of one node

    The state the tasks of a [KcpPeer] share: the allocated sessions
    ([Arc<Session>]), the session map, the event channel, the pending data,
    the shutdown token and the socket; and the primitive actions on it.

    What the operating system answers is given by [Os]: the clock readings,
    the results of the send calls and the random numbers, each indexed by how
    many came before, and the iteration order of the hash map. *)

From S2P Require Import Prelude Prog Kcp Addr Errors Config.

(** ** The operating system *)

Class Os : Type := {
  (** The [n]-th [UNIX_EPOCH.elapsed()]; [None] when the clock is before the epoch. *)
  os_elapsed : nat → option Duration;
  (** The result of the [n]-th [send_to] / [try_send_to]. *)
  os_send : nat → bytes → SocketAddr → Result Z IoError;
  (** The [n]-th [rand::rng().random_range(1..=u32::MAX)]. *)
  os_rand : nat → Z;
  (** [rand::rng().random::<u64>()] at bind. *)
  os_incarnation : Z;
  (** [UdpSocket::bind] and [UdpSocket::local_addr]. *)
  os_bind : Result unit IoError;
  os_local_addr : Result SocketAddr IoError;
  (** The order in which the hash map is iterated. *)
  os_iter : gmap CanonicalAddr nat → list (CanonicalAddr * nat);
}.

(** [random_range] stays in its range; iterating a map visits every entry once. *)
Class OsLaws (os : Os) : Prop := {
  os_rand_range n : 1 ≤ os_rand n ≤ u32_MAX;
  os_incarnation_ok : u64_ok os_incarnation;
  os_iter_perm m : os_iter m ≡ₚ map_to_list m;
}.

(** [session::epoch_ms], [session::current_ms] as functions of the reading. *)
Definition epoch_ms_of (elapsed : option Duration) : Z :=
  as_u64 (as_millis (from_option id 0 elapsed)).

Definition current_ms_of (elapsed : option Duration) : Z :=
  as_u32 (epoch_ms_of elapsed).

(** ** Sessions *)

(** [SessionState] *)
Inductive SessionState : Type := SynSent | Established.

#[export] Instance SessionState_eq_dec : EqDecision SessionState.
Proof. solve_decision. Defined.

(** [DirectOutput], without the socket (there is one per node). *)
Record DirectOutput : Type := MkDirectOutput {
  out_peer : SocketAddr;
  out_buf : bytes;
}.

(** [Event], [DataMessage] *)
Inductive Event : Type :=
  | Connected (a : SocketAddr)
  | Disconnected (a : SocketAddr)
  | PeerRestarted (a : SocketAddr).

#[export] Instance Event_eq_dec : EqDecision Event.
Proof. solve_decision. Defined.

Record DataMessage : Type := MkDataMessage { dm_peer : SocketAddr; dm_data : bytes }.

#[export] Instance DataMessage_eq_dec : EqDecision DataMessage.
Proof. solve_decision. Defined.

(** A call of [send_to] or [try_send_to] and its result. *)
Record Datagram : Type := MkDatagram {
  dg_to : SocketAddr;
  dg_bytes : bytes;
  dg_result : Result Z IoError;
}.

Section World.
Context {K : KcpLib} {os : Os}.

(** [SessionInner]; the output adapter is the one inside [Kcp<DirectOutput>]. *)
Record SessionInner : Type := MkInner {
  kcp : kcp_t;
  output : DirectOutput;
  conv_id : Z;
  state : SessionState;
  incarnation : Z;
}.

(** [Session], without the socket. *)
Record Session : Type := MkSession {
  inner : SessionInner;
  closed : bool;
  last_rx : Z;
  peer_addr : SocketAddr;
  syn_sent_at : Z;
  syn_retries : Z;
}.

#[export] Instance Session_inhabited : Inhabited Session := populate
  {| inner := {| kcp := inhabitant; output := MkDirectOutput (V4 0 0) []; conv_id := 0;
                 state := SynSent; incarnation := 0 |};
     closed := true; last_rx := 0; peer_addr := V4 0 0; syn_sent_at := 0;
     syn_retries := 0 |}.

(** The shared, mutable part of [KcpPeer] and of its socket. [heap] holds
    every session ever allocated: an [Arc<Session>] is its index. *)
Record World : Type := MkWorld {
  heap : gmap nat Session;
  next : nat;
  sessions : gmap CanonicalAddr nat;
  events : list Event;
  pending : list DataMessage;
  notified : bool;
  cancelled : bool;
  sent : list Datagram;
  nclock : nat;
  nrand : nat;
}.

(** Field updates. *)
Definition upd_inner (f : SessionInner → SessionInner) (s : Session) : Session :=
  MkSession (f s.(inner)) s.(closed) s.(last_rx) s.(peer_addr) s.(syn_sent_at) s.(syn_retries).
Definition set_closed (b : bool) (s : Session) : Session :=
  MkSession s.(inner) b s.(last_rx) s.(peer_addr) s.(syn_sent_at) s.(syn_retries).
Definition set_last_rx (t : Z) (s : Session) : Session :=
  MkSession s.(inner) s.(closed) t s.(peer_addr) s.(syn_sent_at) s.(syn_retries).
Definition set_syn_sent_at (t : Z) (s : Session) : Session :=
  MkSession s.(inner) s.(closed) s.(last_rx) s.(peer_addr) t s.(syn_retries).
Definition set_syn_retries (n : Z) (s : Session) : Session :=
  MkSession s.(inner) s.(closed) s.(last_rx) s.(peer_addr) s.(syn_sent_at) n.
Definition set_kcp (k : kcp_t) (o : DirectOutput) (i : SessionInner) : SessionInner :=
  MkInner k o i.(conv_id) i.(state) i.(incarnation).
Definition set_conv_id (c : Z) (i : SessionInner) : SessionInner :=
  MkInner i.(kcp) i.(output) c i.(state) i.(incarnation).
Definition set_state (st : SessionState) (i : SessionInner) : SessionInner :=
  MkInner i.(kcp) i.(output) i.(conv_id) st i.(incarnation).

Definition upd_heap (f : gmap nat Session → gmap nat Session) (w : World) : World :=
  MkWorld (f w.(heap)) w.(next) w.(sessions) w.(events) w.(pending) w.(notified)
    w.(cancelled) w.(sent) w.(nclock) w.(nrand).
Definition upd_sessions (f : gmap CanonicalAddr nat → gmap CanonicalAddr nat) (w : World) : World :=
  MkWorld w.(heap) w.(next) (f w.(sessions)) w.(events) w.(pending) w.(notified)
    w.(cancelled) w.(sent) w.(nclock) w.(nrand).
Definition push_event (e : Event) (w : World) : World :=
  MkWorld w.(heap) w.(next) w.(sessions) (w.(events) ++ [e]) w.(pending) w.(notified)
    w.(cancelled) w.(sent) w.(nclock) w.(nrand).
Definition set_pending (l : list DataMessage) (w : World) : World :=
  MkWorld w.(heap) w.(next) w.(sessions) w.(events) l w.(notified)
    w.(cancelled) w.(sent) w.(nclock) w.(nrand).
Definition set_notified (b : bool) (w : World) : World :=
  MkWorld w.(heap) w.(next) w.(sessions) w.(events) w.(pending) b
    w.(cancelled) w.(sent) w.(nclock) w.(nrand).
Definition set_cancelled (w : World) : World :=
  MkWorld w.(heap) w.(next) w.(sessions) w.(events) w.(pending) w.(notified)
    true w.(sent) w.(nclock) w.(nrand).
Definition push_sent (d : Datagram) (w : World) : World :=
  MkWorld w.(heap) w.(next) w.(sessions) w.(events) w.(pending) w.(notified)
    w.(cancelled) (w.(sent) ++ [d]) w.(nclock) w.(nrand).
Definition tick_clock (w : World) : World :=
  MkWorld w.(heap) w.(next) w.(sessions) w.(events) w.(pending) w.(notified)
    w.(cancelled) w.(sent) (S w.(nclock)) w.(nrand).
Definition tick_rand (w : World) : World :=
  MkWorld w.(heap) w.(next) w.(sessions) w.(events) w.(pending) w.(notified)
    w.(cancelled) w.(sent) w.(nclock) (S w.(nrand)).
Definition alloc_session (s : Session) (w : World) : World :=
  MkWorld (<[w.(next) := s]> w.(heap)) (S w.(next)) w.(sessions) w.(events) w.(pending)
    w.(notified) w.(cancelled) w.(sent) w.(nclock) w.(nrand).

(** ** Primitive actions *)

Definition epoch_ms : prog World Z :=
  act (λ w, (epoch_ms_of (os_elapsed w.(nclock)), tick_clock w)).

Definition current_ms : prog World Z :=
  act (λ w, (current_ms_of (os_elapsed w.(nclock)), tick_clock w)).

(** [socket.send_to], [socket.try_send_to]: [n] is the number of earlier calls. *)
Definition send_result (w : World) (buf : bytes) (to : SocketAddr) : Result Z IoError :=
  os_send (length w.(sent)) buf to.

Definition send_to (buf : bytes) (to : SocketAddr) : prog World (Result Z IoError) :=
  act (λ w, (send_result w buf to, push_sent (MkDatagram to buf (send_result w buf to)) w)).

Definition try_send_to := send_to.

(** [event_tx.send(e)] (the result is ignored everywhere). *)
Definition event_send (e : Event) : prog World unit := modify (push_event e).

(** [Arc::new(session)] *)
Definition arc_new (s : Session) : prog World nat :=
  act (λ w, (w.(next), alloc_session s w)).

(** Load from and store to a session. *)
Definition load {A} (s : nat) (f : Session → A) : prog World A :=
  get (λ w, f (w.(heap) !!! s)).

Definition store (s : nat) (f : Session → Session) : prog World unit :=
  modify (upd_heap (alter f s)).

(** The session registered under an address; insert; remove. *)
Definition map_get (can : CanonicalAddr) : prog World (option nat) :=
  get (λ w, w.(sessions) !! can).

Definition map_insert (can : CanonicalAddr) (s : nat) : prog World unit :=
  modify (upd_sessions (<[can := s]>)).

Definition map_remove (can : CanonicalAddr) : prog World (option nat) :=
  act (λ w, (w.(sessions) !! can, upd_sessions (delete can) w)).

Definition random_conv : prog World Z :=
  act (λ w, (os_rand w.(nrand), tick_rand w)).
End World.
