(* ===== verification/Session.v ===== *)
(** * Sessions (src/src/session.rs)

    The operations of [Session] and of its output adapter, each a program over
    the shared world; a session is the index of its [Arc]. *)

From S2P Require Import Prelude Prog Packet Kcp Addr Errors Config World.
Open Scope prog_scope.

Module DirectOutput.
Section DirectOutput.
Context {K : KcpLib} {os : Os}.

(** [DirectOutput::write] *)
Definition write (o : DirectOutput) (frame : bytes) :
    prog World (DirectOutput * Result Z IoError) :=
  let buf := [PacketType_as_u8 KcpData] ++ frame in
  let o := MkDirectOutput o.(out_peer) buf in
  r <- try_send_to buf o.(out_peer) ;;
  Ret (o, match r with
          | Ok n => Ok (saturating_sub n 1)
          | Err e =>
              if decide (e.(kind) = WouldBlock) then Ok (Z.of_nat (length frame)) else Err e
          end).

(** [DirectOutput::flush]: every frame is already on the wire. *)
Definition flush (o : DirectOutput) : Result unit IoError := Ok tt.

(** Run a KCP operation against the adapter. *)
Fixpoint run_kio {A} (o : DirectOutput) (p : kio A) : prog World (A * DirectOutput) :=
  match p with
  | KRet a => Ret (a, o)
  | KWrite frame k => x <- write o frame ;; run_kio x.1 (k x.2)
  end.
End DirectOutput.
End DirectOutput.

Module Session.
Section Session.
Context {K : KcpLib} {os : Os}.

(** A call of [inner.kcp]: the KCP state and the adapter are written back,
    and the error becomes [Error::Kcp]. *)
Definition kcp_call {A} (s : nat) (op : kcp_t → kio (kcp_t * Result A kcp_error)) :
    prog World (Result A Error) :=
  k <- load s (λ σ, σ.(inner).(kcp)) ;;
  o <- load s (λ σ, σ.(inner).(output)) ;;
  x <- DirectOutput.run_kio o (op k) ;;
  store s (upd_inner (set_kcp x.1.1 x.2)) ;;
  Ret (map_err Kcp x.1.2).

Definition new_session (k : kcp_t) (conv : Z) (peer : SocketAddr) (st : SessionState)
    (inc rx syn : Z) : Session :=
  {| inner := {| kcp := k; output := MkDirectOutput peer []; conv_id := conv;
                 state := st; incarnation := inc |};
     closed := false; last_rx := rx; peer_addr := peer; syn_sent_at := syn;
     syn_retries := 0 |}.

(** [Session::new_outbound] *)
Definition new_outbound (conv : Z) (peer : SocketAddr) (inc : Z) (config : KcpConfig) :
    prog World nat :=
  let k := apply_to config (kcp_new conv) in
  now <- epoch_ms ;;
  arc_new (new_session k conv peer SynSent inc now now).

(** [Session::send_syn] *)
Definition send_syn (s : nat) : prog World unit :=
  conv <- load s (λ σ, σ.(inner).(conv_id)) ;;
  peer <- load s peer_addr ;;
  r <- send_to (encode_control Syn conv) peer ;;
  match r with
  | Err _ => Ret tt
  | Ok _ => now <- epoch_ms ;; store s (set_syn_sent_at now)
  end.

(** [Session::new_inbound] *)
Definition new_inbound (conv : Z) (peer : SocketAddr) (inc : Z) (config : KcpConfig) :
    prog World nat :=
  let k := apply_to config (kcp_new conv) in
  send_to (encode_control SynAck conv) peer ;;
  now <- epoch_ms ;;
  arc_new (new_session k conv peer Established inc now 0).

(** [Session::mark_closed] *)
Definition mark_closed (s : nat) : prog World unit := store s (set_closed true).

(** [inner.kcp.update(current_ms())] then [inner.kcp.flush()]. *)
Definition update_flush (s : nat) : prog World (Result unit Error) :=
  now <- current_ms ;;
  kcp_call s (kcp_update now) ?;;
  kcp_call s kcp_flush.

(** [Session::send_data] *)
Definition send_data (s : nat) (data : bytes) : prog World (Result unit Error) :=
  c <- load s closed ;;
  if (c : bool) then Ret (Err SessionClosed) else
  atomic (
    k <- load s (λ σ, σ.(inner).(kcp)) ;;
    if kcp_is_dead_link k then Ret (Err DeadLink) else
    kcp_call s (kcp_send data) ?;;
    st <- load s (λ σ, σ.(inner).(state)) ;;
    match st with
    | Established => update_flush s
    | SynSent => Ret (Ok tt)
    end).

(** [Session::update] *)
Definition update (s : nat) (now : Z) : prog World (Result Z Error) :=
  atomic (
    st <- load s (λ σ, σ.(inner).(state)) ;;
    match st with
    | SynSent => k <- load s (λ σ, σ.(inner).(kcp)) ;; Ret (Ok (kcp_wait_snd k))
    | Established =>
        k <- load s (λ σ, σ.(inner).(kcp)) ;;
        if kcp_is_dead_link k then Ret (Err DeadLink) else
        kcp_call s (kcp_update now) ?;;
        k <- load s (λ σ, σ.(inner).(kcp)) ;;
        if kcp_is_dead_link k then Ret (Err DeadLink) else
        Ret (Ok (kcp_wait_snd k))
    end).

(** [Session::input] *)
Definition input (s : nat) (data : bytes) : prog World (Result unit Error) :=
  atomic (kcp_call s (kcp_input data) ?;; Ret (Ok tt)).

(** The loop of [Session::try_recv_all]; [fuel] bounds its iterations. The
    messages received so far are [out]: an error returns it too, because the
    caller's vector keeps what was pushed. *)
Fixpoint recv_loop (fuel : nat) (s : nat) (out : list bytes) :
    prog World (list bytes * Result unit Error) :=
  k <- load s (λ σ, σ.(inner).(kcp)) ;;
  match kcp_peeksize k with
  | Err _ => Ret (out, Ok tt)
  | Ok size =>
      match fuel with
      | O => Ret (out, Ok tt)
      | S fuel' =>
          let buf := replicate (Z.to_nat size) 0 in
          o <- load s (λ σ, σ.(inner).(output)) ;;
          x <- DirectOutput.run_kio o (kcp_recv buf k) ;;
          store s (upd_inner (set_kcp x.1.1.1 x.2)) ;;
          match x.1.2 with
          | Err e => Ret (out, Err (Kcp e))
          | Ok _ => recv_loop fuel' s (out ++ [x.1.1.2])
          end
      end
  end.

(** [Session::try_recv_all]: the fuel is the number of ready messages. *)
Definition try_recv_all (s : nat) : prog World (list bytes * Result unit Error) :=
  atomic (
    k <- load s (λ σ, σ.(inner).(kcp)) ;;
    recv_loop (kcp_nready k) s []).

(** [(config.syn_retry_interval.as_millis() as u64) << retries] *)
Definition syn_backoff (config : KcpConfig) (retries : Z) : Z :=
  shl_u64 (as_u64 (as_millis config.(syn_retry_interval))) retries.

(** [Session::maybe_retry_syn] *)
Definition maybe_retry_syn (s : nat) (config : KcpConfig) (now_epoch : Z) :
    prog World (Result bool Error) :=
  c <- load s closed ;;
  if (c : bool) then Ret (Err SessionClosed) else
  i <- load s inner ;;
  match i.(state) with
  | Established => Ret (Ok false)
  | SynSent =>
      retries <- load s syn_retries ;;
      if config.(syn_max_retries) <=? retries then Ret (Err DeadLink) else
      last_sent <- load s syn_sent_at ;;
      let elapsed := saturating_sub now_epoch last_sent in
      if elapsed <? syn_backoff config retries then Ret (Ok false) else
      peer <- load s peer_addr ;;
      try_send_to (encode_control Syn i.(conv_id)) peer ;;
      now <- epoch_ms ;;
      store s (set_syn_sent_at now) ;;
      store s (λ σ, set_syn_retries (wrapping_add_u32 σ.(syn_retries) 1) σ) ;;
      Ret (Ok true)
  end.
End Session.
End Session.
