(* ===== verification/Transport.v ===== *)
(** * The API of a node (src/src/transport.rs, [impl KcpPeer])

    [bind_with], [send], [recv], [peers], [stats], [disconnect], [shutdown],
    [events]. *)

From S2P Require Import Prelude Prog Packet Kcp Addr Errors Config World Session.
Open Scope prog_scope.

(** The immutable part of [KcpPeer]; the mutable part is [World]. *)
Record KcpPeer : Type := MkKcpPeer {
  kp_incarnation : Z;
  kp_config : KcpConfig;
  kp_local_addr : SocketAddr;
}.

(** [PeerStats] *)
Record PeerStats : Type := MkPeerStats {
  st_conv_id : Z;
  st_send_wnd : Z;
  st_recv_wnd : Z;
  st_rmt_wnd : Z;
  st_wait_snd : Z;
  st_dead_link : bool;
  st_elapsed : Duration;
}.

Module KcpPeer.
Section KcpPeer.
Context {K : KcpLib} {os : Os}.

Definition empty_world : World :=
  MkWorld ∅ 0 ∅ [] [] false false [] 0 0.

(** [KcpPeer::bind_with], [KcpPeer::bind] *)
Definition bind_with (config : KcpConfig) : Result (KcpPeer * World) Error :=
  match os_bind with
  | Err e => Err (Io e)
  | Ok _ =>
      match os_local_addr with
      | Err e => Err (Io e)
      | Ok local => Ok (MkKcpPeer os_incarnation config local, empty_world)
      end
  end.

Definition bind : Result (KcpPeer * World) Error := bind_with default.

(** [KcpPeer::local_addr] *)
Definition local_addr (self : KcpPeer) : SocketAddr := self.(kp_local_addr).

(** The double-checked insertion of [initiate_session], under the write
    lock: an existing session is returned, else [s] is inserted. *)
Definition insert_if_absent (can : CanonicalAddr) (s : nat) : prog World (option nat) :=
  atomic (
    o <- map_get can ;;
    match o with
    | Some existing => Ret (Some existing)
    | None => map_insert can s ;; Ret None
    end).

(** [KcpPeer::initiate_session] *)
Definition initiate_session (self : KcpPeer) (peer : SocketAddr) : prog World nat :=
  let can := canonicalize peer in
  o <- map_get can ;;
  match o with
  | Some existing => Ret existing
  | None =>
      conv <- random_conv ;;
      s <- Session.new_outbound conv peer self.(kp_incarnation) self.(kp_config) ;;
      r <- insert_if_absent can s ;;
      match r with
      | Some existing => Ret existing
      | None => Session.send_syn s ;; Ret s
      end
  end.

(** [KcpPeer::send] *)
Definition send (self : KcpPeer) (peer : SocketAddr) (data : bytes) :
    prog World (Result unit Error) :=
  let can := canonicalize peer in
  o <- map_get can ;;
  match o with
  | Some s => Session.send_data s data
  | None => s <- initiate_session self peer ;; Session.send_data s data
  end.

(** [pending.pop_front()] under the lock. *)
Definition pop_front : prog World (option DataMessage) :=
  act (λ w, match w.(pending) with
            | [] => (None, w)
            | m :: l => (Some m, set_pending l w)
            end).

(** The [select!] of [recv]: take the notification permit if there is one. *)
Definition take_permit : prog World bool :=
  act (λ w, (w.(notified), set_notified false w)).

(** [KcpPeer::recv] polled [fuel] times; [None] is a future that is still
    pending. A poll that finds neither data, permit nor cancellation leaves
    the future waiting. *)
Fixpoint recv (fuel : nat) : prog World (option (Result DataMessage Error)) :=
  match fuel with
  | O => Ret None
  | S fuel' =>
      c <- get cancelled ;;
      if (c : bool) then Ret (Some (Err ShuttingDown)) else
      m <- pop_front ;;
      match m with
      | Some msg => Ret (Some (Ok msg))
      | None => recv_wait fuel'
      end
  end
with recv_wait (fuel : nat) : prog World (option (Result DataMessage Error)) :=
  match fuel with
  | O => Ret None
  | S fuel' =>
      n <- take_permit ;;
      if (n : bool) then recv fuel' else
      c <- get cancelled ;;
      if (c : bool) then Ret (Some (Err ShuttingDown)) else recv_wait fuel'
  end.

(** [KcpPeer::peers] *)
Fixpoint filter_open (l : list nat) : prog World (list SocketAddr) :=
  match l with
  | [] => Ret []
  | s :: l' =>
      c <- load s closed ;;
      if (c : bool) then filter_open l' else
      a <- load s peer_addr ;;
      rest <- filter_open l' ;;
      Ret (a :: rest)
  end.

Definition session_values : prog World (list nat) :=
  get (λ w, (os_iter w.(sessions)).*2).

Definition peers : prog World (list SocketAddr) :=
  l <- session_values ;; filter_open l.

(** [KcpPeer::stats] *)
Definition stats (peer : SocketAddr) : prog World (option PeerStats) :=
  o <- map_get (canonicalize peer) ;;
  match o with
  | None => Ret None
  | Some s =>
      c <- load s closed ;;
      if (c : bool) then Ret None else
      atomic (
        i <- load s inner ;;
        now <- epoch_ms ;;
        rx <- load s last_rx ;;
        Ret (Some {|
          st_conv_id := i.(conv_id);
          st_send_wnd := kcp_snd_wnd i.(kcp);
          st_recv_wnd := kcp_rcv_wnd i.(kcp);
          st_rmt_wnd := kcp_rmt_wnd i.(kcp);
          st_wait_snd := kcp_wait_snd i.(kcp);
          st_dead_link := kcp_is_dead_link i.(kcp);
          st_elapsed := from_millis (saturating_sub now rx);
        |}))
  end.

(** [for _ in 0..3 { let _ = socket.try_send_to(&reset, to); }] *)
Definition send_reset (conv : Z) (to : SocketAddr) : prog World unit :=
  repeat_prog 3 (try_send_to (encode_control Reset conv) to ;; Ret tt).

(** [KcpPeer::disconnect]: the write guard lives to the end of the [if let]. *)
Definition disconnect (peer : SocketAddr) : prog World unit :=
  let can := canonicalize peer in
  atomic (
    o <- map_remove can ;;
    match o with
    | None => Ret tt
    | Some s =>
        Session.mark_closed s ;;
        conv <- load s (λ σ, σ.(inner).(conv_id)) ;;
        send_reset conv peer ;;
        event_send (Disconnected peer)
    end).

(** One iteration of the loop of [shutdown]. *)
Definition shutdown_session (s : nat) : prog World unit :=
  Session.mark_closed s ;;
  conv <- load s (λ σ, σ.(inner).(conv_id)) ;;
  peer <- load s peer_addr ;;
  send_reset conv peer.

(** [KcpPeer::shutdown], up to the wait for the background tasks. *)
Definition shutdown : prog World unit :=
  modify set_cancelled ;;
  l <- session_values ;;
  for_each l shutdown_session.

(** The wait for a handle: a handle that was taken before is not waited for;
    the task of another must have left its loop. *)
Definition handle_done (h : option (loop World)) : bool :=
  match h with
  | None | Some Finished => true
  | Some _ => false
  end.

(** Whether [shutdown] returns, given its handles. *)
Definition shutdown_returns (recv_handle update_handle : option (loop World)) : bool :=
  handle_done recv_handle && handle_done update_handle.

(** [Drop for KcpPeer] *)
Definition drop : prog World unit := modify set_cancelled.

(** [KcpPeer::events]: a receiver of the broadcast channel is the position of
    the next event it will return in the log of those sent. *)
Definition events : prog World nat := get (λ w, length w.(World.events)).

(** [EventReceiver::recv], polled once, for a subscriber that does not lag
    behind the channel's capacity: the event and the receiver after it, or
    nothing yet. *)
Definition events_recv (rx : nat) : prog World (option (Event * nat)) :=
  get (λ w, match w.(World.events) !! rx with Some e => Some (e, S rx) | None => None end).
End KcpPeer.
End KcpPeer.
