(* ===== verification/Examples.v ===== *)
(** * The example programs (src/examples/*.rs)

    The echo server and its clients, the two peers of the duplex example and
    the nodes of the gossip example, as clients of the API.  A [println!] has
    no effect on the node; what a task prints or asserts is in its result. *)

From S2P Require Import Prelude Prog Packet Kcp Addr Errors Config World Session Transport.
From stdpp Require Import strings pretty.
From Stdlib Require Import Ascii.
Open Scope Z_scope.
Open Scope prog_scope.

(** [b"..."], [str::as_bytes] *)
Definition as_bytes (s : string) : bytes := (λ a, Z.of_N (N_of_ascii a)) <$> String.list_ascii_of_string s.

(** ["127.0.0.1:port".parse()] *)
Definition loopback (port : Z) : SocketAddr := V4 (127 * 2 ^ 24 + 1) port.

(** The configuration all three use. *)
Definition example_config : KcpConfig :=
  KcpConfigBuilder.build
    (KcpConfigBuilder.fast_resend
      (KcpConfigBuilder.rx_minrto
        (KcpConfigBuilder.kcp_nodelay
          (KcpConfigBuilder.tick_interval KcpConfigBuilder.builder (from_millis 10))
          2 10 2 true) 10) 1).

(** [std::str::from_utf8(b).is_ok()] *)
Definition in_range (lo hi x : Z) : bool := (lo <=? x) && (x <=? hi).

Fixpoint is_utf8 (b : bytes) : bool :=
  match b with
  | [] => true
  | b0 :: r0 =>
      if b0 <=? 127 then is_utf8 r0
      else match r0 with
      | [] => false
      | b1 :: r1 =>
          if in_range 194 223 b0 then in_range 128 191 b1 && is_utf8 r1
          else match r1 with
          | [] => false
          | b2 :: r2 =>
              if in_range 224 239 b0 then
                in_range (if b0 =? 224 then 160 else 128) (if b0 =? 237 then 159 else 191) b1 &&
                in_range 128 191 b2 && is_utf8 r2
              else match r2 with
              | [] => false
              | b3 :: r3 =>
                  in_range 240 244 b0 &&
                  in_range (if b0 =? 240 then 144 else 128) (if b0 =? 244 then 143 else 191) b1 &&
                  in_range 128 191 b2 && in_range 128 191 b3 && is_utf8 r3
              end
          end
      end
  end.

(** How a task that waits for one message with a time limit ends: [Got] a
    message, [TimedOut] (or a receive error), or a panic. *)
Inductive Outcome : Type :=
  | Got (m : DataMessage)
  | TimedOut
  | Panicked.

Module Echo.
Section Echo.
Context {K : KcpLib} {os : Os}.

Definition CLIENT_ADDR : SocketAddr := loopback 9900.
Definition SERVER_ADDR : SocketAddr := loopback 9876.

(** The loop of the server for at most [rounds] messages, each [recv] polled
    at most [polls] times: whether it was left by [break]. *)
Fixpoint server_loop (server : KcpPeer) (rounds polls : nat) : prog World bool :=
  match rounds with
  | O => Ret false
  | S rounds' =>
      r <- KcpPeer.recv polls ;;
      match r with
      | None => Ret false
      | Some (Ok msg) =>
          KcpPeer.send server msg.(dm_peer) msg.(dm_data) ;;
          server_loop server rounds' polls
      | Some (Err _) => Ret true
      end
  end.

(** The loop that drains the lifecycle events, polled [polls] times: whether
    it was left. *)
Fixpoint drain_events (polls rx : nat) : prog World bool :=
  match polls with
  | O => Ret false
  | S polls' =>
      r <- KcpPeer.events_recv rx ;;
      match r with
      | None => drain_events polls' rx
      | Some (Disconnected _, _) => Ret true
      | Some (_, rx') => drain_events polls' rx'
      end
  end.

(** The server task, with the subscription made before it is spawned. *)
Definition server_task (server : KcpPeer) (rounds polls : nat) : prog World bool :=
  server_events <- KcpPeer.events ;;
  b <- server_loop server rounds polls ;;
  if (b : bool) then drain_events polls server_events else Ret false.

(** [run_client] after its [bind_with]: it sends, and awaits the echo. The
    client is dropped however it ends. *)
Definition client_await (payload : bytes) (polls : nat) (sent : Result unit Error) :
    prog World Outcome :=
  match sent with
  | Err _ => KcpPeer.drop ;; Ret Panicked
  | Ok _ =>
      r <- KcpPeer.recv polls ;;
      KcpPeer.drop ;;
      match r with
      | Some (Ok msg) => if decide (msg.(dm_data) = payload) then Ret (Got msg) else Ret Panicked
      | _ => Ret Panicked
      end
  end.

Definition client_body (client : KcpPeer) (payload : bytes) (polls : nat) : prog World Outcome :=
  sent <- KcpPeer.send client SERVER_ADDR payload ;;
  client_await payload polls sent.

Definition run_client (payload : bytes) (config : KcpConfig) (polls : nat) :
    option (World * prog World Outcome) :=
  match KcpPeer.bind_with config with
  | Err _ => None
  | Ok (client, w) => Some (w, client_body client payload polls)
  end.
End Echo.

(** [main]: the server's node and task, and then the two incarnations of the
    client, one after the other on the same port; [None] is a panic of [bind].
    Every node has its own operating system. *)
Definition main {K : KcpLib} (osS osC1 osC2 : Os) (rounds polls : nat) :
    option ((World * prog World bool) * (World * prog World Outcome) * (World * prog World Outcome)) :=
  match KcpPeer.bind_with (os := osS) example_config with
  | Err _ => None
  | Ok (server, wS) =>
      match run_client (os := osC1) (as_bytes "hello v1") example_config polls with
      | None => None
      | Some v1 =>
          match run_client (os := osC2) (as_bytes "hello v2 (after restart)") example_config polls with
          | None => None
          | Some v2 => Some ((wS, server_task (os := osS) server rounds polls), v1, v2)
          end
      end
  end.
End Echo.

Module Duplex.
Section Duplex.
Context {K : KcpLib} {os : Os}.

Definition ALICE_ADDR : SocketAddr := loopback 9877.
Definition BOB_ADDR : SocketAddr := loopback 9878.

(** The task of one peer; it owns the node, which is dropped at its end. *)
Definition peer_task (self : KcpPeer) (peer : SocketAddr) (data : bytes) (polls : nat) :
    prog World Outcome :=
  sent <- KcpPeer.send self peer data ;;
  match sent with
  | Err _ => KcpPeer.drop ;; Ret Panicked
  | Ok _ =>
      r <- KcpPeer.recv polls ;;
      KcpPeer.drop ;;
      match r with
      | Some (Ok msg) => if is_utf8 msg.(dm_data) then Ret (Got msg) else Ret Panicked
      | _ => Ret TimedOut
      end
  end.

Definition alice_task (alice : KcpPeer) (bob_addr : SocketAddr) (polls : nat) : prog World Outcome :=
  peer_task alice bob_addr (as_bytes "ping from Alice") polls.

Definition bob_task (bob : KcpPeer) (alice_addr : SocketAddr) (polls : nat) : prog World Outcome :=
  peer_task bob alice_addr (as_bytes "ping from Bob") polls.
End Duplex.

(** [main]: the two nodes and their tasks, which run at the same time. *)
Definition main {K : KcpLib} (osA osB : Os) (polls : nat) :
    option ((World * prog World Outcome) * (World * prog World Outcome)) :=
  match KcpPeer.bind_with (os := osA) example_config with
  | Err _ => None
  | Ok (alice, wA) =>
      match KcpPeer.bind_with (os := osB) example_config with
      | Err _ => None
      | Ok (bob, wB) =>
          let bob_addr := KcpPeer.local_addr bob in
          let alice_addr := KcpPeer.local_addr alice in
          Some ((wA, alice_task (os := osA) alice bob_addr polls),
                (wB, bob_task (os := osB) bob alice_addr polls))
      end
  end.
End Duplex.

Module Gossip.
Section Gossip.
Context {K : KcpLib} {os : Os}.

Definition PORTS : list Z := [9879; 9880; 9881].

(** [new_node]; [None] is a panic. *)
Definition new_node (config : KcpConfig) : option (KcpPeer * World) :=
  ok (KcpPeer.bind_with config).

(** [format!("hello from node 0 to node {port}")] *)
Definition hello (port : Z) : bytes :=
  as_bytes ("hello from node 0 to node " +:+ pretty port).

(** The loop of node 0 over the other ports; [false] is the panic of [unwrap]. *)
Fixpoint greet (node0 : KcpPeer) (ports : list Z) : prog World bool :=
  match ports with
  | [] => Ret true
  | port :: ports' =>
      r <- KcpPeer.send node0 (loopback port) (hello port) ;;
      match r with
      | Err _ => Ret false
      | Ok _ => greet node0 ports'
      end
  end.

Definition node0_main (node0 : KcpPeer) : prog World bool := greet node0 (drop 1 PORTS).

(** [accept_loop] for at most [rounds] messages: the data printed, and
    whether the loop was left by [break]. *)
Fixpoint accept_loop (rounds polls : nat) (printed : list bytes) :
    prog World (list bytes * bool) :=
  match rounds with
  | O => Ret (printed, false)
  | S rounds' =>
      r <- KcpPeer.recv polls ;;
      match r with
      | None => Ret (printed, false)
      | Some (Ok msg) => accept_loop rounds' polls (printed ++ [msg.(dm_data)])
      | Some (Err _) => Ret (printed, true)
      end
  end.
End Gossip.

(** [main]: the nodes and their tasks; that of node 0 starts when the others
    have been accepting for a while. *)
Definition main {K : KcpLib} (os0 os1 os2 : Os) (rounds polls : nat) :
    option ((World * prog World bool) * (World * prog World (list bytes * bool)) *
            (World * prog World (list bytes * bool))) :=
  match new_node (os := os0) example_config with
  | None => None
  | Some (node0, w0) =>
      match new_node (os := os1) example_config with
      | None => None
      | Some (node1, w1) =>
          match new_node (os := os2) example_config with
          | None => None
          | Some (node2, w2) =>
              Some ((w0, node0_main (os := os0) node0),
                    (w1, accept_loop rounds polls []), (w2, accept_loop rounds polls []))
          end
      end
  end.
End Gossip.
