(* ===== verification/Blind.v ===== *)
(** * What a send does not touch

    [KcpPeer::send] neither reads nor writes the pending messages and the
    shutdown token: it commutes with replacing them. *)

From S2P Require Import Prelude Prog Packet Kcp Addr Errors Config World Session Transport.
Open Scope prog_scope.

Create HintDb blind discriminated.

Section Blind.
Context {K : KcpLib} {os : Os}.

Definition with_queue (q : list DataMessage) (b : bool) (w : World) : World :=
  MkWorld w.(heap) w.(next) w.(sessions) w.(World.events) q w.(notified) b w.(sent)
    w.(nclock) w.(nrand).

Definition blind {A} (p : prog World A) : Prop :=
  ∀ q b w, run p (with_queue q b w) = ((run p w).1, with_queue q b (run p w).2).

Lemma blind_ret {A} (a : A) : blind (Ret a).
Proof. done. Qed.

Lemma blind_bind {A B} (p : prog World A) (k : A → prog World B) :
  blind p → (∀ a, blind (k a)) → blind (bind p k).
Proof. intros Hp Hk q b w. rewrite !run_bind, Hp. cbn [fst snd]. apply Hk. Qed.

Lemma blind_bind_result {A B E} (p : prog World (Result A E)) (k : A → prog World (Result B E)) :
  blind p → (∀ a, blind (k a)) → blind (bind_result p k).
Proof. intros Hp Hk. apply blind_bind; [done|]. intros [a|e]; [apply Hk|apply blind_ret]. Qed.

Lemma blind_act {A} (f : World → A * World) :
  (∀ q b w, f (with_queue q b w) = ((f w).1, with_queue q b (f w).2)) → blind (act f).
Proof. intros Hf q b w. rewrite !run_act. apply Hf. Qed.

Lemma blind_atomic {A} (p : prog World A) : blind p → blind (atomic p).
Proof. intros Hp q b w. rewrite !run_atomic. apply Hp. Qed.

Lemma blind_load {A} s (f : Session → A) : blind (load s f).
Proof. done. Qed.

Lemma blind_store s f : blind (store s f).
Proof. done. Qed.

Lemma blind_epoch_ms : blind epoch_ms.
Proof. done. Qed.

Lemma blind_current_ms : blind current_ms.
Proof. done. Qed.

Lemma blind_send_to buf to : blind (send_to buf to).
Proof. done. Qed.

Lemma blind_arc_new σ : blind (arc_new σ).
Proof. done. Qed.

Lemma blind_map_get can : blind (map_get can).
Proof. done. Qed.

Lemma blind_map_insert can s : blind (map_insert can s).
Proof. done. Qed.

Lemma blind_random_conv : blind random_conv.
Proof. done. Qed.

#[local] Hint Resolve blind_ret blind_bind blind_bind_result blind_atomic blind_load blind_store
  blind_epoch_ms blind_current_ms blind_send_to blind_arc_new blind_map_get blind_map_insert
  blind_random_conv : blind.

(** Split the program into its actions. *)
Ltac blind_tac :=
  repeat (first [ eapply blind_bind; [solve [eauto with blind]|intros ?]
                | eapply blind_bind_result; [solve [eauto with blind]|intros ?]
                | apply blind_atomic | case_match | solve [eauto with blind] ]).

Lemma blind_run_kio {A} o (p : kio A) : blind (DirectOutput.run_kio o p).
Proof.
  revert o. induction p as [a|frame k IH]; intros o; [done|]. cbn [DirectOutput.run_kio].
  apply blind_bind; [|intros; apply IH]. unfold DirectOutput.write, try_send_to. blind_tac.
Qed.

#[local] Hint Resolve blind_run_kio : blind.

Lemma blind_kcp_call {A} s (op : kcp_t → kio (kcp_t * Result A kcp_error)) :
  blind (Session.kcp_call s op).
Proof. unfold Session.kcp_call. blind_tac. Qed.

#[local] Hint Resolve blind_kcp_call : blind.

Lemma blind_send_data s data : blind (Session.send_data s data).
Proof. unfold Session.send_data, Session.update_flush. blind_tac. Qed.

#[local] Hint Resolve blind_send_data : blind.

Lemma blind_send_syn s : blind (Session.send_syn s).
Proof. unfold Session.send_syn. blind_tac. Qed.

Lemma blind_new_outbound conv peer inc config : blind (Session.new_outbound conv peer inc config).
Proof. unfold Session.new_outbound. blind_tac. Qed.

Lemma blind_insert_if_absent can s : blind (KcpPeer.insert_if_absent can s).
Proof. unfold KcpPeer.insert_if_absent. blind_tac. Qed.

#[local] Hint Resolve blind_send_syn blind_new_outbound blind_insert_if_absent : blind.

Lemma blind_initiate self peer : blind (KcpPeer.initiate_session self peer).
Proof. unfold KcpPeer.initiate_session. blind_tac. Qed.

#[local] Hint Resolve blind_initiate : blind.

Lemma blind_send self peer data : blind (KcpPeer.send self peer data).
Proof. unfold KcpPeer.send. blind_tac. Qed.

Lemma with_queue_id w : with_queue w.(pending) w.(cancelled) w = w.
Proof. by destruct w. Qed.

(** A blind program leaves the queue and the token alone. *)
Lemma blind_keeps {A} (p : prog World A) w :
  blind p → (run p w).2.(pending) = w.(pending) ∧ (run p w).2.(cancelled) = w.(cancelled).
Proof.
  intros Hp. pose proof (Hp w.(pending) w.(cancelled) w) as H. rewrite with_queue_id in H.
  rewrite H. done.
Qed.
End Blind.
