(* ===== verification/Incoming.v ===== *)
(** * Incoming packets (src/src/transport.rs, [handle_incoming], [spawn_receive_task]) *)

From S2P Require Import Prelude Prog Packet Kcp Addr Errors Config World Session Transport.
From stdpp Require Import strings.
Open Scope Z_scope.
Open Scope prog_scope.

(** [SynAction], [SynResult] *)
Inductive SynAction : Type := CreateNew | KeepExisting | Ignore.

Record SynResult : Type := MkSynResult {
  action : SynAction;
  send_ack_to : option SocketAddr;
  ack_conv : Z;
}.

Section Incoming.
Context {K : KcpLib} {os : Os}.

Definition invalid_data {A} (msg : String.string) : prog World (Result A Error) :=
  Ret (Err (Io (MkIoError InvalidData msg))).

(** [let mut pending = ...; for msg in msgs { pending.push_back(..) }; data_notify.notify_one()] *)
Definition push_messages (s : nat) (msgs : list bytes) : prog World unit :=
  peer <- load s peer_addr ;;
  modify (λ w, set_pending (w.(pending) ++ (MkDataMessage peer <$> msgs)) w) ;;
  modify (set_notified true).

(** The arm [PacketType::KcpData]. *)
Definition handle_kcp_data (payload : bytes) (from : SocketAddr) :
    prog World (Result unit Error) :=
  o <- map_get (canonicalize from) ;;
  match o with
  | Some s =>
      now <- epoch_ms ;;
      store s (set_last_rx now) ;;
      Session.input s payload ?;;
      x <- Session.try_recv_all s ;;
      match x.2 with
      | Err e => Ret (Err e)
      | Ok _ =>
          match x.1 with
          | [] => Ret (Ok tt)
          | msgs => push_messages s msgs ;; Ret (Ok tt)
          end
      end
  | None =>
      if decide (4 ≤ length payload)%nat then
        KcpPeer.send_reset (payload_conv payload) from ;; Ret (Ok tt)
      else Ret (Ok tt)
  end.

(** [let _ = inner.kcp.update(current_ms()); let _ = inner.kcp.flush();] *)
Definition flush_queued (s : nat) : prog World unit :=
  now <- current_ms ;;
  Session.kcp_call s (kcp_update now) ;;
  Session.kcp_call s kcp_flush ;;
  Ret tt.

(** The transition to [Established], with the refresh of [last_rx] and the
    flush of the data queued during the handshake. *)
Definition establish (s : nat) : prog World unit :=
  store s (upd_inner (set_state Established)) ;;
  now <- epoch_ms ;;
  store s (set_last_rx now) ;;
  flush_queued s.

(** The block that computes [result] in the arm [PacketType::Syn]: it runs
    under the read lock of the map and the lock of the session. *)
Definition syn_check (conv : Z) (from my_addr : SocketAddr) : prog World SynResult :=
  atomic (
    o <- map_get (canonicalize from) ;;
    match o with
    | None => Ret (MkSynResult CreateNew None 0)
    | Some s =>
        i <- load s inner ;;
        let old_conv := i.(conv_id) in
        if old_conv =? conv then
          match i.(state) with
          | Established =>
              now <- epoch_ms ;;
              store s (set_last_rx now) ;;
              Ret (MkSynResult Ignore (Some from) conv)
          | SynSent => Ret (MkSynResult Ignore None 0)
          end
        else
          match i.(state) with
          | SynSent =>
              if addr_gt from my_addr then
                store s (upd_inner (λ i, set_kcp (kcp_set_conv conv i.(kcp)) i.(output) i)) ;;
                store s (upd_inner (set_conv_id conv)) ;;
                establish s ;;
                event_send (Connected from) ;;
                Ret (MkSynResult KeepExisting (Some from) conv)
              else
                establish s ;;
                event_send (Connected from) ;;
                Ret (MkSynResult KeepExisting (Some from) old_conv)
          | Established =>
              Session.mark_closed s ;;
              event_send (PeerRestarted from) ;;
              Ret (MkSynResult CreateNew None 0)
          end
    end).

(** The insertion of a new inbound session, under the write lock. *)
Definition insert_inbound (from : SocketAddr) (s : nat) : prog World unit :=
  atomic (
    map_insert (canonicalize from) s ;;
    event_send (Connected from)).

(** The arm [PacketType::Syn]. *)
Definition handle_syn (payload : bytes) (from : SocketAddr) (incarnation : Z)
    (config : KcpConfig) : prog World (Result unit Error) :=
  if decide (length payload < 4)%nat then invalid_data "truncated SYN"%string else
  let conv := payload_conv payload in
  match os_local_addr with
  | Err e => Ret (Err (Io e))
  | Ok my_addr =>
      result <- syn_check conv from my_addr ;;
      match result.(send_ack_to) with
      | Some peer => send_to (encode_control SynAck result.(ack_conv)) peer ;; Ret tt
      | None => Ret tt
      end ;;
      match result.(action) with
      | CreateNew =>
          s <- Session.new_inbound conv from incarnation config ;;
          insert_inbound from s ;;
          Ret (Ok tt)
      | KeepExisting | Ignore => Ret (Ok tt)
      end
  end.

(** The arm [PacketType::SynAck]: the read lock and the session lock are
    held throughout. *)
Definition handle_syn_ack (payload : bytes) (from : SocketAddr) :
    prog World (Result unit Error) :=
  if decide (length payload < 4)%nat then invalid_data "truncated SYN_ACK"%string else
  let conv := payload_conv payload in
  atomic (
    o <- map_get (canonicalize from) ;;
    match o with
    | None => Ret (Ok tt)
    | Some s =>
        i <- load s inner ;;
        match i.(state) with
        | Established => Ret (Ok tt)
        | SynSent =>
            if i.(conv_id) =? conv then
              establish s ;; event_send (Connected from) ;; Ret (Ok tt)
            else Ret (Ok tt)
        end
    end).

(** The arm [PacketType::Reset]. *)
Definition handle_reset (payload : bytes) (from : SocketAddr) :
    prog World (Result unit Error) :=
  if decide (length payload < 4)%nat then invalid_data "truncated RESET"%string else
  let conv := payload_conv payload in
  let can := canonicalize from in
  o <- map_get can ;;
  match o with
  | None => Ret (Ok tt)
  | Some s =>
      c <- load s (λ σ, σ.(inner).(conv_id)) ;;
      if c =? conv then
        map_remove can ;;
        Session.mark_closed s ;;
        event_send (Disconnected from) ;;
        Ret (Ok tt)
      else Ret (Ok tt)
  end.

(** [handle_incoming] *)
Definition handle_incoming (data : bytes) (from : SocketAddr) (incarnation : Z)
    (config : KcpConfig) : prog World (Result unit Error) :=
  match split_packet data with
  | None => invalid_data "empty packet"%string
  | Some (KcpData, payload) => handle_kcp_data payload from
  | Some (Syn, payload) => handle_syn payload from incarnation config
  | Some (SynAck, payload) => handle_syn_ack payload from
  | Some (Reset, payload) => handle_reset payload from
  end.

(** One iteration of the loop of [spawn_receive_task], with what [recv_from]
    returns: whether it left the loop by [break]. [select!] is biased towards
    the shutdown token. *)
Definition receive_iteration (recv : Result (bytes * SocketAddr) IoError)
    (incarnation : Z) (config : KcpConfig) : prog World bool :=
  c <- get cancelled ;;
  if (c : bool) then Ret true else
  match recv with
  | Err _ => Ret false
  | Ok (data, from) => handle_incoming data from incarnation config ;; Ret false
  end.

(** The loop, as far as the packets of [inbox] take it: whether it was left.
    When it was not, the task waits for the next packet. *)
Fixpoint receive_task (inbox : list (Result (bytes * SocketAddr) IoError))
    (incarnation : Z) (config : KcpConfig) : prog World bool :=
  match inbox with
  | [] => Ret false
  | recv :: inbox' =>
      b <- receive_iteration recv incarnation config ;;
      if (b : bool) then Ret true else receive_task inbox' incarnation config
  end.
End Incoming.
