(* ===== verification/Update.v ===== *)
(** * The update task (src/src/transport.rs, [spawn_update_task]) *)

From S2P Require Import Prelude Prog Packet Kcp Addr Errors Config World Session Transport.
Open Scope prog_scope.

Section Update.
Context {K : KcpLib} {os : Os}.

(** The body of the scan for one session: whether it is to be removed. *)
Definition scan_session (config : KcpConfig) (now_ms now_epoch : Z) (s : nat) :
    prog World bool :=
  c <- load s closed ;;
  if (c : bool) then Ret false else
  u <- Session.update s now_ms ;;
  match u with
  | Err DeadLink => Ret true
  | _ =>
      r <- Session.maybe_retry_syn s config now_epoch ;;
      match r with
      | Err DeadLink => Ret true
      | _ =>
          last_rx_ms <- load s last_rx ;;
          if 0 <? last_rx_ms then
            let age := from_millis (saturating_sub now_epoch last_rx_ms) in
            Ret (config.(session_timeout) <? age)
          else Ret false
      end
  end.

(** [for (can, sess) in map.iter()], accumulating [to_remove]. *)
Fixpoint scan (config : KcpConfig) (now_ms now_epoch : Z)
    (entries : list (CanonicalAddr * nat)) (to_remove : list CanonicalAddr) :
    prog World (list CanonicalAddr) :=
  match entries with
  | [] => Ret to_remove
  | (can, s) :: entries' =>
      b <- scan_session config now_ms now_epoch s ;;
      scan config now_ms now_epoch entries'
        (if (b : bool) then to_remove ++ [can] else to_remove)
  end.

(** The removal of one address; the write guard lives to the end of the
    [if let]. *)
Definition prune (can : CanonicalAddr) : prog World unit :=
  atomic (
    o <- map_remove can ;;
    match o with
    | None => Ret tt
    | Some s =>
        conv <- load s (λ σ, σ.(inner).(conv_id)) ;;
        peer <- load s peer_addr ;;
        KcpPeer.send_reset conv peer ;;
        Session.mark_closed s ;;
        event_send (Disconnected peer)
    end).

(** One tick. *)
Definition update_tick (config : KcpConfig) : prog World unit :=
  m <- get sessions ;;
  if decide (m = ∅) then Ret tt else
  now_ms <- current_ms ;;
  now_epoch <- epoch_ms ;;
  entries <- get (λ w, os_iter w.(sessions)) ;;
  to_remove <- scan config now_ms now_epoch entries [] ;;
  for_each to_remove prune.

(** One iteration of the loop: whether it left the loop by [break]; [select!]
    is biased towards the shutdown token. *)
Definition update_iteration (config : KcpConfig) : prog World bool :=
  c <- get cancelled ;;
  if (c : bool) then Ret true else
  update_tick config ;; Ret false.

(** The loop, for at most [n] iterations: whether it was left. When it was not,
    the task waits for the next tick. *)
Fixpoint update_task (n : nat) (config : KcpConfig) : prog World bool :=
  match n with
  | O => Ret false
  | S n' =>
      b <- update_iteration config ;;
      if (b : bool) then Ret true else update_task n' config
  end.
End Update.
