(* ===== verification/Invariant.v ===== *)
(** * The invariant of a node and its evolution, under every interleaving

    [node_inv] is the well-formedness of the shared world, [evolves] what any
    action of any task may do to it, and [provenance_inv] says where the
    conversation ids and the connections of the node come from: it is relative
    to an interface, [Provenance], of which the ids drawn and received and the
    peers heard of are the instances of interest (Network.v).  Every program of
    the API and of the background tasks is shown [safe] for all three, so that
    they hold in every pool that can be reached by interleaving, spawning and
    dropping tasks. *)

From S2P Require Import Prelude Prog Packet Kcp Addr Errors Config World Session Transport.
From S2P Require Import Incoming Update.
Open Scope prog_scope.

Create HintDb safe discriminated.

Section Invariant.
Context {K : KcpLib} {os : Os} {OL : OsLaws os}.

(** ** The invariant *)

(** The fields of a session have their types, and its output adapter sends
    to its peer. *)
Definition session_ok (σ : Session) : Prop :=
  u32_ok σ.(inner).(conv_id) ∧ u64_ok σ.(last_rx) ∧ u64_ok σ.(syn_sent_at) ∧
  u32_ok σ.(syn_retries) ∧ σ.(inner).(output).(out_peer) = σ.(peer_addr).

(** Allocated sessions are well formed and below [next]; an address of the
    session map is the canonical address of a live session's peer. *)
Definition node_inv (w : World) : Prop :=
  (∀ s σ, w.(heap) !! s = Some σ → (s < w.(next))%nat ∧ session_ok σ) ∧
  (∀ can s, w.(sessions) !! can = Some s →
    ∃ σ, w.(heap) !! s = Some σ ∧ canonicalize σ.(peer_addr) = can).

(** What may happen to one session: it never changes peer or incarnation,
    never reopens, never leaves [Established], and keeps its conversation
    id except in the transition to [Established]. *)
Definition session_evolves (σ σ' : Session) : Prop :=
  σ'.(peer_addr) = σ.(peer_addr) ∧
  σ'.(inner).(incarnation) = σ.(inner).(incarnation) ∧
  (σ.(closed) = true → σ'.(closed) = true) ∧
  (σ.(inner).(state) = Established →
    σ'.(inner).(state) = Established ∧ σ'.(inner).(conv_id) = σ.(inner).(conv_id)) ∧
  (σ'.(inner).(state) = SynSent → σ'.(inner).(conv_id) = σ.(inner).(conv_id)).

(** What may happen to the world: sessions evolve and stay allocated, the
    event log and the socket log only grow, a shutdown is final, no random
    number is drawn twice. *)
Definition evolves (w w' : World) : Prop :=
  (∀ s σ, w.(heap) !! s = Some σ →
    ∃ σ', w'.(heap) !! s = Some σ' ∧ session_evolves σ σ') ∧
  (w.(next) ≤ w'.(next))%nat ∧
  w.(events) `prefix_of` w'.(events) ∧
  w.(sent) `prefix_of` w'.(sent) ∧
  (w.(cancelled) = true → w'.(cancelled) = true) ∧
  (w.(nrand) ≤ w'.(nrand))%nat.

#[export] Instance session_evolves_preorder : PreOrder session_evolves.
Proof.
  split.
  - intros σ. unfold session_evolves. by split_and!.
  - intros σ1 σ2 σ3 (Hp & Hi & Hc & He & Hv) (Hp' & Hi' & Hc' & He' & Hv').
    unfold session_evolves. split_and!; [congruence|congruence|auto| |].
    + intros H. destruct (He H) as [H2 ?]. destruct (He' H2). split; congruence.
    + intros H. rewrite (Hv' H).
      destruct (σ2.(inner).(state)) eqn:E; [by apply Hv|].
      destruct (He' eq_refl). congruence.
Qed.

#[export] Instance evolves_preorder : PreOrder evolves.
Proof.
  split.
  - intros w. split_and!; [|lia|done|done|done|lia]. intros s σ H. exists σ. by split.
  - intros w1 w2 w3 (Hh & Hn & He & Hs & Hc & Hr) (Hh' & Hn' & He' & Hs' & Hc' & Hr').
    split_and!; [|lia|by etransitivity|by etransitivity|auto|lia].
    intros s σ H. destruct (Hh s σ H) as (σ2 & H2 & ?). destruct (Hh' s σ2 H2) as (σ3 & ? & ?).
    exists σ3. split; [done|by etransitivity].
Qed.

(** ** Provenance *)

(** The conversation ids a node may use with a peer, when it has drawn [n]
    random numbers, and the peers it may be connected with.  Whatever a node
    draws is legitimate. *)
Class Provenance : Type := {
  legit : nat → CanonicalAddr → Z → Prop;
  heard : CanonicalAddr → Prop;
  legit_mono n m can c : (n ≤ m)%nat → legit n can c → legit m can c;
  legit_draw n can : legit (S n) can (os_rand n);
}.

(** Anything goes: what holds of any peer whatsoever. *)
Definition any_provenance : Provenance :=
  {| legit _ _ _ := True; heard _ := True; legit_mono _ _ _ _ _ _ := I; legit_draw _ _ := I |}.

Definition is_handshake (typ : PacketType) : Prop := typ = Syn ∨ typ = SynAck.

Context {PV : Provenance}.

Definition session_prov (n : nat) (σ : Session) : Prop :=
  legit n (canonicalize σ.(peer_addr)) σ.(inner).(conv_id) ∧
  (σ.(inner).(state) = Established → heard (canonicalize σ.(peer_addr))).

(** A packet of the wire format: KCP data, or a control packet with exactly a
    32-bit id. *)
Definition packet_typed (data : bytes) : Prop :=
  ∃ typ payload, split_packet data = Some (typ, payload) ∧
    (typ = KcpData ∨ ∃ c, u32_ok c ∧ payload = to_le_bytes c).

(** What is sent has the wire format, and handshake packets carry legitimate
    ids. *)
Definition wire_ok (n : nat) (d : Datagram) : Prop :=
  packet_typed d.(dg_bytes) ∧
  ∀ typ payload, split_packet d.(dg_bytes) = Some (typ, payload) → is_handshake typ →
    legit n (canonicalize d.(dg_to)) (payload_conv payload).

Definition event_ok (e : Event) : Prop :=
  match e with
  | Connected a | PeerRestarted a => heard (canonicalize a)
  | Disconnected _ => True
  end.

(** What a node relies on for the packets it receives. *)
Definition packet_ok (n : nat) (data : bytes) (can : CanonicalAddr) : Prop :=
  ∀ typ payload, split_packet data = Some (typ, payload) → is_handshake typ →
    legit n can (payload_conv payload) ∧ heard can.

Definition provenance_inv (w : World) : Prop :=
  (∀ s σ, w.(heap) !! s = Some σ → session_prov w.(nrand) σ) ∧
  Forall (wire_ok w.(nrand)) w.(sent) ∧
  Forall event_ok w.(events).

Definition full_inv (w : World) : Prop := node_inv w ∧ provenance_inv w.

Lemma session_prov_mono n m σ : (n ≤ m)%nat → session_prov n σ → session_prov m σ.
Proof. intros Hn [H ?]. split; [|done]. by eapply legit_mono. Qed.

Lemma wire_ok_mono n m d : (n ≤ m)%nat → wire_ok n d → wire_ok m d.
Proof.
  intros Hn [? H]. split; [done|]. intros typ payload Hs Ht.
  eapply legit_mono; [done|by eapply H].
Qed.

Lemma packet_ok_mono n m data can : (n ≤ m)%nat → packet_ok n data can → packet_ok m data can.
Proof.
  intros Hn H typ payload Hs Ht. destruct (H typ payload Hs Ht). split; [|done].
  by eapply legit_mono.
Qed.

Lemma wire_ok_data n to frame r :
  wire_ok n (MkDatagram to (PacketType_as_u8 KcpData :: frame) r).
Proof.
  split; [exists KcpData, frame; by auto|].
  intros typ' payload Hs H'. cbn in Hs. injection Hs as <- _. by destruct H'.
Qed.

Lemma wire_ok_control n to typ c r :
  u32_ok c → (is_handshake typ → legit n (canonicalize to) c) →
  wire_ok n (MkDatagram to (encode_control typ c) r).
Proof.
  intros Hc Hl. split.
  - exists typ, (to_le_bytes c). split; [apply split_control|eauto].
  - intros typ' payload Hs Ht. cbn [dg_bytes] in Hs. rewrite split_control in Hs.
    injection Hs as <- <-. rewrite payload_conv_control by done. by apply Hl.
Qed.

Abbreviation safe := (safe full_inv evolves).
Abbreviation hoare := (hoare full_inv evolves).
Abbreviation done_post := (λ _ _, True).

(** ** Stable facts *)

Definition live (s : nat) (w : World) : Prop := is_Some (w.(heap) !! s).

Definition has_peer (s : nat) (p : SocketAddr) (w : World) : Prop :=
  ∃ σ, w.(heap) !! s = Some σ ∧ σ.(peer_addr) = p.

(** [σ0] is a past state of [s]. *)
Definition past (s : nat) (σ0 : Session) (w : World) : Prop :=
  session_ok σ0 ∧ session_prov w.(nrand) σ0 ∧
  ∃ σ, w.(heap) !! s = Some σ ∧ session_evolves σ0 σ.

(** [c] is a legitimate id with [can]. *)
Definition legit_now (can : CanonicalAddr) (c : Z) (w : World) : Prop :=
  u32_ok c ∧ legit w.(nrand) can c.

Lemma evolves_nrand w w' : evolves w w' → (w.(nrand) ≤ w'.(nrand))%nat.
Proof. intros (_ & _ & _ & _ & _ & H). exact H. Qed.

Lemma live_evolves s w w' : evolves w w' → live s w → live s w'.
Proof. intros (H & _) [σ Hσ]. destruct (H s σ Hσ) as (σ' & ? & _). by exists σ'. Qed.

Lemma has_peer_evolves s p w w' : evolves w w' → has_peer s p w → has_peer s p w'.
Proof.
  intros (H & _) (σ & Hσ & <-). destruct (H s σ Hσ) as (σ' & ? & (? & _)). by exists σ'.
Qed.

Lemma past_evolves s σ0 w w' : evolves w w' → past s σ0 w → past s σ0 w'.
Proof.
  intros HG (? & ? & σ & Hσ & ?). destruct (proj1 HG s σ Hσ) as (σ' & ? & ?).
  split_and!; [done|eapply session_prov_mono; [by apply evolves_nrand|done]|].
  exists σ'. split; [done|]. by etransitivity.
Qed.

Lemma legit_now_evolves can c w w' : evolves w w' → legit_now can c w → legit_now can c w'.
Proof.
  intros HG [? ?]. split; [done|]. eapply legit_mono; [by apply evolves_nrand|done].
Qed.

Lemma has_peer_live s p w : has_peer s p w → live s w.
Proof. intros (σ & ? & _). by exists σ. Qed.

Lemma past_live s σ0 w : past s σ0 w → live s w.
Proof. intros (_ & _ & σ & ? & _). by exists σ. Qed.

Lemma past_conv s σ0 w : past s σ0 w → u32_ok σ0.(inner).(conv_id).
Proof. by intros ((? & _) & _). Qed.

(** All past states have the same peer. *)
Lemma past_has_peer s σ0 p w : past s σ0 w → has_peer s p w → σ0.(peer_addr) = p.
Proof.
  intros (_ & _ & σ & Hσ & (Hp & _)) (σ' & Hσ' & <-). congruence.
Qed.

Lemma past_peer s σ0 w : past s σ0 w → has_peer s σ0.(peer_addr) w.
Proof. intros (_ & _ & σ & Hσ & (Hp & _)). by exists σ. Qed.

Lemma past_legit s σ0 w :
  past s σ0 w → legit_now (canonicalize σ0.(peer_addr)) σ0.(inner).(conv_id) w.
Proof. intros ((? & _) & (? & _) & _). by split. Qed.

(** ** Frames *)

Lemma evolves_refl_heap w w' :
  w'.(heap) = w.(heap) → w'.(next) = w.(next) →
  w.(events) `prefix_of` w'.(events) → w.(sent) `prefix_of` w'.(sent) →
  (w.(cancelled) = true → w'.(cancelled) = true) → (w.(nrand) ≤ w'.(nrand))%nat →
  evolves w w'.
Proof.
  intros Hh Hn He Hs Hc Hr. split_and!; [|lia|done|done|done|done].
  rewrite Hh. intros s σ H. exists σ. by split.
Qed.

(** An action that leaves heap, allocation and map alone, and appends to the
    logs what may be there. *)
Lemma safe_log {B} (f : World → B * World) (Q : B → World → Prop) w :
  (∀ w1, (f w1).2.(heap) = w1.(heap) ∧ (f w1).2.(next) = w1.(next) ∧
    (f w1).2.(sessions) = w1.(sessions) ∧
    (w1.(cancelled) = true → (f w1).2.(cancelled) = true) ∧
    (w1.(nrand) ≤ (f w1).2.(nrand))%nat) →
  (∀ w1, evolves w w1 → ∃ es ds,
    (f w1).2.(events) = w1.(events) ++ es ∧ Forall event_ok es ∧
    (f w1).2.(sent) = w1.(sent) ++ ds ∧ Forall (wire_ok w1.(nrand)) ds) →
  (∀ w1, evolves w w1 → Q (f w1).1 (f w1).2) →
  safe (act f) Q w.
Proof.
  intros Hf Hlog HQ w1 HG [[HI1 HI2] (HP1 & HP2 & HP3)]. cbn.
  destruct (Hf w1) as (Hh & Hn & Hm & Hc & Hr).
  destruct (Hlog w1 HG) as (es & ds & He & Hes & Hs & Hds).
  split_and!; [split; split_and!|by apply evolves_refl_heap; rewrite ?He, ?Hs; eauto using prefix_app_r|auto].
  - by rewrite Hh, Hn.
  - by rewrite Hm, Hh.
  - rewrite Hh. intros s σ Hσ. eapply session_prov_mono; [done|by eapply HP1].
  - rewrite Hs. apply Forall_app; split; eapply Forall_impl; [exact HP2| |exact Hds|];
      intros d; by apply wire_ok_mono.
  - rewrite He. by apply Forall_app.
Qed.

(** An action that leaves the logs alone, too. *)
Lemma safe_frame {B} (f : World → B * World) (Q : B → World → Prop) w :
  (∀ w1, (f w1).2.(heap) = w1.(heap) ∧ (f w1).2.(next) = w1.(next) ∧
    (f w1).2.(sessions) = w1.(sessions) ∧
    (w1.(cancelled) = true → (f w1).2.(cancelled) = true) ∧
    (w1.(nrand) ≤ (f w1).2.(nrand))%nat ∧
    (f w1).2.(events) = w1.(events) ∧ (f w1).2.(sent) = w1.(sent)) →
  (∀ w1, Q (f w1).1 (f w1).2) →
  safe (act f) Q w.
Proof.
  intros Hf HQ. apply safe_log; [| |done].
  - intros w1. by destruct (Hf w1) as (? & ? & ? & ? & ? & _).
  - intros w1 _. destruct (Hf w1) as (_ & _ & _ & _ & _ & -> & ->). exists [], [].
    by rewrite !app_nil_r.
Qed.

(** ** Primitive actions *)

Lemma safe_epoch_ms w : safe epoch_ms (λ t _, u64_ok t) w.
Proof. apply safe_frame; [by intros; cbn; split_and!|]. intros. apply as_u64_ok. Qed.

Lemma safe_current_ms w : safe current_ms (λ t _, u32_ok t) w.
Proof. apply safe_frame; [by intros; cbn; split_and!|]. intros. apply as_u32_ok. Qed.

Lemma safe_random_conv w : safe random_conv (λ c w', ∀ can, legit_now can c w') w.
Proof.
  apply safe_frame; [intros; cbn; split_and!; (done || lia)|]. intros w1 can. cbn.
  pose proof (os_rand_range w1.(nrand)). split; [width_lia|]. apply legit_draw.
Qed.

Lemma safe_send_to b a w :
  (∀ w1 r, evolves w w1 → wire_ok w1.(nrand) (MkDatagram a b r)) →
  safe (send_to b a) done_post w.
Proof.
  intros Hb. apply safe_log; [by intros; cbn; split_and!| |done].
  intros w1 HG. eexists [], [_]. cbn. rewrite app_nil_r. split_and!; [done..|].
  constructor; [by apply Hb|done].
Qed.

(** A handshake packet with a legitimate id; KCP data; a RESET. *)
Lemma safe_send_control typ c a w :
  legit_now (canonicalize a) c w → safe (send_to (encode_control typ c) a) done_post w.
Proof.
  intros Hl. apply safe_send_to. intros w1 r HG.
  destruct (legit_now_evolves _ _ _ _ HG Hl). by apply wire_ok_control.
Qed.

Lemma safe_send_data_packet frame a w :
  safe (send_to (PacketType_as_u8 KcpData :: frame) a) done_post w.
Proof. apply safe_send_to. intros. apply wire_ok_data. Qed.

Lemma safe_send_one_reset c a w :
  u32_ok c → safe (send_to (encode_control Reset c) a) done_post w.
Proof.
  intros Hc. apply safe_send_to. intros. apply wire_ok_control; [done|by intros [|]].
Qed.

Lemma safe_event_send e w : event_ok e → safe (event_send e) done_post w.
Proof.
  intros He. apply safe_log; [by intros; cbn; split_and!| |done].
  intros w1 _. exists [e], []. cbn. rewrite app_nil_r. auto.
Qed.

Lemma safe_read {B} (f : World → B) w : safe (get f) done_post w.
Proof. by apply safe_get; [apply _|]. Qed.

Lemma safe_load {A} s (f : Session → A) w :
  live s w → safe (load s f) (λ a w', ∃ σ0, a = f σ0 ∧ past s σ0 w') w.
Proof.
  intros Hl. apply safe_get; [apply _|]. intros w1 HG [[HI _] [HP _]].
  destruct (live_evolves _ _ _ HG Hl) as [σ Hσ]. exists σ.
  rewrite (lookup_total_correct _ _ _ Hσ). split; [done|].
  destruct (HI _ _ Hσ). split_and!; [done|by eapply HP|]. by exists σ.
Qed.

Lemma store_inv s (f : Session → Session) w :
  full_inv w →
  (∀ σ, w.(heap) !! s = Some σ → session_ok σ → session_prov w.(nrand) σ →
    session_ok (f σ) ∧ session_evolves σ (f σ) ∧ session_prov w.(nrand) (f σ)) →
  full_inv (upd_heap (alter f s) w) ∧ evolves w (upd_heap (alter f s) w).
Proof.
  intros [[HI1 HI2] [HP1 HP2]] Hf.
  assert (Hfs : ∀ σ, w.(heap) !! s = Some σ →
    session_ok (f σ) ∧ session_evolves σ (f σ) ∧ session_prov w.(nrand) (f σ)).
  { intros σ Hσ. apply Hf; [done|by eapply HI1|by eapply HP1]. }
  split; [split; split|split_and!]; cbn; [| | |done| |lia|done|done|done|lia].
  - intros s' σ'. rewrite lookup_alter. case_decide as Hs; [subst s'|apply HI1].
    intros (σ & Hσ & ->)%fmap_Some. destruct (HI1 _ _ Hσ).
    split; [done|]. by apply Hfs.
  - intros can s' Hm. destruct (HI2 _ _ Hm) as (σ & Hσ & Hp).
    rewrite lookup_alter. case_decide as Hs; [subst s'|by exists σ].
    rewrite Hσ. exists (f σ). split; [done|].
    destruct (Hfs σ Hσ) as [_ [(-> & _) _]]. done.
  - intros s' σ'. rewrite lookup_alter. case_decide as Hs; [subst s'|apply HP1].
    intros (σ & Hσ & ->)%fmap_Some. by apply Hfs.
  - intros s' σ Hσ.
    rewrite lookup_alter. case_decide as Hs; [subst s'|by exists σ].
    rewrite Hσ. exists (f σ). split; [done|]. by apply Hfs.
Qed.

Lemma safe_store s (f : Session → Session) w :
  (∀ w1 σ, evolves w w1 → w1.(heap) !! s = Some σ → session_ok σ →
    session_prov w1.(nrand) σ →
    session_ok (f σ) ∧ session_evolves σ (f σ) ∧ session_prov w1.(nrand) (f σ)) →
  safe (store s f) done_post w.
Proof.
  intros Hf w1 HG HI. cbn. destruct (store_inv s f w1 HI (λ σ, Hf w1 σ HG)). done.
Qed.

Lemma safe_arc_new σ w :
  session_ok σ → session_prov w.(nrand) σ →
  safe (arc_new σ) (λ s w', has_peer s σ.(peer_addr) w') w.
Proof.
  intros Hok Hpr w1 HG [[HI1 HI2] [HP1 HP2]]. cbn.
  assert (Hfresh : w1.(heap) !! w1.(next) = None).
  { destruct (w1.(heap) !! w1.(next)) eqn:E; [|done]. destruct (HI1 _ _ E). lia. }
  split_and!.
  - split; split; cbn; [| | |done].
    + intros s' σ'. rewrite lookup_insert. case_decide as Hs.
      * intros [= <-]. split; [lia|done].
      * intros Hσ. destruct (HI1 _ _ Hσ). split; [lia|done].
    + intros can s Hm. destruct (HI2 _ _ Hm) as (σ' & Hσ & ?). exists σ'. split; [|done].
      rewrite lookup_insert_ne; [done|]. intros ?. congruence.
    + intros s' σ'. rewrite lookup_insert. case_decide as Hs; [|by apply HP1].
      intros [= <-]. eapply session_prov_mono; [by apply evolves_nrand|done].
  - split_and!; cbn; [|lia|done|done|done|lia]. intros s σ' Hσ. exists σ'.
    split; [|done]. rewrite lookup_insert_ne; [done|]. intros ?. congruence.
  - exists σ. split; [apply lookup_insert_eq|done].
Qed.

Lemma safe_map_get can w :
  safe (map_get can) (λ o w', ∀ s, o = Some s →
    ∃ p, has_peer s p w' ∧ canonicalize p = can) w.
Proof.
  apply safe_get; [apply _|]. intros w1 HG [[_ HI] _] s Hs.
  destruct (HI _ _ Hs) as (σ & ? & ?). exists σ.(peer_addr). split; [by exists σ|done].
Qed.

Lemma safe_map_insert can s p w :
  has_peer s p w → canonicalize p = can → safe (map_insert can s) done_post w.
Proof.
  intros Hp Hc w1 HG [[HI1 HI2] HP]. cbn. split_and!; [|by apply evolves_refl_heap|done].
  split; [split; [done|]|done]. cbn. intros can' s'. rewrite lookup_insert.
  case_decide as H; [|apply HI2].
  intros [= <-]. subst. destruct (has_peer_evolves _ _ _ _ HG Hp) as (σ & ? & <-). by exists σ.
Qed.

Lemma safe_map_remove can w :
  safe (map_remove can) (λ o w', ∀ s, o = Some s →
    ∃ p, has_peer s p w' ∧ canonicalize p = can) w.
Proof.
  intros w1 HG [[HI1 HI2] HP]. cbn. split_and!; [|by apply evolves_refl_heap|].
  - split; [split; [done|]|done]. cbn. intros can' s'. rewrite lookup_delete.
    case_decide; [done|apply HI2].
  - intros s Hs. destruct (HI2 _ _ Hs) as (σ & ? & ?). exists σ.(peer_addr). split; [|done].
    by exists σ.
Qed.

(** ** Sessions *)

#[local] Hint Resolve live_evolves has_peer_evolves past_evolves legit_now_evolves
  has_peer_live past_live past_peer past_conv : safe.
#[local] Hint Extern 1 (live _ _) => eassumption : safe.

(** Sequence with a lemma on the first program; the side conditions on
    liveness follow from earlier facts by stability. *)
Ltac seq lem := eapply safe_bind; [apply _|eapply lem; eauto with safe|cbv beta].
Ltac seq_result lem := eapply safe_bind_result; [apply _|eapply lem; eauto with safe|cbv beta|done].

Lemma safe_ret {A} (a : A) (Q : A → World → Prop) w : Q a w → safe (Ret a) Q w.
Proof. done. Qed.

Lemma safe_weaken {A} (p : prog World A) Q w : safe p Q w → safe p done_post w.
Proof. intros H. by eapply safe_mono; [apply _|exact H|]. Qed.

Lemma safe_write o frame w :
  safe (DirectOutput.write o frame) (λ x _, x.1.(out_peer) = o.(out_peer)) w.
Proof. seq safe_send_data_packet. by intros. Qed.

Lemma safe_run_kio {A} o (p : kio A) w :
  safe (DirectOutput.run_kio o p) (λ x _, x.2.(out_peer) = o.(out_peer)) w.
Proof.
  revert o w. induction p as [a|frame k IH]; intros o w; cbn [DirectOutput.run_kio]; [done|].
  eapply safe_bind; [apply _|apply safe_write|]. cbn. intros x w1 _ <-. apply IH.
Qed.

(** The update of one field keeps [session_ok] and is an evolution. *)
Ltac field_ok :=
  unfold session_ok, session_evolves, session_prov in *; split_and!; eauto with kcp.

(** Writing back a KCP state and an adapter to the same peer. *)
Lemma safe_set_kcp s k o σ0 w :
  past s σ0 w → o.(out_peer) = σ0.(inner).(output).(out_peer) →
  safe (store s (upd_inner (set_kcp k o))) done_post w.
Proof.
  intros Hp Ho. apply safe_store. intros w1 σ HG Hσ (? & ? & ? & ? & ?) [? ?].
  destruct (past_evolves _ _ _ _ HG Hp) as ((_ & _ & _ & _ & Hpeer) & _ & σ' & Hσ' & (Heq & _)).
  assert (σ' = σ) as -> by congruence.
  field_ok. cbn. congruence.
Qed.

Lemma safe_kcp_call {A} s (op : kcp_t → kio (kcp_t * Result A kcp_error)) w :
  live s w → safe (Session.kcp_call s op) done_post w.
Proof.
  intros Hl. seq @safe_load. intros k w1 HG1 _.
  seq @safe_load. intros o w2 HG2 (σ0 & -> & Hpast).
  seq @safe_run_kio. intros x w3 HG3 Ho. cbn in Ho. by seq safe_set_kcp.
Qed.

(** The stores of the source. *)
Lemma safe_set_last_rx s t w : u64_ok t → safe (store s (set_last_rx t)) done_post w.
Proof.
  intros Ht. apply safe_store. intros w1 σ _ _ (? & ? & ? & ? & ?) [? ?]. field_ok.
Qed.

Lemma safe_set_syn_sent_at s t w : u64_ok t → safe (store s (set_syn_sent_at t)) done_post w.
Proof.
  intros Ht. apply safe_store. intros w1 σ _ _ (? & ? & ? & ? & ?) [? ?]. field_ok.
Qed.

Lemma safe_add_syn_retries s w :
  safe (store s (λ σ, set_syn_retries (wrapping_add_u32 σ.(syn_retries) 1) σ)) done_post w.
Proof.
  apply safe_store. intros w1 σ _ _ (? & ? & ? & ? & ?) [? ?].
  field_ok. apply as_u32_ok.
Qed.

Lemma safe_mark_closed s w : safe (Session.mark_closed s) done_post w.
Proof. apply safe_store. intros w1 σ _ _ (? & ? & ? & ? & ?) [? ?]. field_ok. Qed.

Lemma safe_set_established s p w :
  has_peer s p w → heard (canonicalize p) →
  safe (store s (upd_inner (set_state Established))) done_post w.
Proof.
  intros Hp Hh. apply safe_store. intros w1 σ HG Hσ (? & ? & ? & ? & ?) [? ?].
  destruct (has_peer_evolves _ _ _ _ HG Hp) as (σ' & Hσ' & <-).
  assert (σ' = σ) as -> by congruence. field_ok.
Qed.

Lemma new_session_ok k conv peer st inc rx syn :
  u32_ok conv → u64_ok rx → u64_ok syn →
  session_ok (Session.new_session k conv peer st inc rx syn).
Proof. intros. unfold session_ok, u32_ok at 2. cbn. split_and!; (done || lia). Qed.

Lemma safe_new_outbound conv peer inc config w :
  legit_now (canonicalize peer) conv w → safe (Session.new_outbound conv peer inc config)
    (λ s w', has_peer s peer w') w.
Proof.
  intros Hc. seq safe_epoch_ms. intros t w1 HG1 Ht.
  destruct (legit_now_evolves _ _ _ _ HG1 Hc).
  apply safe_arc_new; [by apply new_session_ok|by split].
Qed.

Lemma safe_new_inbound conv peer inc config w :
  legit_now (canonicalize peer) conv w → heard (canonicalize peer) →
  safe (Session.new_inbound conv peer inc config) (λ s w', has_peer s peer w') w.
Proof.
  intros Hc Hh. seq safe_send_control. intros _ w1 HG1 _. seq safe_epoch_ms.
  intros t w2 HG2 Ht. assert (legit_now (canonicalize peer) conv w2) as [? ?] by eauto with safe.
  apply safe_arc_new; [apply new_session_ok; [done..|unfold u64_ok; lia]|by split].
Qed.

(** The id read from a session may be sent to the peer read later. *)
Lemma past_send s σ0 σ1 w0 w :
  past s σ0 w0 → evolves w0 w → past s σ1 w →
  legit_now (canonicalize σ1.(peer_addr)) σ0.(inner).(conv_id) w.
Proof.
  intros H0 HG H1. apply (past_evolves _ _ _ _ HG) in H0.
  rewrite <- (past_has_peer _ _ _ _ H0 (past_peer _ _ _ H1)). by eapply past_legit.
Qed.

Lemma safe_send_syn s w : live s w → safe (Session.send_syn s) done_post w.
Proof.
  intros Hl. seq @safe_load. intros conv w1 HG1 (σ0 & -> & H0).
  seq @safe_load. intros p w2 HG2 (σ & -> & H1).
  seq safe_send_control; [by eapply past_send|]. intros [n|e] w3 HG3 _; [|done].
  seq safe_epoch_ms. intros t w4 HG4 Ht. by apply safe_set_syn_sent_at.
Qed.

Lemma safe_update_flush s w : live s w → safe (Session.update_flush s) done_post w.
Proof.
  intros Hl. seq safe_current_ms. intros t w1 HG1 _.
  seq_result @safe_kcp_call. intros _ w2 HG2 _. apply safe_kcp_call; eauto with safe.
Qed.

Lemma safe_send_data s data w : live s w → safe (Session.send_data s data) done_post w.
Proof.
  intros Hl. seq @safe_load. intros [] w1 HG1 _; [done|].
  apply safe_atomic; [apply _|]. intros w2 HG2 _. seq @safe_load. intros k w3 HG3 _.
  case_match; [done|]. seq_result @safe_kcp_call. intros _ w4 HG4 _.
  seq @safe_load. intros [] w5 HG5 _; [done|]. apply safe_update_flush; eauto 6 with safe.
Qed.

Lemma safe_update s t w : live s w → safe (Session.update s t) done_post w.
Proof.
  intros Hl. apply safe_atomic; [apply _|]. intros w1 HG1 _. seq @safe_load.
  intros [] w2 HG2 _; seq @safe_load; intros k w3 HG3 _; [done|].
  case_match; [done|]. seq_result @safe_kcp_call. intros _ w4 HG4 _.
  seq @safe_load; eauto 6 with safe. intros k' w5 HG5 _. by case_match.
Qed.

Lemma safe_input s data w : live s w → safe (Session.input s data) done_post w.
Proof.
  intros Hl. apply safe_atomic; [apply _|]. intros w1 HG1 _.
  by seq_result @safe_kcp_call.
Qed.

Lemma safe_recv_loop fuel s out w :
  live s w → safe (Session.recv_loop fuel s out) done_post w.
Proof.
  revert out w. induction fuel as [|fuel IH]; intros out w Hl; cbn [Session.recv_loop].
  - seq @safe_load. intros k w1 HG1 _. by case_match.
  - seq @safe_load. intros k w1 HG1 _. case_match; [|done].
    seq @safe_load. intros o w2 HG2 (σ0 & -> & Hpast).
    seq @safe_run_kio. intros x w3 HG3 Ho. cbn in Ho.
    seq safe_set_kcp. intros _ w4 HG4 _. case_match; [|done]. apply IH; eauto 6 with safe.
Qed.

Lemma safe_try_recv_all s w : live s w → safe (Session.try_recv_all s) done_post w.
Proof.
  intros Hl. apply safe_atomic; [apply _|]. intros w1 HG1 _. seq @safe_load.
  intros k w2 HG2 _. apply safe_recv_loop; eauto with safe.
Qed.

Lemma safe_maybe_retry_syn s config now w :
  live s w → safe (Session.maybe_retry_syn s config now) done_post w.
Proof.
  intros Hl. seq @safe_load. intros [] w1 HG1 _; [done|].
  seq @safe_load. intros i w2 HG2 (σ0 & -> & H0). destruct (state _); [|done].
  seq @safe_load. intros retries w3 HG3 _. case_match; [done|].
  seq @safe_load; eauto 6 with safe. intros last w4 HG4 _. cbn zeta. case_match; [done|].
  seq @safe_load; eauto 7 with safe. intros p w5 HG5 (σ1 & -> & Hp1).
  seq safe_send_control; [eapply past_send; [exact H0| |exact Hp1]; by do 2 (etransitivity; [done|])|].
  intros _ w6 HG6 _. seq safe_epoch_ms. intros t w7 HG7 Ht.
  seq safe_set_syn_sent_at. intros _ w8 HG8 _. by seq safe_add_syn_retries.
Qed.

(** ** The API *)

Lemma safe_insert_if_absent s p w :
  has_peer s p w →
  safe (KcpPeer.insert_if_absent (canonicalize p) s)
    (λ o w', ∀ s', o = Some s' → live s' w') w.
Proof.
  intros Hp. apply safe_atomic; [apply _|]. intros w1 HG1 _.
  seq safe_map_get. intros [s'|] w2 HG2 Hs.
  - apply safe_ret. intros ? [= <-]. destruct (Hs _ eq_refl) as (? & ? & _).
    eauto with safe.
  - by seq safe_map_insert.
Qed.

Lemma safe_initiate_session self peer w :
  safe (KcpPeer.initiate_session self peer) (λ s w', live s w') w.
Proof.
  unfold KcpPeer.initiate_session. seq safe_map_get. intros [s|] w1 HG1 Hs.
  { destruct (Hs _ eq_refl) as (? & ? & _). apply safe_ret. eauto with safe. }
  seq safe_random_conv. intros conv w2 HG2 Hconv.
  seq safe_new_outbound. intros s w3 HG3 Hp.
  seq safe_insert_if_absent. intros [s'|] w4 HG4 Hs'; [apply safe_ret; auto|].
  seq safe_send_syn. intros _ w5 HG5 _. apply safe_ret. eauto with safe.
Qed.

Lemma safe_send self peer data w : safe (KcpPeer.send self peer data) done_post w.
Proof.
  unfold KcpPeer.send. seq safe_map_get. intros [s|] w1 HG1 Hs.
  - destruct (Hs _ eq_refl) as (? & ? & _). apply safe_send_data. eauto with safe.
  - seq safe_initiate_session. intros s w2 HG2 Hl. by apply safe_send_data.
Qed.

Lemma safe_pop_front w : safe KcpPeer.pop_front done_post w.
Proof. apply safe_frame; [|done]. intros w1. by destruct (pending w1). Qed.

Lemma safe_take_permit w : safe KcpPeer.take_permit done_post w.
Proof. by apply safe_frame. Qed.

Lemma safe_recv fuel w :
  safe (KcpPeer.recv fuel) done_post w ∧ safe (KcpPeer.recv_wait fuel) done_post w.
Proof.
  revert w. induction fuel as [|fuel IH]; intros w; [done|].
  split; cbn [KcpPeer.recv KcpPeer.recv_wait].
  - seq @safe_read. intros [] w1 HG1 _; [done|]. seq safe_pop_front.
    intros [m|] w2 HG2 _; [done|]. apply IH.
  - seq safe_take_permit. intros [] w1 HG1 _; [apply IH|].
    seq @safe_read. intros [] w2 HG2 _; [done|apply IH].
Qed.

Lemma safe_send_reset conv to w :
  u32_ok conv → safe (KcpPeer.send_reset conv to) done_post w.
Proof.
  intros Hc. apply safe_repeat; [apply _|]. intros w1 HG1. by seq safe_send_one_reset.
Qed.

Lemma safe_disconnect peer w : safe (KcpPeer.disconnect peer) done_post w.
Proof.
  apply safe_atomic; [apply _|]. intros w1 HG1 _.
  seq safe_map_remove. intros [s|] w2 HG2 Hs; [|done].
  destruct (Hs _ eq_refl) as (p & Hp%has_peer_live & _).
  seq safe_mark_closed. intros _ w3 HG3 _.
  seq @safe_load. intros conv w4 HG4 (σ0 & -> & Hσ0).
  seq safe_send_reset. intros _ w5 HG5 _. by apply safe_event_send.
Qed.

(** The sessions of the map are live: so is every value of its iteration. *)
Lemma safe_session_values w :
  safe KcpPeer.session_values (λ l w', Forall (λ s, live s w') l) w.
Proof.
  apply safe_get; [apply _|]. intros w1 HG [[_ HI] _]. apply Forall_forall. intros s Hs.
  apply list_elem_of_fmap in Hs as ((can & s') & -> & Hin). cbn.
  rewrite (os_iter_perm w1.(sessions)) in Hin. apply elem_of_map_to_list in Hin.
  destruct (HI _ _ Hin) as (σ & ? & _). by exists σ.
Qed.

Lemma Forall_live l w w' :
  evolves w w' → Forall (λ s, live s w) l → Forall (λ s, live s w') l.
Proof. intros HG H. eapply Forall_impl; [exact H|]. intros s. by apply live_evolves. Qed.

Lemma safe_filter_open l w :
  Forall (λ s, live s w) l → safe (KcpPeer.filter_open l) done_post w.
Proof.
  revert w. induction l as [|s l IH]; intros w Hl; cbn [KcpPeer.filter_open]; [done|].
  apply Forall_cons in Hl as [Hs Hl]. seq @safe_load. intros [] w1 HG1 _.
  - apply IH. by eapply Forall_live.
  - seq @safe_load. intros a w2 HG2 _.
    eapply safe_bind; [apply _|apply IH; by eauto using Forall_live|done].
Qed.

Lemma safe_peers w : safe KcpPeer.peers done_post w.
Proof.
  seq safe_session_values. intros l w1 HG1 Hl. by apply safe_filter_open.
Qed.

Lemma safe_stats peer w : safe (KcpPeer.stats peer) done_post w.
Proof.
  seq safe_map_get. intros [s|] w1 HG1 Hs; [|done].
  destruct (Hs _ eq_refl) as (p & Hp%has_peer_live & _). seq @safe_load.
  intros [] w2 HG2 _; [done|]. apply safe_atomic; [apply _|]. intros w3 HG3 _.
  seq @safe_load. intros i w4 HG4 _. seq safe_epoch_ms. intros t w5 HG5 _.
  by seq @safe_load; eauto 7 with safe.
Qed.

Lemma safe_shutdown w : safe KcpPeer.shutdown done_post w.
Proof.
  eapply safe_bind; [apply _|by apply safe_frame with (Q := done_post)|].
  intros _ w1 HG1 _. seq safe_session_values. intros l w2 HG2 Hl.
  apply safe_for_each; [apply _|]. intros s w3 HG3 Hin.
  pose proof (proj1 (Forall_forall _ _) Hl _ Hin) as Hs.
  seq safe_mark_closed. intros _ w4 HG4 _. seq @safe_load.
  intros conv w5 HG5 (σ0 & -> & Hσ0).
  seq @safe_load; eauto 6 with safe. intros p w6 HG6 _. apply safe_send_reset.
  by eapply past_conv.
Qed.

(** ** Incoming packets *)

Lemma safe_then_ret {A B} (p : prog World A) (b : B) Q (R : B → World → Prop) w :
  safe p Q w → (∀ w', evolves w w' → R b w') → safe (p ;; Ret b) R w.
Proof. intros H HR. eapply safe_bind; [apply _|exact H|]. intros _ w1 HG _. by apply HR. Qed.

Lemma safe_then_done {A B} (p : prog World A) (b : B) Q w :
  safe p Q w → safe (p ;; Ret b) done_post w.
Proof. intros H. by eapply safe_then_ret. Qed.

Lemma safe_push_messages s msgs w :
  live s w → safe (push_messages s msgs) done_post w.
Proof.
  intros Hl. seq @safe_load. intros p w1 HG1 _.
  eapply safe_bind; [apply _|by apply safe_frame with (Q := done_post)|].
  intros _ w2 HG2 _. by apply safe_frame.
Qed.

Lemma safe_handle_kcp_data payload from w :
  bytes_ok payload → safe (handle_kcp_data payload from) done_post w.
Proof.
  intros Hb. unfold handle_kcp_data. seq safe_map_get. intros [s|] w1 HG1 Hs.
  - destruct (Hs _ eq_refl) as (p & Hp%has_peer_live & _).
    seq safe_epoch_ms. intros t w2 HG2 Ht. seq safe_set_last_rx. intros _ w3 HG3 _.
    seq_result safe_input. intros _ w4 HG4 _.
    seq safe_try_recv_all; eauto 6 with safe.
    intros [[|m msgs] [[]|e]] w5 HG5 _; cbn [fst snd]; [done..| |done].
    seq safe_push_messages; eauto 7 with safe.
  - case_decide; [|done].
    eapply safe_then_done, safe_send_reset. by apply payload_conv_u32.
Qed.

Lemma safe_flush_queued s w : live s w → safe (flush_queued s) done_post w.
Proof.
  intros Hl. seq safe_current_ms. intros t w1 HG1 _. seq @safe_kcp_call.
  intros _ w2 HG2 _. by seq @safe_kcp_call.
Qed.

Lemma safe_refresh_flush {A} s (k : prog World A) Q w :
  live s w → (∀ w', evolves w w' → safe k Q w') →
  safe (now <- epoch_ms ;; store s (set_last_rx now) ;; flush_queued s ;; k) Q w.
Proof.
  intros Hl Hk. seq safe_epoch_ms. intros t w1 HG1 Ht.
  seq safe_set_last_rx. intros _ w2 HG2 _. seq safe_flush_queued. intros _ w3 HG3 _.
  apply Hk. by do 2 (etransitivity; [done|]).
Qed.

Lemma safe_establish {A} s p (k : prog World A) Q w :
  has_peer s p w → heard (canonicalize p) → (∀ w', evolves w w' → safe k Q w') →
  safe (establish s ;; k) Q w.
Proof.
  intros Hl Hh Hk. eapply safe_bind; [apply _| |auto]. instantiate (1 := done_post).
  seq safe_set_established. intros _ w1 HG1 _. seq safe_epoch_ms. intros t w2 HG2 Ht.
  seq safe_set_last_rx. intros _ w3 HG3 _. apply safe_flush_queued. eauto with safe.
Qed.

Lemma upd_heap_fuse s (f g : Session → Session) (w : World) :
  upd_heap (alter g s) (upd_heap (alter f s) w) = upd_heap (alter (λ σ, g (f σ)) s) w.
Proof. unfold upd_heap. cbn. f_equal. apply alter_alter_eq. Qed.

Definition adopt_inner (conv : Z) (i : SessionInner) : SessionInner :=
  MkInner (kcp_set_conv conv i.(kcp)) i.(output) conv Established i.(incarnation).

(** Adopting the peer's conversation id and establishing, as one store. *)
Lemma adopt_fuse {A} s conv (k : prog World A) :
  prog_eq
    (store s (upd_inner (λ i, set_kcp (kcp_set_conv conv i.(kcp)) i.(output) i)) ;;
     store s (upd_inner (set_conv_id conv)) ;;
     establish s ;; k)
    (store s (upd_inner (adopt_inner conv)) ;;
     now <- epoch_ms ;; store s (set_last_rx now) ;; flush_queued s ;; k).
Proof.
  intros w. unfold establish. unfold store at 1 2 3 5. unfold modify, act.
  cbn [bind run fst snd]. by rewrite !upd_heap_fuse.
Qed.

Lemma hoare_get {A B} (f : World → A) (k : A → prog World B) Q w :
  hoare (k (f w)) Q w → hoare (bind (get f) k) Q w.
Proof. done. Qed.

Lemma adopt_ok n conv σ :
  u32_ok conv → legit n (canonicalize σ.(peer_addr)) conv → heard (canonicalize σ.(peer_addr)) →
  session_ok σ → σ.(inner).(state) = SynSent →
  session_ok (upd_inner (adopt_inner conv) σ) ∧
  session_evolves σ (upd_inner (adopt_inner conv) σ) ∧
  session_prov n (upd_inner (adopt_inner conv) σ).
Proof.
  intros Hc ? ? (? & ? & ? & ? & ?) Hst. field_ok; cbn; congruence.
Qed.

(** The acknowledgement a SYN asks for has a legitimate id. *)
Definition ack_ok (r : SynResult) (w : World) : Prop :=
  ∀ p, r.(send_ack_to) = Some p → legit_now (canonicalize p) r.(ack_conv) w.

Lemma safe_ack {B} (p : prog World B) act from c Q w :
  safe p Q w → legit_now (canonicalize from) c w →
  safe (p ;; Ret (MkSynResult act (Some from) c)) ack_ok w.
Proof.
  intros Hp Hl. eapply safe_then_ret; [exact Hp|]. intros w' HG p' [= <-].
  by eapply legit_now_evolves.
Qed.

Lemma hoare_syn_adopt s conv from σ w :
  legit_now (canonicalize from) conv w → heard (canonicalize from) →
  full_inv w → w.(heap) !! s = Some σ → canonicalize σ.(peer_addr) = canonicalize from →
  σ.(inner).(state) = SynSent →
  hoare
    (store s (upd_inner (λ i, set_kcp (kcp_set_conv conv i.(kcp)) i.(output) i)) ;;
     store s (upd_inner (set_conv_id conv)) ;;
     establish s ;; event_send (Connected from) ;;
     Ret (MkSynResult KeepExisting (Some from) conv)) ack_ok w.
Proof.
  intros Hc Hh HI Hσ Hcan Hst. rewrite adopt_fuse.
  apply hoare_bind with (Q := done_post); [apply _| |].
  - destruct (store_inv s (upd_inner (adopt_inner conv)) w HI); [|done].
    intros σ' Hσ' Hok _. assert (σ' = σ) as -> by congruence. destruct Hc.
    apply adopt_ok; by rewrite ?Hcan.
  - intros _ w1 HI1 HG1 _. apply hoare_safe; [apply _|done|]. apply safe_refresh_flush.
    + eapply live_evolves; [done|]. by exists σ.
    + intros w2 HG2. eapply safe_ack; [by apply safe_event_send|]. eauto with safe.
Qed.

Lemma safe_syn_check conv from my_addr w :
  legit_now (canonicalize from) conv w → heard (canonicalize from) →
  safe (syn_check conv from my_addr) ack_ok w.
Proof.
  intros Hc Hh. apply safe_atomic_hoare. intros w1 HG HI.
  apply (legit_now_evolves _ _ _ _ HG) in Hc.
  apply hoare_get. destruct (w1.(sessions) !! canonicalize from) as [s|] eqn:Hs;
    [|by apply hoare_safe; [apply _|..]].
  destruct (proj2 (proj1 HI) _ _ Hs) as (σ & Hσ & Hcan). pose proof (mk_is_Some _ _ Hσ) as Hl.
  assert (Hp : has_peer s σ.(peer_addr) w1) by by exists σ.
  assert (Hold : legit_now (canonicalize from) σ.(inner).(conv_id) w1).
  { rewrite <- Hcan. destruct HI as [[HI _] [HP _]].
    split; [by apply (HI _ _ Hσ)|by apply (HP _ _ Hσ)]. }
  apply hoare_get. rewrite (lookup_total_correct _ _ _ Hσ). cbn zeta.
  case_match eqn:Hconv; destruct (σ.(inner).(state)) eqn:Hst.
  - by apply hoare_safe; [apply _|..].
  - apply hoare_safe; [apply _|done|]. seq safe_epoch_ms. intros t w2 HG2 Ht.
    eapply safe_ack; [by apply safe_set_last_rx|]. eauto with safe.
  - case_match; [by eapply hoare_syn_adopt|].
    apply hoare_safe; [apply _|done|]. eapply safe_establish; [done|by rewrite Hcan|].
    intros w2 HG2. eapply safe_ack; [by apply safe_event_send|]. eauto with safe.
  - apply hoare_safe; [apply _|done|]. seq safe_mark_closed. intros _ w2 _ _.
    by eapply safe_then_ret; [by apply safe_event_send|].
Qed.

Lemma safe_insert_inbound from s w :
  has_peer s from w → heard (canonicalize from) → safe (insert_inbound from s) done_post w.
Proof.
  intros Hp Hh. apply safe_atomic; [apply _|]. intros w1 HG1 _.
  seq safe_map_insert. intros. by apply safe_event_send.
Qed.

Lemma safe_handle_syn payload from inc config w :
  (u32_ok (payload_conv payload) → legit_now (canonicalize from) (payload_conv payload) w) →
  heard (canonicalize from) → bytes_ok payload →
  safe (handle_syn payload from inc config) done_post w.
Proof.
  intros Hl Hh Hb. unfold handle_syn. case_decide as Hlen; [done|]. cbn zeta.
  assert (Hc : legit_now (canonicalize from) (payload_conv payload) w)
    by (apply Hl, payload_conv_u32; [done|lia]).
  case_match; [|done]. seq safe_syn_check. intros r w1 HG1 Hack.
  eapply safe_bind with (Q := done_post); [apply _| |].
  { case_match eqn:Hto; [|done]. eapply safe_then_done, safe_send_control. by apply Hack. }
  intros _ w2 HG2 _. case_match; [|done..].
  seq safe_new_inbound. intros s w3 HG3 Hp. by seq safe_insert_inbound.
Qed.

Lemma safe_handle_syn_ack payload from w :
  heard (canonicalize from) → safe (handle_syn_ack payload from) done_post w.
Proof.
  intros Hh. unfold handle_syn_ack. case_decide; [done|]. cbn zeta.
  apply safe_atomic; [apply _|]. intros w1 HG1 _.
  seq safe_map_get. intros [s|] w2 HG2 Hs; [|done].
  destruct (Hs _ eq_refl) as (p & Hp & Hcan).
  seq @safe_load. intros i w3 HG3 _. case_match; [|done]. case_match; [|done].
  eapply safe_establish; [eauto with safe|by rewrite Hcan|].
  intros w4 _. by eapply safe_then_done, safe_event_send.
Qed.

Lemma safe_handle_reset payload from w :
  safe (handle_reset payload from) done_post w.
Proof.
  unfold handle_reset. case_decide; [done|]. cbn zeta.
  seq safe_map_get. intros [s|] w2 HG2 Hs; [|done].
  destruct (Hs _ eq_refl) as (p & Hp%has_peer_live & _).
  seq @safe_load. intros c w3 HG3 _. case_match; [|done].
  seq safe_map_remove. intros _ w4 HG4 _. seq safe_mark_closed. intros _ w5 HG5 _.
  by eapply safe_then_done, safe_event_send.
Qed.

Lemma split_packet_ok data typ payload :
  bytes_ok data → split_packet data = Some (typ, payload) → bytes_ok payload.
Proof.
  intros Hd Hs. pose proof (Forall_inv_tail (P := u8_ok)) as Ht.
  destruct data as [|b data]; [done|]. cbn in Hs. case_match; [|done].
  injection Hs as <- <-. by eapply Ht.
Qed.

Lemma safe_handle_incoming data from inc config w :
  bytes_ok data → packet_ok w.(nrand) data (canonicalize from) →
  safe (handle_incoming data from inc config) done_post w.
Proof.
  intros Hd Hok. unfold handle_incoming.
  destruct (split_packet data) as [[[] payload]|] eqn:Hs; [..|done].
  - apply safe_handle_kcp_data. by eapply split_packet_ok.
  - destruct (Hok _ _ Hs (or_introl eq_refl)).
    apply safe_handle_syn; [by split|done|by eapply split_packet_ok].
  - destruct (Hok _ _ Hs (or_intror eq_refl)). by apply safe_handle_syn_ack.
  - apply safe_handle_reset.
Qed.

(** What the receive loop relies on for what [recv_from] returns. *)
Definition recv_ok (n : nat) (r : Result (bytes * SocketAddr) IoError) : Prop :=
  ∀ data a, r = Ok (data, a) → bytes_ok data ∧ packet_ok n data (canonicalize a).

(** An iteration leaves its loop only when it has found the token cancelled. *)
Definition broke (b : bool) (w : World) : Prop := b = true → w.(cancelled) = true.

Lemma recv_ok_mono n n' r : (n ≤ n')%nat → recv_ok n r → recv_ok n' r.
Proof. intros Hn H d a E. destruct (H d a E). split; [done|]. by eapply packet_ok_mono. Qed.

Lemma safe_receive_iteration r inc config w :
  recv_ok w.(nrand) r → safe (receive_iteration r inc config) broke w.
Proof.
  intros Hr. eapply safe_bind with (Q := broke); [apply _|apply safe_get; [apply _|by intros ????]|].
  intros [] w1 HG1 Hc; [done|]. destruct r as [[d a]|e]; [|done].
  destruct (recv_ok_mono _ _ _ (evolves_nrand _ _ HG1) Hr d a eq_refl).
  seq safe_handle_incoming. done.
Qed.

Lemma safe_receive_task inbox inc config w :
  Forall (recv_ok w.(nrand)) inbox → safe (receive_task inbox inc config) done_post w.
Proof.
  revert w. induction inbox as [|r inbox IH]; intros w Hin; [done|]. cbn [receive_task].
  apply Forall_cons in Hin as [Hr Hin].
  eapply safe_bind; [apply _|by apply safe_receive_iteration|]. intros [] w1 HG1 _; [done|].
  apply IH. eapply Forall_impl; [exact Hin|]. intros r'. apply recv_ok_mono. by apply evolves_nrand.
Qed.

(** ** The update task *)

Lemma safe_scan_session config now_ms now_epoch s w :
  live s w → safe (scan_session config now_ms now_epoch s) done_post w.
Proof.
  intros Hl. seq @safe_load. intros [] w1 HG1 _; [done|].
  assert (Hrest : ∀ w', evolves w1 w' → safe (
    r <- Session.maybe_retry_syn s config now_epoch ;;
    match r with
    | Err DeadLink => Ret true
    | _ =>
        last_rx_ms <- load s last_rx ;;
        if 0 <? last_rx_ms then
          let age := from_millis (saturating_sub now_epoch last_rx_ms) in
          Ret (config.(session_timeout) <? age)
        else Ret false
    end) done_post w').
  { intros w' HG'. seq safe_maybe_retry_syn. intros r w2 HG2 _.
    assert (Hl2 : live s w2) by eauto with safe.
    repeat case_match; try done; seq @safe_load; intros rx w3 HG3 _; by case_match. }
  seq safe_update. intros u w2 HG2 _. repeat case_match; try done; by apply Hrest.
Qed.

Lemma safe_scan config now_ms now_epoch entries acc w :
  Forall (λ s, live s w) entries.*2 →
  safe (scan config now_ms now_epoch entries acc) done_post w.
Proof.
  revert acc w. induction entries as [|[can s] entries IH]; intros acc w Hl;
    cbn [scan]; [done|].
  cbn in Hl. apply Forall_cons in Hl as [Hs Hl].
  seq safe_scan_session. intros b w1 HG1 _. apply IH. by eapply Forall_live.
Qed.

Lemma safe_prune can w : safe (prune can) done_post w.
Proof.
  apply safe_atomic; [apply _|]. intros w1 HG1 _.
  seq safe_map_remove. intros [s|] w2 HG2 Hs; [|done].
  destruct (Hs _ eq_refl) as (p & Hp%has_peer_live & _).
  seq @safe_load. intros conv w3 HG3 (σ0 & -> & Hσ0). seq @safe_load. intros peer w4 HG4 _.
  seq safe_send_reset. intros _ w5 HG5 _. seq safe_mark_closed. intros.
  by apply safe_event_send.
Qed.

Lemma safe_update_tick config w : safe (update_tick config) done_post w.
Proof.
  seq @safe_read. intros m w1 HG1 _. case_decide; [done|].
  seq safe_current_ms. intros now_ms w2 HG2 _. seq safe_epoch_ms. intros now w3 HG3 _.
  eapply safe_bind with (Q := λ l w', Forall (λ s, live s w') l.*2);
    [apply _|apply safe_session_values|].
  intros entries w4 HG4 Hl. seq safe_scan. intros rem w5 HG5 _.
  apply safe_for_each; [apply _|]. intros. apply safe_prune.
Qed.

Lemma safe_update_iteration config w : safe (update_iteration config) broke w.
Proof.
  eapply safe_bind with (Q := broke); [apply _|apply safe_get; [apply _|by intros ????]|].
  intros [] w1 HG1 Hc; [done|]. seq safe_update_tick. done.
Qed.

Lemma safe_update_task n config w : safe (update_task n config) done_post w.
Proof.
  revert w. induction n as [|n IH]; intros w; cbn [update_task]; [done|].
  eapply safe_bind; [apply _|apply safe_update_iteration|]. intros [] w1 HG1 _; [done|]. apply IH.
Qed.
End Invariant.
