(* ===== verification/Toy.v ===== *)
(** * A concrete environment

    An instance of the interfaces on which the theorems are evaluated: a KCP
    that keeps its messages in order and puts its conversation id in front of
    every frame, and an operating system whose clock advances by a millisecond
    at every reading and whose sends succeed.  It is used by the witnesses
    only; no definition of the model depends on it. *)

From S2P Require Import Prelude Prog Packet Kcp Addr Errors Config World.

Record toy : Type := MkToy {
  ty_conv : Z;
  ty_queue : list bytes;
  ty_ready : list bytes;
  ty_dead : bool;
  ty_wnd : Z * Z;
}.

Definition toy_set_queue (q : list bytes) (k : toy) : toy :=
  MkToy k.(ty_conv) q k.(ty_ready) k.(ty_dead) k.(ty_wnd).

Definition toy_set_ready (q : list bytes) (k : toy) : toy :=
  MkToy k.(ty_conv) k.(ty_queue) q k.(ty_dead) k.(ty_wnd).

Definition toy_kill (k : toy) : toy :=
  MkToy k.(ty_conv) k.(ty_queue) k.(ty_ready) true k.(ty_wnd).

(** Error codes: 1 output, 2 wrong conversation, 3 nothing to receive. *)
Fixpoint toy_flush (k : toy) (q : list bytes) : kio (toy * Result unit Z) :=
  match q with
  | [] => KRet (toy_set_queue [] k, Ok tt)
  | m :: q' =>
      KWrite (to_le_bytes k.(ty_conv) ++ m)
        (λ r, match r with
              | Ok _ => toy_flush k q'
              | Err _ => KRet (toy_set_queue (m :: q') k, Err 1)
              end)
  end.

Definition toy_input (data : bytes) (k : toy) : kio (toy * Result Z Z) :=
  if decide (4 ≤ length data)%nat then
    if from_le_bytes (take 4 data) =? k.(ty_conv) then
      KRet (toy_set_ready (k.(ty_ready) ++ [drop 4 data]) k, Ok (Z.of_nat (length data)))
    else KRet (k, Err 2)
  else KRet (k, Err 2).

Definition toy_recv (buf : bytes) (k : toy) : kio (toy * bytes * Result Z Z) :=
  match k.(ty_ready) with
  | [] => KRet (k, buf, Err 3)
  | m :: q => KRet (toy_set_ready q k, m, Ok (Z.of_nat (length m)))
  end.

Definition toy_lib : KcpLib := {|
  kcp_t := toy;
  kcp_error := Z;
  kcp_new c := MkToy c [] [] false (32, 128);
  kcp_set_nodelay _ _ _ _ k := k;
  kcp_set_wndsize s r k := MkToy k.(ty_conv) k.(ty_queue) k.(ty_ready) k.(ty_dead) (s, r);
  kcp_set_rx_minrto _ k := k;
  kcp_set_fast_resend _ k := k;
  kcp_set_maximum_resend_times _ k := k;
  kcp_set_interval _ k := k;
  kcp_set_mtu m k := (k, if m <? 50 then Err 4 else Ok tt);
  kcp_set_conv c k := MkToy c k.(ty_queue) k.(ty_ready) k.(ty_dead) k.(ty_wnd);
  kcp_send data k := KRet (toy_set_queue (k.(ty_queue) ++ [data]) k, Ok (Z.of_nat (length data)));
  kcp_update _ k := KRet (k, Ok tt);
  kcp_flush k := toy_flush k k.(ty_queue);
  kcp_input := toy_input;
  kcp_peeksize k :=
    match k.(ty_ready) with [] => Err 3 | m :: _ => Ok (Z.of_nat (length m)) end;
  kcp_recv := toy_recv;
  kcp_is_dead_link := ty_dead;
  kcp_wait_snd k := Z.of_nat (length k.(ty_queue));
  kcp_snd_wnd k := k.(ty_wnd).1;
  kcp_rcv_wnd k := k.(ty_wnd).2;
  kcp_rmt_wnd k := 128;
  kcp_nready k := length k.(ty_ready);
|}.

Definition toy_laws : @KcpLaws toy_lib.
Proof.
  refine (@Build_KcpLaws toy_lib ty_ready _ _ _ _ _ _ _); cbn.
  - done.
  - intros k ->. by eexists.
  - intros k m q ->. done.
  - intros k m q buf H _. unfold toy_recv. rewrite H. by eexists.
  - intros data k. by eexists _, _.
  - done.
  - done.
Defined.

Definition toy_os (me : SocketAddr) : Os := {|
  os_elapsed n := Some (from_millis (1000 + Z.of_nat n));
  os_send _ b _ := Ok (Z.of_nat (length b));
  os_rand n := 1 + Z.of_nat n mod 1000;
  os_incarnation := 77;
  os_bind := Ok tt;
  os_local_addr := Ok me;
  os_iter m := map_to_list m;
|}.

Lemma toy_os_laws me : OsLaws (toy_os me).
Proof.
  split; cbn; [intros n|width_lia|done].
  pose proof (Z.mod_pos_bound (Z.of_nat n) 1000). width_lia.
Qed.

(** Two loopback addresses. *)
Definition addr_a : SocketAddr := V4 2130706433 9001.
Definition addr_b : SocketAddr := V4 2130706433 9002.

(** A session of node [addr_a] with [peer], and a world with just that session. *)
Definition toy_session (k : toy) (st : SessionState) (conv : Z) (peer : SocketAddr) :
    @Session toy_lib :=
  MkSession (K := toy_lib) (MkInner (K := toy_lib) k (MkDirectOutput peer []) conv st 11)
    false 1000 peer 1000 0.

Definition toy_world (σ : @Session toy_lib) : World :=
  MkWorld {[ 0%nat := σ ]} 1 {[ canonicalize σ.(peer_addr) := 0%nat ]} [] [] false false [] 0 0.

(** A connecting, an established, and an established but dead session. *)
Definition toy_connecting : @Session toy_lib := toy_session (kcp_new (KcpLib := toy_lib) 7) SynSent 7 addr_b.
Definition toy_connected : @Session toy_lib := toy_session (kcp_new (KcpLib := toy_lib) 7) Established 7 addr_b.
Definition toy_dead_session : @Session toy_lib :=
  toy_session (toy_kill (kcp_new (KcpLib := toy_lib) 7)) Established 7 addr_b.

(** An established session with two messages ready. *)
Definition toy_ready_session : @Session toy_lib :=
  toy_session (MkToy 7 [] [[1; 2]; [3]] false (32, 128)) Established 7 addr_b.

(** The same operating system with other random numbers. *)
Definition toy_os_shifted (me : SocketAddr) : Os := {|
  os_elapsed := os_elapsed (Os := toy_os me);
  os_send := os_send (Os := toy_os me);
  os_rand n := os_rand (Os := toy_os me) (S n);
  os_incarnation := os_incarnation (Os := toy_os me);
  os_bind := Ok tt;
  os_local_addr := Ok me;
  os_iter := os_iter (Os := toy_os me);
|}.

Lemma toy_os_shifted_laws me : OsLaws (toy_os_shifted me).
Proof.
  pose proof (toy_os_laws me) as H. split; [intros n; apply (os_rand_range (OsLaws := H))| |].
  - exact (os_incarnation_ok (OsLaws := H)).
  - exact (os_iter_perm (OsLaws := H)).
Qed.
