(* ===== verification/Tasks.v ===== *)
(** * Every interleaving of the API and the background tasks

    The tasks of a node as a pool: any number of API calls, incoming packets,
    receive loops and update loops, spawned at any time, interleaved action by
    action, and dropped (a cancelled future) before any of their actions. *)

From S2P Require Import Prelude Prog Packet Kcp Addr Errors Config World Session Transport.
From S2P Require Import Incoming Update Invariant Toy.
Open Scope prog_scope.

(** What can run on a node. *)
Inductive Task : Type :=
  | TSend (peer : SocketAddr) (data : bytes)
  | TRecv (polls : nat)
  | TPeers
  | TStats (peer : SocketAddr)
  | TDisconnect (peer : SocketAddr)
  | TShutdown
  | TIncoming (data : bytes) (from : SocketAddr)
  | TReceive (inbox : list (Result (bytes * SocketAddr) IoError))
  | TTick
  | TUpdate (ticks : nat).

(** Datagrams are bytes. *)
Definition Task_ok (t : Task) : Prop :=
  match t with
  | TIncoming data _ => bytes_ok data
  | TReceive inbox => Forall (λ r, ∀ d a, r = Ok (d, a) → bytes_ok d) inbox
  | _ => True
  end.

(** Without an assumption on the packets: every id is legitimate, every peer
    was heard. *)
Abbreviation any_inv := (full_inv (PV := any_provenance)).

Section Tasks.
Context {K : KcpLib} {os : Os} {OL : OsLaws os} (self : KcpPeer).

Definition task_prog (t : Task) : prog World unit :=
  match t with
  | TSend peer data => KcpPeer.send self peer data ;; Ret tt
  | TRecv polls => KcpPeer.recv polls ;; Ret tt
  | TPeers => KcpPeer.peers ;; Ret tt
  | TStats peer => KcpPeer.stats peer ;; Ret tt
  | TDisconnect peer => KcpPeer.disconnect peer
  | TShutdown => KcpPeer.shutdown
  | TIncoming data from =>
      handle_incoming data from self.(kp_incarnation) self.(kp_config) ;; Ret tt
  | TReceive inbox => receive_task inbox self.(kp_incarnation) self.(kp_config) ;; Ret tt
  | TTick => update_tick self.(kp_config)
  | TUpdate ticks => update_task ticks self.(kp_config) ;; Ret tt
  end.

Definition spawnable (p : prog World unit) : Prop := ∃ t, Task_ok t ∧ p = task_prog t.

(** The pools a node can reach after [bind_with]. *)
Definition node_reach (c : pool) : Prop := pool_reach spawnable ([], KcpPeer.empty_world) c.

(** What the packets of a task must satisfy to be received by a node that
    has drawn [n] ids. *)
Definition task_prov {PV : Provenance} (n : nat) (t : Task) : Prop :=
  match t with
  | TIncoming data from => packet_ok n data (canonicalize from)
  | TReceive inbox => ∀ d a, Ok (d, a) ∈ inbox → packet_ok n d (canonicalize a)
  | _ => True
  end.

Lemma task_safe {PV : Provenance} t w :
  Task_ok t → task_prov w.(nrand) t →
  safe full_inv evolves (task_prog t) (λ _ _, True) w.
Proof.
  destruct t; cbn [task_prog Task_ok task_prov]; intros Ht Hp.
  - eapply safe_then_done, safe_send.
  - eapply safe_then_done, safe_recv.
  - eapply safe_then_done, safe_peers.
  - eapply safe_then_done, safe_stats.
  - apply safe_disconnect.
  - apply safe_shutdown.
  - by eapply safe_then_done, safe_handle_incoming.
  - eapply safe_then_done, safe_receive_task. rewrite Forall_forall in *. intros r Hr d a ->.
    split; [by eapply Ht|by apply Hp].
  - apply safe_update_tick.
  - eapply safe_then_done, safe_update_task.
Qed.

Lemma empty_world_inv : node_inv KcpPeer.empty_world.
Proof. split; cbn; intros; by rewrite lookup_empty in *. Qed.

Lemma empty_world_full {PV : Provenance} : full_inv KcpPeer.empty_world.
Proof.
  split; [apply empty_world_inv|]. split; [|by split]. cbn. intros. by rewrite lookup_empty in *.
Qed.

Lemma spawn_safe p w : spawnable p → safe any_inv evolves p (λ _ _, True) w.
Proof.
  intros (t & Ht & ->). apply (task_safe (PV := any_provenance)); [done|]. by destruct t.
Qed.

Lemma node_reach_ok c : node_reach c → pool_ok any_inv evolves c.
Proof.
  intros Hr. eapply (pool_reach_ok spawnable any_inv evolves spawn_safe); [exact Hr|].
  split; [apply empty_world_full|constructor].
Qed.

(** C1. In every state that any interleaving of API calls, incoming packets,
    update ticks and cancellations can reach from [bind], the node is well
    formed: every session's fields have their types and its output adapter
    sends to its own peer; every entry of the session map is a live session
    filed under the canonical address of its peer; and no session is filed
    twice. *)
Theorem interleaving_invariant ts w :
  node_reach (ts, w) →
  (∀ s σ, w.(heap) !! s = Some σ → session_ok σ) ∧
  (∀ can s, w.(sessions) !! can = Some s →
    ∃ σ, w.(heap) !! s = Some σ ∧ canonicalize σ.(peer_addr) = can) ∧
  (∀ can1 can2 s, w.(sessions) !! can1 = Some s → w.(sessions) !! can2 = Some s → can1 = can2).
Proof.
  intros Hr. destruct (node_reach_ok _ Hr) as [[[HI1 HI2] _] _]. cbn in *. split_and!.
  - intros s σ H. by apply (HI1 s).
  - done.
  - intros can1 can2 s H1 H2. destruct (HI2 _ _ H1) as (σ & ? & <-).
    destruct (HI2 _ _ H2) as (σ' & ? & <-). congruence.
Qed.

(** C2. Between any two states of a node, whatever runs in between: no
    session is freed, changes its peer or its incarnation, reopens once
    closed, or leaves [Established]; its conversation id changes at most once,
    with the transition to [Established]; the event log and the socket log
    only grow; a shutdown is final; and the random numbers are drawn in sequence. *)
Theorem interleaving_evolution ts w ts' w' :
  node_reach (ts, w) → pool_reach spawnable (ts, w) (ts', w') → evolves w w'.
Proof.
  intros Hr Hc.
  exact (proj2 (pool_reach_ok spawnable any_inv evolves spawn_safe _ _ Hc (node_reach_ok _ Hr))).
Qed.

(** A subscriber sees every event from the point of its subscription on, in
    order, whatever runs in between. *)
Lemma subscriber_sees ts w ts' w' :
  node_reach (ts, w) → pool_reach spawnable (ts, w) (ts', w') →
  w'.(World.events) = w.(World.events) ++ drop (run KcpPeer.events w).1 w'.(World.events).
Proof.
  intros Hr Hc.
  destruct (proj2 (pool_reach_ok spawnable any_inv evolves spawn_safe _ _ Hc (node_reach_ok _ Hr)))
    as (_ & _ & [es He] & _). cbn [snd] in He. cbn. by rewrite He, drop_app_length.
Qed.

(** A task that runs alone is one of the interleavings. *)
Lemma node_reach_run w t :
  node_reach ([], w) → Task_ok t →
  node_reach ([Ret tt], (run (task_prog t) w).2).
Proof.
  intros Hr Ht. unfold node_reach, pool_reach in *. etransitivity; [exact Hr|].
  eapply rtc_l; [by apply pool_spawn; exists t|].
  apply (pool_run spawnable 0). done.
Qed.
End Tasks.

(** ** The theorems on a concrete run

    A node sends to [addr_b], and then receives the acknowledging SYN_ACK. *)

Definition toy_node : KcpPeer := MkKcpPeer 11 default addr_a.

Definition toy_pool (ts : list (prog (@World toy_lib) unit)) (w : @World toy_lib) : Prop :=
  node_reach (os := toy_os addr_a) toy_node (ts, w).

Definition toy_sent : @World toy_lib :=
  (run (task_prog (os := toy_os addr_a) toy_node (TSend addr_b [104; 105])) KcpPeer.empty_world).2.

Lemma toy_sent_reach : toy_pool [Ret tt] toy_sent.
Proof.
  exact (node_reach_run (os := toy_os addr_a) toy_node KcpPeer.empty_world
    (TSend addr_b [104; 105]) (rtc_refl _ _) I).
Qed.

Lemma interleaving_invariant_witness :
  ∃ σ, toy_sent.(heap) !! 0%nat = Some σ ∧ canonicalize σ.(peer_addr) = canonicalize addr_b.
Proof.
  apply (interleaving_invariant (os := toy_os addr_a) (OL := toy_os_laws addr_a) toy_node
    [Ret tt] toy_sent toy_sent_reach).
  reflexivity.
Defined.

Lemma interleaving_evolution_witness : evolves (KcpPeer.empty_world (K := toy_lib)) toy_sent.
Proof.
  apply (interleaving_evolution (os := toy_os addr_a) (OL := toy_os_laws addr_a) toy_node
    [] KcpPeer.empty_world [Ret tt] toy_sent); [apply rtc_refl|exact toy_sent_reach].
Defined.

(** The worlds of the witnesses are well formed. *)
Lemma toy_world_inv σ : session_ok (K := toy_lib) σ → node_inv (K := toy_lib) (toy_world σ).
Proof.
  intros Hok. split; cbn.
  - intros s σ' [<- <-]%lookup_singleton_Some. split; [lia|done].
  - intros can s [<- <-]%lookup_singleton_Some. exists σ. by rewrite lookup_singleton_eq.
Qed.

Lemma toy_connected_ok : session_ok (K := toy_lib) toy_connected.
Proof. vm_compute. split_and!; done. Qed.
