(* ===== verification/Isolation.v ===== *)
(** * Peers do not disturb each other

    What a node does for one peer - a call of the API about it, a packet from
    it, the scan or the removal of its session - leaves every other peer's
    session, place in the map, messages, events and datagrams as they are. *)

From S2P Require Import Prelude Prog Packet Kcp Addr Errors Config World Session Transport.
From S2P Require Import Incoming Update Invariant Toy Tasks.
Open Scope prog_scope.

Create HintDb iso discriminated.

Definition event_peer (e : Event) : SocketAddr :=
  match e with Connected a | Disconnected a | PeerRestarted a => a end.

Section Isolation.
Context {K : KcpLib} {os : Os} (can : CanonicalAddr).

(** A session of the peer. *)
Definition own (s : nat) (w : World) : Prop :=
  ∃ σ, w.(heap) !! s = Some σ ∧ canonicalize σ.(peer_addr) = can ∧
    canonicalize σ.(inner).(output).(out_peer) = can.

(** Nothing but what is the peer's changes. *)
Definition touches (w w' : World) : Prop :=
  (∀ s σ, w.(heap) !! s = Some σ → canonicalize σ.(peer_addr) ≠ can → w'.(heap) !! s = Some σ) ∧
  (∀ s, own s w → own s w') ∧
  (∀ c, c ≠ can → w'.(sessions) !! c = w.(sessions) !! c) ∧
  (∃ ds, w'.(sent) = w.(sent) ++ ds ∧ Forall (λ d, canonicalize d.(dg_to) = can) ds) ∧
  (∃ es, w'.(events) = w.(events) ++ es ∧ Forall (λ e, canonicalize (event_peer e) = can) es) ∧
  (∃ ms, w'.(pending) = w.(pending) ++ ms ∧ Forall (λ m, canonicalize m.(dm_peer) = can) ms) ∧
  w'.(cancelled) = w.(cancelled).

(** New sessions get a new index, and the peer's entry is the peer's. *)
Definition filed (w : World) : Prop :=
  (∀ s, is_Some (w.(heap) !! s) → (s < w.(next))%nat) ∧
  (∀ s, w.(sessions) !! can = Some s → own s w).

Lemma appends_refl {A} (P : A → Prop) (l : list A) : ∃ l', l = l ++ l' ∧ Forall P l'.
Proof. exists []. by rewrite app_nil_r. Qed.

Lemma appends_trans {A} (P : A → Prop) (l1 l2 l3 : list A) :
  (∃ l, l2 = l1 ++ l ∧ Forall P l) → (∃ l, l3 = l2 ++ l ∧ Forall P l) →
  ∃ l, l3 = l1 ++ l ∧ Forall P l.
Proof.
  intros (l & -> & H) (l' & -> & H'). exists (l ++ l'). rewrite <- app_assoc.
  split; [done|by apply Forall_app].
Qed.

#[export] Instance touches_preorder : PreOrder touches.
Proof.
  split.
  - intros w. split_and!; [done..|apply appends_refl|apply appends_refl|apply appends_refl|done].
  - intros w1 w2 w3 (Hh & Ho & Hs & Hd & He & Hm & Hc) (Hh' & Ho' & Hs' & Hd' & He' & Hm' & Hc').
    split_and!; [auto|auto| |by eapply appends_trans|by eapply appends_trans|
      by eapply appends_trans|congruence].
    intros c Hc0. by rewrite Hs', Hs.
Qed.

(** A program that touches only what is the peer's. *)
Definition within {A} (p : prog World A) (Q : A → World → Prop) (w : World) : Prop :=
  filed w → hoare filed touches p Q w.

Lemma within_bind {A B} (p : prog World A) (k : A → prog World B) Q R w :
  within p Q w → (∀ a w', touches w w' → Q a w' → within (k a) R w') → within (bind p k) R w.
Proof.
  intros Hp Hk Hw. eapply hoare_bind; [apply _|by apply Hp|]. intros a w' Hw' HG HQ. by apply Hk.
Qed.

Lemma within_ret {A} (a : A) (Q : A → World → Prop) w : Q a w → within (Ret a) Q w.
Proof. intros HQ Hw. split_and!; [done|reflexivity|done]. Qed.

Abbreviation ok p w := (within p (λ _ _, True) w).

Lemma within_ok {A} (p : prog World A) Q w : within p Q w → ok p w.
Proof. intros H Hw. destruct (H Hw) as (? & ? & ?). by split_and!. Qed.

Lemma within_bind_result {A B E} (p : prog World (Result A E)) (k : A → prog World (Result B E)) w :
  ok p w → (∀ a w', touches w w' → ok (k a) w') → ok (bind_result p k) w.
Proof.
  intros Hp Hk. eapply within_bind; [exact Hp|]. intros [a|e] w' HG _; [by apply Hk|by apply within_ret].
Qed.

Lemma within_atomic {A} (p : prog World A) Q w : within p Q w → within (atomic p) Q w.
Proof. intros Hp Hw. rewrite (atomic_eq p). by apply Hp. Qed.

Lemma touches_own s w w' : touches w w' → own s w → own s w'.
Proof. intros (_ & H & _). apply H. Qed.

(** ** Actions *)

Lemma within_get {A} (f : World → A) w : within (get f) (λ a w', a = f w' ∧ w' = w) w.
Proof. intros Hw. by split_and!. Qed.

Lemma within_load {A} s (f : Session → A) w :
  own s w →
  within (load s f) (λ a w', w' = w ∧ ∃ σ, a = f σ ∧ canonicalize σ.(peer_addr) = can ∧
    canonicalize σ.(inner).(output).(out_peer) = can) w.
Proof.
  intros (σ & Hσ & Hp & Ho) Hw. split_and!; [done..|]. exists σ. split; [|done].
  unfold load, get. cbn. by rewrite (lookup_total_correct _ _ _ Hσ).
Qed.

(** An update of one of the peer's sessions that keeps its addresses. *)
Definition keeps_peer (f : Session → Session) : Prop :=
  ∀ σ, (f σ).(peer_addr) = σ.(peer_addr) ∧
    (canonicalize σ.(inner).(output).(out_peer) = can →
     canonicalize (f σ).(inner).(output).(out_peer) = can).

Lemma touch_heap s σ' w :
  own s w → canonicalize σ'.(peer_addr) = can → canonicalize σ'.(inner).(output).(out_peer) = can →
  let w' := upd_heap (<[s := σ']>) w in filed w → filed w' ∧ touches w w'.
Proof.
  intros (σ & Hσ & Hp & Ho) Hp' Ho' w' [Hn Hm].
  assert (Hown : ∀ s', own s' w → own s' w').
  { intros s' (σ0 & H0 & H1 & H2). destruct (decide (s = s')) as [<-|Hne].
    - exists σ'. split; [apply lookup_insert_eq|done].
    - exists σ0. split; [by unfold w'; cbn; rewrite lookup_insert_ne|done]. }
  split; [split|split_and!; try apply appends_refl; try done].
  - intros s' [σ0 H0]. unfold w' in H0. cbn in *. apply Hn. rewrite lookup_insert in H0.
    case_decide; [subst; by eexists|by eexists].
  - intros s' Hs'. by apply Hown, Hm.
  - intros s' σ0 H0 Hne. unfold w'. cbn. rewrite lookup_insert_ne; [done|].
    intros <-. congruence.
Qed.

Lemma within_store s f w : own s w → keeps_peer f → ok (store s f) w.
Proof.
  intros Hown Hf Hw. pose proof Hown as (σ & Hσ & Hp & Ho).
  destruct (touch_heap s (f σ) w Hown) as [H1 H2]; [|by apply (proj2 (Hf σ))|done|].
  { by rewrite (proj1 (Hf σ)). }
  assert (Hrun : run (store s f) w = (tt, upd_heap (<[s := f σ]>) w)).
  { unfold store. rewrite run_modify. unfold upd_heap. f_equal. f_equal. by apply alter_Some. }
  unfold hoare. by rewrite Hrun.
Qed.

(** Actions that append to a log, or turn a counter. *)
Lemma within_plain {A} (f : World → A * World) w :
  let w' := (f w).2 in
  w'.(heap) = w.(heap) → w'.(next) = w.(next) → w'.(sessions) = w.(sessions) →
  (∃ ds, w'.(sent) = w.(sent) ++ ds ∧ Forall (λ d, canonicalize d.(dg_to) = can) ds) →
  (∃ es, w'.(events) = w.(events) ++ es ∧ Forall (λ e, canonicalize (event_peer e) = can) es) →
  (∃ ms, w'.(pending) = w.(pending) ++ ms ∧ Forall (λ m, canonicalize m.(dm_peer) = can) ms) →
  w'.(cancelled) = w.(cancelled) → ok (act f) w.
Proof.
  intros w' Hh Hn Hs Hd He Hm Hc [Hw1 Hw2]. unfold hoare. rewrite run_act. fold w'.
  assert (Hown : ∀ s, own s w ↔ own s w') by (intros s; unfold own; by rewrite Hh).
  split; [|split; [|done]].
  - split; [rewrite Hh, Hn; exact Hw1|]. intros s. rewrite Hs. intros. by apply Hown, Hw2.
  - split_and!; [by rewrite Hh|intros s; apply Hown|by rewrite Hs|done..].
Qed.

Lemma appends_one {A} (P : A → Prop) (l : list A) x : P x → ∃ l', l ++ [x] = l ++ l' ∧ Forall P l'.
Proof. intros Hx. exists [x]. split; [done|by constructor]. Qed.

Lemma within_epoch_ms w : ok epoch_ms w.
Proof. apply within_plain; cbn; done || apply appends_refl. Qed.

Lemma within_current_ms w : ok current_ms w.
Proof. apply within_plain; cbn; done || apply appends_refl. Qed.

Lemma within_random w : ok random_conv w.
Proof. apply within_plain; cbn; done || apply appends_refl. Qed.

Lemma within_send buf to w : canonicalize to = can → ok (send_to buf to) w.
Proof. intros Hto. apply within_plain; cbn; try (done || apply appends_refl). by apply appends_one. Qed.

Lemma within_event e w : canonicalize (event_peer e) = can → ok (event_send e) w.
Proof. intros He. apply within_plain; cbn; try (done || apply appends_refl). by apply appends_one. Qed.

Lemma within_push_pending peer msgs w :
  canonicalize peer = can →
  ok (modify (λ w, set_pending (w.(pending) ++ (MkDataMessage peer <$> msgs)) w)) w.
Proof.
  intros Hp. apply within_plain; cbn; try (done || apply appends_refl). eexists. split; [done|].
  apply Forall_forall. by intros m (d & -> & _)%list_elem_of_fmap.
Qed.

Lemma within_notify b w : ok (modify (set_notified b)) w.
Proof. apply within_plain; cbn; done || apply appends_refl. Qed.

Lemma within_arc_new σ w :
  canonicalize σ.(peer_addr) = can → canonicalize σ.(inner).(output).(out_peer) = can →
  within (arc_new σ) (λ s w', own s w') w.
Proof.
  intros Hp Ho [Hn Hm]. unfold hoare, arc_new. rewrite run_act. cbn [fst snd].
  assert (Hnew : ∀ s σ', w.(heap) !! s = Some σ' → s ≠ w.(next)).
  { intros s σ' Hs ->. specialize (Hn w.(next) (mk_is_Some _ _ Hs)). lia. }
  assert (Hown : ∀ s, own s w → own s (alloc_session σ w)).
  { intros s (σ0 & H0 & ?). exists σ0. cbn. split; [|done].
    rewrite lookup_insert_ne; [done|]. apply not_eq_sym. by eapply Hnew. }
  split_and!; [split|split_and!; try apply appends_refl; try done|].
  - intros s [σ0 H0]. cbn in *. rewrite lookup_insert in H0. case_decide; [lia|].
    specialize (Hn s (mk_is_Some _ _ H0)). lia.
  - intros s Hs. by apply Hown, Hm.
  - intros s σ0 H0 _. cbn. rewrite lookup_insert_ne; [done|]. apply not_eq_sym. by eapply Hnew.
  - exists σ. split; [apply lookup_insert_eq|done].
Qed.

Lemma within_map_get w : within (map_get can) (λ o w', ∀ s, o = Some s → own s w') w.
Proof. intros Hw. split_and!; [done|reflexivity|]. cbn. apply Hw. Qed.

(** The map may be changed at the peer's address. *)
Lemma touch_sessions f w :
  (∀ c m, c ≠ can → (f m : gmap CanonicalAddr nat) !! c = m !! c) →
  (∀ s, f w.(sessions) !! can = Some s → own s w) →
  let w' := upd_sessions f w in filed w → filed w' ∧ touches w w'.
Proof.
  intros Hf Hs w' [Hn Hm]. split; [by split|]. split_and!; try apply appends_refl; try done.
  intros c Hc. by apply Hf.
Qed.

Lemma within_map_insert s w : own s w → ok (map_insert can s) w.
Proof.
  intros Hown Hw. destruct (touch_sessions (<[can := s]>) w) as [H1 H2]; [| |done|by split_and!].
  - intros c m Hc. by apply lookup_insert_ne, not_eq_sym.
  - intros s'. rewrite lookup_insert_eq. by intros [= <-].
Qed.

Lemma within_map_remove w : within (map_remove can) (λ o w', ∀ s, o = Some s → own s w') w.
Proof.
  intros Hw. destruct (touch_sessions (delete can) w) as [H1 H2]; [| |done|].
  - intros c m Hc. by apply lookup_delete_ne, not_eq_sym.
  - intros s'. by rewrite lookup_delete_eq.
  - split_and!; [done|done|]. cbn. intros s Hs. apply (touches_own s w _ H2). by apply Hw.
Qed.

#[local] Hint Resolve within_load within_store within_epoch_ms within_current_ms within_random
  within_send within_event within_push_pending within_notify within_arc_new within_map_get
  within_map_insert within_map_remove : iso.
#[local] Hint Extern 1 (keeps_peer _) => (intros ?; cbn; by split) : iso.
#[local] Hint Extern 1 (canonicalize _ = can) => (cbn; done) : iso.

(** What is the peer's stays so. *)
Ltac own_fwd :=
  repeat match goal with
  | H : _ ∧ _ |- _ => destruct H
  | H : ∃ _, _ |- _ => destruct H
  | T : touches ?w ?w', O : own ?s ?w |- _ =>
      lazymatch goal with
      | _ : own s w' |- _ => fail
      | _ => pose proof (touches_own s w w' T O)
      end
  end.

(** Split the program into its actions. *)
Ltac iso_tac :=
  repeat lazymatch goal with
  | |- within (Ret _) _ _ => apply within_ret; solve [done | own_fwd; eauto with iso]
  | |- within (bind _ _) _ _ =>
      eapply within_bind; [solve [eauto with iso]|intros ? ? ? ?; cbv beta in *; own_fwd; subst]
  | |- within (bind_result _ _) _ _ =>
      eapply within_bind_result; [solve [eauto with iso]|intros ? ? ?; own_fwd]
  | |- within (atomic _) _ _ => apply within_atomic
  | |- within (match _ with _ => _ end) _ _ => case_match; simplify_eq
  | |- _ => solve [eauto with iso | eapply within_ok; eauto with iso]
  end.

Lemma within_then_ret {A B} (p : prog World A) (b : B) w : ok p w → ok (p ;; Ret b) w.
Proof. intros Hp. eapply within_bind; [exact Hp|]. intros. by apply within_ret. Qed.

Lemma within_for_each {A} (l : list A) (f : A → prog World unit) w :
  (∀ x w', touches w w' → ok (f x) w') → ok (for_each l f) w.
Proof.
  revert w. induction l as [|x l IH]; intros w Hf; cbn [for_each]; [by apply within_ret|].
  eapply within_bind; [apply Hf; reflexivity|]. intros _ w1 HG _. apply IH.
  intros y w2 HG2. apply Hf. by etransitivity.
Qed.

Lemma within_repeat n p w :
  (∀ w', touches w w' → ok p w') → ok (repeat_prog n p) w.
Proof.
  revert w. induction n as [|n IH]; intros w Hp; cbn [repeat_prog]; [by apply within_ret|].
  eapply within_bind; [apply Hp; reflexivity|]. intros _ w1 HG _. apply IH.
  intros w2 HG2. apply Hp. by etransitivity.
Qed.

(** ** Sessions *)

Lemma within_run_kio {A} (p : kio A) o w :
  canonicalize o.(out_peer) = can →
  within (DirectOutput.run_kio o p) (λ x _, canonicalize x.2.(out_peer) = can) w.
Proof.
  revert o w. induction p as [a|frame k IH]; intros o w Ho; cbn [DirectOutput.run_kio].
  - by apply within_ret.
  - eapply within_bind with (Q := λ x _, canonicalize x.1.(out_peer) = can).
    + unfold DirectOutput.write, try_send_to.
      eapply within_bind; [by apply within_send|]. intros r w1 _ _. by apply within_ret.
    + intros x w1 _ Hx. by apply IH.
Qed.

Lemma within_kcp_call {A} s (op : kcp_t → kio (kcp_t * Result A kcp_error)) w :
  own s w → ok (Session.kcp_call s op) w.
Proof.
  intros Hs. unfold Session.kcp_call.
  eapply within_bind; [by apply within_load|]. intros k w1 HG1 [-> _].
  eapply within_bind; [by apply within_load|]. intros o w2 HG2 [-> (σ & -> & _ & Ho)].
  eapply within_bind; [by apply within_run_kio|]. intros x w3 HG3 Hx. own_fwd. iso_tac.
Qed.

#[local] Hint Resolve within_kcp_call : iso.

Lemma within_send_syn s w : own s w → ok (Session.send_syn s) w.
Proof. intros Hs. unfold Session.send_syn. iso_tac. Qed.

Lemma within_new_outbound conv peer inc config w :
  canonicalize peer = can → within (Session.new_outbound conv peer inc config) (λ s w', own s w') w.
Proof. intros Hp. unfold Session.new_outbound. iso_tac. Qed.

Lemma within_new_inbound conv peer inc config w :
  canonicalize peer = can → within (Session.new_inbound conv peer inc config) (λ s w', own s w') w.
Proof. intros Hp. unfold Session.new_inbound. iso_tac. Qed.

Lemma within_mark_closed s w : own s w → ok (Session.mark_closed s) w.
Proof. intros Hs. unfold Session.mark_closed. iso_tac. Qed.

Lemma within_update_flush s w : own s w → ok (Session.update_flush s) w.
Proof. intros Hs. unfold Session.update_flush. iso_tac. Qed.

#[local] Hint Resolve within_send_syn within_new_outbound within_new_inbound within_mark_closed
  within_update_flush : iso.

Lemma within_send_data s data w : own s w → ok (Session.send_data s data) w.
Proof. intros Hs. unfold Session.send_data. iso_tac. Qed.

Lemma within_update s now w : own s w → ok (Session.update s now) w.
Proof. intros Hs. unfold Session.update. iso_tac. Qed.

Lemma within_input s data w : own s w → ok (Session.input s data) w.
Proof. intros Hs. unfold Session.input. iso_tac. Qed.

Lemma within_recv_loop fuel s out w : own s w → ok (Session.recv_loop fuel s out) w.
Proof.
  revert out w. induction fuel as [|fuel IH]; intros out w Hs; cbn [Session.recv_loop];
    (eapply within_bind; [by apply within_load|]); intros k w1 HG1 _; own_fwd;
    (destruct (kcp_peeksize k); [|by apply within_ret]); [by apply within_ret|].
  eapply within_bind; [by apply within_load|]. intros o w2 HG2 [-> (σ & -> & _ & Ho)].
  eapply within_bind; [by apply within_run_kio|]. intros x w3 HG3 Hx. own_fwd.
  eapply within_bind; [apply within_store; [done|intros ?; cbn; by split]|].
  intros _ w4 HG4 _. own_fwd. destruct (x.1.2); [by apply IH|by apply within_ret].
Qed.

#[local] Hint Resolve within_send_data within_update within_input within_recv_loop : iso.

Lemma within_try_recv_all s w : own s w → ok (Session.try_recv_all s) w.
Proof. intros Hs. unfold Session.try_recv_all. iso_tac. Qed.

Lemma within_retry s config now w : own s w → ok (Session.maybe_retry_syn s config now) w.
Proof. intros Hs. unfold Session.maybe_retry_syn, try_send_to. iso_tac. Qed.

Lemma within_reset conv to w : canonicalize to = can → ok (KcpPeer.send_reset conv to) w.
Proof. intros Hto. unfold KcpPeer.send_reset, try_send_to. apply within_repeat. intros. iso_tac. Qed.

#[local] Hint Resolve within_try_recv_all within_retry within_reset : iso.

(** ** The node *)

Lemma within_insert_if_absent s w :
  own s w → within (KcpPeer.insert_if_absent can s) (λ o w', ∀ s', o = Some s' → own s' w') w.
Proof.
  intros Hs. unfold KcpPeer.insert_if_absent. apply within_atomic.
  eapply within_bind; [by apply within_map_get|]. intros [s0|] w1 HG1 Ho; own_fwd.
  - apply within_ret. intros s' [= <-]. by apply Ho.
  - eapply within_bind; [by apply within_map_insert|]. intros. by apply within_ret.
Qed.

#[local] Hint Resolve within_insert_if_absent : iso.

Lemma within_initiate self peer w :
  canonicalize peer = can → within (KcpPeer.initiate_session self peer) (λ s w', own s w') w.
Proof.
  intros Hp. unfold KcpPeer.initiate_session. rewrite Hp. cbv zeta.
  eapply within_bind; [by apply within_map_get|]. intros [s0|] w1 HG1 Ho; cbv beta in *;
    [apply within_ret; by apply Ho|].
  eapply within_bind; [apply within_random|]. intros conv w2 HG2 _.
  eapply within_bind; [by apply within_new_outbound|]. intros s w3 HG3 Hs.
  eapply within_bind; [by apply within_insert_if_absent|]. intros [s0|] w4 HG4 Ho4; cbv beta in *;
    [apply within_ret; by apply Ho4|].
  own_fwd. eapply within_bind; [by apply within_send_syn|]. intros _ w5 HG5 _. own_fwd.
  by apply within_ret.
Qed.

Lemma within_send_peer self peer data w :
  canonicalize peer = can → ok (KcpPeer.send self peer data) w.
Proof.
  intros Hp. unfold KcpPeer.send. rewrite Hp. cbv zeta.
  eapply within_bind; [by apply within_map_get|]. intros [s|] w1 HG1 Ho; cbv beta in *.
  - apply within_send_data. by apply Ho.
  - eapply within_bind; [by apply within_initiate|]. intros s w2 HG2 Hs. by apply within_send_data.
Qed.

Lemma within_disconnect peer w : canonicalize peer = can → ok (KcpPeer.disconnect peer) w.
Proof.
  intros Hp. unfold KcpPeer.disconnect. rewrite Hp. cbv zeta. apply within_atomic.
  eapply within_bind; [by apply within_map_remove|]. intros [s|] w1 HG1 Ho; cbv beta in *;
    [specialize (Ho s eq_refl)|]; iso_tac.
Qed.

Lemma within_stats peer w : canonicalize peer = can → ok (KcpPeer.stats peer) w.
Proof.
  intros Hp. unfold KcpPeer.stats. rewrite Hp.
  eapply within_bind; [by apply within_map_get|]. intros [s|] w1 HG1 Ho; cbv beta in *;
    [specialize (Ho s eq_refl)|]; iso_tac.
Qed.

(** ** Packets *)

Lemma within_push s msgs w : own s w → ok (push_messages s msgs) w.
Proof. intros Hs. unfold push_messages. iso_tac. Qed.

#[local] Hint Resolve within_push : iso.

Lemma within_kcp_data payload from w :
  canonicalize from = can → ok (handle_kcp_data payload from) w.
Proof.
  intros Hp. unfold handle_kcp_data. rewrite Hp.
  eapply within_bind; [by apply within_map_get|]. intros [s|] w1 HG1 Ho; cbv beta in *;
    [specialize (Ho s eq_refl)|]; iso_tac.
Qed.

Lemma within_flush_queued s w : own s w → ok (flush_queued s) w.
Proof. intros Hs. unfold flush_queued. iso_tac. Qed.

#[local] Hint Resolve within_flush_queued : iso.

Lemma within_establish s w : own s w → ok (establish s) w.
Proof. intros Hs. unfold establish. iso_tac. Qed.

#[local] Hint Resolve within_establish : iso.

Lemma within_syn_check conv from me w :
  canonicalize from = can →
  within (syn_check conv from me)
    (λ r _, ∀ p, r.(send_ack_to) = Some p → canonicalize p = can) w.
Proof.
  intros Hp. unfold syn_check. rewrite Hp. apply within_atomic.
  eapply within_bind; [by apply within_map_get|]. intros [s|] w1 HG1 Ho; cbv beta in *;
    [specialize (Ho s eq_refl)|by apply within_ret].
  eapply within_bind; [by apply within_load|]. intros i w2 HG2 (-> & σ & -> & _). cbv zeta.
  assert (Hret : ∀ a c w', within (Ret (MkSynResult a (Some from) c))
    (λ r _, ∀ p, r.(send_ack_to) = Some p → canonicalize p = can) w').
  { intros a c w'. apply within_ret. intros p [= <-]. done. }
  assert (Hret' : ∀ a c w', within (Ret (MkSynResult a None c))
    (λ r _, ∀ p, r.(send_ack_to) = Some p → canonicalize p = can) w').
  { intros a c w'. by apply within_ret. }
  repeat lazymatch goal with
  | |- within (Ret _) _ _ => apply Hret || apply Hret'
  | |- within (bind _ _) _ _ =>
      eapply within_bind; [solve [eauto with iso]|intros ? ? ? ?; cbv beta in *; own_fwd]
  | |- within (match _ with _ => _ end) _ _ => case_match
  end.
Qed.

Lemma within_insert_inbound from s w :
  canonicalize from = can → own s w → ok (insert_inbound from s) w.
Proof. intros Hp Hs. unfold insert_inbound. rewrite Hp. iso_tac. Qed.

Lemma within_invalid {A} msg w : ok (invalid_data (A := A) msg) w.
Proof. by apply within_ret. Qed.

Lemma within_syn payload from inc config w :
  canonicalize from = can → ok (handle_syn payload from inc config) w.
Proof.
  intros Hp. unfold handle_syn. case_decide; [apply within_invalid|]. cbv zeta.
  destruct os_local_addr as [me|e]; [|by apply within_ret].
  eapply within_bind; [by apply within_syn_check|]. intros r w1 HG1 Hr. cbv beta in *.
  eapply within_bind with (Q := λ _ _, True).
  { destruct (send_ack_to r) as [p|]; [|by apply within_ret]. specialize (Hr p eq_refl). iso_tac. }
  intros _ w2 HG2 _. destruct (action r); [|by apply within_ret..].
  eapply within_bind; [by apply within_new_inbound|]. intros s w3 HG3 Hs. cbv beta in *.
  eapply within_bind; [by apply within_insert_inbound|]. intros. by apply within_ret.
Qed.

Lemma within_syn_ack payload from w :
  canonicalize from = can → ok (handle_syn_ack payload from) w.
Proof.
  intros Hp. unfold handle_syn_ack. case_decide; [apply within_invalid|]. cbv zeta.
  rewrite Hp. apply within_atomic.
  eapply within_bind; [by apply within_map_get|]. intros [s|] w1 HG1 Ho; cbv beta in *;
    [specialize (Ho s eq_refl)|]; iso_tac.
Qed.

Lemma within_reset_packet payload from w :
  canonicalize from = can → ok (handle_reset payload from) w.
Proof.
  intros Hp. unfold handle_reset. case_decide; [apply within_invalid|]. cbv zeta. rewrite Hp.
  eapply within_bind; [by apply within_map_get|]. intros [s|] w1 HG1 Ho; cbv beta in *;
    [specialize (Ho s eq_refl)|]; iso_tac.
Qed.

Lemma within_incoming data from inc config w :
  canonicalize from = can → ok (handle_incoming data from inc config) w.
Proof.
  intros Hp. unfold handle_incoming. destruct (split_packet data) as [[[] payload]|];
    auto using within_syn, within_syn_ack, within_kcp_data, within_reset_packet, within_invalid.
Qed.

(** ** The update task *)

Lemma within_scan_session config now_ms now_epoch s w :
  own s w → ok (scan_session config now_ms now_epoch s) w.
Proof. intros Hs. unfold scan_session. iso_tac. Qed.

Lemma within_prune w : ok (prune can) w.
Proof.
  unfold prune. apply within_atomic.
  eapply within_bind; [by apply within_map_remove|]. intros [s|] w1 HG1 Ho; cbv beta in *;
    [specialize (Ho s eq_refl)|]; iso_tac.
Qed.
End Isolation.

(** ** What another peer sees of it: nothing *)

Section Away.
Context {K : KcpLib} {os : Os} {OL : OsLaws os} (self : KcpPeer).

(** Everything that is [can]'s is as before. *)
Definition away (can : CanonicalAddr) (w w' : World) : Prop :=
  w'.(sessions) !! can = w.(sessions) !! can ∧
  (∀ s σ, w.(heap) !! s = Some σ → canonicalize σ.(peer_addr) = can → w'.(heap) !! s = Some σ) ∧
  filter (λ m, canonicalize m.(dm_peer) = can) w'.(pending) =
    filter (λ m, canonicalize m.(dm_peer) = can) w.(pending) ∧
  (∃ ds, w'.(sent) = w.(sent) ++ ds ∧ Forall (λ d, canonicalize d.(dg_to) ≠ can) ds) ∧
  filter (λ e, canonicalize (event_peer e) = can) w'.(events) =
    filter (λ e, canonicalize (event_peer e) = can) w.(events) ∧
  w'.(cancelled) = w.(cancelled).

#[export] Instance away_preorder can : PreOrder (away can).
Proof.
  split.
  - intros w. split_and!; [done..|apply appends_refl|done|done].
  - intros w1 w2 w3 (Hs & Hh & Hp & Hd & He & Hc) (Hs' & Hh' & Hp' & Hd' & He' & Hc').
    split_and!; [congruence|auto|congruence|by eapply appends_trans|congruence|congruence].
Qed.

Lemma filter_appended {A} (f : A → CanonicalAddr) c c' (l l' : list A) :
  c ≠ c' → (∃ k, l' = l ++ k ∧ Forall (λ x, f x = c) k) →
  filter (λ x, f x = c') l' = filter (λ x, f x = c') l.
Proof.
  intros Hne (k & -> & Hk). rewrite filter_app.
  assert (filter (λ x, f x = c') k = []) as ->; [|apply app_nil_r].
  induction Hk as [|x k Hx Hk IH]; [done|]. rewrite filter_cons_False by congruence. done.
Qed.

Lemma touches_away c can w w' : c ≠ can → touches c w w' → away can w w'.
Proof.
  intros Hne (Hh & _ & Hs & Hd & He & Hm & Hc).
  split_and!; [by apply Hs, not_eq_sym| |by eapply filter_appended| |by eapply filter_appended|done].
  - intros s σ Hσ Hp. apply Hh; [done|]. congruence.
  - destruct Hd as (ds & -> & Hds). exists ds. split; [done|].
    eapply Forall_impl; [exact Hds|]. cbn. congruence.
Qed.

(** The same for every peer. *)
Definition well_filed (w : World) : Prop := ∀ c, filed c w.

Lemma node_filed w : node_inv w → well_filed w.
Proof.
  intros [Hh Hm] c. split.
  - intros s [σ Hσ]. by destruct (Hh s σ Hσ).
  - intros s Hs. destruct (Hm c s Hs) as (σ & Hσ & Hp). exists σ. split_and!; [done..|].
    destruct (Hh s σ Hσ) as (_ & _ & _ & _ & _ & ->). done.
Qed.

(** The sessions of every peer stay theirs. *)
Lemma touches_own_any c c' s w w' : touches c w w' → own c' s w → own c' s w'.
Proof.
  intros HG Hown. destruct (decide (c' = c)) as [->|Hne]; [by eapply touches_own|].
  destruct Hown as (σ & Hσ & Hp & Ho). exists σ. split; [|done].
  apply HG; [done|]. by rewrite Hp.
Qed.

Lemma within_run {A} c (p : prog World A) Q w :
  well_filed w → within c p Q w →
  well_filed (run p w).2 ∧ touches c w (run p w).2 ∧ Q (run p w).1 (run p w).2.
Proof.
  intros Hw Hp. destruct (Hp (Hw c)) as (Hw' & HG & HQ). split_and!; [|done..].
  intros c'. split; [apply Hw'|]. intros s Hs. destruct (decide (c' = c)) as [->|Hne].
  - by apply Hw'.
  - eapply touches_own_any; [done|]. destruct HG as (_ & _ & Hm & _). apply Hw. by rewrite <- Hm.
Qed.

(** A program within one peer is away from every other. *)
Lemma within_away {A} c can (p : prog World A) w :
  well_filed w → c ≠ can → within c p (λ _ _, True) w → away can w (run p w).2.
Proof.
  intros Hw Hne Hp. destruct (within_run c p _ w Hw Hp) as (_ & HG & _). by eapply touches_away.
Qed.

(** The peer a task is about. *)
Definition task_peer (t : Task) : option SocketAddr :=
  match t with
  | TSend p _ | TStats p | TDisconnect p | TIncoming _ p => Some p
  | _ => None
  end.

Lemma task_within t p w :
  task_peer t = Some p → within (canonicalize p) (task_prog self t) (λ _ _, True) w.
Proof.
  intros Ht.
  destruct t; cbn [task_peer task_prog] in *; try done; injection Ht as ->;
    auto using within_then_ret, within_send_peer, within_stats, within_disconnect, within_incoming.
Qed.

(** C9. Peers do not disturb each other: a call about one peer ([send],
    [disconnect], [stats]) and a packet from it, whatever it says, leave of
    every other peer its entry in the session map, all its sessions with their
    KCP state, its messages in the queue, its events and what was sent to it,
    and the shutdown token. *)
Theorem peers_isolated t p can w :
  node_inv w → task_peer t = Some p → canonicalize p ≠ can →
  away can w (run (task_prog self t) w).2.
Proof.
  intros Hw Ht Hne. apply (within_away (canonicalize p)); [by apply node_filed|done|].
  by apply task_within.
Qed.
End Away.

(** On a concrete node: a RESET from [addr_a] does not touch the session with
    [addr_b], though it carries that session's id. *)
Lemma peers_isolated_witness :
  away (K := toy_lib) (canonicalize addr_b) (toy_world toy_connected)
    (run (task_prog (K := toy_lib) (os := toy_os addr_a) (MkKcpPeer 11 default addr_a)
      (TIncoming (encode_control Reset 7) addr_a)) (toy_world toy_connected)).2.
Proof.
  apply (peers_isolated (K := toy_lib) (os := toy_os addr_a) (MkKcpPeer 11 default addr_a)
    (TIncoming (encode_control Reset 7) addr_a) addr_a (canonicalize addr_b)).
  - apply toy_world_inv, toy_connected_ok.
  - reflexivity.
  - intros H. apply (f_equal (λ c, bool_decide (c = canonicalize addr_b))) in H.
    vm_compute in H. discriminate H.
Defined.
