(* ===== verification/Plain.v ===== *)
(** * What most operations leave alone

    Nearly every action of a node leaves the queue of received messages and its
    permit alone and fires no [Connected]. *)

From S2P Require Import Prelude Prog Packet Kcp Addr Errors Config World Session Transport.
From S2P Require Import Incoming Update.
Open Scope prog_scope.

(** [Connected], for any address. *)
Definition is_connected (e : Event) : Prop := match e with Connected _ => True | _ => False end.

(** An action that leaves the queue and the permit alone, and one that fires no
    [Connected]. *)
Definition still {K : KcpLib} {B} (f : World → B * World) : Prop :=
  ∀ w, (f w).2.(pending) = w.(pending) ∧ (f w).2.(notified) = w.(notified).
Definition mute {K : KcpLib} {B} (f : World → B * World) : Prop :=
  ∀ w, ∃ es, (f w).2.(World.events) = w.(World.events) ++ es ∧ Forall (λ e, ¬ is_connected e) es.

(** All actions are. *)
Fixpoint idle {K : KcpLib} {A} (p : prog World A) : Prop :=
  match p with
  | Ret _ => True
  | Act f k => still f ∧ ∀ b, idle (k b)
  end.

Fixpoint silent {K : KcpLib} {A} (p : prog World A) : Prop :=
  match p with
  | Ret _ => True
  | Act f k => mute f ∧ ∀ b, silent (k b)
  end.

Definition plain {K : KcpLib} {A} (p : prog World A) : Prop := idle p ∧ silent p.

Create HintDb plain discriminated.

Section Plain.
Context {K : KcpLib}.

Lemma idle_bind {A B} (p : prog World A) (k : A → prog World B) :
  idle p → (∀ a, idle (k a)) → idle (bind p k).
Proof. induction p as [|C f c IH]; cbn; [auto|]. intros [? ?] Hk. auto. Qed.

Lemma silent_bind {A B} (p : prog World A) (k : A → prog World B) :
  silent p → (∀ a, silent (k a)) → silent (bind p k).
Proof. induction p as [|C f c IH]; cbn; [auto|]. intros [? ?] Hk. auto. Qed.

Lemma plain_bind {A B} (p : prog World A) (k : A → prog World B) :
  plain p → (∀ a, plain (k a)) → plain (bind p k).
Proof.
  intros [? ?] Hk. split; [apply idle_bind|apply silent_bind]; try done; intros a; apply Hk.
Qed.

Lemma plain_ret {A} (a : A) : plain (Ret a).
Proof. done. Qed.

Lemma idle_run {A} (p : prog World A) w :
  idle p → (run p w).2.(pending) = w.(pending) ∧ (run p w).2.(notified) = w.(notified).
Proof.
  revert w. induction p as [|B f k IH]; cbn; intros w; [done|]. intros [Hf Hk].
  destruct (IH _ (f w).2 (Hk (f w).1)) as [-> ->]. apply Hf.
Qed.

Lemma silent_run {A} (p : prog World A) w :
  silent p → ∃ es, (run p w).2.(World.events) = w.(World.events) ++ es ∧ Forall (λ e, ¬ is_connected e) es.
Proof.
  revert w. induction p as [a|B f k IH]; cbn; intros w.
  - intros _. exists []. by rewrite app_nil_r.
  - intros [Hf Hk]. destruct (Hf w) as (es & H1 & H2).
    destruct (IH _ (f w).2 (Hk (f w).1)) as (es' & -> & H4). exists (es ++ es').
    rewrite H1, app_assoc. split; [done|by apply Forall_app].
Qed.

Lemma idle_atomic {A} (p : prog World A) : idle p → idle (atomic p).
Proof. intros Hp. cbn. split; [|done]. intros w. by apply idle_run. Qed.

Lemma silent_atomic {A} (p : prog World A) : silent p → silent (atomic p).
Proof. intros Hp. cbn. split; [|done]. intros w. by apply silent_run. Qed.

Lemma plain_atomic {A} (p : prog World A) : plain p → plain (atomic p).
Proof. intros [? ?]. split; [by apply idle_atomic|by apply silent_atomic]. Qed.

(** An action that leaves the events alone too, and the events but [Connected]. *)
Lemma plain_act {B} (f : World → B * World) :
  (∀ w, (f w).2.(pending) = w.(pending) ∧ (f w).2.(notified) = w.(notified) ∧
        (f w).2.(World.events) = w.(World.events)) → plain (act f).
Proof.
  intros Hf. split; (split; [|done]); intros w; destruct (Hf w) as (? & ? & He); [done|].
  exists []. by rewrite app_nil_r.
Qed.

Lemma plain_event e : ¬ is_connected e → plain (event_send e).
Proof.
  intros He. split; (split; [|done]); intros w; [done|]. exists [e]. split; [done|by constructor].
Qed.
End Plain.

#[export] Hint Resolve plain_ret : plain.
#[export] Hint Extern 1 (plain (event_send _)) => apply plain_event; intros [] : plain.

(** Follow the program: sequences, critical sections, branches, actions. *)
Ltac plain_tac :=
  repeat first
    [ progress (cbv zeta beta)
    | solve [auto with plain]
    | apply plain_atomic
    | apply plain_bind; [|intros ?]
    | progress unfold bind_result, load, store, get, modify, epoch_ms, current_ms,
        arc_new, random_conv, map_get, map_insert, map_remove, try_send_to, send_to
    | apply plain_act; intros ?; split_and!; reflexivity
    | case_match ].

Section Operations.
Context {K : KcpLib} {os : Os}.

Lemma plain_run_kio {A} o (p : kio A) : plain (DirectOutput.run_kio o p).
Proof.
  revert o. induction p as [a|frame k IH]; intros o; cbn [DirectOutput.run_kio]; [done|].
  apply plain_bind; [|intros x; apply IH]. unfold DirectOutput.write. plain_tac.
Qed.

#[local] Hint Resolve plain_run_kio : plain.

Lemma plain_kcp_call {A} s (op : kcp_t → kio (kcp_t * Result A kcp_error)) : plain (Session.kcp_call s op).
Proof. unfold Session.kcp_call. plain_tac. Qed.

#[local] Hint Resolve plain_kcp_call : plain.

Lemma plain_send_data s data : plain (Session.send_data s data).
Proof. unfold Session.send_data, Session.update_flush. plain_tac. Qed.

Lemma plain_recv_loop fuel s out : plain (Session.recv_loop fuel s out).
Proof. revert out. induction fuel as [|fuel IH]; intros out; cbn [Session.recv_loop]; plain_tac. Qed.

Lemma plain_send_reset conv to : plain (KcpPeer.send_reset conv to).
Proof. unfold KcpPeer.send_reset. cbn [repeat_prog]. plain_tac. Qed.

Lemma plain_flush_queued s : plain (flush_queued s).
Proof. unfold flush_queued. plain_tac. Qed.

Lemma plain_for_each {A} (l : list A) (f : A → prog World unit) :
  (∀ x, plain (f x)) → plain (for_each l f).
Proof. intros H. induction l as [|x l IH]; cbn [for_each]; plain_tac. Qed.

#[local] Hint Resolve plain_send_data plain_recv_loop plain_send_reset plain_flush_queued : plain.

Lemma plain_filter_open l : plain (KcpPeer.filter_open l).
Proof. induction l as [|s l IH]; cbn [KcpPeer.filter_open]; plain_tac. Qed.

Lemma plain_scan_session config now_ms now_epoch s : plain (scan_session config now_ms now_epoch s).
Proof. unfold scan_session, Session.maybe_retry_syn, Session.update, Session.mark_closed. plain_tac. Qed.

#[local] Hint Resolve plain_filter_open plain_scan_session : plain.

Lemma plain_scan config now_ms now_epoch entries rem : plain (scan config now_ms now_epoch entries rem).
Proof. revert rem. induction entries as [|[can s] l IH]; intros rem; cbn [scan]; plain_tac. Qed.

Lemma plain_send self peer data : plain (KcpPeer.send self peer data).
Proof.
  unfold KcpPeer.send, KcpPeer.initiate_session, Session.new_outbound, KcpPeer.insert_if_absent,
    Session.send_syn. plain_tac.
Qed.

Lemma plain_disconnect peer : plain (KcpPeer.disconnect peer).
Proof. unfold KcpPeer.disconnect, Session.mark_closed. plain_tac. Qed.

Lemma plain_shutdown : plain KcpPeer.shutdown.
Proof.
  unfold KcpPeer.shutdown, KcpPeer.session_values. plain_tac. apply plain_for_each. intros s.
  unfold KcpPeer.shutdown_session, Session.mark_closed. plain_tac.
Qed.

Lemma plain_tick config : plain (update_tick config).
Proof.
  unfold update_tick. plain_tac; [apply plain_scan|]. apply plain_for_each. intros can.
  unfold prune, Session.mark_closed. plain_tac.
Qed.


#[local] Hint Resolve plain_tick : plain.

Lemma plain_update n config : plain (update_task n config).
Proof. induction n as [|n IH]; cbn [update_task]; unfold update_iteration; plain_tac. Qed.

Lemma plain_peers : plain KcpPeer.peers.
Proof. unfold KcpPeer.peers, KcpPeer.session_values. plain_tac. Qed.

Lemma plain_stats peer : plain (KcpPeer.stats peer).
Proof. unfold KcpPeer.stats. plain_tac. Qed.

Lemma plain_reset payload from : plain (handle_reset payload from).
Proof. unfold handle_reset, invalid_data, Session.mark_closed. plain_tac. Qed.
End Operations.

#[export] Hint Resolve plain_run_kio plain_kcp_call plain_send_data plain_recv_loop
  plain_send_reset plain_flush_queued plain_filter_open plain_scan_session plain_send plain_disconnect
  plain_shutdown plain_tick plain_update plain_peers plain_stats plain_reset : plain.
