(* ===== verification/Network.v ===== *)
(** * A network of nodes

    Any number of nodes, each a pool of tasks as in Tasks.v, joined by a network
    that may lose, delay, reorder and duplicate datagrams: a datagram that a node
    ever sent to an address may be received at any time, and any number of
    times, by the node at that address, or never.  The receive loop of a node
    handles one datagram at a time; here the handlers of any number of
    datagrams may run at once, which contains those runs. *)

From S2P Require Import Prelude Prog Packet Kcp Addr Errors Config World Session Transport.
From S2P Require Import Incoming Update Invariant Toy Tasks.

(** A node: its environment, its immutable part, and the address the others
    see it at. *)
Record Node : Type := MkNode {
  n_os : Os;
  n_self : KcpPeer;
  n_addr : SocketAddr;
}.

Definition node_can (nd : Node) : CanonicalAddr := canonicalize nd.(n_addr).

(** The tasks a node starts by itself. *)
Definition local_task (t : Task) : Prop :=
  match t with TIncoming _ _ | TReceive _ => False | _ => True end.

Section Network.
Context {K : KcpLib} (nodes : list Node).

Abbreviation net := (list (pool (W := World))).

Definition net_init : net := (λ _, ([], KcpPeer.empty_world)) <$> nodes.

(** A datagram that some node sent to node [i] reaches it, from an address of
    the sender. *)
Definition delivery (st : net) (i : nat) (t : Task) : Prop :=
  ∃ j src dst c d from, nodes !! j = Some src ∧ nodes !! i = Some dst ∧ st !! j = Some c ∧
    d ∈ c.2.(sent) ∧ canonicalize d.(dg_to) = node_can dst ∧
    canonicalize from = node_can src ∧ t = TIncoming d.(dg_bytes) from.

Definition net_spawnable (st : net) (i : nat) (nd : Node) (p : prog World unit) : Prop :=
  ∃ t, Task_ok t ∧ (local_task t ∨ delivery st i t) ∧
    p = task_prog (os := nd.(n_os)) nd.(n_self) t.

(** One node takes a step: an action of one of its tasks, a call, a datagram
    received, or a task dropped. *)
Inductive net_step : relation net :=
  | net_node i nd c c' st :
      nodes !! i = Some nd → st !! i = Some c →
      pool_step (net_spawnable st i nd) c c' →
      net_step st (<[i := c']> st).

Definition net_reach : relation net := rtc net_step.

(** Node [j] has drawn the id [c]. *)
Definition drawn (st : net) (j : nat) (c : Z) : Prop :=
  ∃ nd ts w n, nodes !! j = Some nd ∧ st !! j = Some (ts, w) ∧
    (n < w.(nrand))%nat ∧ c = os_rand (Os := nd.(n_os)) n.

(** Node [j] has sent a SYN or a SYN_ACK to the address [to]. *)
Definition spoke (st : net) (j : nat) (to : CanonicalAddr) : Prop :=
  ∃ ts w d typ payload, st !! j = Some (ts, w) ∧ d ∈ w.(sent) ∧
    canonicalize d.(dg_to) = to ∧ split_packet d.(dg_bytes) = Some (typ, payload) ∧
    is_handshake typ.

Context (laws : ∀ i nd, nodes !! i = Some nd → OsLaws nd.(n_os)).
Context (distinct : ∀ i j ndi ndj, nodes !! i = Some ndi → nodes !! j = Some ndj →
  node_can ndi = node_can ndj → i = j).

(** ** The invariant of every node, for a family of provenances *)

Section Provenances.
Context (PVs : ∀ (i : nat) (nd : Node), @Provenance nd.(n_os)).

Definition net_ok (st : net) : Prop :=
  ∀ i nd c, nodes !! i = Some nd → st !! i = Some c →
    pool_ok (full_inv (PV := PVs i nd)) evolves c.

Definition net_evolves (st st' : net) : Prop :=
  ∀ i c, st !! i = Some c → ∃ c', st' !! i = Some c' ∧ evolves c.2 c'.2.

#[export] Instance net_evolves_preorder : PreOrder net_evolves.
Proof.
  split.
  - intros st i c Hc. by exists c.
  - intros st1 st2 st3 H12 H23 i c Hc. destruct (H12 i c Hc) as (c2 & Hc2 & ?).
    destruct (H23 i c2 Hc2) as (c3 & ? & ?). exists c3. split; [done|by etransitivity].
Qed.

(** The datagrams that may be delivered in [st] are acceptable. *)
Definition net_accepts (st : net) : Prop :=
  ∀ i nd t, nodes !! i = Some nd → delivery st i t → ∀ n, task_prov (PV := PVs i nd) n t.

Lemma net_step_ok st st' :
  net_step st st' → net_accepts st → net_ok st → net_ok st' ∧ net_evolves st st'.
Proof.
  intros [i nd c c' st0 Hi Hc Hstep] Hacc Hok. clear st st'.
  pose proof (laws i nd Hi) as OL.
  assert (Hlen : (i < length st0)%nat) by (by eapply lookup_lt_Some).
  assert (Hsafe : ∀ p w, net_spawnable st0 i nd p →
    safe (full_inv (PV := PVs i nd)) evolves p (λ _ _, True) w).
  { intros p w (t & Ht & Hsrc & ->). apply task_safe; [done|].
    destruct Hsrc as [Hl|Hd]; [by destruct t|by eapply Hacc]. }
  destruct (pool_step_ok _ _ _ Hsafe c c' Hstep (Hok i nd c Hi Hc)) as [Hok' HG].
  split.
  - intros j ndj cj Hj. destruct (decide (i = j)) as [<-|Hne].
    + rewrite list_lookup_insert_eq by done. intros [= <-].
      by assert (ndj = nd) as -> by congruence.
    + rewrite list_lookup_insert_ne by done. by apply Hok.
  - intros j cj Hj. destruct (decide (i = j)) as [<-|Hne].
    + rewrite list_lookup_insert_eq by done. exists c'. split; [done|].
      pose proof (eq_trans (eq_sym Hc) Hj) as [= <-]. done.
    + rewrite list_lookup_insert_ne by done. by exists cj.
Qed.

Lemma net_init_ok : net_ok net_init.
Proof.
  intros i nd c Hi Hc. unfold net_init in Hc. rewrite list_lookup_fmap, Hi in Hc.
  injection Hc as <-. split; [apply empty_world_full|constructor].
Qed.
End Provenances.

(** ** Every run is an evolution *)

Abbreviation any_family := (λ _ nd, any_provenance (os := nd.(n_os))).

Lemma net_reach_evolves st st' :
  net_reach st st' → net_ok any_family st →
  net_ok any_family st' ∧ net_evolves st st'.
Proof.
  induction 1 as [st|st1 st2 st3 Hstep _ IH]; intros Hok; [split; [done|reflexivity]|].
  destruct (net_step_ok any_family _ _ Hstep) as [Hok2 HG]; [|done|].
  { intros i nd t _ (j & src & dst & c & d & from & _ & _ & _ & _ & _ & _ & ->) n. by cbn. }
  destruct (IH Hok2). split; [done|by etransitivity].
Qed.

(** ** Where the ids and the connections of a run that ends in [fin] come from *)

Section Final.
Context (fin : net).

(** With the node at [can], node [i] may use the ids that either of them has
    drawn by the end of the run; it may be connected with it if it has spoken. *)
Definition fin_legit (i : nat) (nd : Node) (n : nat) (can : CanonicalAddr) (c : Z) : Prop :=
  (∀ k, (k < n)%nat → drawn fin i (os_rand (Os := nd.(n_os)) k)) →
  drawn fin i c ∨ ∃ j ndj, nodes !! j = Some ndj ∧ node_can ndj = can ∧ drawn fin j c.

Definition fin_heard (nd : Node) (can : CanonicalAddr) : Prop :=
  ∃ j ndj, nodes !! j = Some ndj ∧ node_can ndj = can ∧ spoke fin j (node_can nd).

Lemma fin_legit_mono i nd n m can c :
  (n ≤ m)%nat → fin_legit i nd n can c → fin_legit i nd m can c.
Proof. intros Hn H Hm. apply H. intros k Hk. apply Hm. lia. Qed.

Lemma fin_legit_draw i nd n can : fin_legit i nd (S n) can (os_rand (Os := nd.(n_os)) n).
Proof. intros H. left. apply H. lia. Qed.

Definition fin_provenance (i : nat) (nd : Node) : @Provenance nd.(n_os) :=
  {| legit := fin_legit i nd; heard := fin_heard nd;
     legit_mono := fin_legit_mono i nd; legit_draw := fin_legit_draw i nd |}.

Lemma drawn_evolves st i nd ts w k :
  net_evolves st fin → nodes !! i = Some nd → st !! i = Some (ts, w) → (k < w.(nrand))%nat →
  drawn fin i (os_rand (Os := nd.(n_os)) k).
Proof.
  intros HG Hi Hw Hk. destruct (HG _ _ Hw) as ([ts' w'] & Hfin & Hev).
  apply evolves_nrand in Hev. cbn in Hev. exists nd, ts', w', k. split_and!; [done..|lia|done].
Qed.

(** What is sent by a node before the end is acceptable to the receiver. *)
Lemma fin_accepts st : net_evolves st fin → net_ok fin_provenance st → net_accepts fin_provenance st.
Proof.
  intros HG Hok i nd t Hi (j & src & dst & [ts w] & d & from & Hj & Hi' & Hst & Hd & Hto & Hfrom & ->) n.
  assert (dst = nd) as -> by congruence. clear Hi'.
  destruct (Hok j src _ Hj Hst) as [[_ (_ & Hwire & _)] _]. cbn [snd] in *.
  rewrite Forall_forall in Hwire. intros typ payload Hs Ht. split.
  - intros _. pose proof (proj2 (Hwire d Hd) typ payload Hs Ht) as Hl.
    destruct Hl as [Hl|(i' & ndi & Hi' & Hcan & Hl)].
    + intros k Hk. by eapply drawn_evolves.
    + right. by exists j, src.
    + left. rewrite (distinct i' i ndi nd Hi' Hi) in Hl; [done|congruence].
  - exists j, src. split_and!; [done..|]. destruct (HG _ _ Hst) as ([ts' w'] & Hfin & Hev).
    destruct Hev as (_ & _ & _ & Hpre & _). exists ts', w', d, typ, payload.
    split_and!; [done| |congruence|done|done]. by eapply elem_of_prefix.
Qed.

Lemma net_reach_fin st :
  net_reach st fin → net_ok any_family st →
  net_ok fin_provenance st → net_ok fin_provenance fin.
Proof.
  intros Hr. remember fin as fin' eqn:E in Hr. revert E.
  induction Hr as [st|st1 st2 st3 Hstep Hr IH]; intros E Hany Hok; subst; [done|].
  destruct (net_reach_evolves _ _ (rtc_l _ _ _ _ Hstep Hr) Hany) as [_ HG].
  destruct (net_reach_evolves _ _ (rtc_once _ _ Hstep) Hany) as [Hany2 _].
  apply IH; [done|done|].
  apply (net_step_ok fin_provenance _ _ Hstep); [by apply fin_accepts|done].
Qed.

Lemma net_reach_ok : net_reach net_init fin → net_ok fin_provenance fin.
Proof. intros Hr. by eapply net_reach_fin; [|apply net_init_ok..]. Qed.
End Final.

(** ** What holds in every run *)

(** C12. In a network that loses, duplicates, delays and reorders packets, with any
    interleaving of calls, ticks, shutdowns and cancellations on every node:
    the conversation id of a session was drawn by one of its two ends. A node
    never takes an id over from a third one, and makes none up. *)
Theorem net_ids_drawn st i nd ts w s σ :
  net_reach net_init st → nodes !! i = Some nd → st !! i = Some (ts, w) →
  w.(heap) !! s = Some σ →
  drawn st i σ.(inner).(conv_id) ∨
  ∃ j ndj, nodes !! j = Some ndj ∧ node_can ndj = canonicalize σ.(peer_addr) ∧
    drawn st j σ.(inner).(conv_id).
Proof.
  intros Hr Hi Hst Hσ. destruct (net_reach_ok _ Hr i nd _ Hi Hst) as [[_ (HP & _)] _].
  destruct (HP s σ Hσ) as [[H|H] _]; [|by left|by right].
  intros k Hk. eapply drawn_evolves; [reflexivity|done|done|done].
Qed.

Lemma drawn_once st i j ndi ndj tsi tsj wi wj c c' :
  nodes !! i = Some ndi → st !! i = Some (tsi, wi) →
  nodes !! j = Some ndj → st !! j = Some (tsj, wj) →
  (wi.(nrand) + wj.(nrand) ≤ 1)%nat →
  drawn st i c ∨ drawn st j c → drawn st i c' ∨ drawn st j c' → c = c'.
Proof.
  intros Hi Hwi Hj Hwj Hn.
  assert (H : ∀ x, drawn st i x ∨ drawn st j x →
    (wi.(nrand) = 1%nat ∧ x = os_rand (Os := ndi.(n_os)) 0) ∨
    (wj.(nrand) = 1%nat ∧ x = os_rand (Os := ndj.(n_os)) 0)).
  { intros x [(nd & ts & w & n & Hnd & Hw & Hlt & ->)|(nd & ts & w & n & Hnd & Hw & Hlt & ->)];
      [left|right]; simplify_eq; assert (n = 0%nat) as -> by lia; split; (done || lia). }
  intros [[? ->]|[? ->]]%H [[? ->]|[? ->]]%H; (done || lia).
Qed.

(** C13. If one side starts: as long as two nodes have drawn one conversation id
    between them, every session that one has ever had with the other carries
    that id, on both sides, however packets are lost, duplicated and reordered,
    sessions time out, are reset and reopened by the peer's SYN. *)
Theorem single_initiator_agreement st i j ndi ndj tsi tsj wi wj s s' σ σ' :
  net_reach net_init st →
  nodes !! i = Some ndi → st !! i = Some (tsi, wi) →
  nodes !! j = Some ndj → st !! j = Some (tsj, wj) →
  (wi.(nrand) + wj.(nrand) ≤ 1)%nat →
  wi.(heap) !! s = Some σ → canonicalize σ.(peer_addr) = node_can ndj →
  wj.(heap) !! s' = Some σ' → canonicalize σ'.(peer_addr) = node_can ndi →
  σ.(inner).(conv_id) = σ'.(inner).(conv_id).
Proof.
  intros Hr Hi Hwi Hj Hwj Hn Hσ Hp Hσ' Hp'.
  assert (Hdr : ∀ k nd ts w l r τ ndl, nodes !! k = Some nd → st !! k = Some (ts, w) →
    nodes !! l = Some ndl → w.(heap) !! r = Some τ → canonicalize τ.(peer_addr) = node_can ndl →
    drawn st k τ.(inner).(conv_id) ∨ drawn st l τ.(inner).(conv_id)).
  { intros k nd ts w l r τ ndl Hk Hw Hl Hτ Hpl.
    destruct (net_reach_ok _ Hr k nd _ Hk Hw) as [[_ (HP & _)] _].
    destruct (HP r τ Hτ) as [[H|(m & ndm & Hm & Hcan & H)] _].
    - intros q Hq. eapply drawn_evolves; [reflexivity|done|done|done].
    - by left.
    - right. by rewrite <- (distinct m l ndm ndl Hm Hl) by congruence. }
  eapply (drawn_once st i j); [done..| |].
  - by eapply (Hdr i).
  - destruct (Hdr j ndj tsj wj i s' σ' ndi); auto.
Qed.

(** C14. No connection comes out of nothing: a session is established, and
    [Connected] or [PeerRestarted] fired for an address, only if the node at
    that address did send a SYN or a SYN_ACK to this node. *)
Theorem no_spurious_connection st i nd ts w :
  net_reach net_init st → nodes !! i = Some nd → st !! i = Some (ts, w) →
  (∀ s σ, w.(heap) !! s = Some σ → σ.(inner).(state) = Established →
    ∃ j ndj, nodes !! j = Some ndj ∧ node_can ndj = canonicalize σ.(peer_addr) ∧
      spoke st j (node_can nd)) ∧
  (∀ a, Connected a ∈ w.(events) ∨ PeerRestarted a ∈ w.(events) →
    ∃ j ndj, nodes !! j = Some ndj ∧ node_can ndj = canonicalize a ∧
      spoke st j (node_can nd)).
Proof.
  intros Hr Hi Hst. destruct (net_reach_ok _ Hr i nd _ Hi Hst) as [[_ (HP & _ & HE)] _]. split.
  - intros s σ Hσ Hstate. by apply (HP s σ Hσ).
  - cbn [snd] in HE. rewrite Forall_forall in HE. intros a [H|H]; exact (HE _ H).
Qed.

(** ** Tasks that run alone *)

Lemma net_pool st i nd c c' :
  nodes !! i = Some nd → st !! i = Some c → pool_reach (λ _, False) c c' →
  net_reach st (<[i := c']> st).
Proof.
  intros Hi Hc Hr. revert st Hc. induction Hr as [c|c1 c2 c3 Hstep _ IH]; intros st Hc.
  - rewrite list_insert_id by done. constructor.
  - eapply rtc_l; [eapply (net_node i nd c1 c2); [done..|]|].
    + destruct Hstep as [|p ts w []|]; by constructor.
    + assert (Hlen : (i < length st)%nat) by (by eapply lookup_lt_Some).
      rewrite <- (list_insert_insert_eq st i c3 c2). apply IH. by apply list_lookup_insert_eq.
Qed.

(** A task started and run to its end on the node at [i]. *)
Definition run_on (i : nat) (nd : Node) (t : Task) (st : net) : net :=
  match st !! i with
  | None => st
  | Some c =>
      <[i := (c.1 ++ [Ret tt], (run (task_prog (os := nd.(n_os)) nd.(n_self) t) c.2).2)]> st
  end.

Lemma net_run_task st i nd t :
  nodes !! i = Some nd → Task_ok t → local_task t ∨ delivery st i t →
  net_reach st (run_on i nd t st).
Proof.
  intros Hi Ht Hsrc. unfold run_on. destruct (st !! i) as [[ts w]|] eqn:Hst; [|constructor].
  set (p := task_prog _ t). cbn [fst snd].
  assert (Hlen : (i < length st)%nat) by (by eapply lookup_lt_Some).
  eapply rtc_l; [eapply (net_node i nd _ (ts ++ [p], w)); [done..|apply pool_spawn; by exists t]|].
  pose proof (pool_run (λ _, False) (length ts) p (ts ++ [p]) w) as H.
  rewrite insert_app_r_alt, Nat.sub_diag in H by lia.
  rewrite lookup_app_r, Nat.sub_diag in H by lia.
  pose proof (net_pool (<[i := (ts ++ [p], w)]> st) i nd _ _ Hi
    (list_lookup_insert_eq _ _ _ Hlen) (H eq_refl)) as H2.
  by rewrite list_insert_insert_eq in H2.
Qed.
End Network.

(** ** A run of two nodes

    [addr_a] sends, its SYN is delivered twice to [addr_b], and the SYN_ACKs
    come back. *)

Definition node_a : Node := MkNode (toy_os addr_a) (MkKcpPeer 11 default addr_a) addr_a.
Definition node_b : Node := MkNode (toy_os addr_b) (MkKcpPeer 12 default addr_b) addr_b.

Abbreviation toy_nodes := [node_a; node_b].

Lemma toy_nodes_laws i nd : toy_nodes !! i = Some nd → OsLaws nd.(n_os).
Proof. destruct i as [|[|i]]; [intros [= <-]; apply toy_os_laws..|done]. Qed.

Lemma toy_nodes_distinct i j ndi ndj :
  toy_nodes !! i = Some ndi → toy_nodes !! j = Some ndj → node_can ndi = node_can ndj → i = j.
Proof.
  destruct i as [|[|i]], j as [|[|j]]; try done; intros [= <-] [= <-] H; discriminate H.
Qed.

Definition toy_net1 : list (pool (W := @World toy_lib)) :=
  run_on 0 node_a (TSend addr_b [104; 105]) (net_init toy_nodes).
Definition toy_net2 := run_on 1 node_b (TIncoming (encode_control Syn 1) addr_a) toy_net1.
Definition toy_net3 := run_on 1 node_b (TIncoming (encode_control Syn 1) addr_a) toy_net2.
Definition toy_net4 := run_on 0 node_a (TIncoming (encode_control SynAck 1) addr_b) toy_net3.

Lemma toy_net_delivery st i j src dst b from c d :
  toy_nodes !! j = Some src → toy_nodes !! i = Some dst → st !! j = Some c →
  c.2.(sent) !! 0%nat = Some d → canonicalize d.(dg_to) = node_can dst →
  canonicalize from = node_can src → d.(dg_bytes) = b →
  delivery (K := toy_lib) toy_nodes st i (TIncoming b from).
Proof.
  intros Hj Hi Hst Hd Hto Hfrom <-. exists j, src, dst, c, d, from.
  split_and!; [done..| |done|done|done]. by eapply list_elem_of_lookup_2.
Qed.

Lemma toy_net_reach : net_reach toy_nodes (net_init toy_nodes) toy_net4.
Proof.
  etransitivity; [eapply (net_run_task toy_nodes _ 0 node_a (TSend addr_b [104; 105])); [done..|by left]|].
  fold toy_net1.
  etransitivity; [eapply (net_run_task toy_nodes _ 1 node_b (TIncoming (encode_control Syn 1) addr_a)); [reflexivity|apply encode_control_ok|right]|].
  { eapply (toy_net_delivery toy_net1 1 0); reflexivity. }
  fold toy_net2.
  etransitivity; [eapply (net_run_task toy_nodes _ 1 node_b (TIncoming (encode_control Syn 1) addr_a)); [reflexivity|apply encode_control_ok|right]|].
  { eapply (toy_net_delivery toy_net2 1 0); reflexivity. }
  fold toy_net3.
  eapply (net_run_task toy_nodes _ 0 node_a (TIncoming (encode_control SynAck 1) addr_b)); [reflexivity|apply encode_control_ok|right].
  eapply (toy_net_delivery toy_net3 0 1); reflexivity.
Qed.

Definition toy_end (i : nat) : @World toy_lib :=
  from_option snd KcpPeer.empty_world (toy_net4 !! i).

Definition toy_end_session (i : nat) : @Session toy_lib :=
  from_option id toy_connected (heap (K := toy_lib) (toy_end i) !! 0%nat).

Lemma toy_end_a : toy_net4 !! 0%nat = Some ([Ret tt; Ret tt], toy_end 0).
Proof. reflexivity. Qed.

Lemma toy_end_b : toy_net4 !! 1%nat = Some ([Ret tt; Ret tt], toy_end 1).
Proof. reflexivity. Qed.

Lemma toy_session_a : heap (toy_end 0) !! 0%nat = Some (toy_end_session 0).
Proof. vm_compute. reflexivity. Qed.

Lemma toy_session_b : heap (toy_end 1) !! 0%nat = Some (toy_end_session 1).
Proof. vm_compute. reflexivity. Qed.

Lemma toy_session_ends :
  canonicalize (toy_end_session 0).(peer_addr) = node_can node_b ∧
  canonicalize (toy_end_session 1).(peer_addr) = node_can node_a ∧
  (toy_end_session 0).(inner).(conv_id) = 1 ∧
  events (toy_end 1) = [Connected addr_a] ∧
  ((toy_end 0).(nrand) + (toy_end 1).(nrand) = 1)%nat.
Proof. vm_compute. split_and!; reflexivity. Qed.

Lemma net_ids_drawn_witness :
  let c := (toy_end_session 1).(inner).(conv_id) in
  drawn toy_nodes toy_net4 1 c ∨
  ∃ j ndj, toy_nodes !! j = Some ndj ∧
    node_can ndj = canonicalize (toy_end_session 1).(peer_addr) ∧ drawn toy_nodes toy_net4 j c.
Proof.
  exact (net_ids_drawn toy_nodes toy_nodes_laws toy_nodes_distinct toy_net4 1 node_b
    _ (toy_end 1) 0 (toy_end_session 1) toy_net_reach eq_refl toy_end_b toy_session_b).
Defined.

Lemma single_initiator_agreement_witness :
  (toy_end_session 0).(inner).(conv_id) = (toy_end_session 1).(inner).(conv_id).
Proof.
  destruct toy_session_ends as (Ha & Hb & _ & _ & Hn).
  exact (single_initiator_agreement toy_nodes toy_nodes_laws toy_nodes_distinct toy_net4 0 1
    node_a node_b _ _ (toy_end 0) (toy_end 1) 0 0 _ _ toy_net_reach eq_refl toy_end_a eq_refl
    toy_end_b (Nat.eq_le_incl _ _ Hn) toy_session_a Ha toy_session_b Hb).
Defined.

Lemma no_spurious_connection_witness :
  ∃ j ndj, toy_nodes !! j = Some ndj ∧ node_can ndj = canonicalize addr_a ∧
    spoke toy_net4 j (node_can node_b).
Proof.
  destruct toy_session_ends as (_ & _ & _ & He & _).
  refine (proj2 (no_spurious_connection toy_nodes toy_nodes_laws toy_nodes_distinct toy_net4
    1 node_b _ (toy_end 1) toy_net_reach eq_refl toy_end_b) addr_a (or_introl _)).
  rewrite He. left.
Defined.
