(* ===== verification/SynOnce.v ===== *)
(** * At most one SYN for concurrent sends (src/src/transport.rs, [initiate_session])

    [initiate_session] sends its SYN after the double-checked insertion into
    the session map, to guarantee that concurrent sends to one peer never put
    two SYNs on the wire.  A task may send the SYN only after it was the one
    that registered the address: [fresh], [armed] and [quiet] classify the
    programs before that moment, between it and the SYN, and after the SYN. *)

From S2P Require Import Prelude Prog Packet Kcp Addr Errors Config World Session Transport.
From S2P Require Import Incoming Update Invariant Toy Tasks.
Open Scope prog_scope.

(** A SYN on the wire. *)
Definition is_syn (d : Datagram) : Prop :=
  ∃ payload, split_packet d.(dg_bytes) = Some (Syn, payload).

#[export] Instance is_syn_dec d : Decision (is_syn d).
Proof.
  unfold is_syn. destruct (split_packet d.(dg_bytes)) as [[[] payload]|];
    first [left; by exists payload | right; by intros []].
Defined.

Section SynOnce.
Context {K : KcpLib} {os : Os} (can : CanonicalAddr).

Definition syns (w : World) : nat := length (filter is_syn w.(sent)).

(** The address has a session in the map. *)
Definition registered (w : World) : Prop := is_Some (w.(sessions) !! can).

(** An action that sends no SYN, and one that never unregisters the address. *)
Definition silent {B} (f : World → B * World) : Prop := ∀ w, syns (f w).2 = syns w.
Definition keeps {B} (f : World → B * World) : Prop :=
  ∀ w, registered w → registered (f w).2.

(** No SYN is sent any more. *)
Fixpoint quiet {A} (p : prog World A) : Prop :=
  match p with
  | Ret _ => True
  | Act f k => silent f ∧ keeps f ∧ ∀ b, quiet (k b)
  end.

(** At most one SYN is sent. *)
Fixpoint armed {A} (p : prog World A) : Prop :=
  match p with
  | Ret _ => True
  | Act f k => keeps f ∧ ∀ w,
      (syns (f w).2 = syns w ∧ armed (k (f w).1)) ∨
      ((syns (f w).2 ≤ S (syns w))%nat ∧ quiet (k (f w).1))
  end.

(** No SYN is sent before the program itself registers the address. *)
Fixpoint fresh {A} (p : prog World A) : Prop :=
  match p with
  | Ret _ => True
  | Act f k => silent f ∧ keeps f ∧ ∀ w,
      fresh (k (f w).1) ∨
      (¬ registered w ∧ registered (f w).2 ∧ armed (k (f w).1))
  end.

Lemma quiet_fresh {A} (p : prog World A) : quiet p → fresh p.
Proof. induction p as [|B f k IH]; cbn; [done|]. intros (? & ? & ?). auto. Qed.

(** ** Sequencing *)

Lemma quiet_bind {A B} (p : prog World A) (k : A → prog World B) :
  quiet p → (∀ a, quiet (k a)) → quiet (bind p k).
Proof. induction p as [|C f c IH]; cbn; [auto|]. intros (? & ? & ?) Hk. auto. Qed.

Lemma armed_bind {A B} (p : prog World A) (k : A → prog World B) :
  armed p → (∀ a, quiet (k a)) → armed (bind p k).
Proof.
  intros Hp Hk. induction p as [a|C f c IH]; cbn in *.
  - generalize (Hk a). generalize (k a). intros q. induction q as [|C f c IH]; cbn; [done|].
    intros (Hs & ? & ?). split; [done|]. intros w. left. auto.
  - destruct Hp as [? Hp]. split; [done|]. intros w.
    destruct (Hp w) as [[? ?]|[? ?]]; [by left; auto|]. right. split; [done|].
    by apply quiet_bind.
Qed.

(** The classification of a sequence whose first part is quiet. *)
Lemma fresh_bind_r {A B} (p : prog World A) (k : A → prog World B) :
  quiet p → (∀ a, fresh (k a)) → fresh (bind p k).
Proof. induction p as [|C f c IH]; cbn; [auto|]. intros (? & ? & ?) Hk. auto. Qed.

Lemma armed_bind_r {A B} (p : prog World A) (k : A → prog World B) :
  quiet p → (∀ a, armed (k a)) → armed (bind p k).
Proof.
  induction p as [|C f c IH]; cbn; [auto|]. intros (Hs & ? & ?) Hk. split; [done|].
  intros w. left. auto.
Qed.

(** ... and of one whose second part is. *)
Lemma fresh_bind_l {A B} (p : prog World A) (k : A → prog World B) :
  fresh p → (∀ a, quiet (k a)) → fresh (bind p k).
Proof.
  intros Hp Hk. induction p as [a|C f c IH]; cbn in *; [by apply quiet_fresh|].
  destruct Hp as (? & ? & Hp). split_and!; [done|done|]. intros w.
  destruct (Hp w) as [?|(? & ? & ?)]; [by left; auto|]. right. split_and!; [done|done|].
  by apply armed_bind.
Qed.

Lemma quiet_run {A} (p : prog World A) w :
  quiet p → syns (run p w).2 = syns w ∧ (registered w → registered (run p w).2).
Proof.
  revert w. induction p as [|B f k IH]; cbn; intros w; [done|]. intros (Hs & Hk & Hq).
  destruct (IH _ (f w).2 (Hq (f w).1)) as [-> ?]. split; [apply Hs|auto].
Qed.

Lemma quiet_atomic {A} (p : prog World A) : quiet p → quiet (atomic p).
Proof.
  intros Hp. cbn. split_and!; [| |done]; intros w; by apply (quiet_run p w Hp).
Qed.

(** ** Primitive actions *)

(** An action that leaves the map and the socket alone. *)
Lemma quiet_act {B} (f : World → B * World) :
  (∀ w, (f w).2.(sent) = w.(sent) ∧ (f w).2.(sessions) = w.(sessions)) → quiet (act f).
Proof.
  intros H. cbn. split_and!; [| |done]; intros w; destruct (H w) as [Hs Hm].
  - unfold syns. by rewrite Hs.
  - unfold registered. by rewrite Hm.
Qed.

Lemma quiet_send_to b to :
  (∀ payload, split_packet b ≠ Some (Syn, payload)) → quiet (send_to b to).
Proof.
  intros H. cbn. split_and!; [|by intros w Hw|done]. intros w. unfold syns. cbn.
  rewrite filter_app, filter_cons_False; [by rewrite app_nil_r|].
  intros [payload Hp]. by apply (H payload).
Qed.

Lemma quiet_send_control t conv to : t ≠ Syn → quiet (send_to (encode_control t conv) to).
Proof. intros Ht. apply quiet_send_to. intros payload. rewrite split_control. congruence. Qed.

Lemma quiet_map_insert c s : quiet (map_insert c s).
Proof.
  cbn. split_and!; [done| |done]. intros w [x Hx]. unfold registered. cbn.
  rewrite lookup_insert. case_decide; eauto.
Qed.
End SynOnce.

Create HintDb quiet discriminated.
#[export] Hint Resolve quiet_send_control quiet_map_insert : quiet.
#[export] Hint Extern 1 (_ ≠ _) => discriminate : quiet.

(** Follow the program: sequences, critical sections, branches, actions. *)
Ltac quiet :=
  repeat first
    [ progress (cbv zeta beta)
    | done
    | solve [auto with quiet]
    | apply quiet_atomic
    | apply quiet_bind; [|intros ?]
    | progress unfold bind_result, load, store, get, modify, epoch_ms, current_ms, event_send,
        arc_new, random_conv, map_get, try_send_to
    | apply quiet_act; intros ?; split; reflexivity
    | case_match ].

Section Tasks.
Context {K : KcpLib} {os : Os} (can : CanonicalAddr).

Lemma quiet_write o frame : quiet can (DirectOutput.write o frame).
Proof.
  unfold DirectOutput.write. apply quiet_bind; [|done].
  apply quiet_send_to. intros payload. cbn. congruence.
Qed.

Lemma quiet_run_kio {A} o (p : kio A) : quiet can (DirectOutput.run_kio o p).
Proof.
  revert o. induction p as [a|frame k IH]; intros o; cbn [DirectOutput.run_kio]; [done|].
  apply quiet_bind; [apply quiet_write|]. intros x. apply IH.
Qed.

#[local] Hint Resolve quiet_run_kio : quiet.

Lemma quiet_kcp_call {A} s (op : kcp_t → kio (kcp_t * Result A kcp_error)) :
  quiet can (Session.kcp_call s op).
Proof. unfold Session.kcp_call. quiet. Qed.

#[local] Hint Resolve quiet_kcp_call : quiet.

Lemma quiet_send_data s data : quiet can (Session.send_data s data).
Proof. unfold Session.send_data, Session.update_flush. quiet. Qed.

Lemma quiet_recv_loop fuel s out : quiet can (Session.recv_loop fuel s out).
Proof. revert out. induction fuel as [|fuel IH]; intros out; cbn [Session.recv_loop]; quiet. Qed.

Lemma quiet_send_reset conv to : quiet can (KcpPeer.send_reset conv to).
Proof. unfold KcpPeer.send_reset. cbn [repeat_prog]. quiet. Qed.

Lemma quiet_establish s : quiet can (establish s).
Proof. unfold establish, flush_queued. quiet. Qed.

Lemma quiet_for_each {A} (l : list A) (f : A → prog World unit) :
  (∀ x, quiet can (f x)) → quiet can (for_each l f).
Proof. intros H. induction l as [|x l IH]; cbn [for_each]; quiet. Qed.

#[local] Hint Resolve quiet_send_data quiet_recv_loop quiet_send_reset quiet_establish : quiet.

Lemma quiet_recv polls : quiet can (KcpPeer.recv polls) ∧ quiet can (KcpPeer.recv_wait polls).
Proof.
  induction polls as [|polls [IH1 IH2]]; [done|]. cbn [KcpPeer.recv KcpPeer.recv_wait].
  unfold KcpPeer.pop_front, KcpPeer.take_permit. split; quiet;
    apply quiet_act; intros w; cbn; by destruct (pending w).
Qed.

Lemma quiet_filter_open l : quiet can (KcpPeer.filter_open l).
Proof. induction l as [|s l IH]; cbn [KcpPeer.filter_open]; quiet. Qed.

#[local] Hint Resolve quiet_filter_open : quiet.

Lemma quiet_peers : quiet can KcpPeer.peers.
Proof. unfold KcpPeer.peers, KcpPeer.session_values. quiet. Qed.

Lemma quiet_stats peer : quiet can (KcpPeer.stats peer).
Proof. unfold KcpPeer.stats. quiet. Qed.

Lemma quiet_shutdown : quiet can KcpPeer.shutdown.
Proof.
  unfold KcpPeer.shutdown, KcpPeer.session_values.
  quiet. apply quiet_for_each. intros s.
  unfold KcpPeer.shutdown_session, Session.mark_closed. quiet.
Qed.

(** Every packet but a RESET, whoever it comes from. *)
Lemma quiet_incoming data from inc config :
  (∀ payload, split_packet data ≠ Some (Reset, payload)) →
  quiet can (handle_incoming data from inc config).
Proof.
  intros Hr. unfold handle_incoming, invalid_data.
  destruct (split_packet data) as [[[] payload]|]; [..|done].
  - unfold handle_kcp_data, Session.input, Session.try_recv_all, push_messages. quiet.
  - unfold handle_syn, invalid_data, syn_check, Session.mark_closed, Session.new_inbound,
      insert_inbound. quiet.
  - unfold handle_syn_ack, invalid_data. quiet.
  - by destruct (Hr payload).
Qed.

(** The insertion is the moment a fresh program may become armed. *)
Lemma fresh_insert {A} s (k : option nat → prog World A) :
  (∀ e, quiet can (k (Some e))) → armed can (k None) →
  fresh can (bind (KcpPeer.insert_if_absent can s) k).
Proof.
  intros Hq Ha. set (f := run (o <- map_get can ;;
    match o with
    | Some existing => Ret (Some existing)
    | None => map_insert can s ;; Ret None
    end)).
  change (bind (KcpPeer.insert_if_absent can s) k) with (Act f k). cbn [fresh].
  assert (Hf : ∀ w, f w = match w.(sessions) !! can with
    | Some e => (Some e, w)
    | None => (None, upd_sessions (<[can := s]>) w)
    end).
  { intros w. unfold f, map_get, map_insert. rewrite run_bind, run_get. cbn [fst snd].
    by destruct (sessions w !! can). }
  split_and!; intros w; [| |unfold registered]; rewrite Hf;
    destruct (sessions w !! can) eqn:E; cbn; try done.
  - intros H. unfold registered. cbn. rewrite lookup_insert_eq. eauto.
  - left. by apply quiet_fresh.
  - right. split_and!; [by intros []|rewrite lookup_insert_eq; eauto|done].
Qed.

(** One datagram is at most one SYN. *)
Lemma armed_send_to {A} b to (k : Result Z IoError → prog World A) :
  (∀ r, quiet can (k r)) → armed can (bind (send_to b to) k).
Proof.
  intros Hk. change (bind (send_to b to) k) with
    (Act (λ w, (send_result w b to, push_sent (MkDatagram to b (send_result w b to)) w)) k).
  split; [by intros w Hw|]. intros w. right. split; [|apply Hk]. unfold syns. cbn [snd sent push_sent].
  rewrite filter_app, length_app.
  pose proof (length_filter is_syn [MkDatagram to b (send_result w b to)]) as H.
  cbn [length] in H. lia.
Qed.

(** [send_syn] sends one SYN. *)
Lemma armed_send_syn s : armed can (Session.send_syn s).
Proof.
  unfold Session.send_syn. apply armed_bind_r; [quiet|]. intros conv.
  apply armed_bind_r; [quiet|]. intros to. apply armed_send_to. intros r. quiet.
Qed.

Lemma fresh_send self peer data :
  canonicalize peer = can → fresh can (KcpPeer.send self peer data).
Proof.
  intros Hc. unfold KcpPeer.send. rewrite Hc. cbv zeta. apply fresh_bind_r; [quiet|].
  intros [s|]; [by apply quiet_fresh, quiet_send_data|].
  apply fresh_bind_l; [|intros s; apply quiet_send_data].
  unfold KcpPeer.initiate_session. rewrite Hc. cbv zeta. apply fresh_bind_r; [quiet|]. intros [e|]; [done|].
  apply fresh_bind_r; [quiet|]. intros conv.
  apply fresh_bind_r; [unfold Session.new_outbound; quiet|]. intros s.
  apply fresh_insert; [done|]. apply armed_bind; [apply armed_send_syn|done].
Qed.
End Tasks.

(** ** Pools *)

Section Pools.
Context {K : KcpLib} {os : Os} (self : KcpPeer) (can : CanonicalAddr).

(** Sends to the peer, under any of its addresses, next to calls that read,
    a shutdown, and incoming packets other than RESETs. *)
Definition sends_to (t : Task) : Prop :=
  match t with
  | TSend peer _ => canonicalize peer = can
  | TRecv _ | TPeers | TStats _ | TShutdown => True
  | TIncoming data _ => ∀ payload, split_packet data ≠ Some (Reset, payload)
  | _ => False
  end.

Definition sender (p : prog World unit) : Prop := ∃ t, sends_to t ∧ p = task_prog self t.

Lemma sender_fresh p : sender p → fresh can p.
Proof.
  intros (t & Ht & ->). destruct t; cbn [task_prog sends_to] in *; try done.
  - apply fresh_bind_l; [by apply fresh_send|done].
  - apply quiet_fresh, quiet_bind; [apply quiet_recv|done].
  - apply quiet_fresh, quiet_bind; [apply quiet_peers|done].
  - apply quiet_fresh, quiet_bind; [apply quiet_stats|done].
  - apply quiet_fresh, quiet_shutdown.
  - apply quiet_fresh, quiet_bind; [by apply quiet_incoming|done].
Qed.

(** At most [cap] SYNs: all tasks are fresh, and the address is not
    registered and one SYN is still allowed, or it is registered; or one task
    has registered it and still holds that SYN. *)
Definition capped (cap : nat) (c : pool) : Prop :=
  (Forall (fresh can) c.1 ∧ ¬ registered can c.2 ∧ (S (syns c.2) ≤ cap)%nat) ∨
  (Forall (fresh can) c.1 ∧ registered can c.2 ∧ (syns c.2 ≤ cap)%nat) ∨
  (registered can c.2 ∧ (S (syns c.2) ≤ cap)%nat ∧
    ∃ i p, c.1 !! i = Some p ∧ armed can p ∧ ∀ j q, c.1 !! j = Some q → j ≠ i → fresh can q).

Lemma capped_bound cap c : capped cap c → (syns c.2 ≤ cap)%nat.
Proof. intros [(_ & _ & ?)|[(_ & _ & ?)|(_ & ? & _)]]; lia. Qed.

(** Replacing the task that holds the SYN by a fresh one. *)
Lemma all_fresh_insert i (p : prog World unit) ts :
  (∀ j q, ts !! j = Some q → j ≠ i → fresh can q) → fresh can p →
  Forall (fresh can) (<[i := p]> ts).
Proof.
  intros Hts Hp. apply Forall_lookup. intros j q Hq.
  apply list_lookup_insert_Some in Hq as [(_ & <- & _)|[Hne Hq]]; [done|].
  apply (Hts j q Hq). congruence.
Qed.

(** A fresh task takes a step while the address is registered, or not. *)
Lemma capped_fresh_act cap i B (f : World → B * World) k ts w :
  Forall (fresh can) ts → ts !! i = Some (Act f k) →
  (registered can w ∧ (syns w ≤ cap)%nat) ∨ (¬ registered can w ∧ (S (syns w) ≤ cap)%nat) →
  capped cap (<[i := k (f w).1]> ts, (f w).2).
Proof.
  intros Hts Hi Hw. pose proof (Forall_lookup_1 _ _ _ _ Hts Hi) as (Hs & Hk & Hp).
  specialize (Hs w). specialize (Hk w). unfold capped. cbn [fst snd]. rewrite Hs.
  destruct (Hp w) as [Hf|(Hnr & Hr & Ha)].
  - assert (Forall (fresh can) (<[i := k (f w).1]> ts)) by (by apply Forall_insert).
    destruct (decide (is_Some ((f w).2.(sessions) !! can))) as [Hr|Hr].
    + right. left. split_and!; [done|done|]. destruct Hw as [[_ ?]|[_ ?]]; lia.
    + left. split_and!; [done|done|]. destruct Hw as [[? _]|[_ ?]]; [|done].
      exfalso. apply Hr. by apply Hk.
  - destruct Hw as [[? _]|[_ ?]]; [done|]. right. right. split_and!; [done|done|].
    exists i, (k (f w).1).
    split_and!; [by apply list_lookup_insert_eq, lookup_lt_Some with (Act f k)|done|].
    intros j q Hq Hne. rewrite list_lookup_insert_ne in Hq by congruence.
    by apply (Forall_lookup_1 _ _ _ _ Hts Hq).
Qed.

Lemma capped_armed_act cap i B (f : World → B * World) k ts w :
  ts !! i = Some (Act f k) → armed can (Act f k) →
  (∀ j q, ts !! j = Some q → j ≠ i → fresh can q) →
  registered can w → (S (syns w) ≤ cap)%nat →
  capped cap (<[i := k (f w).1]> ts, (f w).2).
Proof.
  intros Hi [Hk Ha] Hts Hr Hc. specialize (Hk w Hr). unfold capped. cbn [fst snd].
  destruct (Ha w) as [[Hs Ha']|[Hs Hq]].
  - right. right. rewrite Hs. split_and!; [done|done|]. exists i, (k (f w).1).
    split_and!; [by apply list_lookup_insert_eq, lookup_lt_Some with (Act f k)|done|].
    intros j q Hq Hne. rewrite list_lookup_insert_ne in Hq by congruence. by apply (Hts j).
  - right. left. split_and!; [|done|lia]. by apply all_fresh_insert, quiet_fresh.
Qed.

Lemma capped_other_act cap i j B (f : World → B * World) k ts w p :
  ts !! i = Some (Act f k) → ts !! j = Some p → j ≠ i → armed can p →
  (∀ j' q, ts !! j' = Some q → j' ≠ j → fresh can q) →
  registered can w → (S (syns w) ≤ cap)%nat →
  capped cap (<[i := k (f w).1]> ts, (f w).2).
Proof.
  intros Hi Hj Hne Ha Hts Hr Hc. destruct (Hts i _ Hi (not_eq_sym Hne)) as (Hs & Hk & Hp).
  right. right. cbn [fst snd]. rewrite (Hs w). split_and!; [by apply Hk|done|].
  exists j, p. split_and!; [by rewrite list_lookup_insert_ne|done|].
  intros j' q Hq Hne'. apply list_lookup_insert_Some in Hq as [(_ & <- & _)|[? Hq]].
  - by destruct (Hp w) as [?|(? & _)].
  - by apply (Hts j').
Qed.

Lemma capped_step cap c c' : pool_step sender c c' → capped cap c → capped cap c'.
Proof.
  intros [i B f k ts w Hi|p ts w Hp|i ts w] Hc.
  - destruct Hc as [(Hf & Hr & Hc)|[(Hf & Hr & Hc)|(Hr & Hc & j & p & Hj & Ha & Hts)]];
      cbn [fst snd] in *; [eapply capped_fresh_act; eauto..|].
    destruct (decide (j = i)) as [->|Hne]; [|by eapply capped_other_act].
    assert (p = Act f k) as -> by congruence. by eapply capped_armed_act.
  - apply sender_fresh in Hp.
    destruct Hc as [(Hf & Hr & Hc)|[(Hf & Hr & Hc)|(Hr & Hc & j & q & Hj & Ha & Hts)]];
      cbn [fst snd] in *.
    + left. split_and!; [|done|done]. apply Forall_app. by repeat constructor.
    + right. left. split_and!; [|done|done]. apply Forall_app. by repeat constructor.
    + right. right. split_and!; [done|done|]. exists j, q. cbn [fst].
      split_and!; [by apply lookup_app_l_Some|done|].
      intros j' q' [Hq'|[_ Hq']]%lookup_app_Some Hne; [by apply (Hts j')|].
      apply list_lookup_singleton_Some in Hq' as [_ <-]. done.
  - destruct Hc as [(Hf & Hr & Hc)|[(Hf & Hr & Hc)|(Hr & Hc & j & q & Hj & Ha & Hts)]];
      cbn [fst snd] in *.
    + left. split_and!; [|done|done]. by apply Forall_insert.
    + right. left. split_and!; [|done|done]. by apply Forall_insert.
    + destruct (decide (j = i)) as [->|Hne].
      { right. left. split_and!; [by apply all_fresh_insert|done|cbn; lia]. }
      right. right. split_and!; [done|done|]. exists j, q. cbn [fst].
      split_and!; [by rewrite list_lookup_insert_ne|done|].
      intros j' q' Hq' Hne'. apply list_lookup_insert_Some in Hq' as [(_ & <- & _)|[_ Hq']];
        [done|by apply (Hts j')].
Qed.

(** C16. However many sends to one peer run concurrently, under whatever of its
    addresses, interleaved with each other, with receives, with a shutdown
    and with incoming packets other than RESETs, and dropped at any point:
    together they put at most one SYN on the wire, and none if the peer
    already had a session. *)
Theorem concurrent_sends_one_syn w ts w' :
  pool_reach sender ([], w) (ts, w') →
  (syns w' ≤ syns w + if decide (is_Some (w.(sessions) !! can)) then 0 else 1)%nat.
Proof.
  intros Hr. set (cap := (syns w + if decide (is_Some (w.(sessions) !! can)) then 0 else 1)%nat).
  apply (capped_bound cap (ts, w')).
  assert (Hgen : ∀ c c', pool_reach sender c c' → capped cap c → capped cap c').
  { induction 1; eauto using capped_step. }
  apply (Hgen _ _ Hr). unfold cap, capped, registered. cbn [fst snd].
  destruct (decide _); [right; left|left]; (split_and!; [constructor|done|lia]).
Qed.
End Pools.

(** Two sends to [addr_b] that both miss in the map before either inserts: the
    second insertion finds the session of the first. *)
Definition two_sends : list (prog (@World toy_lib) unit) :=
  [task_prog (os := toy_os addr_a) toy_node (TSend addr_b [1]);
   task_prog (os := toy_os addr_a) toy_node (TSend addr_b [2])].

Lemma two_sends_reach l :
  pool_reach (sender (os := toy_os addr_a) toy_node (canonicalize addr_b))
    ([], KcpPeer.empty_world) (schedule l (two_sends, KcpPeer.empty_world)).
Proof.
  unfold pool_reach. etransitivity; [|apply schedule_reach].
  apply (pool_spawn_all _ two_sends []). repeat constructor; by eexists (TSend addr_b _).
Qed.

(** Both look the address up, twice, before either inserts. *)
Definition race : list nat := concat (replicate 12 [0; 1]%nat).

Lemma concurrent_sends_one_syn_witness :
  (syns (K := toy_lib) (schedule race (two_sends, KcpPeer.empty_world)).2 ≤ 1)%nat ∧
  length (schedule race (two_sends, KcpPeer.empty_world)).2.(sent) = 1%nat.
Proof.
  split; [|vm_compute; reflexivity].
  pose proof (two_sends_reach race) as H.
  destruct (schedule race (two_sends, KcpPeer.empty_world)) as [ts w'].
  exact (concurrent_sends_one_syn (os := toy_os addr_a) toy_node (canonicalize addr_b)
    KcpPeer.empty_world ts w' H).
Defined.
