(* ===== verification/Effects.v ===== *)
(** * What a KCP call can do to the world

    KCP is opaque, but the only things a call through [Session::inner] can
    change are the KCP state of that session and what its output adapter
    writes: frames of type [KcpData], to the session's peer.  [kio_trace] says
    exactly which, and [kcp_effect] is the frame condition that follows. *)

From S2P Require Import Prelude Prog Packet Kcp Addr Errors Config World Session Transport.
From S2P Require Import Incoming.
Open Scope prog_scope.

Section Effects.
Context {K : KcpLib} {os : Os}.

(** A datagram that carries a KCP frame to [p]. *)
Definition kcp_datagram (p : SocketAddr) (d : Datagram) : Prop :=
  d.(dg_to) = p ∧ ∃ frame, d.(dg_bytes) = encode_kcp_data frame.

(** [w'] is [w] up to the KCP state of [s] (whose session is [σ] in [w]),
    frames sent to its peer, and clock readings. *)
Definition kcp_effect (s : nat) (w w' : World) : Prop :=
  ∀ σ, w.(heap) !! s = Some σ →
  (∃ k o ds, o.(out_peer) = σ.(inner).(output).(out_peer) ∧
    w'.(heap) = <[s := upd_inner (set_kcp k o) σ]> w.(heap) ∧
    w'.(sent) = w.(sent) ++ ds ∧
    Forall (kcp_datagram σ.(inner).(output).(out_peer)) ds) ∧
  w'.(next) = w.(next) ∧ w'.(sessions) = w.(sessions) ∧ w'.(events) = w.(events) ∧
  w'.(pending) = w.(pending) ∧ w'.(notified) = w.(notified) ∧
  w'.(cancelled) = w.(cancelled) ∧ w'.(nrand) = w.(nrand).

#[export] Instance kcp_effect_preorder s : PreOrder (kcp_effect s).
Proof.
  split.
  - intros w σ Hσ. split_and!; [|done..].
    exists σ.(inner).(kcp), σ.(inner).(output), []. split_and!; [done| |by rewrite app_nil_r|done].
    rewrite insert_id; [done|]. rewrite Hσ. by destruct σ as [[] ? ? ? ? ?].
  - intros w1 w2 w3 H12 H23 σ Hσ.
    destruct (H12 σ Hσ) as ((k & o & ds & Ho & Hh & Hs & Hds) & ? & ? & ? & ? & ? & ? & ?).
    destruct (H23 (upd_inner (set_kcp k o) σ)) as
      ((k' & o' & ds' & Ho' & Hh' & Hs' & Hds') & ? & ? & ? & ? & ? & ? & ?).
    { rewrite Hh. apply lookup_insert_eq. }
    cbn in *. split_and!; try congruence.
    exists k', o', (ds ++ ds'). split_and!; [congruence| | |].
    + by rewrite Hh', Hh, insert_insert_eq.
    + by rewrite Hs', Hs, app_assoc.
    + rewrite Ho in Hds'. by apply Forall_app.
Qed.

Lemma kcp_effect_clock s w : kcp_effect s w (tick_clock w).
Proof.
  intros σ Hσ. destruct (kcp_effect_preorder s) as [Hr _]. exact (Hr w σ Hσ).
Qed.

(** ** KCP computations, without the node

    The reference semantics of a KCP computation whose frames go to [peer], as
    the sends number [n], [n+1], ...: its result and the datagrams. *)

(** What KCP is told about a frame, given the result of the send. *)
Definition write_answer (frame : bytes) (r : Result Z IoError) : Result Z IoError :=
  match r with
  | Ok n => Ok (saturating_sub n 1)
  | Err e => if decide (e.(kind) = WouldBlock) then Ok (Z.of_nat (length frame)) else Err e
  end.

Fixpoint kio_trace {A} (peer : SocketAddr) (n : nat) (p : kio A) : A * list Datagram :=
  match p with
  | KRet a => (a, [])
  | KWrite frame k =>
      let buf := encode_kcp_data frame in
      let r := os_send n buf peer in
      let x := kio_trace peer (S n) (k (write_answer frame r)) in
      (x.1, MkDatagram peer buf r :: x.2)
  end.

(** [update] and then [flush], whatever [update] says ... *)
Definition update_and_flush (peer : SocketAddr) (n : nat) (t : Z) (k : kcp_t) :
    kcp_t * list Datagram :=
  let x := kio_trace peer n (kcp_update t k) in
  let y := kio_trace peer (n + length x.2) (kcp_flush x.1.1) in
  (y.1.1, x.2 ++ y.2).

(** ... and only if [update] succeeds. *)
Definition update_then_flush (peer : SocketAddr) (n : nat) (t : Z) (k : kcp_t) :
    (kcp_t * Result unit kcp_error) * list Datagram :=
  let x := kio_trace peer n (kcp_update t k) in
  match x.1.2 with
  | Err _ => x
  | Ok _ =>
      let y := kio_trace peer (n + length x.2) (kcp_flush x.1.1) in
      (y.1, x.2 ++ y.2)
  end.

Definition add_sent (ds : list Datagram) (w : World) : World :=
  MkWorld w.(heap) w.(next) w.(sessions) w.(events) w.(pending) w.(notified)
    w.(cancelled) (w.(sent) ++ ds) w.(nclock) w.(nrand).

Lemma kio_trace_frames {A} peer n (p : kio A) :
  Forall (kcp_datagram peer) (kio_trace peer n p).2.
Proof.
  revert n. induction p as [a|frame k IH]; intros n; cbn [kio_trace snd]; constructor; [|apply IH].
  split; [done|]. by exists frame.
Qed.

(** ** The output adapter *)

Lemma run_write o frame w :
  run (DirectOutput.write o frame) w =
    ((MkDirectOutput o.(out_peer) (encode_kcp_data frame),
      write_answer frame (send_result w (encode_kcp_data frame) o.(out_peer))),
     push_sent (MkDatagram o.(out_peer) (encode_kcp_data frame)
       (send_result w (encode_kcp_data frame) o.(out_peer))) w).
Proof. done. Qed.

(** The adapter implements the reference semantics. *)
Lemma run_kio_trace {A} (p : kio A) o w :
  let x := kio_trace o.(out_peer) (length w.(sent)) p in
  ∃ o', o'.(out_peer) = o.(out_peer) ∧
    run (DirectOutput.run_kio o p) w = ((x.1, o'), add_sent x.2 w).
Proof.
  cbn zeta. revert o w. induction p as [a|frame k IH]; intros o w; cbn [DirectOutput.run_kio].
  - exists o. split; [done|]. cbn. unfold add_sent. rewrite app_nil_r. by destruct w.
  - rewrite run_bind, run_write. cbn [fst snd kio_trace].
    match goal with |- context [run (DirectOutput.run_kio ?o' (k ?r)) (push_sent ?d w)] =>
      destruct (IH r o' (push_sent d w)) as (o2 & Ho & Hrun) end.
    exists o2. split; [exact Ho|]. rewrite Hrun. cbn [sent push_sent out_peer].
    rewrite length_app, Nat.add_comm. cbn [length Nat.add]. f_equal.
    unfold add_sent. cbn. by rewrite <- app_assoc.
Qed.

(** A call of a session's KCP, exactly. *)
Definition kcp_state (k : kcp_t) (o : DirectOutput) (σ : Session) : Session :=
  upd_inner (set_kcp k o) σ.

Lemma run_kcp_call {A} s (op : kcp_t → kio (kcp_t * Result A kcp_error)) σ w :
  w.(heap) !! s = Some σ →
  let x := kio_trace σ.(inner).(output).(out_peer) (length w.(sent)) (op σ.(inner).(kcp)) in
  ∃ o, o.(out_peer) = σ.(inner).(output).(out_peer) ∧
    run (Session.kcp_call s op) w =
      (map_err Kcp x.1.2, upd_heap (<[s := kcp_state x.1.1 o σ]>) (add_sent x.2 w)).
Proof.
  intros Hσ. cbn zeta. unfold Session.kcp_call, load. autorewrite with run. cbn [fst snd].
  rewrite (lookup_total_correct _ _ _ Hσ).
  destruct (run_kio_trace (op σ.(inner).(kcp)) σ.(inner).(output) w) as (o & Ho & ->).
  exists o. split; [exact Ho|]. unfold store. autorewrite with run. cbn [fst snd]. f_equal.
  unfold upd_heap. cbn. f_equal. by apply alter_Some.
Qed.

Lemma kcp_call_effect {A} s (op : kcp_t → kio (kcp_t * Result A kcp_error)) w :
  kcp_effect s w (run (Session.kcp_call s op) w).2.
Proof.
  intros σ Hσ. destruct (run_kcp_call s op σ w Hσ) as (o & Ho & ->). cbn [snd].
  split_and!; [|done..]. eexists _, o, _. split_and!; [exact Ho|done|done|].
  apply kio_trace_frames.
Qed.

Lemma kcp_effect_live s w w' :
  kcp_effect s w w' → is_Some (w.(heap) !! s) → is_Some (w'.(heap) !! s).
Proof.
  intros H [σ Hσ]. destruct (H σ Hσ) as ((k & o & ds & _ & -> & _) & _).
  rewrite lookup_insert_eq. eauto.
Qed.

(** A later KCP state of the same session replaces an earlier one. *)
Lemma kcp_state_twice k k' o o' σ : kcp_state k' o' (kcp_state k o σ) = kcp_state k' o' σ.
Proof. done. Qed.

Lemma stored_twice s σ σ' ds ds' w :
  upd_heap (<[s := σ']>) (add_sent ds' (upd_heap (<[s := σ]>) (add_sent ds w))) =
    upd_heap (<[s := σ']>) (add_sent (ds ++ ds') w).
Proof.
  unfold upd_heap, add_sent. cbn. by rewrite insert_insert_eq, <- app_assoc.
Qed.

(** Two KCP calls of one session in a row. *)
Lemma run_kcp_call_after {A} s (op : kcp_t → kio (kcp_t * Result A kcp_error)) k o σ ds w :
  o.(out_peer) = σ.(inner).(output).(out_peer) →
  let x := kio_trace σ.(inner).(output).(out_peer) (length w.(sent) + length ds) (op k) in
  ∃ o', o'.(out_peer) = σ.(inner).(output).(out_peer) ∧
    run (Session.kcp_call s op) (upd_heap (<[s := kcp_state k o σ]>) (add_sent ds w)) =
      (map_err Kcp x.1.2, upd_heap (<[s := kcp_state x.1.1 o' σ]>) (add_sent (ds ++ x.2) w)).
Proof.
  intros Ho. cbn zeta. set (w1 := upd_heap _ _).
  destruct (run_kcp_call s op (kcp_state k o σ) w1) as (o' & Ho' & Hrun);
    [apply lookup_insert_eq|].
  cbn [kcp_state upd_inner inner set_kcp output kcp] in *. rewrite Ho in *.
  exists o'. split; [congruence|]. rewrite Hrun. unfold w1. rewrite stored_twice.
  cbn [sent upd_heap add_sent]. by rewrite length_app, kcp_state_twice.
Qed.

(** The flush of the queued data, exactly. *)
Lemma run_flush_queued s σ w :
  w.(heap) !! s = Some σ →
  let x := update_and_flush σ.(inner).(output).(out_peer) (length w.(sent))
             (current_ms_of (os_elapsed w.(nclock))) σ.(inner).(kcp) in
  ∃ o, o.(out_peer) = σ.(inner).(output).(out_peer) ∧
    run (flush_queued s) w =
      (tt, upd_heap (<[s := kcp_state x.1 o σ]>) (add_sent x.2 (tick_clock w))).
Proof.
  intros Hσ. cbn zeta. unfold flush_queued, current_ms. rewrite run_bind, run_act. cbn [fst snd].
  rewrite run_bind. set (t := current_ms_of _).
  destruct (run_kcp_call s (kcp_update t) σ (tick_clock w) Hσ) as (o & Ho & ->).
  unfold update_and_flush. cbn [sent tick_clock].
  set (x := kio_trace _ _ (kcp_update t _)). destruct x as [[k r] ds]. cbn [fst snd].
  destruct (run_kcp_call_after s kcp_flush k o σ ds (tick_clock w) Ho) as (o' & Ho' & Hrun).
  exists o'. split; [done|]. by rewrite run_bind, Hrun.
Qed.

(** The same when the error of [update] ends it. *)
Lemma run_update_flush s σ w :
  w.(heap) !! s = Some σ →
  let x := update_then_flush σ.(inner).(output).(out_peer) (length w.(sent))
             (current_ms_of (os_elapsed w.(nclock))) σ.(inner).(kcp) in
  ∃ o, o.(out_peer) = σ.(inner).(output).(out_peer) ∧
    run (Session.update_flush s) w =
      (map_err Kcp x.1.2, upd_heap (<[s := kcp_state x.1.1 o σ]>) (add_sent x.2 (tick_clock w))).
Proof.
  intros Hσ. cbn zeta. unfold Session.update_flush, bind_result, current_ms.
  rewrite run_bind, run_act. cbn [fst snd]. rewrite run_bind. set (t := current_ms_of _).
  destruct (run_kcp_call s (kcp_update t) σ (tick_clock w) Hσ) as (o & Ho & ->).
  unfold update_then_flush. cbn [sent tick_clock].
  set (x := kio_trace _ _ (kcp_update t _)). destruct x as [[k [[]|e]] ds]; cbn [fst snd map_err].
  - destruct (run_kcp_call_after s kcp_flush k o σ ds (tick_clock w) Ho) as (o' & Ho' & Hrun).
    exists o'. split; [done|]. by rewrite Hrun.
  - by exists o.
Qed.

(** The transition to [Established], exactly. *)
Definition established (t : Z) (σ : Session) : Session :=
  set_last_rx t (upd_inner (set_state Established) σ).

Lemma run_establish_step s σ w :
  w.(heap) !! s = Some σ →
  let x := update_and_flush σ.(inner).(output).(out_peer) (length w.(sent))
             (current_ms_of (os_elapsed (S w.(nclock)))) σ.(inner).(kcp) in
  ∃ o, o.(out_peer) = σ.(inner).(output).(out_peer) ∧
    run (establish s) w =
      (tt, upd_heap (<[s := kcp_state x.1 o (established (epoch_ms_of (os_elapsed w.(nclock))) σ)]>)
             (add_sent x.2 (tick_clock (tick_clock w)))).
Proof.
  intros Hσ. cbn zeta. unfold establish, store, epoch_ms. autorewrite with run. cbn [fst snd].
  set (w1 := upd_heap _ (tick_clock _)).
  assert (Hh : w1.(heap) = <[s := established (epoch_ms_of (os_elapsed w.(nclock))) σ]> w.(heap)).
  { unfold w1. cbn. by rewrite (alter_Some _ _ _ _ Hσ), alter_insert_eq. }
  destruct (run_flush_queued s (established (epoch_ms_of (os_elapsed w.(nclock))) σ) w1)
    as (o & Ho & Hrun); [rewrite Hh; apply lookup_insert_eq|].
  exists o. split; [exact Ho|]. rewrite Hrun. f_equal. unfold upd_heap, add_sent, tick_clock.
  cbn [heap next sessions events pending notified cancelled sent nclock nrand]. f_equal.
  change (alter _ s _) with w1.(heap). rewrite Hh. apply insert_insert_eq.
Qed.
End Effects.
