(* ===== verification/SessionSpec.v ===== *)
(** * What the session operations do (src/src/session.rs)

    The functional behaviour of every operation of [Session] on every branch,
    as the result and the exact final world of its run. *)

From S2P Require Import Prelude Prog Packet Kcp Addr Errors Config World Session Transport.
From S2P Require Import Incoming Effects Toy.
Open Scope prog_scope.

Section Lookups.
Context {K : KcpLib} {os : Os}.

(** Reading a live session. *)
Lemma run_load {A} s (f : Session → A) σ w :
  w.(heap) !! s = Some σ → run (load s f) w = (f σ, w).
Proof. intros H. unfold load. by rewrite run_get, (lookup_total_correct _ _ _ H). Qed.

Lemma run_load_bind {A B} s (f : Session → A) (k : A → prog World B) σ w :
  w.(heap) !! s = Some σ → run (bind (load s f) k) w = run (k (f σ)) w.
Proof. intros H. by rewrite run_bind, (run_load s f σ w H). Qed.
(** A store to a session whose state is known. *)
Lemma upd_heap_alter s (f : Session → Session) σ w :
  w.(heap) !! s = Some σ → upd_heap (alter f s) w = upd_heap (<[s := f σ]>) w.
Proof. intros H. unfold upd_heap. by rewrite (alter_Some _ _ _ _ H). Qed.
Lemma run_store_bind {A} s (f : Session → Session) (k : unit → prog World A) σ w :
  w.(heap) !! s = Some σ →
  run (bind (store s f) k) w = run (k tt) (upd_heap (<[s := f σ]>) w).
Proof.
  intros H. unfold store. rewrite run_bind, run_modify. cbn [fst snd].
  by rewrite (upd_heap_alter _ _ _ _ H).
Qed.
End Lookups.

(** Step through the loads of a session whose state is known. *)
Ltac loads :=
  repeat match goal with
  | H : heap ?w !! ?s = Some ?σ |- context [run (bind (load ?s ?f) ?k) ?w] =>
      rewrite (run_load_bind s f k σ w H); cbv beta
  | H : heap ?w !! ?s = Some ?σ |- context [run (load ?s ?f) ?w] =>
      rewrite (run_load s f σ w H)
  end.

Section SessionSpec.
Context {K : KcpLib} {L : @KcpLaws K} {os : Os}.

(** A KCP call that writes nothing is a store of the new KCP state. *)
Lemma run_kcp_call_quiet {A} s (op : kcp_t → kio (kcp_t * Result A kcp_error)) σ w k r :
  w.(heap) !! s = Some σ → op σ.(inner).(kcp) = KRet (k, r) →
  run (Session.kcp_call s op) w =
    (map_err Kcp r, upd_heap (<[s := upd_inner (set_kcp k σ.(inner).(output)) σ]>) w).
Proof.
  intros Hσ Hop. unfold Session.kcp_call. loads. rewrite Hop. cbn.
  by rewrite (upd_heap_alter s _ σ w Hσ).
Qed.

Lemma run_kcp_call_result {A} s (op : kcp_t → kio (kcp_t * Result A kcp_error)) w :
  ∃ r, (run (Session.kcp_call s op) w).1 = map_err Kcp r.
Proof.
  unfold Session.kcp_call, load, store. autorewrite with run. cbn [fst snd]. by eexists.
Qed.

Lemma run_update_flush_result s w :
  ∃ r, (run (Session.update_flush s) w).1 = map_err Kcp r.
Proof.
  unfold Session.update_flush, bind_result, current_ms. rewrite run_bind, run_act.
  cbn [fst snd]. rewrite run_bind.
  match goal with |- context [run (Session.kcp_call s (kcp_update ?t)) ?w1] =>
    destruct (run_kcp_call_result s (kcp_update t) w1) as [r ->] end.
  destruct r as [[]|e]; cbn [map_err]; [apply run_kcp_call_result|by exists (Err e)].
Qed.

(** The session after a KCP call that wrote nothing. *)
Definition with_kcp (k : kcp_t) (σ : Session) : Session :=
  upd_inner (set_kcp k σ.(inner).(output)) σ.

(** C30. The output adapter puts each KCP frame on the wire as one datagram to
    the session's peer: the frame behind the data type byte, from which
    [split_packet] recovers it. KCP is told that the whole frame was written
    both when the datagram was sent and when the socket would have blocked
    (the frame is dropped); it is told of every other error. *)
Theorem write_spec o frame w :
  let buf := encode_kcp_data frame in
  let r := send_result w buf o.(out_peer) in
  let x := run (DirectOutput.write o frame) w in
  x.2 = push_sent (MkDatagram o.(out_peer) buf r) w ∧
  split_packet buf = Some (KcpData, frame) ∧
  x.1.1.(out_peer) = o.(out_peer) ∧
  match r with
  | Ok n =>
      x.1.2 = Ok (Z.max 0 (n - 1)) ∧
      (n = Z.of_nat (length buf) → x.1.2 = Ok (Z.of_nat (length frame)))
  | Err e =>
      x.1.2 = if decide (e.(kind) = WouldBlock) then Ok (Z.of_nat (length frame)) else Err e
  end.
Proof.
  cbn zeta. unfold DirectOutput.write, try_send_to, send_to.
  change ([PacketType_as_u8 KcpData] ++ frame) with (encode_kcp_data frame).
  rewrite run_bind, run_act. cbn [fst snd run out_peer].
  split_and!; [done|done|done|]. destruct (send_result _ _ _) as [n|e]; [|done].
  split; [done|]. intros ->. unfold saturating_sub, encode_kcp_data.
  rewrite length_app. cbn [length]. do 2 f_equal. lia.
Qed.

Lemma send_data_run s data σ w :
  w.(heap) !! s = Some σ →
  (σ.(closed) = true → run (Session.send_data s data) w = (Err SessionClosed, w)) ∧
  (σ.(closed) = false → kcp_is_dead_link σ.(inner).(kcp) = true →
    run (Session.send_data s data) w = (Err DeadLink, w)) ∧
  (σ.(closed) = false → kcp_is_dead_link σ.(inner).(kcp) = false →
    ∃ k r, kcp_send data σ.(inner).(kcp) = KRet (k, r) ∧
      match r, σ.(inner).(state) with
      | Err e, _ =>
          run (Session.send_data s data) w =
            (Err (Kcp e), upd_heap (<[s := with_kcp k σ]>) w)
      | Ok _, SynSent =>
          run (Session.send_data s data) w = (Ok tt, upd_heap (<[s := with_kcp k σ]>) w)
      | Ok _, Established =>
          let x := update_then_flush σ.(inner).(output).(out_peer) (length w.(sent))
                     (current_ms_of (os_elapsed w.(nclock))) k in
          ∃ o, o.(out_peer) = σ.(inner).(output).(out_peer) ∧
            run (Session.send_data s data) w =
              (map_err Kcp x.1.2,
               upd_heap (<[s := kcp_state x.1.1 o σ]>) (add_sent x.2 (tick_clock w)))
      end).
Proof.
  intros Hσ. unfold Session.send_data. split_and!.
  - intros Hc. loads. by rewrite Hc.
  - intros Hc Hd. loads. rewrite Hc, run_atomic. loads. by rewrite Hd.
  - intros Hc Hd. destruct (kcp_send_quiet data σ.(inner).(kcp)) as (k & r & Hr).
    exists k, r. split; [done|]. loads. rewrite Hc, run_atomic. loads. rewrite Hd.
    unfold bind_result. rewrite run_bind.
    rewrite (run_kcp_call_quiet s _ σ w k r Hσ Hr). cbn [fst snd].
    set (w1 := upd_heap _ w).
    assert (Hσ1 : w1.(heap) !! s = Some (with_kcp k σ)) by apply lookup_insert_eq.
    destruct r as [n|e]; cbn [map_err]; [|done]. loads. cbn [with_kcp upd_inner set_kcp inner state].
    destruct (state (inner σ)); [done|]. cbv zeta.
    destruct (run_update_flush s (with_kcp k σ) w1 Hσ1) as (o & Ho & Hrun).
    exists o. split; [exact Ho|]. rewrite Hrun. unfold w1.
    unfold upd_heap, add_sent, tick_clock. cbn. by rewrite insert_insert_eq.
Qed.

(** C25. [send_data] on every branch: a closed session refuses with
    [SessionClosed], a dead one with [DeadLink], both without any effect;
    while the handshake is in progress the data is queued in KCP and nothing
    is sent; once established KCP is updated and flushed, and the session's
    KCP state, the datagrams sent to its peer and the error are exactly those
    of the reference semantics. No other error is possible. *)
Theorem send_data_spec s data σ w :
  w.(heap) !! s = Some σ →
  (σ.(closed) = true → run (Session.send_data s data) w = (Err SessionClosed, w)) ∧
  (σ.(closed) = false → kcp_is_dead_link σ.(inner).(kcp) = true →
    run (Session.send_data s data) w = (Err DeadLink, w)) ∧
  (σ.(closed) = false → kcp_is_dead_link σ.(inner).(kcp) = false →
    ∃ k r, kcp_send data σ.(inner).(kcp) = KRet (k, r) ∧
      match r, σ.(inner).(state) with
      | Err e, _ =>
          run (Session.send_data s data) w =
            (Err (Kcp e), upd_heap (<[s := with_kcp k σ]>) w)
      | Ok _, SynSent =>
          run (Session.send_data s data) w = (Ok tt, upd_heap (<[s := with_kcp k σ]>) w)
      | Ok _, Established =>
          let x := update_then_flush σ.(inner).(output).(out_peer) (length w.(sent))
                     (current_ms_of (os_elapsed w.(nclock))) k in
          ∃ o, o.(out_peer) = σ.(inner).(output).(out_peer) ∧
            run (Session.send_data s data) w =
              (map_err Kcp x.1.2,
               upd_heap (<[s := kcp_state x.1.1 o σ]>) (add_sent x.2 (tick_clock w)))
      end).
Proof. apply send_data_run. Qed.

Lemma run_update s now σ w :
  w.(heap) !! s = Some σ →
  let r := run (Session.update s now) w in
  (σ.(inner).(state) = SynSent → r = (Ok (kcp_wait_snd σ.(inner).(kcp)), w)) ∧
  (σ.(inner).(state) = Established → kcp_is_dead_link σ.(inner).(kcp) = true →
    r = (Err DeadLink, w)) ∧
  (σ.(inner).(state) = Established → kcp_is_dead_link σ.(inner).(kcp) = false →
    let x := kio_trace σ.(inner).(output).(out_peer) (length w.(sent))
               (kcp_update now σ.(inner).(kcp)) in
    ∃ o, o.(out_peer) = σ.(inner).(output).(out_peer) ∧
      r = (match x.1.2 with
           | Err e => Err (Kcp e)
           | Ok _ => if kcp_is_dead_link x.1.1 then Err DeadLink else Ok (kcp_wait_snd x.1.1)
           end, upd_heap (<[s := kcp_state x.1.1 o σ]>) (add_sent x.2 w))).
Proof.
  intros Hσ r. unfold r, Session.update. rewrite run_atomic. loads. split_and!.
  - intros ->. by loads.
  - intros -> Hd. loads. by rewrite Hd.
  - intros -> Hd. loads. rewrite Hd. unfold bind_result. rewrite run_bind.
    cbv zeta. destruct (run_kcp_call s (kcp_update now) σ w Hσ) as (o & Ho & ->).
    exists o. split; [done|]. set (x := kio_trace _ _ _). destruct x as [[k [[]|e]] ds];
      cbn [fst snd map_err]; [|done].
    set (w1 := upd_heap _ _).
    assert (Hσ1 : w1.(heap) !! s = Some (kcp_state k o σ)) by apply lookup_insert_eq.
    loads. cbn [kcp_state upd_inner inner set_kcp kcp].
    destruct (kcp_is_dead_link k); [done|]. by loads.
Qed.

(** [update]: a session still in its handshake is left alone and its
    queue length is returned; an established one whose link is dead, before
    or after the KCP update, reports [DeadLink]; otherwise the KCP error or
    the queue length. What the update changes and sends is exactly what the
    reference semantics of KCP's [update] says. *)
Theorem update_spec s now σ w :
  w.(heap) !! s = Some σ →
  let r := run (Session.update s now) w in
  (σ.(inner).(state) = SynSent → r = (Ok (kcp_wait_snd σ.(inner).(kcp)), w)) ∧
  (σ.(inner).(state) = Established → kcp_is_dead_link σ.(inner).(kcp) = true →
    r = (Err DeadLink, w)) ∧
  (σ.(inner).(state) = Established → kcp_is_dead_link σ.(inner).(kcp) = false →
    let x := kio_trace σ.(inner).(output).(out_peer) (length w.(sent))
               (kcp_update now σ.(inner).(kcp)) in
    ∃ o, o.(out_peer) = σ.(inner).(output).(out_peer) ∧
      r = (match x.1.2 with
           | Err e => Err (Kcp e)
           | Ok _ => if kcp_is_dead_link x.1.1 then Err DeadLink else Ok (kcp_wait_snd x.1.1)
           end, upd_heap (<[s := kcp_state x.1.1 o σ]>) (add_sent x.2 w))).
Proof. apply run_update. Qed.

Lemma with_kcp_id σ : with_kcp σ.(inner).(kcp) σ = σ.
Proof. by destruct σ as [[] ? ? ? ? ?]. Qed.

Lemma upd_heap_id s σ w : w.(heap) !! s = Some σ → upd_heap (<[s := σ]>) w = w.
Proof. intros H. unfold upd_heap. rewrite insert_id by done. by destruct w. Qed.

Lemma upd_heap_insert_twice s σ σ' w :
  upd_heap (<[s := σ']>) (upd_heap (<[s := σ]>) w) = upd_heap (<[s := σ']>) w.
Proof. unfold upd_heap. cbn. f_equal. apply insert_insert_eq. Qed.

(** What holds of a KCP state and is not destroyed by receiving. *)
Definition recv_stable (P : kcp_t → Prop) : Prop :=
  ∀ buf k k' m n, P k → kcp_recv buf k = KRet (k', m, Ok n) → P k'.

(** The drain loop with enough fuel receives every ready message in order. *)
Lemma run_recv_loop P fuel s out σ w :
  recv_stable P → P σ.(inner).(kcp) →
  w.(heap) !! s = Some σ → (length (kcp_ready σ.(inner).(kcp)) ≤ fuel)%nat →
  ∃ k, kcp_ready k = [] ∧ P k ∧
    run (Session.recv_loop fuel s out) w =
      ((out ++ kcp_ready σ.(inner).(kcp), Ok tt), upd_heap (<[s := with_kcp k σ]>) w).
Proof.
  intros HP. remember (kcp_ready σ.(inner).(kcp)) as q eqn:Hq.
  symmetry in Hq. revert fuel out σ w Hq. induction q as [|m q IH]; intros fuel out σ w Hq Hk Hσ Hf.
  - exists σ.(inner).(kcp). split_and!; [done|done|].
    destruct (kcp_peeksize_nil _ Hq) as [e He].
    rewrite with_kcp_id, upd_heap_id, app_nil_r by done.
    destruct fuel; cbn [Session.recv_loop]; loads; by rewrite He.
  - destruct fuel as [|fuel]; [cbn in Hf; lia|]. cbn [Session.recv_loop]. loads.
    rewrite (kcp_peeksize_cons _ _ _ Hq), Nat2Z.id. cbv zeta. loads.
    destruct (kcp_recv_cons _ m q (replicate (length m) 0) Hq) as (k' & Hk' & Hready & _);
      [by rewrite length_replicate|].
    rewrite Hk'. cbn [DirectOutput.run_kio]. rewrite bind_ret_l. cbn [fst snd].
    unfold store. rewrite run_bind, run_modify. cbn [fst snd].
    rewrite (upd_heap_alter s _ σ w Hσ).
    change (upd_inner (set_kcp k' (output (inner σ))) σ) with (with_kcp k' σ).
    destruct (IH fuel (out ++ [m]) (with_kcp k' σ) (upd_heap (<[s := with_kcp k' σ]>) w))
      as (k & Hk0 & Hd0 & Hrun);
      [done|by eapply HP|apply lookup_insert_eq|cbn in Hf; lia|].
    exists k. split_and!; [done|done|].
    rewrite Hrun, upd_heap_insert_twice, <- app_assoc. done.
Qed.

Lemma run_try_recv_all P s σ w :
  recv_stable P → P σ.(inner).(kcp) → w.(heap) !! s = Some σ →
  ∃ k, kcp_ready k = [] ∧ P k ∧
    run (Session.try_recv_all s) w =
      ((kcp_ready σ.(inner).(kcp), Ok tt), upd_heap (<[s := with_kcp k σ]>) w).
Proof.
  intros HP Hk Hσ. unfold Session.try_recv_all. rewrite run_atomic. loads.
  apply (run_recv_loop P _ s []); [done..|]. by rewrite kcp_nready_spec.
Qed.

(** C29. [try_recv_all] terminates with every message that was ready, in order
    and without an error; afterwards nothing is ready, and nothing but the
    KCP state of the session has changed. *)
Theorem try_recv_all_complete s σ w :
  w.(heap) !! s = Some σ →
  ∃ k, kcp_ready k = [] ∧
    run (Session.try_recv_all s) w =
      ((kcp_ready σ.(inner).(kcp), Ok tt), upd_heap (<[s := with_kcp k σ]>) w).
Proof.
  intros Hσ. destruct (run_try_recv_all (λ _, True) s σ w ltac:(done) I Hσ) as (k & Hk & _ & Hrun).
  by exists k.
Qed.

(** ** The retransmission of SYN *)

(** The effect of a retransmission: the SYN goes out, its time and the
    retry counter are stored. *)
Definition retried (t : Z) (σ : Session) : Session :=
  set_syn_retries (wrapping_add_u32 σ.(syn_retries) 1) (set_syn_sent_at t σ).

Definition retry_world (s : nat) (σ : Session) (w : World) : World :=
  let syn := encode_control Syn σ.(inner).(conv_id) in
  let d := MkDatagram σ.(peer_addr) syn (send_result w syn σ.(peer_addr)) in
  upd_heap (<[s := retried (epoch_ms_of (os_elapsed w.(nclock))) σ]>)
    (tick_clock (push_sent d w)).

Lemma maybe_retry_syn_run s config now σ w :
  w.(heap) !! s = Some σ →
  run (Session.maybe_retry_syn s config now) w =
    if σ.(closed) then (Err SessionClosed, w)
    else if decide (σ.(inner).(state) = Established) then (Ok false, w)
    else if config.(syn_max_retries) <=? σ.(syn_retries) then (Err DeadLink, w)
    else if saturating_sub now σ.(syn_sent_at) <? Session.syn_backoff config σ.(syn_retries)
    then (Ok false, w)
    else (Ok true, retry_world s σ w).
Proof.
  intros Hσ. unfold Session.maybe_retry_syn. loads. destruct (closed σ); [done|]. loads.
  destruct (state (inner σ)) eqn:Hst; [|done].
  rewrite decide_False by done. loads. case_match; [done|]. loads. cbv zeta.
  case_match; [done|]. loads. unfold try_send_to, send_to, epoch_ms, store.
  autorewrite with run. cbn [fst snd]. unfold retry_world. f_equal.
  unfold upd_heap, tick_clock, push_sent. cbn. f_equal.
  by rewrite (alter_Some _ _ _ _ Hσ), alter_insert_eq.
Qed.

(** C26. [maybe_retry_syn] on every branch: refused on a closed session; no
    effect on an established one; [DeadLink] once the retries are used up;
    no effect before the backoff has elapsed; and then exactly one SYN with
    the session's conversation id, the time of the retransmission and the
    counter stored, whether or not the send succeeded. *)
Theorem maybe_retry_syn_spec s config now σ w :
  w.(heap) !! s = Some σ →
  run (Session.maybe_retry_syn s config now) w =
    if σ.(closed) then (Err SessionClosed, w)
    else if decide (σ.(inner).(state) = Established) then (Ok false, w)
    else if config.(syn_max_retries) <=? σ.(syn_retries) then (Err DeadLink, w)
    else if saturating_sub now σ.(syn_sent_at) <? Session.syn_backoff config σ.(syn_retries)
    then (Ok false, w)
    else (Ok true, retry_world s σ w).
Proof.
  apply maybe_retry_syn_run.
Qed.
End SessionSpec.

(** ** The theorems on concrete sessions *)

(** A dead link refuses the data. *)
Lemma send_data_spec_witness :
  run (Session.send_data (os := toy_os addr_a) 0 [1; 2]) (toy_world toy_dead_session) =
    (Err DeadLink, toy_world toy_dead_session).
Proof.
  destruct (send_data_spec (L := toy_laws) (os := toy_os addr_a) 0 [1; 2] toy_dead_session
    (toy_world toy_dead_session) eq_refl) as (_ & H & _).
  apply H; reflexivity.
Defined.

(** A handshake is left alone. *)
Lemma update_spec_witness :
  run (Session.update (os := toy_os addr_a) 0 1500) (toy_world toy_connecting) =
    (Ok 0, toy_world toy_connecting).
Proof.
  exact (proj1 (update_spec (os := toy_os addr_a) 0 1500 toy_connecting
    (toy_world toy_connecting) eq_refl) eq_refl).
Defined.

(** Two ready messages are drained. *)
Lemma try_recv_all_complete_witness :
  (run (Session.try_recv_all (os := toy_os addr_a) 0) (toy_world toy_ready_session)).1 =
    ([[1; 2]; [3]], Ok tt).
Proof.
  destruct (try_recv_all_complete (L := toy_laws) (os := toy_os addr_a) 0 toy_ready_session
    (toy_world toy_ready_session) eq_refl) as (k & _ & ->).
  reflexivity.
Defined.

(** 150 ms after the SYN, the first retransmission is due. *)
Lemma maybe_retry_syn_spec_witness :
  (run (Session.maybe_retry_syn (os := toy_os addr_a) 0 default 1149)
    (toy_world toy_connecting)).1 = Ok false ∧
  (run (Session.maybe_retry_syn (os := toy_os addr_a) 0 default 1150)
    (toy_world toy_connecting)).1 = Ok true.
Proof.
  rewrite !(maybe_retry_syn_spec (os := toy_os addr_a) 0 default _ toy_connecting
    (toy_world toy_connecting) eq_refl).
  split; reflexivity.
Defined.
