(* ===== verification/IncomingSpec.v ===== *)
(** * What an incoming packet does (src/src/transport.rs, [handle_incoming])

    For every packet type and every state of the session it meets: the result
    and the final world of the handler. *)

From S2P Require Import Prelude Prog Packet Kcp Addr Errors Config World Session Transport.
From S2P Require Import Incoming Effects Toy SessionSpec.
From stdpp Require Import strings.
Open Scope Z_scope.
Open Scope prog_scope.

Section IncomingSpec.
Context {K : KcpLib} {os : Os}.

(** The clock reading the next action gets. *)
Definition now_of (w : World) : Z := epoch_ms_of (os_elapsed w.(nclock)).

(** A control packet sent now. *)
Definition control (t : PacketType) (conv : Z) (to : SocketAddr) (w : World) : Datagram :=
  MkDatagram to (encode_control t conv) (send_result w (encode_control t conv) to).

(** C37. A datagram that is empty, has an unknown type, or is a SYN, SYN_ACK
    or RESET without four bytes of conversation id is rejected with
    [InvalidData] and changes nothing. *)
Theorem malformed_rejected data from inc config w :
  match split_packet data with
  | Some (KcpData, _) => False
  | Some (_, payload) => (length payload < 4)%nat
  | None => True
  end →
  ∃ msg, run (handle_incoming data from inc config) w =
    (Err (Io (MkIoError InvalidData msg)), w).
Proof.
  unfold handle_incoming, handle_syn, handle_syn_ack, handle_reset, invalid_data.
  destruct (split_packet data) as [[[] payload]|]; intros Hlen; [done|..];
    rewrite ?decide_True by done; by eexists.
Qed.

(** A well-formed control packet reaches its handler with its id. *)
Lemma handle_control typ data payload from inc config :
  split_packet data = Some (typ, payload) →
  handle_incoming data from inc config =
    match typ with
    | KcpData => handle_kcp_data payload from
    | Syn => handle_syn payload from inc config
    | SynAck => handle_syn_ack payload from
    | Reset => handle_reset payload from
    end.
Proof. intros H. unfold handle_incoming. rewrite H. by destruct typ. Qed.

(** ** SYN *)

(** The world after accepting an inbound session: SYN_ACK sent, a new
    established session registered, [Connected] fired. *)
Definition inbound_session (conv : Z) (from : SocketAddr) (inc : Z) (config : KcpConfig)
    (w : World) : Session :=
  Session.new_session (apply_to config (kcp_new conv)) conv from Established inc (now_of w) 0.

Definition inbound_world (conv : Z) (from : SocketAddr) (inc : Z) (config : KcpConfig)
    (w : World) : World :=
  push_event (Connected from)
    (upd_sessions (<[canonicalize from := w.(next)]>)
      (alloc_session (inbound_session conv from inc config w)
        (tick_clock (push_sent (control SynAck conv from w) w)))).

Lemma run_accept conv from inc config w :
  run (s <- Session.new_inbound conv from inc config ;;
       insert_inbound from s ;; Ret (Ok tt : Result unit Error)) w =
    (Ok tt, inbound_world conv from inc config w).
Proof. done. Qed.

Section Syn.
Context (data payload : bytes) (from me : SocketAddr) (inc : Z) (config : KcpConfig).
Context (Hdata : split_packet data = Some (Syn, payload)) (Hlen : (4 ≤ length payload)%nat).
Context (Hme : os_local_addr = Ok me).
Let conv := payload_conv payload.

Lemma run_handle_syn w :
  run (handle_incoming data from inc config) w =
    let x := run (syn_check conv from me) w in
    let w1 := match x.1.(send_ack_to) with
              | Some peer => push_sent (control SynAck x.1.(ack_conv) peer x.2) x.2
              | None => x.2
              end in
    match x.1.(action) with
    | CreateNew => (Ok tt, inbound_world conv from inc config w1)
    | _ => (Ok tt, w1)
    end.
Proof.
  rewrite (handle_control _ _ _ _ _ _ Hdata). unfold handle_syn.
  rewrite decide_False by lia. cbv zeta. rewrite Hme, run_bind, run_bind.
  fold conv. destruct (run (syn_check conv from me) w) as [[a [p|] c] w1];
    destruct a; done.
Qed.

(** A SYN from an address without a session creates one: established,
    with the SYN's conversation id, registered under the canonical address,
    acknowledged with that id, and announced by [Connected]. *)
Lemma syn_creates_session w :
  w.(sessions) !! canonicalize from = None →
  run (handle_incoming data from inc config) w =
    (Ok tt, inbound_world conv from inc config w).
Proof.
  intros Hs. rewrite run_handle_syn. unfold syn_check, map_get. cbn -[canonicalize inbound_world].
  by rewrite Hs.
Qed.

(** A duplicate SYN (same conversation id) creates nothing and fires
    nothing: an established session is acknowledged again and its receive
    time refreshed; a session that is itself still in its handshake
    ignores it, so that two peers that chose the same id never connect. *)
Lemma syn_duplicate s σ w :
  w.(sessions) !! canonicalize from = Some s → w.(heap) !! s = Some σ →
  σ.(inner).(conv_id) = conv →
  run (handle_incoming data from inc config) w =
    match σ.(inner).(state) with
    | Established =>
        let w1 := upd_heap (<[s := set_last_rx (now_of w) σ]>) (tick_clock w) in
        (Ok tt, push_sent (control SynAck conv from w1) w1)
    | SynSent => (Ok tt, w)
    end.
Proof.
  intros Hs Hσ Hc. rewrite run_handle_syn. unfold syn_check, map_get.
  rewrite run_atomic, run_bind, run_get. cbn [fst snd]. rewrite Hs. loads. cbv zeta.
  rewrite Hc, Z.eqb_refl. destruct (state (inner σ)); [done|].
  unfold store, epoch_ms. autorewrite with run. cbn [fst snd action send_ack_to ack_conv].
  rewrite (upd_heap_alter s _ σ); done.
Qed.

(** A SYN with another conversation id for an established session is
    taken as a restart of the peer: the old session is closed,
    [PeerRestarted] and then [Connected] are fired, and the address is
    rebound to a new established session with the new id. The incarnation
    plays no part. *)
Lemma syn_restarts_session s σ w :
  w.(sessions) !! canonicalize from = Some s → w.(heap) !! s = Some σ →
  σ.(inner).(conv_id) ≠ conv → σ.(inner).(state) = Established →
  run (handle_incoming data from inc config) w =
    (Ok tt, inbound_world conv from inc config
      (push_event (PeerRestarted from) (upd_heap (<[s := set_closed true σ]>) w))).
Proof.
  intros Hs Hσ Hc Hst. rewrite run_handle_syn. unfold syn_check, map_get.
  rewrite run_atomic, run_bind, run_get. cbn [fst snd]. rewrite Hs. loads. cbv zeta.
  rewrite (proj2 (Z.eqb_neq _ _) Hc), Hst. unfold Session.mark_closed, store.
  rewrite run_bind, run_modify. cbn [fst snd].
  by rewrite (upd_heap_alter s _ σ w Hσ).
Qed.

End Syn.

(** [w'] is [w] after session [s] (in state [σ]) completed its handshake
    with conversation [conv]: the id is adopted if it is another, the session
    is established and refreshed, KCP is updated and flushed, and [Connected]
    is fired; nothing else changes. *)
Definition establishes (s : nat) (σ : Session) (conv : Z) (from : SocketAddr)
    (w w' : World) : Prop :=
  let k := if decide (conv = σ.(inner).(conv_id)) then σ.(inner).(kcp)
           else kcp_set_conv conv σ.(inner).(kcp) in
  let x := update_and_flush σ.(inner).(output).(out_peer) (length w.(sent))
             (current_ms_of (os_elapsed (S w.(nclock)))) k in
  ∃ o, o.(out_peer) = σ.(inner).(output).(out_peer) ∧
    w' = push_event (Connected from)
      (upd_heap (<[s := MkSession (MkInner x.1 o conv Established σ.(inner).(incarnation))
                          σ.(closed) (now_of w) σ.(peer_addr) σ.(syn_sent_at) σ.(syn_retries)]>)
        (add_sent x.2 (tick_clock (tick_clock w)))).

Lemma run_establish {A} s σ from (r : A) w :
  w.(heap) !! s = Some σ →
  ∃ w', run (establish s ;; event_send (Connected from) ;; Ret r) w = (r, w') ∧
    establishes s σ σ.(inner).(conv_id) from w w'.
Proof.
  intros Hσ. destruct (run_establish_step s σ w Hσ) as (o & Ho & Hrun).
  unfold event_send. rewrite run_bind, Hrun. cbn [snd]. rewrite run_bind, run_modify. cbn [snd run].
  eexists. split; [reflexivity|]. unfold establishes. rewrite decide_True by done.
  exists o. split; [exact Ho|]. done.
Qed.

(** The same with the peer's conversation id adopted first. *)
Lemma run_adopt {A} s σ conv from (r : A) w :
  w.(heap) !! s = Some σ → conv ≠ σ.(inner).(conv_id) →
  ∃ w',
    run (store s (upd_inner (λ i, set_kcp (kcp_set_conv conv i.(kcp)) i.(output) i)) ;;
         store s (upd_inner (set_conv_id conv)) ;;
         establish s ;; event_send (Connected from) ;; Ret r) w = (r, w') ∧
    establishes s σ conv from w w'.
Proof.
  intros Hσ Hne. rewrite (run_store_bind _ _ _ _ _ Hσ).
  set (σ1 := upd_inner _ σ). set (w1 := upd_heap (<[s := σ1]>) w).
  assert (Hσ1 : w1.(heap) !! s = Some σ1) by apply lookup_insert_eq.
  rewrite (run_store_bind _ _ _ _ _ Hσ1). unfold w1. rewrite upd_heap_insert_twice.
  set (σ2 := upd_inner _ σ1). set (w2 := upd_heap (<[s := σ2]>) w).
  assert (Hσ2 : w2.(heap) !! s = Some σ2) by apply lookup_insert_eq.
  destruct (run_establish s σ2 from r w2 Hσ2) as (w' & Hrun & o & Ho & Hw').
  exists w'. split; [exact Hrun|]. unfold establishes in *. rewrite decide_True in Hw' by done.
  rewrite decide_False by done. exists o. split; [exact Ho|]. rewrite Hw'. unfold w2.
  unfold push_event, upd_heap, add_sent, tick_clock. cbn. by rewrite insert_insert_eq.
Qed.

(** ** Simultaneous handshake *)

(** A SYN that meets a session still in its own handshake, with another
    conversation id, completes the handshake: if the sender's address is
    greater than our local address we lose and adopt its id, else we win and
    keep ours. Either way the session is established, [Connected] is fired
    once, the queued data is flushed to the peer, and a SYN_ACK with the
    retained id is sent last. *)
Lemma syn_tie_break data payload from me inc config s σ w :
  split_packet data = Some (Syn, payload) → (4 ≤ length payload)%nat →
  os_local_addr = Ok me →
  w.(sessions) !! canonicalize from = Some s → w.(heap) !! s = Some σ →
  σ.(inner).(conv_id) ≠ payload_conv payload → σ.(inner).(state) = SynSent →
  let kept := if addr_gt from me then payload_conv payload else σ.(inner).(conv_id) in
  ∃ w1, establishes s σ kept from w w1 ∧
    run (handle_incoming data from inc config) w =
      (Ok tt, push_sent (control SynAck kept from w1) w1).
Proof.
  intros Hd Hl Hme Hs Hσ Hc Hst kept.
  rewrite (run_handle_syn _ _ _ _ _ _ Hd Hl Hme). unfold syn_check, map_get.
  rewrite run_atomic, run_bind, run_get. cbn [fst snd]. rewrite Hs. loads. cbv zeta.
  rewrite (proj2 (Z.eqb_neq _ _) Hc), Hst. unfold kept. destruct (addr_gt from me).
  - destruct (run_adopt s σ (payload_conv payload) from (MkSynResult KeepExisting (Some from)
      (payload_conv payload)) w Hσ (not_eq_sym Hc)) as (w' & Hrun & Hest).
    exists w'. by rewrite Hrun.
  - destruct (run_establish s σ from (MkSynResult KeepExisting (Some from)
      (conv_id (inner σ))) w Hσ) as (w' & Hrun & Hest).
    exists w'. by rewrite Hrun.
Qed.

(** C21. What a SYN does, whatever it meets. Nobody: it creates an established
    session with its conversation id, acknowledged, registered under the
    canonical address and announced by [Connected]. A session with the same
    id: it is acknowledged again and refreshed if established, and ignored if
    it is itself connecting. A connecting session with another id: the
    handshake completes under the id of the side with the greater address
    (theirs if [from] is greater than our local address), the queued data is
    flushed, [Connected] is fired, and the retained id is acknowledged last. An
    established session with another id: it is closed, [PeerRestarted] is
    fired, and the SYN is accepted as from nobody; the incarnation plays no
    part. Nothing else changes, and the handler succeeds. *)
Theorem syn_spec data payload from me inc config w :
  split_packet data = Some (Syn, payload) → (4 ≤ length payload)%nat →
  os_local_addr = Ok me →
  let conv := payload_conv payload in
  let result := run (handle_incoming data from inc config) w in
  match w.(sessions) !! canonicalize from with
  | None => result = (Ok tt, inbound_world conv from inc config w)
  | Some s =>
      ∀ σ, w.(heap) !! s = Some σ →
      if decide (σ.(inner).(conv_id) = conv) then
        match σ.(inner).(state) with
        | Established =>
            let w1 := upd_heap (<[s := set_last_rx (now_of w) σ]>) (tick_clock w) in
            result = (Ok tt, push_sent (control SynAck conv from w1) w1)
        | SynSent => result = (Ok tt, w)
        end
      else
        match σ.(inner).(state) with
        | Established =>
            result = (Ok tt, inbound_world conv from inc config
              (push_event (PeerRestarted from) (upd_heap (<[s := set_closed true σ]>) w)))
        | SynSent =>
            let kept := if addr_gt from me then conv else σ.(inner).(conv_id) in
            ∃ w1, establishes s σ kept from w w1 ∧
              result = (Ok tt, push_sent (control SynAck kept from w1) w1)
        end
  end.
Proof.
  intros Hd Hl Hme. cbv zeta. destruct (sessions w !! canonicalize from) as [s|] eqn:Hs;
    [|by eapply syn_creates_session].
  intros σ Hσ. case_decide as Hc.
  - pose proof (syn_duplicate data payload from me inc config Hd Hl Hme s σ w Hs Hσ Hc) as H.
    by destruct (state (inner σ)).
  - destruct (state (inner σ)) eqn:Hst; [by apply syn_tie_break|].
    by apply (syn_restarts_session data payload from me inc config Hd Hl Hme).
Qed.

(** ** SYN_ACK *)

Lemma syn_ack_spec_run data payload from inc config w :
  split_packet data = Some (SynAck, payload) → (4 ≤ length payload)%nat →
  match w.(sessions) !! canonicalize from with
  | None => run (handle_incoming data from inc config) w = (Ok tt, w)
  | Some s =>
      ∀ σ, w.(heap) !! s = Some σ →
      if decide (σ.(inner).(state) = SynSent ∧ σ.(inner).(conv_id) = payload_conv payload) then
        ∃ w1, establishes s σ σ.(inner).(conv_id) from w w1 ∧
          run (handle_incoming data from inc config) w = (Ok tt, w1)
      else run (handle_incoming data from inc config) w = (Ok tt, w)
  end.
Proof.
  intros Hd Hl. rewrite (handle_control _ _ _ _ _ _ Hd). unfold handle_syn_ack.
  rewrite decide_False by lia. cbv zeta. unfold map_get.
  rewrite run_atomic, run_bind, run_get. cbn [fst snd].
  destruct (sessions w !! canonicalize from) as [s|]; [|done].
  intros σ Hσ. loads. case_decide as Hd'.
  - destruct Hd' as [-> Hc]. rewrite (proj2 (Z.eqb_eq _ _) Hc).
    destruct (run_establish s σ from (Ok tt : Result unit Error) w Hσ) as (w' & Hrun & Hest).
    by exists w'.
  - destruct (state (inner σ)); [|done].
    case_match eqn:E; [|done]. apply Z.eqb_eq in E. by destruct Hd'.
Qed.

(** A SYN_ACK completes the handshake exactly when the address has a
    session in its handshake with the acknowledged conversation id; in every
    other case it changes nothing (in particular it never creates a
    session). *)
Theorem syn_ack_spec data payload from inc config w :
  split_packet data = Some (SynAck, payload) → (4 ≤ length payload)%nat →
  match w.(sessions) !! canonicalize from with
  | None => run (handle_incoming data from inc config) w = (Ok tt, w)
  | Some s =>
      ∀ σ, w.(heap) !! s = Some σ →
      if decide (σ.(inner).(state) = SynSent ∧ σ.(inner).(conv_id) = payload_conv payload) then
        ∃ w1, establishes s σ σ.(inner).(conv_id) from w w1 ∧
          run (handle_incoming data from inc config) w = (Ok tt, w1)
      else run (handle_incoming data from inc config) w = (Ok tt, w)
  end.
Proof. apply syn_ack_spec_run. Qed.

(** ** RESET *)

(** A RESET ends a session exactly when its conversation id is the
    session's: the session is removed from the map and closed, and then
    [Disconnected] is fired; with another id, or without a session, nothing
    changes. *)
Theorem reset_spec data payload from inc config w :
  split_packet data = Some (Reset, payload) → (4 ≤ length payload)%nat →
  match w.(sessions) !! canonicalize from with
  | None => run (handle_incoming data from inc config) w = (Ok tt, w)
  | Some s =>
      ∀ σ, w.(heap) !! s = Some σ →
      run (handle_incoming data from inc config) w =
        if decide (σ.(inner).(conv_id) = payload_conv payload) then
          (Ok tt, push_event (Disconnected from)
                    (upd_heap (<[s := set_closed true σ]>)
                      (upd_sessions (delete (canonicalize from)) w)))
        else (Ok tt, w)
  end.
Proof.
  intros Hd Hl. rewrite (handle_control _ _ _ _ _ _ Hd). unfold handle_reset.
  rewrite decide_False by lia. cbv zeta. unfold map_get. rewrite run_bind, run_get. cbn [fst snd].
  destruct (sessions w !! canonicalize from) as [s|] eqn:Hs; [|done].
  intros σ Hσ. loads. case_decide as Hc.
  - rewrite Hc, Z.eqb_refl. unfold map_remove, Session.mark_closed, store, event_send.
    autorewrite with run. cbn [fst snd].
    by rewrite (upd_heap_alter s _ σ (upd_sessions (delete (canonicalize from)) w) Hσ).
  - by rewrite (proj2 (Z.eqb_neq _ _) Hc).
Qed.

(** ** KCP data *)

(** The world after three copies of a RESET. *)
Definition reset_once (conv : Z) (to : SocketAddr) (w : World) : World :=
  push_sent (control Reset conv to w) w.

Definition reset_world (conv : Z) (to : SocketAddr) (w : World) : World :=
  reset_once conv to (reset_once conv to (reset_once conv to w)).

Lemma run_send_reset conv to w :
  run (KcpPeer.send_reset conv to) w = (tt, reset_world conv to w).
Proof. done. Qed.

(** A KCP packet from an address without a session is answered by three
    RESETs that echo its conversation id, when it has one, and creates
    nothing. *)
Theorem kcp_data_unknown_session data payload from inc config w :
  split_packet data = Some (KcpData, payload) →
  w.(sessions) !! canonicalize from = None →
  run (handle_incoming data from inc config) w =
    (Ok tt, if decide (4 ≤ length payload)%nat
            then reset_world (payload_conv payload) from w else w).
Proof.
  intros Hd Hs. rewrite (handle_control _ _ _ _ _ _ Hd). unfold handle_kcp_data, map_get.
  rewrite run_bind, run_get. cbn [fst snd]. rewrite Hs. case_decide; [|done].
  by rewrite run_bind, run_send_reset.
Qed.

(** The world after the messages [msgs] from [peer] are handed over. *)
Definition deliver (peer : SocketAddr) (msgs : list bytes) (w : World) : World :=
  match msgs with
  | [] => w
  | _ => set_notified true (set_pending (w.(pending) ++ (MkDataMessage peer <$> msgs)) w)
  end.

(** A KCP packet for a known session, up to the refresh of its receive time. *)
Lemma run_kcp_data_known data payload from inc config s σ w :
  split_packet data = Some (KcpData, payload) →
  w.(sessions) !! canonicalize from = Some s → w.(heap) !! s = Some σ →
  run (handle_incoming data from inc config) w =
    run (Session.input s payload ?;;
         x <- Session.try_recv_all s ;;
         match x.2 with
         | Err e => Ret (Err e)
         | Ok _ =>
             match x.1 with
             | [] => Ret (Ok tt)
             | msgs => push_messages s msgs ;; Ret (Ok tt)
             end
         end) (upd_heap (<[s := set_last_rx (now_of w) σ]>) (tick_clock w)).
Proof.
  intros Hd Hs Hσ.
  rewrite (handle_control _ _ _ _ _ _ Hd). unfold handle_kcp_data, map_get, epoch_ms.
  rewrite run_bind, run_get. cbn [fst snd]. rewrite Hs, run_bind, run_act. cbn [fst snd].
  by rewrite (run_store_bind s _ _ σ).
Qed.

Lemma recv_stable_impl (P : kcp_t → Prop) (Q : Prop) :
  recv_stable P → recv_stable (λ k, Q → P k).
Proof. intros HP buf k k' m n H Hr HQ. by eapply HP; [apply H|]. Qed.

Lemma kcp_data_run {L : @KcpLaws K} P data payload from inc config s σ w :
  split_packet data = Some (KcpData, payload) →
  w.(sessions) !! canonicalize from = Some s → w.(heap) !! s = Some σ →
  recv_stable P →
  let x := kio_trace σ.(inner).(output).(out_peer) (length w.(sent))
             (kcp_input payload σ.(inner).(kcp)) in
  let refreshed := set_last_rx (now_of w) σ in
  ∃ k o, o.(out_peer) = σ.(inner).(output).(out_peer) ∧
    let w' := upd_heap (<[s := kcp_state k o refreshed]>) (add_sent x.2 (tick_clock w)) in
    match x.1.2 with
    | Err e => k = x.1.1 ∧ run (handle_incoming data from inc config) w = (Err (Kcp e), w')
    | Ok _ =>
        kcp_ready k = [] ∧ (P x.1.1 → P k) ∧
        run (handle_incoming data from inc config) w =
          (Ok tt, deliver σ.(peer_addr) (kcp_ready x.1.1) w')
    end.
Proof.
  intros Hd Hs Hσ HP. cbv zeta. set (w1 := upd_heap (<[s := set_last_rx (now_of w) σ]>) (tick_clock w)).
  assert (Hσ1 : w1.(heap) !! s = Some (set_last_rx (now_of w) σ)) by apply lookup_insert_eq.
  rewrite (run_kcp_data_known _ _ _ _ _ s σ w Hd Hs Hσ). fold w1.
  unfold bind_result, Session.input. rewrite run_bind, run_atomic.
  unfold bind_result. rewrite run_bind.
  destruct (run_kcp_call s (kcp_input payload) _ w1 Hσ1) as (o & Ho & ->).
  cbn [set_last_rx inner sent upd_heap tick_clock w1]. fold (tick_clock w).
  set (x := kio_trace _ _ _). destruct x as [[k [n|e]] ds]; cbn [fst snd map_err run].
  - set (w2 := upd_heap _ (add_sent ds w1)).
    assert (Hσ2 : w2.(heap) !! s = Some (kcp_state k o (set_last_rx (now_of w) σ)))
      by apply lookup_insert_eq.
    destruct (run_try_recv_all (λ k', P k → P k') s (kcp_state k o (set_last_rx (now_of w) σ)) w2
      (recv_stable_impl P (P k) HP) (λ H, H) Hσ2)
      as (k' & Hk' & HPk & Hall).
    exists k', o. split; [exact Ho|]. split; [exact Hk'|]. split; [exact HPk|]. rewrite run_bind, Hall. cbn [fst snd].
    assert (Hw : upd_heap (<[s := with_kcp k' (kcp_state k o (set_last_rx (now_of w) σ))]>) w2 =
      upd_heap (<[s := kcp_state k' o (set_last_rx (now_of w) σ)]>) (add_sent ds (tick_clock w))).
    { unfold w2, w1, upd_heap, add_sent. cbn. by rewrite !insert_insert_eq. }
    rewrite Hw. set (w3 := upd_heap _ (add_sent ds (tick_clock w))).
    cbn [kcp_state upd_inner set_kcp inner kcp].
    destruct (kcp_ready k) as [|m msgs]; [done|].
    assert (Hσ3 : w3.(heap) !! s = Some (kcp_state k' o (set_last_rx (now_of w) σ)))
      by apply lookup_insert_eq.
    unfold push_messages. by rewrite run_bind, (run_load_bind s peer_addr _ _ _ Hσ3).
  - exists k, o. split; [exact Ho|]. split; [done|]. f_equal.
    unfold w1, upd_heap, add_sent. cbn. by rewrite insert_insert_eq.
Qed.
(** C23. A KCP packet for a known session refreshes its receive time and is
    fed to KCP, which may send frames; if KCP accepts it, every message that is
    then complete is appended to the pending queue, in order and tagged with
    the session's peer, a receiver is notified when there is at least one, and
    nothing stays behind in KCP, whether or not anybody calls [recv]: the
    pending queue grows, and the receive window of KCP holds nobody back (the
    README says that without [recv] the data stays in KCP and slows the sender
    down). If KCP rejects the packet, the error is returned and nothing is
    delivered. *)
Theorem kcp_data_delivers {L : @KcpLaws K} data payload from inc config s σ w :
  split_packet data = Some (KcpData, payload) →
  w.(sessions) !! canonicalize from = Some s → w.(heap) !! s = Some σ →
  let x := kio_trace σ.(inner).(output).(out_peer) (length w.(sent))
             (kcp_input payload σ.(inner).(kcp)) in
  let refreshed := set_last_rx (now_of w) σ in
  ∃ k o, o.(out_peer) = σ.(inner).(output).(out_peer) ∧
    let w' := upd_heap (<[s := kcp_state k o refreshed]>) (add_sent x.2 (tick_clock w)) in
    match x.1.2 with
    | Err e => k = x.1.1 ∧ run (handle_incoming data from inc config) w = (Err (Kcp e), w')
    | Ok _ =>
        kcp_ready k = [] ∧
        run (handle_incoming data from inc config) w =
          (Ok tt, deliver σ.(peer_addr) (kcp_ready x.1.1) w')
    end.
Proof.
  intros Hd Hs Hσ.
  destruct (kcp_data_run (λ _, True) data payload from inc config s σ w Hd Hs Hσ ltac:(done))
    as (k & o & Ho & H).
  exists k, o. split; [exact Ho|]. cbv zeta in *. destruct (kio_trace _ _ _).1.2; [|exact H].
  destruct H as (? & _ & ?). by split.
Qed.
End IncomingSpec.

(** ** The theorems on concrete packets

    Node [addr_a] receives packets from [addr_b]. *)

Abbreviation toy_recv_packet w data :=
  (run (handle_incoming (K := toy_lib) (os := toy_os addr_a) data addr_b 11 Config.default) w).

Lemma malformed_rejected_witness :
  ∃ msg, toy_recv_packet (toy_world toy_connected) [2; 7; 0] =
    (Err (Io (MkIoError InvalidData msg)), toy_world toy_connected).
Proof.
  apply (malformed_rejected (os := toy_os addr_a) [2; 7; 0] addr_b 11 Config.default).
  cbn. lia.
Defined.

Example syn_creates_session_example :
  toy_recv_packet (KcpPeer.empty_world) (encode_control Syn 9) =
    (Ok tt, inbound_world (os := toy_os addr_a) 9 addr_b 11 Config.default KcpPeer.empty_world).
Proof.
  refine (syn_creates_session (os := toy_os addr_a) (encode_control Syn 9) (to_le_bytes 9)
    addr_b addr_a 11 Config.default _ _ _ KcpPeer.empty_world _); (reflexivity || (cbn; lia)).
Defined.

(** An established session acknowledges the duplicate, a connecting one is silent. *)
Example syn_duplicate_example :
  length (toy_recv_packet (toy_world toy_connected) (encode_control Syn 7)).2.(sent) = 1%nat ∧
  toy_recv_packet (toy_world toy_connecting) (encode_control Syn 7) =
    (Ok tt, toy_world toy_connecting).
Proof.
  split.
  - rewrite (syn_duplicate (os := toy_os addr_a) (encode_control Syn 7) (to_le_bytes 7)
      addr_b addr_a 11 Config.default) with (s := 0%nat) (σ := toy_connected);
      (reflexivity || (cbn; lia)).
  - refine (syn_duplicate (os := toy_os addr_a) (encode_control Syn 7) (to_le_bytes 7)
      addr_b addr_a 11 Config.default _ _ _ 0 toy_connecting _ _ _ _); (reflexivity || (cbn; lia)).
Defined.

Example syn_restarts_session_example :
  (toy_recv_packet (toy_world toy_connected) (encode_control Syn 9)).2.(events) =
    [PeerRestarted addr_b; Connected addr_b].
Proof.
  rewrite (syn_restarts_session (os := toy_os addr_a) (encode_control Syn 9) (to_le_bytes 9)
    addr_b addr_a 11 Config.default) with (s := 0%nat) (σ := toy_connected);
    (reflexivity || discriminate || (cbn; lia)).
Defined.

(** [addr_b] is greater than [addr_a], so its id 9 replaces 7. *)
Example syn_tie_break_example :
  ∃ w1, establishes (os := toy_os addr_a) 0 toy_connecting 9 addr_b (toy_world toy_connecting) w1 ∧
    toy_recv_packet (toy_world toy_connecting) (encode_control Syn 9) =
      (Ok tt, push_sent (control (os := toy_os addr_a) SynAck 9 addr_b w1) w1).
Proof.
  refine (syn_tie_break (os := toy_os addr_a) (encode_control Syn 9) (to_le_bytes 9)
    addr_b addr_a 11 Config.default 0 toy_connecting (toy_world toy_connecting) _ _ _ _ _ _ _);
    (reflexivity || discriminate || (cbn; lia)).
Defined.

(** The same by the specification; and an established session restarts. *)
Lemma syn_spec_witness :
  (∃ w1, establishes (os := toy_os addr_a) 0 toy_connecting 9 addr_b (toy_world toy_connecting) w1 ∧
    toy_recv_packet (toy_world toy_connecting) (encode_control Syn 9) =
      (Ok tt, push_sent (control (os := toy_os addr_a) SynAck 9 addr_b w1) w1)) ∧
  (toy_recv_packet (toy_world toy_connected) (encode_control Syn 9)).2.(events) =
    [PeerRestarted addr_b; Connected addr_b].
Proof.
  split.
  - exact (syn_spec (K := toy_lib) (os := toy_os addr_a) (encode_control Syn 9) (to_le_bytes 9)
      addr_b addr_a 11 Config.default (toy_world toy_connecting) eq_refl ltac:(cbn; lia) eq_refl
      toy_connecting eq_refl).
  - refine (eq_trans (f_equal (λ x : Result unit (Error (K := toy_lib)) * @World toy_lib, x.2.(events)) (syn_spec (K := toy_lib) (os := toy_os addr_a)
      (encode_control Syn 9) (to_le_bytes 9) addr_b addr_a 11 Config.default
      (toy_world toy_connected) eq_refl ltac:(cbn; lia) eq_refl toy_connected eq_refl)) _).
    reflexivity.
Defined.

Lemma syn_ack_spec_witness :
  (∃ w1, establishes (os := toy_os addr_a) 0 toy_connecting 7 addr_b (toy_world toy_connecting) w1 ∧
    toy_recv_packet (toy_world toy_connecting) (encode_control SynAck 7) = (Ok tt, w1)) ∧
  toy_recv_packet (toy_world toy_connecting) (encode_control SynAck 8) =
    (Ok tt, toy_world toy_connecting).
Proof.
  split.
  - exact (syn_ack_spec (os := toy_os addr_a) (encode_control SynAck 7) (to_le_bytes 7)
      addr_b 11 Config.default (toy_world toy_connecting) eq_refl ltac:(cbn; lia)
      toy_connecting eq_refl).
  - exact (syn_ack_spec (os := toy_os addr_a) (encode_control SynAck 8) (to_le_bytes 8)
      addr_b 11 Config.default (toy_world toy_connecting) eq_refl ltac:(cbn; lia)
      toy_connecting eq_refl).
Defined.

Lemma reset_spec_witness :
  (toy_recv_packet (toy_world toy_connected) (encode_control Reset 7)).2.(sessions) = ∅ ∧
  toy_recv_packet (toy_world toy_connected) (encode_control Reset 8) =
    (Ok tt, toy_world toy_connected).
Proof.
  split.
  - refine (eq_trans (f_equal (λ x, x.2.(sessions)) (reset_spec (os := toy_os addr_a)
      (encode_control Reset 7) (to_le_bytes 7) addr_b 11 Config.default (toy_world toy_connected)
      eq_refl _ toy_connected eq_refl)) _); [cbn; lia|reflexivity].
  - exact (reset_spec (os := toy_os addr_a) (encode_control Reset 8) (to_le_bytes 8)
      addr_b 11 Config.default (toy_world toy_connected) eq_refl ltac:(cbn; lia) toy_connected eq_refl).
Defined.

Lemma kcp_data_unknown_session_witness :
  toy_recv_packet KcpPeer.empty_world (encode_kcp_data [9; 0; 0; 0; 5]) =
    (Ok tt, reset_world (os := toy_os addr_a) 9 addr_b KcpPeer.empty_world).
Proof.
  exact (kcp_data_unknown_session (os := toy_os addr_a) (encode_kcp_data [9; 0; 0; 0; 5])
    [9; 0; 0; 0; 5] addr_b 11 Config.default KcpPeer.empty_world eq_refl eq_refl).
Defined.

(** A frame that completes the message [5; 6]. *)
Lemma kcp_data_delivers_witness :
  (toy_recv_packet (toy_world toy_connected) (encode_kcp_data (to_le_bytes 7 ++ [5; 6]))).2.(pending)
    = [MkDataMessage addr_b [5; 6]].
Proof.
  destruct (kcp_data_delivers (os := toy_os addr_a) (L := toy_laws)
    (encode_kcp_data (to_le_bytes 7 ++ [5; 6])) (to_le_bytes 7 ++ [5; 6]) addr_b 11 Config.default
    0 toy_connected (toy_world toy_connected) eq_refl eq_refl eq_refl)
    as (k & o & _ & _ & ->).
  reflexivity.
Defined.
