(* ===== verification/Lifecycle.v ===== *)
(** * [Connected] is fired at most once per session

    A credit argument over every interleaving: a session that becomes
    established earns its peer one [Connected]; a task that holds such a credit
    may fire it, and a task that is dropped loses it. *)

From S2P Require Import Prelude Prog Packet Kcp Addr Errors Config World Session Transport.
From S2P Require Import Incoming Update Invariant Toy Tasks Plain.
From S2P Require Import Effects SessionSpec IncomingSpec.
Open Scope prog_scope.

Section Credits.
Context {K : KcpLib} {os : Os} {OL : OsLaws os} (can : CanonicalAddr).

Definition connected_to (e : Event) : Prop :=
  match e with Connected a => canonicalize a = can | _ => False end.

#[export] Instance connected_to_dec e : Decision (connected_to e).
Proof. destruct e; cbn; apply _. Defined.

(** How often [Connected] was fired for the peer. *)
Definition connects (w : World) : nat := length (filter connected_to w.(World.events)).

(** The sessions with the peer that are, or were, established. *)
Definition joined (σ : Session) : Prop :=
  σ.(inner).(state) = Established ∧ canonicalize σ.(peer_addr) = can.

Definition established (w : World) : nat := size (filter (λ x : nat * Session, joined x.2) w.(heap)).

Lemma established_incl w w' :
  evolves w w' →
  dom (filter (λ x : nat * Session, joined x.2) w.(heap)) ⊆
  dom (filter (λ x : nat * Session, joined x.2) w'.(heap)).
Proof.
  intros (Hh & _) s (σ & Hσ)%elem_of_dom. apply map_lookup_filter_Some in Hσ as [Hσ [Hst Hp]].
  destruct (Hh s σ Hσ) as (σ' & Hσ' & Hp' & _ & _ & He & _). apply elem_of_dom. exists σ'.
  apply map_lookup_filter_Some. split; [done|]. split; [by apply He|]. by cbn in *; rewrite Hp'.
Qed.

Lemma established_mono w w' : evolves w w' → (established w ≤ established w')%nat.
Proof.
  intros H. unfold established. rewrite <- !size_dom. by apply subseteq_size, established_incl.
Qed.

Lemma established_new s σ' w w' :
  evolves w w' → w'.(heap) !! s = Some σ' → joined σ' →
  (∀ σ, w.(heap) !! s = Some σ → ¬ joined σ) → (S (established w) ≤ established w')%nat.
Proof.
  intros H Hσ' Hj Hnot. unfold established. rewrite <- !size_dom.
  apply (subset_size (C := gset nat)). split; [by apply established_incl|]. intros Hsub.
  assert (Hin : s ∈ dom (filter (λ x : nat * Session, joined x.2) w'.(heap))).
  { apply elem_of_dom. exists σ'. by apply map_lookup_filter_Some. }
  apply Hsub, elem_of_dom in Hin as (σ & Hσ). apply map_lookup_filter_Some in Hσ as [Hσ Hjσ].
  by apply (Hnot σ Hσ).
Qed.

(** A program that starts with [c] credits and never spends one it does not
    have, whatever happens between its actions. *)
Fixpoint pays {A} (c : nat) (p : prog World A) : Prop :=
  match p with
  | Ret _ => True
  | Act f k => ∀ w, any_inv w → evolves w (f w).2 →
      ∃ c', (connects (f w).2 + established w + c' ≤ connects w + established (f w).2 + c)%nat ∧
        pays c' (k (f w).1)
  end.

Lemma pays_more {A} c c' (p : prog World A) : (c ≤ c')%nat → pays c p → pays c' p.
Proof.
  destruct p as [|B f k]; cbn; [done|]. intros Hle Hp w Hw He. destruct (Hp w Hw He) as (d & ? & ?).
  exists d. split; [lia|done].
Qed.

Lemma mute_connects {B} (f : World → B * World) w : mute f → connects (f w).2 = connects w.
Proof.
  intros Hf. destruct (Hf w) as (es & He & Hes). unfold connects. rewrite He, filter_app, length_app.
  enough (filter connected_to es = []) as -> by (cbn; lia). clear He.
  induction Hes as [|e es Hn _ IH]; [done|]. rewrite filter_cons_False; [done|].
  by destruct e.
Qed.

Lemma silent_pays {A} c (p : prog World A) : silent p → pays c p.
Proof.
  induction p as [|B f k IH]; cbn; [done|]. intros [Hf Hk] w Hw He. exists c.
  rewrite (mute_connects f w Hf). split; [|auto]. pose proof (established_mono _ _ He). lia.
Qed.

Lemma plain_pays {A} c (p : prog World A) : plain p → pays c p.
Proof. intros [_ Hp]. by apply silent_pays. Qed.

(** A first part that fires nothing, and a second that has no credits. *)
Lemma pays_bind {A B} c (p : prog World A) (k : A → prog World B) :
  plain p → (∀ a, pays c (k a)) → pays c (bind p k).
Proof.
  intros [_ Hp] Hk. induction p as [|C f r IH]; cbn in *; [auto|]. destruct Hp as [Hf Hr].
  intros w Hw He. exists c. rewrite (mute_connects f w Hf). split; [|auto].
  pose proof (established_mono _ _ He). lia.
Qed.

Lemma pays_then {A B} c (p : prog World A) (k : A → prog World B) :
  pays c p → (∀ a, pays 0 (k a)) → pays c (bind p k).
Proof.
  intros Hp Hk. revert c Hp. induction p as [a|C f r IH]; cbn; intros c Hp.
  - by apply (pays_more 0); [lia|].
  - intros w Hw He. destruct (Hp w Hw He) as (d & ? & ?). exists d. split; [done|auto].
Qed.

Lemma connects_push a w :
  connects (push_event (Connected a) w) =
    (connects w + if decide (canonicalize a = can) then 1 else 0)%nat.
Proof.
  unfold connects. cbn. rewrite filter_app, length_app. f_equal. case_decide as H.
  - by rewrite filter_cons_True.
  - by rewrite filter_cons_False.
Qed.

(** ** Becoming established *)

Lemma establishes_pays s σ conv from w w' :
  establishes s σ conv from w w' → w.(heap) !! s = Some σ → σ.(inner).(state) = SynSent →
  canonicalize σ.(peer_addr) = canonicalize from → evolves w w' →
  (connects w' + established w ≤ connects w + established w')%nat.
Proof.
  intros (o & _ & Hw') Hσ Hst Hp He. rewrite Hw' at 1. rewrite connects_push.
  change (connects (upd_heap _ _)) with (connects w).
  destruct (decide (canonicalize from = can)) as [Hc|Hc].
  - enough (S (established w) ≤ established w')%nat by lia.
    eapply (established_new s); [done|by rewrite Hw'; apply lookup_insert_eq|by split; [|cbn; congruence]|].
    intros σ0 H0 [H1 _]. congruence.
  - pose proof (established_mono _ _ He). lia.
Qed.

(** A SYN that meets a connecting session. *)
Lemma pays_syn_check conv from me : pays 0 (syn_check conv from me).
Proof.
  intros w Hw He. exists 0%nat. split; [|done]. rewrite !Nat.add_0_r. revert He.
  unfold map_get. rewrite run_bind, run_get. cbn [fst snd].
  destruct (w.(sessions) !! canonicalize from) as [s|] eqn:Hs; [|cbn; lia].
  destruct (proj2 (proj1 Hw) _ _ Hs) as (σ & Hσ & Hp). loads. cbv zeta.
  assert (Hmute : ∀ p : prog World SynResult, plain p → evolves w (run p w).2 →
    (connects (run p w).2 + established w ≤ connects w + established (run p w).2)%nat).
  { intros p [_ Hpl] He. rewrite (mute_connects (run p) w); [|intros w0; by apply silent_run].
    pose proof (established_mono _ _ He). lia. }
  destruct (_ =? conv) eqn:Hc; destruct (state (inner σ)) eqn:Hst.
  - apply Hmute. plain_tac.
  - apply Hmute. plain_tac.
  - apply Z.eqb_neq in Hc. destruct (addr_gt from me).
    + match goal with |- context [Ret ?r] =>
        destruct (run_adopt s σ conv from r w Hσ (not_eq_sym Hc)) as (w' & -> & H) end.
      intros He. by eapply establishes_pays.
    + match goal with |- context [Ret ?r] =>
        destruct (run_establish s σ from r w Hσ) as (w' & -> & H) end.
      intros He. by eapply establishes_pays.
  - apply Hmute. unfold Session.mark_closed. plain_tac.
Qed.
(** A SYN_ACK. *)
Lemma pays_syn_ack data payload from :
  split_packet data = Some (SynAck, payload) → pays 0 (handle_syn_ack payload from).
Proof.
  intros Hd. unfold handle_syn_ack. case_decide as Hl; [done|]. cbv zeta.
  intros w Hw He. exists 0%nat. split; [|done]. rewrite !Nat.add_0_r. revert He.
  pose proof (syn_ack_spec_run data payload from 0 default w Hd ltac:(lia)) as H.
  rewrite (handle_control _ _ _ _ _ _ Hd) in H. unfold handle_syn_ack in H.
  rewrite decide_False in H by lia. cbv zeta in H. rewrite run_atomic in H.
  match goal with |- evolves w ?x.2 → _ => set (r := x) in *; change (run _ w) with r in H end.
  destruct (w.(sessions) !! canonicalize from) as [s|] eqn:Hs; [|rewrite H; cbn; lia].
  destruct (proj2 (proj1 Hw) _ _ Hs) as (σ & Hσ & Hp). specialize (H σ Hσ).
  case_decide as Hc; [|rewrite H; cbn; lia].
  destruct H as (w1 & Hest & ->). intros He. by eapply establishes_pays; [| |apply Hc|..].
Qed.

(** A new established session earns a credit, which its insertion spends. *)
Lemma pays_new {A} c σ (k : nat → prog World A) :
  joined σ → (∀ s, pays (S c) (k s)) → pays c (bind (arc_new σ) k).
Proof.
  intros Hj Hk w Hw He. exists (S c). split; [|apply Hk].
  change (evolves w (alloc_session σ w)) in He. set (w' := alloc_session σ w) in *.
  change (connects w + established w + S c ≤ connects w + established w' + c)%nat.
  enough (S (established w) ≤ established w')%nat by lia.
  eapply (established_new w.(next)); [done|apply lookup_insert_eq|done|].
  intros σ0 H0. destruct (proj1 (proj1 Hw) _ _ H0). lia.
Qed.

Lemma pays_insert from s : pays 1 (insert_inbound from s).
Proof.
  intros w Hw He. exists 0%nat. split; [|done]. revert He.
  change (run _ w).2 with
    (push_event (Connected from) (upd_sessions (<[canonicalize from := s]>) w)).
  intros He. rewrite connects_push. pose proof (established_mono _ _ He).
  change (connects (upd_sessions _ w)) with (connects w). case_decide; lia.
Qed.

Lemma pays_insert_other from s :
  canonicalize from ≠ can → pays 0 (insert_inbound from s).
Proof.
  intros Hne w Hw He. exists 0%nat. split; [|done]. revert He.
  change (run _ w).2 with
    (push_event (Connected from) (upd_sessions (<[canonicalize from := s]>) w)).
  intros He. rewrite connects_push, decide_False by done. pose proof (established_mono _ _ He).
  change (connects (upd_sessions _ w)) with (connects w). lia.
Qed.

Lemma pays_accept conv from inc config :
  pays 0 (s <- Session.new_inbound conv from inc config ;;
          insert_inbound from s ;; Ret (Ok tt : Result unit Error)).
Proof.
  change (pays 0 (send_to (encode_control SynAck conv) from ;;
    now <- epoch_ms ;;
    s <- arc_new (Session.new_session (apply_to config (kcp_new conv)) conv from Established inc now 0) ;;
    insert_inbound from s ;; Ret (Ok tt : Result unit Error))).
  apply pays_bind; [by apply plain_act|]. intros _. apply pays_bind; [by apply plain_act|]. intros now.
  destruct (decide (canonicalize from = can)) as [Hc|Hc].
  - apply pays_new; [by split|]. intros s. apply pays_then; [apply pays_insert|done].
  - apply pays_bind; [by apply plain_act|]. intros s. apply pays_then; [by apply pays_insert_other|done].
Qed.

(** ** The tasks of a node *)

(** Actions on the queue. *)
Lemma silent_act {B} (f : World → B * World) :
  (∀ w, (f w).2.(World.events) = w.(World.events)) → silent (act f).
Proof. intros Hf. split; [|done]. intros w. exists []. by rewrite app_nil_r. Qed.

Lemma silent_push s msgs : silent (push_messages s msgs).
Proof.
  unfold push_messages, load, get, modify. apply silent_bind; [by apply silent_act|]. intros peer.
  apply silent_bind; [|intros _]; by apply silent_act.
Qed.

Lemma silent_recv polls : silent (KcpPeer.recv polls) ∧ silent (KcpPeer.recv_wait polls).
Proof.
  induction polls as [|polls [IH1 IH2]]; [done|]. cbn [KcpPeer.recv KcpPeer.recv_wait].
  unfold KcpPeer.pop_front, KcpPeer.take_permit, get. split.
  - apply silent_bind; [by apply silent_act|]. intros [|]; [done|].
    apply silent_bind; [|by intros [|]]. apply silent_act. intros w. by destruct w.(pending).
  - apply silent_bind; [by apply silent_act|]. intros [|]; [done|].
    apply silent_bind; [by apply silent_act|]. by intros [|].
Qed.

Lemma pays_incoming data from inc config : pays 0 (handle_incoming data from inc config).
Proof.
  unfold handle_incoming, invalid_data. destruct (split_packet data) as [[[] payload]|] eqn:Hd; [..|done].
  - unfold handle_kcp_data. apply pays_bind; [by apply plain_act|].
    intros [s|]; [|apply plain_pays; plain_tac].
    do 2 (apply pays_bind; [by apply plain_act|]; intros ?). unfold bind_result.
    apply pays_bind; [unfold Session.input; plain_tac|]. intros [?|?]; [|done].
    apply pays_bind; [unfold Session.try_recv_all; plain_tac|]. intros x.
    destruct x.2; [|done]. destruct x.1; [done|]. apply silent_pays, silent_bind; [apply silent_push|done].
  - unfold handle_syn, invalid_data. case_decide; [done|]. cbv zeta. destruct os_local_addr; [|done].
    apply pays_then; [apply pays_syn_check|]. intros r. apply pays_bind; [plain_tac|]. intros _.
    destruct r.(action); [apply pays_accept|done|done].
  - by eapply pays_syn_ack.
  - apply plain_pays, plain_reset.
Qed.

Lemma pays_receive inbox inc config : pays 0 (receive_task inbox inc config).
Proof.
  induction inbox as [|r inbox IH]; cbn [receive_task]; [done|].
  apply pays_then; [|by intros []]. unfold receive_iteration.
  apply pays_bind; [by apply plain_act|]. intros [|]; [done|].
  destruct r as [[data from]|]; [|done]. apply pays_then; [apply pays_incoming|done].
Qed.

Lemma pays_task self t : pays 0 (task_prog self t).
Proof.
  destruct t; cbn [task_prog]; try (apply pays_then; [apply pays_receive|done]);
    try (apply pays_then; [apply pays_incoming|done]); apply silent_pays;
    try (apply silent_bind; [|done]); try (apply silent_recv);
    match goal with |- silent ?p => enough (plain p) as [_ ?] by done end; auto with plain.
Qed.

(** ** Pools *)

Lemma sum_list_insert (cs : list nat) i c c' :
  cs !! i = Some c → (sum_list (<[i := c']> cs) + c = sum_list cs + c')%nat.
Proof.
  revert i. induction cs as [|x cs IH]; intros [|i]; try done.
  - intros [= ->]. cbn. lia.
  - intros H. specialize (IH i H). change (<[S i:=c']> (x :: cs)) with (x :: <[i:=c']> cs). cbn in *. lia.
Qed.

Context (self : KcpPeer).

(** Every task has some credits, and what was fired and what may be is at most
    what was earned. *)
Definition solvent (c : pool) : Prop :=
  ∃ cs, Forall2 pays cs c.1 ∧ (connects c.2 + sum_list cs ≤ established c.2)%nat.

Lemma solvent_step c c' :
  pool_step (spawnable self) c c' → pool_ok any_inv evolves c → solvent c → solvent c'.
Proof.
  intros Hstep Hok (cs & Hcs & Hle).
  destruct (pool_step_ok (spawnable self) any_inv evolves (spawn_safe self) _ _ Hstep Hok) as [_ He].
  destruct Hok as [Hw _]. destruct Hstep as [i B f k ts w Hi|p ts w (t & _ & ->)|i ts w]; cbn [fst snd] in *.
  - destruct (Forall2_lookup_r _ _ _ _ _ Hcs Hi) as (d & Hd & Hp).
    destruct (Hp w Hw He) as (d' & Hle' & Hp'). exists (<[i := d']> cs). split.
    + by apply Forall2_insert.
    + pose proof (sum_list_insert cs i d d' Hd). cbn [snd]. lia.
  - exists (cs ++ [0%nat]). split.
    + apply Forall2_app; [done|]. constructor; [apply pays_task|constructor].
    + cbn [snd]. rewrite sum_list_with_app. cbn. lia.
  - destruct (ts !! i) as [p|] eqn:Hi.
    + destruct (Forall2_lookup_r _ _ _ _ _ Hcs Hi) as (d & Hd & _).
      exists (<[i := 0%nat]> cs). split; [by apply Forall2_insert|].
      pose proof (sum_list_insert cs i d 0 Hd). cbn [snd]. lia.
    + exists cs. rewrite list_insert_ge by (by apply lookup_ge_None). by split.
Qed.

(** C11. [Connected] is fired at most once per session, whatever is interleaved
    and cancelled: in every reachable state, it was fired for an address no
    more often than there are sessions with that peer, live or replaced, that
    were ever established. *)
Theorem connected_once ts w :
  node_reach self (ts, w) → (connects w ≤ established w)%nat.
Proof.
  intros Hr. enough (solvent (ts, w)) as (cs & _ & H) by (cbn [snd] in H; lia).
  assert (H0 : pool_ok any_inv evolves ([], KcpPeer.empty_world) ∧ solvent ([], KcpPeer.empty_world)).
  { split; [split; [apply empty_world_full|constructor]|]. exists []. split; [constructor|]. cbn. lia. }
  apply (rtc_ind_r (λ c, pool_ok any_inv evolves c ∧ solvent c) ([], KcpPeer.empty_world)) in Hr;
    [apply Hr|exact H0|].
  intros c c' _ Hstep [Hok Hs]. split; [|by eapply solvent_step].
  exact (proj1 (pool_step_ok (spawnable self) any_inv evolves (spawn_safe self) _ _ Hstep Hok)).
Qed.
End Credits.

(** ** On a concrete run: a node that has sent is acknowledged, twice *)

Definition toy_ack : Task := TIncoming (encode_control SynAck 1) addr_b.

Definition toy_acked : @World toy_lib :=
  let w := (run (task_prog (os := toy_os addr_a) toy_node toy_ack) toy_sent).2 in
  (run (task_prog (os := toy_os addr_a) toy_node toy_ack) w).2.

(** One more task, run alone. *)
Lemma node_reach_more {K : KcpLib} {os : Os} (self : KcpPeer) ts w t :
  node_reach self (ts, w) → Task_ok t →
  node_reach self (ts ++ [Ret tt], (run (task_prog self t) w).2).
Proof.
  intros Hr Ht. unfold node_reach in *. etransitivity; [exact Hr|].
  eapply rtc_l; [by apply pool_spawn; exists t|].
  pose proof (pool_run (spawnable self) (length ts) (task_prog self t) (ts ++ [task_prog self t]) w) as H.
  rewrite insert_app_r_alt, Nat.sub_diag in H by lia. apply H. by apply list_lookup_middle.
Qed.

Lemma connected_once_witness :
  connects (canonicalize addr_b) toy_acked = 1%nat ∧
  (connects (canonicalize addr_b) toy_acked ≤ established (canonicalize addr_b) toy_acked)%nat.
Proof.
  split; [vm_compute; reflexivity|].
  apply (connected_once (os := toy_os addr_a) (OL := toy_os_laws addr_a) (canonicalize addr_b) toy_node
    (([Ret tt] ++ [Ret tt]) ++ [Ret tt])).
  assert (Hok : Task_ok toy_ack) by (apply encode_control_ok; width_lia).
  apply node_reach_more; [apply node_reach_more; [exact toy_sent_reach|exact Hok]|exact Hok].
Defined.
