(* ===== verification/Table.v ===== *)
(** * The table of links: an abstract description of a node

    Which addresses have a link, in which state and under which conversation id,
    and which connections have been announced; what the node's tables look like
    in the [World]; and the operations that leave them alone. Links.v shows that
    every task follows the description. *)


From S2P Require Import Prelude Prog Packet Kcp Addr Errors Config World Session Transport.
From S2P Require Import Incoming Update Invariant Toy Tasks.
From S2P Require Import Effects SessionSpec IncomingSpec.
Open Scope prog_scope.

(** ** The specification *)

Record Link : Type := MkLink { link_state : SessionState; link_conv : Z }.

Inductive Notice : Type :=
  | Up (c : CanonicalAddr)
  | Restarted (c : CanonicalAddr).

Record Table : Type := MkTable { links : gmap CanonicalAddr Link; notices : list Notice }.

(** A link is dialled where there is none; one is accepted, in place of
    whatever there was, and announced; a dialled one is completed, under its id
    or another, and announced; a restart of the peer of an established one is
    announced; one is removed. *)
Inductive table_step : Table → Table → Prop :=
  | dial c conv m l :
      m !! c = None → table_step (MkTable m l) (MkTable (<[c := MkLink SynSent conv]> m) l)
  | accept c conv m l :
      table_step (MkTable m l) (MkTable (<[c := MkLink Established conv]> m) (l ++ [Up c]))
  | complete c conv conv' m l :
      m !! c = Some (MkLink SynSent conv) →
      table_step (MkTable m l) (MkTable (<[c := MkLink Established conv']> m) (l ++ [Up c]))
  | restart c conv m l :
      m !! c = Some (MkLink Established conv) →
      table_step (MkTable m l) (MkTable m (l ++ [Restarted c]))
  | remove c k m l :
      m !! c = Some k → table_step (MkTable m l) (MkTable (delete c m) l).

(** What holds of the table holds of the node: here, that every established link
    was announced. *)
Definition announced (t : Table) : Prop :=
  ∀ c conv, t.(links) !! c = Some (MkLink Established conv) → Up c ∈ t.(notices).

Lemma announced_step t t' : table_step t t' → announced t → announced t'.
Proof.
  intros [c conv m l Hc|c conv m l|c conv conv' m l Hc|c conv m l Hc|c k m l Hc] Ht c' conv0; cbn in *.
  - rewrite lookup_insert. case_decide; [done|]. apply Ht.
  - rewrite lookup_insert. case_decide; [subst|]; intros Hl; apply elem_of_app; [right; by left|].
    left. by eapply Ht.
  - rewrite lookup_insert. case_decide; [subst|]; intros Hl; apply elem_of_app; [right; by left|].
    left. by eapply Ht.
  - intros Hl. apply elem_of_app. left. by eapply Ht.
  - intros Hl. rewrite lookup_delete in Hl. case_decide; [done|]. by eapply Ht.
Qed.

(** ** The table of a node *)

Section View.
Context {K : KcpLib}.

Definition link_of (σ : Session) : Link := MkLink σ.(inner).(state) σ.(inner).(conv_id).

Definition notice (e : Event) : option Notice :=
  match e with
  | Connected a => Some (Up (canonicalize a))
  | PeerRestarted a => Some (Restarted (canonicalize a))
  | Disconnected _ => None
  end.

Definition table (w : World) : Table :=
  MkTable ((λ s, link_of (w.(heap) !!! s)) <$> w.(sessions)) (omap notice w.(World.events)).

(** A session that no address is filed under. *)
Definition private (w : World) (s : nat) : Prop := ∀ c, w.(sessions) !! c ≠ Some s.

(** Nothing the table shows changes, and no session does. *)
Definition same_links (w w' : World) : Prop :=
  w'.(sessions) = w.(sessions) ∧ omap notice w'.(World.events) = omap notice w.(World.events) ∧
  ∀ s σ, w.(heap) !! s = Some σ → ∃ σ', w'.(heap) !! s = Some σ' ∧ link_of σ' = link_of σ.

#[export] Instance same_links_preorder : PreOrder same_links.
Proof.
  split.
  - intros w. split_and!; [done..|]. intros s σ H. by exists σ.
  - intros w1 w2 w3 (Hs & He & Hh) (Hs' & He' & Hh'). split_and!; [congruence..|].
    intros s σ H. destruct (Hh s σ H) as (σ' & H1 & H2). destruct (Hh' s σ' H1) as (σ'' & ? & ?).
    exists σ''. split; [done|congruence].
Qed.

(** The map leads to sessions. *)
Definition grounded (w : World) : Prop := ∀ c s, w.(sessions) !! c = Some s → is_Some (w.(heap) !! s).

Lemma same_links_table w w' : grounded w → same_links w w' → table w' = table w.
Proof.
  intros Hg (Hs & He & Hh). unfold table. rewrite Hs, He. f_equal. apply map_eq. intros c.
  rewrite !lookup_fmap. destruct (w.(sessions) !! c) as [s|] eqn:E; [|done]. cbn. f_equal.
  destruct (Hg c s E) as [σ Hσ]. destruct (Hh s σ Hσ) as (σ' & Hσ' & Hl).
  by rewrite (lookup_total_correct _ _ _ Hσ), (lookup_total_correct _ _ _ Hσ').
Qed.

Lemma table_lookup c s σ w :
  w.(sessions) !! c = Some s → w.(heap) !! s = Some σ → (table w).(links) !! c = Some (link_of σ).
Proof.
  intros Hs Hσ. unfold table. cbn. by rewrite lookup_fmap, Hs; cbn; rewrite (lookup_total_correct _ _ _ Hσ).
Qed.

Fixpoint settled {A} (p : prog World A) : Prop :=
  match p with
  | Ret _ => True
  | Act f k => (∀ w, same_links w (f w).2) ∧ ∀ b, settled (k b)
  end.

Lemma settled_bind {A B} (p : prog World A) (k : A → prog World B) :
  settled p → (∀ a, settled (k a)) → settled (bind p k).
Proof. induction p as [|C f c IH]; cbn; [auto|]. intros [? ?] Hk. auto. Qed.

Lemma settled_run {A} (p : prog World A) w : settled p → same_links w (run p w).2.
Proof.
  revert w. induction p as [|B f k IH]; cbn; intros w; [done|]. intros [Hf Hk].
  etransitivity; [apply Hf|by apply IH].
Qed.

Lemma settled_atomic {A} (p : prog World A) : settled p → settled (atomic p).
Proof. intros Hp. split; [|done]. intros w. by apply settled_run. Qed.

(** An action on neither sessions nor events; an update of a session that keeps
    its link; an event that announces nothing. *)
Lemma settled_act {B} (f : World → B * World) :
  (∀ w, (f w).2.(sessions) = w.(sessions) ∧ (f w).2.(World.events) = w.(World.events) ∧
        (f w).2.(heap) = w.(heap)) → settled (act f).
Proof.
  intros Hf. split; [|done]. intros w. destruct (Hf w) as (H1 & H2 & H3).
  split_and!; [done|by rewrite H2|]. intros s σ H. exists σ. by rewrite H3.
Qed.

Lemma settled_store s g : (∀ σ, link_of (g σ) = link_of σ) → settled (store s g).
Proof.
  intros Hg. split; [|done]. intros w. split_and!; [done..|]. intros s' σ H. cbn.
  destruct (decide (s = s')) as [<-|Hne].
  - exists (g σ). by rewrite lookup_alter_eq, H.
  - exists σ. by rewrite lookup_alter_ne.
Qed.

Lemma settled_event a : settled (event_send (Disconnected a)).
Proof.
  split; [|done]. intros w. split_and!; [done| |].
  - cbn. by rewrite omap_app, app_nil_r.
  - intros s σ H. by exists σ.
Qed.
End View.

Create HintDb settled discriminated.
#[export] Hint Resolve settled_event : settled.

Ltac settled_tac :=
  repeat first
    [ progress (cbv zeta beta)
    | done
    | solve [auto with settled]
    | apply settled_atomic
    | apply settled_store; intros ?; reflexivity
    | apply settled_bind; [|intros ?]
    | progress unfold bind_result, load, get, modify, epoch_ms, current_ms, random_conv, map_get,
        try_send_to, send_to
    | apply settled_act; intros ?; split_and!; reflexivity
    | case_match ].

(** ** Operations that leave the table alone *)

Section Settled.
Context {K : KcpLib} {os : Os}.

Lemma settled_run_kio {A} o (p : kio A) : settled (DirectOutput.run_kio o p).
Proof.
  revert o. induction p as [a|frame k IH]; intros o; cbn [DirectOutput.run_kio]; [done|].
  apply settled_bind; [|intros x; apply IH]. unfold DirectOutput.write. settled_tac.
Qed.

#[local] Hint Resolve settled_run_kio : settled.

Lemma settled_kcp_call {A} s (op : kcp_t → kio (kcp_t * Result A kcp_error)) :
  settled (Session.kcp_call s op).
Proof. unfold Session.kcp_call. settled_tac. Qed.

#[local] Hint Resolve settled_kcp_call : settled.

Lemma settled_send_data s data : settled (Session.send_data s data).
Proof. unfold Session.send_data, Session.update_flush. settled_tac. Qed.

Lemma settled_recv_loop fuel s out : settled (Session.recv_loop fuel s out).
Proof. revert out. induction fuel as [|fuel IH]; intros out; cbn [Session.recv_loop]; settled_tac. Qed.

Lemma settled_send_reset conv to : settled (KcpPeer.send_reset conv to).
Proof. unfold KcpPeer.send_reset. cbn [repeat_prog]. settled_tac. Qed.

Lemma settled_send_syn s : settled (Session.send_syn s).
Proof. unfold Session.send_syn. settled_tac. Qed.

Lemma settled_mark_closed s : settled (Session.mark_closed s).
Proof. unfold Session.mark_closed. settled_tac. Qed.

Lemma settled_filter_open l : settled (KcpPeer.filter_open l).
Proof. induction l as [|s l IH]; cbn [KcpPeer.filter_open]; settled_tac. Qed.

#[local] Hint Resolve settled_send_data settled_recv_loop settled_send_reset settled_send_syn
  settled_mark_closed settled_filter_open : settled.

Lemma settled_for_each {A} (l : list A) (f : A → prog World unit) :
  (∀ x, settled (f x)) → settled (for_each l f).
Proof. intros H. induction l as [|x l IH]; cbn [for_each]; settled_tac. Qed.

Lemma settled_scan_session config now_ms now_epoch s :
  settled (scan_session config now_ms now_epoch s).
Proof. unfold scan_session, Session.maybe_retry_syn, Session.update. settled_tac. Qed.

#[local] Hint Resolve settled_scan_session : settled.

Lemma settled_scan config now_ms now_epoch entries rem :
  settled (scan config now_ms now_epoch entries rem).
Proof. revert rem. induction entries as [|[can s] l IH]; intros rem; cbn [scan]; settled_tac. Qed.

Lemma settled_shutdown : settled KcpPeer.shutdown.
Proof.
  unfold KcpPeer.shutdown, KcpPeer.session_values. settled_tac. apply settled_for_each. intros s.
  unfold KcpPeer.shutdown_session. settled_tac.
Qed.

Lemma settled_peers : settled KcpPeer.peers.
Proof. unfold KcpPeer.peers, KcpPeer.session_values. settled_tac. Qed.

Lemma settled_stats peer : settled (KcpPeer.stats peer).
Proof. unfold KcpPeer.stats. settled_tac. Qed.

Lemma settled_recv polls : settled (KcpPeer.recv polls) ∧ settled (KcpPeer.recv_wait polls).
Proof.
  induction polls as [|polls [IH1 IH2]]; [done|]. cbn [KcpPeer.recv KcpPeer.recv_wait].
  unfold KcpPeer.pop_front, KcpPeer.take_permit. split; settled_tac;
    apply settled_act; intros w; cbn; by destruct (pending w).
Qed.

Lemma settled_kcp_data payload from : settled (handle_kcp_data payload from).
Proof.
  unfold handle_kcp_data, Session.input, Session.try_recv_all, push_messages. settled_tac.
Qed.
End Settled.

#[export] Hint Resolve settled_send_data settled_send_reset settled_send_syn settled_mark_closed
  settled_scan settled_shutdown settled_peers settled_stats settled_kcp_data : settled.
