(* ===== verification/Links.v ===== *)
(** * A node is a table of links

    Every action of every task, in every interleaving, is a step of the table of
    Table.v or leaves it alone; so [Connected] is fired exactly when an entry of
    the session map becomes established, and [PeerRestarted] only for one that
    is. *)


From S2P Require Import Prelude Prog Packet Kcp Addr Errors Config World Session Transport.
From S2P Require Import Incoming Update Invariant Toy Tasks.
From S2P Require Import Effects SessionSpec IncomingSpec Table.
Open Scope prog_scope.

(** ** Programs that follow the specification

    A task may hold one session that it has allocated and not filed yet: no
    other task knows it, and the task files it in the state it was made in. *)

Section Obeys.
Context {K : KcpLib} {os : Os} {OL : OsLaws os}.

Definition holding : Type := option (nat * SessionState).

Definition holds (o : holding) (w : World) : Prop :=
  match o with
  | None => True
  | Some (s, st) => private w s ∧ ∃ σ, w.(heap) !! s = Some σ ∧ σ.(inner).(state) = st
  end.

(** What the other tasks hold stays theirs, in the state it is in. *)
Definition spares (o : holding) (w w' : World) : Prop :=
  ∀ s σ, w.(heap) !! s = Some σ → private w s → fst <$> o ≠ Some s →
    private w' s ∧ ∃ σ', w'.(heap) !! s = Some σ' ∧ σ'.(inner).(state) = σ.(inner).(state).

(** What a task holds after an action is what it held, or new. *)
Definition acquires (o o' : holding) (w : World) : Prop :=
  ∀ s st, o' = Some (s, st) → o = Some (s, st) ∨ w.(heap) !! s = None.

Definition follows (t t' : Table) : Prop := t' = t ∨ table_step t t'.

Fixpoint obeys {A} (o : holding) (p : prog World A) : Prop :=
  match p with
  | Ret _ => True
  | Act f k => ∀ w, any_inv w → holds o w →
      follows (table w) (table (f w).2) ∧ spares o w (f w).2 ∧
      ∃ o', holds o' (f w).2 ∧ acquires o o' w ∧ obeys o' (k (f w).1)
  end.

Lemma inv_grounded w : any_inv w → grounded w.
Proof. intros [[_ Hm] _] c s Hs. destruct (Hm c s Hs) as (σ & Hσ & _). by exists σ. Qed.

Lemma same_private w w' s : same_links w w' → private w s → private w' s.
Proof. intros (Hs & _) Hp c. rewrite Hs. apply Hp. Qed.

Lemma same_spares o w w' : same_links w w' → spares o w w'.
Proof.
  intros H s σ Hσ Hp _. split; [by eapply same_private|].
  destruct H as (_ & _ & Hh). destruct (Hh s σ Hσ) as (σ' & ? & [= ? _]). by exists σ'.
Qed.

Lemma same_holds o w w' : same_links w w' → holds o w → holds o w'.
Proof.
  destruct o as [[s st]|]; [|done]. intros H (Hp & σ & Hσ & Hst). split; [by eapply same_private|].
  destruct H as (_ & _ & Hh). destruct (Hh s σ Hσ) as (σ' & ? & [= ? _]). exists σ'.
  split; [done|congruence].
Qed.

Lemma acquires_refl o w : acquires o o w.
Proof. by left. Qed.

Lemma acquires_none o w : acquires o None w.
Proof. done. Qed.

Lemma settled_obeys {A} o (p : prog World A) : settled p → obeys o p.
Proof.
  induction p as [|B f k IH]; cbn; [done|]. intros [Hf Hk] w Hw Ho. split_and!.
  - left. apply same_links_table; [by apply inv_grounded|done].
  - by apply same_spares.
  - exists o. split_and!; [by apply (same_holds o w)|apply acquires_refl|auto].
Qed.

Lemma obeys_bind {A B} o (p : prog World A) (k : A → prog World B) :
  settled p → (∀ a, obeys o (k a)) → obeys o (bind p k).
Proof.
  induction p as [|C f c IH]; cbn; [auto|]. intros [Hf Hc] Hk w Hw Ho. split_and!.
  - left. apply same_links_table; [by apply inv_grounded|done].
  - by apply same_spares.
  - exists o. split_and!; [by apply (same_holds o w)|apply acquires_refl|auto].
Qed.

(** A program that holds nothing does what one that does may do. *)
Lemma obeys_none {A} o (p : prog World A) : obeys None p → obeys o p.
Proof.
  destruct p as [|B f k]; cbn; [done|]. intros Hp w Hw _. destruct (Hp w Hw I) as (Ht & Hs & o' & ? & Ha & ?).
  split_and!; [done| |].
  - intros s σ Hσ Hpr _. by apply Hs.
  - exists o'. split_and!; [done| |done]. intros s st E. right. by destruct (Ha s st E).
Qed.

Lemma obeys_then {A B} o (p : prog World A) (k : A → prog World B) :
  obeys o p → (∀ a, obeys None (k a)) → obeys o (bind p k).
Proof.
  intros Hp Hk. revert o Hp. induction p as [a|C f c IH]; cbn; intros o Hp; [by apply obeys_none|].
  intros w Hw Ho. destruct (Hp w Hw Ho) as (? & ? & o' & ? & ? & ?).
  split_and!; [done..|]. exists o'. split_and!; [done..|auto].
Qed.

(** An action that holds nothing before or after. *)
Lemma obeys_act {B} (f : World → B * World) :
  (∀ w, any_inv w → follows (table w) (table (f w).2) ∧ spares None w (f w).2) → obeys None (act f).
Proof.
  intros Hf w Hw _. destruct (Hf w Hw). split_and!; [done..|]. exists None. by split_and!.
Qed.

(** ** Removing *)

Lemma removes_follows c w w' :
  any_inv w → same_links (upd_sessions (delete c) w) w' →
  follows (table w) (table w') ∧ spares None w w'.
Proof.
  intros Hw Hsame. assert (Hg : grounded (upd_sessions (delete c) w)).
  { intros c' s Hs. cbn in Hs. rewrite lookup_delete in Hs. case_decide; [done|].
    exact (inv_grounded w Hw c' s Hs). }
  split.
  - rewrite (same_links_table _ _ Hg Hsame). unfold table. cbn. rewrite fmap_delete.
    destruct (w.(sessions) !! c) as [s|] eqn:E.
    + right. eapply remove. by rewrite lookup_fmap, E.
    + left. rewrite delete_id; [done|]. by rewrite lookup_fmap, E.
  - intros s σ Hσ Hp Hne. apply (same_spares None _ _ Hsame s σ Hσ); [|done].
    intros c' Hc'. cbn in Hc'. rewrite lookup_delete in Hc'. case_decide; [done|]. by eapply Hp.
Qed.

Lemma obeys_removal {B} c (k : option nat → prog World B) :
  (∀ o, settled (k o)) → obeys None (atomic (bind (map_remove c) k)).
Proof.
  intros Hk. apply obeys_act. intros w Hw. unfold map_remove. rewrite run_bind, run_act. cbn [fst snd].
  apply (removes_follows c); [done|]. apply settled_run, Hk.
Qed.

Lemma obeys_remove {B} c (k : option nat → prog World B) :
  (∀ o, settled (k o)) → obeys None (bind (map_remove c) k).
Proof.
  intros Hk w Hw _. change (map_remove c) with (act (λ w, (w.(sessions) !! c, upd_sessions (delete c) w))).
  destruct (removes_follows c w (upd_sessions (delete c) w) Hw) as [H1 H2]; [reflexivity|].
  split_and!; [exact H1|exact H2|]. exists None. split; [done|]. split; [done|].
  apply settled_obeys, Hk.
Qed.

Lemma obeys_prune c : obeys None (prune c).
Proof. apply obeys_removal. intros [s|]; settled_tac. Qed.

Lemma obeys_disconnect peer : obeys None (KcpPeer.disconnect peer).
Proof. apply obeys_removal. intros [s|]; settled_tac. Qed.

Lemma obeys_for_each {A} (l : list A) (f : A → prog World unit) :
  (∀ x, obeys None (f x)) → obeys None (for_each l f).
Proof. intros H. induction l as [|x l IH]; cbn [for_each]; [done|]. by apply obeys_then. Qed.

Lemma obeys_tick config : obeys None (update_tick config).
Proof.
  unfold update_tick. apply obeys_bind; [settled_tac|]. intros m. case_decide; [done|].
  do 3 (apply obeys_bind; [settled_tac|]; intros ?). apply obeys_bind; [settled_tac|]. intros rem.
  apply obeys_for_each, obeys_prune.
Qed.

Lemma obeys_update n config : obeys None (update_task n config).
Proof.
  induction n as [|n IH]; cbn [update_task]; [done|].
  apply obeys_then; [|by intros []]. unfold update_iteration. apply obeys_bind; [settled_tac|].
  intros [|]; [done|]. apply obeys_then; [apply obeys_tick|done].
Qed.

Lemma obeys_reset payload from : obeys None (handle_reset payload from).
Proof.
  unfold handle_reset, invalid_data. case_decide; [done|]. cbv zeta.
  apply obeys_bind; [settled_tac|]. intros [s|]; [|done]. apply obeys_bind; [settled_tac|]. intros c.
  case_match; [|done]. apply obeys_remove. intros o. settled_tac.
Qed.
(** ** Becoming established *)

Lemma settled_follows {A} (p : prog World A) w :
  any_inv w → settled p → follows (table w) (table (run p w).2) ∧ spares None w (run p w).2.
Proof.
  intros Hw Hp. pose proof (settled_run p w Hp) as H. split; [left|by apply same_spares].
  apply same_links_table; [by apply inv_grounded|done].
Qed.

(** The session filed under [from] is put in another state; whether [from]'s
    entry is the only one that shows it follows from the invariant. *)
Lemma table_filed from s σ σ' w w' :
  any_inv w → w.(sessions) !! canonicalize from = Some s → w.(heap) !! s = Some σ →
  w'.(sessions) = w.(sessions) → w'.(heap) = <[s := σ']> w.(heap) →
  (table w').(links) = <[canonicalize from := link_of σ']> (table w).(links) ∧
  spares None w w'.
Proof.
  intros [[_ Hm] _] Hs Hσ Hs' Hh. destruct (Hm _ _ Hs) as (σ1 & H1 & Hp). assert (σ1 = σ) as -> by congruence.
  split.
  - unfold table. cbn. rewrite Hs', Hh. apply map_eq. intros c. rewrite lookup_fmap, lookup_insert.
    case_decide as Hc.
    + subst c. rewrite Hs. cbn. by rewrite lookup_total_insert_eq.
    + rewrite lookup_fmap. destruct (w.(sessions) !! c) as [s'|] eqn:E; [|done]. cbn. f_equal.
      rewrite lookup_total_insert_ne; [done|]. intros <-. destruct (Hm _ _ E) as (σ2 & H2 & Hp2). congruence.
  - intros s' σ0 H0 Hp0 _. split; [intros c; rewrite Hs'; apply Hp0|]. exists σ0. split; [|done].
    rewrite Hh, lookup_insert_ne; [done|]. intros <-. by apply (Hp0 (canonicalize from)).
Qed.

Lemma establishes_follows s σ conv from w w' :
  any_inv w → w.(sessions) !! canonicalize from = Some s → w.(heap) !! s = Some σ →
  σ.(inner).(state) = SynSent → establishes s σ conv from w w' →
  follows (table w) (table w') ∧ spares None w w'.
Proof.
  intros Hw Hs Hσ Hst (o & _ & Hw'). rewrite Hw'.
  match goal with |- follows _ (table ?w1) ∧ _ =>
    destruct (table_filed from s σ _ w w1 Hw Hs Hσ eq_refl eq_refl) as [Ht Hsp] end.
  split; [right|exact Hsp]. cbn [links table] in Ht. unfold table at 2. rewrite Ht.
  cbn [World.events push_event upd_heap add_sent tick_clock]. rewrite omap_app. cbn.
  eapply complete. unfold table. cbn. rewrite lookup_fmap, Hs. cbn.
  rewrite (lookup_total_correct _ _ _ Hσ). unfold link_of. by rewrite Hst.
Qed.

Lemma obeys_syn_check conv from me : obeys None (syn_check conv from me).
Proof.
  apply obeys_act. intros w Hw. unfold map_get. rewrite run_bind, run_get. cbn [fst snd].
  destruct (w.(sessions) !! canonicalize from) as [s|] eqn:Hs; [|by apply (settled_follows (Ret _))].
  destruct (proj2 (proj1 Hw) _ _ Hs) as (σ & Hσ & Hp). loads. cbv zeta.
  destruct (_ =? conv) eqn:Hc; destruct (state (inner σ)) eqn:Hst.
  - apply settled_follows; [done|]. settled_tac.
  - apply settled_follows; [done|]. settled_tac.
  - apply Z.eqb_neq in Hc. destruct (addr_gt from me).
    + match goal with |- context [Ret ?r] =>
        destruct (run_adopt s σ conv from r w Hσ (not_eq_sym Hc)) as (w' & -> & H) end.
      by eapply establishes_follows.
    + match goal with |- context [Ret ?r] =>
        destruct (run_establish s σ from r w Hσ) as (w' & -> & H) end.
      by eapply establishes_follows.
  - unfold Session.mark_closed. rewrite (run_store_bind _ _ _ _ _ Hσ).
    unfold event_send. rewrite run_bind, run_modify. cbn [fst snd run].
    set (w1 := push_event _ _).
    destruct (table_filed from s σ (set_closed true σ) w w1 Hw Hs Hσ eq_refl eq_refl) as [Ht Hsp].
    split; [right|exact Hsp]. assert (Hl : (table w).(links) !! canonicalize from = Some (link_of σ))
      by (by eapply table_lookup).
    assert (table w1 = MkTable (table w).(links) ((table w).(notices) ++ [Restarted (canonicalize from)])) as ->.
    { change (table w1) with (MkTable (table w1).(links) (omap notice w1.(World.events))). f_equal.
      - rewrite Ht. by apply insert_id.
      - unfold w1. cbn. by rewrite omap_app. }
    destruct (table w) as [m l]. cbn in *. eapply restart. rewrite Hl. unfold link_of. by rewrite Hst.
Qed.

Lemma obeys_syn_ack data payload from :
  split_packet data = Some (SynAck, payload) → obeys None (handle_syn_ack payload from).
Proof.
  intros Hd. unfold handle_syn_ack. case_decide as Hl; [done|]. cbv zeta.
  apply obeys_act. intros w Hw.
  pose proof (syn_ack_spec_run data payload from 0 default w Hd ltac:(lia)) as H.
  rewrite (handle_control _ _ _ _ _ _ Hd) in H. unfold handle_syn_ack in H.
  rewrite decide_False in H by lia. cbv zeta in H. rewrite run_atomic in H.
  match goal with |- follows _ (table ?x.2) ∧ _ => set (r := x) in *; change (run _ w) with r in H end.
  assert (Hsame : r.2 = w → follows (table w) (table r.2) ∧ spares None w r.2).
  { intros ->. by apply (settled_follows (Ret tt)). }
  destruct (w.(sessions) !! canonicalize from) as [s|] eqn:Hs; [|by apply Hsame; rewrite H].
  destruct (proj2 (proj1 Hw) _ _ Hs) as (σ & Hσ & Hp). specialize (H σ Hσ).
  case_decide as Hc; [|by apply Hsame; rewrite H].
  destruct H as (w1 & Hest & ->). by eapply establishes_follows; [..|apply Hc|].
Qed.

(** ** Filing a new session *)

Lemma obeys_new {A} σ (k : nat → prog World A) :
  (∀ s, obeys (Some (s, σ.(inner).(state))) (k s)) → obeys None (bind (arc_new σ) k).
Proof.
  intros Hk w Hw _. change (arc_new σ) with (act (λ w : World, (w.(next), alloc_session σ w))).
  assert (Hfresh : w.(heap) !! w.(next) = None).
  { apply eq_None_not_Some. intros [σ0 H0]. destruct (proj1 (proj1 Hw) _ _ H0). lia. }
  assert (Hsame : same_links w (alloc_session σ w)).
  { split_and!; [done..|]. intros s σ0 H0. exists σ0. split; [|done]. cbn.
    rewrite lookup_insert_ne; [done|]. intros <-. congruence. }
  cbn [bind act fst snd]. split; [|split; [by apply same_spares|]].
  - left. apply same_links_table; [by apply inv_grounded|done].
  - exists (Some (w.(next), σ.(inner).(state))). split; [|split; [|apply Hk]].
    + split; [|exists σ; split; [apply lookup_insert_eq|done]]. intros c Hc. cbn in Hc.
      destruct (inv_grounded w Hw c _ Hc) as [? ?]. congruence.
    + intros s st [= <- <-]. by right.
Qed.

(** What is filed is shown; the other private sessions stay private. *)
Lemma files c s st w :
  any_inv w → holds (Some (s, st)) w →
  ∃ conv, ((λ s0, link_of (w.(heap) !!! s0)) <$> <[c := s]> w.(sessions)) =
      <[c := MkLink st conv]> (table w).(links) ∧
    spares (Some (s, st)) w (upd_sessions (<[c := s]>) w).
Proof.
  intros Hw (Hp & σ & Hσ & Hst). exists σ.(inner).(conv_id). split.
  - rewrite fmap_insert. unfold table. cbn. do 2 f_equal. rewrite (lookup_total_correct _ _ _ Hσ).
    unfold link_of. by rewrite Hst.
  - intros s' σ' Hσ' Hp' Hne. split; [|by exists σ']. intros c' Hc'. cbn in *.
    rewrite lookup_insert in Hc'. case_decide; [|by eapply Hp']. injection Hc' as <-. by apply Hne.
Qed.

Lemma obeys_insert_inbound from s : obeys (Some (s, Established)) (insert_inbound from s).
Proof.
  intros w Hw Ho. destruct (files (canonicalize from) s Established w Hw Ho) as (conv & Ht & Hs).
  change (run _ w).2 with
    (push_event (Connected from) (upd_sessions (<[canonicalize from := s]>) w)).
  split; [|split; [exact Hs|exists None; by split_and!]]. right. unfold table at 2. cbn.
  rewrite Ht, omap_app. cbn. apply accept.
Qed.

Lemma obeys_insert_if_absent {A} c s (k : option nat → prog World A) :
  (∀ o, settled (k o)) → obeys (Some (s, SynSent)) (bind (KcpPeer.insert_if_absent c s) k).
Proof.
  intros Hk. set (f := run (o <- map_get c ;;
    match o with
    | Some existing => Ret (Some existing)
    | None => map_insert c s ;; Ret None
    end)).
  change (bind (KcpPeer.insert_if_absent c s) k) with (Act f k). intros w Hw Ho.
  assert (Hf : f w = match w.(sessions) !! c with
    | Some e => (Some e, w)
    | None => (None, upd_sessions (<[c := s]>) w)
    end).
  { unfold f, map_get, map_insert. rewrite run_bind, run_get. cbn [fst snd].
    by destruct (sessions w !! c). }
  destruct (files c s SynSent w Hw Ho) as (conv & Ht & Hs).
  rewrite Hf. destruct (w.(sessions) !! c) as [e|] eqn:E; cbn [fst snd].
  - split; [by left|]. split; [by apply same_spares|]. exists None. split; [done|]. split; [done|].
    apply settled_obeys, Hk.
  - split; [right|split; [exact Hs|exists None; split; [done|]; split; [done|]; apply settled_obeys, Hk]].
    unfold table at 2. cbn [sessions heap World.events upd_sessions]. rewrite Ht.
    apply dial. unfold table. cbn. by rewrite lookup_fmap, E.
Qed.

(** ** The tasks of a node *)

Lemma obeys_send self peer data : obeys None (KcpPeer.send self peer data).
Proof.
  unfold KcpPeer.send. cbv zeta. apply obeys_bind; [settled_tac|].
  intros [s|]; [apply settled_obeys; settled_tac|].
  apply obeys_then; [|intros s; apply settled_obeys; settled_tac].
  unfold KcpPeer.initiate_session. cbv zeta. apply obeys_bind; [settled_tac|]. intros [e|]; [done|].
  apply obeys_bind; [settled_tac|]. intros conv. unfold Session.new_outbound.
  match goal with |- obeys None (bind (bind ?p ?k1) ?k2) =>
    change (obeys None (bind p (λ now, bind (k1 now) k2))) end.
  apply obeys_bind; [settled_tac|]. intros now. cbv beta zeta.
  apply (obeys_new (Session.new_session _ _ _ _ _ _ _)). intros s. cbn [state inner].
  apply (obeys_insert_if_absent (canonicalize peer) s). intros [e|]; settled_tac.
Qed.

Lemma obeys_accept conv from inc config :
  obeys None (s <- Session.new_inbound conv from inc config ;;
          insert_inbound from s ;; Ret (Ok tt : Result unit Error)).
Proof.
  change (obeys None (send_to (encode_control SynAck conv) from ;;
    now <- epoch_ms ;;
    s <- arc_new (Session.new_session (apply_to config (kcp_new conv)) conv from Established inc now 0) ;;
    insert_inbound from s ;; Ret (Ok tt : Result unit Error))).
  apply obeys_bind; [settled_tac|]. intros _. apply obeys_bind; [settled_tac|]. intros now.
  apply obeys_new. intros s. apply obeys_then; [apply obeys_insert_inbound|done].
Qed.

Lemma obeys_incoming data from inc config : obeys None (handle_incoming data from inc config).
Proof.
  unfold handle_incoming, invalid_data. destruct (split_packet data) as [[[] payload]|] eqn:Hd; [..|done].
  - apply settled_obeys, settled_kcp_data.
  - unfold handle_syn, invalid_data. case_decide; [done|]. cbv zeta. destruct os_local_addr; [|done].
    apply obeys_then; [apply obeys_syn_check|]. intros r. apply obeys_bind; [settled_tac|]. intros _.
    destruct r.(action); [apply obeys_accept|done|done].
  - by eapply obeys_syn_ack.
  - apply obeys_reset.
Qed.

Lemma obeys_receive inbox inc config : obeys None (receive_task inbox inc config).
Proof.
  induction inbox as [|r inbox IH]; cbn [receive_task]; [done|].
  apply obeys_then; [|by intros []]. unfold receive_iteration.
  apply obeys_bind; [settled_tac|]. intros [|]; [done|].
  destruct r as [[data from]|]; [|done]. apply obeys_then; [apply obeys_incoming|done].
Qed.

Lemma obeys_task self t : obeys None (task_prog self t).
Proof.
  destruct t; cbn [task_prog].
  - apply obeys_then; [apply obeys_send|done].
  - apply obeys_then; [apply settled_obeys, settled_recv|done].
  - apply obeys_then; [apply settled_obeys, settled_peers|done].
  - apply obeys_then; [apply settled_obeys, settled_stats|done].
  - apply obeys_disconnect.
  - apply settled_obeys, settled_shutdown.
  - apply obeys_then; [apply obeys_incoming|done].
  - apply obeys_then; [apply obeys_receive|done].
  - apply obeys_tick.
  - apply obeys_then; [apply obeys_update|done].
Qed.
End Obeys.

(** ** Every interleaving *)

Section Pools.
Context {K : KcpLib} {os : Os} {OL : OsLaws os} (self : KcpPeer).

(** Every task follows the specification with what it holds, and no two tasks
    hold the same session. *)
Definition orderly (c : pool) : Prop :=
  ∃ hs : list holding, Forall2 obeys hs c.1 ∧ Forall (λ o, holds o c.2) hs ∧
    ∀ i j s st st', hs !! i = Some (Some (s, st)) → hs !! j = Some (Some (s, st')) → i = j.

Lemma holds_others (hs : list holding) i o o' w w' :
  hs !! i = Some o → spares o w w' → holds o' w' →
  (∀ i j s st st', hs !! i = Some (Some (s, st)) → hs !! j = Some (Some (s, st')) → i = j) →
  Forall (λ o, holds o w) hs → Forall (λ o, holds o w') (<[i := o']> hs).
Proof.
  intros Hi Hs Ho' Hd Hall. apply Forall_lookup. intros j oj Hj.
  apply list_lookup_insert_Some in Hj as [(_ & <- & _)|[Hne Hj]]; [done|].
  pose proof (Forall_lookup_1 _ _ _ _ Hall Hj) as Hh. destruct oj as [[s st]|]; [|done].
  destruct Hh as (Hp & σ & Hσ & Hst). destruct (Hs s σ Hσ Hp) as (Hp' & σ' & Hσ' & Hst').
  - intros E. apply Hne. destruct o as [[s0 st0]|]; [|done]. injection E as ->. by eapply Hd.
  - split; [done|]. exists σ'. split; [done|congruence].
Qed.

Lemma apart_insert (hs : list holding) i o o' w :
  hs !! i = Some o → acquires o o' w → Forall (λ o, holds o w) hs →
  (∀ i j s st st', hs !! i = Some (Some (s, st)) → hs !! j = Some (Some (s, st')) → i = j) →
  ∀ i1 j1 s st st', <[i := o']> hs !! i1 = Some (Some (s, st)) →
    <[i := o']> hs !! j1 = Some (Some (s, st')) → i1 = j1.
Proof.
  intros Hi Ha Hall Hd i1 j1 s st st' H1 H2.
  assert (Hnew : ∀ j st0 st1, hs !! j = Some (Some (s, st0)) → o' = Some (s, st1) → i = j).
  { intros j st0 st1 Hj E. destruct (Ha s st1 E) as [->|Hn]; [by eapply Hd|].
    destruct (Forall_lookup_1 _ _ _ _ Hall Hj) as (_ & σ & Hσ & _). congruence. }
  apply list_lookup_insert_Some in H1 as [(<- & E1 & _)|[Hn1 H1]];
    apply list_lookup_insert_Some in H2 as [(<- & E2 & _)|[Hn2 H2]]; [done|..].
  - by eapply Hnew.
  - symmetry. by eapply Hnew.
  - by eapply Hd.
Qed.

Lemma orderly_step c c' :
  pool_ok any_inv evolves c → pool_step (spawnable self) c c' → orderly c →
  orderly c' ∧ follows (table c.2) (table c'.2).
Proof.
  intros [Hw _] Hstep (hs & Hts & Hall & Hd).
  destruct Hstep as [i B f k ts w Hi|p ts w (t & _ & ->)|i ts w]; cbn [fst snd] in *.
  - destruct (Forall2_lookup_r _ _ _ _ _ Hts Hi) as (o & Ho & Hp).
    destruct (Hp w Hw (Forall_lookup_1 _ _ _ _ Hall Ho)) as (Hf & Hs & o' & Ho' & Ha & Hk).
    split; [|done]. exists (<[i := o']> hs). split; [by apply Forall2_insert|]. split.
    + by eapply holds_others.
    + by eapply apart_insert.
  - split; [|by left]. exists (hs ++ [None]). split; [|split].
    + apply Forall2_app; [done|]. constructor; [apply obeys_task|constructor].
    + apply Forall_app. split; [done|by constructor].
    + intros i j s st st' Hi Hj. apply lookup_snoc_Some in Hi as [[_ Hi]|[_ Hi]]; [|done].
      apply lookup_snoc_Some in Hj as [[_ Hj]|[_ Hj]]; [|done]. by eapply Hd.
  - split; [|by left]. destruct (ts !! i) as [p|] eqn:Hi.
    + destruct (Forall2_lookup_r _ _ _ _ _ Hts Hi) as (o & Ho & _).
      exists (<[i := None]> hs). split; [by apply Forall2_insert|]. split.
      * apply (holds_others hs i o None w w); try done. intros s σ Hσ Hp _. split; [done|by exists σ].
      * by apply (apart_insert hs i o None w).
    + exists hs. rewrite list_insert_ge by (by apply lookup_ge_None). by split_and!.
Qed.

Lemma table_empty : table KcpPeer.empty_world = MkTable ∅ [].
Proof. reflexivity. Qed.

Lemma node_orderly c :
  node_reach self c →
  pool_ok any_inv evolves c ∧ orderly c ∧ rtc table_step (MkTable ∅ []) (table c.2).
Proof.
  intros Hr. refine (rtc_ind_r (λ c, pool_ok any_inv evolves c ∧ orderly c ∧
    rtc table_step (MkTable ∅ []) (table c.2)) ([], KcpPeer.empty_world) _ _ _ Hr).
  - split; [split; [apply empty_world_full|constructor]|]. split.
    + exists []. split; [constructor|]. split; [constructor|]. by intros i j s st st'.
    + cbn [snd]. by rewrite table_empty.
  - intros c1 c2 _ Hstep (Hok & Ho & Ht). destruct (orderly_step _ _ Hok Hstep Ho) as [Ho' Hf].
    split; [|split; [done|]].
    + exact (proj1 (pool_step_ok (spawnable self) any_inv evolves (spawn_safe self) _ _ Hstep Hok)).
    + destruct Hf as [->|Hf]; [done|by eapply rtc_r].
Qed.

(** C3. Every interleaving of a node's tasks refines the table of links: the node
    starts as the empty table, and every action of every task, whatever the
    others have done and wherever tasks are cancelled, is one step of the table
    or leaves it alone. So an address is dialled only when it has no link, and
    [Connected] is fired for it in the very action that makes its link
    established, [PeerRestarted] only while it is; in particular every
    established link was announced by a [Connected]. *)
Theorem node_refines_links ts w :
  node_reach self (ts, w) →
  rtc table_step (MkTable ∅ []) (table w) ∧ announced (table w) ∧
  ∀ ts' w', pool_step (spawnable self) (ts, w) (ts', w') → follows (table w) (table w').
Proof.
  intros Hr. destruct (node_orderly _ Hr) as (Hok & Ho & Ht). split_and!; [exact Ht| |].
  - cbn [snd] in Ht. refine (rtc_ind_r (λ t, announced t) (MkTable ∅ []) _ _ _ Ht).
    + intros c conv H. destruct (lookup_empty_Some c (MkLink Established conv) H).
    + intros t1 t2 _ Hstep. by apply announced_step.
  - intros ts' w' Hstep. by apply (orderly_step _ _ Hok Hstep Ho).
Qed.
End Pools.

(** On a concrete run: a connecting node is in the table. *)
Lemma node_refines_links_witness :
  rtc table_step (MkTable ∅ []) (table toy_sent) ∧ announced (table toy_sent) ∧
  ∀ ts' w', pool_step (spawnable (os := toy_os addr_a) toy_node) ([Ret tt], toy_sent) (ts', w') →
    follows (table toy_sent) (table w').
Proof.
  exact (node_refines_links (os := toy_os addr_a) (OL := toy_os_laws addr_a) toy_node
    [Ret tt] toy_sent toy_sent_reach).
Defined.
