(* ===== verification/Wire.v ===== *)
(** * What nodes put on the wire, nodes can read

    Sender and receiver composed: the packets a node sends, in any interleaving
    of its tasks, have the wire format, so that the handler of another node
    never rejects one of them as malformed. *)

From S2P Require Import Prelude Prog Packet Kcp Addr Errors Config World Session Transport.
From S2P Require Import Incoming Update Invariant Toy Tasks SessionSpec IncomingSpec.
Open Scope prog_scope.

(** Errors that are not those of a malformed packet. *)
Definition not_malformed {K : KcpLib} (r : Result unit Error) : Prop :=
  ∀ e, r = Err (Io e) → e.(kind) ≠ InvalidData.

Section Receiver.
Context {K : KcpLib} {os : Os}.

Lemma recv_loop_errors fuel s out w e :
  (run (Session.recv_loop fuel s out) w).1.2 ≠ Err (Io e).
Proof.
  revert out w. induction fuel as [|fuel IH]; intros out w; cbn [Session.recv_loop];
    unfold load; rewrite run_bind, run_get; cbn [fst snd]; destruct (kcp_peeksize _); [done..| |done].
  rewrite run_bind, run_get. cbn [fst snd]. rewrite run_bind.
  set (x := run (DirectOutput.run_kio _ _) w). destruct x as [[[[k m] [n|ke]] o] w1]; cbn [fst snd].
  - unfold store. rewrite run_bind, run_modify. cbn [fst snd]. apply IH.
  - unfold store. by rewrite run_bind, run_modify.
Qed.

Lemma try_recv_all_errors s w e : (run (Session.try_recv_all s) w).1.2 ≠ Err (Io e).
Proof.
  unfold Session.try_recv_all, load. rewrite run_atomic, run_bind, run_get.
  apply recv_loop_errors.
Qed.

Lemma kcp_data_errors payload from w : not_malformed (run (handle_kcp_data payload from) w).1.
Proof.
  unfold handle_kcp_data, map_get. rewrite run_bind, run_get. cbn [fst snd].
  destruct (sessions w !! canonicalize from) as [s|].
  - unfold epoch_ms, store. rewrite run_bind, run_act. cbn [fst snd].
    rewrite run_bind, run_modify. cbn [fst snd]. unfold bind_result. rewrite run_bind.
    unfold Session.input, bind_result. rewrite run_atomic, run_bind.
    match goal with |- context [run (Session.kcp_call s (kcp_input payload)) ?w1] =>
      destruct (run_kcp_call_result s (kcp_input payload) w1) as [r ->] end.
    destruct r as [n|ke]; cbn [map_err run fst snd]; [|intros e [= ]].
    rewrite run_bind. match goal with |- context [run (Session.try_recv_all s) ?w1] =>
      pose proof (λ e, try_recv_all_errors s w1 e) as Hrec;
      destruct (run (Session.try_recv_all s) w1) as [[[|m l] [[]|e]] w3] end;
      cbn [fst snd] in *; try (intros e' [= ->]; by destruct (Hrec e')); by rewrite ?run_bind.
  - case_decide; [|done]. rewrite run_bind. done.
Qed.

(** A packet of the wire format is not rejected as malformed. *)
Lemma typed_accepted data from me inc config w :
  os_local_addr = Ok me → packet_typed data →
  not_malformed (run (handle_incoming data from inc config) w).1.
Proof.
  intros Hme (typ & payload & Hs & Ht). rewrite (handle_control _ _ _ _ _ _ Hs).
  destruct typ; [apply kcp_data_errors| | |];
    (destruct Ht as [|(c & _ & ->)]; [done|]).
  - destruct Hs. unfold handle_syn. rewrite decide_False by (cbn; lia). cbv zeta.
    rewrite Hme, run_bind, run_bind. by destruct (action _).
  - unfold handle_syn_ack. rewrite decide_False by (cbn; lia). cbv zeta. unfold map_get.
    rewrite run_atomic, run_bind, run_get. cbn [fst snd].
    destruct (sessions w !! canonicalize from) as [s|]; [|done]. unfold load.
    rewrite run_bind, run_get. cbn [fst snd]. destruct (state _); [|done].
    case_match; [|done]. by rewrite !run_bind.
  - unfold handle_reset. rewrite decide_False by (cbn; lia). cbv zeta. unfold map_get.
    rewrite run_bind, run_get. cbn [fst snd].
    destruct (sessions w !! canonicalize from) as [s|]; [|done]. unfold load.
    rewrite run_bind, run_get. cbn [fst snd]. case_match; [|done]. by rewrite !run_bind.
Qed.
End Receiver.

(** C15. Whatever the interleaving of a node's tasks, every datagram it sends
    has the wire format: a known type byte in front, and behind it a KCP frame
    or exactly the four bytes of a 32-bit conversation id. Hence no node, in
    any state and from any address, rejects it as malformed: [InvalidData] is
    the answer to foreign packets only. *)
Theorem wire_typed {K : KcpLib} {os : Os} {OL : OsLaws os} self ts w d :
  node_reach self (ts, w) → d ∈ w.(sent) →
  (∃ typ payload, split_packet d.(dg_bytes) = Some (typ, payload) ∧
    (typ = KcpData ∨ ∃ c, u32_ok c ∧ payload = to_le_bytes c)) ∧
  ∀ (os' : Os) me from inc config w' e, os_local_addr = Ok me →
    (run (handle_incoming d.(dg_bytes) from inc config) w').1 = Err (Io e) →
    e.(kind) ≠ InvalidData.
Proof.
  intros Hr Hd. destruct (node_reach_ok self _ Hr) as [[_ (_ & Hw & _)] _].
  cbn [snd] in Hw. rewrite Forall_forall in Hw. destruct (Hw d Hd) as [Ht _].
  split; [exact Ht|]. intros os' me from inc config w' e Hme He.
  by eapply typed_accepted.
Qed.

Lemma wire_typed_witness :
  ∃ typ payload, split_packet (encode_control Syn 1) = Some (typ, payload) ∧
    (typ = KcpData ∨ ∃ c, u32_ok c ∧ payload = to_le_bytes c).
Proof.
  refine (proj1 (wire_typed (OL := toy_os_laws addr_a) toy_node [Ret tt] toy_sent
    (MkDatagram addr_b (encode_control Syn 1) (Ok 5)) toy_sent_reach _)).
  apply (list_elem_of_lookup_2 _ 0). reflexivity.
Defined.
