(* ===== verification/TransportSpec.v ===== *)
(** * What the API calls do (src/src/transport.rs, [impl KcpPeer]) *)

From S2P Require Import Prelude Prog Packet Kcp Addr Errors Config World Session Transport.
From S2P Require Import Incoming Effects Toy SessionSpec IncomingSpec Invariant Tasks.
Open Scope prog_scope.

Section TransportSpec.
Context {K : KcpLib} {os : Os}.

(** ** send *)

(** The session [initiate_session] creates, and the world after it. *)
Definition outbound_session (self : KcpPeer) (peer : SocketAddr) (w : World) : Session :=
  let conv := os_rand w.(nrand) in
  Session.new_session (apply_to self.(kp_config) (kcp_new conv)) conv peer SynSent
    self.(kp_incarnation) (now_of w) (now_of w).

Definition registered_world (self : KcpPeer) (peer : SocketAddr) (w : World) : World :=
  upd_sessions (<[canonicalize peer := w.(next)]>)
    (alloc_session (outbound_session self peer w) (tick_clock (tick_rand w))).

(** The world after [send_syn] on a session in state [σ]. *)
Definition syn_sent_world (s : nat) (σ : Session) (w : World) : World :=
  let syn := control Syn σ.(inner).(conv_id) σ.(peer_addr) w in
  let w1 := push_sent syn w in
  match syn.(dg_result) with
  | Ok _ => upd_heap (<[s := set_syn_sent_at (now_of w1) σ]>) (tick_clock w1)
  | Err _ => w1
  end.

Definition initiated_world (self : KcpPeer) (peer : SocketAddr) (w : World) : World :=
  syn_sent_world w.(next) (outbound_session self peer w) (registered_world self peer w).

Lemma run_send_syn s σ w :
  w.(heap) !! s = Some σ → run (Session.send_syn s) w = (tt, syn_sent_world s σ w).
Proof.
  intros Hσ. unfold Session.send_syn. loads. unfold send_to, syn_sent_world, control.
  rewrite run_bind, run_act. cbn [fst snd dg_result].
  destruct (send_result _ _ _); [|done]. unfold epoch_ms, store.
  rewrite run_bind, run_act, run_modify. cbn [fst snd].
  by rewrite (upd_heap_alter s _ σ).
Qed.

Lemma run_insert_absent can s w :
  w.(sessions) !! can = None →
  run (KcpPeer.insert_if_absent can s) w = (None, upd_sessions (<[can := s]>) w).
Proof.
  intros Hs. unfold KcpPeer.insert_if_absent, map_get, map_insert.
  rewrite run_atomic, run_bind, run_get. cbn [fst snd]. by rewrite Hs.
Qed.

Lemma run_new_outbound conv peer inc config w :
  run (Session.new_outbound conv peer inc config) w =
    (w.(next), alloc_session (Session.new_session (apply_to config (kcp_new conv)) conv peer
                 SynSent inc (now_of w) (now_of w)) (tick_clock w)).
Proof. done. Qed.

Lemma run_initiate self peer w :
  w.(sessions) !! canonicalize peer = None →
  run (KcpPeer.initiate_session self peer) w =
    (w.(next), initiated_world self peer w).
Proof.
  intros Hs. unfold KcpPeer.initiate_session, map_get, random_conv.
  rewrite run_bind, run_get. cbn [fst snd]. rewrite Hs, run_bind, run_act. cbn [fst snd].
  rewrite run_bind, run_new_outbound. cbn [fst snd]. rewrite run_bind.
  rewrite (run_insert_absent (canonicalize peer)) by done. cbn [fst snd].
  set (w1 := upd_sessions _ _). change w1 with (registered_world self peer w). clear w1.
  by rewrite run_bind, (run_send_syn _ (outbound_session self peer w))
    by apply lookup_insert_eq.
Qed.

Lemma send_auto_initiates_run self peer data w :
  match w.(sessions) !! canonicalize peer with
  | Some s => run (KcpPeer.send self peer data) w = run (Session.send_data s data) w
  | None =>
      let w' := initiated_world self peer w in
      run (KcpPeer.send self peer data) w = run (Session.send_data w.(next) data) w' ∧
      w'.(sessions) = <[canonicalize peer := w.(next)]> w.(sessions) ∧
      w'.(sent) = w.(sent) ++
        [control Syn (os_rand w.(nrand)) peer (registered_world self peer w)] ∧
      w'.(events) = w.(events) ∧
      ∃ σ, w'.(heap) = <[w.(next) := σ]> w.(heap) ∧
        σ.(inner).(state) = SynSent ∧ σ.(inner).(conv_id) = os_rand w.(nrand) ∧
        σ.(peer_addr) = peer ∧ σ.(closed) = false ∧ σ.(syn_retries) = 0 ∧
        σ.(inner).(kcp) = apply_to self.(kp_config) (kcp_new (os_rand w.(nrand))) ∧
        σ.(inner).(output).(out_peer) = peer
  end.
Proof.
  unfold KcpPeer.send, map_get.
  destruct (sessions w !! canonicalize peer) as [s|] eqn:Hs.
  - rewrite run_bind, run_get. cbn [fst snd]. by rewrite Hs.
  - rewrite run_bind, run_get. cbn [fst snd].
    rewrite Hs, run_bind, (run_initiate _ _ _ Hs). cbn [fst snd].
    split; [done|]. unfold initiated_world, syn_sent_world.
    destruct (dg_result _); (split_and!; [done..|]); cbn -[canonicalize].
    + eexists. split; [by rewrite insert_insert_eq|done].
    + by eexists.
Qed.

(** C24. [send] to an address with a session goes to that session; to an
    address without one, it registers a new session in [SynSent] with a
    fresh random conversation id under the canonical address, sends exactly
    one SYN with that id, and then hands the data to the new session. *)
Theorem send_auto_initiates self peer data w :
  match w.(sessions) !! canonicalize peer with
  | Some s => run (KcpPeer.send self peer data) w = run (Session.send_data s data) w
  | None =>
      let w' := initiated_world self peer w in
      run (KcpPeer.send self peer data) w = run (Session.send_data w.(next) data) w' ∧
      w'.(sessions) = <[canonicalize peer := w.(next)]> w.(sessions) ∧
      w'.(sent) = w.(sent) ++
        [control Syn (os_rand w.(nrand)) peer (registered_world self peer w)] ∧
      w'.(events) = w.(events) ∧
      ∃ σ, w'.(heap) = <[w.(next) := σ]> w.(heap) ∧
        σ.(inner).(state) = SynSent ∧ σ.(inner).(conv_id) = os_rand w.(nrand) ∧
        σ.(peer_addr) = peer ∧ σ.(closed) = false ∧ σ.(syn_retries) = 0 ∧
        σ.(inner).(kcp) = apply_to self.(kp_config) (kcp_new (os_rand w.(nrand))) ∧
        σ.(inner).(output).(out_peer) = peer
  end.
Proof. apply send_auto_initiates_run. Qed.

(** C38. [send] fails only with [SessionClosed], [DeadLink] or a KCP error, in
    every state of the node: never with [ShuttingDown], although that is what
    its documentation promises after a shutdown. *)
Theorem send_errors self peer data w e :
  (run (KcpPeer.send self peer data) w).1 = Err e →
  e = SessionClosed ∨ e = DeadLink ∨ ∃ ke, e = Kcp ke.
Proof.
  assert (Hsd : ∀ s w, (run (Session.send_data s data) w).1 = Err e →
    e = SessionClosed ∨ e = DeadLink ∨ ∃ ke, e = Kcp ke).
  { clear. intros s w. unfold Session.send_data, load. rewrite run_bind, run_get.
    cbn [fst snd]. destruct (closed _); [intros [= <-]; auto|].
    rewrite run_atomic, run_bind, run_get. cbn [fst snd].
    destruct (kcp_is_dead_link _); [intros [= <-]; auto|].
    unfold bind_result. rewrite run_bind.
    destruct (run_kcp_call_result s (kcp_send data) w) as [r ->].
    destruct r as [n|ke]; cbn [map_err]; [|intros [= <-]; eauto].
    rewrite run_bind, run_get. cbn [fst snd]. destruct (state _); [done|].
    match goal with |- context [run (Session.update_flush s) ?w1] =>
      destruct (run_update_flush_result s w1) as [r ->] end.
    destruct r as [[]|ke]; cbn; [done|intros [= <-]; eauto]. }
  unfold KcpPeer.send, map_get. rewrite run_bind, run_get. cbn [fst snd].
  destruct (sessions w !! canonicalize peer) as [s|]; [apply Hsd|].
  rewrite run_bind. apply Hsd.
Qed.

(** ** recv *)

Lemma recv_conserves_mut fuel w :
  (∀ p, p = KcpPeer.recv fuel ∨ p = KcpPeer.recv_wait fuel →
    match (run p w).1 with
    | Some (Ok m) => w.(pending) = m :: (run p w).2.(pending)
    | _ => (run p w).2.(pending) = w.(pending)
    end).
Proof.
  revert w. induction fuel as [|fuel IH]; intros w p [->| ->]; [done..| |];
    cbn [KcpPeer.recv KcpPeer.recv_wait].
  - rewrite run_bind, run_get. cbn [fst snd]. destruct (cancelled w); [done|].
    unfold KcpPeer.pop_front. rewrite run_bind, run_act.
    destruct (pending w) as [|m l] eqn:Hp; cbn [fst snd]; [|done].
    rewrite <- Hp. apply IH. auto.
  - unfold KcpPeer.take_permit. rewrite run_bind, run_act. cbn [fst snd].
    destruct (notified w).
    + exact (IH (set_notified false w) _ (or_introl eq_refl)).
    + rewrite run_bind, run_get. cbn [fst snd]. destruct (cancelled _); [done|].
      exact (IH (set_notified false w) _ (or_intror eq_refl)).
Qed.

Lemma recv_conserves_run polls w :
  match (run (KcpPeer.recv polls) w).1 with
  | Some (Ok m) => w.(pending) = m :: (run (KcpPeer.recv polls) w).2.(pending)
  | _ => (run (KcpPeer.recv polls) w).2.(pending) = w.(pending)
  end.
Proof. apply recv_conserves_mut with (fuel := polls). auto. Qed.

(** C31. [recv] neither loses nor reorders data, wherever it stops: if it
    returns a message, that message was the oldest pending one and exactly
    it is removed; if it fails or is dropped while it waits, the pending
    queue is as before. *)
Theorem recv_conserves polls w :
  match (run (KcpPeer.recv polls) w).1 with
  | Some (Ok m) => w.(pending) = m :: (run (KcpPeer.recv polls) w).2.(pending)
  | _ => (run (KcpPeer.recv polls) w).2.(pending) = w.(pending)
  end.
Proof. apply recv_conserves_run. Qed.

(** One poll of [recv]: after a shutdown it fails with [ShuttingDown] even
    if data is pending; otherwise it returns the oldest pending message at
    once; otherwise it keeps waiting. *)
Lemma recv_poll polls w :
  run (KcpPeer.recv (S polls)) w =
    if w.(cancelled) then (Some (Err ShuttingDown), w)
    else match w.(pending) with
         | m :: l => (Some (Ok m), set_pending l w)
         | [] => run (KcpPeer.recv_wait polls) w
         end.
Proof.
  cbn [KcpPeer.recv]. rewrite run_bind, run_get. cbn [fst snd].
  destruct (cancelled w); [done|]. unfold KcpPeer.pop_front. rewrite run_bind, run_act.
  by destruct (pending w).
Qed.

(** ** peers, stats *)

Lemma run_filter_open l w :
  run (KcpPeer.filter_open l) w =
    (peer_addr <$> filter (λ σ, σ.(closed) = false) ((λ s, w.(heap) !!! s) <$> l), w).
Proof.
  induction l as [|s l IH]; cbn [KcpPeer.filter_open]; [done|].
  unfold load. rewrite run_bind, run_get. cbn [fst snd]. rewrite fmap_cons.
  destruct (closed (heap w !!! s)) eqn:Hc.
  - rewrite IH, filter_cons_False by congruence. done.
  - rewrite filter_cons_True by done. autorewrite with run. cbn [fst snd]. by rewrite IH.
Qed.

(** The open sessions behind the map's entries are filed under different
    addresses, so their peers differ. *)
Lemma open_peers_nodup (entries : list (CanonicalAddr * nat)) w :
  NoDup entries.*1 →
  Forall (λ e, canonicalize (w.(heap) !!! e.2).(peer_addr) = e.1) entries →
  NoDup (peer_addr <$> filter (λ σ, σ.(closed) = false) ((λ s, w.(heap) !!! s) <$> entries.*2)).
Proof.
  intros Hnd He. apply (NoDup_fmap_1 canonicalize).
  eapply sublist_NoDup; [exact Hnd|]. clear Hnd. induction He as [|e l He Hl IH]; [done|].
  rewrite !fmap_cons. cbn [fmap list_fmap] in *.
  destruct (closed (w.(heap) !!! e.2)) eqn:Hc.
  - rewrite filter_cons_False by congruence. by apply sublist_cons.
  - rewrite filter_cons_True by done. cbn [fmap list_fmap]. rewrite He. by apply sublist_skip.
Qed.

(** [peers] lists the peers of exactly the open sessions of the map, once
    each, and changes nothing. *)
Theorem peers_spec w a :
  OsLaws os → node_inv w →
  (run KcpPeer.peers w).2 = w ∧ NoDup (run KcpPeer.peers w).1 ∧
  (a ∈ (run KcpPeer.peers w).1 ↔
    ∃ can s σ, w.(sessions) !! can = Some s ∧ w.(heap) !! s = Some σ ∧
      σ.(closed) = false ∧ σ.(peer_addr) = a).
Proof.
  intros OL [_ HI]. unfold KcpPeer.peers, KcpPeer.session_values.
  rewrite run_bind, run_get. cbn [fst snd]. rewrite run_filter_open. cbn [fst snd].
  split_and!; [done| |].
  { apply open_peers_nodup.
    - rewrite (os_iter_perm w.(sessions)). apply NoDup_fst_map_to_list.
    - apply Forall_forall. intros [can s] Hin. cbn.
      rewrite (os_iter_perm w.(sessions)) in Hin. apply elem_of_map_to_list in Hin.
      destruct (HI _ _ Hin) as (σ & Hσ & Hcan). by rewrite (lookup_total_correct _ _ _ Hσ). }
  rewrite list_elem_of_fmap. split.
  - intros (σ & -> & [Hc Hin]%list_elem_of_filter).
    apply list_elem_of_fmap in Hin as (s & -> & Hin).
    apply list_elem_of_fmap in Hin as ((can & s') & -> & Hin). cbn in *.
    rewrite (os_iter_perm w.(sessions)) in Hin. apply elem_of_map_to_list in Hin.
    destruct (HI _ _ Hin) as (σ & Hσ & _). rewrite (lookup_total_correct _ _ _ Hσ) in *.
    by exists can, s', σ.
  - intros (can & s & σ & Hs & Hσ & Hc & <-). exists σ. split; [done|].
    apply list_elem_of_filter. split; [done|]. apply list_elem_of_fmap. exists s.
    split; [by rewrite (lookup_total_correct _ _ _ Hσ)|].
    apply list_elem_of_fmap. exists (can, s). split; [done|].
    rewrite (os_iter_perm w.(sessions)). by apply elem_of_map_to_list.
Qed.

(** [stats] answers exactly for an address with an open session, with the
    session's conversation id, KCP's counters and the time since the last
    packet; nothing but the clock is touched. *)
Theorem stats_spec peer w :
  run (KcpPeer.stats peer) w =
    match w.(sessions) !! canonicalize peer with
    | None => (None, w)
    | Some s =>
        let σ := w.(heap) !!! s in
        if σ.(closed) then (None, w)
        else (Some {|
          st_conv_id := σ.(inner).(conv_id);
          st_send_wnd := kcp_snd_wnd σ.(inner).(kcp);
          st_recv_wnd := kcp_rcv_wnd σ.(inner).(kcp);
          st_rmt_wnd := kcp_rmt_wnd σ.(inner).(kcp);
          st_wait_snd := kcp_wait_snd σ.(inner).(kcp);
          st_dead_link := kcp_is_dead_link σ.(inner).(kcp);
          st_elapsed := from_millis (saturating_sub (now_of w) σ.(last_rx));
        |}, tick_clock w)
    end.
Proof.
  unfold KcpPeer.stats, map_get. rewrite run_bind, run_get. cbn [fst snd].
  destruct (sessions w !! canonicalize peer) as [s|]; [|done].
  unfold load. rewrite run_bind, run_get. cbn [fst snd]. by destruct (closed _).
Qed.

(** ** disconnect, shutdown *)

Lemma run_disconnect peer w :
  match w.(sessions) !! canonicalize peer with
  | None => run (KcpPeer.disconnect peer) w = (tt, w)
  | Some s =>
      ∀ σ, w.(heap) !! s = Some σ →
      run (KcpPeer.disconnect peer) w =
        (tt, push_event (Disconnected peer)
               (reset_world σ.(inner).(conv_id) peer
                 (upd_heap (<[s := set_closed true σ]>)
                   (upd_sessions (delete (canonicalize peer)) w))))
  end.
Proof.
  unfold KcpPeer.disconnect, map_remove. rewrite run_atomic, run_bind, run_act. cbn [fst snd].
  destruct (sessions w !! canonicalize peer) as [s|] eqn:Hs;
    [|cbn; unfold upd_sessions; rewrite (delete_id _ _ Hs); by destruct w].
  intros σ Hσ. set (w1 := upd_sessions _ w). assert (Hσ1 : w1.(heap) !! s = Some σ) by done.
  unfold Session.mark_closed. rewrite (run_store_bind _ _ _ _ _ Hσ1).
  set (w2 := upd_heap _ w1).
  assert (Hσ2 : w2.(heap) !! s = Some (set_closed true σ)) by apply lookup_insert_eq.
  loads. by rewrite run_bind, run_send_reset.
Qed.

(** C32. [disconnect] removes and closes the session of an address before it
    announces it: the map no longer has it, its handle is closed, three
    RESETs with its conversation id are sent, and [Disconnected] is fired
    last; without a session it does nothing. *)
Theorem disconnect_spec peer w :
  match w.(sessions) !! canonicalize peer with
  | None => run (KcpPeer.disconnect peer) w = (tt, w)
  | Some s =>
      ∀ σ, w.(heap) !! s = Some σ →
      run (KcpPeer.disconnect peer) w =
        (tt, push_event (Disconnected peer)
               (reset_world σ.(inner).(conv_id) peer
                 (upd_heap (<[s := set_closed true σ]>)
                   (upd_sessions (delete (canonicalize peer)) w))))
  end.
Proof. apply run_disconnect. Qed.

(** One session of [shutdown]. *)
Lemma run_shutdown_session s σ w :
  w.(heap) !! s = Some σ →
  run (KcpPeer.shutdown_session s) w =
    (tt, reset_world σ.(inner).(conv_id) σ.(peer_addr) (upd_heap (<[s := set_closed true σ]>) w)).
Proof.
  intros Hσ. unfold KcpPeer.shutdown_session, Session.mark_closed.
  rewrite (run_store_bind _ _ _ _ _ Hσ). set (w1 := upd_heap _ w).
  assert (Hσ1 : w1.(heap) !! s = Some (set_closed true σ)) by apply lookup_insert_eq.
  by loads.
Qed.

(** The address and the bytes of a datagram. *)
Definition wire (d : Datagram) : SocketAddr * bytes := (d.(dg_to), d.(dg_bytes)).

Definition resets_of (w : World) (s : nat) : list (SocketAddr * bytes) :=
  let σ := w.(heap) !!! s in
  replicate 3 (σ.(peer_addr), encode_control Reset σ.(inner).(conv_id)).

Lemma shutdown_loop l w :
  Forall (λ s, is_Some (w.(heap) !! s)) l →
  let w' := (run (for_each l KcpPeer.shutdown_session) w).2 in
  w'.(sessions) = w.(sessions) ∧ w'.(events) = w.(events) ∧
  w'.(cancelled) = w.(cancelled) ∧ w'.(pending) = w.(pending) ∧
  (∀ s σ, w.(heap) !! s = Some σ → ∃ b, w'.(heap) !! s = Some (set_closed b σ) ∧
    (b = true ↔ σ.(closed) = true ∨ s ∈ l)) ∧
  wire <$> w'.(sent) = (wire <$> w.(sent)) ++ (l ≫= resets_of w).
Proof.
  revert w. induction l as [|s l IH]; intros w Hl; cbn zeta.
  - cbn. rewrite app_nil_r. split_and!; try done. intros s σ Hσ. exists σ.(closed).
    split; [by destruct σ|]. rewrite elem_of_nil. tauto.
  - apply Forall_cons in Hl as [[σ Hσ] Hl].
    rewrite run_for_each_cons, (run_shutdown_session s σ w Hσ). cbn [snd].
    set (w1 := reset_world _ _ _).
    assert (Hh1 : w1.(heap) = <[s := set_closed true σ]> w.(heap)) by done.
    destruct (IH w1) as (Hm & He & Hc & Hp & Hh & Hs).
    { eapply Forall_impl; [exact Hl|]. intros s' [σ' Hσ']. rewrite Hh1, lookup_insert.
      case_decide; eauto. }
    cbn zeta in *. split_and!; [by rewrite Hm|by rewrite He|by rewrite Hc|by rewrite Hp| |].
    + intros s' σ' Hσ'. destruct (decide (s' = s)) as [->|Hne].
      * assert (σ' = σ) as -> by congruence.
        destruct (Hh s (set_closed true σ)) as (b & Hb & Hiff).
        { by rewrite Hh1, lookup_insert_eq. }
        exists b. split; [exact Hb|]. rewrite Hiff, elem_of_cons. cbn. tauto.
      * destruct (Hh s' σ') as (b & Hb & Hiff); [by rewrite Hh1, lookup_insert_ne|].
        exists b. split; [exact Hb|]. rewrite Hiff, elem_of_cons. tauto.
    + rewrite Hs. cbn [mbind list_bind].
      assert (Hres : l ≫= resets_of w1 = l ≫= resets_of w).
      { apply list_bind_ext; [|done]. intros s'. unfold resets_of. rewrite Hh1.
        destruct (decide (s' = s)) as [->|Hne].
        - rewrite lookup_total_insert_eq, (lookup_total_correct _ _ _ Hσ). done.
        - by rewrite lookup_total_insert_ne. }
      rewrite Hres, app_assoc. f_equal. unfold resets_of at 1.
      rewrite (lookup_total_correct _ _ _ Hσ). cbn.
      by rewrite !fmap_app, <- !app_assoc.
Qed.

(** C33. [shutdown] closes every session of the map and sends each peer three
    RESETs with the session's conversation id; the token is cancelled, no
    event is fired, and the map itself is left as it was. *)
Theorem shutdown_spec w :
  OsLaws os → node_inv w →
  let w' := (run KcpPeer.shutdown w).2 in
  let l := (os_iter w.(sessions)).*2 in
  w'.(cancelled) = true ∧ w'.(sessions) = w.(sessions) ∧ w'.(events) = w.(events) ∧
  (∀ can s, w.(sessions) !! can = Some s →
    ∃ σ, w.(heap) !! s = Some σ ∧ w'.(heap) !! s = Some (set_closed true σ)) ∧
  wire <$> w'.(sent) = (wire <$> w.(sent)) ++ (l ≫= resets_of w).
Proof.
  intros OL [_ HI]. cbn zeta. unfold KcpPeer.shutdown, KcpPeer.session_values.
  rewrite run_bind, run_modify. cbn [fst snd]. rewrite run_bind, run_get. cbn [fst snd].
  set (w1 := set_cancelled w). set (l := (os_iter (sessions w1)).*2).
  assert (Hin : ∀ s, s ∈ l ↔ ∃ can, w.(sessions) !! can = Some s).
  { intros s. unfold l. rewrite list_elem_of_fmap. split.
    - intros ((can & s') & -> & Hin). exists can.
      rewrite (os_iter_perm w1.(sessions)) in Hin. by apply elem_of_map_to_list in Hin.
    - intros (can & Hs). exists (can, s). split; [done|].
      rewrite (os_iter_perm w1.(sessions)). by apply elem_of_map_to_list. }
  destruct (shutdown_loop l w1) as (Hm & He & Hc & _ & Hh & Hs).
  { apply Forall_forall. intros s (can & Hs)%Hin. destruct (HI _ _ Hs) as (σ & ? & _). eauto. }
  split_and!; [by rewrite Hc|by rewrite Hm|by rewrite He| |exact Hs].
  intros can s Hcs. destruct (HI _ _ Hcs) as (σ & Hσ & _). exists σ. split; [done|].
  destruct (Hh s σ Hσ) as (b & Hb & Hiff). rewrite Hb.
  by rewrite (proj2 Hiff (or_intror (proj2 (Hin s) (ex_intro _ can Hcs)))).
Qed.
End TransportSpec.

(** ** The theorems on concrete nodes *)

(** Sending on a dead link. *)
Lemma send_errors_witness :
  @DeadLink toy_lib = SessionClosed ∨ @DeadLink toy_lib = DeadLink ∨ ∃ ke, @DeadLink toy_lib = Kcp ke.
Proof.
  exact (send_errors (os := toy_os addr_a) (MkKcpPeer 11 default addr_a) addr_b [1]
    (toy_world toy_dead_session) DeadLink eq_refl).
Defined.

Lemma peers_spec_witness :
  addr_b ∈ (run (KcpPeer.peers (os := toy_os addr_a)) (toy_world toy_connected)).1.
Proof.
  apply (peers_spec (os := toy_os addr_a) (toy_world toy_connected) addr_b
    (toy_os_laws addr_a) (toy_world_inv _ toy_connected_ok)).
  exists (canonicalize addr_b), 0%nat, toy_connected.
  split; [reflexivity|split; [reflexivity|split; reflexivity]].
Defined.

Lemma disconnect_spec_witness :
  let w' := (run (KcpPeer.disconnect (os := toy_os addr_a) addr_b) (toy_world toy_connected)).2 in
  w'.(sessions) = ∅ ∧ w'.(events) = [Disconnected addr_b] ∧ length w'.(sent) = 3%nat.
Proof.
  cbn zeta.
  rewrite (disconnect_spec (os := toy_os addr_a) addr_b (toy_world toy_connected)
    toy_connected eq_refl).
  split; [reflexivity|split; reflexivity].
Defined.

Lemma shutdown_spec_witness :
  wire <$> (run (KcpPeer.shutdown (os := toy_os addr_a)) (toy_world toy_connected)).2.(sent) =
    replicate 3 (addr_b, encode_control Reset 7).
Proof.
  destruct (shutdown_spec (os := toy_os addr_a) (toy_world toy_connected)
    (toy_os_laws addr_a) (toy_world_inv _ toy_connected_ok)) as (_ & _ & _ & _ & H).
  etransitivity; [exact H|reflexivity].
Defined.
