(* ===== verification/Shutdown.v ===== *)
(** * The end of the background tasks (src/src/transport.rs)

    The receive task and the update task are loops that only the shutdown token
    ends: [shutdown] and [Drop] cancel it, and [shutdown] then waits for the
    handles of both.  A node is its two loops next to a pool of any other tasks;
    an infinite run of it is a sequence of steps, each labelled by who took it. *)

From S2P Require Import Prelude Prog Packet Kcp Addr Errors Config World Session Transport.
From S2P Require Import Incoming Update Invariant Toy Tasks TransportSpec.
Open Scope prog_scope.

(** ** Nodes with their loops *)

Section Node.
Context {K : KcpLib} {os : Os} (self : KcpPeer).

Inductive Who : Type :=
  | Receiver
  | Updater
  | Others.

#[export] Instance Who_eq_dec : EqDecision Who.
Proof. solve_decision. Defined.

(** The iterations of the two loops: of the receiver, for whatever [recv_from]
    may return. *)
Definition iterations (who : Who) (p : prog World bool) : Prop :=
  match who with
  | Receiver => ∃ r, (∀ d a, r = Ok (d, a) → bytes_ok d) ∧
      p = receive_iteration r self.(kp_incarnation) self.(kp_config)
  | Updater => p = update_iteration self.(kp_config)
  | Others => False
  end.

Record Node : Type := MkNode {
  loops : Who → loop World;
  tasks : list (prog World unit);
  shared : World;
}.

(** [bind_with] has spawned both tasks. *)
Definition bound : Node := MkNode (λ _, Waiting) [] KcpPeer.empty_world.

Inductive node_step : Who → Node → Node → Prop :=
  | step_loop who ls l' ts w w' :
      who ≠ Others → loop_step (iterations who) (ls who, w) (l', w') →
      node_step who (MkNode ls ts w)
        (MkNode (λ x, if decide (x = who) then l' else ls x) ts w')
  | step_others ls ts ts' w w' :
      pool_step (spawnable self) (ts, w) (ts', w') →
      node_step Others (MkNode ls ts w) (MkNode ls ts' w').

(** A run: its states, and who takes each step. *)
Definition node_run (σ : nat → Node) (who : nat → Who) : Prop :=
  σ 0%nat = bound ∧ ∀ n, node_step (who n) (σ n) (σ (S n)).

(** The scheduler goes on polling a loop until it is finished. *)
Definition polled (l : Who) (n0 : nat) (σ : nat → Node) (who : nat → Who) : Prop :=
  ∀ n, (n0 ≤ n)%nat → ∃ m, (n ≤ m)%nat ∧ (who m = l ∨ (σ m).(loops) l = Finished).

(** The handles that [shutdown] waits for. *)
Definition wait_over (c : Node) : bool :=
  KcpPeer.shutdown_returns (Some (c.(loops) Receiver)) (Some (c.(loops) Updater)).
End Node.

(** ** The loops end when the token is cancelled, and only then *)

Section Shutdown.
Context {K : KcpLib} {os : Os} {OL : OsLaws os} (self : KcpPeer).

(** A loop keeps the invariant, and has been left only with the token
    cancelled. *)
Definition loop_ok (l : loop World) (w : World) : Prop :=
  match l with
  | Waiting => True
  | Inside p => safe any_inv evolves p broke w
  | Finished => w.(cancelled) = true
  end.

Definition node_ok (c : Node) : Prop :=
  pool_ok any_inv evolves (c.(tasks), c.(shared)) ∧ ∀ l, loop_ok (c.(loops) l) c.(shared).

Lemma evolves_cancelled w w' : evolves w w' → w.(cancelled) = true → w'.(cancelled) = true.
Proof. by intros (_ & _ & _ & _ & H & _). Qed.

Lemma loop_ok_evolves l w w' : loop_ok l w → evolves w w' → loop_ok l w'.
Proof.
  destruct l as [|p|]; cbn [loop_ok]; intros Hl HG; [done| |by eapply evolves_cancelled].
  eapply safe_evolve; [apply _| |exact Hl|exact HG].
  intros b w1 w2 Hb HG' E. eapply evolves_cancelled; [exact HG'|by apply Hb].
Qed.

Lemma iteration_safe l p w : iterations self l p → safe any_inv evolves p broke w.
Proof.
  destruct l; cbn [iterations].
  - intros (r & Hr & ->). apply (safe_receive_iteration (PV := any_provenance)).
    intros d a E. split; [by eapply Hr|done].
  - intros ->. apply (safe_update_iteration (PV := any_provenance)).
  - done.
Qed.

Lemma node_step_ok l c c' : node_step self l c c' → node_ok c → node_ok c' ∧ evolves c.(shared) c'.(shared).
Proof.
  intros [who ls l' ts w w' Hwho Hstep|ls ts ts' w w' Hstep] [[HI Hts] Hls]; unfold node_ok in *;
    cbn [tasks loops shared fst snd] in *.
  - assert (any_inv w' ∧ evolves w w' ∧ loop_ok l' w') as (HI' & HG & Hl').
    { pose proof (Hls who) as Hl. inversion Hstep as [p w0 Hp|B f k w0|w0|w0]; subst.
      - split_and!; [done|reflexivity|by eapply iteration_safe].
      - rewrite <- H in Hl. apply (Hl w); [reflexivity|done].
      - by split_and!.
      - rewrite <- H in Hl. split_and!; [done|reflexivity|by apply Hl]. }
    split; [|done]. split; [split; [done|]|].
    + eapply Forall_impl; [exact Hts|]. cbn. intros p Hp. eapply safe_evolve; [apply _|done|exact Hp|exact HG].
    + intros x. case_decide; [done|]. exact (loop_ok_evolves _ _ _ (Hls x) HG).
  - destruct (pool_step_ok (spawnable self) any_inv evolves (spawn_safe self) _ _ Hstep (conj HI Hts))
      as [Hok HG]. split; [|done]. split; [done|]. intros x. exact (loop_ok_evolves _ _ _ (Hls x) HG).
Qed.

Lemma bound_ok : node_ok bound.
Proof. split; [|done]. split; [apply (empty_world_full (PV := any_provenance))|constructor]. Qed.
(** ** Runs *)

(** The iteration that finds the token cancelled is the last. *)
Lemma iteration_stops l p :
  iterations self l p → ∃ k, p = Act (λ w : World, (w.(cancelled), w)) k ∧ k true = Ret true.
Proof.
  destruct l; cbn [iterations].
  - intros (r & _ & ->). by eexists.
  - intros ->. by eexists.
  - done.
Qed.

Section Runs.
Context (σ : nat → Node) (who : nat → Who) (Hrun : node_run self σ who).

Lemma run_ok n : node_ok (σ n).
Proof.
  destruct Hrun as [H0 Hstep]. induction n as [|n IH]; [rewrite H0; apply bound_ok|].
  by destruct (node_step_ok _ _ _ (Hstep n) IH).
Qed.

Lemma run_cancelled n m :
  (n ≤ m)%nat → (σ n).(shared).(cancelled) = true → (σ m).(shared).(cancelled) = true.
Proof.
  intros Hnm Hc. induction Hnm as [|m _ IH]; [done|].
  destruct (node_step_ok _ _ _ (proj2 Hrun m) (run_ok m)) as [_ HG]. by eapply evolves_cancelled.
Qed.

Lemma loop_stays l n : who n ≠ l → (σ (S n)).(loops) l = (σ n).(loops) l.
Proof.
  intros Hne. destruct (proj2 Hrun n) as [x ls l' ts w w' _ _|]; cbn [loops]; [|done].
  by rewrite decide_False.
Qed.

Lemma loop_moves l n :
  who n = l → l ≠ Others →
  loop_step (iterations self l) ((σ n).(loops) l, (σ n).(shared)) ((σ (S n)).(loops) l, (σ (S n)).(shared)).
Proof.
  intros Hl Ho. destruct (proj2 Hrun n) as [x ls l' ts w w' _ Hstep|]; cbn [loops shared]; [|done].
  rewrite decide_True by done. by subst.
Qed.

Lemma finished_stays l n m :
  (n ≤ m)%nat → l ≠ Others → (σ n).(loops) l = Finished → (σ m).(loops) l = Finished.
Proof.
  intros Hnm Ho Hf. induction Hnm as [|m _ IH]; [done|].
  destruct (decide (who m = l)) as [Hl|Hl]; [|by rewrite loop_stays].
  pose proof (loop_moves l m Hl Ho) as H. rewrite IH in H. inversion H.
Qed.

Context (l : Who) (Ho : l ≠ Others) (n0 : nat) (Hpolled : polled l n0 σ who).

(** A loop that is not finished is polled again, and is then where it was. *)
Lemma next_step n :
  (n0 ≤ n)%nat → (σ n).(loops) l ≠ Finished →
  ∃ m, (n ≤ m)%nat ∧ who m = l ∧ (σ m).(loops) l = (σ n).(loops) l.
Proof.
  intros Hn Hf. destruct (Hpolled n Hn) as (m & Hm & Hw).
  remember (m - n)%nat as d eqn:Hd. revert n Hn Hf Hm Hd. induction d as [|d IH]; intros n Hn Hf Hm Hd.
  - assert (m = n) as -> by lia. destruct Hw as [Hw|Hw]; [|done]. exists n. by split_and!.
  - destruct (decide (who n = l)) as [Hl|Hl]; [exists n; by split_and!|].
    rewrite <- (loop_stays l n Hl) in Hf |- *.
    destruct (IH (S n) ltac:(lia) Hf ltac:(lia) ltac:(lia)) as (m' & Hm' & ?). exists m'.
    split; [lia|done].
Qed.

Lemma waiting_ends n :
  (n0 ≤ n)%nat → (σ n).(shared).(cancelled) = true → (σ n).(loops) l = Waiting →
  ∃ m, (n ≤ m)%nat ∧ (σ m).(loops) l = Finished.
Proof.
  intros Hn Hc Hl. destruct (next_step n Hn) as (m1 & H1 & Hw1 & E1); [by rewrite Hl|].
  destruct (loop_step_next _ _ _ _ (loop_moves l m1 Hw1 Ho)) as [(_ & p & Hp & [= E2 _])|H];
    [|by rewrite E1, Hl in H].
  destruct (iteration_stops l p Hp) as (k & -> & Hk).
  destruct (next_step (S m1) ltac:(lia)) as (m2 & H2 & Hw2 & E3); [by rewrite E2|].
  destruct (loop_step_next _ _ _ _ (loop_moves l m2 Hw2 Ho)) as [[H _]|H]; rewrite E3, E2 in H; [done|].
  cbn in H. rewrite (run_cancelled n m2), Hk in H by (done || lia). injection H as E4 _.
  destruct (next_step (S m2) ltac:(lia)) as (m3 & H3 & Hw3 & E5); [by rewrite <- E4|].
  destruct (loop_step_next _ _ _ _ (loop_moves l m3 Hw3 Ho)) as [[H _]|H]; rewrite E5, <- E4 in H; [done|].
  injection H as E6 _. exists (S m3). split; [lia|done].
Qed.

Lemma inside_ends p n :
  (n0 ≤ n)%nat → (σ n).(shared).(cancelled) = true → (σ n).(loops) l = Inside p →
  ∃ m, (n ≤ m)%nat ∧ (σ m).(loops) l = Finished.
Proof.
  revert n. induction p as [b|B f k IH]; intros n Hn Hc Hl;
    (destruct (next_step n Hn) as (m1 & H1 & Hw1 & E1); [by rewrite Hl|]);
    (destruct (loop_step_next _ _ _ _ (loop_moves l m1 Hw1 Ho)) as [[H _]|H]; rewrite E1, Hl in H; [done|]);
    assert (Hc1 : (σ (S m1)).(shared).(cancelled) = true) by (apply (run_cancelled n); [lia|done]);
    injection H as E _.
  - destruct b; [by exists (S m1); split; [lia|]|].
    destruct (waiting_ends (S m1)) as (m & ? & ?); [lia|done|done|]. exists m. split; [lia|done].
  - destruct (IH (f (σ m1).(shared)).1 (S m1)) as (m & ? & ?); [lia|done|done|].
    exists m. split; [lia|done].
Qed.

Lemma loop_ends :
  (σ n0).(shared).(cancelled) = true →
  ∃ n, (n0 ≤ n)%nat ∧ ∀ m, (n ≤ m)%nat → (σ m).(loops) l = Finished.
Proof.
  intros Hc. assert (∃ n, (n0 ≤ n)%nat ∧ (σ n).(loops) l = Finished) as (n & Hn & Hf).
  { destruct ((σ n0).(loops) l) as [|p|] eqn:E.
    - by apply waiting_ends.
    - by eapply inside_ends.
    - by exists n0. }
  exists n. split; [done|]. intros m Hm. by eapply finished_stays.
Qed.
End Runs.

(** C18. [shutdown] returns, because of its token and not before. The two
    background tasks are loops that packets and ticks may keep busy for ever.
    In every infinite run of a node, whatever its other tasks do and however
    they are interleaved and cancelled: the wait for both handles is over only
    when the token is cancelled; and once it is, and the scheduler goes on
    polling both loops, from some point on the wait is over for good, wherever
    each loop was in an iteration and whatever packets keep coming. *)
Theorem shutdown_wait_ends σ who n0 :
  node_run self σ who →
  (∀ n, wait_over (σ n) = true → (σ n).(shared).(cancelled) = true) ∧
  ((σ n0).(shared).(cancelled) = true → polled Receiver n0 σ who → polled Updater n0 σ who →
   ∃ n, (n0 ≤ n)%nat ∧ ∀ m, (n ≤ m)%nat → wait_over (σ m) = true).
Proof.
  intros Hrun. split.
  - intros n Hw. destruct (run_ok σ who Hrun n) as [_ Hok]. specialize (Hok Receiver).
    unfold wait_over in Hw. by destruct ((σ n).(loops) Receiver).
  - intros Hc Hr Hu.
    destruct (loop_ends σ who Hrun Receiver ltac:(done) n0 Hr Hc) as (n1 & H1 & E1).
    destruct (loop_ends σ who Hrun Updater ltac:(done) n0 Hu Hc) as (n2 & H2 & E2).
    exists (Nat.max n1 n2). split; [lia|]. intros m Hm. unfold wait_over.
    rewrite E1, E2 by lia. done.
Qed.

(** After a shutdown [recv] fails with [ShuttingDown], at once if it is
    called, and at its second poll at the latest if it was waiting - with or
    without a notification permit; no data is taken from the queue. *)
Theorem recv_shutting_down polls w :
  w.(cancelled) = true →
  run (KcpPeer.recv (S polls)) w = (Some (Err ShuttingDown), w) ∧
  (run (KcpPeer.recv_wait (S (S polls))) w).1 = Some (Err ShuttingDown) ∧
  (run (KcpPeer.recv_wait (S (S polls))) w).2.(pending) = w.(pending).
Proof.
  intros Hc. split; [by rewrite recv_poll, Hc|].
  cbn [KcpPeer.recv_wait]. unfold KcpPeer.take_permit. rewrite run_bind, run_act. cbn [fst snd].
  destruct (notified w).
  - rewrite recv_poll. cbn. by rewrite Hc.
  - rewrite run_bind, run_get. cbn. by rewrite Hc.
Qed.
End Shutdown.

(** ** A node that is shut down *)

Definition toy_down : @World toy_lib :=
  (run (task_prog (os := toy_os addr_a) toy_node TShutdown) KcpPeer.empty_world).2.

(** ** An infinite run

    A node that shuts itself down: the task is spawned and cancels the token,
    the loops find it cancelled, and the task goes on. *)

Abbreviation toy_state := (@Node toy_lib).

(** The next step of a loop that nothing has come for, and of a pool. *)
Definition toy_loop (l : Who) (c : toy_state) : option (loop World * World) :=
  match c.(loops) l with
  | Waiting => match l with
      | Receiver => Some (Inside (receive_iteration (os := toy_os addr_a) (Err (MkIoError WouldBlock String.EmptyString))
                            toy_node.(kp_incarnation) toy_node.(kp_config)), c.(shared))
      | _ => Some (Inside (update_iteration (os := toy_os addr_a) toy_node.(kp_config)), c.(shared))
      end
  | x => loop_next x c.(shared)
  end.

Definition toy_next (l : Who) (c : toy_state) : toy_state :=
  match l with
  | Others =>
      match c.(tasks) with
      | [] => MkNode c.(loops) [task_prog (os := toy_os addr_a) toy_node TShutdown] c.(shared)
      | _ => let x := step_task (c.(tasks), c.(shared)) 0 in MkNode c.(loops) x.1 x.2
      end
  | _ =>
      match toy_loop l c with
      | Some (x, w) => MkNode (λ y, if decide (y = l) then x else c.(loops) y) c.(tasks) w
      | None => c
      end
  end.

Definition toy_who (n : nat) : Who :=
  nth n [Others; Others; Receiver; Updater; Receiver; Receiver; Updater; Updater] Others.

Fixpoint toy_run (n : nat) : toy_state :=
  match n with O => bound | S n' => toy_next (toy_who n') (toy_run n') end.

Lemma toy_loop_step l c :
  l ≠ Others → is_Some (toy_loop l c) →
  node_step (os := toy_os addr_a) toy_node l c (toy_next l c).
Proof.
  destruct c as [ls ts w]. intros Ho [[x w'] E].
  assert (toy_next l (MkNode ls ts w) = MkNode (λ y, if decide (y = l) then x else ls y) ts w') as ->
    by (destruct l; [..|done]; unfold toy_next; by rewrite E).
  apply step_loop; [done|]. revert E. unfold toy_loop. cbn [loops shared].
  destruct (ls l) as [|[b|B f k]|]; cbn [loop_next]; try done.
  - destruct l; intros [= <- <-]; try done; apply loop_enter; cbn [iterations]; [|done]; eexists; (split; [|reflexivity]); by intros.
  - intros [= <- <-]. destruct b; [apply loop_break|apply loop_again].
  - intros [= <- <-]. apply loop_act.
Qed.

Lemma toy_others_step c :
  node_step (os := toy_os addr_a) toy_node Others c (toy_next Others c).
Proof.
  destruct c as [ls [|p ts] w]; cbn [toy_next tasks shared loops].
  - apply step_others, (pool_spawn _ _ []). by exists TShutdown.
  - apply step_others. unfold step_task. cbn [fst snd lookup list_lookup].
    destruct p as [[]|B f k]; [exact (pool_drop _ 0 (Ret tt :: ts) w)|].
    exact (pool_act _ 0 B f k (Act f k :: ts) w eq_refl).
Qed.

Lemma toy_who_others n : toy_who (8 + n) = Others.
Proof. by destruct n. Qed.

Lemma toy_node_run : node_run (os := toy_os addr_a) toy_node toy_run toy_who.
Proof.
  split; [done|]. intros n. change (toy_run (S n)) with (toy_next (toy_who n) (toy_run n)).
  do 8 (destruct n as [|n]; [first [apply toy_others_step | apply toy_loop_step; [done|by eexists]]|]).
  change (S (S (S (S (S (S (S (S n)))))))) with (8 + n)%nat.
  rewrite toy_who_others. apply toy_others_step.
Qed.

Lemma toy_finished l d : l ≠ Others → (toy_run (8 + d)).(loops) l = Finished.
Proof.
  intros Ho. induction d as [|d IH]; [by destruct l|]. rewrite Nat.add_succ_r.
  change (toy_run (S (8 + d))) with (toy_next (toy_who (8 + d)) (toy_run (8 + d))).
  rewrite toy_who_others. cbn [toy_next]. by destruct (tasks _).
Qed.

Lemma toy_polled l : l ≠ Others → polled l 2 toy_run toy_who.
Proof.
  intros Ho n Hn. exists (8 + n)%nat. split; [lia|]. right. by apply toy_finished.
Qed.

Lemma shutdown_wait_ends_witness :
  (toy_run 2).(shared).(cancelled) = true ∧
  (∀ n, wait_over (toy_run n) = true → (toy_run n).(shared).(cancelled) = true) ∧
  ∃ n, (2 ≤ n)%nat ∧ ∀ m, (n ≤ m)%nat → wait_over (toy_run m) = true.
Proof.
  split; [reflexivity|].
  destruct (shutdown_wait_ends (OL := toy_os_laws addr_a) toy_node toy_run toy_who 2 toy_node_run)
    as [H1 H2].
  split; [exact H1|]. apply H2; [reflexivity|by apply toy_polled|by apply toy_polled].
Defined.

Lemma recv_shutting_down_witness :
  (run (KcpPeer.recv_wait 5) (set_notified true toy_down)).1 =
    Some (Err ShuttingDown).
Proof.
  exact (proj1 (proj2 (recv_shutting_down (K := toy_lib) 3 (set_notified true toy_down) eq_refl))).
Defined.
