(* ===== verification/Wakeup.v ===== *)
(** * A receiver does not sleep on a message (src/src/transport.rs, [recv])

    [recv] waits for a permit that the handler of an incoming packet leaves
    after it has queued messages.  With one receiver at a time, which may be
    cancelled and started again at any point, no permit is lost: whenever it
    waits, either nothing is queued, or a permit is there, or a handler is just
    about to leave one. *)

From S2P Require Import Prelude Prog Packet Kcp Addr Errors Config World Session Transport.
From S2P Require Import Incoming Update Toy Tasks Plain TransportSpec.
Open Scope prog_scope.

(** An action that queues messages, and one that leaves a permit. *)
Definition queues {K : KcpLib} {B} (f : World → B * World) : Prop :=
  ∀ w, ∃ ms, (f w).2.(pending) = w.(pending) ++ ms.
Definition permits {K : KcpLib} {B} (f : World → B * World) : Prop :=
  ∀ w, (f w).2.(pending) = w.(pending) ∧ (f w).2.(notified) = true.

(** Messages are queued only by an action after which the next one leaves a
    permit. *)
Fixpoint fair {K : KcpLib} {A} (p : prog World A) : Prop :=
  match p with
  | Ret _ => True
  | Act f k =>
      (still f ∧ ∀ b, fair (k b)) ∨
      (queues f ∧ ∀ b, match k b with
                       | Ret _ => False
                       | Act g l => permits g ∧ ∀ c, fair (l c)
                       end)
  end.

(** The program has queued messages and is about to leave the permit. *)
Definition announcing {K : KcpLib} {A} (p : prog World A) : Prop :=
  match p with
  | Ret _ => False
  | Act g l => permits g ∧ ∀ c, fair (l c)
  end.

Section Fair.
Context {K : KcpLib}.

Lemma idle_fair {A} (p : prog World A) : idle p → fair p.
Proof. induction p as [|B f k IH]; cbn; [done|]. intros [? ?]. left. auto. Qed.

Lemma fair_bind {A B} (p : prog World A) (k : A → prog World B) :
  plain p → (∀ a, fair (k a)) → fair (bind p k).
Proof.
  intros [Hp _] Hk. induction p as [|C f c IH]; cbn in *; [auto|]. destruct Hp as [? ?]. left. auto.
Qed.

Lemma fair_then {A B} (p : prog World A) (k : A → prog World B) :
  fair p → (∀ a, fair (k a)) → fair (bind p k).
Proof.
  intros Hp Hk. revert p Hp. fix IH 1. intros [a|C f c]; cbn; [auto|].
  intros [[Hf Hc]|[Hf Hc]]; [left; split; [done|]; intros b; by apply IH|right].
  split; [done|]. intros b. specialize (Hc b). destruct (c b) as [|D g l]; [done|]. cbn.
  destruct Hc as [Hg Hl]. split; [done|]. intros d. by apply IH.
Qed.

Lemma plain_fair {A} (p : prog World A) : plain p → fair p.
Proof. intros [Hp _]. by apply idle_fair. Qed.
End Fair.

Section Operations.
Context {K : KcpLib} {os : Os}.

(** The handler of a KCP packet queues messages, and then leaves the permit. *)
Lemma fair_push {A} s msgs (k : prog World A) : fair k → fair (push_messages s msgs ;; k).
Proof.
  intros Hk. cbn. left. split; [done|]. intros peer. right. split.
  - intros w. by eexists.
  - intros _. split; [done|]. intros _. exact Hk.
Qed.

(** The handshake fires [Connected], but queues nothing. *)
Ltac idle_tac :=
  repeat first
    [ progress (cbv zeta beta)
    | done
    | match goal with |- idle ?p => assert (plain p) as [? _] by auto with plain; done end
    | apply idle_atomic
    | apply idle_bind; [|intros ?]
    | progress unfold bind_result, load, store, get, modify, epoch_ms, event_send, arc_new, map_get,
        map_insert, send_to
    | split; [intros ?; split; reflexivity|done]
    | case_match ].

Lemma fair_incoming data from inc config : fair (handle_incoming data from inc config).
Proof.
  unfold handle_incoming, invalid_data. destruct (split_packet data) as [[[] payload]|]; [..|done].
  - unfold handle_kcp_data. apply fair_bind; [by apply plain_act|]. intros [s|]; [|apply plain_fair; plain_tac].
    do 2 (apply fair_bind; [by apply plain_act|]; intros ?). unfold bind_result.
    apply fair_bind; [unfold Session.input; plain_tac|]. intros [?|?]; [|done].
    apply fair_bind; [unfold Session.try_recv_all; plain_tac|]. intros x.
    destruct x.2; [|done]. destruct x.1; [done|]. by apply fair_push.
  - apply idle_fair. unfold handle_syn, invalid_data, syn_check, establish, Session.mark_closed,
      Session.new_inbound, insert_inbound. idle_tac.
  - apply idle_fair. unfold handle_syn_ack, establish, invalid_data. idle_tac.
  - apply plain_fair, plain_reset.
Qed.

Lemma fair_receive inbox inc config : fair (receive_task inbox inc config).
Proof.
  induction inbox as [|r inbox IH]; cbn [receive_task]; [done|].
  apply fair_then; [|by intros []]. unfold receive_iteration.
  apply fair_bind; [by apply plain_act|]. intros [|]; [done|].
  destruct r as [[data from]|]; [|done]. apply fair_then; [apply fair_incoming|done].
Qed.

(** Every task of a node but a receiver. *)
Definition no_recv (t : Task) : Prop := match t with TRecv _ => False | _ => True end.

Lemma fair_task self t : no_recv t → fair (task_prog self t).
Proof.
  destruct t; cbn [no_recv task_prog]; intros Ht; try done;
    try (apply fair_then; [apply fair_receive|done]); try (apply fair_then; [apply fair_incoming|done]);
    apply plain_fair; try (apply plain_bind; [|done]); auto with plain.
Qed.
End Operations.

(** ** One receiver *)

Section Receiver.
Context {K : KcpLib} {os : Os} (self : KcpPeer).

Definition receiver : Type := prog World (option (Result DataMessage Error)).

(** A receiver, the other tasks of the node, and the node. *)
Definition reception : Type := receiver * list (prog World unit) * World.

(** A task acts; a new task that does not receive is spawned; a future is
    dropped, but not between the queueing and the permit, where there is no
    [.await]; the receiver acts; or it calls [recv] again, because it has
    returned or its future was dropped. *)
Inductive reception_step : reception → reception → Prop :=
  | task_acts i B (f : World → B * World) k r ts w :
      ts !! i = Some (Act f k) →
      reception_step (r, ts, w) (r, <[i := k (f w).1]> ts, (f w).2)
  | task_spawned t r ts w :
      no_recv t → reception_step (r, ts, w) (r, ts ++ [task_prog self t], w)
  | task_dropped i p r ts w :
      ts !! i = Some p → ¬ announcing p → reception_step (r, ts, w) (r, <[i := Ret tt]> ts, w)
  | receiver_acts B (f : World → B * World) k ts w :
      reception_step (Act f k, ts, w) (k (f w).1, ts, (f w).2)
  | receiver_again polls r ts w :
      reception_step (r, ts, w) (KcpPeer.recv polls, ts, w).

Definition reception_reach : relation reception := rtc reception_step.

(** Where a receiver is: at the top of the loop, about to look into the queue,
    waiting, waiting and about to look at the token, or at its end. *)
Inductive Position : Type :=
  | AtTop (n : nat)
  | AtQueue (n : nat)
  | AtWait (n : nat)
  | AtToken (n : nat)
  | AtEnd (x : option (Result DataMessage Error)).

(** What the receiver will do from there. *)
Definition code (q : Position) : receiver :=
  match q with
  | AtTop n => KcpPeer.recv n
  | AtQueue n =>
      m <- KcpPeer.pop_front ;;
      match m with Some msg => Ret (Some (Ok msg)) | None => KcpPeer.recv_wait n end
  | AtWait n => KcpPeer.recv_wait n
  | AtToken n =>
      c <- get cancelled ;;
      if (c : bool) then Ret (Some (Err ShuttingDown)) else KcpPeer.recv_wait n
  | AtEnd x => Ret x
  end.

(** How often it will still be polled. *)
Definition polls_left (q : Position) : nat :=
  match q with AtTop n | AtWait n => n | AtQueue n | AtToken n => S n | AtEnd _ => 0 end.

Definition waits (q : Position) : Prop :=
  match q with AtWait _ | AtToken _ => True | _ => False end.

(** Nothing is queued, or a permit is there, or one will follow at once. *)
Definition permitted (ts : list (prog World unit)) (w : World) : Prop :=
  w.(pending) = [] ∨ w.(notified) = true ∨ Exists announcing ts.

Definition no_sleep (c : reception) : Prop :=
  Forall (λ p, fair p ∨ announcing p) c.1.2 ∧
  ∃ q, c.1.1 = code q ∧ (waits q → permitted c.1.2 c.2).

(** The receiver takes a step: if it waits afterwards, it waited before, or has
    seen the queue empty. *)
Lemma receiver_moves q B (f : World → B * World) k ts w :
  code q = Act f k → (waits q → permitted ts w) →
  ∃ q', k (f w).1 = code q' ∧ (waits q' → permitted ts (f w).2).
Proof.
  intros Hq Hw. enough (∃ q', next_action (code q) w = Some (code q') ∧
    (waits q' → permitted ts (match code q with Ret _ => w | Act g _ => (g w).2 end))) as (q' & H1 & H2).
  { rewrite Hq in H1, H2. injection H1 as H1. by exists q'. }
  assert (Hne : ∀ x, code q ≠ Ret x) by congruence. clear Hq f k.
  destruct q as [[|n]|n|[|n]|n|x]; cbn in *; try (by destruct (Hne _ eq_refl)).
  - destruct (cancelled w); [by exists (AtEnd (Some (Err ShuttingDown)))|by exists (AtQueue n)].
  - destruct (pending w) as [|m l] eqn:E; [|by exists (AtEnd (Some (Ok m)))].
    exists (AtWait n). split; [done|]. intros _. by left.
  - destruct (notified w) eqn:E; [by exists (AtTop n)|]. exists (AtToken n). split; [done|].
    intros _. destruct (Hw I) as [?|[?|?]]; [by left|congruence|by right; right].
  - destruct (cancelled w); [by exists (AtEnd (Some (Err ShuttingDown)))|exists (AtWait n)].
    split; [done|]. intros _. exact (Hw I).
Qed.

Lemma Exists_insert_ne {A} (P : A → Prop) (l : list A) i x y :
  l !! i = Some y → ¬ P y → Exists P l → Exists P (<[i := x]> l).
Proof.
  intros Hi Hy (z & Hz & HP)%Exists_exists. apply list_elem_of_lookup in Hz as [j Hj].
  apply Exists_exists. exists z. split; [|done]. apply list_elem_of_lookup. exists j.
  rewrite list_lookup_insert_ne; [done|]. intros <-. congruence.
Qed.

Lemma still_no_permit {A B} (f : World → B * World) (k : B → prog World A) (w : World) :
  still f → ¬ announcing (Act f k).
Proof.
  intros Hf [Hg _]. destruct (Hf (set_notified false w)) as [_ H1].
  destruct (Hg (set_notified false w)) as [_ H2]. cbn in H1. congruence.
Qed.

Lemma no_sleep_step c c' : reception_step c c' → no_sleep c → no_sleep c'.
Proof.
  intros Hstep (Hts & q & Hq & Hw).
  destruct Hstep as [i B f k r ts w Hi|t r ts w Ht|i p r ts w Hi Hp|B f k ts w|polls r ts w];
    unfold no_sleep; cbn [fst snd] in *.
  - assert (Hlt : (i < length ts)%nat) by (by eapply lookup_lt_Some).
    destruct (Forall_lookup_1 _ _ _ _ Hts Hi) as [[[Hf Hk]|[Hf Hk]]|[Hf Hk]].
    + split; [apply Forall_insert; [done|by left]|]. exists q. split; [done|]. intros Hwq.
      destruct (Hf w) as [Hpe Hno]. unfold permitted. rewrite Hpe, Hno.
      destruct (Hw Hwq) as [?|[?|?]]; [by left|by right; left|right; right].
      eapply Exists_insert_ne; [exact Hi| |done]. by apply still_no_permit.
    + split; [apply Forall_insert; [done|]|].
      { right. specialize (Hk (f w).1). by destruct (k (f w).1). }
      exists q. split; [done|]. intros _. right; right. apply Exists_exists. exists (k (f w).1).
      split; [apply list_elem_of_lookup; exists i; by apply list_lookup_insert_eq|].
      specialize (Hk (f w).1). by destruct (k (f w).1).
    + split; [apply Forall_insert; [done|by left]|]. exists q. split; [done|]. intros _.
      right; left. apply Hf.
  - split; [apply Forall_app; split; [done|]; constructor; [left; by apply fair_task|done]|].
    exists q. split; [done|]. intros Hwq. destruct (Hw Hwq) as [?|[?|?]]; [by left|by right; left|].
    right; right. apply Exists_app. by left.
  - split; [apply Forall_insert; [done|by left]|]. exists q. split; [done|]. intros Hwq.
    destruct (Hw Hwq) as [?|[?|?]]; [by left|by right; left|right; right]. by eapply Exists_insert_ne.
  - split; [done|]. by eapply receiver_moves.
  - split; [done|]. by exists (AtTop polls).
Qed.

Lemma no_sleep_reach c c' : reception_reach c c' → no_sleep c → no_sleep c'.
Proof. induction 1; [done|]. eauto using no_sleep_step. Qed.

(** Wherever the receiver is, a message that is permitted gets to it. *)
Lemma code_takes q m l w :
  w.(pending) = m :: l → w.(cancelled) = false → (waits q → w.(notified) = true) →
  (2 < polls_left q)%nat →
  (run (code q) w).1 = Some (Ok m) ∧ (run (code q) w).2.(pending) = l.
Proof.
  intros Hp Hc Hn.
  assert (Htop : ∀ n w0, w0.(pending) = m :: l → w0.(cancelled) = false →
    run (KcpPeer.recv (S n)) w0 = (Some (Ok m), set_pending l w0)).
  { intros n w0 H1 H2. by rewrite recv_poll, H1, H2. }
  assert (Hwait : ∀ n w0, w0.(pending) = m :: l → w0.(cancelled) = false → w0.(notified) = true →
    run (KcpPeer.recv_wait (S (S n))) w0 = (Some (Ok m), set_pending l (set_notified false w0))).
  { intros n w0 H1 H2 H3. cbn [KcpPeer.recv_wait]. unfold KcpPeer.take_permit.
    rewrite run_bind, run_act. cbn [fst snd]. rewrite H3. by rewrite Htop. }
  destruct q as [[|n]|n|[|[|n]]|[|[|n]]|x]; cbn [polls_left code waits] in *; intros Hlt; try lia.
  - by rewrite Htop.
  - unfold KcpPeer.pop_front. rewrite run_bind, run_act, Hp. done.
  - rewrite Hwait by auto. done.
  - rewrite run_bind, run_get. cbn [fst snd]. rewrite Hc, Hwait by auto. done.
Qed.

(** C10. No lost wakeup. One receiver at a time, whose future may be dropped at
    any point and which may call [recv] again, runs next to any number of
    calls, incoming packets, receive loops and ticks, interleaved action by
    action. Whenever a message is queued, the node is not shut down and no
    handler is just between queueing and leaving its permit, the receiver, if
    it has not returned, gets the oldest message as soon as it is polled: it
    never sleeps on a message. *)
Theorem receiver_never_sleeps polls r ts w m l :
  reception_reach (KcpPeer.recv polls, [], KcpPeer.empty_world) (r, ts, w) →
  w.(pending) = m :: l → w.(cancelled) = false → Forall (λ p, ¬ announcing p) ts →
  ∃ q, r = code q ∧
    ((2 < polls_left q)%nat → (run r w).1 = Some (Ok m) ∧ (run r w).2.(pending) = l).
Proof.
  intros Hr Hp Hc Hts. destruct (no_sleep_reach _ _ Hr) as (_ & q & Hq & Hw).
  { split; [constructor|]. by exists (AtTop polls). }
  cbn [fst snd] in *. exists q. split; [done|]. intros Hlt. rewrite Hq.
  apply (code_takes q m l w Hp Hc); [|done]. intros Hwq.
  destruct (Hw Hwq) as [?|[?|H]]; [congruence|done|].
  apply Exists_exists in H as (p & Hin & Hann).
  by destruct (proj1 (Forall_forall _ _) Hts p Hin).
Qed.

(** With two receivers at once this fails: a packet that completes several
    messages leaves one permit, the receiver that takes it returns with the
    first message, and the other sleeps on, however often it is polled. *)
Lemma two_receivers_one_sleeps m1 m2 l w :
  w.(pending) = m1 :: m2 :: l → w.(cancelled) = false → w.(notified) = true →
  let x := run (KcpPeer.recv_wait 2) w in
  x.1 = Some (Ok m1) ∧ x.2.(pending) = m2 :: l ∧ ∀ n, run (KcpPeer.recv_wait n) x.2 = (None, x.2).
Proof.
  intros Hp Hc Hn. cbv zeta.
  assert (Hx : run (KcpPeer.recv_wait 2) w = (Some (Ok m1), set_pending (m2 :: l) (set_notified false w))).
  { cbn [KcpPeer.recv_wait]. unfold KcpPeer.take_permit. rewrite run_bind, run_act. cbn [fst snd].
    rewrite Hn, recv_poll. cbn. by rewrite Hc, Hp. }
  rewrite Hx. cbn [fst snd]. split_and!; [done|done|]. intros n. induction n as [|n IH]; [done|].
  cbn [KcpPeer.recv_wait]. unfold KcpPeer.take_permit. rewrite run_bind, run_act. cbn [fst snd].
  change (notified (set_pending (m2 :: l) (set_notified false w))) with false. cbn match.
  rewrite run_bind, run_get. cbn [fst snd].
  change (cancelled (set_notified false _)) with w.(cancelled). rewrite Hc. exact IH.
Qed.

(** A new task that runs to its end, and the receiver acting a few times. *)
Lemma reception_run p r ts w :
  reception_reach (r, ts ++ [p], w) (r, ts ++ [Ret tt], (run p w).2).
Proof.
  revert w. induction p as [[]|B f k IH]; intros w; cbn [run]; [constructor|].
  eapply rtc_l; [apply (task_acts (length ts) B f k); apply list_lookup_middle; done|].
  rewrite insert_app_r_alt, Nat.sub_diag by lia. apply IH.
Qed.

Lemma reception_task t r ts w :
  no_recv t → reception_reach (r, ts, w) (r, ts ++ [Ret tt], (run (task_prog self t) w).2).
Proof. intros Ht. eapply rtc_l; [by apply (task_spawned t)|apply reception_run]. Qed.

Fixpoint receiver_steps (n : nat) (r : receiver) (w : World) : receiver * World :=
  match n, r with
  | S n', Act f k => receiver_steps n' (k (f w).1) (f w).2
  | _, _ => (r, w)
  end.

Lemma reception_receiver n r ts w :
  reception_reach (r, ts, w) ((receiver_steps n r w).1, ts, (receiver_steps n r w).2).
Proof.
  revert r w. induction n as [|n IH]; intros [x|B f k] w; cbn [receiver_steps]; [constructor..|].
  eapply rtc_l; [apply receiver_acts|apply IH].
Qed.
End Receiver.

(** ** A receiver that waits, and a connection with a message *)

Definition toy_receiver := receiver_steps (K := toy_lib) 3 (KcpPeer.recv 9) KcpPeer.empty_world.

Definition toy_greeted : @World toy_lib :=
  let w := (run (task_prog (os := toy_os addr_a) toy_node
    (TIncoming (encode_control Syn 7) addr_b)) toy_receiver.2).2 in
  (run (task_prog (os := toy_os addr_a) toy_node
    (TIncoming (encode_kcp_data (to_le_bytes 7 ++ [104; 105])) addr_b)) w).2.

Lemma receiver_never_sleeps_witness :
  ∃ q, toy_receiver.1 = code q ∧
    ((2 < polls_left q)%nat →
     (run toy_receiver.1 toy_greeted).1 = Some (Ok (MkDataMessage addr_b [104; 105])) ∧
     (run toy_receiver.1 toy_greeted).2.(pending) = []).
Proof.
  apply (receiver_never_sleeps (K := toy_lib) (os := toy_os addr_a) toy_node 9 toy_receiver.1
    [Ret tt; Ret tt] toy_greeted).
  - unfold reception_reach. etransitivity; [exact (reception_receiver toy_node 3 _ _ _)|].
    etransitivity; [exact (reception_task (os := toy_os addr_a) toy_node
      (TIncoming (encode_control Syn 7) addr_b) toy_receiver.1 [] _ I)|].
    exact (reception_task (os := toy_os addr_a) toy_node
      (TIncoming (encode_kcp_data (to_le_bytes 7 ++ [104; 105])) addr_b) toy_receiver.1 [Ret tt] _ I).
  - vm_compute. reflexivity.
  - vm_compute. reflexivity.
  - repeat constructor; intros [].
Defined.
