(* ===== verification/UpdateSpec.v ===== *)
(** * What a tick of the update task does (src/src/transport.rs, [spawn_update_task])

    The scan decides, the prune removes: the theorem relates a whole tick to
    an abstract description of which sessions go and what is announced. *)

From S2P Require Import Prelude Prog Packet Kcp Addr Errors Config World Session Transport.
From S2P Require Import Incoming Update Effects Toy SessionSpec IncomingSpec Invariant Tasks.
From S2P Require Import TransportSpec Isolation.
Open Scope prog_scope.

Section UpdateSpec.
Context {K : KcpLib} {L : @KcpLaws K} {os : Os}.

(** Idle for longer than the timeout, at the tick's time. *)
Definition idle (config : KcpConfig) (now_epoch : Z) (σ : Session) : bool :=
  (0 <? σ.(last_rx)) &&
  (config.(session_timeout) <? from_millis (saturating_sub now_epoch σ.(last_rx))).

(** A handshake that has used up its retries. *)
Definition exhausted (config : KcpConfig) (σ : Session) : bool :=
  config.(syn_max_retries) <=? σ.(syn_retries).

Definition dead (σ : Session) : bool := kcp_is_dead_link σ.(inner).(kcp).

(** What scanning session [s] can do: to the session, everything but its
    identity, state, closing and receive time; to the world, frames and SYNs
    on the wire and clock readings. *)
Definition scan_effect (s : nat) (w w' : World) : Prop :=
  ∀ σ, w.(heap) !! s = Some σ →
  (∃ σ', w'.(heap) = <[s := σ']> w.(heap) ∧
    σ'.(closed) = σ.(closed) ∧ σ'.(last_rx) = σ.(last_rx) ∧ σ'.(peer_addr) = σ.(peer_addr) ∧
    σ'.(inner).(conv_id) = σ.(inner).(conv_id) ∧
    σ'.(inner).(state) = σ.(inner).(state)) ∧
  w'.(next) = w.(next) ∧ w'.(sessions) = w.(sessions) ∧ w'.(events) = w.(events) ∧
  w'.(pending) = w.(pending) ∧ w'.(notified) = w.(notified) ∧
  w'.(cancelled) = w.(cancelled).

Lemma scan_effect_refl s w : scan_effect s w w.
Proof.
  intros σ Hσ. split_and!; [|done..]. exists σ. by rewrite insert_id.
Qed.

Lemma kcp_scan_effect s w w' : kcp_effect s w w' → scan_effect s w w'.
Proof.
  intros H σ Hσ. destruct (H σ Hσ) as ((k & o & ds & _ & Hh & _) & ? & ? & ? & ? & ? & ? & _).
  split_and!; [|done..]. by exists (upd_inner (set_kcp k o) σ).
Qed.

Lemma scan_effect_trans s w1 w2 w3 :
  scan_effect s w1 w2 → scan_effect s w2 w3 → scan_effect s w1 w3.
Proof.
  intros H12 H23 σ Hσ.
  destruct (H12 σ Hσ) as ((σ2 & Hh & ? & ? & ? & ? & ?) & ? & ? & ? & ? & ? & ?).
  destruct (H23 σ2) as ((σ3 & Hh' & ? & ? & ? & ? & ?) & ? & ? & ? & ? & ? & ?).
  { rewrite Hh. apply lookup_insert_eq. }
  split_and!; try congruence. exists σ3. split_and!; try congruence.
  by rewrite Hh', Hh, insert_insert_eq.
Qed.

Lemma retry_scan_effect s config now w :
  is_Some (w.(heap) !! s) →
  scan_effect s w (run (Session.maybe_retry_syn s config now) w).2.
Proof.
  intros [σ0 Hσ0]. rewrite (maybe_retry_syn_run s config now σ0 w Hσ0).
  repeat case_match; try apply scan_effect_refl.
  intros σ Hσ. assert (σ0 = σ) as -> by congruence. split_and!; [|done..].
  by exists (retried (now_of w) σ).
Qed.

Lemma update_scan_effect s now w :
  is_Some (w.(heap) !! s) → scan_effect s w (run (Session.update s now) w).2.
Proof.
  intros [σ Hσ]. unfold Session.update. rewrite run_atomic. loads.
  destruct (state (inner σ)); loads; [apply scan_effect_refl|].
  destruct (kcp_is_dead_link _); [apply scan_effect_refl|].
  apply kcp_scan_effect. unfold bind_result. rewrite run_bind.
  pose proof (kcp_call_effect s (kcp_update now) w) as H.
  destruct (run (Session.kcp_call s (kcp_update now)) w) as [[[]|e] w1]; cbn [fst snd] in *; [|done].
  unfold load. rewrite run_bind, run_get. cbn [fst snd]. by destruct (kcp_is_dead_link _).
Qed.

(** The part of the scan after [update]. *)
Definition scan_rest (config : KcpConfig) (now_epoch : Z) (s : nat) : prog World bool :=
  r <- Session.maybe_retry_syn s config now_epoch ;;
  match r with
  | Err DeadLink => Ret true
  | _ =>
      last_rx_ms <- load s last_rx ;;
      if 0 <? last_rx_ms then
        let age := from_millis (saturating_sub now_epoch last_rx_ms) in
        Ret (config.(session_timeout) <? age)
      else Ret false
  end.

Lemma run_idle_check config now_epoch s σ w :
  w.(heap) !! s = Some σ →
  run (last_rx_ms <- load s last_rx ;;
       if 0 <? last_rx_ms then
         let age := from_millis (saturating_sub now_epoch last_rx_ms) in
         Ret (config.(session_timeout) <? age)
       else Ret false) w = (idle config now_epoch σ, w).
Proof. intros Hσ. loads. unfold idle. by destruct (0 <? last_rx σ). Qed.

(** After [update], only an exhausted handshake or idleness removes. *)
Lemma run_scan_rest config now_epoch s σ w :
  w.(heap) !! s = Some σ → σ.(closed) = false →
  let x := run (scan_rest config now_epoch s) w in
  scan_effect s w x.2 ∧
  x.1 = match σ.(inner).(state) with
        | SynSent => exhausted config σ || idle config now_epoch σ
        | Established => idle config now_epoch σ
        end.
Proof.
  intros Hσ Hc. cbn zeta. unfold scan_rest.
  pose proof (retry_scan_effect s config now_epoch w (mk_is_Some _ _ Hσ)) as Heff.
  rewrite run_bind. rewrite (maybe_retry_syn_run s config now_epoch σ w Hσ) in Heff |- *.
  rewrite Hc in *. unfold exhausted.
  destruct (state (inner σ)).
  - rewrite decide_False in * by done.
    destruct (syn_max_retries config <=? syn_retries σ); [done|]. cbn [orb].
    case_match; cbn [fst snd] in *; [by rewrite (run_idle_check _ _ _ σ)|].
    rewrite (run_idle_check _ _ _ (retried (now_of w) σ)); [done|]. apply lookup_insert_eq.
  - rewrite decide_True in * by done. cbn [fst snd] in *.
    by rewrite (run_idle_check _ _ _ σ).
Qed.

(** The abstract decision on a session that was [σ] when the tick met it
    and is [σ'] afterwards: a closed one is skipped; a handshake goes when it
    is exhausted or idle; an established session goes when it is idle or its
    link is dead, and only then. *)
Definition scan_decision (config : KcpConfig) (now_epoch : Z) (σ σ' : Session)
    (removed : Prop) : Prop :=
  (σ.(closed) = true → ¬ removed) ∧
  (σ.(closed) = false → σ.(inner).(state) = SynSent →
    (removed ↔ exhausted config σ || idle config now_epoch σ = true)) ∧
  (σ.(closed) = false → σ.(inner).(state) = Established →
    (dead σ = true ∨ idle config now_epoch σ = true → removed) ∧
    (removed → idle config now_epoch σ = true ∨ dead σ' = true)).

Lemma run_scan_session config now_ms now_epoch s σ w :
  w.(heap) !! s = Some σ →
  let x := run (scan_session config now_ms now_epoch s) w in
  scan_effect s w x.2 ∧
  ∃ σ', x.2.(heap) !! s = Some σ' ∧ scan_decision config now_epoch σ σ' (x.1 = true).
Proof.
  intros Hσ. cbn zeta. unfold scan_session. loads.
  unfold scan_decision. destruct (closed σ) eqn:Hc.
  { split; [apply scan_effect_refl|]. exists σ. by split_and!. }
  rewrite run_bind. change (r <- Session.maybe_retry_syn s config now_epoch ;; _)
    with (scan_rest config now_epoch s).
  pose proof (update_scan_effect s now_ms w (mk_is_Some _ _ Hσ)) as Heff.
  destruct (run_update s now_ms σ w Hσ) as (Hsyn & Hdead & Hest).
  destruct (state (inner σ)) eqn:Hst.
  { rewrite (Hsyn eq_refl). cbn [fst snd].
    destruct (run_scan_rest config now_epoch s σ w Hσ Hc) as [H1 H2]. rewrite Hst in H2.
    split; [done|]. destruct (H1 σ Hσ) as ((σ' & -> & _) & _).
    exists σ'. rewrite lookup_insert_eq, H2. by split_and!. }
  unfold dead at 1. destruct (kcp_is_dead_link (kcp (inner σ))) eqn:Hd.
  { rewrite (Hdead eq_refl eq_refl). cbn [fst snd run].
    split; [apply scan_effect_refl|]. exists σ. split_and!; try done. auto. }
  destruct (Hest eq_refl eq_refl) as (o & _ & Hres). clear Hsyn Hdead Hest.
  set (σ1 := kcp_state _ o σ) in Hres. set (w1 := upd_heap _ _) in Hres.
  assert (Hσ1 : w1.(heap) !! s = Some σ1) by apply lookup_insert_eq.
  assert (Hkeep : σ1.(closed) = σ.(closed) ∧ σ1.(last_rx) = σ.(last_rx) ∧
    σ1.(inner).(state) = σ.(inner).(state)) by done. destruct Hkeep as (Hc1 & Hrx & Hst1).
  destruct (run (Session.update s now_ms) w) as [u w1']. injection Hres as Hu1 ->.
  cbn [fst snd] in *.
  assert (Hu : (u = Err DeadLink ∧ dead σ1 = true) ∨
    ∀ A (t f : A), (match u with Err DeadLink => t | _ => f end) = f).
  { unfold dead, σ1. cbn [kcp_state upd_inner set_kcp inner kcp]. rewrite Hu1.
    destruct (kio_trace _ _ _) as [[k1 [[]|e]] ds]; cbn [fst snd]; [|by right].
    destruct (kcp_is_dead_link k1); [by left|by right]. }
  clear Hu1. destruct Hu as [[-> Hd1]|Hu].
  - cbn [run fst snd]. split; [done|]. exists σ1. split_and!; try done.
    intros _ _. split; [done|]. intros _. by right.
  - rewrite Hu. destruct (run_scan_rest config now_epoch s σ1 w1 Hσ1 (eq_trans Hc1 Hc))
      as [H1 H2].
    rewrite Hst1, Hst in H2. split; [by eapply scan_effect_trans|].
    destruct (H1 σ1 Hσ1) as ((σ2 & -> & _) & _). exists σ2. rewrite lookup_insert_eq, H2.
    assert (idle config now_epoch σ1 = idle config now_epoch σ) as ->
      by (unfold idle; by rewrite Hrx).
    split_and!; try done. intros _ _. split; [by intros [|]|auto].
Qed.

(** ** The scan *)

(** What the scan keeps of a session. *)
Definition kept (σ σ' : Session) : Prop :=
  σ'.(closed) = σ.(closed) ∧ σ'.(last_rx) = σ.(last_rx) ∧ σ'.(peer_addr) = σ.(peer_addr) ∧
  σ'.(inner).(conv_id) = σ.(inner).(conv_id) ∧ σ'.(inner).(state) = σ.(inner).(state).

(** Scanning one more session, [e], and recording the verdict [b] on it. *)
Lemma scan_decision_head config now_epoch σ σ1 (b : bool) (e : CanonicalAddr * nat) rem :
  e ∉ rem → scan_decision config now_epoch σ σ1 (b = true) →
  scan_decision config now_epoch σ σ1 (e ∈ (if b then e :: rem else rem)).
Proof.
  intros He. assert (Hiff : e ∈ (if b then e :: rem else rem) ↔ b = true).
  { destruct b; [|done]. rewrite elem_of_cons. tauto. }
  unfold scan_decision. by rewrite !Hiff.
Qed.

Lemma scan_decision_tail config now_epoch σ σ1 (b : bool) (e e' : CanonicalAddr * nat) rem :
  e' ≠ e → scan_decision config now_epoch σ σ1 (e' ∈ rem) →
  scan_decision config now_epoch σ σ1 (e' ∈ (if b then e :: rem else rem)).
Proof.
  intros He. assert (Hiff : e' ∈ (if b then e :: rem else rem) ↔ e' ∈ rem).
  { destruct b; [|done]. rewrite elem_of_cons. tauto. }
  unfold scan_decision. by rewrite !Hiff.
Qed.

Lemma run_scan config now_ms now_epoch entries acc w :
  NoDup entries.*2 → Forall (λ s, is_Some (w.(heap) !! s)) entries.*2 →
  let x := run (scan config now_ms now_epoch entries acc) w in
  ∃ removed, x.1 = acc ++ removed.*1 ∧ removed `sublist_of` entries ∧
    x.2.(sessions) = w.(sessions) ∧ x.2.(events) = w.(events) ∧
    x.2.(pending) = w.(pending) ∧ x.2.(cancelled) = w.(cancelled) ∧
    (∀ s, s ∉ entries.*2 → x.2.(heap) !! s = w.(heap) !! s) ∧
    (∀ can s σ, (can, s) ∈ entries → w.(heap) !! s = Some σ →
      ∃ σ', x.2.(heap) !! s = Some σ' ∧ kept σ σ' ∧
        scan_decision config now_epoch σ σ' ((can, s) ∈ removed)).
Proof.
  revert acc w. induction entries as [|[can s] l IH]; intros acc w Hnd Hl; cbn zeta.
  { exists []. cbn. rewrite app_nil_r. split_and!; try done. intros ? ? ? Hin. by inversion Hin. }
  cbn in Hnd, Hl. apply NoDup_cons in Hnd as [Hs Hnd]. apply Forall_cons in Hl as [[σ Hσ] Hl].
  cbn [scan]. rewrite run_bind.
  destruct (run_scan_session config now_ms now_epoch s σ w Hσ) as (Heff & σ1 & Hσ1 & Hdec).
  destruct (run (scan_session config now_ms now_epoch s) w) as [b w1]. cbn [fst snd] in *.
  destruct (Heff σ Hσ) as ((σ1' & Hh & Hk) & _ & Hm & He & Hp & _ & Hca).
  assert (σ1' = σ1) as -> by (rewrite Hh, lookup_insert_eq in Hσ1; congruence).
  assert (Hother : ∀ s', s' ≠ s → w1.(heap) !! s' = w.(heap) !! s')
    by (intros; rewrite Hh, lookup_insert_ne; done).
  destruct (IH (if b then acc ++ [can] else acc) w1 Hnd) as
    (rem & Hx & Hsub & Hm' & He' & Hp' & Hca' & Hout & Hin).
  { eapply Forall_impl; [exact Hl|]. intros s' [σ' ?]. rewrite Hh, lookup_insert.
    case_decide; eauto. }
  assert (Hrem : (can, s) ∉ rem).
  { intros H. apply Hs. apply (elem_of_sublist _ _ _ H) in Hsub.
    apply list_elem_of_fmap. by exists (can, s). }
  exists (if b then (can, s) :: rem else rem). cbn zeta in *.
  split_and!; try congruence.
  - rewrite Hx. destruct b; [|done]. by rewrite <- app_assoc.
  - destruct b; by constructor.
  - intros s' Hs'. cbn in Hs'. rewrite elem_of_cons in Hs'.
    rewrite Hout by tauto. apply Hother. tauto.
  - intros can' s' σ' Hin' Hσ'. apply elem_of_cons in Hin' as [[= -> ->]|Hin'].
    + assert (σ' = σ) as -> by congruence. exists σ1. rewrite (Hout s) by done.
      split_and!; [done|exact Hk|]. by apply scan_decision_head.
    + assert (Hne : s' ≠ s).
      { intros ->. apply Hs, list_elem_of_fmap. by exists (can', s). }
      destruct (Hin can' s' σ') as (σ2 & ? & ? & Hdec'); [done|by rewrite Hother|].
      exists σ2. split_and!; [done|done|]. apply scan_decision_tail; [congruence|done].
Qed.

(** ** The prune *)

Lemma run_prune can s σ w :
  w.(sessions) !! can = Some s → w.(heap) !! s = Some σ →
  run (prune can) w =
    (tt, push_event (Disconnected σ.(peer_addr))
           (upd_heap (<[s := set_closed true σ]>)
             (reset_world σ.(inner).(conv_id) σ.(peer_addr)
               (upd_sessions (delete can) w)))).
Proof.
  intros Hs Hσ. unfold prune, map_remove. rewrite run_atomic, run_bind, run_act. cbn [fst snd].
  rewrite Hs. set (w1 := upd_sessions _ w).
  assert (Hσ1 : w1.(heap) !! s = Some σ) by done. loads.
  rewrite run_bind, run_send_reset. cbn [snd]. unfold Session.mark_closed.
  by rewrite (run_store_bind s _ _ σ).
Qed.

(** Pruning the addresses of [l], each registered for its session. *)
Lemma prune_loop (l : list (CanonicalAddr * nat)) w :
  NoDup l.*1 → NoDup l.*2 →
  Forall (λ e, w.(sessions) !! e.1 = Some e.2 ∧ is_Some (w.(heap) !! e.2)) l →
  let w' := (run (for_each l.*1 prune) w).2 in
  (∀ can, w'.(sessions) !! can = if decide (can ∈ l.*1) then None else w.(sessions) !! can) ∧
  w'.(events) = w.(events) ++ ((λ e, Disconnected (w.(heap) !!! e.2).(peer_addr)) <$> l) ∧
  w'.(pending) = w.(pending) ∧
  (∀ s, s ∉ l.*2 → w'.(heap) !! s = w.(heap) !! s) ∧
  (∀ s σ, s ∈ l.*2 → w.(heap) !! s = Some σ → w'.(heap) !! s = Some (set_closed true σ)) ∧
  wire <$> w'.(sent) = (wire <$> w.(sent)) ++ (l.*2 ≫= resets_of w).
Proof.
  revert w. induction l as [|[can s] l IH]; intros w Hnd1 Hnd2 Hl; cbn zeta.
  { cbn. rewrite !app_nil_r. split_and!; try done. intros s σ H. by inversion H. }
  cbn in Hnd1, Hnd2. apply NoDup_cons in Hnd1 as [Hc Hnd1]. apply NoDup_cons in Hnd2 as [Hs Hnd2].
  apply Forall_cons in Hl as [[Hcs [σ Hσ]] Hl]. cbn in Hcs, Hσ.
  cbn [fmap list_fmap fst]. rewrite run_for_each_cons, (run_prune can s σ w Hcs Hσ).
  cbn [snd]. set (w1 := push_event _ _).
  assert (Hh1 : w1.(heap) = <[s := set_closed true σ]> w.(heap)) by done.
  assert (Hm1 : w1.(sessions) = delete can w.(sessions)) by done.
  assert (Hne : ∀ e, e ∈ l → e.1 ≠ can ∧ e.2 ≠ s).
  { intros e He. split; intros <-; [apply Hc|apply Hs]; apply list_elem_of_fmap; by exists e. }
  destruct (IH w1 Hnd1 Hnd2) as (Hm & He & Hp & Hout & Hin & Hsent).
  { apply Forall_forall. intros e Hel. destruct (Hne e Hel).
    pose proof (proj1 (Forall_forall _ _) Hl e Hel) as [? ?].
    rewrite Hm1, Hh1, lookup_delete_ne, lookup_insert_ne by congruence. done. }
  cbn zeta in *. split_and!; [| |by rewrite Hp| | |].
  - intros can'. rewrite Hm, Hm1, lookup_delete. cbn [fmap list_fmap fst].
    repeat case_decide; try done; exfalso; rewrite elem_of_cons in *; intuition congruence.
  - rewrite He. cbn [fmap list_fmap]. rewrite (lookup_total_correct _ _ _ Hσ).
    change (events w1) with (events w ++ [Disconnected (peer_addr σ)]).
    rewrite <- app_assoc. cbn [app]. do 2 f_equal. apply fmap_ext_elem. intros e Hel.
    rewrite Hh1, lookup_total_insert_ne; [done|]. apply not_eq_sym. by apply Hne.
  - intros s' Hs'. cbn in Hs'. rewrite elem_of_cons in Hs'. rewrite Hout by tauto.
    rewrite Hh1, lookup_insert_ne; [done|]. intros ->. tauto.
  - intros s' σ' Hs' Hσ'. cbn in Hs'. apply elem_of_cons in Hs' as [->|Hs'].
    + rewrite Hout by done. rewrite Hh1, lookup_insert_eq. congruence.
    + apply Hin; [done|]. rewrite Hh1, lookup_insert_ne; [done|]. by intros ->.
  - rewrite Hsent. cbn [fmap list_fmap snd mbind list_bind].
    assert (Hres : l.*2 ≫= resets_of w1 = l.*2 ≫= resets_of w).
    { apply bind_ext_elem. intros s' (e & -> & Hel)%list_elem_of_fmap. unfold resets_of.
      rewrite Hh1, lookup_total_insert_ne; [done|]. apply not_eq_sym. by apply Hne. }
    fold (mbind (M := list) (resets_of w1) (l.*2)). rewrite Hres, app_assoc. f_equal.
    unfold resets_of. rewrite (lookup_total_correct _ _ _ Hσ). cbn.
    by rewrite !fmap_app, <- !app_assoc.
Qed.

(** The entries of the map: distinct addresses, distinct sessions. *)
Lemma entries_nodup entries w :
  entries ≡ₚ map_to_list w.(sessions) →
  (∀ can s, w.(sessions) !! can = Some s →
    ∃ σ, w.(heap) !! s = Some σ ∧ canonicalize σ.(peer_addr) = can) →
  NoDup entries.*1 ∧ NoDup entries.*2.
Proof.
  intros Hperm HI. rewrite Hperm. split; [apply NoDup_fst_map_to_list|].
  apply NoDup_fmap_2_strong; [|apply NoDup_map_to_list].
  intros [c1 s1] [c2 s2] H1%elem_of_map_to_list H2%elem_of_map_to_list. cbn. intros <-.
  destruct (HI _ _ H1) as (? & ? & <-). destruct (HI _ _ H2) as (? & ? & <-). congruence.
Qed.

(** The tick up to its prune. *)
Lemma update_tick_scanned config w :
  OsLaws os → node_inv w → w.(sessions) ≠ ∅ →
  let now_epoch := epoch_ms_of (os_elapsed (S w.(nclock))) in
  ∃ removed w1,
    (run (update_tick config) w).2 = (run (for_each removed.*1 prune) w1).2 ∧
    NoDup removed.*1 ∧ NoDup removed.*2 ∧
    (∀ can s, (can, s) ∈ removed → w.(sessions) !! can = Some s) ∧
    w1.(sessions) = w.(sessions) ∧ w1.(events) = w.(events) ∧ w1.(pending) = w.(pending) ∧
    ∀ can s σ, w.(sessions) !! can = Some s → w.(heap) !! s = Some σ →
      ∃ σ1, w1.(heap) !! s = Some σ1 ∧ kept σ σ1 ∧
        scan_decision config now_epoch σ σ1 ((can, s) ∈ removed).
Proof.
  intros OL [_ HI] Hempty. cbn zeta. unfold update_tick. rewrite run_bind, run_get. cbn [fst snd].
  rewrite decide_False by done.
  unfold current_ms, epoch_ms. rewrite run_bind, run_act. cbn [fst snd].
  rewrite run_bind, run_act. cbn [fst snd]. rewrite run_bind, run_get. cbn [fst snd].
  rewrite run_bind. set (w0 := tick_clock (tick_clock w)).
  set (entries := os_iter (sessions w0)). set (now := epoch_ms_of _).
  assert (Hent : ∀ can s, (can, s) ∈ entries ↔ w.(sessions) !! can = Some s).
  { intros can s. unfold entries. rewrite (os_iter_perm w0.(sessions)). apply elem_of_map_to_list. }
  destruct (entries_nodup entries w) as [Hnd1 Hnd2]; [by apply (os_iter_perm w.(sessions))|done|].
  destruct (run_scan config (current_ms_of (os_elapsed (nclock w))) now entries [] w0 Hnd2)
    as (rem & Hx & Hsub & Hm & He & Hp & _ & _ & Hdec).
  { apply Forall_forall. intros s ((can & s') & -> & Hin%Hent)%list_elem_of_fmap.
    destruct (HI _ _ Hin) as (σ & ? & _). by exists σ. }
  match goal with |- context [run (scan ?a ?b ?c ?d ?e) ?f] =>
    destruct (run (scan a b c d e) f) as [to_remove w1] end.
  cbn [fst snd] in *. cbn [app] in Hx. subst to_remove. exists rem, w1.
  split_and!; [done| | | |done|done|done|].
  - eapply sublist_NoDup; [exact Hnd1|]. by apply sublist_fmap_of.
  - eapply sublist_NoDup; [exact Hnd2|]. by apply sublist_fmap_of.
  - intros can s Hin. apply Hent. by eapply elem_of_sublist.
  - intros can s σ Hs%Hent Hσ. by apply Hdec.
Qed.

(** C17. A tick of the update task implements its abstract description: there
    is a set of registered sessions, decided session by session on the state
    the tick found them in (closed ones skipped, handshakes removed when
    exhausted or idle, established sessions removed when idle or dead), and
    exactly these are taken out of the map, closed, announced by one
    [Disconnected] each after their removal, and sent three RESETs each after
    everything else the tick sends; every other session keeps its place,
    peer, conversation id, state and receive time. *)
Theorem update_tick_refines config w :
  OsLaws os → node_inv w →
  let w' := (run (update_tick config) w).2 in
  let now_epoch := epoch_ms_of (os_elapsed (S w.(nclock))) in
  ∃ removed : list (CanonicalAddr * nat),
    NoDup removed.*1 ∧
    (∀ can s, (can, s) ∈ removed → w.(sessions) !! can = Some s) ∧
    (∀ can, w'.(sessions) !! can =
      if decide (can ∈ removed.*1) then None else w.(sessions) !! can) ∧
    w'.(events) = w.(events) ++
      ((λ e, Disconnected (w.(heap) !!! e.2).(peer_addr)) <$> removed) ∧
    w'.(pending) = w.(pending) ∧
    (∀ can s σ, w.(sessions) !! can = Some s → w.(heap) !! s = Some σ →
      ∃ σ1, kept σ σ1 ∧ scan_decision config now_epoch σ σ1 ((can, s) ∈ removed) ∧
        w'.(heap) !! s = Some (if decide ((can, s) ∈ removed) then set_closed true σ1 else σ1)) ∧
    ∃ ds, wire <$> w'.(sent) = ds ++ (removed.*2 ≫= resets_of w).
Proof.
  intros OL HI0. pose proof HI0 as [_ HI]. cbn zeta.
  destruct (decide (w.(sessions) = ∅)) as [Hempty|Hne].
  { exists []. unfold update_tick. rewrite run_bind, run_get. cbn [fst snd].
    rewrite decide_True by done. cbn. rewrite app_nil_r.
    split_and!; [constructor|by intros ? ? ?%elem_of_nil|done|done|done| |].
    - intros can s σ Hs. by rewrite Hempty, lookup_empty in Hs.
    - exists (wire <$> sent w). by rewrite app_nil_r. }
  destruct (update_tick_scanned config w OL HI0 Hne)
    as (rem & w1 & -> & Hnd1 & Hnd2 & Hrem & Hm & He & Hp & Hdec).
  assert (Hlive : ∀ can s, (can, s) ∈ rem → ∃ σ σ1, w.(heap) !! s = Some σ ∧
    w1.(heap) !! s = Some σ1 ∧ kept σ σ1).
  { intros can s Hs%Hrem. destruct (HI _ _ Hs) as (σ & Hσ & _).
    destruct (Hdec can s σ Hs Hσ) as (σ1 & ? & ? & _). by exists σ, σ1. }
  destruct (prune_loop rem w1 Hnd1 Hnd2) as (Hm' & He' & Hp' & Hout' & Hin' & Hsent').
  { apply Forall_forall. intros [can s] Hin. rewrite Hm. split; [by apply Hrem|].
    destruct (Hlive can s Hin) as (? & ? & _ & ? & _). by eexists. }
  exists rem. split_and!; [done|done| | |by rewrite Hp'| |].
  - intros can. by rewrite Hm', Hm.
  - rewrite He', He. f_equal. apply fmap_ext_elem. intros [can s] Hin. cbn.
    destruct (Hlive can s Hin) as (σ & σ1 & Hσ & Hσ1 & (_ & _ & Hpeer & _)).
    by rewrite (lookup_total_correct _ _ _ Hσ1), (lookup_total_correct _ _ _ Hσ), Hpeer.
  - intros can s σ Hs Hσ. destruct (Hdec can s σ Hs Hσ) as (σ1 & Hσ1 & Hk & Hd). exists σ1.
    split_and!; [done|done|]. case_decide as Hr.
    + apply Hin'; [|done]. apply list_elem_of_fmap. by exists (can, s).
    + rewrite Hout'; [done|]. intros ((can' & s') & -> & Hin)%list_elem_of_fmap. apply Hr.
      cbn in *. pose proof (Hrem _ _ Hin) as Hs'.
      destruct (HI _ _ Hs) as (? & ? & <-). destruct (HI _ _ Hs') as (? & ? & <-). congruence.
  - exists (wire <$> sent w1). rewrite Hsent'. f_equal. apply bind_ext_elem.
    intros s ((can & s') & -> & Hin)%list_elem_of_fmap. cbn.
    destruct (Hlive can s' Hin) as (σ & σ1 & Hσ & Hσ1 & (_ & _ & Hpeer & Hconv & _)).
    unfold resets_of. by rewrite (lookup_total_correct _ _ _ Hσ1),
      (lookup_total_correct _ _ _ Hσ), Hpeer, Hconv.
Qed.
(** ** A tick that keeps the only session *)

(** The scan of an open session that stays. *)
Lemma scan_keeps config now_ms now_epoch s σ w :
  w.(heap) !! s = Some σ → σ.(closed) = false → σ.(inner).(state) = Established →
  let y := run (scan_session config now_ms now_epoch s) w in
  let x := kio_trace σ.(inner).(output).(out_peer) (length w.(sent))
             (kcp_update now_ms σ.(inner).(kcp)) in
  y.1 = false →
  (x.1.2 = Ok tt → kcp_is_dead_link x.1.1 = false) ∧
  ∃ o, o.(out_peer) = σ.(inner).(output).(out_peer) ∧
    y.2 = upd_heap (<[s := kcp_state x.1.1 o σ]>) (add_sent x.2 w).
Proof.
  intros Hσ Hc Hst. cbv zeta. unfold scan_session. loads. rewrite Hc, run_bind.
  change (r <- Session.maybe_retry_syn s config now_epoch ;; _)
    with (scan_rest config now_epoch s).
  destruct (run_update s now_ms σ w Hσ) as (_ & Hdead & Hest).
  destruct (kcp_is_dead_link (kcp (inner σ))) eqn:Hd; [by rewrite (Hdead Hst eq_refl)|].
  destruct (Hest Hst eq_refl) as (o & Ho & ->). cbn [fst snd].
  set (x := kio_trace _ _ _). set (w1 := upd_heap _ _).
  assert (Hrest : (run (scan_rest config now_epoch s) w1).2 = w1).
  { assert (Hσ1 : w1.(heap) !! s = Some (kcp_state x.1.1 o σ)) by apply lookup_insert_eq.
    unfold scan_rest. rewrite run_bind, (maybe_retry_syn_run s _ _ _ w1 Hσ1).
    cbn [kcp_state upd_inner set_kcp closed inner state]. rewrite Hc, Hst, decide_True by done.
    cbn [fst snd]. by rewrite (run_idle_check _ _ _ _ _ Hσ1). }
  destruct x as [[k [[]|e]] ds]; cbn [fst snd]; [destruct (kcp_is_dead_link k) eqn:Hk|];
    cbn [run fst]; intros Hb; [done|split; [done|by exists o]..].
Qed.

Lemma tick_keeps config can s σ w :
  OsLaws os → w.(sessions) = {[ can := s ]} → w.(heap) !! s = Some σ →
  σ.(closed) = false → σ.(inner).(state) = Established →
  let w' := (run (update_tick config) w).2 in
  let t := current_ms_of (os_elapsed w.(nclock)) in
  let x := kio_trace σ.(inner).(output).(out_peer) (length w.(sent)) (kcp_update t σ.(inner).(kcp)) in
  w'.(sessions) !! can ≠ None →
  (x.1.2 = Ok tt → kcp_is_dead_link x.1.1 = false) ∧
  ∃ o, o.(out_peer) = σ.(inner).(output).(out_peer) ∧
    w' = upd_heap (<[s := kcp_state x.1.1 o σ]>) (add_sent x.2 (tick_clock (tick_clock w))).
Proof.
  intros OL Hs Hσ Hc Hst. cbv zeta. unfold update_tick. rewrite run_bind, run_get. cbn [fst snd].
  rewrite decide_False by (by rewrite Hs).
  unfold current_ms, epoch_ms. rewrite run_bind, run_act. cbn [fst snd].
  rewrite run_bind, run_act. cbn [fst snd]. rewrite run_bind, run_get. cbn [fst snd].
  set (w0 := tick_clock (tick_clock w)). set (t := current_ms_of _). set (now := epoch_ms_of _).
  assert (os_iter w0.(sessions) = [(can, s)]) as ->.
  { apply Permutation_singleton_r. rewrite (os_iter_perm w0.(sessions)).
    change (sessions w0) with (sessions w). by rewrite Hs, map_to_list_singleton. }
  assert (Hσ0 : w0.(heap) !! s = Some σ) by done.
  cbn [scan]. rewrite run_bind, run_bind.
  pose proof (scan_keeps config t now s σ w0 Hσ0 Hc Hst) as Hkeep. cbv zeta in Hkeep.
  destruct (run_scan_session config t now s σ w0 Hσ0) as (Heff & _).
  destruct (run (scan_session config t now s) w0) as [[] w1]; cbn [fst snd] in *.
  - destruct (Heff σ Hσ0) as (_ & _ & Hm & _). cbn [app run fst snd].
    rewrite run_for_each_cons. change (sessions w0) with (sessions w) in Hm.
    destruct (Heff σ Hσ0) as ((σ1 & Hh & _) & _).
    rewrite (run_prune can s σ1 w1); [|by rewrite Hm, Hs, lookup_singleton_eq|
      by rewrite Hh, lookup_insert_eq].
    cbn [snd for_each run]. intros H. exfalso. apply H.
    unfold push_event, upd_heap, reset_world. cbn. by rewrite lookup_delete_eq.
  - intros _. by apply Hkeep.
Qed.

(** ** A tick that keeps one session among others *)

(** The scan of a connecting session that stays: it may send its SYN again. *)
Lemma scan_keeps_syn config now_ms now_epoch s σ w :
  w.(heap) !! s = Some σ → σ.(closed) = false → σ.(inner).(state) = SynSent →
  let y := run (scan_session config now_ms now_epoch s) w in
  y.1 = false → y.2 = w ∨ y.2 = retry_world s σ w.
Proof.
  intros Hσ Hc Hst. cbv zeta. unfold scan_session. loads. rewrite Hc, run_bind.
  destruct (run_update s now_ms σ w Hσ) as (Hsyn & _). rewrite (Hsyn Hst). cbn [fst snd].
  rewrite run_bind, (maybe_retry_syn_run s _ _ σ w Hσ), Hc.
  rewrite decide_False by (by rewrite Hst).
  destruct (syn_max_retries config <=? syn_retries σ); [done|].
  destruct (saturating_sub _ _ <? _); cbn [fst snd].
  - rewrite (run_idle_check _ _ _ σ) by done. by left.
  - rewrite (run_idle_check _ _ _ (retried (now_of w) σ)) by apply lookup_insert_eq. by right.
Qed.

(** Scanning the sessions of other peers. *)
Lemma scan_others config now_ms now_epoch can entries acc w :
  well_filed w → Forall (λ e, e.1 ≠ can ∧ own e.1 e.2 w) entries →
  let x := run (scan config now_ms now_epoch entries acc) w in
  well_filed x.2 ∧ away can w x.2 ∧ (∀ c s, own c s w → own c s x.2) ∧
  ∃ l, x.1 = acc ++ l ∧ Forall (λ c, c ≠ can) l.
Proof.
  revert acc w. induction entries as [|[c s] l IH]; intros acc w Hw Hl; cbv zeta.
  { split_and!; [done|reflexivity|done|]. exists []. by rewrite app_nil_r. }
  apply Forall_cons in Hl as [[Hne Hown] Hl]. cbn in Hne, Hown. cbn [scan]. rewrite run_bind.
  destruct (within_run c _ _ w Hw (within_scan_session c config now_ms now_epoch s w Hown))
    as (Hw1 & HG & _).
  destruct (run (scan_session config now_ms now_epoch s) w) as [b w1]. cbn [fst snd] in *.
  destruct (IH (if b then acc ++ [c] else acc) w1 Hw1) as (Hw2 & Ha & Ho & l' & Hx & Hl').
  { eapply Forall_impl; [exact Hl|]. intros e [? ?]. split; [done|]. by eapply touches_own_any. }
  cbv zeta in *. split_and!; [done| | |].
  - etransitivity; [by eapply touches_away|done].
  - intros c' s' H. apply Ho. by eapply touches_own_any.
  - destruct b; [exists (c :: l')|by exists l']. rewrite Hx, <- app_assoc. split; [done|by constructor].
Qed.

Lemma prune_filed l w : well_filed w → well_filed (run (for_each l prune) w).2.
Proof.
  revert w. induction l as [|c l IH]; intros w Hw; [done|]. rewrite run_for_each_cons.
  apply IH. by apply (within_run c _ _ w Hw (within_prune c w)).
Qed.

Lemma prune_others can l w :
  well_filed w → Forall (λ c, c ≠ can) l →
  let w' := (run (for_each l prune) w).2 in well_filed w' ∧ away can w w'.
Proof.
  revert w. induction l as [|c l IH]; intros w Hw Hl; cbv zeta; [by split|].
  apply Forall_cons in Hl as [Hne Hl]. rewrite run_for_each_cons.
  destruct (within_run c _ _ w Hw (within_prune c w)) as (Hw1 & HG & _).
  destruct (IH _ Hw1 Hl) as [Hw2 Ha]. split; [done|]. etransitivity; [by eapply touches_away|done].
Qed.

Lemma scan_app config now_ms now_epoch l1 l2 acc w :
  run (scan config now_ms now_epoch (l1 ++ l2) acc) w =
    let x := run (scan config now_ms now_epoch l1 acc) w in
    run (scan config now_ms now_epoch l2 x.1) x.2.
Proof.
  revert acc w. induction l1 as [|[c s] l1 IH]; intros acc w; [done|].
  cbn [app scan]. rewrite !run_bind. apply IH.
Qed.

(** A removed address is out of the map, and stays out when others are removed. *)
Lemma prune_gone can l1 l2 w :
  well_filed w → Forall (λ c, c ≠ can) l1 → Forall (λ c, c ≠ can) l2 →
  (run (for_each (l1 ++ can :: l2) prune) w).2.(sessions) !! can = None.
Proof.
  intros Hw H1 H2. rewrite run_for_each_app, run_for_each_cons.
  destruct (prune_others can l1 w Hw H1) as [Hw1 _].
  set (w1 := (run (for_each l1 prune) w).2) in *.
  destruct (within_run can _ _ w1 Hw1 (within_prune can w1)) as (Hw2 & _).
  destruct (prune_others can l2 _ Hw2 H2) as [_ [Hs _]]. rewrite Hs.
  unfold prune, map_remove. rewrite run_atomic, run_bind, run_act. cbn [fst snd].
  destruct (sessions w1 !! can) as [s|] eqn:E; [|by cbn; rewrite lookup_delete_eq].
  destruct (Hw1 can) as [_ Hf]. destruct (Hf s E) as (σ & Hσ & _).
  set (w3 := upd_sessions _ w1). assert (Hσ3 : w3.(heap) !! s = Some σ) by done. loads.
  rewrite run_bind, run_send_reset. cbn [snd]. unfold Session.mark_closed.
  rewrite (run_store_bind s _ _ σ) by done. cbn. by rewrite lookup_delete_eq.
Qed.

(** A tick of a node without a session with the peer. *)
Lemma tick_away config can w :
  OsLaws os → well_filed w → w.(sessions) !! can = None →
  let w' := (run (update_tick config) w).2 in well_filed w' ∧ away can w w'.
Proof.
  intros OL Hw Hs. cbv zeta. unfold update_tick. rewrite run_bind, run_get. cbn [fst snd].
  case_decide; [by split|].
  unfold current_ms, epoch_ms. rewrite run_bind, run_act. cbn [fst snd].
  rewrite run_bind, run_act. cbn [fst snd]. rewrite run_bind, run_get. cbn [fst snd].
  set (w0 := tick_clock (tick_clock w)). rewrite run_bind.
  assert (Hent : Forall (λ e, e.1 ≠ can ∧ own e.1 e.2 w0) (os_iter w0.(sessions))).
  { rewrite (os_iter_perm w0.(sessions)). apply Forall_forall.
    intros [c s] H1%elem_of_map_to_list. split; [|by apply (Hw c)].
    cbn. intros ->. change (w.(sessions) !! can = Some s) in H1. congruence. }
  match goal with |- context [run (scan ?a ?b ?c ?d ?e) ?f] =>
    destruct (scan_others a b c can d e f Hw Hent) as (Hw1 & Ha1 & _ & l & Hx & Hl);
    destruct (run (scan a b c d e) f) as [rem w1] end.
  cbn [fst snd app] in *. subst rem. destruct (prune_others can l w1 Hw1 Hl) as [Hw2 Ha2].
  split; [done|]. etransitivity; [exact Ha1|exact Ha2].
Qed.

(** A tick that keeps the session with a peer is the scan of that session,
    between actions that concern other peers. *)
Lemma tick_around config can s w :
  OsLaws os → well_filed w → w.(sessions) !! can = Some s →
  let w' := (run (update_tick config) w).2 in
  well_filed w' ∧
  (w'.(sessions) !! can ≠ None →
   ∃ wa now_ms now_epoch, let y := run (scan_session config now_ms now_epoch s) wa in
     well_filed wa ∧ away can w wa ∧ y.1 = false ∧ well_filed y.2 ∧ touches can wa y.2 ∧
     away can y.2 w').
Proof.
  intros OL Hw Hs. cbv zeta. unfold update_tick. rewrite run_bind, run_get. cbn [fst snd].
  rewrite decide_False by (intros E; by rewrite E, lookup_empty in Hs).
  unfold current_ms, epoch_ms. rewrite run_bind, run_act. cbn [fst snd].
  rewrite run_bind, run_act. cbn [fst snd]. rewrite run_bind, run_get. cbn [fst snd].
  set (w0 := tick_clock (tick_clock w)). set (t := current_ms_of _). set (now := epoch_ms_of _).
  assert (Hw0 : well_filed w0) by exact Hw.
  assert (Ha0 : away can w w0) by (change (away can w w); reflexivity).
  assert (Hperm : os_iter w0.(sessions) ≡ₚ map_to_list w0.(sessions)) by apply os_iter_perm.
  set (entries := os_iter w0.(sessions)) in *.
  assert (Hin : (can, s) ∈ entries) by (rewrite Hperm; by apply elem_of_map_to_list).
  assert (Hnd : NoDup entries.*1) by (rewrite Hperm; apply NoDup_fst_map_to_list).
  assert (Hown : Forall (λ e, own e.1 e.2 w0) entries).
  { rewrite Hperm. apply Forall_forall. intros [c s'] H%elem_of_map_to_list. by apply (Hw0 c). }
  apply list_elem_of_split in Hin as (l1 & l2 & E). rewrite E in *. clear Hperm E entries.
  rewrite fmap_app, fmap_cons in Hnd. apply NoDup_app in Hnd as (_ & Hd1 & Hnd2).
  apply NoDup_cons in Hnd2 as [Hd2 _]. apply Forall_app in Hown as [Ho1 Ho2].
  apply Forall_cons in Ho2 as [Hos Ho2]. cbn [fst snd] in *.
  assert (Hne1 : ∀ e, e ∈ l1 → e.1 ≠ can).
  { intros e He Heq. apply (Hd1 can); [|left]. rewrite <- Heq. apply list_elem_of_fmap. by exists e. }
  assert (Hne2 : ∀ e, e ∈ l2 → e.1 ≠ can).
  { intros e He Heq. apply Hd2. rewrite <- Heq. apply list_elem_of_fmap. by exists e. }
  rewrite run_bind, scan_app. cbv zeta.
  destruct (scan_others config t now can l1 [] w0 Hw0) as (Hw1 & Ha1 & Hk1 & r1 & Hx1 & Hr1).
  { apply Forall_forall. intros e He. split; [by apply Hne1|]. by apply (proj1 (Forall_forall _ _) Ho1). }
  cbv zeta in *. destruct (run (scan config t now l1 []) w0) as [acc1 w1]. cbn [fst snd app] in *. subst acc1.
  cbn [scan]. rewrite run_bind. specialize (Hk1 can s Hos) as Hos1.
  destruct (within_run can _ _ w1 Hw1 (within_scan_session can config t now s w1 Hos1))
    as (Hw2 & HG2 & _).
  destruct (run (scan_session config t now s) w1) as [b w2] eqn:Hscan. cbn [fst snd] in *.
  destruct (scan_others config t now can l2 (if b then r1 ++ [can] else r1) w2 Hw2)
    as (Hw3 & Ha3 & _ & r2 & Hx3 & Hr2).
  { apply Forall_forall. intros e He. split; [by apply Hne2|].
    eapply touches_own_any; [exact HG2|]. apply Hk1. by apply (proj1 (Forall_forall _ _) Ho2). }
  cbv zeta in *.
  match type of Hw3 with well_filed (?r).2 => destruct r as [rem w3] end. cbn [fst snd] in *. subst rem.
  destruct b.
  - split.
    + by apply prune_filed.
    + intros H. exfalso. apply H. rewrite <- app_assoc. cbn [app]. by apply prune_gone.
  - assert (Hall : Forall (λ c, c ≠ can) (r1 ++ r2)) by (by apply Forall_app).
    destruct (prune_others can _ w3 Hw3 Hall) as [Hw4 Ha4]. split; [done|]. intros _.
    exists w1, t, now. rewrite Hscan. cbn [fst snd]. split; [done|]. split; [by etransitivity|].
    split; [done|]. split; [done|]. split; [done|]. by etransitivity.
Qed.
End UpdateSpec.

(** ** The theorem on a concrete tick: a dead session goes *)

Lemma toy_dead_ok : session_ok (K := toy_lib) toy_dead_session.
Proof. vm_compute. split_and!; done. Qed.

Lemma update_tick_refines_witness :
  ∃ removed, removed = [(canonicalize addr_b, 0%nat)] ∧
    (run (update_tick (os := toy_os addr_a) default) (toy_world toy_dead_session)).2.(events) =
      (λ e : CanonicalAddr * nat,
        Disconnected (((toy_world toy_dead_session).(heap) !!! e.2 : @Session toy_lib).(peer_addr))) <$> removed.
Proof.
  destruct (update_tick_refines (os := toy_os addr_a) default
    (toy_world toy_dead_session) (toy_os_laws addr_a) (toy_world_inv _ toy_dead_ok))
    as (removed & Hnd & Hin & _ & He & _ & Hdec & _).
  exists removed. split; [|exact He].
  destruct (Hdec (canonicalize addr_b) 0%nat toy_dead_session eq_refl eq_refl)
    as (σ1 & _ & (_ & _ & Hd) & _).
  destruct (Hd eq_refl eq_refl) as [Hd' _].
  assert (Hall : ∀ e, e ∈ removed → e = (canonicalize addr_b, 0%nat)).
  { intros [can s] H. apply Hin in H. cbn in H. apply lookup_singleton_Some in H as [<- <-].
    reflexivity. }
  destruct removed as [|e removed].
  - exfalso. apply (not_elem_of_nil (canonicalize addr_b, 0%nat)), Hd'. left. reflexivity.
  - rewrite (Hall e) in * by left. f_equal. destruct removed as [|e' removed]; [reflexivity|].
    exfalso. rewrite (Hall e') in Hnd by (right; left).
    inversion Hnd as [|? ? H _]. apply H. left.
Defined.
