(* ===== verification/Handshake.v ===== *)
(** * Handshakes between two nodes

    Two nodes, each with its own operating system and world, exchange the
    packets their handlers produce: the ordinary handshake, the simultaneous
    one, and what goes wrong with it when the tie-break is not symmetric or a
    SYN is duplicated. *)

From S2P Require Import Prelude Prog Packet Kcp Addr Errors Config World Session Transport.
From S2P Require Import Incoming Effects Toy SessionSpec IncomingSpec Invariant TransportSpec.
Open Scope prog_scope.

Section Peers.
Context {K : KcpLib}.

(** The node has, under the address [peer], an open session in state [st]
    with conversation [conv]. *)
Definition has_session (w : World) (peer : SocketAddr) (st : SessionState) (conv : Z) : Prop :=
  ∃ s σ, w.(sessions) !! canonicalize peer = Some s ∧ w.(heap) !! s = Some σ ∧
    σ.(closed) = false ∧ σ.(inner).(state) = st ∧ σ.(inner).(conv_id) = conv.

Definition connected (w : World) (peer : SocketAddr) (conv : Z) : Prop :=
  has_session w peer Established conv.

Definition connecting (w : World) (peer : SocketAddr) (conv : Z) : Prop :=
  has_session w peer SynSent conv.

(** The last datagram the node handed to its socket. *)
Definition last_sent (w : World) (to : SocketAddr) (b : bytes) : Prop :=
  ∃ d ds, w.(sent) = ds ++ [d] ∧ d.(dg_to) = to ∧ d.(dg_bytes) = b.

Lemma has_session_det w peer st st' c c' :
  has_session w peer st c → has_session w peer st' c' → st = st' ∧ c = c'.
Proof.
  intros (s & σ & Hs & Hσ & _ & ? & ?) (s' & σ' & Hs' & Hσ' & _ & ? & ?).
  assert (s' = s) as -> by congruence. assert (σ' = σ) as -> by congruence.
  split; congruence.
Qed.
End Peers.

Section Node.
Context {K : KcpLib} {os : Os}.

(** Completing a handshake leaves an established session behind. *)
Lemma establishes_connected s σ conv from w w' :
  w.(sessions) !! canonicalize from = Some s → σ.(closed) = false →
  establishes s σ conv from w w' →
  connected w' from conv ∧ w'.(events) = w.(events) ++ [Connected from].
Proof.
  intros Hs Hc (o & _ & ->). split; [|done].
  exists s. eexists. split; [exact Hs|]. split; [apply lookup_insert_eq|done].
Qed.

Lemma control_split t c payload :
  split_packet (encode_control t c) = Some (t, payload) → payload = to_le_bytes c.
Proof. rewrite split_control. congruence. Qed.

(** A SYN for a node that is itself connecting to the sender. *)
Lemma syn_while_connecting from me mine theirs inc config w :
  os_local_addr = Ok me → u32_ok theirs → mine ≠ theirs →
  connecting w from mine →
  let kept := if addr_gt from me then theirs else mine in
  let w' := (run (handle_incoming (encode_control Syn theirs) from inc config) w).2 in
  connected w' from kept ∧ w'.(events) = w.(events) ++ [Connected from] ∧
  last_sent w' from (encode_control SynAck kept).
Proof.
  intros Hme Hu Hne (s & σ & Hs & Hσ & Hc & Hst & Hconv). cbn zeta.
  destruct (syn_tie_break (encode_control Syn theirs) (to_le_bytes theirs) from me inc
    config s σ w) as (w1 & Hest & Hrun);
    [apply split_control|cbn; lia|done..|rewrite payload_conv_control by done; congruence|done|].
  rewrite payload_conv_control, Hconv in Hest, Hrun by done. rewrite Hrun. cbn [snd].
  destruct (establishes_connected _ _ _ _ _ _ Hs Hc Hest) as [(s' & σ' & Hc1) He].
  split_and!; [by exists s', σ'|done|]. by eexists _, _.
Qed.

(** A SYN_ACK for a node that is connected is ignored. *)
Lemma syn_ack_when_connected from conv conv' inc config w :
  connected w from conv →
  run (handle_incoming (encode_control SynAck conv') from inc config) w = (Ok tt, w).
Proof.
  intros (s & σ & Hs & Hσ & _ & Hst & _).
  pose proof (syn_ack_spec_run (encode_control SynAck conv') (to_le_bytes conv') from inc config w) as H.
  rewrite Hs in H. specialize (H (split_control _ _) ltac:(done) σ Hσ).
  rewrite decide_False in H; [done|]. rewrite Hst. by intros [? _].
Qed.

(** The matching SYN_ACK connects. *)
Lemma syn_ack_while_connecting from conv inc config w :
  u32_ok conv → connecting w from conv →
  let w' := (run (handle_incoming (encode_control SynAck conv) from inc config) w).2 in
  connected w' from conv ∧ w'.(events) = w.(events) ++ [Connected from].
Proof.
  intros Hu (s & σ & Hs & Hσ & Hc & Hst & Hconv). cbn zeta.
  pose proof (syn_ack_spec_run (encode_control SynAck conv) (to_le_bytes conv) from inc config w) as H.
  rewrite Hs in H. specialize (H (split_control _ _) ltac:(done) σ Hσ).
  rewrite payload_conv_control, decide_True in H by done.
  destruct H as (w1 & Hest & ->). rewrite Hconv in Hest. cbn [snd].
  by eapply establishes_connected.
Qed.

(** A SYN for a node without a session for the sender. *)
Lemma syn_when_absent from me conv inc config w :
  os_local_addr = Ok me → u32_ok conv → w.(sessions) !! canonicalize from = None →
  let w' := (run (handle_incoming (encode_control Syn conv) from inc config) w).2 in
  connected w' from conv ∧ w'.(events) = w.(events) ++ [Connected from] ∧
  last_sent w' from (encode_control SynAck conv).
Proof.
  intros Hme Hu Hs. cbn zeta.
  rewrite (syn_creates_session (encode_control Syn conv) (to_le_bytes conv) from me);
    [|apply split_control|cbn; lia|done..].
  rewrite payload_conv_control by done. cbn [snd]. split_and!; [|done|by eexists _, _].
  exists w.(next). eexists. split; [apply lookup_insert_eq|].
  split; [apply lookup_insert_eq|done].
Qed.

(** A SYN with another conversation for a connected node: the session is
    replaced. *)
Lemma syn_when_connected from me mine theirs inc config w :
  os_local_addr = Ok me → u32_ok theirs → mine ≠ theirs →
  connected w from mine →
  let w' := (run (handle_incoming (encode_control Syn theirs) from inc config) w).2 in
  connected w' from theirs ∧
  w'.(events) = w.(events) ++ [PeerRestarted from; Connected from].
Proof.
  intros Hme Hu Hne (s & σ & Hs & Hσ & Hc & Hst & Hconv). cbn zeta.
  rewrite (syn_restarts_session (encode_control Syn theirs) (to_le_bytes theirs) from me)
    with (s := s) (σ := σ);
    [|apply split_control|cbn; lia|done..|rewrite payload_conv_control by done; congruence|done].
  rewrite payload_conv_control by done. cbn [snd]. split.
  - exists w.(next). eexists. split; [apply lookup_insert_eq|].
    split; [apply lookup_insert_eq|done].
  - cbn. by rewrite <- app_assoc.
Qed.
End Node.

Section Initiate.
Context {K : KcpLib} {L : @KcpLaws K} {os : Os}.

(** [send_data] during the handshake sends nothing and keeps the session
    connecting. *)
Lemma send_data_connecting s σ data w :
  w.(heap) !! s = Some σ → σ.(closed) = false → σ.(inner).(state) = SynSent →
  ∃ k, (run (Session.send_data s data) w).2 = upd_heap (<[s := with_kcp k σ]>) w.
Proof.
  intros Hσ Hc Hst. destruct (send_data_run s data σ w Hσ) as (_ & Hdead & Halive).
  destruct (kcp_is_dead_link σ.(inner).(kcp)) eqn:Hd.
  - rewrite (Hdead Hc eq_refl). exists σ.(inner).(kcp). by rewrite with_kcp_id, upd_heap_id.
  - destruct (Halive Hc eq_refl) as (k & r & _ & H). exists k.
    rewrite Hst in H. by destruct r; rewrite H.
Qed.

(** [send] to an unknown address leaves the node connecting, with its SYN as
    the last thing sent. *)
Lemma send_connects self peer data w :
  w.(sessions) !! canonicalize peer = None →
  let w' := (run (KcpPeer.send self peer data) w).2 in
  let conv := os_rand w.(nrand) in
  connecting w' peer conv ∧ w'.(events) = w.(events) ∧
  last_sent w' peer (encode_control Syn conv).
Proof.
  intros Hs. cbn zeta. pose proof (send_auto_initiates_run self peer data w) as H.
  rewrite Hs in H. destruct H as (-> & Hm & Hsent & He & σ & Hh & Hst & Hconv & _ & Hc & _).
  set (w1 := initiated_world self peer w) in *.
  assert (Hσ : w1.(heap) !! w.(next) = Some σ) by (rewrite Hh; apply lookup_insert_eq).
  destruct (send_data_connecting w.(next) σ data w1 Hσ Hc Hst) as (k & ->).
  split_and!; [|done|].
  - exists w.(next), (with_kcp k σ). split; [cbn; rewrite Hm; apply lookup_insert_eq|].
    split; [apply lookup_insert_eq|done].
  - eexists _, _. split; [exact Hsent|done].
Qed.

(** Data accepted while the handshake is in progress goes out when the
    handshake completes: a [send] to an unknown address puts only its SYN on
    the wire and queues the data in KCP; the matching SYN_ACK then makes the
    session's KCP, with exactly that data in it, run its update and flush, and
    the datagrams of these are sent to the peer. *)
Theorem queued_data_flushed self peer data inc config w :
  OsLaws os → w.(sessions) !! canonicalize peer = None →
  let conv := os_rand w.(nrand) in
  let k0 := apply_to self.(kp_config) (kcp_new conv) in
  kcp_is_dead_link k0 = false →
  let w1 := (run (KcpPeer.send self peer data) w).2 in
  let w2 := (run (handle_incoming (encode_control SynAck conv) peer inc config) w1).2 in
  ∃ k r, kcp_send data k0 = KRet (k, r) ∧
    wire <$> w1.(sent) = (wire <$> w.(sent)) ++ [(peer, encode_control Syn conv)] ∧
    w2.(sent) = w1.(sent) ++
      (update_and_flush peer (length w1.(sent))
        (current_ms_of (os_elapsed (S w1.(nclock)))) k).2.
Proof.
  intros OL Hs. cbv zeta. intros Hd.
  assert (Hu : u32_ok (os_rand w.(nrand))).
  { pose proof (os_rand_range (OsLaws := OL) w.(nrand)). width_lia. }
  pose proof (send_auto_initiates_run self peer data w) as H. rewrite Hs in H.
  destruct H as (-> & Hm & Hsent & _ & σ & Hh & Hst & Hconv & _ & Hc & _ & Hk0 & Hp).
  set (w0 := initiated_world self peer w) in *.
  assert (Hσ : w0.(heap) !! w.(next) = Some σ) by (rewrite Hh; apply lookup_insert_eq).
  destruct (send_data_run w.(next) data σ w0 Hσ) as (_ & _ & Halive).
  rewrite Hk0 in Halive. destruct (Halive Hc Hd) as (k & r & Hk & Hr). exists k, r.
  assert (Hw1 : (run (Session.send_data w.(next) data) w0).2 =
    upd_heap (<[w.(next) := with_kcp k σ]>) w0) by (rewrite Hst in Hr; by destruct r; rewrite Hr).
  rewrite Hw1. set (w1 := upd_heap _ w0).
  split; [done|]. split; [cbn; by rewrite Hsent, fmap_app|].
  pose proof (syn_ack_spec_run (encode_control SynAck (os_rand w.(nrand)))
    (to_le_bytes (os_rand w.(nrand))) peer inc config w1 (split_control _ _) ltac:(done)) as Hack.
  assert (Hm1 : w1.(sessions) !! canonicalize peer = Some w.(next))
    by (cbn; rewrite Hm; apply lookup_insert_eq).
  rewrite Hm1 in Hack. specialize (Hack (with_kcp k σ) ltac:(apply lookup_insert_eq)).
  rewrite payload_conv_control, decide_True in Hack by done.
  destruct Hack as (w2 & (o & _ & Hw2) & ->). cbn [snd]. rewrite Hw2.
  rewrite decide_True by done. cbn [sent push_event upd_heap add_sent tick_clock].
  cbn [with_kcp upd_inner inner set_kcp output kcp]. by rewrite Hp.
Qed.
End Initiate.

Section Pair.
Context {K : KcpLib} {L : @KcpLaws K} (osA osB : Os).
Context (a b : KcpPeer) (addrA addrB : SocketAddr).

(** Node A is seen at [addrA], node B at [addrB]; a control packet of one is
    handled by the other. *)
Definition at_a (t : PacketType) (conv : Z) (w : World) : World :=
  (run (handle_incoming (os := osA) (encode_control t conv) addrB
          a.(kp_incarnation) a.(kp_config)) w).2.

Definition at_b (t : PacketType) (conv : Z) (w : World) : World :=
  (run (handle_incoming (os := osB) (encode_control t conv) addrA
          b.(kp_incarnation) b.(kp_config)) w).2.

Definition send_a (data : bytes) (w : World) : World :=
  (run (KcpPeer.send (os := osA) a addrB data) w).2.

(** The ordinary handshake: when A sends to B and neither has a session
    for the other, delivering A's SYN to B and B's SYN_ACK to A leaves both
    with an established session for each other under one conversation id,
    the one A drew, which is a non-zero 32-bit number; each has fired
    exactly one [Connected], for the other's address. *)
Theorem handshake_connects data wA wB meB :
  OsLaws osA → os_local_addr (Os := osB) = Ok meB →
  wA.(sessions) !! canonicalize addrB = None →
  wB.(sessions) !! canonicalize addrA = None →
  ∃ conv, 1 ≤ conv ≤ u32_MAX ∧
    let wA1 := send_a data wA in
    last_sent wA1 addrB (encode_control Syn conv) ∧
    let wB1 := at_b Syn conv wB in
    last_sent wB1 addrA (encode_control SynAck conv) ∧
    let wA2 := at_a SynAck conv wA1 in
    connected wA2 addrB conv ∧ connected wB1 addrA conv ∧
    wA2.(events) = wA.(events) ++ [Connected addrB] ∧
    wB1.(events) = wB.(events) ++ [Connected addrA].
Proof.
  intros OL HmeB HsA HsB.
  pose proof (os_rand_range (OsLaws := OL) wA.(nrand)) as Hconv.
  assert (Hu : u32_ok (@os_rand osA wA.(nrand))) by width_lia.
  exists (@os_rand osA wA.(nrand)). split; [done|].
  destruct (send_connects (os := osA) a addrB data wA HsA) as (HcA & HeA & HlA).
  destruct (syn_when_absent (os := osB) addrA meB _ b.(kp_incarnation) b.(kp_config) wB
    HmeB Hu HsB) as (HcB & HeB & HlB).
  destruct (syn_ack_while_connecting (os := osA) addrB _ a.(kp_incarnation) a.(kp_config)
    _ Hu HcA) as (HcA2 & HeA2).
  cbn zeta. rewrite HeA in HeA2. by split_and!.
Qed.

(** The exchange of a simultaneous handshake: both nodes are connecting, A
    with [cA] and B with [cB], and each receives the other's SYN. *)
Lemma crossing_syns cA cB meA meB wA wB :
  os_local_addr (Os := osA) = Ok meA → os_local_addr (Os := osB) = Ok meB →
  u32_ok cA → u32_ok cB → cA ≠ cB →
  connecting wA addrB cA → connecting wB addrA cB →
  let keptA := if addr_gt addrB meA then cB else cA in
  let keptB := if addr_gt addrA meB then cA else cB in
  connected (at_a Syn cB wA) addrB keptA ∧ connected (at_b Syn cA wB) addrA keptB ∧
  (at_a Syn cB wA).(events) = wA.(events) ++ [Connected addrB] ∧
  (at_b Syn cA wB).(events) = wB.(events) ++ [Connected addrA] ∧
  last_sent (at_a Syn cB wA) addrB (encode_control SynAck keptA) ∧
  last_sent (at_b Syn cA wB) addrA (encode_control SynAck keptB).
Proof.
  intros HmeA HmeB HuA HuB Hne HA HB. cbn zeta.
  destruct (syn_while_connecting (os := osA) addrB meA cA cB a.(kp_incarnation) a.(kp_config)
    wA HmeA HuB Hne HA) as (? & ? & ?).
  destruct (syn_while_connecting (os := osB) addrA meB cB cA b.(kp_incarnation) b.(kp_config)
    wB HmeB HuA (not_eq_sym Hne) HB) as (? & ? & ?).
  by split_and!.
Qed.

(** C22. The simultaneous handshake: when each node is bound to the very
    address the other sees it at, crossing SYNs leave both established with
    the conversation id of the node with the greater address; the SYN_ACKs
    they also sent change nothing any more, in whatever state of the other
    they arrive, and each node has fired [Connected] once. *)
Theorem simultaneous_handshake_agrees cA cB wA wB :
  os_local_addr (Os := osA) = Ok addrA → os_local_addr (Os := osB) = Ok addrB →
  addrA ≠ addrB → u32_ok cA → u32_ok cB → cA ≠ cB →
  connecting wA addrB cA → connecting wB addrA cB →
  let conv := if addr_gt addrA addrB then cA else cB in
  let wA1 := at_a Syn cB wA in
  let wB1 := at_b Syn cA wB in
  connected wA1 addrB conv ∧ connected wB1 addrA conv ∧
  wA1.(events) = wA.(events) ++ [Connected addrB] ∧
  wB1.(events) = wB.(events) ++ [Connected addrA] ∧
  (∀ c, at_a SynAck c wA1 = wA1 ∧ at_b SynAck c wB1 = wB1).
Proof.
  intros HmeA HmeB Hab HuA HuB Hne HA HB. cbn zeta.
  destruct (crossing_syns cA cB addrA addrB wA wB HmeA HmeB HuA HuB Hne HA HB)
    as (H1 & H2 & H3 & H4 & _).
  pose proof (addr_gt_flip _ _ Hab) as Hgt.
  rewrite Hgt in H1. assert (HcA : connected (at_a Syn cB wA) addrB
    (if addr_gt addrA addrB then cA else cB)) by (by destruct (addr_gt addrA addrB)).
  split_and!; [done..|]. intros c. unfold at_a at 1, at_b at 1.
  by rewrite (syn_ack_when_connected _ _ _ _ _ _ HcA), (syn_ack_when_connected _ _ _ _ _ _ H2).
Qed.

(** C34. When both local addresses are below the addresses the nodes see each
    other at (two sockets bound to the wildcard address), both lose the
    tie-break and each adopts the other's conversation id: both report
    [Connected], the conversation ids are swapped, and the SYN_ACKs do not
    repair it. *)
Theorem wildcard_bind_swaps_ids cA cB meA meB wA wB :
  os_local_addr (Os := osA) = Ok meA → os_local_addr (Os := osB) = Ok meB →
  addr_gt addrB meA = true → addr_gt addrA meB = true →
  u32_ok cA → u32_ok cB → cA ≠ cB →
  connecting wA addrB cA → connecting wB addrA cB →
  let wA1 := at_a Syn cB wA in
  let wB1 := at_b Syn cA wB in
  let wA2 := at_a SynAck cA wA1 in
  let wB2 := at_b SynAck cB wB1 in
  last_sent wA1 addrB (encode_control SynAck cB) ∧
  last_sent wB1 addrA (encode_control SynAck cA) ∧
  connected wA2 addrB cB ∧ connected wB2 addrA cA ∧
  wA2.(events) = wA.(events) ++ [Connected addrB] ∧
  wB2.(events) = wB.(events) ++ [Connected addrA].
Proof.
  intros HmeA HmeB HgA HgB HuA HuB Hne HA HB. cbn zeta.
  destruct (crossing_syns cA cB meA meB wA wB HmeA HmeB HuA HuB Hne HA HB)
    as (H1 & H2 & H3 & H4 & H5 & H6).
  rewrite HgA in *. rewrite HgB in *. unfold at_a at 2 4, at_b at 2 4.
  rewrite (syn_ack_when_connected _ _ _ _ _ _ H1), (syn_ack_when_connected _ _ _ _ _ _ H2).
  by split_and!.
Qed.

(** C35. A duplicate of the loser's SYN undoes a simultaneous handshake: the
    winner takes it for a restart, closes the session both had agreed on,
    fires [PeerRestarted] and goes on with the loser's original id, which the
    loser has given up. *)
Theorem duplicate_syn_breaks_agreement cA cB wA wB :
  os_local_addr (Os := osA) = Ok addrA → os_local_addr (Os := osB) = Ok addrB →
  addrA ≠ addrB → addr_gt addrA addrB = true → u32_ok cA → u32_ok cB → cA ≠ cB →
  connecting wA addrB cA → connecting wB addrA cB →
  let wA1 := at_a Syn cB wA in
  let wB1 := at_b Syn cA wB in
  let wA2 := at_a Syn cB wA1 in
  connected wA1 addrB cA ∧ connected wB1 addrA cA ∧
  connected wA2 addrB cB ∧
  wA2.(events) =
    wA.(events) ++ [Connected addrB; PeerRestarted addrB; Connected addrB].
Proof.
  intros HmeA HmeB Hab Hgt HuA HuB Hne HA HB. cbn zeta.
  destruct (crossing_syns cA cB addrA addrB wA wB HmeA HmeB HuA HuB Hne HA HB)
    as (H1 & H2 & H3 & H4 & _).
  pose proof (addr_gt_flip _ _ Hab) as Hgt'. rewrite Hgt in Hgt'. cbn in Hgt'.
  rewrite Hgt' in H1. rewrite Hgt in H2.
  destruct (syn_when_connected (os := osA) addrB addrA cA cB a.(kp_incarnation) a.(kp_config)
    (at_a Syn cB wA) HmeA HuB Hne H1) as (H5 & H6).
  split_and!; [done..|]. unfold at_a at 1. rewrite H6, H3. by rewrite <- app_assoc.
Qed.

(** Two nodes that drew the same conversation id never connect: each
    ignores the other's SYN without an answer and stays in its handshake. *)
Theorem same_id_never_connects c wA wB meA meB :
  os_local_addr (Os := osA) = Ok meA → os_local_addr (Os := osB) = Ok meB →
  u32_ok c → connecting wA addrB c → connecting wB addrA c →
  at_a Syn c wA = wA ∧ at_b Syn c wB = wB.
Proof.
  intros HmeA HmeB Hu (s & σ & Hs & Hσ & _ & Hst & Hc) (s' & σ' & Hs' & Hσ' & _ & Hst' & Hc').
  unfold at_a, at_b. split.
  - rewrite (syn_duplicate (os := osA) (encode_control Syn c) (to_le_bytes c) addrB meA)
      with (s := s) (σ := σ); [by rewrite Hst|apply split_control|cbn; lia|done..|].
    by rewrite payload_conv_control.
  - rewrite (syn_duplicate (os := osB) (encode_control Syn c) (to_le_bytes c) addrA meB)
      with (s := s') (σ := σ'); [by rewrite Hst'|apply split_control|cbn; lia|done..|].
    by rewrite payload_conv_control.
Qed.
End Pair.

(** ** The theorems on a concrete pair of nodes *)

Definition session_at {K : KcpLib} (w : World) (peer : SocketAddr) :
    option (bool * SessionState * Z) :=
  s ← w.(sessions) !! canonicalize peer;
  σ ← w.(heap) !! s;
  Some (σ.(closed), σ.(inner).(state), σ.(inner).(conv_id)).

Lemma session_at_has {K : KcpLib} (w : World) peer st conv :
  session_at w peer = Some (false, st, conv) → has_session w peer st conv.
Proof.
  unfold session_at. intros H.
  destruct (sessions w !! canonicalize peer) as [s|] eqn:Hs; cbn in H; [|done].
  destruct (heap w !! s) as [σ|] eqn:Hσ; cbn in H; [|done].
  injection H as ? ? ?. by exists s, σ.
Defined.

(** A node with nothing in it whose next random number is the [n]-th. *)
Definition fresh_world {K : KcpLib} (n : nat) : World :=
  MkWorld ∅ 0 ∅ [] [] false false [] 0 n.

Definition node_a : KcpPeer := MkKcpPeer 11 default addr_a.
Definition node_b : KcpPeer := MkKcpPeer 22 default addr_b.

Abbreviation toy_send me self n peer data :=
  (run (@KcpPeer.send toy_lib (toy_os me) self peer data) (@fresh_world toy_lib n)).2.

Lemma handshake_connects_witness :
  ∃ conv, 1 ≤ conv ≤ u32_MAX ∧
    connected (at_a (K := toy_lib) (toy_os addr_a) node_a addr_b SynAck conv
                 (send_a (K := toy_lib) (toy_os addr_a) node_a addr_b [104; 105] (fresh_world 4)))
      addr_b conv.
Proof.
  destruct (handshake_connects (L := toy_laws) (toy_os addr_a) (toy_os addr_b) node_a node_b
    addr_a addr_b [104; 105] (fresh_world 4) (fresh_world 9) addr_b
    (toy_os_laws addr_a) eq_refl eq_refl eq_refl) as (conv & Hc & _ & _ & H & _).
  exists conv. split; [exact Hc|exact H].
Defined.

(** The message [104; 105] goes out in one frame behind the conversation id. *)
Lemma queued_data_flushed_witness :
  let w1 := toy_send addr_a node_a 4 addr_b [104; 105] in
  let w2 := (run (handle_incoming (os := toy_os addr_a) (encode_control SynAck 5) addr_b 11 default)
               w1).2 in
  wire <$> w2.(sent) =
    [(addr_b, encode_control Syn 5); (addr_b, encode_kcp_data (to_le_bytes 5 ++ [104; 105]))].
Proof.
  destruct (queued_data_flushed (L := toy_laws) (os := toy_os addr_a) node_a addr_b [104; 105]
    11 default (fresh_world 4) (toy_os_laws addr_a) eq_refl eq_refl) as (k & r & Hk & _ & H).
  injection Hk as <- _. cbv zeta.
  refine (eq_trans (f_equal (fmap wire) H) _). reflexivity.
Defined.

Lemma simultaneous_handshake_agrees_witness :
  let wA := toy_send addr_a node_a 4 addr_b [1] in
  let wB := toy_send addr_b node_b 9 addr_a [2] in
  connected (at_a (toy_os addr_a) node_a addr_b Syn 10 wA) addr_b 10 ∧
  connected (at_b (toy_os addr_b) node_b addr_a Syn 5 wB) addr_a 10.
Proof.
  destruct (simultaneous_handshake_agrees (K := toy_lib) (toy_os addr_a) (toy_os addr_b)
    node_a node_b addr_a addr_b 5 10
    (toy_send addr_a node_a 4 addr_b [1]) (toy_send addr_b node_b 9 addr_a [2]))
    as (H1 & H2 & _).
  - reflexivity.
  - reflexivity.
  - discriminate.
  - unfold u32_ok; lia.
  - unfold u32_ok; lia.
  - lia.
  - apply session_at_has. reflexivity.
  - apply session_at_has. reflexivity.
  - split; [exact H1|exact H2].
Defined.

(** Both sockets bound to 0.0.0.0. *)
Lemma wildcard_bind_swaps_ids_witness :
  let wA := toy_send addr_a node_a 4 addr_b [1] in
  let wB := toy_send addr_b node_b 9 addr_a [2] in
  connected (at_a (toy_os (V4 0 9001)) node_a addr_b SynAck 5
              (at_a (toy_os (V4 0 9001)) node_a addr_b Syn 10 wA)) addr_b 10 ∧
  connected (at_b (toy_os (V4 0 9002)) node_b addr_a SynAck 10
              (at_b (toy_os (V4 0 9002)) node_b addr_a Syn 5 wB)) addr_a 5.
Proof.
  destruct (wildcard_bind_swaps_ids (K := toy_lib) (toy_os (V4 0 9001)) (toy_os (V4 0 9002))
    node_a node_b addr_a addr_b 5 10 (V4 0 9001) (V4 0 9002)
    (toy_send addr_a node_a 4 addr_b [1]) (toy_send addr_b node_b 9 addr_a [2]))
    as (_ & _ & H1 & H2 & _).
  - reflexivity.
  - reflexivity.
  - reflexivity.
  - reflexivity.
  - unfold u32_ok; lia.
  - unfold u32_ok; lia.
  - lia.
  - apply session_at_has. reflexivity.
  - apply session_at_has. reflexivity.
  - split; [exact H1|exact H2].
Defined.

Lemma duplicate_syn_breaks_agreement_witness :
  let wA := toy_send addr_b node_b 4 addr_a [1] in
  let wB := toy_send addr_a node_a 9 addr_b [2] in
  connected (at_a (toy_os addr_b) node_b addr_a Syn 10
              (at_a (toy_os addr_b) node_b addr_a Syn 10 wA)) addr_a 10 ∧
  connected (at_b (toy_os addr_a) node_a addr_b Syn 5 wB) addr_b 5.
Proof.
  destruct (duplicate_syn_breaks_agreement (K := toy_lib) (toy_os addr_b) (toy_os addr_a)
    node_b node_a addr_b addr_a 5 10
    (toy_send addr_b node_b 4 addr_a [1]) (toy_send addr_a node_a 9 addr_b [2]))
    as (_ & H1 & H2 & _).
  - reflexivity.
  - reflexivity.
  - discriminate.
  - reflexivity.
  - unfold u32_ok; lia.
  - unfold u32_ok; lia.
  - lia.
  - apply session_at_has. reflexivity.
  - apply session_at_has. reflexivity.
  - split; [exact H2|exact H1].
Defined.

Lemma same_id_never_connects_witness :
  let wA := toy_send addr_a node_a 4 addr_b [1] in
  let wB := toy_send addr_b node_b 4 addr_a [2] in
  at_a (toy_os addr_a) node_a addr_b Syn 5 wA = wA.
Proof.
  refine (proj1 (same_id_never_connects (K := toy_lib) (toy_os addr_a) (toy_os addr_b)
    node_a node_b addr_a addr_b 5
    (toy_send addr_a node_a 4 addr_b [1]) (toy_send addr_b node_b 4 addr_a [2])
    addr_a addr_b _ _ _ _ _)).
  - reflexivity.
  - reflexivity.
  - unfold u32_ok; lia.
  - apply session_at_has. reflexivity.
  - apply session_at_has. reflexivity.
Defined.
