(* ===== verification/Endpoint.v ===== *)
(** * One end of a connection

    What the operations of a node make of a session with a peer, step by step,
    in terms of the KCP instance in it: sending, receiving frames and handshake
    packets. KCP is opaque here; [Delivery] and [Stream] say what it does. *)

From S2P Require Import Prelude Prog Packet Kcp Addr Errors Config World Session Transport.
From S2P Require Import Blind Incoming Effects SessionSpec IncomingSpec TransportSpec.
Open Scope prog_scope.

(** A KCP computation whose frames are all written: its result, the frames. *)
Fixpoint kio_written {A} (p : kio A) : A * list bytes :=
  match p with
  | KRet a => (a, [])
  | KWrite frame k =>
      let x := kio_written (k (Ok (Z.of_nat (length frame)))) in (x.1, frame :: x.2)
  end.

(** The socket takes every datagram, or drops it because it would block. *)
Definition socket_ok (os : Os) : Prop :=
  ∀ n d to, os_send (Os := os) n d to = Ok (Z.of_nat (length d)) ∨
    ∃ e, os_send (Os := os) n d to = Err e ∧ e.(kind) = WouldBlock.

(** KCP is told that its frames are written. *)
Definition writes_frames (os : Os) : Prop :=
  ∀ n frame to, write_answer frame (os_send (Os := os) n (encode_kcp_data frame) to) =
    Ok (Z.of_nat (length frame)).

Lemma socket_writes os : socket_ok os → writes_frames os.
Proof.
  intros Hok n frame to. unfold write_answer.
  destruct (Hok n (encode_kcp_data frame) to) as [->|(e & -> & He)].
  - unfold saturating_sub, encode_kcp_data. rewrite length_app. cbn [length]. f_equal. lia.
  - by rewrite decide_True.
Qed.

Lemma sends_write (os : Os) :
  (∀ n b to, os_send (Os := os) n b to = Ok (Z.of_nat (length b))) → writes_frames os.
Proof. intros Hok. apply socket_writes. by left. Qed.

(** What KCP writes in an update and a flush. *)
Definition flushed {K : KcpLib} (t : Z) (k : kcp_t) : kcp_t * list bytes :=
  let u := kio_written (kcp_update t k) in
  let f := kio_written (kcp_flush u.1.1) in
  (f.1.1, u.2 ++ f.2).

Section Node.
Context {K : KcpLib} {L : @KcpLaws K} {os : Os} (self : KcpPeer).

(** The datagrams [l] received from [from], one after the other. *)
Definition receive (from : SocketAddr) (l : list bytes) (w : World) : World :=
  (run (for_each l (λ data,
     handle_incoming data from self.(kp_incarnation) self.(kp_config) ;; Ret tt)) w).2.

(** What was sent between [w] and [w']. *)
Definition sent_since (w w' : World) : list bytes :=
  dg_bytes <$> drop (length w.(sent)) w'.(sent).

(** The node has an open session with [peer], whose KCP is [k]. *)
Definition endpoint (w : World) (peer : SocketAddr) (st : SessionState) (conv : Z) (k : kcp_t) : Prop :=
  ∃ s σ, w.(sessions) !! canonicalize peer = Some s ∧ w.(heap) !! s = Some σ ∧
    σ.(closed) = false ∧ σ.(peer_addr) = peer ∧ σ.(inner).(output).(out_peer) = peer ∧
    σ.(inner).(state) = st ∧ σ.(inner).(conv_id) = conv ∧ σ.(inner).(kcp) = k.

(** The queue and the token are as before. *)
Definition same_queue (w w' : World) : Prop :=
  w'.(pending) = w.(pending) ∧ w'.(cancelled) = w.(cancelled).

Lemma sent_since_app w w' ds : w'.(sent) = w.(sent) ++ ds → sent_since w w' = dg_bytes <$> ds.
Proof. intros H. unfold sent_since. by rewrite H, drop_app_length. Qed.

Lemma sent_since_same w w' : w'.(sent) = w.(sent) → sent_since w w' = [].
Proof. intros H. by rewrite (sent_since_app w w' []) by (by rewrite app_nil_r). Qed.

Lemma receive_one from data w :
  receive from [data] w =
    (run (handle_incoming data from self.(kp_incarnation) self.(kp_config)) w).2.
Proof. unfold receive. cbn [for_each]. by rewrite !run_bind. Qed.

Lemma receive_cons from data l w :
  receive from (data :: l) w = receive from l (receive from [data] w).
Proof. unfold receive. by rewrite !run_for_each_cons. Qed.

Context (writes_ok : writes_frames os).

(** The trace of a KCP computation is what it writes. *)
Lemma kio_trace_written {A} peer n (p : kio A) :
  (kio_trace peer n p).1 = (kio_written p).1 ∧
  dg_bytes <$> (kio_trace peer n p).2 = encode_kcp_data <$> (kio_written p).2.
Proof.
  revert n. induction p as [a|frame k IH]; intros n; [done|]. cbn [kio_trace kio_written].
  rewrite writes_ok. destruct (IH (Ok (Z.of_nat (length frame))) (S n)) as [H1 H2].
  cbn [fst snd]. rewrite !fmap_cons, H2. done.
Qed.

(** A SYN from nobody is accepted and acknowledged. *)
Lemma syn_accepted from conv me w :
  os_local_addr = Ok me → u32_ok conv → w.(sessions) !! canonicalize from = None →
  let w' := receive from [encode_control Syn conv] w in
  sent_since w w' = [encode_control SynAck conv] ∧ same_queue w w' ∧
  endpoint w' from Established conv (apply_to self.(kp_config) (kcp_new conv)).
Proof.
  intros Hme Hu Hs. cbv zeta. rewrite receive_one.
  rewrite (syn_creates_session (encode_control Syn conv) (to_le_bytes conv) from me);
    [|apply split_control|cbn; lia|done..].
  rewrite payload_conv_control by done. cbn [snd].
  split_and!; [by rewrite (sent_since_app w _ [control SynAck conv from w])|done|].
  exists w.(next). eexists. split; [apply lookup_insert_eq|]. split; [apply lookup_insert_eq|].
  by split_and!.
Qed.

(** The node has no session with the peer, or one from an earlier life of it,
    under another id. *)
Definition unacquainted (w : World) (peer : SocketAddr) (conv : Z) : Prop :=
  w.(sessions) !! canonicalize peer = None ∨
  ∃ c k, endpoint w peer Established c k ∧ c ≠ conv.

(** Either way a SYN opens a new session and is acknowledged. *)
Lemma syn_opens from conv me w :
  os_local_addr = Ok me → u32_ok conv → unacquainted w from conv →
  let w' := receive from [encode_control Syn conv] w in
  sent_since w w' = [encode_control SynAck conv] ∧ same_queue w w' ∧
  endpoint w' from Established conv (apply_to self.(kp_config) (kcp_new conv)).
Proof.
  intros Hme Hu [Hs|(c & k & (s & σ & Hs & Hσ & _ & _ & _ & Hst & Hcv & _) & Hne)];
    [by eapply syn_accepted|]. cbv zeta. rewrite receive_one.
  rewrite (syn_restarts_session (encode_control Syn conv) (to_le_bytes conv) from me _ _
    (split_control _ _) ltac:(cbn; lia) Hme s σ w Hs Hσ) by (rewrite ?payload_conv_control; congruence).
  rewrite payload_conv_control by done. cbn [snd].
  split_and!; [by rewrite (sent_since_app w _ [control SynAck conv from w])|done|].
  exists w.(next). eexists. split; [apply lookup_insert_eq|]. split; [apply lookup_insert_eq|].
  by split_and!.
Qed.

Lemma update_and_flush_written peer n t k :
  (update_and_flush peer n t k).1 = (flushed t k).1 ∧
  dg_bytes <$> (update_and_flush peer n t k).2 = encode_kcp_data <$> (flushed t k).2.
Proof.
  unfold update_and_flush, flushed. destruct (kio_trace_written peer n (kcp_update t k)) as [H1 H2].
  rewrite H1. match goal with |- context [kio_trace peer ?n' (kcp_flush ?k')] =>
    destruct (kio_trace_written peer n' (kcp_flush k')) as [H3 H4] end.
  cbn [fst snd]. by rewrite H3, !fmap_app, H2, H4.
Qed.

Lemma update_then_flush_written peer n t k :
  (kio_written (kcp_update t k)).1.2 = Ok tt →
  (update_then_flush peer n t k).1.1 = (flushed t k).1 ∧
  (update_then_flush peer n t k).1.2 = (kio_written (kcp_flush (kio_written (kcp_update t k)).1.1)).1.2 ∧
  dg_bytes <$> (update_then_flush peer n t k).2 = encode_kcp_data <$> (flushed t k).2.
Proof.
  intros Hok. unfold update_then_flush, flushed.
  destruct (kio_trace_written peer n (kcp_update t k)) as [H1 H2]. rewrite H1, Hok.
  match goal with |- context [kio_trace peer ?n' (kcp_flush ?k')] =>
    destruct (kio_trace_written peer n' (kcp_flush k')) as [H3 H4] end.
  cbn [fst snd]. by rewrite H3, !fmap_app, H2, H4.
Qed.

(** The acknowledgement sends what was waiting. *)
Lemma ack_flushes peer conv k w :
  u32_ok conv → endpoint w peer SynSent conv k →
  let w' := receive peer [encode_control SynAck conv] w in
  ∃ t, sent_since w w' = encode_kcp_data <$> (flushed t k).2 ∧ same_queue w w' ∧
    endpoint w' peer Established conv (flushed t k).1.
Proof.
  intros Hu (s & σ & Hs & Hσ & Hc & Hp & Hop & Hst & Hcv & Hk). cbv zeta. rewrite receive_one.
  pose proof (syn_ack_spec_run (encode_control SynAck conv) (to_le_bytes conv) peer
    self.(kp_incarnation) self.(kp_config) w (split_control _ _) ltac:(done)) as H.
  rewrite Hs in H. specialize (H σ Hσ). rewrite payload_conv_control, decide_True in H by done.
  destruct H as (w1 & (o & Ho & Hw1) & ->). cbn [snd]. rewrite decide_True in Hw1 by done.
  rewrite Hop, Hk in *. set (t := current_ms_of _) in Hw1.
  destruct (update_and_flush_written peer (length w.(sent)) t k) as [H1 H2].
  exists t. rewrite Hw1. split_and!; [rewrite <- H2; by apply sent_since_app|done|].
  exists s. eexists. split; [exact Hs|]. split; [apply lookup_insert_eq|]. by split_and!.
Qed.

(** A SYN for a node that is connecting: its queued data goes out under the
    id that is kept. *)
Lemma tie_break_flushes from me mine theirs k w :
  os_local_addr = Ok me → u32_ok theirs → mine ≠ theirs →
  endpoint w from SynSent mine k →
  let kept := if addr_gt from me then theirs else mine in
  let k0 := if addr_gt from me then kcp_set_conv theirs k else k in
  let w' := receive from [encode_control Syn theirs] w in
  ∃ t, sent_since w w' = (encode_kcp_data <$> (flushed t k0).2) ++ [encode_control SynAck kept] ∧
    same_queue w w' ∧ endpoint w' from Established kept (flushed t k0).1.
Proof.
  intros Hme Hu Hne (s & σ & Hs & Hσ & Hc & Hp & Hop & Hst & Hcv & Hk). cbv zeta.
  rewrite receive_one.
  destruct (syn_tie_break (os := os) (encode_control Syn theirs) (to_le_bytes theirs) from me
    self.(kp_incarnation) self.(kp_config) s σ w) as (w1 & (o & Ho & Hw1) & ->);
    [apply split_control|cbn; lia|done..|rewrite payload_conv_control by done; congruence|done|].
  rewrite payload_conv_control, Hcv in * by done. rewrite Hop, Hk in Hw1.
  set (kept := if addr_gt from me then theirs else mine) in *.
  set (k0 := if addr_gt from me then kcp_set_conv theirs k else k).
  assert ((if decide (kept = mine) then k else kcp_set_conv kept k) = k0) as Hk0.
  { unfold kept, k0. destruct (addr_gt from me); [by rewrite decide_False|by rewrite decide_True]. }
  rewrite Hk0 in Hw1. set (t := current_ms_of _) in Hw1. exists t.
  destruct (update_and_flush_written from (length w.(sent)) t k0) as [H1 H2].
  rewrite Hw1. cbn [snd]. split_and!; [|done|].
  - rewrite <- H2, (sent_since_app _ _ ((update_and_flush from (length w.(sent)) t k0).2 ++
      [control SynAck kept from w1])); [by rewrite fmap_app|].
    rewrite Hw1. cbn [sent push_sent push_event upd_heap add_sent tick_clock].
    by rewrite <- app_assoc.
  - exists s. eexists. split; [exact Hs|]. split; [apply lookup_insert_eq|].
    cbn [closed inner peer_addr output state conv_id kcp]. split_and!; first [done|congruence].
Qed.

(** A frame that KCP takes: the messages it completes are queued, in order. *)
Lemma frame_received P from st conv f k k1 n w :
  endpoint w from st conv k → kcp_input f k = KRet (k1, Ok n) → recv_stable P → P k1 →
  ∃ k', kcp_ready k' = [] ∧ P k' ∧
    let w' := receive from [encode_kcp_data f] w in
    endpoint w' from st conv k' ∧ w'.(sent) = w.(sent) ∧ w'.(cancelled) = w.(cancelled) ∧
    w'.(pending) = w.(pending) ++ (MkDataMessage from <$> kcp_ready k1).
Proof.
  intros (s & σ & Hs & Hσ & Hc & Hp & Hop & Hst & Hcv & Hk) Hin Hstable HP.
  destruct (kcp_data_run P (encode_kcp_data f) f from
    self.(kp_incarnation) self.(kp_config) s σ w eq_refl Hs Hσ Hstable) as (k' & o & Ho & H).
  cbv zeta in H. rewrite Hk, Hin in H. cbn [kio_trace fst snd] in H.
  destruct H as (Hr' & HP' & Hrun). exists k'. split_and!; [done|by apply HP'|].
  cbv zeta. rewrite receive_one, Hrun. cbn [snd]. rewrite Hp.
  destruct (kcp_ready k1) as [|m ms]; cbn [deliver]; cbn [sent cancelled pending set_notified
    set_pending upd_heap add_sent tick_clock]; rewrite ?app_nil_r; (split_and!; [|done..]);
    eexists s, _; (split; [exact Hs|]; split; [apply lookup_insert_eq|]);
    cbn [kcp_state upd_inner inner set_kcp set_last_rx closed peer_addr output state conv_id kcp];
    (split_and!; [done|done|congruence|done..]).
Qed.

(** [send] on a session: refused if the link is dead or KCP refuses, else
    queued, and put on the wire if the session is established. *)
Lemma send_step peer st conv k data w :
  endpoint w peer st conv k →
  let x := run (KcpPeer.send self peer data) w in
  same_queue w x.2 ∧
  ((kcp_is_dead_link k = true ∧ x = (Err DeadLink, w)) ∨
   (kcp_is_dead_link k = false ∧ ∃ k1 r, kcp_send data k = KRet (k1, r) ∧
    match r, st with
    | Err e, _ => x.1 = Err (Kcp e) ∧ sent_since w x.2 = [] ∧ endpoint x.2 peer st conv k1
    | Ok _, SynSent => x.1 = Ok tt ∧ sent_since w x.2 = [] ∧ endpoint x.2 peer st conv k1
    | Ok _, Established => ∃ t, (kio_written (kcp_update t k1)).1.2 = Ok tt →
        x.1 = map_err Kcp (kio_written (kcp_flush (kio_written (kcp_update t k1)).1.1)).1.2 ∧
        sent_since w x.2 = encode_kcp_data <$> (flushed t k1).2 ∧
        endpoint x.2 peer st conv (flushed t k1).1
    end)).
Proof.
  intros (s & σ & Hs & Hσ & Hc & Hp & Hop & Hst & Hcv & Hk). cbv zeta.
  split; [exact (blind_keeps _ w (blind_send self peer data))|].
  pose proof (send_auto_initiates_run self peer data w) as Hrun. rewrite Hs in Hrun.
  rewrite Hrun. clear Hrun. destruct (send_data_run s data σ w Hσ) as (_ & Hdead & Halive).
  rewrite Hk in Hdead, Halive. destruct (kcp_is_dead_link k); [left; split; [done|by apply Hdead]|].
  right. split; [done|]. destruct (Halive Hc eq_refl) as (k1 & r & Hkr & H). exists k1, r.
  split; [done|]. rewrite Hst in H.
  assert (Hq : ∀ w', w' = upd_heap (<[s := with_kcp k1 σ]>) w →
    sent_since w w' = [] ∧ endpoint w' peer st conv k1).
  { intros w' ->. split; [by apply sent_since_same|].
    exists s. eexists. split; [exact Hs|]. split; [apply lookup_insert_eq|]. by split_and!. }
  destruct r as [n|e]; [|by rewrite H; split; [|apply Hq]].
  destruct st; [by rewrite H; split; [|apply Hq]|].
  cbv zeta in H. destruct H as (o & Ho & ->). rewrite Hop. set (t := current_ms_of _). exists t.
  intros Hu. destruct (update_then_flush_written peer (length w.(sent)) t k1 Hu) as (H1 & H2 & H3).
  cbn [fst snd]. rewrite H2. split_and!; [done|rewrite <- H3; by apply sent_since_app|].
  exists s. eexists. split; [exact Hs|]. split; [apply lookup_insert_eq|].
  cbn. rewrite H1. split_and!; first [done|congruence].
Qed.

(** A SYN for an established session under its id is acknowledged again; a
    connecting session ignores it. *)
Lemma syn_again from me st conv k w :
  os_local_addr = Ok me → u32_ok conv → endpoint w from st conv k →
  let w' := receive from [encode_control Syn conv] w in
  same_queue w w' ∧ endpoint w' from st conv k ∧
  sent_since w w' = match st with Established => [encode_control SynAck conv] | SynSent => [] end.
Proof.
  intros Hme Hu (s & σ & Hs & Hσ & Hc & Hp & Hop & Hst & Hcv & Hk). cbv zeta. rewrite receive_one.
  rewrite (syn_duplicate (encode_control Syn conv) (to_le_bytes conv) from me _ _
    (split_control _ _) ltac:(cbn; lia) Hme s σ w Hs Hσ) by (by rewrite payload_conv_control).
  rewrite Hst, payload_conv_control by done. destruct st; cbn [snd].
  - split_and!; [done|by exists s, σ|].
    by apply sent_since_same.
  - split_and!; [done| |unfold sent_since; cbn; by rewrite drop_app_length].
    exists s. eexists. split; [exact Hs|]. split; [apply lookup_insert_eq|]. by split_and!.
Qed.

(** A SYN_ACK for an established session changes nothing. *)
Lemma ack_again from conv c k w :
  endpoint w from Established conv k → receive from [encode_control SynAck c] w = w.
Proof.
  intros (s & σ & Hs & Hσ & _ & _ & _ & Hst & _). rewrite receive_one.
  pose proof (syn_ack_spec_run (encode_control SynAck c) (to_le_bytes c) from
    self.(kp_incarnation) self.(kp_config) w (split_control _ _) ltac:(done)) as H.
  rewrite Hs in H. specialize (H σ Hσ). rewrite decide_False in H by (rewrite Hst; by intros []).
  by rewrite H.
Qed.
End Node.
