(* ===== verification/Stream.v ===== *)
(** * KCP over a network that loses, repeats and reorders

    [KcpStream] is what KCP promises for any network: the frames an instance
    has written may reach the other one never, or any number of times, in any
    order; the messages come out once and in the order they went in, and when
    the sender has nothing left to wait for, all of them have. An automatic
    repeat request protocol that does so shows that the promise can be kept. *)

From S2P Require Import Prelude Kcp Config Packet Endpoint.
From S2P Require Import Addr World Toy.

(** The relation between two instances with one conversation id.
    [stream a b (fs, ms) (gs, ns)]: [fs] are the frames [a] has written so far,
    all of which the network may still deliver, and [ms] are the messages [a]
    has accepted and [b] has not made ready; [gs] and [ns] likewise from [b] to
    [a]. Sending adds a message if it is accepted, and nothing otherwise; an
    update and a flush add frames; any frame written so far can be put in, and
    makes a first part of the missing messages ready; when nothing waits to be
    acknowledged, none is missing. The conversation id enters only into the
    frames: an instance that is given another one before it has written any is
    as if created with it. *)
Class KcpStream {K : KcpLib} {L : @KcpLaws K} : Type := {
  stream : kcp_t → kcp_t → list bytes * list bytes → list bytes * list bytes → Prop;
  stream_new cfg cfg' c :
    u32_ok c → stream (apply_to cfg (kcp_new c)) (apply_to cfg' (kcp_new c)) ([], []) ([], []);
  stream_new_ready cfg c : kcp_ready (apply_to cfg (kcp_new c)) = [];
  stream_sym a b x y : stream a b x y → stream b a y x;
  stream_send a b fs ms y data a1 r :
    stream a b (fs, ms) y → kcp_send data a = KRet (a1, r) →
    kcp_ready a1 = kcp_ready a ∧ stream a1 b (fs, if is_ok r then ms ++ [data] else ms) y;
  stream_update a b fs ms y t :
    stream a b (fs, ms) y →
    let u := kio_written (kcp_update t a) in
    u.1.2 = Ok tt ∧ kcp_ready u.1.1 = kcp_ready a ∧ stream u.1.1 b (fs ++ u.2, ms) y;
  stream_flush a b fs ms y t :
    stream a b (fs, ms) y →
    let u := kio_written (kcp_update t a) in
    let f := kio_written (kcp_flush u.1.1) in
    f.1.2 = Ok tt ∧ kcp_ready f.1.1 = kcp_ready a ∧ stream f.1.1 b (fs ++ u.2 ++ f.2, ms) y;
  stream_input a b f fs ms y :
    stream a b (fs, ms) y → f ∈ fs →
    ∃ b1 n ms1 ms2, kcp_input f b = KRet (b1, Ok n) ∧
      kcp_ready b1 = kcp_ready b ++ ms1 ∧ ms = ms1 ++ ms2 ∧ stream a b1 (fs, ms2) y;
  stream_recv a b x y buf b1 m n :
    stream a b x y → kcp_recv buf b = KRet (b1, m, Ok n) → stream a b1 x y;
  stream_acked a b fs ms y : stream a b (fs, ms) y → kcp_wait_snd a = 0 → ms = [];
  stream_set_conv cfg c c' data a1 n :
    kcp_send data (apply_to cfg (kcp_new c)) = KRet (a1, Ok n) →
    ∃ n', kcp_send data (apply_to cfg (kcp_new c')) = KRet (kcp_set_conv c' a1, Ok n');
}.

(** ** A protocol that keeps the promise

    Go-back-N: a flush sends an acknowledgement and all data that has not been
    acknowledged; the receiver takes the next message only. Sequence numbers
    are written in unary, so that they do not wrap around. *)
Record arq : Type := MkArq {
  aq_conv : Z;
  aq_base : nat;
  aq_queue : list bytes;
  aq_next : nat;
  aq_ready : list bytes;
  aq_wnd : Z * Z;
}.

(** [tag] 0: the message number [n]; 1: all messages below [n] have arrived. *)
Definition arq_frame (conv : Z) (n : nat) (tag : Z) (m : bytes) : bytes :=
  to_le_bytes conv ++ replicate n 2 ++ tag :: m.

Fixpoint unary (l : bytes) : nat * bytes :=
  match l with
  | x :: l' => if x =? 2 then let y := unary l' in (S y.1, y.2) else (O, l)
  | [] => (O, [])
  end.

Definition arq_set_queue (base : nat) (q : list bytes) (k : arq) : arq :=
  MkArq k.(aq_conv) base q k.(aq_next) k.(aq_ready) k.(aq_wnd).

Definition arq_set_ready (next : nat) (q : list bytes) (k : arq) : arq :=
  MkArq k.(aq_conv) k.(aq_base) k.(aq_queue) next q k.(aq_wnd).

Definition arq_acked (n : nat) (k : arq) : arq :=
  if decide (k.(aq_base) ≤ n ≤ k.(aq_base) + length k.(aq_queue))%nat
  then arq_set_queue n (drop (n - k.(aq_base)) k.(aq_queue)) k else k.

Definition arq_take (n : nat) (m : bytes) (k : arq) : arq :=
  if decide (n = k.(aq_next)) then arq_set_ready (S n) (k.(aq_ready) ++ [m]) k else k.

(** Error codes as for the other KCP of the witnesses: 1 output, 2 not a frame
    of this conversation, 3 nothing to receive, 4 bad MTU. *)
Definition arq_input (data : bytes) (k : arq) : kio (arq * Result Z Z) :=
  if decide (4 ≤ length data)%nat then
    if from_le_bytes (take 4 data) =? k.(aq_conv) then
      match unary (drop 4 data) with
      | (n, tag :: m) =>
          if tag =? 0 then KRet (arq_take n m k, Ok (Z.of_nat (length data)))
          else if tag =? 1 then KRet (arq_acked n k, Ok (Z.of_nat (length data)))
          else KRet (k, Err 2)
      | _ => KRet (k, Err 2)
      end
    else KRet (k, Err 2)
  else KRet (k, Err 2).

(** What a flush writes: the acknowledgement, then the data. *)
Definition arq_output (k : arq) : list bytes :=
  arq_frame k.(aq_conv) k.(aq_next) 1 [] ::
  imap (λ i m, arq_frame k.(aq_conv) (k.(aq_base) + i) 0 m) k.(aq_queue).

Fixpoint arq_write (k : arq) (l : list bytes) : kio (arq * Result unit Z) :=
  match l with
  | [] => KRet (k, Ok tt)
  | f :: l' => KWrite f (λ r, match r with Ok _ => arq_write k l' | Err _ => KRet (k, Err 1) end)
  end.

Definition arq_recv (buf : bytes) (k : arq) : kio (arq * bytes * Result Z Z) :=
  match k.(aq_ready) with
  | [] => KRet (k, buf, Err 3)
  | m :: q => KRet (arq_set_ready k.(aq_next) q k, m, Ok (Z.of_nat (length m)))
  end.

Definition arq_lib : KcpLib := {|
  kcp_t := arq;
  kcp_error := Z;
  kcp_new c := MkArq c 0 [] 0 [] (32, 128);
  kcp_set_nodelay _ _ _ _ k := k;
  kcp_set_wndsize s r k :=
    MkArq k.(aq_conv) k.(aq_base) k.(aq_queue) k.(aq_next) k.(aq_ready) (s, r);
  kcp_set_rx_minrto _ k := k;
  kcp_set_fast_resend _ k := k;
  kcp_set_maximum_resend_times _ k := k;
  kcp_set_interval _ k := k;
  kcp_set_mtu m k := (k, if m <? 50 then Err 4 else Ok tt);
  kcp_set_conv c k := MkArq c k.(aq_base) k.(aq_queue) k.(aq_next) k.(aq_ready) k.(aq_wnd);
  kcp_send data k :=
    KRet (arq_set_queue k.(aq_base) (k.(aq_queue) ++ [data]) k, Ok (Z.of_nat (length data)));
  kcp_update _ k := KRet (k, Ok tt);
  kcp_flush k := arq_write k (arq_output k);
  kcp_input := arq_input;
  kcp_peeksize k :=
    match k.(aq_ready) with [] => Err 3 | m :: _ => Ok (Z.of_nat (length m)) end;
  kcp_recv := arq_recv;
  kcp_is_dead_link _ := false;
  kcp_wait_snd k := Z.of_nat (length k.(aq_queue));
  kcp_snd_wnd k := k.(aq_wnd).1;
  kcp_rcv_wnd k := k.(aq_wnd).2;
  kcp_rmt_wnd k := 128;
  kcp_nready k := length k.(aq_ready);
|}.

Definition arq_laws : @KcpLaws arq_lib.
Proof.
  refine (@Build_KcpLaws arq_lib aq_ready _ _ _ _ _ _ _); cbn.
  - done.
  - intros k ->. by eexists.
  - intros k m q ->. done.
  - intros k m q buf H _. unfold arq_recv. rewrite H. by eexists.
  - intros data k. by eexists _, _.
  - done.
  - done.
Defined.

Lemma arq_apply cfg c :
  apply_to (K := arq_lib) cfg (kcp_new (KcpLib := arq_lib) c) =
    MkArq c 0 [] 0 [] (cfg.(snd_wnd), cfg.(rcv_wnd)).
Proof. unfold apply_to. by destruct (kcp_nodelay cfg) as [[[? ?] ?] ?]. Qed.

Lemma arq_written k l : kio_written (arq_write k l) = ((k, Ok tt), l).
Proof. induction l as [|f l IH]; [done|]. cbn [arq_write kio_written]. by rewrite IH. Qed.

Lemma unary_frame n tag m : tag ≠ 2 → unary (replicate n 2 ++ tag :: m) = (n, tag :: m).
Proof.
  intros Ht. induction n as [|n IH]; cbn [replicate app unary].
  - by rewrite (proj2 (Z.eqb_neq _ _) Ht).
  - by rewrite IH.
Qed.

Lemma arq_input_frame k n tag m :
  u32_ok k.(aq_conv) → tag ≠ 2 →
  arq_input (arq_frame k.(aq_conv) n tag m) k =
    KRet (if tag =? 0 then (arq_take n m k, Ok (Z.of_nat (length (arq_frame k.(aq_conv) n tag m))))
          else if tag =? 1 then (arq_acked n k, Ok (Z.of_nat (length (arq_frame k.(aq_conv) n tag m))))
          else (k, Err 2)).
Proof.
  intros Hu Ht. unfold arq_input. set (data := arq_frame _ _ _ _).
  rewrite decide_True by (unfold data, arq_frame; rewrite length_app; cbn; lia).
  pose proof (payload_conv_le k.(aq_conv) (replicate n 2 ++ tag :: m) Hu) as Hp.
  unfold payload_conv in Hp. unfold data at 1, arq_frame. rewrite Hp, Z.eqb_refl.
  change (drop 4 data) with (replicate n 2 ++ tag :: m). rewrite unary_frame by done.
  by destruct (tag =? 0), (tag =? 1).
Qed.

(** One direction: [l] is everything [a] has been given to send. *)
Definition arq_half (a b : arq) (fs ms : list bytes) : Prop :=
  ∃ l, a.(aq_queue) = drop a.(aq_base) l ∧ (a.(aq_base) ≤ b.(aq_next) ≤ length l)%nat ∧
    ms = drop b.(aq_next) l ∧
    Forall (λ f, (∃ i m, l !! i = Some m ∧ f = arq_frame a.(aq_conv) i 0 m) ∨
                 (∃ n, (n ≤ a.(aq_next))%nat ∧ f = arq_frame a.(aq_conv) n 1 [])) fs.

Definition arq_stream (a b : arq) (x y : list bytes * list bytes) : Prop :=
  a.(aq_conv) = b.(aq_conv) ∧ u32_ok a.(aq_conv) ∧ arq_half a b x.1 x.2 ∧ arq_half b a y.1 y.2.

(** What a flush writes may be added to the frames. *)
Lemma arq_half_frames a b fs fs' ms :
  arq_half a b fs ms →
  Forall (λ f, f ∈ arq_output a) fs' → arq_half a b (fs ++ fs') ms.
Proof.
  intros (l & Hq & Hn & Hms & Hfs) Hout. exists l. split_and!; [done|lia..|done|].
  apply Forall_app. split; [done|]. eapply Forall_impl; [exact Hout|]. intros f Hf.
  unfold arq_output in Hf. apply elem_of_cons in Hf as [->|Hf]; [right; by eexists|].
  apply elem_of_lookup_imap in Hf as (i & m & -> & Hm). left. eexists _, m. split; [|done].
  by rewrite Hq, lookup_drop in Hm.
Qed.

Lemma arq_half_take a b i m l :
  l !! i = Some m → a.(aq_queue) = drop a.(aq_base) l →
  (a.(aq_base) ≤ b.(aq_next) ≤ length l)%nat →
  ∃ ms1, (arq_take i m b).(aq_ready) = b.(aq_ready) ++ ms1 ∧
    drop b.(aq_next) l = ms1 ++ drop (arq_take i m b).(aq_next) l ∧
    (b.(aq_next) ≤ (arq_take i m b).(aq_next) ≤ length l)%nat.
Proof.
  intros Hi Hq Hn. unfold arq_take. case_decide as E; [subst i|].
  - exists [m]. apply lookup_lt_Some in Hi as Hlt. cbn. split_and!; [done| |lia..].
    by apply drop_S.
  - exists []. cbn. rewrite app_nil_r. split_and!; [done..|lia].
Qed.

Lemma arq_half_acked a b n fs ms :
  arq_half b a fs ms → (n ≤ a.(aq_next))%nat → arq_half (arq_acked n b) a fs ms.
Proof.
  intros (l & Hq & Hn & Hms & Hfs) Hle. unfold arq_acked. case_decide as E; [|by exists l].
  exists l. cbn. split_and!; [|lia..|done|done].
  rewrite Hq, drop_drop. f_equal. lia.
Qed.

Definition arq_kcp_stream : @KcpStream arq_lib arq_laws.
Proof.
  refine (@Build_KcpStream arq_lib arq_laws arq_stream _ _ _ _ _ _ _ _ _ _); unfold arq_stream.
  - intros cfg cfg' c Hc. rewrite !arq_apply.
    split_and!; [done|done|exists []; cbn; split_and!; (done || lia)..].
  - intros cfg c. by rewrite arq_apply.
  - intros a b x y (Hc & Hu & ? & ?). rewrite <- Hc. by split_and!.
  - intros a b fs ms y data a1 r (Hc & Hu & (l & Hq & Hn & Hms & Hfs) & Hy). intros [= <- <-].
    cbn [is_ok fst snd] in *. split; [done|]. split_and!; [done|done| |exact Hy].
    exists (l ++ [data]). rewrite length_app. cbn. split_and!; [|lia..| |].
    + by rewrite Hq, drop_app_le by lia.
    + by rewrite Hms, drop_app_le by lia.
    + eapply Forall_impl; [exact Hfs|]. intros f [(i & m & Hi & ->)|Hf]; [left|by right].
      exists i, m. split; [by apply lookup_app_l_Some|done].
  - intros a b fs ms y t H. cbn [kcp_update arq_lib kio_written fst snd]. by rewrite app_nil_r.
  - intros a b fs ms y t (Hc & Hu & Hx & Hy). cbn [kcp_update arq_lib kio_written fst snd app].
    change (kcp_flush a) with (arq_write a (arq_output a)). rewrite arq_written. cbn [fst snd].
    split_and!; [done..| |exact Hy]. apply arq_half_frames; [exact Hx|]. by apply Forall_forall.
  - intros a b f fs ms y (Hc & Hu & (l & Hq & Hn & Hms & Hfs) & Hy) Hf. cbn [fst snd] in *.
    pose proof (proj1 (Forall_forall _ _) Hfs f Hf) as [(i & m & Hi & ->)|(n & Hle & ->)];
      cbn [kcp_input arq_lib]; rewrite Hc in *; rewrite arq_input_frame by done; cbn [Z.eqb].
    + destruct (arq_half_take a b i m l Hi Hq Hn) as (ms1 & Hr & Hd & Hn').
      exists (arq_take i m b). eexists _, ms1, _. rewrite Hms.
      split_and!; [reflexivity|exact Hr|exact Hd|by unfold arq_take; case_decide|done| |].
      * exists l. split_and!; [done|lia..|done|]. by rewrite Hc.
      * destruct Hy as (l' & Hq' & Hn'' & Hms' & Hfs'). exists l'.
        assert (Hsame : (arq_take i m b).(aq_queue) = b.(aq_queue) ∧
          (arq_take i m b).(aq_base) = b.(aq_base) ∧ (arq_take i m b).(aq_conv) = b.(aq_conv))
          by (unfold arq_take; by case_decide).
        destruct Hsame as (-> & -> & ->). split_and!; [done|lia..|done|].
        eapply Forall_impl; [exact Hfs'|]. intros f [?|(n & ? & ->)]; [by left|right].
        exists n. split; [lia|done].
    + exists (arq_acked n b). eexists _, [], ms. rewrite app_nil_r.
      assert (Hsame : (arq_acked n b).(aq_next) = b.(aq_next) ∧
        (arq_acked n b).(aq_ready) = b.(aq_ready) ∧ (arq_acked n b).(aq_conv) = b.(aq_conv))
        by (unfold arq_acked; by case_decide).
      destruct Hsame as (Hn1 & Hr1 & Hc1).
      split_and!; [reflexivity|exact Hr1|reflexivity|by rewrite Hc1|done| |by apply arq_half_acked].
      exists l. rewrite Hn1, Hc. split_and!; [done|lia..|done|done].
  - intros a b x y buf b1 m n (Hc & Hu & Hx & Hy). cbn [kcp_recv arq_lib]. unfold arq_recv.
    destruct (aq_ready b); intros [= <- <- <-]. by split_and!.
  - intros a b fs ms y (_ & _ & (l & Hq & Hn & Hms & _) & _). cbn [kcp_wait_snd arq_lib].
    intros Hw. cbn [fst snd] in *. assert (Hl : length (drop a.(aq_base) l) = 0%nat) by (rewrite <- Hq; lia).
    rewrite length_drop in Hl. rewrite Hms. apply drop_ge. lia.
  - intros cfg c c' data a1 n. rewrite !arq_apply. intros [= <- _]. by eexists.
Defined.
