(* ===== verification/Delivery.v ===== *)
(** * A message, from [send] on one node to [recv] on the other

    The handshake, the queueing of data, KCP and the receive path composed.
    What KCP promises when no frame is lost is an interface, [KcpLink]; the
    lemmas are what the nodes make of it, step by step, from the handshake on.
    [Fifo] and [ExamplesSpec] draw the conclusions. *)

From S2P Require Import Prelude Prog Packet Kcp Addr Errors Config World Session Transport.
From S2P Require Import Blind Incoming Effects Toy SessionSpec IncomingSpec TransportSpec Endpoint.
Open Scope prog_scope.

(** The service of KCP between two instances with one conversation id, when
    every frame arrives in order. [kcp_link a b (fs, ms) (gs, ns)]: of what [a]
    has sent, the frames [fs] have not reached [b], and will make the messages
    [ms] ready there; and [gs] and [ns] likewise from [b] to [a]. A message
    has room when the windows let it out at once, as they let a small one out of
    a new instance; receiving takes no room. An update writes acknowledgements
    and old data again, and no new message, as long as KCP does not give up. The id enters only into the frames: an instance
    that is given another one while its data waits is as if created with it. *)
Class KcpLink {K : KcpLib} {L : @KcpLaws K} : Type := {
  kcp_link : kcp_t → kcp_t → list bytes * list bytes → list bytes * list bytes → Prop;
  kcp_room : kcp_t → bytes → Prop;
  kcp_small : bytes → Prop;
  link_new cfg cfg' c :
    u32_ok c → kcp_link (apply_to cfg (kcp_new c)) (apply_to cfg' (kcp_new c)) ([], []) ([], []);
  link_new_ready cfg c : kcp_ready (apply_to cfg (kcp_new c)) = [];
  link_sym a b x y : kcp_link a b x y → kcp_link b a y x;
  link_alive a b x y : kcp_link a b x y → kcp_is_dead_link a = false;
  room_new cfg c data : kcp_small data → kcp_room (apply_to cfg (kcp_new c)) data;
  link_send a b fs ms y data t :
    kcp_link a b (fs, ms) y → kcp_room a data →
    ∃ a1 n, kcp_send data a = KRet (a1, Ok n) ∧
      let u := kio_written (kcp_update t a1) in
      let f := kio_written (kcp_flush u.1.1) in
      u.1.2 = Ok tt ∧ f.1.2 = Ok tt ∧ kcp_ready f.1.1 = kcp_ready a ∧
      kcp_link f.1.1 b (fs ++ u.2 ++ f.2, ms ++ [data]) y;
  link_update a b fs ms y t :
    kcp_link a b (fs, ms) y →
    let u := kio_written (kcp_update t a) in
    kcp_is_dead_link u.1.1 = false →
    kcp_ready u.1.1 = kcp_ready a ∧ kcp_link u.1.1 b (fs ++ u.2, ms) y;
  link_update_ok a b x y t :
    kcp_link a b x y → (kio_written (kcp_update t a)).1.2 = Ok tt;
  link_input a b f fs ms y :
    kcp_link a b (f :: fs, ms) y →
    ∃ b1 n ms1 ms2, kcp_input f b = KRet (b1, Ok n) ∧
      kcp_ready b1 = kcp_ready b ++ ms1 ∧ ms = ms1 ++ ms2 ∧ kcp_link a b1 (fs, ms2) y ∧
      ∀ d, kcp_room b d → kcp_room b1 d;
  link_recv a b x y buf b1 m n :
    kcp_link a b x y → kcp_recv buf b = KRet (b1, m, Ok n) →
    kcp_link a b1 x y ∧ ∀ d, kcp_room b d → kcp_room b1 d;
  link_end a b ms y : kcp_link a b ([], ms) y → ms = [];
  link_set_conv cfg c c' data a1 n :
    kcp_send data (apply_to cfg (kcp_new c)) = KRet (a1, Ok n) →
    ∃ n', kcp_send data (apply_to cfg (kcp_new c')) = KRet (kcp_set_conv c' a1, Ok n');
}.

Section Node.
Context {K : KcpLib} {L : @KcpLaws K} {F : KcpLink} {os : Os} (self : KcpPeer).
Context (send_ok : ∀ n b to, os_send n b to = Ok (Z.of_nat (length b))).

Abbreviation receive := (receive self).

(** ** Receiving frames *)

Lemma receive_frame from a k f fs ms y conv w :
  endpoint w from Established conv k → kcp_ready k = [] → kcp_link a k (f :: fs, ms) y →
  ∃ k' ms1 ms2, ms = ms1 ++ ms2 ∧ kcp_ready k' = [] ∧ kcp_link a k' (fs, ms2) y ∧
    (∀ d, kcp_room k d → kcp_room k' d) ∧
    let w' := receive from [encode_kcp_data f] w in
    endpoint w' from Established conv k' ∧ w'.(sent) = w.(sent) ∧
    w'.(cancelled) = w.(cancelled) ∧
    w'.(pending) = w.(pending) ++ (MkDataMessage from <$> ms1).
Proof.
  intros He Hr Hflow.
  destruct (link_input _ _ _ _ _ _ Hflow) as (b1 & n & ms1 & ms2 & Hin & Hr1 & -> & Hflow1 & Hroom1).
  destruct (frame_received self (λ k', kcp_link a k' (fs, ms2) y ∧ ∀ d, kcp_room k d → kcp_room k' d)
    from Established conv f k b1 n w He Hin) as (k' & Hr' & [Hfl Hroom] & H);
    [|by split; [|auto]|].
  { intros buf k1 k2 m n' [Hl Hro] Hrv. destruct (link_recv _ _ _ _ _ _ _ _ Hl Hrv). auto. }
  rewrite Hr1, Hr, app_nil_l in H. exists k', ms1, ms2. by split_and!.
Qed.

(** All the frames: all the messages, in order, and the two KCPs are in step
    again. *)
Lemma receive_frames from a k fs ms y conv w :
  endpoint w from Established conv k → kcp_ready k = [] → kcp_link a k (fs, ms) y →
  ∃ k', kcp_ready k' = [] ∧ kcp_link a k' ([], []) y ∧ (∀ d, kcp_room k d → kcp_room k' d) ∧
    let w' := receive from (encode_kcp_data <$> fs) w in
    endpoint w' from Established conv k' ∧ w'.(sent) = w.(sent) ∧
    w'.(cancelled) = w.(cancelled) ∧
    w'.(pending) = w.(pending) ++ (MkDataMessage from <$> ms).
Proof.
  revert k ms w. induction fs as [|f fs IH]; intros k ms w He Hr Hflow.
  - assert (ms = []) as -> by (by eapply link_end). exists k. cbn. rewrite app_nil_r. by split_and!.
  - destruct (receive_frame from a k f fs ms y conv w He Hr Hflow)
      as (k1 & ms1 & ms2 & -> & Hr1 & Hf1 & Ho1 & He1 & Hs1 & Hc1 & Hp1).
    destruct (IH k1 ms2 _ He1 Hr1 Hf1) as (k' & Hr' & Hf' & Ho' & He' & Hs' & Hc' & Hp').
    exists k'. split_and!; [done|done|auto|]. rewrite fmap_cons. cbv zeta. rewrite receive_cons.
    split_and!; [done|congruence|congruence|]. by rewrite Hp', Hp1, fmap_app, app_assoc.
Qed.

(** ** The steps of a connection *)

(** [send] to a new peer: its SYN goes out, the data waits in KCP. *)
Lemma send_opens peer data w :
  w.(sessions) !! canonicalize peer = None → kcp_small data → u32_ok (os_rand w.(nrand)) →
  let conv := os_rand w.(nrand) in
  let w' := (run (KcpPeer.send self peer data) w).2 in
  (run (KcpPeer.send self peer data) w).1 = Ok tt ∧
  sent_since w w' = [encode_control Syn conv] ∧ same_queue w w' ∧
  ∃ k n, kcp_send data (apply_to self.(kp_config) (kcp_new conv)) = KRet (k, Ok n) ∧
    endpoint w' peer SynSent conv k.
Proof.
  intros Hs Hfit Hu. cbv zeta.
  pose proof (blind_keeps _ w (blind_send self peer data)) as Hq.
  pose proof (send_auto_initiates_run self peer data w) as H. rewrite Hs in H. cbv zeta in H.
  destruct H as (Hrun & Hm & Hsent & _ & σ & Hh & Hst & Hcv & Hp & Hc & _ & Hk & Ho).
  rewrite Hrun in *. set (w0 := initiated_world self peer w) in *.
  pose proof (link_new self.(kp_config) self.(kp_config) _ Hu) as Hflow.
  destruct (link_send _ _ _ _ _ data 0 Hflow (room_new _ _ _ Hfit)) as (a1 & n & Ha & _).
  assert (Hσ : w0.(heap) !! w.(next) = Some σ) by (rewrite Hh; apply lookup_insert_eq).
  destruct (send_data_run w.(next) data σ w0 Hσ) as (_ & _ & Halive).
  rewrite Hk in Halive. destruct (Halive Hc (link_alive _ _ _ _ Hflow)) as (k & r & Hkr & H).
  rewrite Ha in Hkr. injection Hkr as <- <-. rewrite Hst in H. rewrite H in *. cbn [fst snd] in *.
  split_and!; [done|exact (sent_since_app w (upd_heap _ w0) _ Hsent)|exact Hq|].
  exists a1, n. split; [done|]. exists w.(next), (with_kcp a1 σ).
  split; [cbn; rewrite Hm; apply lookup_insert_eq|]. split; [apply lookup_insert_eq|].
  cbn. by split_and!.
Qed.

(** [send] on an established session whose KCP is linked with [b]. *)
Lemma send_flows peer conv k b fs ms y data w :
  endpoint w peer Established conv k → kcp_link k b (fs, ms) y → kcp_room k data →
  let x := run (KcpPeer.send self peer data) w in
  ∃ k' gs, x.1 = Ok tt ∧ sent_since w x.2 = encode_kcp_data <$> gs ∧ same_queue w x.2 ∧
    kcp_link k' b (fs ++ gs, ms ++ [data]) y ∧ kcp_ready k' = kcp_ready k ∧
    endpoint x.2 peer Established conv k'.
Proof.
  intros He Hflow Hfit. cbv zeta.
  destruct (send_step self (sends_write _ send_ok) peer Established conv k data w He) as [Hq H].
  destruct H as [[Hdead _]|(_ & a1 & r & Hkr & H)].
  { by rewrite (link_alive _ _ _ _ Hflow) in Hdead. }
  destruct (link_send _ _ _ _ _ data 0 Hflow Hfit) as (? & n & Ha & _).
  rewrite Hkr in Ha. injection Ha as <- ->. destruct H as (t & H).
  destruct (link_send _ _ _ _ _ data t Hflow Hfit) as (? & n' & Ha & Hu & Hf & Hr & Hfl).
  rewrite Hkr in Ha. injection Ha as <- _. destruct (H Hu) as (Hx & Hs & He').
  rewrite Hf in Hx. eexists _, _. split_and!; [exact Hx|exact Hs|exact Hq|exact Hfl|exact Hr|exact He'].
Qed.
End Node.

Section Pair.
Context {K : KcpLib} {L : @KcpLaws K} {F : KcpLink} (osA osB : Os) {OLA : OsLaws osA}.
Context (a b : KcpPeer) (addrA addrB meB : SocketAddr).
Context (send_okA : ∀ n d to, os_send (Os := osA) n d to = Ok (Z.of_nat (length d))).
Context (HmeB : os_local_addr (Os := osB) = Ok meB).

Abbreviation receive_a := (receive (os := osA) a addrB).
Abbreviation receive_b := (receive (os := osB) b addrA).

(** A sends to B, to which it has no session; what each then sends is handed to
    the other, up to the SYN_ACK: both ends are connected, and the frames of
    the message are under way. *)
Lemma opening_link data wA wB :
  wA.(sessions) !! canonicalize addrB = None →
  unacquainted wB addrA (os_rand (Os := osA) wA.(nrand)) → kcp_small data →
  let x := run (KcpPeer.send (os := osA) a addrB data) wA in
  let wA1 := x.2 in
  let wB1 := receive_b (sent_since wA wA1) wB in
  let wA2 := receive_a (sent_since wB wB1) wA1 in
  let conv := os_rand (Os := osA) wA.(nrand) in
  x.1 = Ok tt ∧ same_queue wA wA2 ∧ same_queue wB wB1 ∧
  ∃ kA kB fs, sent_since wA1 wA2 = encode_kcp_data <$> fs ∧
    endpoint wA2 addrB Established conv kA ∧ endpoint wB1 addrA Established conv kB ∧
    kcp_link kA kB (fs, [data]) ([], []) ∧ kcp_ready kA = [] ∧ kcp_ready kB = [] ∧
    ∀ d, kcp_small d → kcp_room kB d.
Proof.
  intros HsA HsB Hfit. cbv zeta.
  assert (Hu : u32_ok (os_rand (Os := osA) wA.(nrand))).
  { pose proof (os_rand_range (OsLaws := OLA) wA.(nrand)). width_lia. }
  destruct (send_opens (os := osA) a addrB data wA HsA Hfit Hu)
    as (Hx & Hsyn & HqA1 & k & n & Hk & HeA1).
  rewrite Hsyn. destruct (syn_opens (os := osB) b addrA _ meB wB HmeB Hu HsB)
    as (Hack & HqB1 & HeB1).
  rewrite Hack. destruct (ack_flushes (os := osA) a (sends_write _ send_okA) addrB _ k _ Hu HeA1)
    as (t & Hfr & HqA2 & HeA2).
  set (conv := os_rand _) in *.
  pose proof (link_new a.(kp_config) b.(kp_config) conv Hu) as Hflow.
  destruct (link_send _ _ _ _ _ data t Hflow (room_new _ _ _ Hfit))
    as (k' & n' & Hk' & _ & _ & HrA & Hflow2).
  rewrite Hk' in Hk. injection Hk as -> ->. rewrite link_new_ready in HrA.
  split_and!; [exact Hx| |exact HqB1|].
  - destruct HqA1, HqA2. split; etransitivity; eassumption.
  - eexists (flushed t k).1, _, _. split_and!; [exact Hfr|exact HeA2|exact HeB1|exact Hflow2|
      exact HrA|apply link_new_ready|apply room_new].
Qed.

End Pair.

(** ** The toy KCP carries messages *)

Definition toy_node_a : KcpPeer := MkKcpPeer 11 default addr_a.
Definition toy_node_b : KcpPeer := MkKcpPeer 12 default addr_b.

Definition toy_link (a b : toy) (x y : list bytes * list bytes) : Prop :=
  a.(ty_conv) = b.(ty_conv) ∧ u32_ok a.(ty_conv) ∧ a.(ty_dead) = false ∧ b.(ty_dead) = false ∧
  a.(ty_queue) = [] ∧ b.(ty_queue) = [] ∧
  x.1 = (λ m, to_le_bytes a.(ty_conv) ++ m) <$> x.2 ∧
  y.1 = (λ m, to_le_bytes a.(ty_conv) ++ m) <$> y.2.

Lemma toy_apply cfg c :
  apply_to (K := toy_lib) cfg (kcp_new (KcpLib := toy_lib) c) =
    MkToy c [] [] false (cfg.(snd_wnd), cfg.(rcv_wnd)).
Proof. unfold apply_to. by destruct (kcp_nodelay cfg) as [[[? ?] ?] ?]. Qed.

Lemma toy_written_flush k q :
  kio_written (toy_flush k q) =
    ((toy_set_queue [] k, Ok tt), (λ m, to_le_bytes k.(ty_conv) ++ m) <$> q).
Proof.
  induction q as [|m q IH]; [done|]. cbn [toy_flush kio_written].
  rewrite IH. done.
Qed.

Definition toy_kcp_link : @KcpLink toy_lib toy_laws.
Proof.
  refine (@Build_KcpLink toy_lib toy_laws toy_link (λ _ _, True) (λ _, True) _ _ _ _ _ _ _ _ _ _ _ _);
    unfold toy_link.
  - intros cfg cfg' c Hc. rewrite !toy_apply. by split_and!.
  - intros cfg c. by rewrite toy_apply.
  - intros a b x y (Hc & Hu & ? & ? & ? & ? & ? & ?). rewrite <- Hc. by split_and!.
  - by intros a b x y (_ & _ & ? & _).
  - done.
  - intros a b fs ms y data t (Hc & Hu & Ha & Hb & Hqa & Hqb & Hfs & Hgs) _.
    eexists _, _. split; [reflexivity|]. cbn [kcp_update toy_lib kio_written fst snd] in *.
    change (kcp_flush ?k) with (toy_flush k k.(ty_queue)).
    rewrite toy_written_flush, Hqa, Hfs. split_and!; try done. cbn. by rewrite fmap_app.
  - intros a b fs ms y t H _. cbn [kcp_update toy_lib kio_written fst snd]. by rewrite app_nil_r.
  - done.
  - intros a b f fs ms y (Hc & Hu & Ha & Hb & Hqa & Hqb & Hfs & Hgs). cbn [fst snd] in *.
    destruct ms as [|m ms]; [done|].
    assert (f = to_le_bytes (ty_conv a) ++ m ∧
      fs = (λ m, to_le_bytes (ty_conv a) ++ m) <$> ms) as [-> ->] by (by injection Hfs).
    cbn [kcp_input toy_lib]. unfold toy_input. rewrite decide_True by (cbn; lia).
    pose proof (payload_conv_le (ty_conv a) m Hu) as Hp. unfold payload_conv in Hp.
    rewrite Hp, (proj2 (Z.eqb_eq _ _) Hc).
    eexists _, _, [m], ms. split; [reflexivity|]. by split_and!.
  - intros a b x y buf b1 m n H. cbn [kcp_recv toy_lib]. unfold toy_recv.
    destruct (ty_ready b); intros [= <- <- <-]; by split.
  - intros a b ms y (_ & _ & _ & _ & _ & _ & H & _). by destruct ms.
  - intros cfg c c' data a1 n. rewrite !toy_apply. intros [= <- _]. by eexists.
Defined.

Definition toy_os_ok me n d to : os_send (Os := toy_os me) n d to = Ok (Z.of_nat (length d)) :=
  eq_refl.
