(* ===== verification/Fifo.v ===== *)
(** * An open connection is a pair of queues

    Two connected nodes and what is under way between them, as long as no
    datagram is lost, refine two FIFO queues of messages, one per direction:
    every message comes out once, in order, at the other end and nowhere else,
    whatever the order of sends, arrivals, receives and ticks.
    A connection gets there by the ordinary handshake with the data that
    started it, and by the simultaneous one with that of both sides. *)

From S2P Require Import Prelude Prog Packet Kcp Addr Errors Config World Session Transport.
From S2P Require Import Blind Incoming Effects Toy SessionSpec IncomingSpec TransportSpec.
From S2P Require Import Update UpdateSpec Handshake Endpoint Delivery.
Open Scope prog_scope.

(** ** The specification *)

(** What the applications, the network and the update tasks do; [Quiet] is
    what does not concern the connection. *)
Inductive Action : Type :=
  | SendA (data : bytes)
  | SendB (data : bytes)
  | ArriveA
  | ArriveB
  | RecvA (m : DataMessage)
  | RecvB (m : DataMessage)
  | TickA
  | TickB
  | Quiet.

(** The messages under way in each direction, and those that wait to be
    received at each end. *)
Record Fifo : Type := MkFifo {
  to_b : list bytes;
  to_a : list bytes;
  at_end_a : list bytes;
  at_end_b : list bytes;
}.

Section Spec.
Context (addrA addrB : SocketAddr).

Inductive fifo_step : Action → Fifo → Fifo → Prop :=
  | fifo_send_a d ab ba ia ib :
      fifo_step (SendA d) (MkFifo ab ba ia ib) (MkFifo (ab ++ [d]) ba ia ib)
  | fifo_send_b d ab ba ia ib :
      fifo_step (SendB d) (MkFifo ab ba ia ib) (MkFifo ab (ba ++ [d]) ia ib)
  | fifo_arrive_a ms ab ba ia ib :
      fifo_step ArriveA (MkFifo ab (ms ++ ba) ia ib) (MkFifo ab ba (ia ++ ms) ib)
  | fifo_arrive_b ms ab ba ia ib :
      fifo_step ArriveB (MkFifo (ms ++ ab) ba ia ib) (MkFifo ab ba ia (ib ++ ms))
  | fifo_recv_a d ab ba ia ib :
      fifo_step (RecvA (MkDataMessage addrB d)) (MkFifo ab ba (d :: ia) ib) (MkFifo ab ba ia ib)
  | fifo_recv_b d ab ba ia ib :
      fifo_step (RecvB (MkDataMessage addrA d)) (MkFifo ab ba ia (d :: ib)) (MkFifo ab ba ia ib)
  | fifo_tick_a q : fifo_step TickA q q
  | fifo_tick_b q : fifo_step TickB q q
  | fifo_quiet q : fifo_step Quiet q q.
End Spec.

(** Several actions. *)
Inductive trace {S : Type} (R : Action → S → S → Prop) : list Action → S → S → Prop :=
  | trace_nil c : trace R [] c c
  | trace_cons x xs c c1 c2 : R x c c1 → trace R xs c1 c2 → trace R (x :: xs) c c2.

Lemma trace_app {S} (R : Action → S → S → Prop) xs ys c1 c2 c3 :
  trace R xs c1 c2 → trace R ys c2 c3 → trace R (xs ++ ys) c1 c3.
Proof. induction 1; [done|]. intros. econstructor; [done|auto]. Qed.

Definition sent_by_a (x : Action) : option bytes :=
  match x with SendA d => Some d | _ => None end.
Definition sent_by_b (x : Action) : option bytes :=
  match x with SendB d => Some d | _ => None end.
Definition received_by_a (x : Action) : option bytes :=
  match x with RecvA m => Some m.(dm_data) | _ => None end.
Definition received_by_b (x : Action) : option bytes :=
  match x with RecvB m => Some m.(dm_data) | _ => None end.

(** Queues lose nothing, invent nothing, and keep the order. *)
Lemma fifo_conserves addrA addrB xs q q' :
  trace (fifo_step addrA addrB) xs q q' →
  q.(at_end_b) ++ q.(to_b) ++ omap sent_by_a xs =
    omap received_by_b xs ++ q'.(at_end_b) ++ q'.(to_b) ∧
  q.(at_end_a) ++ q.(to_a) ++ omap sent_by_b xs =
    omap received_by_a xs ++ q'.(at_end_a) ++ q'.(to_a).
Proof.
  induction 1 as [q|x xs q q1 q2 Hx _ [IHb IHa]]; [by rewrite !app_nil_r|].
  destruct Hx; cbn [omap list_omap sent_by_a sent_by_b received_by_a received_by_b
    to_b to_a at_end_a at_end_b dm_data] in *;
    rewrite <- ?app_assoc in *; cbn [app] in *; split;
    (done || (f_equal; done) || (by rewrite <- ?app_assoc)).
Qed.

(** ** The datagrams under way *)

(** The frames among them; SYN_ACKs of a handshake that is over are noise. *)
Inductive under_way : list bytes → list bytes → Prop :=
  | under_way_nil : under_way [] []
  | under_way_frame f net fs : under_way net fs → under_way (encode_kcp_data f :: net) (f :: fs)
  | under_way_ack c net fs : under_way net fs → under_way (encode_control SynAck c :: net) fs.

Lemma under_way_frames fs : under_way (encode_kcp_data <$> fs) fs.
Proof. induction fs; constructor; done. Qed.

Lemma under_way_app net net' fs fs' :
  under_way net fs → under_way net' fs' → under_way (net ++ net') (fs ++ fs').
Proof. induction 1; intros H'; [done|constructor; auto..]. Qed.

Lemma under_way_frames_ack fs c : under_way ((encode_kcp_data <$> fs) ++ [encode_control SynAck c]) fs.
Proof. induction fs; repeat constructor; done. Qed.

Section OneWay.
Context {K : KcpLib} {L : @KcpLaws K} {F : KcpLink} (osA osB : Os).
Context (a b : KcpPeer) (addrA addrB : SocketAddr).
Context (send_okA : ∀ n d to, os_send (Os := osA) n d to = Ok (Z.of_nat (length d))).

(** The connection, its ends [wA] and [wB], the datagrams [ab] and [ba] under
    way, carry the messages of the queues. *)
Definition carries (conv : Z) (wA wB : World) (ab ba : list bytes) (q : Fifo) : Prop :=
  ∃ kA kB fs gs,
    endpoint wA addrB Established conv kA ∧ endpoint wB addrA Established conv kB ∧
    kcp_ready kA = [] ∧ kcp_ready kB = [] ∧
    kcp_link kA kB (fs, q.(to_b)) (gs, q.(to_a)) ∧ under_way ab fs ∧ under_way ba gs ∧
    wA.(pending) = MkDataMessage addrB <$> q.(at_end_a) ∧
    wB.(pending) = MkDataMessage addrA <$> q.(at_end_b) ∧
    wA.(cancelled) = false ∧ wB.(cancelled) = false.

Lemma carries_send conv d wA wB ab ba xab xba ia ib :
  carries conv wA wB ab ba (MkFifo xab xba ia ib) →
  (∀ k, endpoint wA addrB Established conv k → kcp_room k d) →
  let x := run (KcpPeer.send (os := osA) a addrB d) wA in
  x.1 = Ok tt ∧
  carries conv x.2 wB (ab ++ sent_since wA x.2) ba (MkFifo (xab ++ [d]) xba ia ib).
Proof.
  intros (kA & kB & fs & gs & HeA & HeB & HrA & HrB & Hl & Hab & Hba & HpA & HpB & HcA & HcB) Hroom.
  cbn [to_b to_a at_end_a at_end_b] in *. cbv zeta.
  destruct (send_flows (os := osA) a send_okA addrB conv kA kB fs xab _ d wA HeA Hl (Hroom _ HeA))
    as (kA' & fs' & Hx & Hs & [Hq1 Hq2] & Hl' & Hr' & HeA').
  split; [done|]. exists kA', kB, (fs ++ fs'), gs. rewrite Hs.
  split_and!; cbn [to_b to_a at_end_a at_end_b]; try (done || congruence).
  apply under_way_app; [done|apply under_way_frames].
Qed.

(** A datagram reaches B. *)
Lemma carries_arrive conv dg wA wB ab ba xab xba ia ib :
  carries conv wA wB (dg :: ab) ba (MkFifo xab xba ia ib) →
  let w := receive (os := osB) b addrA [dg] wB in
  ∃ ms xab', xab = ms ++ xab' ∧
    carries conv wA w ab (ba ++ sent_since wB w) (MkFifo xab' xba ia (ib ++ ms)).
Proof.
  intros (kA & kB & fs & gs & HeA & HeB & HrA & HrB & Hl & Hab & Hba & HpA & HpB & HcA & HcB).
  cbn [to_b to_a at_end_a at_end_b] in *. cbv zeta.
  inversion Hab as [|f net fs' Hab'|c net fs' Hab']; subst.
  - destruct (receive_frame (os := osB) b addrA kA kB f fs' xab _ conv wB HeB HrB Hl)
      as (kB' & ms1 & ms2 & -> & Hr' & Hl' & _ & HeB' & Hs & Hc & Hp).
    exists ms1, ms2. split; [done|]. rewrite (sent_since_app _ _ []) by (by rewrite app_nil_r).
    cbn [fmap list_fmap]. rewrite app_nil_r. exists kA, kB', fs', gs.
    split_and!; cbn [to_b to_a at_end_a at_end_b]; try (done || congruence).
    by rewrite Hp, HpB, fmap_app.
  - exists [], xab. split; [done|]. rewrite receive_one.
    destruct HeB as (s & σ & Hs & Hσ & Hc & Hp & Ho & Hst & Hcv & Hk).
    rewrite (syn_ack_when_connected addrA conv) by (by exists s, σ).
    cbn [snd]. rewrite (sent_since_app _ _ []) by (by rewrite app_nil_r).
    cbn [fmap list_fmap]. rewrite !app_nil_r. exists kA, kB, fs, gs.
    split_and!; try done. by exists s, σ.
Qed.

(** A tick of A's update task that does not give the connection up. *)
Lemma carries_tick conv s wA wB ab ba q :
  OsLaws osA → carries conv wA wB ab ba q → wA.(sessions) = {[ canonicalize addrB := s ]} →
  let w := (run (update_tick (os := osA) a.(kp_config)) wA).2 in
  w.(sessions) !! canonicalize addrB ≠ None →
  carries conv w wB (ab ++ sent_since wA w) ba q.
Proof.
  intros OL (kA & kB & fs & gs & HeA & HeB & HrA & HrB & Hl & Hab & Hba & HpA & HpB & HcA & HcB) Hone.
  cbv zeta. destruct HeA as (s' & σ & Hs & Hσ & Hc & Hp & Hop & Hst & Hcv & Hk).
  assert (s' = s) as -> by (rewrite Hone, lookup_singleton_eq in Hs; congruence).
  intros Hstay. destruct (tick_keeps (os := osA) a.(kp_config) _ s σ wA OL Hone Hσ Hc Hst Hstay)
    as (Hdead & o & Ho & Hw).
  rewrite Hw. clear Hw Hstay. rewrite Hop, Hk in *. set (t := current_ms_of _) in *.
  destruct (kio_trace_written (os := osA) (sends_write _ send_okA) addrB (length wA.(sent)) (kcp_update t kA))
    as [H1 H2].
  rewrite H1 in *. specialize (Hdead (link_update_ok _ _ _ _ t Hl)).
  destruct (link_update _ _ _ _ _ t Hl Hdead) as [Hr' Hl'].
  rewrite (sent_since_app _ _ (kio_trace (os := osA) addrB (length wA.(sent)) (kcp_update t kA)).2) by done.
  rewrite H2. eexists _, kB, _, gs.
  split_and!; [|exact HeB|exact (eq_trans Hr' HrA)|exact HrB|exact Hl'| |exact Hba|
    exact HpA|exact HpB|exact HcA|exact HcB].
  - exists s. eexists. split; [exact Hs|]. split; [apply lookup_insert_eq|]. by split_and!.
  - apply under_way_app; [done|apply under_way_frames].
Qed.

(** The application at A takes a message. *)
Lemma carries_recv conv polls m wA wA' wB ab ba xab xba ia ib :
  carries conv wA wB ab ba (MkFifo xab xba ia ib) →
  run (KcpPeer.recv (S polls)) wA = (Some (Ok m), wA') →
  ∃ d ia', ia = d :: ia' ∧ m = MkDataMessage addrB d ∧
    carries conv wA' wB ab ba (MkFifo xab xba ia' ib).
Proof.
  intros (kA & kB & fs & gs & HeA & HeB & HrA & HrB & Hl & Hab & Hba & HpA & HpB & HcA & HcB).
  cbn [to_b to_a at_end_a at_end_b] in *.
  pose proof (recv_conserves_run (S polls) wA) as Hcons.
  rewrite recv_poll, HcA. destruct ia as [|d ia]; rewrite HpA; cbn [fmap list_fmap].
  - intros Hrun. rewrite recv_poll, HcA, HpA, Hrun in Hcons. done.
  - intros [= <- <-]. exists d, ia. split_and!; [done..|]. exists kA, kB, fs, gs. by split_and!.
Qed.
End OneWay.

Lemma carries_sym {K : KcpLib} {L : @KcpLaws K} {F : KcpLink} addrA addrB conv wA wB ab ba xab xba ia ib :
  carries addrA addrB conv wA wB ab ba (MkFifo xab xba ia ib) →
  carries addrB addrA conv wB wA ba ab (MkFifo xba xab ib ia).
Proof.
  intros (kA & kB & fs & gs & ? & ? & ? & ? & ? & ?). exists kB, kA, gs, fs.
  cbn in *. split_and!; try apply link_sym; tauto.
Qed.

(** ** The connection *)

Section Line.
Context {K : KcpLib} {L : @KcpLaws K} {F : KcpLink} (osA osB : Os).
Context {OLA : OsLaws osA} {OLB : OsLaws osB}.
Context (a b : KcpPeer) (addrA addrB : SocketAddr).
Context (send_okA : ∀ n d to, os_send (Os := osA) n d to = Ok (Z.of_nat (length d))).
Context (send_okB : ∀ n d to, os_send (Os := osB) n d to = Ok (Z.of_nat (length d))).

(** The two nodes and the datagrams under way between them. *)
Record Line : Type := MkLine {
  end_a : World;
  end_b : World;
  net_ab : list bytes;
  net_ba : list bytes;
}.

(** A message may be sent if it has room, the datagrams of a direction arrive
    in order, [recv] is polled at least once, and the update task ticks on a
    node with no other session, and keeps this one: it is not idle for too
    long, and KCP has not given it up. *)
Inductive line_step : Action → Line → Line → Prop :=
  | line_send_a d wA wB ab ba :
      (∀ conv k, endpoint wA addrB Established conv k → kcp_room k d) →
      let w := (run (KcpPeer.send (os := osA) a addrB d) wA).2 in
      line_step (SendA d) (MkLine wA wB ab ba) (MkLine w wB (ab ++ sent_since wA w) ba)
  | line_send_b d wA wB ab ba :
      (∀ conv k, endpoint wB addrA Established conv k → kcp_room k d) →
      let w := (run (KcpPeer.send (os := osB) b addrA d) wB).2 in
      line_step (SendB d) (MkLine wA wB ab ba) (MkLine wA w ab (ba ++ sent_since wB w))
  | line_arrive_a dg wA wB ab ba :
      let w := receive (os := osA) a addrB [dg] wA in
      line_step ArriveA (MkLine wA wB ab (dg :: ba)) (MkLine w wB (ab ++ sent_since wA w) ba)
  | line_arrive_b dg wA wB ab ba :
      let w := receive (os := osB) b addrA [dg] wB in
      line_step ArriveB (MkLine wA wB (dg :: ab) ba) (MkLine wA w ab (ba ++ sent_since wB w))
  | line_recv_a polls m wA wA' wB ab ba :
      run (KcpPeer.recv (S polls)) wA = (Some (Ok m), wA') →
      line_step (RecvA m) (MkLine wA wB ab ba) (MkLine wA' wB ab ba)
  | line_recv_b polls m wA wB wB' ab ba :
      run (KcpPeer.recv (S polls)) wB = (Some (Ok m), wB') →
      line_step (RecvB m) (MkLine wA wB ab ba) (MkLine wA wB' ab ba)
  | line_tick_a s wA wB ab ba :
      wA.(sessions) = {[ canonicalize addrB := s ]} →
      let w := (run (update_tick (os := osA) a.(kp_config)) wA).2 in
      w.(sessions) !! canonicalize addrB ≠ None →
      line_step TickA (MkLine wA wB ab ba) (MkLine w wB (ab ++ sent_since wA w) ba)
  | line_tick_b s wA wB ab ba :
      wB.(sessions) = {[ canonicalize addrA := s ]} →
      let w := (run (update_tick (os := osB) b.(kp_config)) wB).2 in
      w.(sessions) !! canonicalize addrA ≠ None →
      line_step TickB (MkLine wA wB ab ba) (MkLine wA w ab (ba ++ sent_since wB w)).

Definition line_carries (conv : Z) (l : Line) (q : Fifo) : Prop :=
  carries addrA addrB conv l.(end_a) l.(end_b) l.(net_ab) l.(net_ba) q.

Lemma line_step_refines conv x l l' q :
  line_carries conv l q → line_step x l l' →
  ∃ q', fifo_step addrA addrB x q q' ∧ line_carries conv l' q'.
Proof.
  destruct q as [xab xba ia ib]. intros Hc Hx.
  destruct Hx as [d wA wB ab ba Hroom w|d wA wB ab ba Hroom w|dg wA wB ab ba w|dg wA wB ab ba w
    |polls m wA wA' wB ab ba Hrun|polls m wA wB wB' ab ba Hrun
    |s wA wB ab ba Hone w Hstay|s wA wB ab ba Hone w Hstay]; unfold line_carries in *;
    cbn [end_a end_b net_ab net_ba] in *.
  - eexists. split; [constructor|].
    by apply (carries_send osA a addrA addrB send_okA conv d); [|intros k; apply Hroom].
  - eexists. split; [constructor|]. apply carries_sym.
    by apply (carries_send osB b addrB addrA send_okB conv d);
      [apply carries_sym|intros k; apply Hroom].
  - apply carries_sym in Hc.
    destruct (carries_arrive osA a addrB addrA conv dg _ _ _ _ _ _ _ _ Hc) as (ms & xba' & -> & H).
    eexists. split; [constructor|]. by apply carries_sym.
  - destruct (carries_arrive osB b addrA addrB conv dg _ _ _ _ _ _ _ _ Hc) as (ms & xab' & -> & H).
    eexists. split; [constructor|done].
  - destruct (carries_recv addrA addrB conv polls m _ _ _ _ _ _ _ _ _ Hc Hrun)
      as (d & ia' & -> & -> & H). eexists. split; [constructor|done].
  - apply carries_sym in Hc.
    destruct (carries_recv addrB addrA conv polls m _ _ _ _ _ _ _ _ _ Hc Hrun)
      as (d & ib' & -> & -> & H). eexists. split; [constructor|]. by apply carries_sym.
  - eexists. split; [constructor|]. by apply (carries_tick osA a addrA addrB send_okA conv s).
  - eexists. split; [constructor|]. apply carries_sym.
    by apply (carries_tick osB b addrB addrA send_okB conv s); [|apply carries_sym|..].
Qed.

Lemma line_trace_refines conv xs l l' q :
  line_carries conv l q → trace line_step xs l l' →
  ∃ q', trace (fifo_step addrA addrB) xs q q' ∧ line_carries conv l' q'.
Proof.
  intros Hc Hx. revert q Hc. induction Hx as [l|x xs l l1 l2 Hx _ IH]; intros q Hc.
  - exists q. split; [constructor|done].
  - destruct (line_step_refines _ _ _ _ _ Hc Hx) as (q1 & Hq1 & Hc1).
    destruct (IH q1 Hc1) as (q2 & Hq2 & Hc2). exists q2. split; [by econstructor|done].
Qed.

(** Nothing under way on the wire: nothing under way in the queues. *)
Lemma carries_quiet conv l q :
  line_carries conv l q → (l.(net_ab) = [] → q.(to_b) = []) ∧ (l.(net_ba) = [] → q.(to_a) = []).
Proof.
  intros (kA & kB & fs & gs & _ & _ & _ & _ & Hl & Hab & Hba & _). split; intros E.
  - rewrite E in Hab. inversion Hab; subst. by eapply link_end.
  - rewrite E in Hba. inversion Hba; subst. eapply link_end. by apply link_sym.
Qed.
End Line.

(** ** Connections, from their first message on *)

Section Start.
Context {K : KcpLib} {L : @KcpLaws K} {F : KcpLink} (osA osB : Os).
Context {OLA : OsLaws osA} {OLB : OsLaws osB}.
Context (a b : KcpPeer) (addrA addrB : SocketAddr).
Context (send_okA : ∀ n d to, os_send (Os := osA) n d to = Ok (Z.of_nat (length d))).
Context (send_okB : ∀ n d to, os_send (Os := osB) n d to = Ok (Z.of_nat (length d))).

Abbreviation step := (line_step osA osB a b addrA addrB).

(** What was sent is what was received, what waits in the queue, and some
    rest that is still under way; there is no rest when the wire is empty. *)
Definition delivered (sent received : list bytes) (queue : list DataMessage) (net : list bytes) : Prop :=
  ∃ rest, sent = received ++ (dm_data <$> queue) ++ rest ∧ (net = [] → rest = []).

Lemma dm_data_queue p (ms : list bytes) : dm_data <$> (MkDataMessage p <$> ms) = ms.
Proof. rewrite <- list_fmap_compose. apply list_fmap_id. Qed.

(** An open connection whose datagrams are not lost refines a pair of FIFO
    queues: every run of sends, arrivals, receives and ticks on the two nodes, in
    any order, is a run of the queues, at every step; in particular a message is
    received at the other end only, once, in the order of the sends, and with
    the sender's address. *)
Theorem connection_refines_fifo conv xs l l' q :
  line_carries addrA addrB conv l q → trace step xs l l' →
  ∃ q', trace (fifo_step addrA addrB) xs q q' ∧ line_carries addrA addrB conv l' q'.
Proof. by apply line_trace_refines. Qed.

Lemma carries_delivered conv xs l l' mA mB :
  line_carries addrA addrB conv l (MkFifo mA mB [] []) → trace step xs l l' →
  delivered (mA ++ omap sent_by_a xs) (omap received_by_b xs) l'.(end_b).(pending) l'.(net_ab) ∧
  delivered (mB ++ omap sent_by_b xs) (omap received_by_a xs) l'.(end_a).(pending) l'.(net_ba).
Proof.
  intros Hc Hx. destruct (line_trace_refines _ _ _ _ _ _ send_okA send_okB _ _ _ _ _ Hc Hx)
    as (q' & Hq & Hc').
  destruct (fifo_conserves _ _ _ _ _ Hq) as [Hb Ha].
  destruct (carries_quiet addrA addrB conv l' q' Hc') as [Qb Qa].
  destruct Hc' as (_ & _ & _ & _ & _ & _ & _ & _ & _ & _ & _ & HpA & HpB & _).
  cbn [to_b to_a at_end_a at_end_b app] in *.
  split; [exists q'.(to_b)|exists q'.(to_a)]; rewrite ?HpA, ?HpB, dm_data_queue; by split.
Qed.

(** A sends to B, with no session between them; the handshake is exchanged. *)
Lemma opening_carries meB data wA wB :
  os_local_addr (Os := osB) = Ok meB →
  wA.(sessions) !! canonicalize addrB = None → unacquainted wB addrA (os_rand (Os := osA) wA.(nrand)) →
  wA.(pending) = [] → wB.(pending) = [] → wA.(cancelled) = false → wB.(cancelled) = false →
  kcp_small data →
  let x := run (KcpPeer.send (os := osA) a addrB data) wA in
  let wB1 := receive (os := osB) b addrA (sent_since wA x.2) wB in
  let wA2 := receive (os := osA) a addrB (sent_since wB wB1) x.2 in
  x.1 = Ok tt ∧
  line_carries addrA addrB (os_rand (Os := osA) wA.(nrand))
    (MkLine wA2 wB1 (sent_since x.2 wA2) []) (MkFifo [data] [] [] []).
Proof.
  intros HmeB HsA HsB HpA HpB HcA HcB Hfit.
  destruct (opening_link osA osB a b addrA addrB meB send_okA HmeB data wA wB HsA HsB Hfit)
    as (Hx & [HqA1 HqA2] & [HqB1 HqB2] & kA & kB & fs & Hfr & HeA & HeB & Hl & HrA & HrB & _).
  cbv zeta. split; [exact Hx|].
  exists kA, kB, fs, []. cbn [end_a end_b net_ab net_ba to_b to_a at_end_a at_end_b]. rewrite Hfr.
  split_and!; try apply under_way_frames; try apply under_way_nil;
    cbn [fmap list_fmap]; first [done|congruence].
Qed.

(** Reliable delivery, from the first [send] on. A, with no session, sends a
    message to B; the handshake is exchanged. From then on, whatever the
    applications send in either direction and however sends, arrivals,
    receives and ticks of the update tasks are interleaved: what B has received, with what waits in its
    queue, is what A has sent from the first message on, in order and exactly
    once, up to what is under way; and with nothing under way it is all of it.
    The same holds in the other direction. *)
Theorem messages_delivered meB data wA wB :
  os_local_addr (Os := osB) = Ok meB →
  wA.(sessions) !! canonicalize addrB = None → wB.(sessions) !! canonicalize addrA = None →
  wA.(pending) = [] → wB.(pending) = [] → wA.(cancelled) = false → wB.(cancelled) = false →
  kcp_small data →
  let x := run (KcpPeer.send (os := osA) a addrB data) wA in
  let wB1 := receive (os := osB) b addrA (sent_since wA x.2) wB in
  let wA2 := receive (os := osA) a addrB (sent_since wB wB1) x.2 in
  x.1 = Ok tt ∧
  ∀ xs l', trace step xs (MkLine wA2 wB1 (sent_since x.2 wA2) []) l' →
    delivered (data :: omap sent_by_a xs) (omap received_by_b xs) l'.(end_b).(pending) l'.(net_ab) ∧
    delivered (omap sent_by_b xs) (omap received_by_a xs) l'.(end_a).(pending) l'.(net_ba).
Proof.
  intros HmeB HsA HsB HpA HpB HcA HcB Hfit.
  destruct (opening_carries meB data wA wB HmeB HsA (or_introl HsB) HpA HpB HcA HcB Hfit) as [Hx Hc].
  cbv zeta. split; [exact Hx|]. intros xs l' Ht.
  exact (carries_delivered _ xs _ l' [data] [] Hc Ht).
Qed.

(** ** A connection that both sides open *)

(** The data was queued under the id that was drawn; that is as good. *)
Lemma send_kept cfg (g : bool) mine theirs data k n :
  kcp_send data (apply_to cfg (kcp_new mine)) = KRet (k, Ok n) →
  ∃ n', kcp_send data (apply_to cfg (kcp_new (if g then theirs else mine))) =
    KRet (if g then kcp_set_conv theirs k else k, Ok n').
Proof. intros H. destruct g; [by apply (link_set_conv cfg mine _ _ _ n)|by exists n]. Qed.

(** Each side sends, each is handed the SYN of the other: one connection, with
    the frames of both messages and a SYN_ACK each under way. *)
Lemma crossing_link dataA dataB wA wB :
  os_local_addr (Os := osA) = Ok addrA → os_local_addr (Os := osB) = Ok addrB → addrA ≠ addrB →
  wA.(sessions) !! canonicalize addrB = None → wB.(sessions) !! canonicalize addrA = None →
  wA.(pending) = [] → wB.(pending) = [] → wA.(cancelled) = false → wB.(cancelled) = false →
  kcp_small dataA → kcp_small dataB →
  os_rand (Os := osA) wA.(nrand) ≠ os_rand (Os := osB) wB.(nrand) →
  let xA := run (KcpPeer.send (os := osA) a addrB dataA) wA in
  let xB := run (KcpPeer.send (os := osB) b addrA dataB) wB in
  let wA1 := receive (os := osA) a addrB (sent_since wB xB.2) xA.2 in
  let wB1 := receive (os := osB) b addrA (sent_since wA xA.2) xB.2 in
  xA.1 = Ok tt ∧ xB.1 = Ok tt ∧
  ∃ conv, line_carries addrA addrB conv
    (MkLine wA1 wB1 (sent_since xA.2 wA1) (sent_since xB.2 wB1)) (MkFifo [dataA] [dataB] [] []).
Proof.
  intros HmeA HmeB Hab HsA HsB HpA HpB HcA HcB HfA HfB Hne. cbv zeta.
  assert (HuA : u32_ok (os_rand (Os := osA) wA.(nrand))).
  { pose proof (os_rand_range (OsLaws := OLA) wA.(nrand)). width_lia. }
  assert (HuB : u32_ok (os_rand (Os := osB) wB.(nrand))).
  { pose proof (os_rand_range (OsLaws := OLB) wB.(nrand)). width_lia. }
  destruct (send_opens (os := osA) a addrB dataA wA HsA HfA HuA)
    as (HxA & HsynA & [HqA HqA'] & kA & nA & HkA & HeA).
  destruct (send_opens (os := osB) b addrA dataB wB HsB HfB HuB)
    as (HxB & HsynB & [HqB HqB'] & kB & nB & HkB & HeB).
  rewrite HsynA, HsynB. set (cA := os_rand (Os := osA) _) in *. set (cB := os_rand (Os := osB) _) in *.
  destruct (tie_break_flushes (os := osA) a (sends_write _ send_okA) addrB addrA cA cB kA _ HmeA HuB Hne HeA)
    as (tA & HfrA & [HrA HrA'] & HeA1).
  destruct (tie_break_flushes (os := osB) b (sends_write _ send_okB) addrA addrB cB cA kB _ HmeB HuA (not_eq_sym Hne) HeB)
    as (tB & HfrB & [HrB HrB'] & HeB1).
  destruct (send_kept _ (addr_gt addrB addrA) _ cB _ _ _ HkA) as [nA' HkA'].
  destruct (send_kept _ (addr_gt addrA addrB) _ cA _ _ _ HkB) as [nB' HkB'].
  rewrite (addr_gt_flip _ _ Hab) in *.
  assert (Hconv : (if negb (addr_gt addrA addrB) then cB else cA) =
    (if addr_gt addrA addrB then cA else cB)) by (by destruct (addr_gt addrA addrB)).
  rewrite Hconv in *. set (conv := if addr_gt addrA addrB then cA else cB) in *.
  assert (Hu : u32_ok conv) by (unfold conv; by destruct (addr_gt addrA addrB)).
  destruct (link_send _ _ _ _ _ dataA tA (link_new a.(kp_config) b.(kp_config) conv Hu)
    (room_new _ _ _ HfA)) as (k1 & n1 & Hk1 & _ & _ & Hr1 & Hl1).
  rewrite HkA' in Hk1. injection Hk1 as <- <-.
  destruct (link_send _ _ _ _ _ dataB tB (link_sym _ _ _ _ Hl1) (room_new _ _ _ HfB))
    as (k2 & n2 & Hk2 & _ & _ & Hr2 & Hl2).
  rewrite HkB' in Hk2. injection Hk2 as <- <-. rewrite link_new_ready in Hr1, Hr2.
  split_and!; [exact HxA|exact HxB|]. exists conv. eexists _, _, _, _.
  cbn [end_a end_b net_ab net_ba to_b to_a at_end_a at_end_b].
  split_and!; [exact HeA1|exact HeB1|exact Hr1|exact Hr2|exact (link_sym _ _ _ _ Hl2)|..];
    cbn [fmap list_fmap]; [| |congruence..].
  - rewrite HfrA. apply under_way_frames_ack.
  - rewrite HfrB. apply under_way_frames_ack.
Qed.

(** Reliable delivery when both sides start. A and B, each bound to the
    address at which the other sees it, both send to the other, with which
    they have no session; their SYNs cross. The tie-break leaves one connection
    that carries the messages that waited on both sides: from then on, what
    each has received, with what waits in its queue, is what the other has
    sent from its first message on, in order and exactly once, up to what is
    under way; the SYN_ACKs do no harm. *)
Theorem duplex_messages_delivered dataA dataB wA wB :
  os_local_addr (Os := osA) = Ok addrA → os_local_addr (Os := osB) = Ok addrB → addrA ≠ addrB →
  wA.(sessions) !! canonicalize addrB = None → wB.(sessions) !! canonicalize addrA = None →
  wA.(pending) = [] → wB.(pending) = [] → wA.(cancelled) = false → wB.(cancelled) = false →
  kcp_small dataA → kcp_small dataB →
  os_rand (Os := osA) wA.(nrand) ≠ os_rand (Os := osB) wB.(nrand) →
  let xA := run (KcpPeer.send (os := osA) a addrB dataA) wA in
  let xB := run (KcpPeer.send (os := osB) b addrA dataB) wB in
  let wA1 := receive (os := osA) a addrB (sent_since wB xB.2) xA.2 in
  let wB1 := receive (os := osB) b addrA (sent_since wA xA.2) xB.2 in
  xA.1 = Ok tt ∧ xB.1 = Ok tt ∧
  ∀ xs l', trace step xs (MkLine wA1 wB1 (sent_since xA.2 wA1) (sent_since xB.2 wB1)) l' →
    delivered (dataA :: omap sent_by_a xs) (omap received_by_b xs) l'.(end_b).(pending) l'.(net_ab) ∧
    delivered (dataB :: omap sent_by_b xs) (omap received_by_a xs) l'.(end_a).(pending) l'.(net_ba).
Proof.
  intros HmeA HmeB Hab HsA HsB HpA HpB HcA HcB HfA HfB Hne.
  destruct (crossing_link dataA dataB wA wB HmeA HmeB Hab HsA HsB HpA HpB HcA HcB HfA HfB Hne)
    as (HxA & HxB & conv & Hc).
  cbv zeta. split_and!; [exact HxA|exact HxB|]. intros xs l' Ht.
  exact (carries_delivered conv xs _ l' [dataA] [dataB] Hc Ht).
Qed.
End Start.

(** ** Runs on the toy KCP *)

Definition toy_hi : bytes := [104; 105].
Definition toy_osA : Os := toy_os addr_a.
Definition toy_osB : Os := toy_os_shifted addr_b.

(** Two new nodes of which both, or the first only, have sent a message and been
    handed what the other has sent. *)
Definition toy_send (o : Os) (self : KcpPeer) (peer : SocketAddr) (data : bytes) : @World toy_lib :=
  (run (KcpPeer.send (K := toy_lib) (os := o) self peer data) KcpPeer.empty_world).2.

Definition toy_recv_a := receive (K := toy_lib) (os := toy_osA) toy_node_a addr_b.
Definition toy_recv_b := receive (K := toy_lib) (os := toy_osB) toy_node_b addr_a.

Definition toy_opened : @Line toy_lib :=
  let wA := toy_send toy_osA toy_node_a addr_b toy_hi in
  let wB := toy_recv_b (sent_since KcpPeer.empty_world wA) KcpPeer.empty_world in
  let wA' := toy_recv_a (sent_since KcpPeer.empty_world wB) wA in
  MkLine wA' wB (sent_since wA wA') [].

Definition toy_crossed : @Line toy_lib :=
  let wA := toy_send toy_osA toy_node_a addr_b toy_hi in
  let wB := toy_send toy_osB toy_node_b addr_a [1; 2; 3] in
  let wA' := toy_recv_a (sent_since KcpPeer.empty_world wB) wA in
  let wB' := toy_recv_b (sent_since KcpPeer.empty_world wA) wB in
  MkLine wA' wB' (sent_since wA wA') (sent_since wB wB').

Abbreviation toy_step :=
  (line_step (K := toy_lib) (F := toy_kcp_link) toy_osA toy_osB toy_node_a toy_node_b addr_a addr_b).

(** The datagram at the head of a direction arrives; B's update task ticks; the
    message at the head of B's queue is received. *)
Definition toy_arrive_b (l : @Line toy_lib) : @Line toy_lib :=
  let w := toy_recv_b (take 1 l.(net_ab)) l.(end_b) in
  MkLine l.(end_a) w (drop 1 l.(net_ab)) (l.(net_ba) ++ sent_since l.(end_b) w).

Definition toy_tick_b (l : @Line toy_lib) : @Line toy_lib :=
  let w := (run (update_tick (os := toy_osB) toy_node_b.(kp_config)) l.(end_b)).2 in
  MkLine l.(end_a) w l.(net_ab) (l.(net_ba) ++ sent_since l.(end_b) w).

Definition toy_take_b (l : @Line toy_lib) : @Line toy_lib :=
  MkLine l.(end_a) (run (KcpPeer.recv 1) l.(end_b)).2 l.(net_ab) l.(net_ba).

Lemma toy_arrive_step l dg ab : l.(net_ab) = dg :: ab → toy_step ArriveB l (toy_arrive_b l).
Proof. destruct l; cbn. intros ->. apply line_arrive_b. Qed.

Lemma toy_tick_step l s :
  (l.(end_b)).(sessions) = {[ canonicalize addr_a := s ]} →
  ((toy_tick_b l).(end_b)).(sessions) !! canonicalize addr_a ≠ None →
  toy_step TickB l (toy_tick_b l).
Proof. destruct l; cbn [end_b]. apply line_tick_b. Qed.

Lemma toy_take_step l m ms :
  (l.(end_b)).(pending) = m :: ms → (l.(end_b)).(cancelled) = false →
  toy_step (RecvB m) l (toy_take_b l).
Proof.
  destruct l as [wA wB ab ba]; cbn [end_b]. intros Hp Hc. apply (line_recv_b _ _ _ _ _ _ 0).
  rewrite recv_poll, Hc, Hp. unfold toy_take_b. cbn [end_a end_b net_ab net_ba].
  by rewrite recv_poll, Hc, Hp.
Qed.

Definition toy_end (l : @Line toy_lib) : @Line toy_lib :=
  toy_take_b (toy_tick_b (toy_arrive_b l)).

Abbreviation toy_actions := [ArriveB; TickB; RecvB (MkDataMessage addr_a toy_hi)].

Lemma toy_run l dg ab ms :
  l.(net_ab) = dg :: ab →
  bool_decide (((toy_arrive_b l).(end_b)).(sessions) = {[ canonicalize addr_a := 0%nat ]}) = true →
  is_Some (((toy_tick_b (toy_arrive_b l)).(end_b)).(sessions) !! canonicalize addr_a) →
  ((toy_tick_b (toy_arrive_b l)).(end_b)).(pending) = MkDataMessage addr_a toy_hi :: ms →
  ((toy_tick_b (toy_arrive_b l)).(end_b)).(cancelled) = false →
  trace toy_step toy_actions l (toy_end l).
Proof.
  intros Hn Hs%bool_decide_eq_true [s Hk] Hp Hc. eapply trace_cons; [by eapply toy_arrive_step|].
  eapply trace_cons; [eapply toy_tick_step; [exact Hs|by rewrite Hk]|].
  eapply trace_cons; [by eapply toy_take_step|constructor].
Qed.

Lemma connection_refines_fifo_witness :
  ∃ q', trace (fifo_step addr_a addr_b) toy_actions
      (MkFifo [toy_hi] [] [] []) q' ∧
    line_carries (F := toy_kcp_link) addr_a addr_b 1 (toy_end toy_opened) q'.
Proof.
  apply (connection_refines_fifo (F := toy_kcp_link) toy_osA toy_osB (OLA := toy_os_laws addr_a)
    (OLB := toy_os_shifted_laws addr_b) toy_node_a toy_node_b
    addr_a addr_b (toy_os_ok addr_a) (λ n d to, eq_refl) 1 _ toy_opened).
  - exact (proj2 (opening_carries (F := toy_kcp_link) toy_osA toy_osB (OLA := toy_os_laws addr_a)
      toy_node_a toy_node_b addr_a addr_b (toy_os_ok addr_a) addr_b toy_hi
      KcpPeer.empty_world KcpPeer.empty_world eq_refl eq_refl (or_introl eq_refl) eq_refl eq_refl
      eq_refl eq_refl I)).
  - eapply toy_run; vm_compute; try eexists; reflexivity.
Defined.

Lemma messages_delivered_witness :
  let l := toy_end toy_opened in
  delivered [toy_hi] [toy_hi] l.(end_b).(pending) l.(net_ab).
Proof.
  refine (proj1 (proj2 (messages_delivered (F := toy_kcp_link) toy_osA toy_osB
    (OLA := toy_os_laws addr_a) (OLB := toy_os_shifted_laws addr_b) toy_node_a toy_node_b
    addr_a addr_b (toy_os_ok addr_a) (λ n d to, eq_refl) addr_b toy_hi KcpPeer.empty_world KcpPeer.empty_world
    eq_refl eq_refl eq_refl eq_refl eq_refl eq_refl eq_refl I)
    toy_actions (toy_end toy_opened) _)).
  eapply (toy_run toy_opened); vm_compute; try eexists; reflexivity.
Defined.

Lemma duplex_messages_delivered_witness :
  let l := toy_end toy_crossed in
  delivered [toy_hi] [toy_hi] l.(end_b).(pending) l.(net_ab) ∧
  delivered [[1; 2; 3]] [] l.(end_a).(pending) l.(net_ba).
Proof.
  refine (proj2 (proj2 (duplex_messages_delivered (F := toy_kcp_link) toy_osA toy_osB
    (OLA := toy_os_laws addr_a) (OLB := toy_os_shifted_laws addr_b) toy_node_a toy_node_b
    addr_a addr_b (toy_os_ok addr_a) (λ n d to, eq_refl) toy_hi [1; 2; 3]
    KcpPeer.empty_world KcpPeer.empty_world eq_refl eq_refl _
    eq_refl eq_refl eq_refl eq_refl eq_refl eq_refl I I _))
    toy_actions (toy_end toy_crossed) _).
  - vm_compute. discriminate.
  - vm_compute. discriminate.
  - eapply (toy_run toy_crossed); vm_compute; try eexists; reflexivity.
Defined.
