(* ===== verification/Ends.v ===== *)
(** * One end of a connection over a network that loses, repeats and reorders

    What a node that has other peers too, and of whose datagrams any may arrive
    never or any number of times, makes of one connection: its session, what it
    has said to the peer and the messages from it that wait, through every
    operation of the node, before, during and after the handshake. *)

From S2P Require Import Prelude Prog Packet Kcp Addr Errors Config World Session Transport.
From S2P Require Import Blind Incoming Effects Toy Invariant Tasks Isolation.
From S2P Require Import SessionSpec IncomingSpec TransportSpec Update UpdateSpec.
From S2P Require Import Endpoint Stream.
Open Scope prog_scope.

(** ** One end *)

Section End.
Context {K : KcpLib} {L : @KcpLaws K} {Str : KcpStream} {os : Os} {OL : OsLaws os}.
Context (self : KcpPeer) (writes_ok : writes_frames os).

(** What was sent to the peer after the first [n] datagrams of the node. *)
Definition said (n : nat) (peer : SocketAddr) (w : World) : list bytes :=
  dg_bytes <$> filter (λ d, canonicalize d.(dg_to) = canonicalize peer) (drop n w.(sent)).

(** The messages from the peer that wait to be received. *)
Definition inbox (peer : SocketAddr) (w : World) : list DataMessage :=
  filter (λ m, canonicalize m.(dm_peer) = canonicalize peer) w.(pending).

(** The datagrams of a connection: its handshake, under its id, and frames. *)
Definition genuine (conv : Z) (fs : list bytes) (dg : bytes) : Prop :=
  dg = encode_control Syn conv ∨ dg = encode_control SynAck conv ∨
  ∃ f, f ∈ fs ∧ dg = encode_kcp_data f.

(** One end of the connection: its session, what it has said and the messages
    in its queue. *)
Definition one_end (n : nat) (w : World) (peer : SocketAddr) (st : SessionState) (conv : Z)
    (k : kcp_t) (fs msgs : list bytes) : Prop :=
  endpoint w peer st conv k ∧ kcp_ready k = [] ∧ (st = SynSent → fs = []) ∧
  Forall (genuine conv fs) (said n peer w) ∧
  inbox peer w = MkDataMessage peer <$> msgs ∧ w.(cancelled) = false ∧
  (n ≤ length w.(sent))%nat ∧ well_filed w.

Lemma genuine_more conv fs fs' dg : genuine conv fs dg → genuine conv (fs ++ fs') dg.
Proof.
  intros [H|[H|(f & Hf & H)]]; [by left|by right; left|right; right].
  exists f. split; [|done]. apply elem_of_app. by left.
Qed.

Lemma genuine_frames conv fs : Forall (genuine conv fs) (encode_kcp_data <$> fs).
Proof.
  apply Forall_forall. intros dg (f & -> & Hf)%list_elem_of_fmap. right; right. by exists f.
Qed.

Lemma genuine_app conv fs fs' dgs :
  Forall (genuine conv fs) dgs → Forall (genuine conv (fs ++ fs')) (dgs ++ (encode_kcp_data <$> fs')).
Proof.
  intros H. apply Forall_app. split.
  - eapply Forall_impl; [exact H|]. intros. by apply genuine_more.
  - apply Forall_forall. intros dg (f & -> & Hf)%list_elem_of_fmap. right; right.
    exists f. split; [|done]. apply elem_of_app. by right.
Qed.

(** What an action about the peer sends, it sends to the peer. *)
Lemma said_touches n peer w w' :
  (n ≤ length w.(sent))%nat → touches (canonicalize peer) w w' →
  said n peer w' = said n peer w ++ sent_since w w' ∧ (n ≤ length w'.(sent))%nat.
Proof.
  intros Hn (_ & _ & _ & (ds & Hs & Hds) & _). rewrite (sent_since_app w w' ds Hs).
  unfold said. rewrite Hs, length_app, drop_app_le, filter_app, fmap_app by done.
  split; [|lia]. do 2 f_equal. clear Hs. induction Hds as [|d ds Hd Hds IH]; [done|].
  rewrite filter_cons_True by done. by f_equal.
Qed.

Lemma receive_touches peer dg w :
  well_filed w → let w' := receive self peer [dg] w in
  well_filed w' ∧ touches (canonicalize peer) w w'.
Proof.
  intros Hw. cbv zeta. rewrite receive_one. destruct (within_run _ _ _ w Hw
    (within_incoming (canonicalize peer) dg peer self.(kp_incarnation) self.(kp_config) w eq_refl))
    as (? & ? & _). by split.
Qed.

(** What was said may always be delivered. *)
Lemma said_grows n peer w w' ds dg :
  w'.(sent) = w.(sent) ++ ds → (n ≤ length w.(sent))%nat → dg ∈ said n peer w → dg ∈ said n peer w'.
Proof.
  intros Hs Hn Hdg. unfold said. rewrite Hs, drop_app_le, filter_app, fmap_app by done.
  apply elem_of_app. by left.
Qed.

(** Actions away from the peer change nothing at this end. *)
Lemma one_end_away n w w' peer st conv k fs msgs :
  one_end n w peer st conv k fs msgs → away (canonicalize peer) w w' → well_filed w' →
  one_end n w' peer st conv k fs msgs.
Proof.
  intros ((s & σ & Hs & Hσ & Hc & Hp & Hop & Hst & Hcv & Hk) & Hr & Hfs & Hsaid & Hin & Hcan & Hn & _)
    (Hs' & Hh & Hpend & (ds & Hsent & Hds) & _ & Hcan') Hw'.
  split_and!; [|done|done| | |congruence| |done].
  - exists s, σ. rewrite Hs'. split_and!; try done. apply Hh; [done|by rewrite Hp].
  - assert (said n peer w' = said n peer w) as ->; [|done].
    unfold said. rewrite Hsent, drop_app_le, filter_app, fmap_app by done.
    rewrite <- (app_nil_r (dg_bytes <$> _)) at 2. f_equal. clear Hsent.
    induction Hds as [|d ds Hd Hds IH]; [done|]. by rewrite filter_cons_False.
  - unfold inbox. by rewrite Hpend.
  - rewrite Hsent, length_app. lia.
Qed.

(** An action of this end about the peer: what it sends must be genuine. *)
Lemma one_end_step n w w' peer st st' conv k k' fs fs' msgs msgs' :
  one_end n w peer st conv k fs msgs →
  touches (canonicalize peer) w w' → well_filed w' →
  endpoint w' peer st' conv k' → kcp_ready k' = [] → (st' = SynSent → fs ++ fs' = []) →
  Forall (genuine conv (fs ++ fs')) (sent_since w w') →
  w'.(pending) = w.(pending) ++ (MkDataMessage peer <$> msgs') →
  one_end n w' peer st' conv k' (fs ++ fs') (msgs ++ msgs').
Proof.
  intros (_ & _ & _ & Hsaid & Hin & Hcan & Hn & _) HG Hw' He Hr Hfs Hnew Hp.
  destruct (said_touches n peer w w' Hn HG) as [Hs Hn'].
  split_and!; [done|done|done| | | |done|done].
  - rewrite Hs. apply Forall_app. split; [|done].
    eapply Forall_impl; [exact Hsaid|]. intros. by apply genuine_more.
  - unfold inbox. rewrite Hp, filter_app, fmap_app. f_equal; [exact Hin|].
    clear. induction msgs' as [|m l IH]; [done|]. rewrite fmap_cons, filter_cons_True by done.
    by f_equal.
  - destruct HG as (_ & _ & _ & _ & _ & _ & ->). done.
Qed.

(** A message received is taken from the head of the queue. *)
Lemma recv_takes polls m w w' :
  w.(cancelled) = false → run (KcpPeer.recv (S polls)) w = (Some (Ok m), w') →
  w.(pending) = m :: w'.(pending) ∧ w' = set_pending w'.(pending) w.
Proof.
  intros Hc Hrun. pose proof (recv_conserves_run (S polls) w) as Hcons.
  rewrite Hrun in Hcons. cbn [fst snd] in Hcons. split; [done|].
  rewrite recv_poll, Hc, Hcons in Hrun. by injection Hrun as <-.
Qed.

Lemma pending_same (w w' : World) peer :
  w'.(pending) = w.(pending) → w'.(pending) = w.(pending) ++ (MkDataMessage peer <$> []).
Proof. intros ->. by rewrite app_nil_r. Qed.

(** ** The operations of one end *)

(** [send]: the message is the connection's if and only if [send] says so. *)
Lemma end_send n peer st conv k b data fs ms y msgs w :
  one_end n w peer st conv k fs msgs → stream k b (fs, ms) y →
  let x := run (KcpPeer.send self peer data) w in
  ∃ k' fs', one_end n x.2 peer st conv k' (fs ++ fs') msgs ∧
    stream k' b (fs ++ fs', if is_ok x.1 then ms ++ [data] else ms) y.
Proof.
  intros Hend Hst. cbv zeta. pose proof Hend as (He & Hr & Hfs & _ & _ & _ & _ & Hw).
  destruct (within_run _ _ _ w Hw (within_send_peer (canonicalize peer) self peer data w eq_refl))
    as (Hw' & HG & _).
  destruct (send_step self writes_ok peer st conv k data w He) as [[Hq _] H].
  set (x := run (KcpPeer.send self peer data) w) in *.
  assert (Hstep : ∀ k' fs', endpoint x.2 peer st conv k' → kcp_ready k' = [] →
    (st = SynSent → fs' = []) → sent_since w x.2 = encode_kcp_data <$> fs' →
    one_end n x.2 peer st conv k' (fs ++ fs') msgs).
  { intros k' fs' He' Hr' Hs' Hsent. rewrite <- (app_nil_r msgs).
    apply (one_end_step n w x.2 peer st st conv k k' fs fs' msgs []); try done.
    - intros H0. by rewrite (Hfs H0), (Hs' H0).
    - rewrite Hsent. by apply (genuine_app conv fs fs' []).
    - by apply pending_same. }
  destruct H as [[_ Hx]|(_ & k1 & r & Hsend & H)].
  { exists k, []. split; [apply Hstep; rewrite ?Hx; [done..|by apply sent_since_same]|].
    rewrite Hx, app_nil_r. exact Hst. }
  destruct (stream_send _ _ _ _ _ _ _ _ Hst Hsend) as [Hr1 Hst1].
  destruct r as [m|e]; [|destruct H as (-> & Hs & He'); exists k1, []; split;
    [by apply Hstep; [|congruence|..]|by rewrite app_nil_r]].
  cbn [is_ok] in Hst1. destruct st.
  - destruct H as (-> & Hs & He'). exists k1, []. split;
      [by apply Hstep; [|congruence|..]|by rewrite app_nil_r].
  - destruct H as (t & H). destruct (stream_update _ _ _ _ _ t Hst1) as (Hu & _).
    destruct (stream_flush _ _ _ _ _ t Hst1) as (Hf & Hr2 & Hst2).
    destruct (H Hu) as (Hx & Hs & He'). rewrite Hf in Hx. rewrite Hx.
    exists (flushed t k1).1, (flushed t k1).2. split; [|exact Hst2].
    apply Hstep; [done| |done|done]. exact (eq_trans Hr2 (eq_trans Hr1 Hr)).
Qed.

(** A genuine datagram of the other end arrives, for the first time or again. *)
Lemma end_arrive n peer me st conv k b fs xs gs ms dg msgs w :
  os_local_addr = Ok me → u32_ok conv →
  one_end n w peer st conv k fs msgs → stream k b (fs, xs) (gs, ms) → genuine conv gs dg →
  let w' := receive self peer [dg] w in
  ∃ st' k' fs' ms1 ms2, ms = ms1 ++ ms2 ∧ (st = Established → st' = Established) ∧
    (dg = encode_control SynAck conv → st' = Established) ∧
    one_end n w' peer st' conv k' (fs ++ fs') (msgs ++ ms1) ∧
    stream k' b (fs ++ fs', xs) (gs, ms2).
Proof.
  intros Hme Hu Hend Hst Hdg. cbv zeta. pose proof Hend as (He & Hr & Hfs & _ & _ & _ & _ & Hw).
  destruct (receive_touches peer dg w Hw) as [Hw' HG].
  destruct Hdg as [->|[->|(f & Hf & ->)]].
  - destruct (syn_again self peer me st conv k w Hme Hu He) as ([Hp _] & He' & Hs).
    exists st, k, [], [], ms. rewrite app_nil_r. split_and!; [done|done| | |done].
    + intros H. apply (f_equal head) in H. done.
    + rewrite <- (app_nil_r fs). apply (one_end_step n w _ peer st st conv k k fs [] msgs []);
        try done; [|rewrite app_nil_r, Hs|by apply pending_same].
      * intros H. by rewrite app_nil_r, Hfs.
      * destruct st; [constructor|]. constructor; [by right; left|constructor].
  - destruct st.
    + destruct (ack_flushes self writes_ok peer conv k w Hu He) as (t & Hs & [Hp _] & He').
      destruct (stream_flush _ _ _ _ _ t Hst) as (_ & Hr' & Hst').
      exists Established, (flushed t k).1, (flushed t k).2, [], ms. split_and!; try done.
      apply (one_end_step n w _ peer SynSent Established conv k _ fs _ msgs []); try done.
      * exact (eq_trans Hr' Hr).
      * rewrite Hs. by apply (genuine_app conv fs _ []).
      * by apply pending_same.
    + rewrite (ack_again self peer conv conv k w He).
      exists Established, k, [], [], ms. rewrite !app_nil_r. by split_and!.
  - destruct (stream_input _ _ _ _ _ _ (stream_sym _ _ _ _ Hst) Hf)
      as (k1 & m & ms1 & ms2 & Hin & Hr1 & -> & Hst1).
    destruct (frame_received self (λ k', stream b k' (gs, ms2) (fs, xs)) peer st conv f k k1 m w He Hin)
      as (k' & Hr' & Hst' & He' & Hs & _ & Hp); [|done|].
    { intros buf k2 k3 m' n'. apply stream_recv. }
    exists st, k', [], ms1, ms2. rewrite !app_nil_r. split_and!; [done|done|discriminate| |].
    + rewrite <- (app_nil_r fs). apply (one_end_step n w _ peer st st conv k k' fs [] msgs ms1);
        try done; [by rewrite app_nil_r| |by rewrite Hp, Hr1, Hr].
      rewrite sent_since_same by done. constructor.
    + by apply stream_sym.
Qed.

(** The application takes a message of the peer, or of another. *)
Lemma end_recv polls m n peer st conv k fs msgs w w' :
  one_end n w peer st conv k fs msgs → run (KcpPeer.recv (S polls)) w = (Some (Ok m), w') →
  if decide (canonicalize m.(dm_peer) = canonicalize peer)
  then ∃ d msgs', msgs = d :: msgs' ∧ m = MkDataMessage peer d ∧
    one_end n w' peer st conv k fs msgs'
  else one_end n w' peer st conv k fs msgs.
Proof.
  intros (He & Hr & Hfs & Hs & Hin & Hc & Hn & Hw) Hrun.
  destruct (recv_takes polls m w w' Hc Hrun) as [Hcons Hw'].
  assert (Hrest : ∀ msgs', inbox peer w' = MkDataMessage peer <$> msgs' →
    one_end n w' peer st conv k fs msgs').
  { intros msgs' Hin'. rewrite Hw' in *. by split_and!. }
  unfold inbox in Hin. rewrite Hcons in Hin. case_decide as Hm.
  - rewrite filter_cons_True in Hin by done. destruct msgs as [|d msgs']; [done|].
    injection Hin as -> Hin. exists d, msgs'. split_and!; [done..|]. by apply Hrest.
  - rewrite filter_cons_False in Hin by done. by apply Hrest.
Qed.

(** A task about another peer. *)
Lemma end_other t p n peer st conv k fs msgs w :
  task_peer t = Some p → canonicalize p ≠ canonicalize peer →
  one_end n w peer st conv k fs msgs →
  one_end n (run (task_prog self t) w).2 peer st conv k fs msgs.
Proof.
  intros Ht Hne Hend. pose proof Hend as (_ & _ & _ & _ & _ & _ & _ & Hw).
  destruct (within_run _ _ _ w Hw (task_within self t p w Ht)) as (Hw' & HG & _).
  eapply one_end_away; [done|by eapply touches_away|done].
Qed.

(** A tick that keeps the session: the connection's frames may be sent again, or
    its SYN. *)
Lemma end_tick n peer st conv k b fs ms y msgs w :
  one_end n w peer st conv k fs msgs → stream k b (fs, ms) y →
  let w' := (run (update_tick self.(kp_config)) w).2 in
  w'.(sessions) !! canonicalize peer ≠ None →
  ∃ k' fs', one_end n w' peer st conv k' (fs ++ fs') msgs ∧ stream k' b (fs ++ fs', ms) y.
Proof.
  intros Hend Hst. cbv zeta. intros Hstay.
  pose proof Hend as ((s & σ & Hs & _) & _ & _ & _ & _ & _ & _ & Hw).
  destruct (tick_around self.(kp_config) (canonicalize peer) s w OL Hw Hs) as (Hw' & Hkeep).
  destruct (Hkeep Hstay) as (wa & now & now' & Hwa & Haway & Hb & Hwb & HG & Haway'). clear Hkeep.
  assert (Henda := one_end_away _ _ _ _ _ _ _ _ _ Hend Haway Hwa).
  pose proof Henda as ((s' & σa & Hsa & Hσa & Hc & Hp & Hop & Hsta & Hcv & Hk) & Hr & Hfs & _).
  assert (s' = s) as -> by (destruct Haway as [He _]; congruence).
  set (x := run (scan_session self.(kp_config) now now' s) wa) in *.
  cut (∃ k' fs', one_end n x.2 peer st conv k' (fs ++ fs') msgs ∧ stream k' b (fs ++ fs', ms) y).
  { intros (k' & fs' & He & ?). exists k', fs'. split; [|done]. by eapply one_end_away. }
  clear Hstay Haway Haway' Hend w Hw Hs Hw'. destruct st.
  - exists k, []. rewrite app_nil_r. split; [|done].
    destruct (scan_keeps_syn self.(kp_config) now now' s σa wa Hσa Hc Hsta Hb) as [Hx|Hx];
      fold x in Hx; [by rewrite Hx|].
    rewrite <- (app_nil_r fs), <- (app_nil_r msgs).
    apply (one_end_step n wa x.2 peer SynSent SynSent conv k k fs [] msgs []); try done.
    + exists s. eexists. rewrite Hx. split; [exact Hsa|]. split; [apply lookup_insert_eq|]. by split_and!.
    + intros H. by rewrite (Hfs H).
    + rewrite Hx. unfold sent_since, retry_world. cbn. rewrite drop_app_length.
      constructor; [left|constructor]. by rewrite Hcv.
    + apply pending_same. by rewrite Hx.
  - destruct (scan_keeps self.(kp_config) now now' s σa wa Hσa Hc Hsta Hb) as (_ & o & Ho & Hx).
    fold x in Hx. rewrite Hop in Ho. rewrite Hop, Hk in Hx.
    destruct (kio_trace_written writes_ok peer (length wa.(sent)) (kcp_update now k)) as [H1 H2].
    rewrite H1 in Hx. destruct (stream_update _ _ _ _ _ now Hst) as (_ & Hr' & Hst').
    eexists _, _. split; [|exact Hst']. rewrite <- (app_nil_r msgs).
    apply (one_end_step n wa x.2 peer Established Established conv k _ fs _ msgs []); try done.
    + exists s. eexists. rewrite Hx. split; [exact Hsa|]. split; [apply lookup_insert_eq|]. by split_and!.
    + exact (eq_trans Hr' Hr).
    + rewrite Hx, (sent_since_app _ _ (kio_trace peer (length wa.(sent)) (kcp_update now k)).2) by done.
      rewrite H2. by apply (genuine_app conv fs _ []).
    + apply pending_same. by rewrite Hx.
Qed.

(** ** Before the connection *)

(** The node has no session with the peer, and nothing from or for it. *)
Definition no_end (n : nat) (w : World) (peer : SocketAddr) : Prop :=
  w.(sessions) !! canonicalize peer = None ∧ said n peer w = [] ∧ inbox peer w = [] ∧
  w.(cancelled) = false ∧ (n ≤ length w.(sent))%nat ∧ well_filed w.

Lemma no_end_away n w w' peer :
  no_end n w peer → away (canonicalize peer) w w' → well_filed w' → no_end n w' peer.
Proof.
  intros (Hs & Hsaid & Hin & Hc & Hn & _) (Hs' & _ & Hp & (ds & Hsent & Hds) & _ & Hc') Hw'.
  split_and!; [congruence| |by unfold inbox; rewrite Hp|congruence| |done].
  - rewrite <- Hsaid. unfold said. rewrite Hsent, drop_app_le, filter_app, fmap_app by done.
    rewrite <- (app_nil_r (dg_bytes <$> _)) at 2. f_equal. clear Hsent.
    induction Hds as [|d ds Hd Hds IH]; [done|]. by rewrite filter_cons_False.
  - rewrite Hsent, length_app. lia.
Qed.

Lemma no_end_tick n w peer :
  no_end n w peer → no_end n (run (update_tick self.(kp_config)) w).2 peer.
Proof.
  intros H. pose proof H as (Hs & _ & _ & _ & _ & Hw).
  destruct (tick_away self.(kp_config) (canonicalize peer) w OL Hw Hs). by eapply no_end_away.
Qed.

Lemma no_end_other t p n peer w :
  task_peer t = Some p → canonicalize p ≠ canonicalize peer →
  no_end n w peer → no_end n (run (task_prog self t) w).2 peer.
Proof.
  intros Ht Hne H. pose proof H as (_ & _ & _ & _ & _ & Hw).
  destruct (within_run _ _ _ w Hw (task_within self t p w Ht)) as (Hw' & HG & _).
  eapply no_end_away; [done|by eapply touches_away|done].
Qed.

Lemma no_end_recv polls m n peer w w' :
  no_end n w peer → run (KcpPeer.recv (S polls)) w = (Some (Ok m), w') →
  canonicalize m.(dm_peer) ≠ canonicalize peer ∧ no_end n w' peer.
Proof.
  intros (Hs & Hsaid & Hin & Hc & Hn & Hw) Hrun.
  destruct (recv_takes polls m w w' Hc Hrun) as [Hcons Hw'].
  unfold inbox in Hin. rewrite Hcons in Hin.
  destruct (decide (canonicalize m.(dm_peer) = canonicalize peer)).
  - by rewrite filter_cons_True in Hin.
  - rewrite filter_cons_False in Hin by done. split; [done|]. rewrite Hw' in *. by split_and!.
Qed.

(** A datagram of a connecting peer: its SYN makes a session. *)
Lemma no_end_arrive n peer me conv dg w :
  os_local_addr = Ok me → u32_ok conv → no_end n w peer → genuine conv [] dg →
  let w' := receive self peer [dg] w in
  no_end n w' peer ∨
  one_end n w' peer Established conv (apply_to self.(kp_config) (kcp_new conv)) [] [].
Proof.
  intros Hme Hu H Hdg. cbv zeta. pose proof H as (Hs & Hsaid & Hin & Hc & Hn & Hw).
  destruct Hdg as [->|[->|(f & Hf & _)]]; [right|left|by apply elem_of_nil in Hf].
  - destruct (syn_accepted self peer conv me w Hme Hu Hs) as (Hsent & [Hp Hc'] & He).
    set (w' := receive self peer [encode_control Syn conv] w) in *.
    destruct (receive_touches peer (encode_control Syn conv) w Hw) as [Hw' HG]. fold w' in Hw', HG.
    destruct (said_touches n peer w w' Hn HG) as [Hs' Hn'].
    split_and!; [done|apply stream_new_ready|done| | |congruence|done|done].
    + rewrite Hs', Hsaid, Hsent. constructor; [by right; left|constructor].
    + unfold inbox in *. by rewrite Hp.
  - rewrite receive_one. pose proof (syn_ack_spec_run (encode_control SynAck conv)
      (to_le_bytes conv) peer self.(kp_incarnation) self.(kp_config) w (split_control _ _) ltac:(done))
      as Hack.
    rewrite Hs in Hack. by rewrite Hack.
Qed.

(** The connection's SYN is acknowledged, the first time and again. *)
Lemma end_acknowledges n peer me conv w :
  os_local_addr = Ok me → u32_ok conv →
  no_end n w peer ∨ (∃ k fs msgs, one_end n w peer Established conv k fs msgs) →
  let w' := receive self peer [encode_control Syn conv] w in
  encode_control SynAck conv ∈ said n peer w' ∧ ∃ k, endpoint w' peer Established conv k.
Proof.
  intros Hme Hu H.
  assert (Hn : (n ≤ length w.(sent))%nat ∧ well_filed w).
  { destruct H as [(_ & _ & _ & _ & ? & ?)|(? & ? & ? & _ & _ & _ & _ & _ & _ & ? & ?)]; by split. }
  destruct Hn as [Hn Hw]. cbv zeta.
  destruct (receive_touches peer (encode_control Syn conv) w Hw) as [_ HG].
  destruct (said_touches n peer _ _ Hn HG) as [-> _].
  destruct H as [(Hs & _)|(k & fs & msgs & He & _)].
  - destruct (syn_accepted self peer conv me w Hme Hu Hs) as (-> & _ & ?).
    split; [|by eexists]. apply elem_of_app. right. by left.
  - destruct (syn_again self peer me Established conv k w Hme Hu He) as (_ & ? & ->).
    split; [|by eexists]. apply elem_of_app. right. by left.
Qed.

(** The acknowledgement connects the node that has asked. *)
Lemma ack_connects peer st conv k w :
  u32_ok conv → endpoint w peer st conv k →
  ∃ k', endpoint (receive self peer [encode_control SynAck conv] w) peer Established conv k'.
Proof.
  intros Hu He. destruct st.
  - destruct (ack_flushes self writes_ok peer conv k w Hu He) as (t & _ & _ & ?). by eexists.
  - rewrite (ack_again self peer conv conv k w He). by exists k.
Qed.

(** The session of the first [send] to a peer: its SYN is under way. *)
Lemma end_initiated peer w :
  no_end (length w.(sent)) w peer → u32_ok (os_rand w.(nrand)) →
  let conv := os_rand w.(nrand) in
  let w0 := initiated_world self peer w in
  sent_since w w0 = [encode_control Syn conv] ∧
  one_end (length w.(sent)) w0 peer SynSent conv (apply_to self.(kp_config) (kcp_new conv)) [] [].
Proof.
  intros (Hs & Hsaid & Hin & Hc & Hn & Hw) Hu. cbv zeta.
  pose proof (run_initiate self peer w Hs) as Hrun.
  destruct (within_run _ _ _ w Hw (within_initiate (canonicalize peer) self peer w eq_refl))
    as (Hw0 & HG & _).
  destruct (blind_keeps _ w (blind_initiate self peer)) as [Hp Hc0]. rewrite Hrun in *. cbn [snd] in *.
  pose proof (send_auto_initiates_run self peer [] w) as H. rewrite Hs in H. cbv zeta in H.
  destruct H as (_ & Hm & Hsent & _ & σ & Hh & Hst & Hcv & Hpeer & Hcl & _ & Hk & Ho).
  set (w0 := initiated_world self peer w) in *.
  assert (Hsyn : sent_since w w0 = [encode_control Syn (os_rand w.(nrand))])
    by exact (sent_since_app w w0 _ Hsent).
  destruct (said_touches _ peer w w0 Hn HG) as [Hs0 Hn0].
  split; [done|]. split_and!; [|apply stream_new_ready|done| | |congruence|done|done].
  - exists w.(next), σ. rewrite Hm, Hh. split_and!; try done; apply lookup_insert_eq.
  - rewrite Hs0, Hsaid, Hsyn. constructor; [by left|constructor].
  - unfold inbox. by rewrite Hp.
Qed.

Lemma end_opens peer data cfg w :
  no_end (length w.(sent)) w peer → u32_ok (os_rand w.(nrand)) →
  let conv := os_rand w.(nrand) in
  let x := run (KcpPeer.send self peer data) w in
  ∃ k, one_end (length w.(sent)) x.2 peer SynSent conv k [] [] ∧
    stream k (apply_to cfg (kcp_new conv)) ([], if is_ok x.1 then [data] else []) ([], []) ∧
    encode_control Syn conv ∈ said (length w.(sent)) peer x.2.
Proof.
  intros Hno Hu. cbv zeta. destruct (end_initiated peer w Hno Hu) as [Hsyn Hend].
  destruct Hno as (Hs & Hsaid & _ & _ & Hn & Hw). pose proof (send_auto_initiates_run self peer data w) as H.
  rewrite Hs in H. cbv zeta in H. destruct H as (Hrun & Hm & _).
  set (w0 := initiated_world self peer w) in *. set (conv := os_rand w.(nrand)) in *.
  pose proof (send_auto_initiates_run self peer data w0) as Hrun0.
  rewrite Hm, lookup_insert_eq in Hrun0. rewrite Hrun, <- Hrun0.
  destruct (end_send (length w.(sent)) peer SynSent conv _ _ data [] [] ([], []) [] w0 Hend
    (stream_new self.(kp_config) cfg conv Hu)) as (k & fs & He & Hst).
  pose proof He as (_ & _ & Hfs & _). cbn [app] in *. rewrite (Hfs eq_refl) in *. exists k. split_and!; [done|done|].
  pose proof Hend as (_ & _ & _ & _ & _ & _ & Hn0 & Hw0).
  destruct (within_run _ _ _ w0 Hw0 (within_send_peer (canonicalize peer) self peer data w0 eq_refl))
    as (_ & (_ & _ & _ & (ds & Hds & _) & _) & _).
  eapply said_grows; [exact Hds|exact Hn0|].
  destruct (within_run _ _ _ w Hw (within_initiate (canonicalize peer) self peer w eq_refl))
    as (_ & HG & _).
  rewrite (run_initiate self peer w Hs) in HG. cbn [snd] in HG. fold w0 in HG.
  destruct (said_touches _ peer w w0 Hn HG) as [-> _]. rewrite Hsyn. apply elem_of_app. right. by left.
Qed.

Lemma said_all w peer : said (length w.(sent)) peer w = [].
Proof. unfold said. by rewrite drop_all. Qed.

(** Both sides send, and the node is handed the other's SYN: it is connected
    under the id that both keep, and its message is on the way. From where on
    what it says is of the connection: its own SYN is when its id is kept. *)
Lemma end_crosses peer me theirs data w :
  let mine := os_rand w.(nrand) in
  os_local_addr = Ok me → u32_ok theirs → u32_ok mine → mine ≠ theirs →
  no_end (length w.(sent)) w peer →
  let x := run (KcpPeer.send self peer data) w in
  x.1 = Ok tt →
  let kept := if addr_gt peer me then theirs else mine in
  let from := if addr_gt peer me then length x.2.(sent) else length w.(sent) in
  let w' := receive self peer [encode_control Syn theirs] x.2 in
  ∃ k t n, kcp_send data (apply_to self.(kp_config) (kcp_new kept)) = KRet (k, Ok n) ∧
    (kcp_ready (flushed t k).1 = [] →
     one_end from w' peer Established kept (flushed t k).1 (flushed t k).2 []).
Proof.
  cbv zeta. intros Hme Hut Hum Hne Hno. destruct (end_initiated peer w Hno Hum) as [_ Hend].
  destruct (end_opens peer data self.(kp_config) w Hno Hum) as (k0 & Hx & _ & _).
  destruct Hno as (Hs & _). pose proof (send_auto_initiates_run self peer data w) as H.
  rewrite Hs in H. cbv zeta in H. destruct H as (Hrun & Hm & _).
  set (w0 := initiated_world self peer w) in *. set (mine := os_rand w.(nrand)) in *.
  pose proof (send_auto_initiates_run self peer data w0) as Hrun0.
  rewrite Hm, lookup_insert_eq in Hrun0. rewrite <- Hrun0 in Hrun. rewrite Hrun in *.
  destruct (send_step self writes_ok peer SynSent mine _ data w0 (proj1 Hend))
    as [_ [[_ Hd]|(_ & k & r & Hk & H)]]; [by rewrite Hd|].
  set (x := run (KcpPeer.send self peer data) w0) in *. intros Hok.
  destruct r as [n|e]; [|destruct H as [H _]; congruence]. destruct H as (_ & _ & He).
  set (kept := if addr_gt peer me then theirs else mine).
  destruct (tie_break_flushes self writes_ok peer me mine theirs k x.2 Hme Hut Hne He)
    as (t & Hsent & [Hp Hc] & He').
  fold kept in Hsent, He'. set (k1 := if addr_gt peer me then _ else _) in Hsent, He'.
  assert (∃ n', kcp_send data (apply_to self.(kp_config) (kcp_new kept)) = KRet (k1, Ok n')) as [n' Hk1].
  { unfold kept, k1. destruct (addr_gt peer me); [by apply (stream_set_conv _ mine _ _ _ n)|by exists n]. }
  exists k1, t, n'. split; [done|]. intros Hr.
  destruct Hx as (_ & _ & _ & Hgen0 & Hin & Hcan & Hn0 & Hw).
  destruct (receive_touches peer (encode_control Syn theirs) x.2 Hw) as [Hw' HG].
  assert (Hbefore : let from := if addr_gt peer me then length x.2.(sent) else length w.(sent) in
    (from ≤ length x.2.(sent))%nat ∧ Forall (genuine kept []) (said from peer x.2)).
  { unfold kept. destruct (addr_gt peer me); cbv zeta; [by rewrite said_all|by split]. }
  destruct Hbefore as [Hle Hgen]. set (from := if addr_gt peer me then length _ else length _) in *.
  destruct (said_touches from peer _ _ Hle HG) as [Hsaid Hn'].
  split_and!; [done|done|done| | |congruence|done|done].
  - rewrite Hsaid, Hsent. repeat apply Forall_app_2.
    + eapply Forall_impl; [exact Hgen|]. intros dg. by apply (genuine_more _ []).
    + by apply genuine_frames.
    + constructor; [by right; left|constructor].
  - unfold inbox in *. by rewrite Hp.
Qed.
(** Nothing waits to be acknowledged, as [stats] sees it. *)
Definition acked (w : World) (peer : SocketAddr) : Prop :=
  ∃ st w', run (KcpPeer.stats peer) w = (Some st, w') ∧ st.(st_wait_snd) = 0.

Lemma acked_endpoint w peer st cv k :
  endpoint w peer st cv k → acked w peer → kcp_wait_snd k = 0.
Proof.
  intros (s & σ & Hs & Hσ & Hc & _ & _ & _ & _ & <-) (x & w' & Hx & H0).
  rewrite stats_spec, Hs in Hx. cbv zeta in Hx. rewrite (lookup_total_correct _ _ _ Hσ), Hc in Hx.
  by injection Hx as <- _.
Qed.

End End.
