(* ===== verification/Lossy.v ===== *)
(** * A connection over a network that loses, repeats and reorders

    Two nodes with other peers of their own, and a network that may deliver any
    datagram of their connection never, or any number of times, in any order.
    From the first message on, through a handshake whose packets may be lost and
    are sent again, and for as long as both keep their session, the two nodes
    still refine two queues of messages: each comes out once and in order, and
    when the sender's KCP waits for nothing any more, all of them have.  A tick
    that gives the session up, a [disconnect] or a [shutdown] ends a run, and so
    does what would cross the handshake (a [send] of B before A's SYN arrives);
    the simultaneous handshake has a theorem of its own, and Goodbye.v says what
    follows a [disconnect]. *)

From S2P Require Import Prelude Prog Packet Kcp Addr Errors Config World Session Transport.
From S2P Require Import Blind Incoming Effects Toy Invariant Tasks Isolation.
From S2P Require Import SessionSpec IncomingSpec TransportSpec Update UpdateSpec.
From S2P Require Import Endpoint Stream Ends Fifo.
Open Scope prog_scope.

(** ** The connection *)

Section Connection.
Context {K : KcpLib} {L : @KcpLaws K} {Str : KcpStream} (osA osB : Os).
Context {OLA : OsLaws osA} {OLB : OsLaws osB}.
Context (a b : KcpPeer) (addrA addrB : SocketAddr).
Context (okA : socket_ok osA) (okB : socket_ok osB).

(** How many datagrams the nodes had sent when the connection began: what they
    said before is not delivered any more. *)
Context (nA nB : nat).

(** One node acts, the other does not; [x] and [y] are the actions of its own
    application. A node sends to the other (only if it has a session with it)
    and [send] may refuse; a datagram that the other has said arrives; the
    application receives, from whatever peer; the update task ticks and keeps
    the session; something is done about another peer. *)
Inductive end_step (os : Os) (self : KcpPeer) (peer : SocketAddr) (heard : list bytes)
    (send : bytes → Action) (arrive : Action) (recv : DataMessage → Action) (tick : Action) :
    Action → World → World → Prop :=
  | step_send data w :
      is_Some (w.(sessions) !! canonicalize peer) →
      let x := run (KcpPeer.send (os := os) self peer data) w in
      end_step os self peer heard send arrive recv tick
        (if is_ok x.1 then send data else Quiet) w x.2
  | step_arrive dg w :
      dg ∈ heard →
      end_step os self peer heard send arrive recv tick arrive w
        (receive (os := os) self peer [dg] w)
  | step_recv polls m w w' :
      run (KcpPeer.recv (S polls)) w = (Some (Ok m), w') →
      end_step os self peer heard send arrive recv tick
        (if decide (canonicalize m.(dm_peer) = canonicalize peer) then recv m else Quiet) w w'
  | step_tick w :
      let w' := (run (update_tick (os := os) self.(kp_config)) w).2 in
      w'.(sessions) !! canonicalize peer = w.(sessions) !! canonicalize peer →
      end_step os self peer heard send arrive recv tick tick w w'
  | step_other t p w :
      task_peer t = Some p → canonicalize p ≠ canonicalize peer →
      end_step os self peer heard send arrive recv tick Quiet w
        (run (task_prog (os := os) self t) w).2.

(** What it does to the queues: to the peer, from the peer, received. *)
Inductive half_step (peer : SocketAddr) (send : bytes → Action) (arrive : Action)
    (recv : DataMessage → Action) (tick : Action) :
    Action → list bytes * list bytes * list bytes → list bytes * list bytes * list bytes → Prop :=
  | half_send d ms ns q :
      half_step peer send arrive recv tick (send d) (ms, ns, q) (ms ++ [d], ns, q)
  | half_arrive ms ns1 ns q :
      half_step peer send arrive recv tick arrive (ms, ns1 ++ ns, q) (ms, ns, q ++ ns1)
  | half_recv d ms ns q :
      half_step peer send arrive recv tick (recv (MkDataMessage peer d)) (ms, ns, d :: q) (ms, ns, q)
  | half_tick q : half_step peer send arrive recv tick tick q q
  | half_quiet q : half_step peer send arrive recv tick Quiet q q.

Inductive lossy_step : Action → World * World → World * World → Prop :=
  | lossy_a x wA wA' wB :
      end_step osA a addrB (said nB addrA wB) SendA ArriveA RecvA TickA x wA wA' →
      lossy_step x (wA, wB) (wA', wB)
  | lossy_b x wA wB wB' :
      end_step osB b addrA (said nA addrB wA) SendB ArriveB RecvB TickB x wB wB' →
      lossy_step x (wA, wB) (wA, wB').
Hint Constructors half_step : core.

(** An open end acts: its side of the queues does as it should. *)
Lemma open_end_step (os : Os) {OL : OsLaws os} self peer me n heard send arrive recv tick
    x w w' st conv k k2 fs gs ms ns msgs :
  writes_frames os → os_local_addr (Os := os) = Ok me → u32_ok conv →
  one_end n w peer st conv k fs msgs → stream k k2 (fs, ms) (gs, ns) →
  Forall (genuine conv gs) heard →
  end_step os self peer heard send arrive recv tick x w w' →
  ∃ st' k' fs' ms' ns' msgs',
    one_end n w' peer st' conv k' (fs ++ fs') msgs' ∧
    stream k' k2 (fs ++ fs', ms') (gs, ns') ∧ (st = Established ∨ heard = [] → st' = st) ∧
    half_step peer send arrive recv tick x (ms, ns, msgs) (ms', ns', msgs').
Proof.
  intros Hwr Hme Hu He Hst Hheard Hx.
  destruct Hx as [data w _ r|dg w Hdg|polls m w w' Hrun|w r Hstay|t p w Ht Hne].
  - destruct (end_send (os := os) self Hwr _ _ _ _ _ _ data _ _ _ _ _ He Hst) as (k' & fs' & He' & Hst').
    fold r in He', Hst'. eexists st, k', fs', _, ns, msgs. split_and!; [exact He'|exact Hst'|done|].
    by destruct (is_ok r.1).
  - destruct (end_arrive (os := os) self Hwr _ _ me _ _ _ _ _ _ _ _ dg _ _ Hme Hu He Hst
      (proj1 (Forall_forall _ _) Hheard _ Hdg))
      as (st' & k' & fs' & ms1 & ms2 & -> & Hest & _ & He' & Hst').
    eexists st', k', fs', ms, ms2, _. split_and!; [exact He'|exact Hst'| |done].
    intros [->| ->]; [by apply Hest|by apply elem_of_nil in Hdg].
  - pose proof (end_recv _ _ _ _ _ _ _ _ _ _ _ He Hrun) as H.
    case_decide as Hm.
    + destruct H as (d & msgs' & -> & -> & He'). exists st, k, [], ms, ns, msgs'. rewrite app_nil_r.
      split_and!; [exact He'|exact Hst|done|done].
    + exists st, k, [], ms, ns, msgs. rewrite app_nil_r. split_and!; [exact H|exact Hst|done|done].
  - assert (Hsome : r.(sessions) !! canonicalize peer ≠ None).
    { rewrite Hstay. destruct He as ((s & σ & -> & _) & _). done. }
    destruct (end_tick (os := os) self Hwr _ _ _ _ _ _ _ _ _ _ _ He Hst Hsome) as (k' & fs' & He' & Hst').
    exists st, k', fs', ms, ns, msgs. split_and!; [exact He'|exact Hst'|done|done].
  - exists st, k, [], ms, ns, msgs. rewrite app_nil_r.
    split_and!; [by eapply end_other|exact Hst|done|done].
Qed.

(** Both ends are there; A may not know yet that it is connected. *)
Definition linked (conv : Z) (st : SessionState) (c : World * World) (q : Fifo) : Prop :=
  ∃ kA kB fs gs,
    one_end nA c.1 addrB st conv kA fs q.(at_end_a) ∧
    one_end nB c.2 addrA Established conv kB gs q.(at_end_b) ∧
    stream kA kB (fs, q.(to_b)) (gs, q.(to_a)).

(** A has sent, and no SYN has reached B yet. *)
Definition opening (conv : Z) (c : World * World) (q : Fifo) : Prop :=
  ∃ ms k, q = MkFifo ms [] [] [] ∧ one_end nA c.1 addrB SynSent conv k [] [] ∧
    no_end nB c.2 addrA ∧ stream k (apply_to b.(kp_config) (kcp_new conv)) ([], ms) ([], []).

(** The connection that A opens under [conv] carries the messages of [q]. *)
Definition lossy_carries (conv : Z) (c : World * World) (q : Fifo) : Prop :=
  opening conv c q ∨ ∃ st, linked conv st c q.

Context (meA meB : SocketAddr) (conv : Z).
Context (HmeA : os_local_addr (Os := osA) = Ok meA) (HmeB : os_local_addr (Os := osB) = Ok meB).
Context (Hconv : u32_ok conv).

Lemma half_fifo_a x ab ba ia ib ab' ba' ia' :
  half_step addrB SendA ArriveA RecvA TickA x (ab, ba, ia) (ab', ba', ia') →
  fifo_step addrA addrB x (MkFifo ab ba ia ib) (MkFifo ab' ba' ia' ib).
Proof. inversion 1; subst; constructor. Qed.

Lemma half_fifo_b x ab ba ia ib ab' ba' ib' :
  half_step addrA SendB ArriveB RecvB TickB x (ba, ab, ib) (ba', ab', ib') →
  fifo_step addrA addrB x (MkFifo ab ba ia ib) (MkFifo ab' ba' ia ib').
Proof. inversion 1; subst; constructor. Qed.

Lemma linked_step st x c c' q :
  linked conv st c q → lossy_step x c c' →
  ∃ st' q', fifo_step addrA addrB x q q' ∧ linked conv st' c' q' ∧
    (st = Established → st' = Established).
Proof.
  destruct q as [ab ba ia ib]. intros (kA & kB & fs & gs & HeA & HeB & Hst) Hx.
  cbn [to_b to_a at_end_a at_end_b] in *.
  destruct Hx as [x wA wA' wB Hx|x wA wB wB' Hx]; cbn [fst snd] in *.
  - pose proof HeB as (_ & _ & _ & Hheard & _).
    destruct (open_end_step osA _ _ _ _ _ _ _ _ _ _ _ _ _ _ _ _ _ _ _ _ _ (socket_writes _ okA) HmeA Hconv HeA Hst Hheard Hx)
      as (st' & k' & fs' & ms' & ns' & msgs' & HeA' & Hst' & Hest & Hhalf).
    exists st', (MkFifo ms' ns' msgs' ib). split_and!; [by apply half_fifo_a| |].
    + by exists k', kB, (fs ++ fs'), gs.
    + intros ->. apply Hest. by left.
  - pose proof HeA as (_ & _ & _ & Hheard & _).
    destruct (open_end_step osB _ _ _ _ _ _ _ _ _ _ _ _ _ _ _ _ _ _ _ _ _ (socket_writes _ okB) HmeB Hconv HeB
      (stream_sym _ _ _ _ Hst) Hheard Hx)
      as (st' & k' & gs' & ms' & ns' & msgs' & HeB' & Hst' & Hest & Hhalf).
    exists st, (MkFifo ns' ms' ia msgs'). split_and!; [by apply half_fifo_b| |done].
    rewrite Hest in HeB' by (by left). exists kA, k', fs, (gs ++ gs').
    cbn [to_b to_a at_end_a at_end_b fst snd]. split_and!; [done|done|by apply stream_sym].
Qed.

(** Nobody but a SYN makes a connection: the node that has none only waits. *)
Lemma no_end_step (os : Os) {OL : OsLaws os} self peer me n heard send arrive recv tick x w w' :
  os_local_addr (Os := os) = Ok me → no_end n w peer → Forall (genuine conv []) heard →
  end_step os self peer heard send arrive recv tick x w w' →
  (x = Quiet ∨ x = tick ∨ x = arrive) ∧ (no_end n w' peer ∨ x = arrive ∧
   one_end n w' peer Established conv (apply_to self.(kp_config) (kcp_new conv)) [] []).
Proof.
  intros Hme Hno Hheard Hx.
  destruct Hx as [data w Hs r|dg w Hdg|polls m w w' Hrun|w r Hstay|t p w Ht Hne].
  - destruct Hno as (Hn & _). rewrite Hn in Hs. by destruct Hs.
  - split; [tauto|]. destruct (no_end_arrive (os := os) self n peer me conv dg w Hme Hconv Hno
      (proj1 (Forall_forall _ _) Hheard _ Hdg)); tauto.
  - destruct (no_end_recv _ _ _ _ _ _ Hno Hrun) as [Hm Hno']. rewrite decide_False by done. tauto.
  - split; [tauto|]. left. by apply no_end_tick.
  - split; [tauto|]. left. by eapply no_end_other.
Qed.

Lemma opening_step x c c' q :
  opening conv c q → lossy_step x c c' →
  ∃ q', fifo_step addrA addrB x q q' ∧ lossy_carries conv c' q'.
Proof.
  intros (ms & k & -> & HeA & Hno & Hst) Hx.
  destruct Hx as [x wA wA' wB Hx|x wA wB wB' Hx]; cbn [fst snd] in *.
  - pose proof Hno as (_ & Hsaid & _). rewrite Hsaid in Hx.
    destruct (open_end_step osA _ _ _ _ _ _ _ _ _ _ _ _ _ _ _ _ _ _ _ _ _ (socket_writes _ okA) HmeA Hconv HeA Hst
      (Forall_nil_2 _) Hx) as (st' & k' & fs' & ms' & ns' & msgs' & HeA' & Hst' & Hest & Hhalf).
    rewrite Hest in HeA' by (by right). cbn [app] in *.
    pose proof HeA' as (_ & _ & Hfs & _). rewrite (Hfs eq_refl) in *.
    assert (ns' = [] ∧ msgs' = []) as [-> ->].
    { inversion Hhalf; subst; try done.
      match goal with H : _ ++ _ = [] |- _ => by apply app_eq_nil in H as [-> ->] end. }
    exists (MkFifo ms' [] [] []). split; [by apply half_fifo_a|].
    left. by exists ms', k'.
  - pose proof HeA as (_ & _ & _ & Hheard & _).
    destruct (no_end_step osB _ _ _ _ _ _ _ _ _ _ _ _ HmeB Hno Hheard Hx) as [Hact H].
    exists (MkFifo ms [] [] []). split.
    { destruct Hact as [->|[->| ->]]; [constructor..|].
      exact (fifo_arrive_b _ _ [] ms [] [] []). }
    destruct H as [H|[_ H]]; [left; by exists ms, k|right].
    by exists SynSent, k, (apply_to b.(kp_config) (kcp_new conv)), [], [].
Qed.

Lemma lossy_step_refines x c c' q :
  lossy_carries conv c q → lossy_step x c c' →
  ∃ q', fifo_step addrA addrB x q q' ∧ lossy_carries conv c' q'.
Proof.
  intros [H|[st H]] Hx; [by eapply opening_step|].
  destruct (linked_step _ _ _ _ _ H Hx) as (st' & q' & Hq & H' & _). exists q'. split; [done|].
  right. by exists st'.
Qed.

Lemma lossy_trace_refines xs c c' q :
  lossy_carries conv c q → trace lossy_step xs c c' →
  ∃ q', trace (fifo_step addrA addrB) xs q q' ∧ lossy_carries conv c' q'.
Proof.
  intros Hc Hx. revert q Hc. induction Hx as [c|x xs c c1 c2 Hx _ IH]; intros q Hc.
  - exists q. split; [constructor|done].
  - destruct (lossy_step_refines _ _ _ _ Hc Hx) as (q1 & Hq1 & Hc1).
    destruct (IH q1 Hc1) as (q2 & Hq2 & Hc2). exists q2. split; [by econstructor|done].
Qed.
(** ** The handshake *)

Lemma end_step_says (os : Os) {OL : OsLaws os} self peer n heard send arrive recv tick x w w'
    st cv k fs msgs dg :
  one_end n w peer st cv k fs msgs → end_step os self peer heard send arrive recv tick x w w' →
  dg ∈ said n peer w → dg ∈ said n peer w'.
Proof.
  intros ((s & σ & Hs & _) & _ & _ & _ & _ & Hc & Hn & Hw) Hx Hdg.
  assert (∃ ds, w'.(sent) = w.(sent) ++ ds) as [ds Hds]; [|by eapply said_grows].
  destruct Hx as [data w _ r|dg' w _|polls m w w' Hrun|w r Hstay|t p w Ht Hne].
  - destruct (within_run _ _ _ w Hw (within_send_peer (os := os) (canonicalize peer) self peer data w eq_refl))
      as (_ & (_ & _ & _ & (ds & Hds & _) & _) & _). by exists ds.
  - destruct (receive_touches (os := os) self peer dg' w Hw) as [_ (_ & _ & _ & (ds & Hds & _) & _)].
    by exists ds.
  - destruct (recv_takes polls m w w' Hc Hrun) as [_ ->]. exists []. by rewrite app_nil_r.
  - destruct (tick_around (os := os) self.(kp_config) (canonicalize peer) s w OL Hw Hs) as (_ & H).
    destruct H as (wa & now & now' & _ & (_ & _ & _ & (ds1 & H1 & _) & _) & _ & _ &
      (_ & _ & _ & (ds2 & H2 & _) & _) & (_ & _ & _ & (ds3 & H3 & _) & _)); [fold r; by rewrite Hstay, Hs|].
    fold r in H3. exists (ds1 ++ ds2 ++ ds3). by rewrite H3, H2, H1, !app_assoc.
  - destruct (within_run _ _ _ w Hw (task_within (os := os) self t p w Ht))
      as (_ & (_ & _ & _ & (ds & Hds & _) & _) & _). by exists ds.
Qed.
(** A's end is always there. *)
Lemma lossy_end c q :
  lossy_carries conv c q →
  (∃ st k fs msgs, one_end nA c.1 addrB st conv k fs msgs) ∧
  (no_end nB c.2 addrA ∨ ∃ k fs msgs, one_end nB c.2 addrA Established conv k fs msgs).
Proof.
  intros [(ms & k & _ & H & ? & _)|(st & k & k' & fs & gs & H & H' & _)]; (split; [by eexists _, _, _, _|]).
  - by left.
  - right. by eexists _, _, _.
Qed.

Lemma lossy_says dg xs c c' q :
  lossy_carries conv c q → trace lossy_step xs c c' →
  dg ∈ said nA addrB c.1 → dg ∈ said nA addrB c'.1.
Proof.
  intros Hc Hx. revert q Hc. induction Hx as [c|x xs c c1 c2 Hx _ IH]; intros q Hc Hdg; [done|].
  destruct (lossy_step_refines _ _ _ _ Hc Hx) as (q1 & _ & Hc1). apply (IH q1 Hc1). clear IH Hc1.
  destruct (lossy_end _ _ Hc) as [(st & k & fs & msgs & HA) _].
  destruct Hx as [x wA wA' wB Hx|]; [|done]. cbn [fst] in *.
  eapply (end_step_says osA); [exact HA|exact Hx|exact Hdg].
Qed.

(** From any state of the connection, two datagrams make it open. *)
Lemma lossy_opens c q :
  lossy_carries conv c q → encode_control Syn conv ∈ said nA addrB c.1 →
  ∃ c', trace lossy_step [ArriveB; ArriveA] c c' ∧
    (∃ k, endpoint c'.1 addrB Established conv k) ∧ ∃ k, endpoint c'.2 addrA Established conv k.
Proof.
  intros Hc Hsyn. destruct (lossy_end _ _ Hc) as [(st & k & fs & msgs & (HA & _)) HB].
  destruct c as [wA wB]. cbn [fst snd] in *.
  destruct (end_acknowledges (os := osB) b nB addrA meB conv wB HmeB Hconv HB) as [Hack HeB].
  exists (receive (os := osA) a addrB [encode_control SynAck conv] wA,
    receive (os := osB) b addrA [encode_control Syn conv] wB).
  split_and!; [|by apply (ack_connects (os := osA) a (socket_writes _ okA) addrB st conv k)|done].
  econstructor; [apply lossy_b; by apply step_arrive|].
  econstructor; [apply lossy_a; by apply step_arrive|constructor].
Qed.

Lemma lossy_acked c q :
  lossy_carries conv c q →
  (acked (os := osA) c.1 addrB → q.(to_b) = []) ∧ (acked (os := osB) c.2 addrA → q.(to_a) = []).
Proof.
  intros [(ms & k & -> & (He & _) & _ & Hst)|(st & k & k' & fs & gs & (He & _) & (He' & _) & Hst)].
  - split; [|done]. intros Hack. eapply stream_acked; [exact Hst|].
    exact (acked_endpoint (os := osA) _ _ _ _ _ He Hack).
  - split; intros Hack.
    + eapply stream_acked; [exact Hst|].
    exact (acked_endpoint (os := osA) _ _ _ _ _ He Hack).
    + eapply stream_acked; [apply stream_sym; exact Hst|].
      exact (acked_endpoint (os := osB) _ _ _ _ _ He' Hack).
Qed.

(** What was sent is what was received, what waits in the queue, and some
    rest; there is no rest when [stats] says that nothing waits. *)
Definition arrived (sent received : list bytes) (queue : list DataMessage) (idle : Prop) : Prop :=
  ∃ rest, sent = received ++ (dm_data <$> queue) ++ rest ∧ (idle → rest = []).

Lemma lossy_arrived xs c c' mA mB :
  lossy_carries conv c (MkFifo mA mB [] []) → trace lossy_step xs c c' →
  arrived (mA ++ omap sent_by_a xs) (omap received_by_b xs) (inbox addrA c'.2) (acked (os := osA) c'.1 addrB) ∧
  arrived (mB ++ omap sent_by_b xs) (omap received_by_a xs) (inbox addrB c'.1) (acked (os := osB) c'.2 addrA).
Proof.
  intros Hc Hx. destruct (lossy_trace_refines _ _ _ _ Hc Hx) as (q' & Hq & Hc').
  destruct (fifo_conserves _ _ _ _ _ Hq) as [Hb Ha].
  destruct (lossy_acked _ _ Hc') as [Qb Qa].
  assert (Hin : inbox addrB c'.1 = MkDataMessage addrB <$> q'.(at_end_a) ∧
    inbox addrA c'.2 = MkDataMessage addrA <$> q'.(at_end_b)).
  { destruct Hc' as [(ms & k & -> & (_ & _ & _ & _ & -> & _) & (_ & _ & -> & _) & _)
      |(st & k & k' & fs & gs & (_ & _ & _ & _ & -> & _) & (_ & _ & _ & _ & -> & _) & _)]; done. }
  destruct Hin as [-> ->]. cbn [to_b to_a at_end_a at_end_b app] in *.
  split; [exists q'.(to_b)|exists q'.(to_a)]; rewrite dm_data_queue; by split.
Qed.
End Connection.

(** ** Runs as functions *)

(** What one side does next; an arrival is that of a datagram by its number. *)
Inductive Op : Type :=
  | DoSend (data : bytes)
  | DoArrive (i : nat)
  | DoRecv
  | DoTick.

Section Exec.
Context {K : KcpLib} {L : @KcpLaws K} (osA osB : Os) (a b : KcpPeer) (addrA addrB : SocketAddr).
Context (nA nB : nat).

Definition side_exec (os : Os) (self : KcpPeer) (peer : SocketAddr) (heard : list bytes)
    (send : bytes → Action) (arrive : Action) (recv : DataMessage → Action) (tick : Action)
    (o : Op) (w : World) : option (Action * World) :=
  match o with
  | DoSend data =>
      let x := run (KcpPeer.send (os := os) self peer data) w in
      match w.(sessions) !! canonicalize peer with
      | Some _ => Some (if is_ok x.1 then send data else Quiet, x.2)
      | None => None
      end
  | DoArrive i => dg ← heard !! i; Some (arrive, receive (os := os) self peer [dg] w)
  | DoRecv =>
      match run (KcpPeer.recv 1) w with
      | (Some (Ok m), w') =>
          Some (if decide (canonicalize m.(dm_peer) = canonicalize peer) then recv m else Quiet, w')
      | _ => None
      end
  | DoTick =>
      let w' := (run (update_tick (os := os) self.(kp_config)) w).2 in
      if decide (w'.(sessions) !! canonicalize peer = w.(sessions) !! canonicalize peer)
      then Some (tick, w') else None
  end.

Lemma side_exec_step os self peer heard send arrive recv tick o w x w' :
  side_exec os self peer heard send arrive recv tick o w = Some (x, w') →
  end_step os self peer heard send arrive recv tick x w w'.
Proof.
  destruct o as [data|i| |]; cbn [side_exec].
  - destruct (w.(sessions) !! canonicalize peer) eqn:E; intros [= <- <-]. apply step_send. by rewrite E.
  - destruct (heard !! i) as [dg|] eqn:E; intros [= <- <-]. apply step_arrive. by eapply list_elem_of_lookup_2.
  - destruct (run (KcpPeer.recv 1) w) as [[[m|]|] w1] eqn:E; intros [= <- <-]. by eapply step_recv.
  - case_decide as E; intros [= <- <-]. by apply step_tick.
Qed.

(** [true] for A's turn. *)
Definition lossy_exec (o : bool * Op) (c : World * World) : option (Action * (World * World)) :=
  if o.1 then
    y ← side_exec osA a addrB (said nB addrA c.2) SendA ArriveA RecvA TickA o.2 c.1;
    Some (y.1, (y.2, c.2))
  else
    y ← side_exec osB b addrA (said nA addrB c.1) SendB ArriveB RecvB TickB o.2 c.2;
    Some (y.1, (c.1, y.2)).

Fixpoint lossy_run (l : list (bool * Op)) (c : World * World) : option (list Action * (World * World)) :=
  match l with
  | [] => Some ([], c)
  | o :: l' => y ← lossy_exec o c; z ← lossy_run l' y.2; Some (y.1 :: z.1, z.2)
  end.

Lemma lossy_run_trace l c xs c' :
  lossy_run l c = Some (xs, c') → trace (lossy_step osA osB a b addrA addrB nA nB) xs c c'.
Proof.
  revert c xs. induction l as [|[[] o] l IH]; intros [wA wB] xs; cbn [lossy_run].
  - intros [= <- <-]. constructor.
  - unfold lossy_exec. cbn [fst snd]. destruct (side_exec _ _ _ _ _ _ _ _ _ _) as [[x w]|] eqn:E; [|done].
    cbn [mbind option_bind fst snd]. destruct (lossy_run l (w, wB)) as [[ys c2]|] eqn:Hl; [|done].
    intros [= <- <-]. econstructor; [|by apply IH]. apply lossy_a. by eapply side_exec_step.
  - unfold lossy_exec. cbn [fst snd]. destruct (side_exec _ _ _ _ _ _ _ _ _ _) as [[x w]|] eqn:E; [|done].
    cbn [mbind option_bind fst snd]. destruct (lossy_run l (wA, w)) as [[ys c2]|] eqn:Hl; [|done].
    intros [= <- <-]. econstructor; [|by apply IH]. apply lossy_b. by eapply side_exec_step.
Qed.
End Exec.

(** ** Connections, from their first message on *)

Section Start.
Context {K : KcpLib} {L : @KcpLaws K} {Str : KcpStream} (osA osB : Os).
Context {OLA : OsLaws osA} {OLB : OsLaws osB}.
Context (a b : KcpPeer) (addrA addrB : SocketAddr).
Context (okA : socket_ok osA) (okB : socket_ok osB).

Abbreviation steps nA nB := (trace (lossy_step osA osB a b addrA addrB nA nB)).
Abbreviation carried nA nB := (lossy_carries b addrA addrB nA nB).

(** C7. While both nodes keep their session, a connection over a network
    that loses, repeats and reorders datagrams refines a pair of FIFO queues.
    Every run of the following steps, in any order, is a run of the queues, at
    every step: a node that has its session sends (A from the start; B once A's
    SYN has arrived, so that only A starts the handshake); any datagram said
    since the connection began arrives, for the first time or again, or never;
    an application receives; an update task ticks and keeps the session (it may
    send the SYN or frames again); anything is done about other peers. A message
    is received at the other end only, once, in the order of the sends, and with
    the sender's address. A tick that gives the session up, a [disconnect] of
    the peer and a [shutdown] end the run: Goodbye.v goes on from there. *)
Theorem lossy_connection_refines_fifo nA nB meA meB conv xs c c' q :
  os_local_addr (Os := osA) = Ok meA → os_local_addr (Os := osB) = Ok meB → u32_ok conv →
  carried nA nB conv c q → steps nA nB xs c c' →
  ∃ q', trace (fifo_step addrA addrB) xs q q' ∧ carried nA nB conv c' q'.
Proof. intros HmeA HmeB Hu. exact (lossy_trace_refines osA osB a b _ _ okA okB _ _ _ _ _ HmeA HmeB Hu xs c c' q). Qed.

(** The first [send] of A. *)
Lemma first_send_carries data wA wB :
  no_end (length wA.(sent)) wA addrB → no_end (length wB.(sent)) wB addrA →
  let conv := os_rand (Os := osA) wA.(nrand) in
  let x := run (KcpPeer.send (os := osA) a addrB data) wA in
  u32_ok conv ∧
  carried (length wA.(sent)) (length wB.(sent)) conv (x.2, wB)
    (MkFifo (if is_ok x.1 then [data] else []) [] [] []) ∧
  encode_control Syn conv ∈ said (length wA.(sent)) addrB x.2.
Proof.
  intros HA HB. cbv zeta.
  assert (Hu : u32_ok (os_rand (Os := osA) wA.(nrand))).
  { pose proof (os_rand_range (OsLaws := OLA) wA.(nrand)). width_lia. }
  split; [done|].
  destruct (end_opens (os := osA) a (socket_writes _ okA) addrB data b.(kp_config) wA HA Hu) as (k & He & Hst & Hsyn).
  split; [left; by eexists _, k|done].
Qed.

(** C4. Reliable delivery over an unreliable network, from the first [send]
    on and for as long as the session lasts. A sends to B, neither has a session
    with the other, and B starts no handshake of its own before A's SYN arrives
    (see [crossing_messages_survive_loss] for that). Whatever is lost, repeated
    and reordered of what both have said since - the packets of the handshake
    and the frames of KCP alike - and whatever the applications send and
    receive, the update tasks send again and the nodes do about other peers, in
    any order, up to a tick that gives the session up, a [disconnect] or a
    [shutdown]: what B has received from A, with what waits in its queue, is
    what A has sent and [send] has accepted, in order and exactly once, up to a
    rest; and while [stats] says that nothing of A's waits to be acknowledged,
    there is no rest. The same holds in the other direction. *)
Theorem messages_survive_loss meA meB data wA wB :
  os_local_addr (Os := osA) = Ok meA → os_local_addr (Os := osB) = Ok meB →
  no_end (length wA.(sent)) wA addrB → no_end (length wB.(sent)) wB addrA →
  let x := run (KcpPeer.send (os := osA) a addrB data) wA in
  ∀ xs wA' wB', steps (length wA.(sent)) (length wB.(sent)) xs (x.2, wB) (wA', wB') →
    arrived ((if is_ok x.1 then [data] else []) ++ omap sent_by_a xs) (omap received_by_b xs)
      (inbox addrA wB') (acked (os := osA) wA' addrB) ∧
    arrived (omap sent_by_b xs) (omap received_by_a xs) (inbox addrB wA') (acked (os := osB) wB' addrA).
Proof.
  intros HmeA HmeB HA HB x xs wA' wB' Hx. destruct (first_send_carries data wA wB HA HB) as (Hu & Hc & _).
  exact (lossy_arrived osA osB a b _ _ okA okB _ _ _ _ _ HmeA HmeB Hu xs _ _ _ [] Hc Hx).
Qed.

(** C8. The handshake cannot get stuck while the session lasts. A sends to
    B, neither has a session with the other, and B starts no handshake of its
    own. Whatever has been lost, repeated and reordered since, and whatever else
    the nodes have done, as long as A's update task has not given its session up
    (used up the retransmissions of the SYN, or found it idle), nor B's one that
    has opened, and nobody has disconnected or shut down: if B considers itself
    connected and A does not, or neither does, the arrival of A's SYN and of the
    answer to it, both of which the nodes have said, connects both under the id
    that A has drawn, and if both are, it does no harm. *)
Theorem handshake_survives_loss meA meB data wA wB :
  os_local_addr (Os := osA) = Ok meA → os_local_addr (Os := osB) = Ok meB →
  no_end (length wA.(sent)) wA addrB → no_end (length wB.(sent)) wB addrA →
  let conv := os_rand (Os := osA) wA.(nrand) in
  let x := run (KcpPeer.send (os := osA) a addrB data) wA in
  ∀ xs c, steps (length wA.(sent)) (length wB.(sent)) xs (x.2, wB) c →
  ∃ c', steps (length wA.(sent)) (length wB.(sent)) [ArriveB; ArriveA] c c' ∧
    (∃ k, endpoint c'.1 addrB Established conv k) ∧ ∃ k, endpoint c'.2 addrA Established conv k.
Proof.
  intros HmeA HmeB HA HB conv x xs c Hx.
  destruct (first_send_carries data wA wB HA HB) as (Hu & Hc & Hsyn).
  destruct (lossy_trace_refines osA osB a b _ _ okA okB _ _ _ _ _ HmeA HmeB Hu xs _ _ _ Hc Hx)
    as (q' & _ & Hc').
  apply (lossy_opens osA osB a b _ _ okA _ _ _ _ HmeB Hu _ _ Hc').
  exact (lossy_says osA osB a b _ _ okA okB _ _ _ _ _ HmeA HmeB Hu _ xs _ _ _ Hc Hx Hsyn).
Qed.

(** From where on the network may do what it likes with what a node says: from
    its SYN on, unless it is the one that gives up its id. *)
Definition since (peer me : SocketAddr) (before after : World) : nat :=
  if addr_gt peer me then length after.(sent) else length before.(sent).

(** Both send, and each is handed the other's SYN. *)
Lemma crossing_carries dataA dataB wA wB :
  os_local_addr (Os := osA) = Ok addrA → os_local_addr (Os := osB) = Ok addrB → addrA ≠ addrB →
  no_end (length wA.(sent)) wA addrB → no_end (length wB.(sent)) wB addrA →
  let cA := os_rand (Os := osA) wA.(nrand) in
  let cB := os_rand (Os := osB) wB.(nrand) in
  let xA := run (KcpPeer.send (os := osA) a addrB dataA) wA in
  let xB := run (KcpPeer.send (os := osB) b addrA dataB) wB in
  cA ≠ cB → xA.1 = Ok tt → xB.1 = Ok tt →
  let wA1 := receive (os := osA) a addrB [encode_control Syn cB] xA.2 in
  let wB1 := receive (os := osB) b addrA [encode_control Syn cA] xB.2 in
  ∃ conv, u32_ok conv ∧
    carried (since addrB addrA wA xA.2) (since addrA addrB wB xB.2) conv (wA1, wB1) (MkFifo [dataA] [dataB] [] []).
Proof.
  intros HmeA HmeB Hab HA HB. cbv zeta. intros Hne HokA HokB.
  assert (HuA : u32_ok (os_rand (Os := osA) wA.(nrand))).
  { pose proof (os_rand_range (OsLaws := OLA) wA.(nrand)). width_lia. }
  assert (HuB : u32_ok (os_rand (Os := osB) wB.(nrand))).
  { pose proof (os_rand_range (OsLaws := OLB) wB.(nrand)). width_lia. }
  destruct (end_crosses (os := osA) a (socket_writes _ okA) addrB addrA _ dataA wA
    HmeA HuB HuA Hne HA HokA) as (kA & tA & nA & HkA & HeA).
  destruct (end_crosses (os := osB) b (socket_writes _ okB) addrA addrB _ dataB wB
    HmeB HuA HuB (not_eq_sym Hne) HB HokB) as (kB & tB & nB & HkB & HeB).
  set (cA := os_rand (Os := osA) _) in *. set (cB := os_rand (Os := osB) _) in *.
  unfold since. rewrite (addr_gt_flip _ _ Hab) in *.
  assert (Hconv : (if negb (addr_gt addrA addrB) then cB else cA) =
    (if addr_gt addrA addrB then cA else cB)) by (by destruct (addr_gt addrA addrB)).
  rewrite Hconv in *. set (conv := if addr_gt addrA addrB then cA else cB) in *.
  assert (Hu : u32_ok conv) by (unfold conv; by destruct (addr_gt addrA addrB)).
  exists conv. split; [done|]. right. exists Established.
  destruct (stream_send _ _ _ _ _ _ _ _ (stream_new a.(kp_config) b.(kp_config) conv Hu) HkA) as [Hr1 H1].
  destruct (stream_flush _ _ _ _ _ tA H1) as (_ & Hr2 & H2).
  destruct (stream_send _ _ _ _ _ _ _ _ (stream_sym _ _ _ _ H2) HkB) as [Hr3 H3].
  destruct (stream_flush _ _ _ _ _ tB H3) as (_ & Hr4 & H4).
  rewrite stream_new_ready in Hr1, Hr3.
  eexists _, _, _, _. cbn [to_b to_a at_end_a at_end_b fst snd].
  split_and!; [exact (HeA (eq_trans Hr2 Hr1))|exact (HeB (eq_trans Hr4 Hr3))|exact (stream_sym _ _ _ _ H4)].
Qed.

(** C5. Reliable delivery over an unreliable network when both sides start.
    A and B, each bound to the address at which the other sees it, both send to
    the other, with which they have no session, under different ids; their SYNs
    cross, and each arrives first of all. The tie-break leaves one connection
    that carries the messages that waited on both sides: from then on, whatever
    is lost, repeated and reordered of what the nodes say, and of the SYN whose
    id was kept, up to a tick that gives a session up, a [disconnect] or a
    [shutdown], what each has received, with what waits in its queue, is what
    the other has sent from its first message on, in order and exactly once, up
    to a rest, and there is none while [stats] says that nothing waits to be
    acknowledged. Only the SYN whose id was given up may not come again: see
    [duplicate_syn_breaks_agreement]. *)
Theorem crossing_messages_survive_loss dataA dataB wA wB :
  os_local_addr (Os := osA) = Ok addrA → os_local_addr (Os := osB) = Ok addrB → addrA ≠ addrB →
  no_end (length wA.(sent)) wA addrB → no_end (length wB.(sent)) wB addrA →
  let cA := os_rand (Os := osA) wA.(nrand) in
  let cB := os_rand (Os := osB) wB.(nrand) in
  let xA := run (KcpPeer.send (os := osA) a addrB dataA) wA in
  let xB := run (KcpPeer.send (os := osB) b addrA dataB) wB in
  cA ≠ cB → xA.1 = Ok tt → xB.1 = Ok tt →
  let wA1 := receive (os := osA) a addrB [encode_control Syn cB] xA.2 in
  let wB1 := receive (os := osB) b addrA [encode_control Syn cA] xB.2 in
  ∀ xs wA' wB', steps (since addrB addrA wA xA.2) (since addrA addrB wB xB.2) xs (wA1, wB1) (wA', wB') →
    arrived (dataA :: omap sent_by_a xs) (omap received_by_b xs) (inbox addrA wB') (acked (os := osA) wA' addrB) ∧
    arrived (dataB :: omap sent_by_b xs) (omap received_by_a xs) (inbox addrB wA') (acked (os := osB) wB' addrA).
Proof.
  intros HmeA HmeB Hab HA HB cA cB xA xB Hne HokA HokB wA1 wB1 xs wA' wB' Hx.
  destruct (crossing_carries dataA dataB wA wB HmeA HmeB Hab HA HB Hne HokA HokB) as (conv & Hu & Hc).
  exact (lossy_arrived osA osB a b _ _ okA okB _ _ _ _ _ HmeA HmeB Hu xs _ _ [dataA] [dataB] Hc Hx).
Qed.
End Start.

(** ** Runs on a KCP that sends again

    The clock advances by 100 ms at every reading, and the first answer of each
    socket is that it would block. *)

Definition slow_os (me : SocketAddr) (seed : nat) : Os := {|
  os_elapsed n := Some (from_millis (1000 + 100 * Z.of_nat n));
  os_send n b _ := if decide (n = 0%nat) then Err (MkIoError WouldBlock String.EmptyString)
                   else Ok (Z.of_nat (length b));
  os_rand n := os_rand (Os := toy_os me) (seed + n);
  os_incarnation := os_incarnation (Os := toy_os me);
  os_bind := Ok tt;
  os_local_addr := Ok me;
  os_iter := os_iter (Os := toy_os me);
|}.

Lemma slow_os_laws me seed : OsLaws (slow_os me seed).
Proof.
  pose proof (toy_os_laws me) as H. split; [intros n; apply (os_rand_range (OsLaws := H))| |].
  - exact (os_incarnation_ok (OsLaws := H)).
  - exact (os_iter_perm (OsLaws := H)).
Qed.

Lemma slow_os_ok me seed : socket_ok (slow_os me seed).
Proof. intros n d to. cbn. case_decide; [right; by eexists|by left]. Qed.

Definition arq_node_a : KcpPeer := MkKcpPeer 11 default addr_a.
Definition arq_node_b : KcpPeer := MkKcpPeer 12 default addr_b.

Lemma no_end_empty peer : no_end 0 (KcpPeer.empty_world (K := arq_lib)) peer.
Proof.
  split_and!; try done. intros c. split.
  - intros s [σ H]. destruct (lookup_empty_Some s σ H).
  - intros s H. destruct (lookup_empty_Some c s H).
Qed.

Definition arq_osA : Os := slow_os addr_a 0.
Definition arq_osB : Os := slow_os addr_b 7.

Definition arq_send (o : Os) (self : KcpPeer) (peer : SocketAddr) (data : bytes) :=
  run (KcpPeer.send (K := arq_lib) (os := o) self peer data) KcpPeer.empty_world.

Definition arq_lossy (nA nB : nat) (l : list (bool * Op)) (c : World * World) :
    list Action * (@World arq_lib * @World arq_lib) :=
  from_option id ([], c) (lossy_run arq_osA arq_osB arq_node_a arq_node_b addr_a addr_b nA nB l c).

Abbreviation arq_step nA nB :=
  (lossy_step (K := arq_lib) arq_osA arq_osB arq_node_a arq_node_b addr_a addr_b nA nB).

Lemma arq_lossy_trace nA nB l c :
  is_Some (lossy_run (K := arq_lib) arq_osA arq_osB arq_node_a arq_node_b addr_a addr_b nA nB l c) →
  trace (arq_step nA nB) (arq_lossy nA nB l c).1 c (arq_lossy nA nB l c).2.
Proof.
  intros [[xs c'] H]. unfold arq_lossy. rewrite H. by eapply lossy_run_trace.
Qed.

(** A's first SYN is lost and sent again; the second arrives, and the first
    after all; the acknowledgements cross; of A's frames the last overtakes the
    others and comes again, and one comes twice. B answers, which acknowledges. *)
Definition arq_ops : list (bool * Op) :=
  [(true, DoTick); (true, DoTick); (true, DoTick); (false, DoArrive 1); (false, DoArrive 0);
   (true, DoArrive 1); (true, DoSend [105; 106]); (false, DoArrive 7); (false, DoArrive 4);
   (false, DoArrive 6); (false, DoRecv); (false, DoTick); (false, DoArrive 7);
   (false, DoSend [1; 2; 3]); (true, DoArrive 2); (true, DoArrive 3); (true, DoArrive 3);
   (false, DoRecv); (true, DoRecv)].

Definition arq_start : @World arq_lib * @World arq_lib :=
  ((arq_send arq_osA arq_node_a addr_b [104]).2, KcpPeer.empty_world).
Definition arq_end : @World arq_lib * @World arq_lib := (arq_lossy 0 0 arq_ops arq_start).2.

Definition arq_actions : list Action :=
  [TickA; TickA; TickA; ArriveB; ArriveB; ArriveA; SendA [105; 106]; ArriveB; ArriveB; ArriveB;
   RecvB (MkDataMessage addr_a [104]); TickB; ArriveB; SendB [1; 2; 3]; ArriveA; ArriveA; ArriveA;
   RecvB (MkDataMessage addr_a [105; 106]); RecvA (MkDataMessage addr_b [1; 2; 3])].

Lemma arq_trace : trace (arq_step 0 0) arq_actions arq_start arq_end.
Proof.
  assert (E : (arq_lossy 0 0 arq_ops arq_start).1 = arq_actions) by (vm_compute; reflexivity).
  rewrite <- E. apply arq_lossy_trace. vm_compute. by eexists.
Qed.

Lemma arq_acked : acked (os := arq_osA) arq_end.1 addr_b.
Proof. eexists _, _. vm_compute. split; reflexivity. Qed.

Lemma arq_accepted : (arq_send arq_osA arq_node_a addr_b [104]).1 = Ok tt.
Proof. vm_compute. reflexivity. Qed.

Lemma lossy_connection_refines_fifo_witness :
  ∃ q', trace (fifo_step addr_a addr_b) arq_actions (MkFifo [[104]] [] [] []) q' ∧
    lossy_carries (Str := arq_kcp_stream) arq_node_b addr_a addr_b 0 0 1 arq_end q'.
Proof.
  apply (lossy_connection_refines_fifo (Str := arq_kcp_stream) arq_osA arq_osB
    (OLA := slow_os_laws addr_a 0) (OLB := slow_os_laws addr_b 7) arq_node_a arq_node_b addr_a addr_b
    (slow_os_ok addr_a 0) (slow_os_ok addr_b 7) 0 0 addr_a addr_b 1 arq_actions arq_start);
    [reflexivity|reflexivity|width_lia| |exact arq_trace].
  pose proof (proj1 (proj2 (first_send_carries (Str := arq_kcp_stream) arq_osA
    (OLA := slow_os_laws addr_a 0) arq_node_a arq_node_b addr_a addr_b (slow_os_ok addr_a 0) [104]
    KcpPeer.empty_world KcpPeer.empty_world (no_end_empty addr_b) (no_end_empty addr_a)))) as H.
  fold (arq_send arq_osA arq_node_a addr_b [104]) in H. rewrite arq_accepted in H. exact H.
Defined.

Lemma messages_survive_loss_witness :
  arrived [[104]; [105; 106]] [[104]; [105; 106]] [] (acked (os := arq_osA) arq_end.1 addr_b) ∧
  acked (os := arq_osA) arq_end.1 addr_b.
Proof.
  split; [|exact arq_acked]. pose proof arq_trace as Ht. rewrite (surjective_pairing arq_end) in Ht.
  pose proof (proj1 (messages_survive_loss (Str := arq_kcp_stream) arq_osA arq_osB
    (OLA := slow_os_laws addr_a 0) (OLB := slow_os_laws addr_b 7) arq_node_a arq_node_b addr_a addr_b
    (slow_os_ok addr_a 0) (slow_os_ok addr_b 7) addr_a addr_b [104]
    KcpPeer.empty_world KcpPeer.empty_world eq_refl eq_refl (no_end_empty addr_b) (no_end_empty addr_a)
    arq_actions arq_end.1 arq_end.2 Ht)) as H.
  fold (arq_send arq_osA arq_node_a addr_b [104]) in H. rewrite arq_accepted in H.
  assert (E : inbox addr_a arq_end.2 = []) by (vm_compute; reflexivity). rewrite E in H. exact H.
Defined.

(** Two ticks after the first [send], of which B has seen nothing. *)
Definition arq_silent : World * World :=
  (arq_lossy 0 0 [(true, DoTick); (true, DoTick)] arq_start).2.

Lemma handshake_survives_loss_witness :
  ∃ c', trace (arq_step 0 0) [ArriveB; ArriveA] arq_silent c' ∧
    (∃ k, endpoint c'.1 addr_b Established 1 k) ∧ ∃ k, endpoint c'.2 addr_a Established 1 k.
Proof.
  apply (handshake_survives_loss (Str := arq_kcp_stream) arq_osA arq_osB
    (OLA := slow_os_laws addr_a 0) (OLB := slow_os_laws addr_b 7) arq_node_a arq_node_b addr_a addr_b
    (slow_os_ok addr_a 0) (slow_os_ok addr_b 7) addr_a addr_b [104]
    KcpPeer.empty_world KcpPeer.empty_world eq_refl eq_refl (no_end_empty addr_b) (no_end_empty addr_a)
    [TickA; TickA] arq_silent).
  assert (E : (arq_lossy 0 0 [(true, DoTick); (true, DoTick)] arq_start).1 = [TickA; TickA])
    by (vm_compute; reflexivity).
  rewrite <- E. apply arq_lossy_trace. vm_compute. by eexists.
Defined.

(** Both send, and their SYNs cross. *)
Definition arq_crossed : World * World :=
  let xA := (arq_send arq_osA arq_node_a addr_b [104]).2 in
  let xB := (arq_send arq_osB arq_node_b addr_a [7]).2 in
  (receive (os := arq_osA) arq_node_a addr_b [encode_control Syn 8] xA,
   receive (os := arq_osB) arq_node_b addr_a [encode_control Syn 1] xB).

(** The acknowledgements of the SYNs arrive, and late; a frame comes twice, and
    so does the SYN of B, whose id was kept. *)
Definition arq_crossed_ops : list (bool * Op) :=
  [(false, DoArrive 2); (false, DoArrive 1); (false, DoArrive 1); (true, DoArrive 2); (true, DoArrive 0);
   (true, DoSend [9]); (true, DoArrive 3); (false, DoRecv); (true, DoTick); (true, DoRecv)].

Definition arq_crossed_end : World * World := (arq_lossy 1 0 arq_crossed_ops arq_crossed).2.

Definition arq_crossed_actions : list Action :=
  [ArriveB; ArriveB; ArriveB; ArriveA; ArriveA; SendA [9]; ArriveA; RecvB (MkDataMessage addr_a [104]); TickA;
   RecvA (MkDataMessage addr_b [7])].

Lemma arq_crossed_trace : trace (arq_step 1 0) arq_crossed_actions arq_crossed arq_crossed_end.
Proof.
  assert (E : (arq_lossy 1 0 arq_crossed_ops arq_crossed).1 = arq_crossed_actions)
    by (vm_compute; reflexivity).
  rewrite <- E. apply arq_lossy_trace. vm_compute. by eexists.
Qed.

Lemma crossing_messages_survive_loss_witness :
  arrived [[104]; [9]] [[104]] (inbox addr_a arq_crossed_end.2)
    (acked (os := arq_osA) arq_crossed_end.1 addr_b) ∧
  arrived [[7]] [[7]] (inbox addr_b arq_crossed_end.1)
    (acked (os := arq_osB) arq_crossed_end.2 addr_a).
Proof.
  pose proof arq_crossed_trace as Ht. rewrite (surjective_pairing arq_crossed_end) in Ht.
  refine (crossing_messages_survive_loss (Str := arq_kcp_stream) arq_osA arq_osB
    (OLA := slow_os_laws addr_a 0) (OLB := slow_os_laws addr_b 7) arq_node_a arq_node_b addr_a addr_b
    (slow_os_ok addr_a 0) (slow_os_ok addr_b 7) [104] [7]
    KcpPeer.empty_world KcpPeer.empty_world eq_refl eq_refl _ (no_end_empty addr_b) (no_end_empty addr_a)
    _ arq_accepted _ arq_crossed_actions arq_crossed_end.1 arq_crossed_end.2 _).
  - discriminate.
  - vm_compute. discriminate.
  - vm_compute. reflexivity.
  - exact Ht.
Defined.

(** ** The limit

    The theorems end where a node gives its session up (Goodbye.v says what
    the RESETs make of the other).  The datagrams of the connection may still
    arrive then, and nothing in them tells that it is over: after B's
    [disconnect] a late SYN of A opens the session again, and late frames
    deliver messages that B has already received. *)
Lemma replay_delivers_again :
  let w := arq_end.2 in
  let late := [encode_control Syn 1; encode_kcp_data (arq_frame 1 0 0 [104])] in
  let w1 := (run (KcpPeer.disconnect (os := arq_osB) addr_a) w).2 in
  let w2 := receive (os := arq_osB) arq_node_b addr_a late w1 in
  Forall (λ dg, dg ∈ said 0 addr_b arq_end.1) late ∧
  RecvB (MkDataMessage addr_a [104]) ∈ arq_actions ∧
  inbox addr_a w = [] ∧ inbox addr_a w2 = [MkDataMessage addr_a [104]].
Proof.
  cbv zeta. split; [|split; [|split]].
  - apply (bool_decide_eq_true_1 (Forall _ _)). vm_compute. reflexivity.
  - apply list_elem_of_lookup. by exists 10%nat.
  - vm_compute. reflexivity.
  - vm_compute. reflexivity.
Qed.
