(* ===== verification/Goodbye.v ===== *)
(** * The end of a connection

    One node of a connection over a network that loses, repeats and reorders
    disconnects. What it has sent may still arrive, late and repeated, at the
    other, until one of the three RESETs does; then both are without a session,
    and a new connection can begin. *)

From S2P Require Import Prelude Prog Packet Kcp Addr Errors Config World Session Transport.
From S2P Require Import Blind Incoming Effects Toy Invariant Tasks Isolation.
From S2P Require Import SessionSpec IncomingSpec TransportSpec Update UpdateSpec.
From S2P Require Import Endpoint Stream Ends Fifo Lossy.
Open Scope prog_scope.

(** ** One end goes, and the other *)

Section End.
Context {K : KcpLib} {L : @KcpLaws K} {Str : KcpStream} {os : Os} {OL : OsLaws os}.
Context (self : KcpPeer).

Abbreviation bye conv := (encode_control Reset conv).

(** Without a session and a queue, a node can begin again. *)
Lemma begins_again w peer :
  w.(sessions) !! canonicalize peer = None → w.(cancelled) = false → well_filed w →
  inbox peer w = [] → no_end (length w.(sent)) w peer.
Proof. intros. split_and!; try done. apply said_all. Qed.

(** The node disconnects. *)
Lemma end_disconnects n w peer st conv k fs msgs :
  one_end n w peer st conv k fs msgs →
  let w' := (run (KcpPeer.disconnect peer) w).2 in
  w'.(sessions) !! canonicalize peer = None ∧ w'.(cancelled) = false ∧ well_filed w' ∧
  said n peer w' = said n peer w ++ replicate 3 (bye conv) ∧ inbox peer w' = inbox peer w ∧
  w'.(events) = w.(events) ++ [Disconnected peer].
Proof.
  intros ((s & σ & Hs & Hσ & _ & _ & _ & _ & Hcv & _) & _ & _ & _ & _ & Hc & Hn & Hw). cbv zeta.
  assert (Hin : within (canonicalize peer) (KcpPeer.disconnect peer) (λ _ _, True) w)
    by exact (task_within (os := os) self (TDisconnect peer) peer w eq_refl).
  destruct (within_run _ _ _ w Hw Hin) as (Hw' & HG & _).
  destruct (said_touches n peer w _ Hn HG) as [Hsaid _].
  pose proof (run_disconnect peer w) as H. rewrite Hs in H. specialize (H σ Hσ).
  rewrite Hcv in H. rewrite H in *. clear H. cbn [snd] in *.
  split_and!; [by apply lookup_delete_eq|done|done| |done|done].
  rewrite Hsaid. f_equal. unfold sent_since, reset_world, reset_once. cbn [push_event push_sent sent upd_heap upd_sessions].
  rewrite <- !app_assoc. by rewrite drop_app_length.
Qed.

(** A RESET for a node without a session. *)
Lemma reset_late w peer conv :
  w.(sessions) !! canonicalize peer = None → receive self peer [bye conv] w = w.
Proof.
  intros Hs. rewrite receive_one. pose proof (reset_spec (bye conv) (to_le_bytes conv) peer
    self.(kp_incarnation) self.(kp_config) w (split_control _ _) ltac:(done)) as H.
  rewrite Hs in H. by rewrite H.
Qed.

(** The first RESET for one with a session. *)
Lemma reset_ends w peer st conv k :
  u32_ok conv → endpoint w peer st conv k →
  ∃ s σ, receive self peer [bye conv] w =
    push_event (Disconnected peer) (upd_heap (<[s := set_closed true σ]>)
      (upd_sessions (delete (canonicalize peer)) w)).
Proof.
  intros Hu (s & σ & Hs & Hσ & _ & _ & _ & _ & Hcv & _). exists s, σ.
  rewrite receive_one. pose proof (reset_spec (bye conv) (to_le_bytes conv) peer
    self.(kp_incarnation) self.(kp_config) w (split_control _ _) ltac:(done)) as H.
  rewrite Hs in H. specialize (H σ Hσ). rewrite payload_conv_control, decide_True in H by done.
  by rewrite H.
Qed.

Lemma resets_late n w peer conv :
  w.(sessions) !! canonicalize peer = None → receive self peer (replicate n (bye conv)) w = w.
Proof.
  intros Hs. induction n as [|n IH]; [done|]. cbn [replicate]. by rewrite receive_cons, reset_late.
Qed.

(** The end of a session is announced. *)
Definition closing (peer : SocketAddr) (w : World) : list Event :=
  match w.(sessions) !! canonicalize peer with Some _ => [Disconnected peer] | None => [] end.

(** The node hears of it, once or several times. *)
Lemma end_hears m n w peer conv :
  u32_ok conv →
  no_end n w peer ∨ (∃ st k fs msgs, one_end n w peer st conv k fs msgs) →
  let w' := receive self peer (replicate (S m) (bye conv)) w in
  w'.(sessions) !! canonicalize peer = None ∧ w'.(cancelled) = false ∧ well_filed w' ∧
  inbox peer w' = inbox peer w ∧
  w'.(events) = w.(events) ++ closing peer w.
Proof.
  unfold closing. intros Hu [(Hs & _ & _ & Hc & _ & Hw)|(st & k & fs & msgs & He & _ & _ & _ & _ & Hc & _ & Hw)]; cbv zeta.
  - rewrite resets_late by done. rewrite Hs, app_nil_r. done.
  - cbn [replicate]. rewrite receive_cons. destruct (receive_touches self peer (bye conv) w Hw) as [Hw' _].
    destruct (reset_ends w peer st conv k Hu He) as (s & σ & E). rewrite E in *.
    rewrite resets_late by apply lookup_delete_eq.
    destruct He as (s' & _ & Hs & _). rewrite Hs.
    split_and!; [by apply lookup_delete_eq|done|done|done|done].
Qed.
End End.

(** ** The connection *)

Section Goodbye.
Context {K : KcpLib} {L : @KcpLaws K} {Str : KcpStream} (osA osB : Os).
Context {OLA : OsLaws osA} {OLB : OsLaws osB}.
Context (a b : KcpPeer) (addrA addrB : SocketAddr).
Context (okA : socket_ok osA) (okB : socket_ok osB).

Abbreviation steps nA nB := (trace (lossy_step osA osB a b addrA addrB nA nB)).

(** B goes on alone: what may still arrive is what A has said until now. *)
Abbreviation alone nA wA :=
  (trace (end_step osB b addrA (said nA addrB wA) SendB ArriveB RecvB TickB)).

Lemma alone_steps nA nB ys wA wB wB' :
  alone nA wA ys wB wB' → steps nA nB ys (wA, wB) (wA, wB').
Proof.
  induction 1 as [|x ys w w1 w2 Hx _ IH]; [constructor|]. econstructor; [by apply lossy_b|done].
Qed.

(** A is silent. *)
Lemma alone_silent nA wA ys wB wB' : alone nA wA ys wB wB' → omap sent_by_a ys = [].
Proof.
  induction 1 as [|x ys w w1 w2 Hx _ IH]; [done|]. cbn [omap list_omap] in *. rewrite IH.
  destruct Hx; cbn; repeat case_match; done.
Qed.

(** C6. How a connection ends. A disconnects, at any point of a connection over
    a network that loses, repeats and reorders (as in [messages_survive_loss]); its own messages from B stay to
    be received, three RESETs go out and [Disconnected] is fired. B may go on
    for any time, with all A has said before still arriving, in any order and
    number; then RESETs arrive, one or more. B's session ends, [Disconnected] is
    fired once if there was one, and what B has received from A, with what
    waits in its queue, is a prefix of what A has sent, and all of it if nothing
    waited to be acknowledged when A disconnected. After that, each side, once
    its queue is read, is where a new connection can begin. *)
Theorem disconnect_ends_connection meA meB data wA wB :
  os_local_addr (Os := osA) = Ok meA → os_local_addr (Os := osB) = Ok meB →
  no_end (length wA.(sent)) wA addrB → no_end (length wB.(sent)) wB addrA →
  let nA := length wA.(sent) in
  let x := run (KcpPeer.send (os := osA) a addrB data) wA in
  ∀ xs wA1 wB1, steps nA (length wB.(sent)) xs (x.2, wB) (wA1, wB1) →
  let bye := encode_control Reset (os_rand (Os := osA) wA.(nrand)) in
  let wA2 := (run (KcpPeer.disconnect (os := osA) addrB) wA1).2 in
  ∀ ys wB2, alone nA wA1 ys wB1 wB2 →
  ∀ n, let wB3 := receive (os := osB) b addrA (replicate (S n) bye) wB2 in
    (said nA addrB wA2 = said nA addrB wA1 ++ replicate 3 bye ∧
     inbox addrB wA2 = inbox addrB wA1 ∧ wA2.(events) = wA1.(events) ++ [Disconnected addrB]) ∧
    (arrived ((if is_ok x.1 then [data] else []) ++ omap sent_by_a xs)
       (omap received_by_b (xs ++ ys)) (inbox addrA wB3) (acked (os := osA) wA1 addrB) ∧
     wB3.(events) = wB2.(events) ++ closing addrA wB2) ∧
    (inbox addrB wA2 = [] → no_end (length wA2.(sent)) wA2 addrB) ∧
    (inbox addrA wB3 = [] → no_end (length wB3.(sent)) wB3 addrA).
Proof.
  intros HmeA HmeB HA HB nA x xs wA1 wB1 Hx bye wA2 ys wB2 Hy n wB3.
  destruct (first_send_carries osA a b _ _ okA data wA wB HA HB) as (Hu & Hc & _).
  pose proof (trace_app _ _ _ _ _ _ Hx (alone_steps _ _ _ _ _ _ Hy)) as Hxy.
  destruct (lossy_trace_refines osA osB a b _ _ okA okB _ _ _ _ _ HmeA HmeB Hu _ _ _ _ Hc Hxy)
    as (q & _ & Hq).
  destruct (lossy_end b _ _ _ _ _ _ _ Hq) as [(st & k & fs & msgs & He) HeB]. cbn [fst snd] in *.
  destruct (end_disconnects (os := osA) a _ _ _ _ _ _ _ _ He) as (HsA & HcA & HwA & Hsaid & Hin & Hev).
  destruct (end_hears (os := osB) b n (length wB.(sent)) wB2 addrA _ Hu) as (HsB & HcB & HwB & HinB & HevB).
  { destruct HeB as [H|(k' & fs' & msgs' & H)]; [by left|right]. by eexists _, _, _, _. }
  split_and!; try done; [|by apply begins_again|by apply begins_again].
  unfold wB3, bye. rewrite HinB.
  pose proof (proj1 (lossy_arrived osA osB a b _ _ okA okB _ _ _ _ _ HmeA HmeB Hu _ _ _ _ [] Hc Hxy)) as H.
  by rewrite omap_app, (alone_silent _ _ _ _ _ Hy), app_nil_r in H.
Qed.

Lemma alone_run nA nB l wA wB ys c :
  lossy_run osA osB a b addrA addrB nA nB (pair false <$> l) (wA, wB) = Some (ys, c) →
  alone nA wA ys wB c.2.
Proof.
  revert wB ys. induction l as [|o l IH]; intros wB ys; cbn [fmap list_fmap lossy_run].
  - intros [= <- <-]. constructor.
  - unfold lossy_exec. cbn [fst snd]. destruct (side_exec _ _ _ _ _ _ _ _ _ _) as [[x w]|] eqn:E; [|done].
    cbn [mbind option_bind fst snd].
    destruct (lossy_run _ _ _ _ _ _ _ _ (pair false <$> l) (wA, w)) as [[zs c2]|] eqn:Hl; [|done].
    intros [= <- <-]. econstructor; [by eapply side_exec_step|by apply IH].
Qed.
End Goodbye.

(** ** A run

    A disconnects after its second message; the frame of the second overtakes
    that of the first and is dropped, the first is received, and two RESETs
    arrive. *)

Definition parting : @World arq_lib * @World arq_lib := (arq_lossy 0 0 (take 7 arq_ops) arq_start).2.

Definition late_ops : list Op := [DoArrive 7; DoArrive 4; DoRecv].

Definition late_actions : list Action := [ArriveB; ArriveB; RecvB (MkDataMessage addr_a [104])].

Definition late_end : @World arq_lib := (arq_lossy 0 0 (pair false <$> late_ops) parting).2.2.

Lemma parting_trace : trace (arq_step 0 0) (take 7 arq_actions) arq_start parting.
Proof.
  assert (E : (arq_lossy 0 0 (take 7 arq_ops) arq_start).1 = take 7 arq_actions) by (vm_compute; reflexivity).
  rewrite <- E. apply arq_lossy_trace. vm_compute. by eexists.
Qed.

Lemma late_alone :
  trace (end_step arq_osB arq_node_b addr_a (said 0 addr_b parting.1) SendB ArriveB RecvB TickB)
    late_actions parting.2 late_end.
Proof.
  assert (E : (arq_lossy 0 0 (pair false <$> late_ops) parting).1 = late_actions)
    by (vm_compute; reflexivity).
  rewrite <- E. eapply (alone_run arq_osA arq_osB arq_node_a arq_node_b addr_a addr_b 0 0 late_ops).
  rewrite <- surjective_pairing. unfold late_end, arq_lossy.
  destruct (lossy_run _ _ _ _ _ _ _ _ (pair false <$> late_ops) parting) as [[ys c]|] eqn:H; [done|].
  vm_compute in H. discriminate.
Qed.

Lemma disconnect_ends_connection_witness :
  let wA := (run (KcpPeer.disconnect (os := arq_osA) addr_b) parting.1).2 in
  let wB := receive (os := arq_osB) arq_node_b addr_a (replicate 2 (encode_control Reset 1)) late_end in
  arrived [[104]; [105; 106]] [[104]] (inbox addr_a wB) (acked (os := arq_osA) parting.1 addr_b) ∧
  wB.(events) = [Connected addr_a; Disconnected addr_a] ∧ no_end (length wB.(sent)) wB addr_a.
Proof.
  pose proof parting_trace as Hx. rewrite (surjective_pairing parting) in Hx.
  destruct (disconnect_ends_connection (Str := arq_kcp_stream) arq_osA arq_osB
    (OLA := slow_os_laws addr_a 0) (OLB := slow_os_laws addr_b 7) arq_node_a arq_node_b addr_a addr_b
    (slow_os_ok addr_a 0) (slow_os_ok addr_b 7) addr_a addr_b [104]
    KcpPeer.empty_world KcpPeer.empty_world eq_refl eq_refl (no_end_empty addr_b) (no_end_empty addr_a)
    (take 7 arq_actions) parting.1 parting.2 Hx late_actions late_end late_alone 1)
    as (_ & [H Hev] & _ & Hno).
  fold (arq_send arq_osA arq_node_a addr_b [104]) in H. rewrite arq_accepted in H.
  split; [exact H|]. split; [|apply Hno; vm_compute; reflexivity].
  refine (eq_trans Hev _). vm_compute. reflexivity.
Defined.
