(* ===== verification/ExamplesSpec.v ===== *)
(** * What the example programs do (src/examples/*.rs)

    The echo server answers every message it has, in order; the duplex peers
    connect under the id of the greater port; node 0 of the gossip example
    opens a session with each of the others. *)

From S2P Require Import Prelude Prog Packet Kcp Addr Errors Config World Session Transport.
From S2P Require Import Blind Incoming Effects Toy SessionSpec IncomingSpec TransportSpec.
From S2P Require Import Update UpdateSpec Handshake Endpoint Delivery Fifo Examples.
From Stdlib Require String.
Import String.StringSyntax.
Open Scope prog_scope.

(** ** The servers *)

Section Servers.
Context {K : KcpLib} {os : Os}.

Lemma send_on_queue server peer data q w :
  (run (KcpPeer.send server peer data) (set_pending q w)).2 =
    set_pending q (run (KcpPeer.send server peer data) w).2.
Proof.
  change (set_pending q w) with (with_queue q w.(cancelled) w).
  rewrite (blind_send server peer data). cbn [snd].
  destruct (blind_keeps _ w (blind_send server peer data)) as [_ Hc].
  unfold with_queue, set_pending. by rewrite <- Hc.
Qed.

Lemma echo_loop_run server l polls w :
  w.(pending) = l → w.(cancelled) = false →
  run (Echo.server_loop server (length l) (S polls)) w =
    (false, (run (for_each l (λ m,
       KcpPeer.send server m.(dm_peer) m.(dm_data) ;; Ret tt)) (set_pending [] w)).2).
Proof.
  revert w. induction l as [|m l IH]; intros w Hp Hc.
  - cbn. f_equal. destruct w. cbn in Hp. by subst.
  - cbn [length Echo.server_loop]. rewrite run_bind, recv_poll, Hc, Hp. cbn [fst snd].
    rewrite run_bind, run_for_each_cons, run_bind, !send_on_queue. cbn [run snd].
    set (w1 := (run (KcpPeer.send server _ _) w).2).
    rewrite (IH (set_pending l w1)); [done|done|].
    cbn. by rewrite <- Hc, <- (proj2 (blind_keeps _ w (blind_send server (dm_peer m) (dm_data m)))).
Qed.

(** C20. The echo server is equivalent to sending every message it has, in the
    order of arrival, back to where it came from, with the queue emptied first:
    it answers each message once and loses none, whether or not the sends
    succeed; on a node that is shut down it answers nothing and leaves its
    loop. *)
Theorem echo_server_equiv server l polls w :
  w.(pending) = l →
  run (Echo.server_loop server (length l) (S polls)) w =
    if w.(cancelled) then (match l with [] => false | _ => true end, w)
    else (false, (run (for_each l (λ m,
            KcpPeer.send server m.(dm_peer) m.(dm_data) ;; Ret tt)) (set_pending [] w)).2).
Proof.
  intros Hp. destruct (cancelled w) eqn:Hc; [|by apply echo_loop_run].
  destruct l as [|m l]; [done|]. cbn [length Echo.server_loop].
  by rewrite run_bind, recv_poll, Hc.
Qed.

(** The nodes that accept print what arrived, in order. *)
Lemma accept_loop_prints l polls printed w :
  w.(pending) = l → w.(cancelled) = false →
  run (Gossip.accept_loop (length l) (S polls) printed) w =
    ((printed ++ (dm_data <$> l), false), set_pending [] w).
Proof.
  revert printed w. induction l as [|m l IH]; intros printed w Hp Hc.
  - cbn. rewrite app_nil_r. f_equal. destruct w. cbn in Hp. by subst.
  - cbn [length Gossip.accept_loop]. rewrite run_bind, recv_poll, Hc, Hp. cbn [fst snd].
    rewrite (IH _ (set_pending l w)) by done. by rewrite <- app_assoc.
Qed.
End Servers.

(** ** The echo example, from end to end *)

Lemma bind_empty {K : KcpLib} (o : Os) config (self : KcpPeer) (w : World) :
  KcpPeer.bind_with (os := o) config = Ok (self, w) →
  w = KcpPeer.empty_world ∧ ∃ me, os_local_addr (Os := o) = Ok me.
Proof.
  unfold KcpPeer.bind_with. destruct (os_bind (Os := o)); [|done].
  destruct (os_local_addr (Os := o)) as [me|]; [|done]. intros [= _ <-]. eauto.
Qed.

Section Echoing.
Context {K : KcpLib} {L : @KcpLaws K} {F : KcpLink} (osC osS : Os).
Context {OLC : OsLaws osC} {OLS : OsLaws osS} (client server : KcpPeer).
Context (send_okC : ∀ n d to, os_send (Os := osC) n d to = Ok (Z.of_nat (length d))).
Context (send_okS : ∀ n d to, os_send (Os := osS) n d to = Ok (Z.of_nat (length d))).

Abbreviation C := Echo.CLIENT_ADDR.
Abbreviation Sv := Echo.SERVER_ADDR.
Abbreviation step := (line_step osC osS client server C Sv).

Definition network (x : Action) : bool :=
  match x with ArriveA | ArriveB | TickA | TickB => true | _ => false end.

Definition at_server (x : Action) : bool :=
  match x with ArriveB | TickB => true | _ => false end.

(** What happens while a client waits for its echo: a datagram arrives, in the
    order of its direction, the update task of a node ticks and keeps the
    session, or the server's loop handles the message at the head of its queue
    and the windows let the answer out. *)
Inductive echo_step : Line → Line → Prop :=
  | echo_network x l l' : step x l l' → network x = true → echo_step l l'
  | echo_serve polls m ms wC wS ab ba :
      wS.(pending) = m :: ms →
      (∀ conv k, endpoint wS C Established conv k → kcp_room k m.(dm_data)) →
      let w := (run (Echo.server_loop (os := osS) server 1 (1 + polls)) wS).2 in
      echo_step (MkLine wC wS ab ba) (MkLine wC w ab (ba ++ sent_since wS w)).

(** What still happens to the server when the client has crashed. *)
Definition crashed_step (l l' : Line) : Prop :=
  ∃ x, step x l l' ∧ at_server x = true.

(** A new client sends, and the handshake is exchanged. *)
Definition opened (payload : bytes) (wC wS : World) : Line :=
  let w := (run (KcpPeer.send (os := osC) client Sv payload) wC).2 in
  let wS1 := receive (os := osS) server C (sent_since wC w) wS in
  let wC1 := receive (os := osC) client Sv (sent_since wS wS1) w in
  MkLine wC1 wS1 (sent_since w wC1) [].

(** The client has the echo, or nothing is left to happen. *)
Definition answered (l : Line) : Prop := l.(end_a).(pending) ≠ [].
Definition settled (l : Line) : Prop :=
  l.(net_ab) = [] ∧ l.(net_ba) = [] ∧ l.(end_b).(pending) = [].

(** In terms of the connection: the server sends what it has received, and
    the client neither sends nor receives. *)
Definition echoing (xs : list Action) : Prop :=
  omap sent_by_a xs = [] ∧ omap received_by_a xs = [] ∧ omap sent_by_b xs = omap received_by_b xs.

Lemma echo_step_trace conv l l' q :
  line_carries C Sv conv l q → echo_step l l' → ∃ xs, trace step xs l l' ∧ echoing xs.
Proof.
  intros Hc Hstep. destruct Hstep as [x l1 l2 Hx Hin|polls m ms wC wS ab ba Hp Hroom w].
  - exists [x]. split; [econstructor; [exact Hx|constructor]|].
    by destruct x.
  - destruct Hc as (kC & kS & fs & gs & _ & HeS & _ & _ & _ & _ & _ & _ & HpS & _ & HcS).
    cbn [end_b] in *. assert (Hm : ∃ d, m = MkDataMessage C d).
    { rewrite Hp in HpS. destruct q.(at_end_b) as [|d ds]; [done|]. injection HpS as -> _. by exists d. }
    destruct Hm as [d ->]. exists [RecvB (MkDataMessage C d); SendB d]. split; [|done].
    assert (Hr : run (KcpPeer.recv (1 + polls)) wS = (Some (Ok (MkDataMessage C d)), set_pending ms wS))
      by (cbn [Nat.add]; by rewrite recv_poll, HcS, Hp).
    econstructor; [by apply line_recv_b with (polls := polls)|].
    assert (w = (run (KcpPeer.send (os := osS) server C d) (set_pending ms wS)).2) as ->.
    { unfold w. cbn [Echo.server_loop]. rewrite run_bind, Hr. cbn [fst snd dm_peer dm_data].
      by rewrite run_bind. }
    econstructor; [|constructor].
    exact (line_send_b osC osS client server C Sv d wC (set_pending ms wS) ab ba Hroom).
Qed.

Lemma echo_trace conv l l' q :
  line_carries C Sv conv l q → rtc echo_step l l' → ∃ xs, trace step xs l l' ∧ echoing xs.
Proof.
  intros Hc Hx. revert q Hc. induction Hx as [l|l l1 l2 Hx _ IH]; intros q Hc.
  - exists []. split; [constructor|done].
  - destruct (echo_step_trace _ _ _ _ Hc Hx) as (xs & Hxs & E1 & E2 & E3).
    destruct (line_trace_refines osC osS client server C Sv send_okC send_okS _ _ _ _ _ Hc Hxs)
      as (q1 & _ & Hc1).
    destruct (IH q1 Hc1) as (ys & Hys & E1' & E2' & E3'). exists (xs ++ ys).
    split; [by eapply trace_app|]. unfold echoing. rewrite !omap_app.
    split_and!; [by rewrite E1, E1'|by rewrite E2, E2'|by rewrite E3, E3'].
Qed.
(** One incarnation of the client: its payload is in one place. *)
Lemma echo_incarnation payload wC wS meS :
  os_local_addr (Os := osS) = Ok meS → wC.(sessions) !! canonicalize Sv = None →
  wC.(pending) = [] → wC.(cancelled) = false →
  unacquainted wS C (os_rand (Os := osC) wC.(nrand)) → wS.(pending) = [] → wS.(cancelled) = false →
  kcp_small payload →
  (run (KcpPeer.send (os := osC) client Sv payload) wC).1 = Ok tt ∧
  ∀ l, rtc echo_step (opened payload wC wS) l →
    l.(end_a).(cancelled) = false ∧ l.(end_b).(cancelled) = false ∧
    (∃ k, endpoint l.(end_b) C Established (os_rand (Os := osC) wC.(nrand)) k) ∧
    (answered l ∨ settled l →
     l.(end_a).(pending) = [MkDataMessage Sv payload] ∧ l.(end_b).(pending) = []).
Proof.
  intros HmeS HsC HpC HcC HsS HpS HcS Hfit.
  destruct (opening_carries osC osS client server C Sv send_okC meS payload wC wS
    HmeS HsC HsS HpC HpS HcC HcS Hfit) as [Hx Hc].
  split; [exact Hx|]. intros l Hl. fold (opened payload wC wS) in Hc.
  destruct (echo_trace _ _ _ _ Hc Hl) as (xs & Hxs & E1 & E2 & E3).
  destruct (line_trace_refines osC osS client server C Sv send_okC send_okS _ _ _ _ _ Hc Hxs)
    as (q & Hq & Hc').
  destruct (fifo_conserves _ _ _ _ _ Hq) as [Hb Ha]. rewrite E1 in Hb. rewrite E2, E3 in Ha.
  destruct (carries_quiet _ _ _ _ _ Hc') as [Qb Qa].
  destruct Hc' as (kC & kS & fs & gs & _ & HeS & _ & _ & _ & _ & _ & HpA & HpB & HcA & HcB).
  cbn [to_b to_a at_end_a at_end_b app] in *. rewrite Ha in Hb.
  split_and!; [done|done|by exists kS|]. unfold answered, settled. rewrite HpA, HpB.
  destruct q.(at_end_a) as [|d ds]; cbn [fmap list_fmap] in *.
  - intros [|(Hab & Hba & Hn)]; [done|]. rewrite (Qa Hba), (Qb Hab) in Hb.
    destruct q.(at_end_b); [|done]. done.
  - intros _. injection Hb as -> Hb. destruct ds; [|done]. cbn [app] in Hb.
    destruct q.(to_a); [|done]. by destruct q.(at_end_b).
Qed.

Lemma crashed_end_a l l' : rtc crashed_step l l' → l'.(end_a) = l.(end_a).
Proof.
  induction 1 as [|l l1 l2 (x & Hx & Hin) _ ->]; [done|].
  by destruct Hx.
Qed.

Lemma crashed_echo l l' : rtc crashed_step l l' → rtc echo_step l l'.
Proof.
  apply rtc_subrel. intros l1 l2 (x & Hx & Hin). eapply echo_network; [exact Hx|]. by destruct x.
Qed.
End Echoing.

Section EchoExample.
Context {K : KcpLib} {L : @KcpLaws K} {F : KcpLink} (osC1 osC2 osS : Os).
Context {OLC1 : OsLaws osC1} {OLC2 : OsLaws osC2} {OLS : OsLaws osS}.
Context (client1 client2 server : KcpPeer) (config : KcpConfig) (wC1 wC2 wS : World).
Context (send_okC1 : ∀ n d to, os_send (Os := osC1) n d to = Ok (Z.of_nat (length d))).
Context (send_okC2 : ∀ n d to, os_send (Os := osC2) n d to = Ok (Z.of_nat (length d))).
Context (send_okS : ∀ n d to, os_send (Os := osS) n d to = Ok (Z.of_nat (length d))).
Context (bindC1 : KcpPeer.bind_with (os := osC1) config = Ok (client1, wC1)).
Context (bindC2 : KcpPeer.bind_with (os := osC2) config = Ok (client2, wC2)).
Context (bindS : KcpPeer.bind_with (os := osS) config = Ok (server, wS)).

(** What a client does with its queue. *)
Lemma client_gets payload polls r (w : World) :
  r = Ok tt → w.(pending) = [MkDataMessage Echo.SERVER_ADDR payload] → w.(cancelled) = false →
  let y := run (Echo.client_await payload (1 + polls) r) w in
  y.1 = Got (MkDataMessage Echo.SERVER_ADDR payload) ∧ y.2.(cancelled) = true.
Proof.
  intros -> Hp Hc. cbv zeta. unfold Echo.client_await. cbn [Nat.add].
  rewrite run_bind, recv_poll, Hc, Hp. cbn. by rewrite decide_True.
Qed.

(** C19. The echo example, both incarnations of its client, on a network that
    delivers what was sent, each direction in order. The first client binds,
    sends, and the handshake is exchanged; from then on arrivals, ticks of both
    update tasks that keep the session, and rounds of the server's loop, with
    the windows open, happen in any order. Whenever the client then has a
    message, and at the latest when nothing is under way and the server has
    handled its queue, the rest of [run_client] returns its own payload, from
    the server's address, without a panic. The client is dropped without a
    word, while the server goes on; and the second client on the same port,
    whose random id is another, is served in the same way, by a new session in
    place of the old one. *)
Theorem echo_round_trip payload1 payload2 polls :
  kcp_small payload1 → kcp_small payload2 →
  os_rand (Os := osC1) 0 ≠ os_rand (Os := osC2) 0 →
  let x1 := run (KcpPeer.send (os := osC1) client1 Echo.SERVER_ADDR payload1) wC1 in
  ∀ l1, rtc (echo_step osC1 osS client1 server) (opened osC1 osS client1 server payload1 wC1 wS) l1 →
  answered l1 ∨ settled l1 →
  let y1 := run (Echo.client_await payload1 (1 + polls) x1.1) l1.(end_a) in
  (y1.1 = Got (MkDataMessage Echo.SERVER_ADDR payload1) ∧ y1.2.(cancelled) = true) ∧
  ∀ l2, rtc (crashed_step osC1 osS client1 server) l1 l2 →
  let x2 := run (KcpPeer.send (os := osC2) client2 Echo.SERVER_ADDR payload2) wC2 in
  ∀ l3, rtc (echo_step osC2 osS client2 server)
    (opened osC2 osS client2 server payload2 wC2 l2.(end_b)) l3 →
  answered l3 ∨ settled l3 →
  let y2 := run (Echo.client_await payload2 (1 + polls) x2.1) l3.(end_a) in
  y2.1 = Got (MkDataMessage Echo.SERVER_ADDR payload2) ∧ y2.2.(cancelled) = true.
Proof.
  intros Hf1 Hf2 Hne x1 l1 Hl1 Hend1.
  destruct (bind_empty osC1 config client1 wC1 bindC1) as [HwC1 _].
  destruct (bind_empty osC2 config client2 wC2 bindC2) as [HwC2 _].
  destruct (bind_empty osS config server wS bindS) as [HwS [meS HmeS]].
  destruct (echo_incarnation osC1 osS client1 server send_okC1 send_okS payload1 wC1 wS meS HmeS)
    as [Hx1 H1]; try (by subst); [by left; subst|].
  destruct (H1 l1 Hl1) as (Hc1 & _ & _ & Hg1). destruct (Hg1 Hend1) as [Hp1 HpS1].
  split; [by apply client_gets|]. intros l2 Hl2 x2 l3 Hl3 Hend3.
  destruct (H1 l2) as (_ & HcS2 & (k & HeS2) & Hg2).
  { etransitivity; [exact Hl1|]. by apply crashed_echo. }
  destruct Hg2 as [_ Hp2]; [left; unfold answered; rewrite (crashed_end_a _ _ _ _ _ _ Hl2); by rewrite Hp1|].
  destruct (echo_incarnation osC2 osS client2 server send_okC2 send_okS payload2 wC2 l2.(end_b) meS HmeS)
    as [Hx2 H2]; try (by subst).
  { right. exists (os_rand (Os := osC1) wC1.(nrand)), k. subst. done. }
  destruct (H2 l3 Hl3) as (Hc3 & _ & _ & Hg3). destruct (Hg3 Hend3) as [Hp3 _].
  by apply client_gets.
Qed.
End EchoExample.

(** ** Two peers that start at once *)

Section DuplexPeers.
Context {K : KcpLib} {L : @KcpLaws K} (osA osB : Os) {OLA : OsLaws osA} {OLB : OsLaws osB}.
Context (alice bob : KcpPeer) (wA wB : World).
Context (bindA : KcpPeer.bind_with (os := osA) example_config = Ok (alice, wA)).
Context (bindB : KcpPeer.bind_with (os := osB) example_config = Ok (bob, wB)).
Context (localA : KcpPeer.local_addr alice = Duplex.ALICE_ADDR).
Context (localB : KcpPeer.local_addr bob = Duplex.BOB_ADDR).

Lemma bind_local (o : Os) config (self : KcpPeer) (w : World) :
  KcpPeer.bind_with (os := o) config = Ok (self, w) →
  os_local_addr (Os := o) = Ok (KcpPeer.local_addr self) ∧ w = KcpPeer.empty_world.
Proof.
  unfold KcpPeer.bind_with. destruct (os_bind (Os := o)); [|done].
  destruct (os_local_addr (Os := o)) as [me|]; [|done]. by intros [= <- <-].
Qed.

(** The duplex example: both peers bind to the address the other sends to
    and send first; when their SYNs cross, both are connected under the id
    that Bob drew, because his port is the greater, with one [Connected]
    each. *)
Theorem duplex_connects msgA msgB :
  let cA := os_rand (Os := osA) 0 in
  let cB := os_rand (Os := osB) 0 in
  cA ≠ cB →
  let wA1 := (run (KcpPeer.send (os := osA) alice (KcpPeer.local_addr bob) msgA) wA).2 in
  let wB1 := (run (KcpPeer.send (os := osB) bob (KcpPeer.local_addr alice) msgB) wB).2 in
  let wA2 := (run (handle_incoming (os := osA) (encode_control Syn cB) Duplex.BOB_ADDR
                 alice.(kp_incarnation) alice.(kp_config)) wA1).2 in
  let wB2 := (run (handle_incoming (os := osB) (encode_control Syn cA) Duplex.ALICE_ADDR
                 bob.(kp_incarnation) bob.(kp_config)) wB1).2 in
  last_sent wA1 Duplex.BOB_ADDR (encode_control Syn cA) ∧
  last_sent wB1 Duplex.ALICE_ADDR (encode_control Syn cB) ∧
  connected wA2 Duplex.BOB_ADDR cB ∧ connected wB2 Duplex.ALICE_ADDR cB ∧
  wA2.(World.events) = [Connected Duplex.BOB_ADDR] ∧
  wB2.(World.events) = [Connected Duplex.ALICE_ADDR].
Proof.
  cbv zeta. intros Hne. destruct (bind_local osA _ _ _ bindA) as [HmeA ->].
  destruct (bind_local osB _ _ _ bindB) as [HmeB ->]. rewrite localA, localB in *.
  destruct (send_connects (os := osA) alice Duplex.BOB_ADDR msgA KcpPeer.empty_world eq_refl)
    as (HA & HeA & HlA).
  destruct (send_connects (os := osB) bob Duplex.ALICE_ADDR msgB KcpPeer.empty_world eq_refl)
    as (HB & HeB & HlB).
  assert (HuA : u32_ok (os_rand (Os := osA) 0)) by (pose proof (os_rand_range (OsLaws := OLA) 0); width_lia).
  assert (HuB : u32_ok (os_rand (Os := osB) 0)) by (pose proof (os_rand_range (OsLaws := OLB) 0); width_lia).
  destruct (crossing_syns osA osB alice bob Duplex.ALICE_ADDR Duplex.BOB_ADDR _ _ _ _ _ _
    HmeA HmeB HuA HuB Hne HA HB) as (H1 & H2 & H3 & H4 & _).
  split_and!; [exact HlA|exact HlB|exact H1|exact H2| |].
  - exact (eq_trans H3 (f_equal (λ l, l ++ _) HeA)).
  - exact (eq_trans H4 (f_equal (λ l, l ++ _) HeB)).
Qed.
End DuplexPeers.

(** ** The greeting of node 0 *)

Section Greeting.
Context {K : KcpLib} {L : @KcpLaws K} {os : Os} (node0 : KcpPeer).

(** KCP takes a greeting on a fresh instance with this configuration. *)
Context (alive : ∀ c, kcp_is_dead_link (apply_to node0.(kp_config) (kcp_new c)) = false).
Context (takes : ∀ c p, p ∈ Gossip.PORTS → ∃ k n,
  kcp_send (Gossip.hello p) (apply_to node0.(kp_config) (kcp_new c)) = KRet (k, Ok n)).

Lemma greet_step peer p w :
  p ∈ Gossip.PORTS → w.(sessions) !! canonicalize peer = None →
  ∃ σ, σ.(closed) = false ∧ σ.(inner).(state) = SynSent ∧
    σ.(inner).(conv_id) = os_rand w.(nrand) ∧
    let x := run (KcpPeer.send node0 peer (Gossip.hello p)) w in
    x.1 = Ok tt ∧ x.2.(sessions) = <[canonicalize peer := w.(next)]> w.(sessions) ∧
    x.2.(heap) = <[w.(next) := σ]> w.(heap) ∧ x.2.(next) = S w.(next) ∧
    x.2.(nrand) = S w.(nrand) ∧ x.2.(World.events) = w.(World.events) ∧
    wire <$> x.2.(sent) = (wire <$> w.(sent)) ++ [(peer, encode_control Syn (os_rand w.(nrand)))].
Proof.
  intros Hport Hs. pose proof (send_auto_initiates_run node0 peer (Gossip.hello p) w) as H.
  rewrite Hs in H. cbv zeta in H. destruct H as (Hrun & Hm & Hsent & He & σ & Hh & Hst & Hcv & _ & Hc & _ & Hk & _).
  set (w1 := initiated_world node0 peer w) in *.
  assert (Hn : w1.(next) = S w.(next) ∧ w1.(nrand) = S w.(nrand)).
  { unfold w1, initiated_world, syn_sent_world. by destruct (dg_result _). }
  assert (Hσ : w1.(heap) !! w.(next) = Some σ) by (rewrite Hh; apply lookup_insert_eq).
  destruct (send_data_run w.(next) (Gossip.hello p) σ w1 Hσ) as (_ & _ & Halive).
  rewrite Hk in Halive. destruct (Halive Hc (alive _)) as (k & r & Hkr & H).
  destruct (takes (os_rand w.(nrand)) p Hport) as (k' & n & Hk'). rewrite Hk' in Hkr.
  injection Hkr as <- <-. rewrite Hst in H.
  exists (with_kcp k' σ). split_and!; [done|done|done|]. cbv zeta. rewrite Hrun, H.
  destruct Hn as [Hn Hr]. cbn [fst snd upd_heap sessions heap next nrand World.events sent].
  rewrite Hm, Hh, insert_insert_eq, Hn, Hr, He, Hsent, fmap_app. by split_and!.
Qed.

(** Node 0 of the gossip example: from a fresh node, its loop ends without
    a panic, with one connecting session per other port, each under its own
    draw, and exactly one SYN to each on the wire; the greetings wait in KCP and
    no event has been fired. *)
Theorem gossip_opens_sessions :
  let x := run (Gossip.node0_main node0) KcpPeer.empty_world in
  x.1 = true ∧
  x.2.(sessions) = {[ canonicalize (loopback 9881) := 1%nat; canonicalize (loopback 9880) := 0%nat ]} ∧
  connecting x.2 (loopback 9880) (os_rand 0) ∧ connecting x.2 (loopback 9881) (os_rand 1) ∧
  wire <$> x.2.(sent) = [(loopback 9880, encode_control Syn (os_rand 0));
                         (loopback 9881, encode_control Syn (os_rand 1))] ∧
  x.2.(World.events) = [].
Proof.
  unfold Gossip.node0_main, Gossip.PORTS. cbn [drop Gossip.greet]. cbv zeta.
  destruct (greet_step (loopback 9880) 9880 KcpPeer.empty_world ltac:(set_solver) eq_refl)
    as (σ0 & Hc0 & Hst0 & Hcv0 & Hx0 & Hs0 & Hh0 & Hn0 & Hr0 & He0 & Hw0).
  rewrite run_bind, Hx0. set (w1 := (run _ _).2) in *.
  destruct (greet_step (loopback 9881) 9881 w1 ltac:(set_solver)) as
    (σ1 & Hc1 & Hst1 & Hcv1 & Hx1 & Hs1 & Hh1 & Hn1 & Hr1 & He1 & Hw1).
  { rewrite Hs0. reflexivity. }
  rewrite run_bind, Hx1. set (w2 := (run _ w1).2) in *. cbn [run fst snd].
  rewrite Hs0, Hn0 in Hs1. rewrite Hh0, Hn0 in Hh1. rewrite Hr0 in Hcv1, Hw1.
  split_and!; [done|exact Hs1| | |by rewrite Hw1, Hw0|by rewrite He1, He0].
  - exists 0%nat, σ0. rewrite Hs1, Hh1. by split_and!.
  - exists 1%nat, σ1. rewrite Hs1, Hh1. by split_and!.
Qed.
End Greeting.

(** ** The examples on the toy KCP *)

Definition toy_bound (me : SocketAddr) : KcpPeer := MkKcpPeer 77 example_config me.

Definition toy_inbox_world : @World toy_lib :=
  set_pending [MkDataMessage addr_b [5; 6]; MkDataMessage addr_b [7]] (toy_world toy_connected).

Lemma echo_server_equiv_witness :
  wire <$> (run (Echo.server_loop (os := toy_os addr_a) (toy_bound addr_a) 2 1) toy_inbox_world).2.(sent) =
    [(addr_b, encode_kcp_data (to_le_bytes 7 ++ [5; 6]));
     (addr_b, encode_kcp_data (to_le_bytes 7 ++ [7]))].
Proof.
  refine (eq_trans (f_equal (λ x : bool * @World toy_lib, wire <$> x.2.(sent))
    (echo_server_equiv (os := toy_os addr_a) (toy_bound addr_a)
      [MkDataMessage addr_b [5; 6]; MkDataMessage addr_b [7]] 0 toy_inbox_world eq_refl)) _).
  vm_compute. reflexivity.
Defined.

(** A run of either client: its message arrives, the server's update task ticks
    and the server answers, and the answer arrives. *)
Section ToyEcho.
Context (osC : Os).

Let client : KcpPeer := toy_bound Echo.CLIENT_ADDR.
Let server : KcpPeer := toy_bound Echo.SERVER_ADDR.
Let osS : Os := toy_os Echo.SERVER_ADDR.

Definition echo_arrive_b (l : @Line toy_lib) : @Line toy_lib :=
  let w := receive (os := osS) server Echo.CLIENT_ADDR (take 1 l.(net_ab)) l.(end_b) in
  MkLine l.(end_a) w (drop 1 l.(net_ab)) (l.(net_ba) ++ sent_since l.(end_b) w).

Definition echo_tick_b (l : @Line toy_lib) : @Line toy_lib :=
  let w := (run (update_tick (os := osS) server.(kp_config)) l.(end_b)).2 in
  MkLine l.(end_a) w l.(net_ab) (l.(net_ba) ++ sent_since l.(end_b) w).

Definition echo_answer (l : @Line toy_lib) : @Line toy_lib :=
  let w := (run (Echo.server_loop (os := osS) server 1 2) l.(end_b)).2 in
  MkLine l.(end_a) w l.(net_ab) (l.(net_ba) ++ sent_since l.(end_b) w).

Definition echo_arrive_a (l : @Line toy_lib) : @Line toy_lib :=
  let w := receive (os := osC) client Echo.SERVER_ADDR (take 1 l.(net_ba)) l.(end_a) in
  MkLine w l.(end_b) (l.(net_ab) ++ sent_since l.(end_a) w) (drop 1 l.(net_ba)).

Definition echo_end (l : @Line toy_lib) : @Line toy_lib :=
  echo_arrive_a (echo_answer (echo_tick_b (echo_arrive_b l))).

Abbreviation toy_echo := (echo_step (F := toy_kcp_link) osC osS client server).

Lemma echo_tick_step l s :
  (l.(end_b)).(sessions) = {[ canonicalize Echo.CLIENT_ADDR := s ]} →
  is_Some (((echo_tick_b l).(end_b)).(sessions) !! canonicalize Echo.CLIENT_ADDR) →
  toy_echo l (echo_tick_b l).
Proof.
  intros Hs [k Hk]. eapply echo_network with (x := TickB); [|done]. destruct l as [wC wS ab ba].
  cbn [end_b] in Hs. apply (line_tick_b _ _ _ _ _ _ s); [exact Hs|].
  intros E. pose proof (eq_trans (eq_sym Hk) E). done.
Qed.

Lemma echo_end_run l s dg ab m ms dg' ba :
  l.(net_ab) = dg :: ab →
  bool_decide (((echo_arrive_b l).(end_b)).(sessions) = {[ canonicalize Echo.CLIENT_ADDR := s ]}) = true →
  is_Some (((echo_tick_b (echo_arrive_b l)).(end_b)).(sessions) !! canonicalize Echo.CLIENT_ADDR) →
  ((echo_tick_b (echo_arrive_b l)).(end_b)).(pending) = m :: ms →
  (echo_answer (echo_tick_b (echo_arrive_b l))).(net_ba) = dg' :: ba →
  rtc toy_echo l (echo_end l).
Proof.
  intros Hab Hs%bool_decide_eq_true Hk Hp Hba.
  apply (rtc_l _ _ (echo_arrive_b l)).
  { eapply echo_network with (x := ArriveB); [|done]. destruct l as [wC wS ab0 ba0].
    cbn [net_ab] in Hab. subst. apply line_arrive_b. }
  apply (rtc_l _ _ (echo_tick_b (echo_arrive_b l))); [by eapply echo_tick_step|].
  revert Hp Hba. unfold echo_end. generalize (echo_tick_b (echo_arrive_b l)). clear. intros l Hp Hba.
  apply (rtc_l _ _ (echo_answer l)).
  { destruct l as [wC wS ab ba0]. by apply (echo_serve _ _ _ _ 1 m ms). }
  apply rtc_once. eapply echo_network with (x := ArriveA); [|done].
  destruct (echo_answer l) as [wC wS ab ba0]. cbn [net_ba] in Hba. subst. apply line_arrive_a.
Qed.
End ToyEcho.

Definition toy_opened_v (osC : Os) (payload : bytes) (wS : World) : @Line toy_lib :=
  opened osC (toy_os Echo.SERVER_ADDR) (toy_bound Echo.CLIENT_ADDR) (toy_bound Echo.SERVER_ADDR)
    payload KcpPeer.empty_world wS.

Definition toy_v1 : @Line toy_lib :=
  let osC := toy_os Echo.CLIENT_ADDR in
  echo_end osC (toy_opened_v osC (as_bytes "hello v1") KcpPeer.empty_world).

Definition toy_v2 : @Line toy_lib :=
  let osC := toy_os_shifted Echo.CLIENT_ADDR in
  echo_end osC (toy_opened_v osC (as_bytes "hello v2 (after restart)") toy_v1.(end_b)).

Lemma toy_v1_run :
  let osC := toy_os Echo.CLIENT_ADDR in
  rtc (echo_step (F := toy_kcp_link) osC (toy_os Echo.SERVER_ADDR) (toy_bound Echo.CLIENT_ADDR)
    (toy_bound Echo.SERVER_ADDR)) (toy_opened_v osC (as_bytes "hello v1") KcpPeer.empty_world) toy_v1.
Proof.
  cbv zeta. unfold toy_v1. cbv zeta. eapply (echo_end_run _ _ 0%nat).
  - vm_compute. reflexivity.
  - vm_compute. reflexivity.
  - vm_compute. by eexists.
  - vm_compute. reflexivity.
  - vm_compute. reflexivity.
Qed.

Lemma toy_v2_run :
  let osC := toy_os_shifted Echo.CLIENT_ADDR in
  rtc (echo_step (F := toy_kcp_link) osC (toy_os Echo.SERVER_ADDR) (toy_bound Echo.CLIENT_ADDR)
    (toy_bound Echo.SERVER_ADDR))
    (toy_opened_v osC (as_bytes "hello v2 (after restart)") toy_v1.(end_b)) toy_v2.
Proof.
  cbv zeta. unfold toy_v2. cbv zeta. eapply (echo_end_run _ _ 1%nat).
  - vm_compute. reflexivity.
  - vm_compute. reflexivity.
  - vm_compute. by eexists.
  - vm_compute. reflexivity.
  - vm_compute. reflexivity.
Qed.

Lemma echo_round_trip_witness :
  (run (Echo.client_await (as_bytes "hello v1") 2 (Ok tt)) toy_v1.(end_a)).1 =
    Got (MkDataMessage Echo.SERVER_ADDR (as_bytes "hello v1")) ∧
  (run (Echo.client_await (as_bytes "hello v2 (after restart)") 2 (Ok tt)) toy_v2.(end_a)).1 =
    Got (MkDataMessage Echo.SERVER_ADDR (as_bytes "hello v2 (after restart)")) ∧
  ((toy_v2.(end_b)).(World.events) =
    [Connected Echo.CLIENT_ADDR; PeerRestarted Echo.CLIENT_ADDR; Connected Echo.CLIENT_ADDR]).
Proof.
  assert (H1 : answered toy_v1) by (unfold answered; vm_compute; discriminate).
  assert (H2 : answered toy_v2) by (unfold answered; vm_compute; discriminate).
  destruct (echo_round_trip (F := toy_kcp_link) (toy_os Echo.CLIENT_ADDR)
    (toy_os_shifted Echo.CLIENT_ADDR) (toy_os Echo.SERVER_ADDR) (OLC1 := toy_os_laws _)
    (OLC2 := toy_os_shifted_laws _) (OLS := toy_os_laws _) (toy_bound Echo.CLIENT_ADDR)
    (toy_bound Echo.CLIENT_ADDR) (toy_bound Echo.SERVER_ADDR) example_config
    KcpPeer.empty_world KcpPeer.empty_world KcpPeer.empty_world (toy_os_ok _) (λ n d to, eq_refl)
    (toy_os_ok _) eq_refl eq_refl eq_refl (as_bytes "hello v1")
    (as_bytes "hello v2 (after restart)") 1 I I ltac:(vm_compute; discriminate) toy_v1)
    as [[E1 _] H]; [exact toy_v1_run|by left|].
  destruct (H toy_v1 (rtc_refl _ _) toy_v2) as [E2 _]; [exact toy_v2_run|by left|].
  split; [exact E1|split; [exact E2|vm_compute; reflexivity]].
Defined.

Lemma gossip_opens_sessions_witness :
  wire <$> (run (Gossip.node0_main (os := toy_os (loopback 9879)) (toy_bound (loopback 9879)))
    (KcpPeer.empty_world (K := toy_lib))).2.(sent) =
    [(loopback 9880, encode_control Syn 1); (loopback 9881, encode_control Syn 2)].
Proof.
  refine (proj1 (proj2 (proj2 (proj2 (proj2 (gossip_opens_sessions (L := toy_laws)
    (os := toy_os (loopback 9879)) (toy_bound (loopback 9879)) _ _)))))).
  - reflexivity.
  - intros c p _. rewrite toy_apply. by eexists _, _.
Defined.

Lemma duplex_connects_witness :
  connected (run (handle_incoming (K := toy_lib) (os := toy_os Duplex.ALICE_ADDR)
      (encode_control Syn 2) Duplex.BOB_ADDR 77 example_config)
    (run (KcpPeer.send (os := toy_os Duplex.ALICE_ADDR) (toy_bound Duplex.ALICE_ADDR) Duplex.BOB_ADDR
      (as_bytes "ping from Alice")) KcpPeer.empty_world).2).2 Duplex.BOB_ADDR 2.
Proof.
  destruct (duplex_connects (L := toy_laws) (toy_os Duplex.ALICE_ADDR)
    (toy_os_shifted Duplex.BOB_ADDR) (OLA := toy_os_laws _) (OLB := toy_os_shifted_laws _)
    (toy_bound Duplex.ALICE_ADDR) (toy_bound Duplex.BOB_ADDR) KcpPeer.empty_world
    KcpPeer.empty_world eq_refl eq_refl eq_refl eq_refl (as_bytes "ping from Alice")
    (as_bytes "ping from Bob") ltac:(vm_compute; discriminate)) as (_ & _ & H & _).
  exact H.
Defined.
