(* ===== verification/Backoff.v ===== *)
(** * The SYN retransmission schedule (src/src/session.rs, [maybe_retry_syn])

    A session in its handshake, ticked repeatedly: when the SYNs can go out,
    how many there are, and that the retries are eventually used up. *)

From S2P Require Import Prelude Prog Packet Kcp Addr Errors Config World Session Transport.
From S2P Require Import Incoming Effects Toy SessionSpec IncomingSpec TransportSpec.
Open Scope prog_scope.

Section Backoff.
Context {K : KcpLib} {os : Os}.

(** The clock reading number [n], in milliseconds. *)
Definition reading (n : nat) : Z := epoch_ms_of (os_elapsed n).

(** [n] ticks, as the update task calls [maybe_retry_syn]: with the time of
    the tick. *)
Fixpoint retry_ticks (n : nat) (s : nat) (config : KcpConfig) : prog World unit :=
  match n with
  | O => Ret tt
  | S n' =>
      now <- epoch_ms ;;
      Session.maybe_retry_syn s config now ;;
      retry_ticks n' s config
  end.

Context (s : nat) (config : KcpConfig).
Let base := as_millis config.(syn_retry_interval).
Let max_retries := config.(syn_max_retries).

(** The configuration is in range: the count never reaches the width of the
    shift and the longest wait fits in 64 bits. *)
Context (Hbase : 0 ≤ base) (Hmax : 0 ≤ max_retries < 64) (Hfit : base * 2 ^ max_retries < 2 ^ 64).

Lemma pow2_le r : 0 ≤ r ≤ max_retries → 1 ≤ 2 ^ r ≤ 2 ^ max_retries.
Proof.
  intros Hr. split; [|apply Z.pow_le_mono_r; lia].
  change 1 with (2 ^ 0). apply Z.pow_le_mono_r; lia.
Qed.

(** In range, the backoff before retry [r] is [base * 2^r]. *)
Lemma syn_backoff_exact r : 0 ≤ r ≤ max_retries → Session.syn_backoff config r = base * 2 ^ r.
Proof.
  intros Hr. pose proof (pow2_le r Hr). unfold Session.syn_backoff. fold base.
  rewrite as_u64_id by (unfold u64_ok; nia). apply shl_u64_small; [lia|lia|nia].
Qed.

Definition syn_wire (σ : Session) : SocketAddr * bytes :=
  (σ.(peer_addr), encode_control Syn σ.(inner).(conv_id)).

(** One tick of an open session in its handshake. *)
Lemma retry_tick σ w :
  w.(heap) !! s = Some σ → σ.(closed) = false → σ.(inner).(state) = SynSent →
  0 ≤ σ.(syn_retries) ≤ max_retries →
  let x := run (now <- epoch_ms ;; Session.maybe_retry_syn s config now) w in
  if decide (σ.(syn_retries) < max_retries ∧
             base * 2 ^ σ.(syn_retries) ≤ saturating_sub (reading w.(nclock)) σ.(syn_sent_at))
  then
    x.2.(heap) !! s = Some (set_syn_retries (σ.(syn_retries) + 1)
                             (set_syn_sent_at (reading (S w.(nclock))) σ)) ∧
    wire <$> x.2.(sent) = (wire <$> w.(sent)) ++ [syn_wire σ] ∧
    x.2.(nclock) = S (S w.(nclock)) ∧ x.1 = Ok true
  else
    x.2 = tick_clock w ∧
    x.1 = if decide (σ.(syn_retries) = max_retries) then Err DeadLink else Ok false.
Proof.
  intros Hσ Hc Hst Hr. cbn zeta. unfold epoch_ms. rewrite run_bind, run_act. cbn [fst snd].
  rewrite (maybe_retry_syn_run s config _ σ) by done. rewrite Hc.
  rewrite (decide_False (P := state (inner σ) = Established)) by congruence.
  fold max_retries. destruct (Z.leb_spec max_retries σ.(syn_retries)).
  { rewrite decide_False by lia. cbn [fst snd]. split; [done|]. rewrite decide_True; [done|lia]. }
  rewrite syn_backoff_exact by lia.
  fold (reading (nclock w)).
  destruct (Z.ltb_spec (saturating_sub (reading (nclock w)) (syn_sent_at σ))
    (base * 2 ^ syn_retries σ)).
  { rewrite decide_False by lia. cbn [fst snd]. split; [done|]. rewrite decide_False; [done|lia]. }
  rewrite decide_True by lia. cbn [fst snd]. unfold retry_world. split_and!; try done.
  - cbn. rewrite lookup_insert_eq. unfold retried, wrapping_add_u32.
    rewrite as_u32_id by (unfold u32_ok; lia). done.
  - cbn. rewrite fmap_app. done.
Qed.

Lemma retry_ticks_S n w :
  run (retry_ticks (S n) s config) w =
    run (retry_ticks n s config)
      (run (now <- epoch_ms ;; Session.maybe_retry_syn s config now) w).2.
Proof. cbn [retry_ticks]. by rewrite !run_bind. Qed.

Section Monotone.
(** The clock does not step back by reading number [m]. *)
Context (m : nat) (Hmono : ∀ i, (i < m)%nat → reading i ≤ reading (S i)).

Lemma schedule_from n σ w :
  w.(heap) !! s = Some σ → σ.(closed) = false → σ.(inner).(state) = SynSent →
  0 ≤ σ.(syn_retries) ≤ max_retries → σ.(syn_sent_at) ≤ reading w.(nclock) →
  (w.(nclock) + 2 * n ≤ m)%nat →
  let w' := (run (retry_ticks n s config) w).2 in
  ∃ σ' k, w'.(heap) !! s = Some σ' ∧
    σ'.(syn_retries) = σ.(syn_retries) + Z.of_nat k ∧ σ'.(syn_retries) ≤ max_retries ∧
    σ.(syn_sent_at) + base * (2 ^ σ'.(syn_retries) - 2 ^ σ.(syn_retries))
      ≤ σ'.(syn_sent_at) ∧
    wire <$> w'.(sent) = (wire <$> w.(sent)) ++ replicate k (syn_wire σ).
Proof.
  revert σ w. induction n as [|n IH]; intros σ w Hσ Hc Hst Hr Hs Hm; cbn zeta.
  { exists σ, 0%nat. cbn. rewrite app_nil_r. split_and!; (done || lia). }
  rewrite retry_ticks_S. pose proof (retry_tick σ w Hσ Hc Hst Hr) as Ht. cbn zeta in Ht.
  set (w1 := (run (now <- epoch_ms ;; Session.maybe_retry_syn s config now) w).2) in *.
  case_decide as Hd.
  - destruct Ht as (Hσ1 & Hs1 & Hn1 & _).
    pose proof (Hmono (nclock w) ltac:(lia)).
    pose proof (Hmono (S (nclock w)) ltac:(lia)).
    destruct (IH _ w1 Hσ1) as (σ' & k & Hσ' & Hk & Hle & Hat & Hw); try done;
      [cbn; lia|cbn; rewrite Hn1; lia|rewrite Hn1; lia|].
    cbn in Hk, Hat, Hw. exists σ', (S k). rewrite Hw, Hs1, <- app_assoc.
    split_and!; [done|lia|done| |done].
    unfold saturating_sub in Hd. destruct Hd as [_ Hd].
    pose proof (pow2_le σ.(syn_retries) Hr). rewrite Z.pow_add_r, Z.pow_1_r in Hat by lia. nia.
  - destruct Ht as [Hw1 _]. pose proof (Hmono (nclock w) ltac:(lia)).
    destruct (IH σ w1) as (σ' & k & Hrest); try done;
      [by rewrite Hw1|rewrite Hw1; cbn; lia|rewrite Hw1; cbn; lia|].
    exists σ', k. by rewrite Hw1 in *.
Qed.

(** C27. The schedule of the documentation is a lower bound: however often a
    handshake that started at [T0] is ticked, the SYNs retransmitted for it
    are as many as its retry counter says, never more than the maximum, all
    of them SYNs with the session's id to its peer, and the [r]-th goes out
    no earlier than [T0 + base * (2^r - 1)]. *)
Theorem syn_retry_schedule n σ w :
  w.(heap) !! s = Some σ → σ.(closed) = false → σ.(inner).(state) = SynSent →
  σ.(syn_retries) = 0 → σ.(syn_sent_at) ≤ reading w.(nclock) →
  (w.(nclock) + 2 * n ≤ m)%nat →
  let w' := (run (retry_ticks n s config) w).2 in
  ∃ σ', w'.(heap) !! s = Some σ' ∧
    0 ≤ σ'.(syn_retries) ≤ max_retries ∧
    σ.(syn_sent_at) + base * (2 ^ σ'.(syn_retries) - 1) ≤ σ'.(syn_sent_at) ∧
    wire <$> w'.(sent) =
      (wire <$> w.(sent)) ++ replicate (Z.to_nat σ'.(syn_retries)) (syn_wire σ).
Proof.
  intros Hσ Hc Hst Hr Hs Hm. cbn zeta.
  destruct (schedule_from n σ w Hσ Hc Hst) as (σ' & k & Hσ' & Hk & Hle & Hat & Hw);
    [lia|done|done|].
  exists σ'. rewrite Hr in Hk, Hat. change (2 ^ 0) with 1 in Hat.
  split_and!; [done|lia|lia|done|]. rewrite Hw. do 2 f_equal. lia.
Qed.
End Monotone.

(** C28. The handshake cannot go on forever: if consecutive clock readings are
    at least the longest backoff apart, every tick is a retransmission until
    the retries are used up, and the tick after that reports [DeadLink]. *)
Theorem syn_retry_exhausts σ w :
  (∀ i, (i < w.(nclock) + 2 * Z.to_nat max_retries)%nat →
    reading i + base * 2 ^ max_retries ≤ reading (S i)) →
  w.(heap) !! s = Some σ → σ.(closed) = false → σ.(inner).(state) = SynSent →
  σ.(syn_retries) = 0 → σ.(syn_sent_at) + base * 2 ^ max_retries ≤ reading w.(nclock) →
  let w' := (run (retry_ticks (Z.to_nat max_retries) s config) w).2 in
  (∃ σ', w'.(heap) !! s = Some σ' ∧ σ'.(syn_retries) = max_retries) ∧
  (run (now <- epoch_ms ;; Session.maybe_retry_syn s config now) w').1 = Err DeadLink.
Proof.
  intros Hstep Hσ Hc Hst Hr Hs. cbn zeta.
  set (m := (w.(nclock) + 2 * Z.to_nat max_retries)%nat) in *.
  assert (Hgen : ∀ n σ w, (w.(nclock) + 2 * n ≤ m)%nat → w.(heap) !! s = Some σ → σ.(closed) = false →
    σ.(inner).(state) = SynSent → 0 ≤ σ.(syn_retries) →
    σ.(syn_retries) + Z.of_nat n = max_retries →
    σ.(syn_sent_at) + base * 2 ^ max_retries ≤ reading w.(nclock) →
    ∃ σ', (run (retry_ticks n s config) w).2.(heap) !! s = Some σ' ∧
      σ'.(closed) = false ∧ σ'.(inner).(state) = SynSent ∧ σ'.(syn_retries) = max_retries).
  { clear Hσ Hc Hst Hr Hs. clearbody m. clear σ w.
    induction n as [|n IH]; intros σ w Hm Hσ Hc Hst Hr Hn Hs.
    { exists σ. split_and!; try done. lia. }
    rewrite retry_ticks_S. pose proof (retry_tick σ w Hσ Hc Hst ltac:(lia)) as Ht. cbn zeta in Ht.
    pose proof (pow2_le σ.(syn_retries) ltac:(lia)).
    rewrite decide_True in Ht by (unfold saturating_sub; split; [lia|nia]).
    destruct Ht as (Hσ1 & _ & Hn1 & _). eapply IH; [|exact Hσ1|done|done|cbn; lia|cbn; lia|].
    - rewrite Hn1. lia.
    - rewrite Hn1. apply Hstep. lia. }
  destruct (Hgen (Z.to_nat max_retries) σ w ltac:(lia) Hσ Hc Hst)
    as (σ' & Hσ' & Hc' & Hst' & Hr'); [lia|lia|done|].
  split; [by exists σ'|].
  pose proof (retry_tick σ' _ Hσ' Hc' Hst' ltac:(lia)) as Ht. cbn zeta in Ht.
  rewrite decide_False in Ht by lia. destruct Ht as [_ ->]. by rewrite decide_True.
Qed.
End Backoff.

(** ** On a concrete clock: a reading every five seconds *)

Definition slow_os (me : SocketAddr) : Os := {|
  os_elapsed n := Some (from_millis (1000 + 5000 * Z.of_nat n));
  os_send _ b _ := Ok (Z.of_nat (length b));
  os_rand n := 1 + Z.of_nat n mod 1000;
  os_incarnation := 77;
  os_bind := Ok tt;
  os_local_addr := Ok me;
  os_iter m := map_to_list m;
|}.

(** A session in its handshake since 1000 ms. *)
Definition waiting_session : @Session toy_lib :=
  Session.new_session (K := toy_lib) (kcp_new 7) 7 addr_b SynSent 11 1000 1000.

Definition waiting_world : @World toy_lib :=
  MkWorld {[ 0%nat := waiting_session ]} 1 {[ canonicalize addr_b := 0%nat ]} [] [] false false
    [] 1 0.

Lemma slow_reading i :
  Z.of_nat i < 1000000 → reading (os := slow_os addr_a) i = 1000 + 5000 * Z.of_nat i.
Proof.
  intros Hi. unfold reading, epoch_ms_of. cbn. unfold as_millis, from_millis.
  rewrite Z.div_mul by lia. apply as_u64_id. unfold u64_ok. lia.
Qed.

(** The three side conditions on the default configuration. *)
Lemma default_in_range :
  0 ≤ as_millis default.(syn_retry_interval) ∧
  0 ≤ default.(syn_max_retries) < 64 ∧
  as_millis default.(syn_retry_interval) * 2 ^ default.(syn_max_retries) < 2 ^ 64.
Proof. vm_compute. by split_and!. Qed.

Lemma syn_retry_schedule_witness :
  ∃ σ', (run (retry_ticks (K := toy_lib) (os := slow_os addr_a) 7 0 default) waiting_world).2.(heap) !! 0%nat
          = Some σ' ∧ σ'.(syn_retries) = 5 ∧ 1000 + 150 * (2 ^ 5 - 1) ≤ σ'.(syn_sent_at).
Proof.
  destruct default_in_range as (H1 & H2 & H3).
  destruct (syn_retry_schedule (K := toy_lib) (os := slow_os addr_a) 0 default H1 H2 H3 100
    ltac:(intros i Hi; rewrite !slow_reading by lia; lia)
    7 waiting_session waiting_world eq_refl eq_refl eq_refl eq_refl
    ltac:(vm_compute; discriminate) ltac:(cbn; lia)) as (σ' & Hσ' & Hr & Hat & Hw).
  exists σ'. split; [exact Hσ'|].
  assert (H : σ'.(syn_retries) = 5) by (vm_compute in Hσ'; injection Hσ' as <-; reflexivity).
  split; [exact H|]. rewrite H in Hat. exact Hat.
Defined.

Lemma syn_retry_exhausts_witness :
  (run (now <- epoch_ms (os := slow_os addr_a) ;;
        Session.maybe_retry_syn (os := slow_os addr_a) 0 default now)
    (run (retry_ticks (K := toy_lib) (os := slow_os addr_a) 5 0 default) waiting_world).2).1 = Err DeadLink.
Proof.
  destruct default_in_range as (H1 & H2 & H3).
  apply (syn_retry_exhausts (K := toy_lib) (os := slow_os addr_a) 0 default H1 H2 H3
    waiting_session waiting_world); try reflexivity.
  - change (default.(syn_max_retries)) with 5. intros i Hi. change (Z.to_nat 5) with 5%nat in Hi. cbn in Hi.
    rewrite !slow_reading by lia. change (as_millis (syn_retry_interval default)) with 150. lia.
  - vm_compute. discriminate.
Defined.
