(* ===== verification/Races.v ===== *)
(** * Three interleavings the locks do not exclude (src/src/transport.rs)

    All come from a decision made under one lock and carried out under
    another, with an [await] or another task in between: the acceptance of a
    SYN over a session that [send] has just registered, and the removal of an
    address whose session has just been replaced, by the update task and by the
    handler of a RESET. *)

From S2P Require Import Prelude Prog Packet Kcp Addr Errors Config World Session Transport.
From S2P Require Import Incoming Update Invariant Toy Tasks Effects SessionSpec IncomingSpec.
From S2P Require Import TransportSpec UpdateSpec Handshake.
Open Scope prog_scope.

Section Races.
Context {K : KcpLib} {L : @KcpLaws K} {os : Os} (self : KcpPeer).
Context (data payload : bytes) (from me : SocketAddr).
Let inc := self.(kp_incarnation).
Let config := self.(kp_config).
Let conv := payload_conv payload.
Context (Hdata : split_packet data = Some (Syn, payload)) (Hlen : (4 ≤ length payload)%nat).
Context (Hme : os_local_addr = Ok me).

(** The handler of the SYN, split after the decision. *)
Lemma syn_task_split :
  task_prog self (TIncoming data from) =
    bind (syn_check conv from me) (λ result,
      bind (match result.(send_ack_to) with
            | Some peer => send_to (encode_control SynAck result.(ack_conv)) peer ;; Ret tt
            | None => Ret tt
            end ;;
            match result.(action) with
            | CreateNew =>
                s <- Session.new_inbound conv from inc config ;;
                insert_inbound from s ;;
                Ret (Ok tt : Result unit Error)
            | KeepExisting | Ignore => Ret (Ok tt)
            end) (λ _, Ret tt)).
Proof.
  cbn [task_prog]. rewrite (handle_control _ _ _ _ _ _ Hdata). unfold handle_syn.
  rewrite decide_False by lia. cbv zeta. by rewrite Hme.
Qed.

(** A connecting session of [send]: what it leaves behind. *)
Lemma send_connecting peer msg w :
  w.(sessions) !! canonicalize peer = None →
  let w1 := (run (KcpPeer.send self peer msg) w).2 in
  w1.(sessions) = <[canonicalize peer := w.(next)]> w.(sessions) ∧
  w1.(next) = S w.(next) ∧ w1.(events) = w.(events) ∧
  ∃ σ, w1.(heap) !! w.(next) = Some σ ∧ σ.(closed) = false ∧ σ.(inner).(state) = SynSent.
Proof.
  intros Hs. cbn zeta. pose proof (send_auto_initiates_run self peer msg w) as H.
  rewrite Hs in H. cbn zeta in H. destruct H as (-> & Hm & _ & He & σ & Hh & Hst & _ & _ & Hc & _).
  assert (Hσ : (initiated_world self peer w).(heap) !! w.(next) = Some σ)
    by (rewrite Hh; apply lookup_insert_eq).
  destruct (send_data_connecting w.(next) σ msg _ Hσ Hc Hst) as (k & ->). cbn.
  rewrite Hm, He. split_and!; [done| |done|].
  - unfold initiated_world, syn_sent_world. by destruct (dg_result _).
  - exists (with_kcp k σ). split_and!; [apply lookup_insert_eq|done|done].
Qed.

Lemma syn_race_run peer msg w :
  canonicalize peer = canonicalize from → w.(sessions) !! canonicalize from = None →
  pool_reach (spawnable self)
    ([task_prog self (TIncoming data from); task_prog self (TSend peer msg)], w)
    ([Ret tt; Ret tt], inbound_world conv from inc config (run (KcpPeer.send self peer msg) w).2).
Proof.
  intros Hp Hs. unfold pool_reach. rewrite syn_task_split.
  etransitivity; [by apply (pool_run_bind _ 0 (syn_check conv from me))|]. cbn [list_insert insert].
  assert (run (syn_check conv from me) w = (MkSynResult CreateNew None 0, w)) as ->.
  { unfold syn_check, map_get. rewrite run_atomic, run_bind, run_get. cbn [fst snd].
    by rewrite Hs. }
  cbn [fst snd send_ack_to action].
  etransitivity; [by apply (pool_run _ 1)|]. cbn [list_insert insert].
  etransitivity; [by apply (pool_run _ 0)|]. cbn [list_insert insert].
  cbn [task_prog]. rewrite !run_bind. constructor.
Qed.

(** C36. A SYN from a peer and a [send] to it can race: the handler decides
    that there is no session and waits for its SYN_ACK to be sent, [send]
    registers its own session and queues the data in it, and the handler then
    overwrites the registration. The session with the data is left open and
    connecting but out of the map, which is all that later packets, calls and
    ticks look at; only [Connected] was fired. *)
Theorem inbound_race_orphans_session peer msg w :
  canonicalize peer = canonicalize from → w.(sessions) !! canonicalize from = None →
  node_inv w →
  ∃ w', pool_reach (spawnable self)
      ([task_prog self (TIncoming data from); task_prog self (TSend peer msg)], w)
      ([Ret tt; Ret tt], w') ∧
    w'.(events) = w.(events) ++ [Connected from] ∧
    ∃ σ, w'.(heap) !! w.(next) = Some σ ∧ σ.(closed) = false ∧
      σ.(inner).(state) = SynSent ∧ ∀ can, w'.(sessions) !! can ≠ Some w.(next).
Proof.
  intros Hp Hs [HI1 HI2]. eexists. split; [by apply syn_race_run|].
  pose proof (send_connecting peer msg w) as H. rewrite Hp in H.
  destruct (H Hs) as (Hm & Hn & He & σ & Hσ & Hc & Hst). clear H.
  set (w1 := (run (KcpPeer.send self peer msg) w).2) in *.
  split; [cbn; by rewrite He|]. exists σ. cbn -[canonicalize]. rewrite Hn, Hm.
  split_and!; [by rewrite lookup_insert_ne by lia|done|done|].
  intros can. rewrite !lookup_insert. repeat case_decide; try congruence; [intros [= ?]; lia|].
  intros Hcan. destruct (HI2 _ _ Hcan) as (σ' & Hσ' & _). destruct (HI1 _ _ Hσ'). lia.
Qed.

(** ** A stale removal *)

Lemma scan_dead now_ms now_epoch s σ w :
  w.(heap) !! s = Some σ → σ.(closed) = false → σ.(inner).(state) = Established →
  dead σ = true →
  run (scan config now_ms now_epoch [(canonicalize from, s)] []) w = ([canonicalize from], w).
Proof.
  intros Hσ Hc Hst Hd. cbn [scan]. unfold scan_session. rewrite run_bind. loads. rewrite Hc.
  rewrite run_bind. destruct (run_update s now_ms σ w Hσ) as (_ & H & _).
  by rewrite (H Hst Hd).
Qed.

Lemma tick_to_prune s σ w i ts :
  OsLaws os → w.(sessions) = {[ canonicalize from := s ]} → w.(heap) !! s = Some σ →
  σ.(closed) = false → σ.(inner).(state) = Established → dead σ = true →
  ts !! i = Some (update_tick config) →
  pool_reach (spawnable self) (ts, w)
    (<[i := for_each [canonicalize from] prune]> ts, tick_clock (tick_clock w)).
Proof.
  intros OL Hm Hσ Hc Hst Hd Hi. unfold pool_reach.
  assert (Hlt : (i < length ts)%nat) by (by eapply lookup_lt_Some).
  etransitivity; [by apply (pool_run_bind _ i (get sessions))|]. rewrite run_get. cbn [fst snd].
  rewrite decide_False by (rewrite Hm; apply map_non_empty_singleton).
  etransitivity; [apply (pool_run_bind _ i current_ms); by apply list_lookup_insert_eq|].
  unfold current_ms. rewrite run_act, list_insert_insert_eq. cbn [fst snd].
  etransitivity; [apply (pool_run_bind _ i epoch_ms); by apply list_lookup_insert_eq|].
  unfold epoch_ms. rewrite run_act, list_insert_insert_eq. cbn [fst snd].
  etransitivity; [apply (pool_run_bind _ i (get (λ w, os_iter w.(sessions)))); by apply list_lookup_insert_eq|].
  rewrite run_get, list_insert_insert_eq. cbn [fst snd].
  assert (os_iter (tick_clock (tick_clock w)).(sessions) = [(canonicalize from, s)]) as ->.
  { cbn. rewrite Hm. apply Permutation_singleton_r. rewrite (os_iter_perm _).
    by rewrite map_to_list_singleton. }
  etransitivity; [eapply (pool_run_bind _ i (scan _ _ _ _ _)); by apply list_lookup_insert_eq|].
  rewrite (scan_dead _ _ s σ) by done. rewrite list_insert_insert_eq. cbn [fst snd]. constructor.
Qed.

(** The update task decides which addresses to remove and removes them
    one lock later, by address: a peer that restarts in between (a SYN with a
    new conversation id replaces its dead session) has its new session closed
    and reset in place of the dead one. [Connected] is followed by
    [Disconnected] and three RESETs with the new id. *)
Theorem stale_prune_kills_new_session s σ w :
  OsLaws os → node_inv w → w.(sessions) = {[ canonicalize from := s ]} →
  w.(heap) !! s = Some σ → σ.(closed) = false → σ.(inner).(state) = Established →
  dead σ = true → σ.(inner).(conv_id) ≠ conv →
  ∃ w', pool_reach (spawnable self)
      ([task_prog self TTick; task_prog self (TIncoming data from)], w) ([Ret tt; Ret tt], w') ∧
    w'.(sessions) = ∅ ∧
    w'.(events) = w.(events) ++ [PeerRestarted from; Connected from; Disconnected from] ∧
    (∃ σ', w'.(heap) !! w.(next) = Some σ' ∧ σ'.(closed) = true ∧
      σ'.(inner).(conv_id) = conv ∧ σ'.(inner).(state) = Established) ∧
    ∃ ds, wire <$> w'.(sent) = ds ++ replicate 3 (from, encode_control Reset conv).
Proof.
  intros OL HI Hm Hσ Hc Hst Hd Hne. unfold pool_reach.
  set (w0 := tick_clock (tick_clock w)).
  assert (Hs0 : w0.(sessions) !! canonicalize from = Some s)
    by (cbn; rewrite Hm; apply lookup_singleton_eq).
  pose proof (syn_restarts_session data payload from me inc config Hdata Hlen Hme s σ w0
    Hs0 Hσ Hne Hst) as Hrun. fold conv in Hrun.
  set (w2 := inbound_world _ _ _ _ _) in Hrun.
  assert (Hs2 : w2.(sessions) !! canonicalize from = Some w.(next)) by apply lookup_insert_eq.
  assert (Hσ2 : ∃ σ2, w2.(heap) !! w.(next) = Some σ2 ∧ σ2.(peer_addr) = from ∧
    σ2.(inner).(conv_id) = conv ∧ σ2.(inner).(state) = Established).
  { eexists. split; [apply lookup_insert_eq|done]. }
  destruct Hσ2 as (σ2 & Hσ2 & Hp2 & Hc2 & Hst2).
  eexists. split.
  { etransitivity; [by apply (tick_to_prune s σ w 0)|]. cbn [list_insert insert].
    etransitivity; [by apply (pool_run _ 1)|]. cbn [list_insert insert task_prog].
    rewrite run_bind. fold w0 inc config. rewrite Hrun. cbn [fst snd run].
    etransitivity; [by apply (pool_run _ 0)|]. cbn [list_insert insert]. constructor. }
  cbn [for_each]. rewrite run_bind, (run_prune _ _ σ2) by done. cbn [snd run].
  rewrite Hp2, Hc2. split_and!.
  - cbn -[canonicalize]. rewrite Hm. by rewrite delete_insert_eq, delete_singleton_eq.
  - cbn. by rewrite <- !app_assoc.
  - exists (set_closed true σ2). cbn [push_event upd_heap heap].
    split; [apply lookup_insert_eq|by split_and!].
  - exists (wire <$> w2.(sent)). unfold reset_world, reset_once.
    cbn [push_event upd_heap push_sent upd_sessions sent].
    by rewrite !fmap_app, <- !app_assoc.
Qed.
End Races.

(** ** A stale RESET *)

Section StaleReset.
Context {K : KcpLib} {L : @KcpLaws K} {os : Os} (self : KcpPeer).
Context (data payload : bytes) (from : SocketAddr).
Let conv := payload_conv payload.
Let can := canonicalize from.
Context (Hdata : split_packet data = Some (Reset, payload)) (Hlen : (4 ≤ length payload)%nat).

(** What the handler of a RESET does once it has found the ids equal. *)
Definition reset_rest (s : nat) : prog World unit :=
  (map_remove can ;; Session.mark_closed s ;; event_send (Disconnected from) ;;
   Ret (Ok tt : Result unit Error)) ;; Ret tt.

Lemma reset_task_reach s σ ts i w :
  w.(sessions) !! can = Some s → w.(heap) !! s = Some σ → σ.(inner).(conv_id) = conv →
  ts !! i = Some (task_prog self (TIncoming data from)) →
  pool_reach (spawnable self) (ts, w) (<[i := reset_rest s]> ts, w).
Proof.
  intros Hs Hσ Hc Hi. unfold pool_reach.
  assert (Hlt : (i < length ts)%nat) by (by eapply lookup_lt_Some).
  cbn [task_prog] in Hi. rewrite (handle_control _ _ _ _ _ _ Hdata) in Hi.
  unfold handle_reset in Hi. rewrite decide_False in Hi by lia. cbv zeta in Hi.
  etransitivity; [eapply (pool_run_bind _ i (map_get can)); exact Hi|].
  unfold map_get. rewrite run_get. cbn [fst snd]. rewrite Hs.
  etransitivity; [eapply (pool_run_bind _ i (load s _)); by apply list_lookup_insert_eq|].
  rewrite list_insert_insert_eq. unfold load. rewrite run_get. cbn [fst snd].
  rewrite (lookup_total_correct _ _ _ Hσ), Hc. fold conv. rewrite Z.eqb_refl. constructor.
Qed.

(** The handler of a RESET decides by conversation id and removes by
    address: if the session that the RESET is about is replaced in between (it
    is disconnected, and [send] opens a new one), the handler takes the new
    session out of the map. That session is left open and connecting, but the
    map does not lead to it any more; the application has seen [Disconnected] twice. *)
Theorem stale_reset_orphans_session s σ msg w :
  node_inv w → w.(sessions) !! can = Some s → w.(heap) !! s = Some σ →
  σ.(inner).(conv_id) = conv →
  ∃ w', pool_reach (spawnable self)
      ([task_prog self (TIncoming data from); task_prog self (TDisconnect from);
        task_prog self (TSend from msg)], w) ([Ret tt; Ret tt; Ret tt], w') ∧
    w'.(events) = w.(events) ++ [Disconnected from; Disconnected from] ∧
    (∃ σ', w'.(heap) !! w.(next) = Some σ' ∧ σ'.(closed) = false ∧
      σ'.(inner).(state) = SynSent ∧ ∀ can', w'.(sessions) !! can' ≠ Some w.(next)) ∧
    w'.(sessions) !! can = None.
Proof.
  intros [HI1 HI2] Hs Hσ Hc. pose proof (run_disconnect from w) as Hd. fold can in Hd.
  rewrite Hs in Hd. specialize (Hd σ Hσ). set (w1 := push_event _ _) in Hd.
  assert (Hs1 : w1.(sessions) !! can = None) by apply lookup_delete_eq.
  destruct (send_connecting self from msg w1 Hs1) as (Hm & Hn & He & σ' & Hσ' & Hcl & Hst).
  change w1.(next) with w.(next) in *. set (w2 := (run _ w1).2) in *. eexists. split.
  { unfold pool_reach. etransitivity; [by eapply (reset_task_reach s σ _ 0)|].
    cbn [list_insert insert]. etransitivity; [by apply (pool_run _ 1)|].
    cbn [list_insert insert task_prog]. rewrite Hd. cbn [snd].
    etransitivity; [by apply (pool_run _ 2)|]. cbn [list_insert insert task_prog].
    rewrite run_bind. cbn [run snd]. fold w2.
    etransitivity; [by apply (pool_run _ 0)|]. cbn [list_insert insert]. constructor. }
  destruct (HI1 _ _ Hσ) as [Hlt _]. cbn -[can w2]. fold can in Hm. rewrite Hm, He.
  split_and!.
  - cbn. by rewrite <- app_assoc.
  - exists σ'. rewrite lookup_alter_ne by lia. split_and!; [done..|].
    intros can'. rewrite lookup_delete, lookup_insert. repeat case_decide; try congruence.
    cbn. rewrite lookup_delete. case_decide; [done|]. intros Hcan.
    destruct (HI2 _ _ Hcan) as (σ'' & H'' & _). destruct (HI1 _ _ H''). lia.
  - apply lookup_delete_eq.
Qed.
End StaleReset.

(** ** On concrete nodes *)

Lemma stale_reset_orphans_session_witness :
  ∃ w', pool_reach (spawnable (K := toy_lib) (os := toy_os addr_a) toy_node)
      ([task_prog (K := toy_lib) (os := toy_os addr_a) toy_node (TIncoming (encode_control Reset 7) addr_b);
        task_prog (K := toy_lib) (os := toy_os addr_a) toy_node (TDisconnect addr_b);
        task_prog (K := toy_lib) (os := toy_os addr_a) toy_node (TSend addr_b [1])],
       toy_world toy_connected) ([Ret tt; Ret tt; Ret tt], w') ∧
    w'.(events) = [Disconnected addr_b; Disconnected addr_b].
Proof.
  destruct (stale_reset_orphans_session (L := toy_laws) (os := toy_os addr_a) toy_node
    (encode_control Reset 7) (to_le_bytes 7) addr_b eq_refl ltac:(cbn; lia)
    0%nat toy_connected [1] (toy_world toy_connected)
    (toy_world_inv _ toy_connected_ok) eq_refl eq_refl eq_refl) as (w' & Hr & He & _).
  exists w'. split; [exact Hr|exact He].
Defined.

Lemma inbound_race_orphans_session_witness :
  ∃ w', pool_reach (spawnable (K := toy_lib) (os := toy_os addr_a) toy_node)
      ([task_prog (K := toy_lib) (os := toy_os addr_a) toy_node (TIncoming (encode_control Syn 9) addr_b);
        task_prog (K := toy_lib) (os := toy_os addr_a) toy_node (TSend addr_b [1])], KcpPeer.empty_world)
      ([Ret tt; Ret tt], w') ∧ w'.(events) = [Connected addr_b].
Proof.
  destruct (inbound_race_orphans_session (L := toy_laws) (os := toy_os addr_a) toy_node
    (encode_control Syn 9) (to_le_bytes 9) addr_b addr_a eq_refl ltac:(cbn; lia) eq_refl
    addr_b [1] KcpPeer.empty_world eq_refl eq_refl empty_world_inv) as (w' & Hr & He & _).
  exists w'. split; [exact Hr|exact He].
Defined.

Lemma stale_prune_kills_new_session_witness :
  ∃ w', pool_reach (spawnable (K := toy_lib) (os := toy_os addr_a) toy_node)
      ([task_prog (K := toy_lib) (os := toy_os addr_a) toy_node TTick;
        task_prog (K := toy_lib) (os := toy_os addr_a) toy_node (TIncoming (encode_control Syn 9) addr_b)],
       toy_world toy_dead_session) ([Ret tt; Ret tt], w') ∧
    w'.(events) = [PeerRestarted addr_b; Connected addr_b; Disconnected addr_b].
Proof.
  destruct (stale_prune_kills_new_session (K := toy_lib) (os := toy_os addr_a) toy_node
    (encode_control Syn 9) (to_le_bytes 9) addr_b addr_a eq_refl ltac:(cbn; lia) eq_refl
    0%nat toy_dead_session (toy_world toy_dead_session) (toy_os_laws addr_a)
    (toy_world_inv _ toy_dead_ok) eq_refl eq_refl eq_refl eq_refl eq_refl ltac:(vm_compute; discriminate))
    as (w' & Hr & _ & He & _).
  exists w'. split; [exact Hr|exact He].
Defined.
